(* ===== verification/_CoqProject ===== *)
-Q . S2P
Prelude.v
Primitives.v
Order.v
Hashing.v
Io.v
MptNode.v
Sha256.v
MptNodeFacts.v
MptCache.v
MptTrie.v
MptSpec.v
MptCacheFacts.v
MptCommitFacts.v
MptRefine.v
MptModes.v
MptFinal.v
MptMap.v
MptFind.v
MptOps.v
Instances.v
MptPrune.v
MptFull.v
MptBinding.v
RootAudit.v
RootAuditFacts.v
RootAuditThms.v
MptProof.v
MptCacheThms.v
Genesis.v
MerkleTree.v
EcPoint.v
SampleKeys.v
OpCode.v
Instruction.v
ScriptBuilder.v
ScriptFacts.v
RecordUpdate.v
Multisig.v
Signing.v
SigningFacts.v
Transaction.v
TransactionFacts.v
Admission.v
SampleChain.v
AdmissionFacts.v
Mempool.v
MempoolIndex.v
MempoolFacts.v
MempoolInv.v
MempoolConflicts.v
MempoolFees.v
MempoolPersist.v
MempoolThms.v
Storage.v
StoreCache.v
StorageFacts.v
StorageFind.v
StorageThms.v
Hoare.v
DbftMessages.v
DbftContext.v
DbftService.v
Block.v
BlockFacts.v
Quorum.v
DbftQuiet.v
DbftInv.v
DbftSteps.v
DbftFrame.v
DbftLog.v
DbftRun.v
DbftInput.v
DbftSafety.v
DbftSample.v
DbftWitness.v
BlockAssembly.v
DbftFaults.v
