(* ===== verification/Prelude.v ===== *)
(** * neo-rs: a verification library for a Neo N3 node

    The repository under src/ is a Rust implementation of a Neo N3 node: a
    replicated ledger whose validators agree on blocks by dBFT, whose blocks run
    scripts on the NeoVM, and whose contract storage is authenticated by a Merkle
    Patricia trie.  This library is a shallow embedding of its protocol core: each
    function of the code is a Rocq function of the same name, with the same
    branches and errors, and each stateful object is a record passed through a
    state-and-error monad ([M], below).

    ** Conventions

    Unsigned machine integers are [N] and signed ones [Z], with wrapping and
    saturation written out where the code can reach them; bytes are [byte], byte
    strings [list byte].  [Result] is Rust's; [M S E A] is a computation on a
    mutable [S]: on failure it returns what was written before the [?] operator
    left the function.  Hash maps are [gmap]s, and where the code iterates over one
    visibly the order is [map_to_list] (the trie cache) or an unknown permutation
    ([HashOrder], below).  Panics are not reachable in what is modelled,
    except where a definition says so.

    Third-party code is a parameter, in the form of type classes with the laws the
    code relies on: SHA-256 ([Crypto]) and RIPEMD-160 ([Ripemd]), of which only
    the output width is used; elliptic-curve decoding, signing and verification
    ([Curves], [Point]); the key-value store under the trie ([Store] and its
    laws); the LRU set of seen messages ([MessageCache]); bincode ([Bincode]);
    ECDSA over P-256 ([Ecdsa]); the bytes of a big integer ([BigIntBytes]); the
    database under contract storage ([TransactionalStore] with [StoreLaws]).  What
    transaction verification reads of the ledger and
    of the native contracts is behind traits in the code and behind the classes
    [AdmissionLedgerProvider], [AdmissionNativeProvider] and [AdmissionState] here.
    Cryptographic strength is never assumed outright: a theorem that needs it says
    that the hash does not collide on the finitely many byte strings at hand, or
    that no one else made a signature of an honest key.  Each class has an
    executable instance (Sha256.v, Instances.v, SampleKeys.v, SampleChain.v,
    DbftSample.v) on which the witnesses evaluate the theorems.

    ** Parts

    - Base.  Prelude.v: results, the monad, lists, little-endian integers.
      Primitives.v: [UInt256] and [UInt160] (neo-primitives).  Order.v: order of
      byte strings.  Hashing.v: the hash functions of neo-crypto.  Io.v: the reader,
      the writer and the compact codecs of neo-io; theorems: var-ints and arrays
      round-trip and are canonical, the reader never leaves its buffer.
    - State trie (neo-trie/src/mpt).  MptNode.v: nodes and codec.  MptCache.v: the
      reference-counted cache, its deferred journal and its commit.  MptTrie.v:
      [Trie], lookup, put, delete, find, proofs, verification.  RootAudit.v: the
      audit of a persisted root.  Their theory: MptSpec.v is the abstract trie and
      its canonical form; MptCacheFacts.v and MptCommitFacts.v show the cache to
      be a reference-counted map; MptRefine.v proves the trie operations against
      an interface of the cache ([TrieCache]), which MptModes.v implements for each
      mode; MptFinal.v is finalization, MptMap.v the tree of a map, MptFind.v
      enumeration, MptOps.v the object as a whole.  Results: MptPrune.v and
      MptFull.v (a session of calls has the replies of a key-value map, and what a
      commit leaves in the store), MptBinding.v (tries have one root if and only if
      they answer alike),
      MptProof.v (proofs are sound and complete), RootAuditFacts.v and
      RootAuditThms.v (the audit is exact), MptCacheThms.v (the cache on its own),
      Genesis.v (the MainNet genesis root, computed).
    - Merkle trees of blocks (neo-crypto/src/hashes/merkle_tree.rs).  MerkleTree.v.
    - Scripts (neo-vm/src/vm_types, neo-vm/src/script_builder).  OpCode.v: the
      opcode table.  Instruction.v: decoder and script validation, which accepts
      exactly what a specification on the byte codes says.
      ScriptBuilder.v: emission, redeem scripts and their recognisers, the system
      call table.  ScriptFacts.v: what is built decodes to what it was built from.
      EcPoint.v: public keys (neo-crypto/src/curves/ecc.rs).  Multisig.v: the two
      multi-signature checks, of transaction verification and of CheckMultisig with
      the fee meter it charges (neo-execution), which accept the same signatures.
    - Payloads (neo-payloads).  Signing.v: scopes, witness conditions and rules,
      signers, witnesses.  Transaction.v: attributes, transactions, their memoised
      hash and size.  Block.v: headers, blocks, and the assembly of a committed
      block (neo-consensus/src/service/block_data.rs).  SigningFacts.v,
      TransactionFacts.v and BlockFacts.v: codecs round-trip, decoded objects are
      well formed, memos are never stale.
    - Admission and memory pool (neo-mempool).  Admission.v: verification of a
      transaction, independent of and dependent on the state, with the prices of
      neo-execution.  AdmissionFacts.v: what acceptance implies for signatures and
      fees.  Mempool.v: [MemoryPoolInner] and the operations of [MemoryPool], each
      one step, as the lock makes it.  MempoolIndex.v (the priority order and the
      index), MempoolFacts.v (eviction), MempoolInv.v (runs of operations),
      MempoolConflicts.v, MempoolFees.v and MempoolPersist.v are the theory;
      MempoolThms.v has the results, on capacity and order, conflicts, fees,
      persisted blocks, and a run in which re-verification loses count of fees.
    - Contract storage (neo-storage).  Storage.v: keys, items, and [DataCache] with
      its overlays; a cache with its ancestors is a list of states.  StoreCache.v:
      the store traits, the in-memory store and [StoreCache].  StorageFacts.v (what
      a cache shows, how each operation changes it, and that the two ways to merge
      an overlay agree on a writable cache) and StorageFind.v (scans)
      are the theory; StorageThms.v has the results: a stack of caches is a stack
      of maps, a durable commit leaves that map in the store or nothing, an atomic
      merge is all or nothing, the in-memory store satisfies the laws, and a
      read-only cache is written by its overlays.
    - Consensus (neo-consensus, and the driver in neo-node/src/consensus).
      DbftMessages.v: messages and wire formats.  DbftContext.v: the round state.
      DbftService.v: the whole service, every handler, with its signatures,
      recovery-log writes and events recorded in a trace ([Action]); the clock,
      nonces, signer, event channel and disk are answers of a [World].  DbftRun.v:
      runs, i.e. lists of what the driver feeds the service, restarts included.
      Theory: Hoare.v (program logic), DbftQuiet.v, DbftInv.v, DbftSteps.v (the
      invariant and its preservation), DbftFrame.v (what every step keeps),
      DbftLog.v (the recovery log).  Results: DbftSafety.v (agreement, certified
      blocks, one signature per height), DbftInput.v (forged and replayed messages,
      views), DbftFaults.v (runs in which the code falls short of its intent),
      with Quorum.v, DbftSample.v and DbftWitness.v.  BlockAssembly.v joins the
      parts: the block assembled from a committed round has the hash that was
      signed, and its witness passes both multi-signature checks.

    ** Bounds and fuel

    Recursion that is not structural takes fuel computed from its input, and the
    theorems are about the function with that fuel: a trie operation makes at most
    two calls per nibble of its path, one of them to resolve a hash
    ([path_fuel]), and a walk at most two per nibble of the longest key
    ([traverse_fuel]); Merkle levels halve; a script has at most as many
    instructions as bytes; the links of the deferred journal are as many as its
    records; the root audit visits at most as many rows as its limit; eviction
    from the pool takes at most as many steps as the pool has entries.  Running out
    of fuel is an outcome of its own, and the theorems show it is not reached.

    ** What the runs of the consensus theorems assume

    [disciplined] (DbftRun.v): rounds go up, the node is a validator of each round
    with the key it signs with, it restarts only over storage whose writes
    succeeded, at the same height or above, over the same parent and with distinct
    keys in the committee, and it is not handed transactions as primary after it
    committed in that view.  What is said of certificates also needs a signer that
    signs for the node's key ([key_pair]).  That last condition on transactions is not guaranteed by the code
    ([DbftFaults.second_answer_signs_twice]).  Messages, their order, their loss and
    their content, and the behaviour of up to [(N-1)/3] validators, are arbitrary.

    ** What the pool theorems assume

    [pool_invariant] assumes nothing of the transactions, the providers or the
    verifier.  [pool_conflict_free] is about the operations the node calls and
    [commit_block] ([tracked]): the public [reverify] and [remove] do not keep the
    conflict index.  [pool_solvent] is about submissions on one snapshot: fees are not
    negative, as for every decoded transaction ([decoded_transaction_wf]), no two
    transactions contain each other's hash ([acyclic]; a pair that does is a cycle
    of SHA-256), and the Notary hash of the native contracts is the constant the
    pool uses.  Re-verification is excluded there because it breaks the accounting
    ([failed_reverification_overspends]).  [admitted_transaction_pays] bounds the
    prices by the ranges the native contracts enforce and relies on the engine to
    charge no negative fee ([engine_metered]); 64-bit arithmetic wraps, as in a
    release build.

    ** What the storage theorems assume

    [permitted_run] (StorageThms.v): a key is added only when it is not visible in
    the cache, since the cache does not ask its backing whether the key is there.
    The root is not dropped, and over a store it is committed by its [StoreCache].
    An overlay of a read-only cache is not committed while a read observer is
    active: the observed merge loses its changes, the other one writes them
    ([read_only_cache_is_written]).  [StoreLaws] says what successful commits write
    and that a durable commit is all or nothing; that the other commits of a store
    write nothing when they fail is not assumed, but a condition where it is needed
    ([failures_atomic]).
    The rows of the store have keys of at least four bytes, the contract id
    ([long]).  Operations are atomic steps on a stack of caches, of which the top
    one is used; interleaved use of several overlays of one cache is not covered.

    ** Not modelled

    Telemetry, logging and metrics; asynchronous plumbing (channels and tasks: an
    input that is dropped is one that is not in the run); the databases behind the
    stores, typed tables, and what read observers are told (that one is active is an
    argument of a commit); the memo of a storage key's bytes, which only keys
    shorter than a contract id can tell; the networking, RPC, wallet, indexer and
    command-line crates; the NeoVM interpreter, native contracts and the application engine, whose semantics
    needs the whole contract runtime (a witness that is not a signature or
    multi-signature contract is run by the parameter [verify_witness]); JSON and
    stack-item forms of payloads; peer-to-peer messages; ledger reads of the driver,
    which are data of a round.  PROJECT.json lists every part with its status. *)
From stdpp Require Export base gmap list strings numbers sorting.
From Stdlib Require Export Strings.Byte NArith ZArith Lia.

(** ** Results and effects *)

(** Rust's [Result<A, E>]. *)
Inductive Result (E A : Type) : Type :=
| Ok (a : A)
| Err (e : E).
Arguments Ok {E A} a.
Arguments Err {E A} e.

#[export] Instance Result_eq_dec {E A} `{EqDecision E, EqDecision A} :
  EqDecision (Result E A).
Proof. solve_decision. Defined.

#[export] Instance Result_ret E : MRet (Result E) := λ A a, Ok a.
#[export] Instance Result_bind E : MBind (Result E) := λ A B f r,
  match r with Ok a => f a | Err e => Err e end.

Lemma Result_bind_ok {E A B} (r : Result E A) (f : A → Result E B) b :
  r ≫= f = Ok b ↔ ∃ a, r = Ok a ∧ f a = Ok b.
Proof. destruct r; cbn; naive_solver. Qed.

(** A computation over a mutable state [S] that may fail with [E].  The state
    is returned on failure too: a Rust [&mut] borrow keeps whatever was written
    to it before the [?] operator left the function. *)
Definition M (S E A : Type) : Type := S → S * Result E A.

#[export] Instance M_ret S E : MRet (M S E) := λ A a s, (s, Ok a).
#[export] Instance M_bind S E : MBind (M S E) := λ A B f m s,
  match m s with
  | (s', Ok a) => f a s'
  | (s', Err e) => (s', Err e)
  end.

Definition fail {S E A} (e : E) : M S E A := λ s, (s, Err e).
Definition gets {S E A} (f : S → A) : M S E A := λ s, (s, Ok (f s)).
Definition modify {S E} (f : S → S) : M S E unit := λ s, (f s, Ok tt).
(** The [?] operator on a pure [Result]. *)
Definition lift {S E A} (r : Result E A) : M S E A := λ s, (s, r).
(** [map_err] on an effectful call. *)
Definition map_err {S E E' A} (f : E → E') (m : M S E A) : M S E' A := λ s,
  match m s with
  | (s', Ok a) => (s', Ok a)
  | (s', Err e) => (s', Err (f e))
  end.

Section loops.
Context {S E A : Type}.

(** [for x in l { body }] with early return on error. *)
Section for_each.
Context (body : A → M S E unit).
Fixpoint for_each (l : list A) : M S E unit :=
  match l with
  | [] => mret tt
  | x :: l' => body x ≫= λ _, for_each l'
  end.
End for_each.

(** [for _ in 0..n { result.push(body?) }]. *)
Section collect.
Context (body : M S E A).
Fixpoint collect (n : nat) : M S E (list A) :=
  match n with
  | O => mret []
  | Datatypes.S n' => body ≫= λ x, collect n' ≫= λ xs, mret (x :: xs)
  end.
End collect.

(** [for _ in 0..n { body?; }]. *)
Section repeat_n.
Context (body : M S E unit).
Fixpoint repeat_n (n : nat) : M S E unit :=
  match n with
  | O => mret tt
  | Datatypes.S n' => body ≫= λ _, repeat_n n'
  end.
End repeat_n.
End loops.

Section monad_laws.
Context {S E : Type}.

Lemma mbind_ok {A B} (m : M S E A) (f : A → M S E B) s s' a :
  m s = (s', Ok a) → (m ≫= f) s = f a s'.
Proof. intros H. unfold mbind, M_bind. by rewrite H. Qed.

Lemma mbind_err {A B} (m : M S E A) (f : A → M S E B) s s' e :
  m s = (s', Err e) → (m ≫= f) s = (s', Err e).
Proof. intros H. unfold mbind, M_bind. by rewrite H. Qed.

Lemma mbind_inv_ok {A B} (m : M S E A) (f : A → M S E B) s s'' b :
  (m ≫= f) s = (s'', Ok b) →
  ∃ s' a, m s = (s', Ok a) ∧ f a s' = (s'', Ok b).
Proof.
  unfold mbind, M_bind. destruct (m s) as [s' [a|e]]; naive_solver.
Qed.

Lemma map_err_ok {E' A} (f : E → E') (m : M S E A) s s' a :
  m s = (s', Ok a) → map_err f m s = (s', Ok a).
Proof. intros H. unfold map_err. by rewrite H. Qed.

Lemma map_err_inv_ok {E' A} (f : E → E') (m : M S E A) s s' a :
  map_err f m s = (s', Ok a) → m s = (s', Ok a).
Proof. unfold map_err. destruct (m s) as [? []]; naive_solver. Qed.
End monad_laws.

(** Steps of a straight-line effectful computation. *)
Ltac mstep H := rewrite (mbind_ok _ _ _ _ _ H).
Ltac minv H :=
  let s := fresh "s" in let a := fresh "a" in let H1 := fresh "Hrun" in
  apply mbind_inv_ok in H as (s & a & H1 & H).

(** ** Bytes and machine integers *)

#[export] Instance byte_eq_dec : EqDecision byte := byte_eq_dec.
#[export] Program Instance byte_countable : Countable byte :=
  inj_countable Byte.to_N Byte.of_N _.
Next Obligation. apply of_to_N. Qed.

Abbreviation bytes := (list byte).

(** [x as u8] for an unsigned [x]. *)
Definition as_u8 (n : N) : byte :=
  match Byte.of_N (n mod 256) with Some b => b | None => x00 end.

Lemma to_N_as_u8 n : Byte.to_N (as_u8 n) = (n mod 256)%N.
Proof.
  unfold as_u8. destruct (Byte.of_N (n mod 256)) eqn:E.
  - by apply to_of_N.
  - apply of_N_None_iff in E. pose proof (N.mod_lt n 256). lia.
Qed.

Lemma to_N_lt b : (Byte.to_N b < 256)%N.
Proof. pose proof (to_N_bounded b). lia. Qed.

Lemma to_N_inj b1 b2 : Byte.to_N b1 = Byte.to_N b2 → b1 = b2.
Proof. intros H. apply (f_equal Byte.of_N) in H. rewrite !of_to_N in H. by simplify_eq. Qed.

Lemma as_u8_to_N b : as_u8 (Byte.to_N b) = b.
Proof.
  apply to_N_inj. rewrite to_N_as_u8. apply N.mod_small, to_N_lt.
Qed.

(** [to_le_bytes] of a [w]-byte unsigned integer. *)
Fixpoint to_le_bytes (w : nat) (n : N) : bytes :=
  match w with
  | O => []
  | S w' => as_u8 n :: to_le_bytes w' (n / 256)
  end.

(** [from_le_bytes]. *)
Fixpoint from_le_bytes (l : bytes) : N :=
  match l with
  | [] => 0
  | b :: l' => Byte.to_N b + 256 * from_le_bytes l'
  end.

Lemma length_to_le_bytes w n : length (to_le_bytes w n) = w.
Proof. revert n. induction w; intros n; simpl; [done|]. by rewrite IHw. Qed.

Lemma from_to_le_bytes w n :
  from_le_bytes (to_le_bytes w n) = (n mod 256 ^ N.of_nat w)%N.
Proof.
  revert n. induction w as [|w IH]; intros n; cbn [to_le_bytes from_le_bytes].
  - by rewrite N.mod_1_r.
  - rewrite IH, to_N_as_u8, Nat2N.inj_succ, N.pow_succ_r' by lia.
    rewrite N.Div0.mod_mul_r. lia.
Qed.

Lemma from_to_le_bytes_small w n :
  (n < 256 ^ N.of_nat w)%N → from_le_bytes (to_le_bytes w n) = n.
Proof. intros H. rewrite from_to_le_bytes. by apply N.mod_small. Qed.

Lemma to_from_le_bytes l : to_le_bytes (length l) (from_le_bytes l) = l.
Proof.
  induction l as [|b l IH]; simpl; [done|]. f_equal.
  - apply to_N_inj. rewrite to_N_as_u8, N.mul_comm, N.Div0.mod_add.
    apply N.mod_small, to_N_lt.
  - rewrite N.mul_comm, N.div_add by lia.
    rewrite N.div_small by apply to_N_lt. by rewrite N.add_0_l.
Qed.

Lemma from_le_bytes_bound l :
  (from_le_bytes l < 256 ^ N.of_nat (length l))%N.
Proof.
  induction l as [|b l IH]; cbn [length from_le_bytes]; [done|].
  rewrite Nat2N.inj_succ, N.pow_succ_r'. pose proof (to_N_lt b). lia.
Qed.

Definition u64_max : N := 18446744073709551615.
(** [usize] on the 64-bit targets the node supports. *)
Definition usize_max : N := u64_max.
Definition usize_saturating_add (a b : N) : N := N.min (a + b) usize_max.

(** [x as i32] for [x : u64]: keep the low 32 bits, read as two's complement. *)
Definition i32_wrap (z : Z) : Z := (z + 2 ^ 31) `mod` 2 ^ 32 - 2 ^ 31.
Definition u64_as_i32 (n : N) : Z := i32_wrap (Z.of_N n).
Definition i32_wrapping_add (a b : Z) : Z := i32_wrap (a + b).
Definition i32_range (z : Z) : Prop := (- 2 ^ 31 ≤ z < 2 ^ 31)%Z.

Lemma i32_wrap_range z : i32_range (i32_wrap z).
Proof.
  unfold i32_wrap, i32_range.
  pose proof (Z.mod_pos_bound (z + 2 ^ 31) (2 ^ 32)). lia.
Qed.

Lemma i32_wrap_id z : i32_range z → i32_wrap z = z.
Proof. unfold i32_wrap, i32_range. intros H. rewrite Z.mod_small; lia. Qed.

(** ** Lists indexed by machine integers *)

Definition len {A} (l : list A) : N := N.of_nat (length l).

Lemma len_app {A} (l k : list A) : len (l ++ k) = (len l + len k)%N.
Proof. unfold len. rewrite length_app. lia. Qed.
Lemma len_cons {A} (x : A) l : len (x :: l) = (1 + len l)%N.
Proof. unfold len. simpl. lia. Qed.
Lemma len_nil {A} : len ([] : list A) = 0%N.
Proof. done. Qed.

(** [buffer[start..start + n]]. *)
Definition slice {A} (l : list A) (start n : N) : list A :=
  take (N.to_nat n) (drop (N.to_nat start) l).

Lemma slice_app_exact {A} (pre mid post : list A) :
  slice (pre ++ mid ++ post) (len pre) (len mid) = mid.
Proof.
  unfold slice, len. rewrite !Nat2N.id, drop_app_length, take_app_length. done.
Qed.

Lemma length_slice {A} (l : list A) s n :
  (s + n ≤ len l)%N → len (slice l s n) = n.
Proof. unfold len, slice. intros H. rewrite length_take, length_drop. lia. Qed.

(** [starts_with]. *)
Fixpoint starts_with {A} `{EqDecision A} (l p : list A) {struct p} : bool :=
  match p, l with
  | [], _ => true
  | _ :: _, [] => false
  | y :: p', x :: l' => bool_decide (x = y) && starts_with l' p'
  end.

Lemma starts_with_spec {A} `{EqDecision A} (l p : list A) :
  starts_with l p = true ↔ ∃ r, l = p ++ r.
Proof.
  revert l. induction p as [|y p IH]; intros l; simpl.
  { split; [intros _; by exists l|done]. }
  destruct l as [|x l].
  { split; [done|]. by intros [r ?]. }
  rewrite andb_true_iff, bool_decide_eq_true, IH. split.
  - intros [-> [r ->]]. by exists r.
  - intros [r [= -> ->]]. eauto.
Qed.

Lemma starts_with_app {A} `{EqDecision A} (p r : list A) :
  starts_with (p ++ r) p = true.
Proof. apply starts_with_spec. eauto. Qed.

Lemma starts_with_false {A} `{EqDecision A} (l p : list A) :
  starts_with l p = false ↔ ∀ r, l ≠ p ++ r.
Proof.
  destruct (starts_with l p) eqn:E.
  - apply starts_with_spec in E as [r ->]. split; [done|]. intros H. by edestruct H.
  - split; [|done]. intros _ r ->. by rewrite starts_with_app in E.
Qed.

Lemma filter_none {A} (P : A → Prop) `{∀ x, Decision (P x)} l :
  (∀ x, x ∈ l → ¬ P x) → filter P l = [].
Proof.
  intros Hn. destruct (filter P l) as [|x l'] eqn:E; [done|].
  assert (x ∈ filter P l) as [HP Hx]%list_elem_of_filter by (rewrite E; left). by destruct (Hn x).
Qed.

(** ** Automation shared by the components *)

(** Permutations of concatenations: cancel the first block of the left side
    wherever it occurs on the right. *)
Section permutation.
Context {A : Type}.
Implicit Types x y l r : list A.

Lemma perm_cancel x l r r' : r ≡ₚ x ++ r' → l ≡ₚ r' → x ++ l ≡ₚ r.
Proof. by intros -> ->. Qed.
Lemma perm_last x : x ≡ₚ x ++ [].
Proof. by rewrite app_nil_r. Qed.
Lemma perm_skip_block x y r r' : r ≡ₚ x ++ r' → y ++ r ≡ₚ x ++ y ++ r'.
Proof. intros ->. apply Permutation_app_swap_app. Qed.
End permutation.
Ltac perm_find := first [reflexivity | apply perm_last | apply perm_skip_block; perm_find].
Ltac perm_loop :=
  first [reflexivity | eapply perm_cancel; [perm_find|]; rewrite ?app_nil_r; perm_loop].
Ltac perm := rewrite <-?app_assoc; cbn [app]; rewrite ?app_nil_r; perm_loop.

Create HintDb neo.
#[export] Hint Resolve to_N_lt from_le_bytes_bound i32_wrap_range : neo.
#[export] Hint Rewrite @len_app @len_cons @len_nil length_to_le_bytes
  as_u8_to_N to_N_as_u8 : neo.

(** ** Iteration order of [HashMap] and [HashSet] *)

(** Some permutation of the entries, as Rust promises. *)
Class HashOrder := {
  iter : ∀ {K} `{Countable K} {A}, gmap K A → list (K * A);
  iter_perm : ∀ {K} `{Countable K} {A} (m : gmap K A), iter m ≡ₚ map_to_list m;
}.
Definition iter_set `{HashOrder} `{Countable K} (s : gset K) : list K := (iter (gset_to_gmap () s)).*1.
Lemma iter_set_perm `{HashOrder} `{Countable K} (s : gset K) : iter_set s ≡ₚ elements s.
Proof.
  unfold iter_set. rewrite iter_perm. symmetry. apply NoDup_Permutation.
  - apply NoDup_elements.
  - apply NoDup_fst_map_to_list.
  - intros k. rewrite elem_of_elements, list_elem_of_fmap. split.
    + intros Hk. exists (k, ()). split; [done|]. apply elem_of_map_to_list. by apply lookup_gset_to_gmap_Some.
    + intros ([k' []] & -> & Hk). by apply elem_of_map_to_list, lookup_gset_to_gmap_Some in Hk as [? _].
Qed.
Lemma elem_of_iter_set `{HashOrder} `{Countable K} (s : gset K) k : k ∈ iter_set s ↔ k ∈ s.
Proof. by rewrite iter_set_perm, elem_of_elements. Qed.
Lemma NoDup_iter_set `{HashOrder} `{Countable K} (s : gset K) : NoDup (iter_set s).
Proof. rewrite iter_set_perm. apply NoDup_elements. Qed.
