(* ===== verification/Primitives.v ===== *)
(** * Fixed-width hashes

    The [uint_type!] macro of neo-primitives (src/neo-primitives/src/macros/uint.rs)
    instantiated at [UInt256] and [UInt160]: the field layout, the
    little-endian byte conversions and the ordering. *)
From S2P Require Import Prelude.

(** Errors of neo-primitives that the modelled code raises. *)
Inductive PrimitiveError := InvalidFormat.

#[export] Instance PrimitiveError_eq_dec : EqDecision PrimitiveError.
Proof. solve_decision. Defined.

Definition HASH_SIZE : nat := 32.
Definition ADDRESS_SIZE : nat := 20.
Definition UINT256_SIZE : nat := HASH_SIZE.
Definition UINT160_SIZE : nat := ADDRESS_SIZE.

(** Lexicographic comparison that stops at the first difference. *)
Definition cmp_then (c k : comparison) : comparison :=
  match c with Eq => k | other => other end.

Module UInt256.
Record t := mk { value1 : N; value2 : N; value3 : N; value4 : N }.

#[global] Instance eq_dec : EqDecision t.
Proof. solve_decision. Defined.
#[global] Program Instance countable : Countable t :=
  inj_countable' (λ h, (value1 h, value2 h, value3 h, value4 h))
    (λ '(a, b, c, d), mk a b c d) _.
Next Obligation. by intros []. Qed.

Definition zero : t := mk 0 0 0 0.
Definition is_zero (h : t) : bool :=
  (value1 h =? 0)%N && (value2 h =? 0)%N && (value3 h =? 0)%N && (value4 h =? 0)%N.

Definition to_array (h : t) : bytes :=
  to_le_bytes 8 (value1 h) ++ to_le_bytes 8 (value2 h) ++
  to_le_bytes 8 (value3 h) ++ to_le_bytes 8 (value4 h).

Definition from_array (data : bytes) : t :=
  {| value1 := from_le_bytes (slice data 0 8);
     value2 := from_le_bytes (slice data 8 8);
     value3 := from_le_bytes (slice data 16 8);
     value4 := from_le_bytes (slice data 24 8) |}.

Definition from_bytes (value : bytes) : Result PrimitiveError t :=
  if bool_decide (length value ≠ UINT256_SIZE) then Err InvalidFormat
  else Ok (from_array value).

(** [Ord::cmp]: most significant word first. *)
Definition cmp (a b : t) : comparison :=
  cmp_then (value4 a ?= value4 b)%N
    (cmp_then (value3 a ?= value3 b)%N
       (cmp_then (value2 a ?= value2 b)%N
          (cmp_then (value1 a ?= value1 b)%N Eq))).

(** Every field fits in a [u64]. *)
Definition wf (h : t) : Prop :=
  (value1 h < 256 ^ 8 ∧ value2 h < 256 ^ 8 ∧ value3 h < 256 ^ 8 ∧ value4 h < 256 ^ 8)%N.

Definition to_N (h : t) : N := from_le_bytes (to_array h).
End UInt256.

Module UInt160.
Record t := mk { value1 : N; value2 : N; value3 : N }.

#[global] Instance eq_dec : EqDecision t.
Proof. solve_decision. Defined.
#[global] Program Instance countable : Countable t :=
  inj_countable' (λ h, (value1 h, value2 h, value3 h)) (λ '(a, b, c), mk a b c) _.
Next Obligation. by intros []. Qed.

Definition zero : t := mk 0 0 0.
Definition is_zero (h : t) : bool :=
  (value1 h =? 0)%N && (value2 h =? 0)%N && (value3 h =? 0)%N.

Definition to_array (h : t) : bytes :=
  to_le_bytes 8 (value1 h) ++ to_le_bytes 8 (value2 h) ++ to_le_bytes 4 (value3 h).

Definition from_array (data : bytes) : t :=
  {| value1 := from_le_bytes (slice data 0 8);
     value2 := from_le_bytes (slice data 8 8);
     value3 := from_le_bytes (slice data 16 4) |}.

Definition from_bytes (value : bytes) : Result PrimitiveError t :=
  if bool_decide (length value ≠ UINT160_SIZE) then Err InvalidFormat
  else Ok (from_array value).

Definition cmp (a b : t) : comparison :=
  cmp_then (value3 a ?= value3 b)%N
    (cmp_then (value2 a ?= value2 b)%N
       (cmp_then (value1 a ?= value1 b)%N Eq)).

Definition wf (h : t) : Prop :=
  (value1 h < 256 ^ 8 ∧ value2 h < 256 ^ 8 ∧ value3 h < 256 ^ 4)%N.

Definition to_N (h : t) : N := from_le_bytes (to_array h).
End UInt160.

(** ** Byte conversions are inverse *)

Lemma from_le_bytes_app l k :
  from_le_bytes (l ++ k) = (from_le_bytes l + 256 ^ len l * from_le_bytes k)%N.
Proof.
  induction l as [|b l IH]; cbn [app from_le_bytes].
  - change (len []) with 0%N. lia.
  - rewrite IH, len_cons, N.pow_add_r. lia.
Qed.

Lemma slice_0_app {A} (l k : list A) n :
  len l = n → slice (l ++ k) 0 n = l.
Proof. intros <-. apply (slice_app_exact [] l k). Qed.

Lemma slice_drop_app {A} (l k : list A) s n :
  (len l ≤ s)%N → slice (l ++ k) s n = slice k (s - len l) n.
Proof.
  unfold slice, len. intros H. rewrite drop_app_ge by lia.
  f_equal. f_equal. lia.
Qed.

Lemma len_le w n : len (to_le_bytes w n) = N.of_nat w.
Proof. unfold len. by rewrite length_to_le_bytes. Qed.

Lemma to_le_bytes_from w l : length l = w → to_le_bytes w (from_le_bytes l) = l.
Proof. intros <-. apply to_from_le_bytes. Qed.

Lemma length_slice_nat {A} (l : list A) s n :
  (N.to_nat s + N.to_nat n ≤ length l)%nat → length (slice l s n) = N.to_nat n.
Proof. unfold slice. intros H. rewrite length_take, length_drop. lia. Qed.

(** Comparing little-endian words of equal width, most significant last. *)
Lemma cmp_le_words c a b x y :
  (a < c)%N → (b < c)%N →
  (a + c * x ?= b + c * y)%N = cmp_then (x ?= y)%N (a ?= b)%N.
Proof.
  intros Ha Hb. unfold cmp_then.
  destruct (N.compare_spec x y) as [->|Hlt|Hgt].
  - destruct (N.compare_spec a b) as [->|?|?].
    + by apply N.compare_refl.
    + apply N.compare_lt_iff. lia.
    + apply N.compare_gt_iff. lia.
  - apply N.compare_lt_iff. nia.
  - apply N.compare_gt_iff. nia.
Qed.

Lemma cmp_then_assoc a b c : cmp_then (cmp_then a b) c = cmp_then a (cmp_then b c).
Proof. by destruct a. Qed.

Module UInt256Facts.
Import UInt256.

Lemma length_to_array h : length (to_array h) = UINT256_SIZE.
Proof. unfold to_array. by rewrite !length_app, !length_to_le_bytes. Qed.

Lemma from_array_to_array h : wf h → from_array (to_array h) = h.
Proof.
  intros (H1 & H2 & H3 & H4). destruct h as [a b c d]; simpl in *.
  unfold from_array, to_array; simpl value1; simpl value2; simpl value3; simpl value4.
  f_equal.
  - by rewrite slice_0_app, from_to_le_bytes_small by done.
  - rewrite slice_drop_app by (by rewrite len_le).
    by rewrite len_le, slice_0_app, from_to_le_bytes_small by done.
  - rewrite !slice_drop_app by (by rewrite ?len_le).
    by rewrite !len_le, slice_0_app, from_to_le_bytes_small by done.
  - rewrite !slice_drop_app by (by rewrite ?len_le).
    rewrite !len_le, <-(app_nil_r (to_le_bytes 8 d)).
    by rewrite slice_0_app, from_to_le_bytes_small by done.
Qed.

Lemma to_array_from_array d : length d = UINT256_SIZE → to_array (from_array d) = d.
Proof.
  intros H. unfold UINT256_SIZE, HASH_SIZE in H. unfold to_array, from_array.
  cbn [value1 value2 value3 value4].
  rewrite !to_le_bytes_from by (rewrite length_slice_nat; [done|rewrite H; lia]).
  do 32 (destruct d as [|? d]; [done|]). by destruct d.
Qed.

Lemma wf_from_array d : wf (from_array d).
Proof.
  assert (∀ s, (from_le_bytes (slice d s 8) < 256 ^ 8)%N) as Hb.
  { intros s. eapply N.lt_le_trans; [apply from_le_bytes_bound|].
    apply N.pow_le_mono_r; [done|]. unfold slice. rewrite length_take. lia. }
  by repeat split; apply Hb.
Qed.

Lemma from_bytes_ok d : length d = UINT256_SIZE → from_bytes d = Ok (from_array d).
Proof. intros H. unfold from_bytes. by rewrite bool_decide_false by (by intros ?). Qed.

Lemma from_bytes_to_array h : wf h → from_bytes (to_array h) = Ok h.
Proof.
  intros H. rewrite from_bytes_ok by apply length_to_array.
  by rewrite from_array_to_array.
Qed.

Lemma to_array_inj h1 h2 : wf h1 → wf h2 → to_array h1 = to_array h2 → h1 = h2.
Proof. intros H1 H2 E. by rewrite <-(from_array_to_array h1), E, from_array_to_array. Qed.

Lemma to_N_words h : wf h →
  to_N h = (value1 h + 256 ^ 8 * (value2 h + 256 ^ 8 * (value3 h + 256 ^ 8 * value4 h)))%N.
Proof.
  intros (H1 & H2 & H3 & H4). unfold to_N, to_array.
  rewrite !from_le_bytes_app, !len_le, !from_to_le_bytes_small by done. done.
Qed.
End UInt256Facts.

Module UInt160Facts.
Import UInt160.

Lemma length_to_array160 h : length (to_array h) = UINT160_SIZE.
Proof. unfold to_array. by rewrite !length_app, !length_to_le_bytes. Qed.

Lemma from_array_to_array160 h : wf h → from_array (to_array h) = h.
Proof.
  intros (H1 & H2 & H3). destruct h as [a b c]; simpl in *.
  unfold from_array, to_array; simpl value1; simpl value2; simpl value3.
  f_equal.
  - by rewrite slice_0_app, from_to_le_bytes_small by done.
  - rewrite slice_drop_app by (by rewrite len_le).
    by rewrite len_le, slice_0_app, from_to_le_bytes_small by done.
  - rewrite !slice_drop_app by (by rewrite ?len_le).
    rewrite !len_le, <-(app_nil_r (to_le_bytes 4 c)).
    by rewrite slice_0_app, from_to_le_bytes_small by done.
Qed.

Lemma from_bytes_to_array160 h : wf h → from_bytes (to_array h) = Ok h.
Proof.
  intros H. unfold from_bytes.
  rewrite bool_decide_false by (rewrite length_to_array160; by intros ?).
  by rewrite from_array_to_array160.
Qed.

Lemma to_N_words160 h : wf h →
  to_N h = (value1 h + 256 ^ 8 * (value2 h + 256 ^ 8 * value3 h))%N.
Proof.
  intros (H1 & H2 & H3). unfold to_N, to_array.
  rewrite !from_le_bytes_app, !len_le, !from_to_le_bytes_small by done. done.
Qed.
End UInt160Facts.

#[export] Hint Resolve UInt256Facts.wf_from_array : neo.

Example cmp_ex : UInt256.cmp (UInt256.mk 9 0 0 1) (UInt256.mk 1 0 0 2) = Lt.
Proof. reflexivity. Qed.

(** The derived orderings compare the hashes as the unsigned integers their
    little-endian bytes denote, for both widths. *)
Theorem uint_cmp_numeric :
  (∀ a b, UInt256.wf a → UInt256.wf b →
     UInt256.cmp a b = (UInt256.to_N a ?= UInt256.to_N b)%N) ∧
  (∀ a b, UInt160.wf a → UInt160.wf b →
     UInt160.cmp a b = (UInt160.to_N a ?= UInt160.to_N b)%N).
Proof.
  split.
  - intros a b Ha Hb. rewrite !UInt256Facts.to_N_words by done.
    destruct Ha as (?&?&?&?), Hb as (?&?&?&?).
    rewrite !cmp_le_words by done. unfold UInt256.cmp.
    rewrite !cmp_then_assoc. by destruct (UInt256.value1 a ?= UInt256.value1 b)%N.
  - intros a b Ha Hb. rewrite !UInt160Facts.to_N_words160 by done.
    destruct Ha as (?&?&?), Hb as (?&?&?).
    rewrite !cmp_le_words by done. unfold UInt160.cmp.
    rewrite !cmp_then_assoc. by destruct (UInt160.value1 a ?= UInt160.value1 b)%N.
Qed.
