(* ===== verification/Order.v ===== *)
(** * Lexicographic order on byte strings

    [Ord] of Rust's [&[u8]], which orders trie keys, database rows and the
    batched lookups, with sorting by a byte-string key. *)
From S2P Require Import Prelude Primitives.

(** [Ord::cmp] on byte slices. *)
Fixpoint bytes_cmp (a b : bytes) : comparison :=
  match a, b with
  | [], [] => Eq
  | [], _ :: _ => Lt
  | _ :: _, [] => Gt
  | x :: a', y :: b' => cmp_then (Byte.to_N x ?= Byte.to_N y)%N (bytes_cmp a' b')
  end.
Definition bytes_leb (a b : bytes) : bool := match bytes_cmp a b with Gt => false | _ => true end.
Definition bytes_lt (a b : bytes) : Prop := bytes_cmp a b = Lt.

Definition le_by {A} (key : A → bytes) (a b : A) : Prop := bytes_leb (key a) (key b) = true.
Definition lt_by {A} (key : A → bytes) (a b : A) : Prop := bytes_lt (key a) (key b).
#[export] Instance bytes_lt_dec : RelDecision bytes_lt.
Proof. intros a b. unfold bytes_lt. solve_decision. Defined.
#[export] Instance le_by_dec {A} (key : A → bytes) : RelDecision (le_by key).
Proof. intros a b. unfold le_by. apply _. Defined.

(** [sort_by_key] and its relatives. *)
Definition sort_by_key {A} (key : A → bytes) : list A → list A := merge_sort (le_by key).

(** ** The order *)

Lemma cmp_then_Lt c k : cmp_then c k = Lt ↔ c = Lt ∨ c = Eq ∧ k = Lt.
Proof. destruct c; cbn; naive_solver. Qed.
Lemma cmp_then_Eq c k : cmp_then c k = Eq ↔ c = Eq ∧ k = Eq.
Proof. destruct c; cbn; naive_solver. Qed.
Lemma cmp_then_opp c k : CompOpp (cmp_then c k) = cmp_then (CompOpp c) (CompOpp k).
Proof. by destruct c. Qed.

Lemma bytes_cmp_refl a : bytes_cmp a a = Eq.
Proof. induction a as [|x a IH]; [done|]. cbn. by rewrite N.compare_refl. Qed.

Lemma bytes_cmp_eq a b : bytes_cmp a b = Eq ↔ a = b.
Proof.
  split; [|intros ->; apply bytes_cmp_refl].
  revert b. induction a as [|x a IH]; intros [|y b]; try done. cbn.
  intros [E%N.compare_eq_iff%to_N_inj ?%IH]%cmp_then_Eq. congruence.
Qed.

Lemma bytes_cmp_antisym a b : bytes_cmp b a = CompOpp (bytes_cmp a b).
Proof.
  revert b. induction a as [|x a IH]; intros [|y b]; try done. cbn.
  by rewrite IH, N.compare_antisym, cmp_then_opp.
Qed.

Lemma bytes_cmp_gt a b : bytes_cmp a b = Gt ↔ bytes_lt b a.
Proof. unfold bytes_lt. rewrite (bytes_cmp_antisym a b). by destruct (bytes_cmp a b). Qed.

#[export] Instance bytes_lt_trans : Transitive bytes_lt.
Proof.
  unfold bytes_lt. intros a b c. revert a c. induction b as [|y b IH]; intros [|x a] [|z c]; try done.
  cbn. rewrite !cmp_then_Lt, !N.compare_lt_iff, !N.compare_eq_iff.
  intros [?|[? ?]] [?|[? ?]]; [left; lia..|]. right. split; [lia|]. eauto.
Qed.

#[export] Instance bytes_lt_irrefl : Irreflexive bytes_lt.
Proof. intros a Ha. unfold bytes_lt in Ha. by rewrite bytes_cmp_refl in Ha. Qed.

Lemma bytes_trichotomy a b : bytes_lt a b ∨ a = b ∨ bytes_lt b a.
Proof.
  destruct (bytes_cmp a b) eqn:E; [|by left|].
  - right. left. by apply bytes_cmp_eq.
  - right. right. by apply bytes_cmp_gt.
Qed.

Lemma bytes_leb_lt a b : bytes_leb a b = true ↔ ¬ bytes_lt b a.
Proof. rewrite <-bytes_cmp_gt. unfold bytes_leb. by destruct (bytes_cmp a b). Qed.

Lemma bytes_leb_cases a b : bytes_leb a b = true ↔ bytes_lt a b ∨ a = b.
Proof.
  rewrite bytes_leb_lt. destruct (bytes_trichotomy a b) as [Hl|[->|Hl]].
  - split; [auto|]. intros _ Hl'. apply (irreflexivity bytes_lt a). by etrans.
  - split; [auto|]. intros _. apply (irreflexivity _).
  - split; [done|]. intros [Hl'| ->] _; apply (irreflexivity bytes_lt b); [by etrans|done].
Qed.

(** Common prefixes do not matter, and a prefix comes first. *)
Lemma bytes_cmp_app p a b : bytes_cmp (p ++ a) (p ++ b) = bytes_cmp a b.
Proof. induction p as [|x p IH]; [done|]. cbn. by rewrite N.compare_refl. Qed.

Lemma bytes_lt_prefix p a : a ≠ [] → bytes_lt p (p ++ a).
Proof.
  intros Ha. unfold bytes_lt. rewrite <-(app_nil_r p) at 1. rewrite bytes_cmp_app. by destruct a.
Qed.

Lemma bytes_lt_app a b s : bytes_lt a b → bytes_lt a (b ++ s).
Proof.
  intros Hl. destruct (decide (s = [])) as [->|]; [by rewrite app_nil_r|].
  etrans; [done|]. by apply bytes_lt_prefix.
Qed.

(** Two strings that differ at some position stay apart. *)
Lemma bytes_lt_first p x y a b :
  (Byte.to_N x < Byte.to_N y)%N → bytes_lt (p ++ x :: a) (p ++ y :: b).
Proof.
  intros Hl. unfold bytes_lt. rewrite bytes_cmp_app. cbn.
  by rewrite (proj2 (N.compare_lt_iff _ _) Hl).
Qed.

(** ** Sorting *)

Section sorting.
Context {A : Type} (key : A → bytes).

#[export] Instance le_by_trans : Transitive (le_by key).
Proof.
  intros a b c. unfold le_by. rewrite !bytes_leb_cases.
  intros [?|E1] [?|E2]; [left; by etrans|left; congruence|left; congruence|right; congruence].
Qed.
#[export] Instance le_by_total : Total (le_by key).
Proof.
  intros a b. unfold le_by. rewrite !bytes_leb_cases.
  destruct (bytes_trichotomy (key a) (key b)) as [?|[?|?]]; auto.
Qed.

Lemma sort_by_key_perm l : sort_by_key key l ≡ₚ l.
Proof. apply merge_sort_Permutation. Qed.

Lemma sort_by_key_sorted l : NoDup (key <$> l) → StronglySorted (lt_by key) (sort_by_key key l).
Proof.
  intros Hnd. rewrite <-(sort_by_key_perm l) in Hnd.
  assert (StronglySorted (le_by key) (sort_by_key key l)) as Hs
    by (apply (StronglySorted_merge_sort _); apply _).
  revert Hnd Hs. generalize (sort_by_key key l). clear l. intros l.
  induction l as [|a l IH]; intros Hnd Hs; [constructor|].
  apply NoDup_cons in Hnd as [Ha Hnd]. apply StronglySorted_inv in Hs as [Hs Hle].
  constructor; [by apply IH|]. rewrite Forall_forall in Hle |- *. intros b Hb.
  apply Hle in Hb as Hab. unfold le_by in Hab. apply bytes_leb_cases in Hab as [?|E]; [done|].
  destruct Ha. rewrite E. by apply list_elem_of_fmap_2.
Qed.

(** A strictly sorted list is determined by its elements. *)
Lemma lt_by_sorted_unique l1 l2 :
  StronglySorted (lt_by key) l1 → StronglySorted (lt_by key) l2 →
  (∀ x, x ∈ l1 ↔ x ∈ l2) → l1 = l2.
Proof.
  intros H1 H2 Heq.
  assert (∀ l, StronglySorted (lt_by key) l → NoDup l) as Hnd.
  { induction 1 as [|a l _ IH Ha]; constructor; [|done]. intros Hin. rewrite Forall_forall in Ha.
    by apply (irreflexivity bytes_lt (key a)), Ha. }
  eapply (StronglySorted_unique_strong (lt_by key)); [|done..|].
  - intros x y _ _ Hxy Hyx. destruct (irreflexivity bytes_lt (key x)). by etrans.
  - apply NoDup_Permutation; auto.
Qed.
End sorting.
