(* ===== verification/Hashing.v ===== *)
(** * Hash functions

    The hash functions of neo-crypto and neo-primitives the protocol code calls
    (src/neo-crypto/src/hashes/, src/neo-primitives/src/numeric/uint160.rs).
    SHA-256 and RIPEMD-160 themselves belong to third-party crates: the
    development is parametric in them, and relies only on the width of their
    output.  Sha256.v and Instances.v give executable instances. *)
From S2P Require Import Prelude Primitives.

(** SHA-256 is the sha2 crate's; its output is a [[u8; 32]]. *)
Class Crypto := {
  sha256 : bytes → bytes;
  sha256_length : ∀ d, length (sha256 d) = 32%nat;
}.

(** RIPEMD-160 is the ripemd crate's; its output is a [[u8; 20]]. *)
Class Ripemd := {
  ripemd160 : bytes → bytes;
  ripemd160_length : ∀ d, length (ripemd160 d) = 20%nat;
}.

(** [Crypto::hash256]. *)
Definition hash256 `{Crypto} (data : bytes) : bytes := sha256 (sha256 data).

(** [UInt160::from_script]. *)
Definition from_script `{Crypto, Ripemd} (script : bytes) : UInt160.t :=
  UInt160.from_array (ripemd160 (sha256 script)).

(** No two of the given inputs collide under [f].  Hash functions do have
    collisions, so the binding theorems name the finitely many preimages on
    which they need the hash to be injective. *)
Definition collision_free {A B} (f : A → B) (ps : list A) : Prop :=
  ∀ p p', p ∈ ps → p' ∈ ps → f p = f p' → p = p'.

Definition collision_freeb {A B} `{EqDecision A, EqDecision B} (f : A → B) (ps : list A) : bool :=
  let ds := (λ p, (f p, p)) <$> ps in
  forallb (λ d, forallb (λ d', bool_decide (d.2 = d'.2) || negb (bool_decide (d.1 = d'.1))) ds) ds.

Lemma collision_freeb_spec {A B} `{EqDecision A, EqDecision B} (f : A → B) ps :
  collision_freeb f ps = true → collision_free f ps.
Proof.
  unfold collision_freeb. rewrite forallb_forall. intros Hall p p' Hp Hp' E.
  assert (∀ q, q ∈ ps → In (f q, q) ((λ p, (f p, p)) <$> ps)) as Hin.
  { intros q Hq. apply list_elem_of_In, list_elem_of_fmap. eauto. }
  specialize (Hall _ (Hin p Hp)). rewrite forallb_forall in Hall.
  specialize (Hall _ (Hin p' Hp')). cbn in Hall.
  rewrite (bool_decide_true (f p = f p') E), orb_false_r in Hall.
  by apply bool_decide_eq_true in Hall.
Qed.

Lemma collision_free_mono {A B} (f : A → B) ps ps' :
  (∀ p, p ∈ ps' → p ∈ ps) → collision_free f ps → collision_free f ps'.
Proof. intros Hsub Hf p p' Hp Hp'. apply Hf; by apply Hsub. Qed.

#[global] Instance collision_free_proper {A B} (f : A → B) :
  Proper ((≡ₚ) ==> iff) (collision_free f).
Proof. intros ps ps' Hp. split; apply collision_free_mono; intros p; by rewrite Hp. Qed.

Lemma length_hash256 `{Crypto} d : length (hash256 d) = 32%nat.
Proof. apply sha256_length. Qed.
