(* ===== verification/Io.v ===== *)
(** * Binary IO

    The crate neo-io: the compact integer codec (src/neo-io/src/core/var_int.rs),
    the bounds-checked reader (core/memory_reader.rs), the writer
    (core/binary_writer.rs) and the array helpers (serializable/helper.rs). *)
From S2P Require Import Prelude Primitives.

(** [IoError]; diagnostic messages are dropped. *)
Inductive IoError := Format | InvalidUtf8 | InvalidData | IoOther.

#[export] Instance IoError_eq_dec : EqDecision IoError.
Proof. solve_decision. Defined.

(** ** Compact integers *)

Module VarInt.
Definition VAR_INT_U16_MARKER : byte := xfd.
Definition VAR_INT_U32_MARKER : byte := xfe.
Definition VAR_INT_U64_MARKER : byte := xff.

(** Value and encoded width, or [None] when the slice is too short. *)
Definition read_var_int_prefix (src : bytes) : option (N * N) :=
  match src with
  | [] => None
  | prefix :: rest =>
      match prefix with
      | xfd => if (len src <? 3)%N then None
               else Some (from_le_bytes (take 2 rest), 3%N)
      | xfe => if (len src <? 5)%N then None
               else Some (from_le_bytes (take 4 rest), 5%N)
      | xff => if (len src <? 9)%N then None
               else Some (from_le_bytes (take 8 rest), 9%N)
      | value => Some (Byte.to_N value, 1%N)
      end
  end.

(** The bytes appended by [VarInt::write_var_int]. *)
Definition write_var_int (value : N) (dst : bytes) : bytes :=
  if (value <? Byte.to_N VAR_INT_U16_MARKER)%N then dst ++ [as_u8 value]
  else if (value <=? 0xFFFF)%N then
    dst ++ [VAR_INT_U16_MARKER] ++ to_le_bytes 2 value
  else if (value <=? 0xFFFFFFFF)%N then
    dst ++ [VAR_INT_U32_MARKER] ++ to_le_bytes 4 value
  else dst ++ [VAR_INT_U64_MARKER] ++ to_le_bytes 8 value.

Definition encoded_len (value : N) : N :=
  if (value <? Byte.to_N VAR_INT_U16_MARKER)%N then 1
  else if (value <=? 0xFFFF)%N then 3
  else if (value <=? 0xFFFFFFFF)%N then 5
  else 9.

Definition write_var_bytes (bs : bytes) (dst : bytes) : bytes :=
  write_var_int (len bs) dst ++ bs.
End VarInt.

(** ** Reader *)

Record MemoryReader := mkReader { buffer : bytes; position : N }.

(** UTF-8 well-formedness as [str::from_utf8] decides it (Unicode table 3-7). *)
Definition in_range (lo hi : N) (b : byte) : bool :=
  (lo <=? Byte.to_N b)%N && (Byte.to_N b <=? hi)%N.
Definition cont : byte → bool := in_range 0x80 0xBF.

Fixpoint utf8_valid_fuel (fuel : nat) (l : bytes) : bool :=
  match fuel with
  | O => false
  | S fuel =>
      match l with
      | [] => true
      | b :: l =>
          if in_range 0x00 0x7F b then utf8_valid_fuel fuel l
          else match l with
          | c1 :: l1 =>
              if in_range 0xC2 0xDF b && cont c1 then utf8_valid_fuel fuel l1
              else match l1 with
              | c2 :: l2 =>
                  if (in_range 0xE0 0xE0 b && in_range 0xA0 0xBF c1 && cont c2)
                     || (in_range 0xE1 0xEC b && cont c1 && cont c2)
                     || (in_range 0xED 0xED b && in_range 0x80 0x9F c1 && cont c2)
                     || (in_range 0xEE 0xEF b && cont c1 && cont c2)
                  then utf8_valid_fuel fuel l2
                  else match l2 with
                  | c3 :: l3 =>
                      if (in_range 0xF0 0xF0 b && in_range 0x90 0xBF c1 && cont c2 && cont c3)
                         || (in_range 0xF1 0xF3 b && cont c1 && cont c2 && cont c3)
                         || (in_range 0xF4 0xF4 b && in_range 0x80 0x8F c1 && cont c2 && cont c3)
                      then utf8_valid_fuel fuel l3 else false
                  | [] => false
                  end
              | [] => false
              end
          | [] => false
          end
      end
  end.
Definition utf8_valid (l : bytes) : bool := utf8_valid_fuel (S (length l)) l.

Module Reader.
Abbreviation Rd := (M MemoryReader IoError).

Definition new (buf : bytes) : MemoryReader := mkReader buf 0.

Definition set_position (p : N) : Rd unit := λ r,
  if (len (buffer r) <? p)%N then (r, Err Format)
  else (mkReader (buffer r) p, Ok tt).

Definition remaining (r : MemoryReader) : N := len (buffer r) - position r.

Definition ensure_available (required : N) : Rd unit := λ r,
  if (len (buffer r) <? usize_saturating_add (position r) required)%N
  then (r, Err Format) else (r, Ok tt).

(** [buffer[start..end]] with [position = end] afterwards. *)
Definition advance (length : N) : Rd bytes := λ r,
  (mkReader (buffer r) (position r + length), Ok (slice (buffer r) (position r) length)).

Definition read_slice (length : N) : Rd bytes :=
  _ ← ensure_available length;
  advance length.

Definition read_array (n : N) : Rd bytes := read_slice n.

Definition read_with_buf {T} (length : N) (read : bytes → T) : Rd T :=
  _ ← ensure_available length;
  bs ← advance length;
  mret (read bs).

Definition read_bytes (length : N) : Rd bytes := read_slice length.
Definition read_memory (count : N) : Rd bytes := read_slice count.

Definition peek : Rd byte :=
  _ ← ensure_available 1;
  gets (λ r, default x00 (buffer r !! N.to_nat (position r))).

(** Fixed-width primitives: the [read_buf_primitives!] table. *)
Definition get_u8 (l : bytes) : byte := default x00 (head l).
Definition get_le (l : bytes) : N := from_le_bytes l.
Definition get_be (l : bytes) : N := from_le_bytes (reverse l).
(** Two's complement reading of a [w]-bit word. *)
Definition signed (w : Z) (n : N) : Z :=
  if (Z.of_N n <? 2 ^ (w - 1))%Z then Z.of_N n else (Z.of_N n - 2 ^ w)%Z.

Definition read_byte : Rd byte := read_with_buf 1 get_u8.
Definition read_int16 : Rd Z := read_with_buf 2 (λ l, signed 16 (get_le l)).
Definition read_int16_big_endian : Rd Z := read_with_buf 2 (λ l, signed 16 (get_be l)).
Definition read_uint16 : Rd N := read_with_buf 2 get_le.
Definition read_uint16_big_endian : Rd N := read_with_buf 2 get_be.
Definition read_int32 : Rd Z := read_with_buf 4 (λ l, signed 32 (get_le l)).
Definition read_int32_big_endian : Rd Z := read_with_buf 4 (λ l, signed 32 (get_be l)).
Definition read_uint32 : Rd N := read_with_buf 4 get_le.
Definition read_uint32_big_endian : Rd N := read_with_buf 4 get_be.
Definition read_int64 : Rd Z := read_with_buf 8 (λ l, signed 64 (get_le l)).
Definition read_int64_big_endian : Rd Z := read_with_buf 8 (λ l, signed 64 (get_be l)).
Definition read_uint64 : Rd N := read_with_buf 8 get_le.
Definition read_uint64_big_endian : Rd N := read_with_buf 8 get_be.

Definition read_boolean : Rd bool :=
  b ← read_byte;
  match b with
  | x00 => mret false
  | x01 => mret true
  | _ => fail Format
  end.

Definition read_sbyte : Rd Z := b ← read_byte; mret (signed 8 (Byte.to_N b)).

(** A truncated compact integer still consumes its prefix byte, and an
    oversized one is consumed whole before it is rejected. *)
Definition read_var_int (max : N) : Rd N := λ r,
  let unread := drop (N.to_nat (position r)) (buffer r) in
  match VarInt.read_var_int_prefix unread with
  | None =>
      (mkReader (buffer r)
         (if bool_decide (unread = []) then position r else position r + 1), Err Format)
  | Some (value, width) =>
      let r := mkReader (buffer r) (position r + width) in
      if (max <? value)%N then (r, Err Format) else (r, Ok value)
  end.

Definition read_var_uint : Rd N := read_var_int u64_max.

(** Text is the byte string that [from_utf8] accepted. *)
Definition from_utf8 (l : bytes) : Rd bytes :=
  if utf8_valid l then mret l else fail InvalidUtf8.

Fixpoint until_nul (l : bytes) : bytes :=
  match l with
  | [] => []
  | b :: l' => if bool_decide (b = x00) then [] else b :: until_nul l'
  end.

Definition read_fixed_string (length : N) : Rd bytes :=
  sl ← read_slice length;
  let text := until_nul sl in
  if forallb (λ b, bool_decide (b = x00)) (drop (List.length text) sl)
  then from_utf8 text else fail Format.

Definition read_var_string (max : N) : Rd bytes :=
  length ← read_var_int max;
  data ← read_slice length;
  from_utf8 data.

Definition read_var_memory (max : N) : Rd bytes :=
  count ← read_var_int max;
  read_slice count.

Definition read_var_bytes (max : N) : Rd bytes := read_var_memory max.

Definition read_to_end : Rd bytes := λ r, read_slice (remaining r) r.

(** [impl Read]: at most [n] bytes, never an error. *)
Definition read (n : N) : Rd bytes := λ r,
  let count := N.min (remaining r) n in
  if (count =? 0)%N then (r, Ok [])
  else (mkReader (buffer r) (position r + count),
        Ok (slice (buffer r) (position r) count)).
End Reader.

(** ** Writer *)

Record BinaryWriter := mkWriter { wbuffer : bytes }.

Module Writer.
Abbreviation Wr := (M BinaryWriter IoError unit).

Definition new : BinaryWriter := mkWriter [].
Definition append (bs : bytes) : Wr := modify (λ w, mkWriter (wbuffer w ++ bs)).

Definition write_u8 (value : byte) : Wr := append [value].
Definition write_bool (value : bool) : Wr := write_u8 (if value then x01 else x00).
Definition write_u16 (value : N) : Wr := append (to_le_bytes 2 value).
Definition write_u32 (value : N) : Wr := append (to_le_bytes 4 value).
Definition write_u64 (value : N) : Wr := append (to_le_bytes 8 value).
(** Signed words are written in two's complement. *)
Definition write_i16 (value : Z) : Wr := append (to_le_bytes 2 (Z.to_N (value `mod` 2 ^ 16))).
Definition write_i32 (value : Z) : Wr := append (to_le_bytes 4 (Z.to_N (value `mod` 2 ^ 32))).
Definition write_i64 (value : Z) : Wr := append (to_le_bytes 8 (Z.to_N (value `mod` 2 ^ 64))).
Definition write_bytes (bs : bytes) : Wr := append bs.
Definition write_var_int (value : N) : Wr :=
  modify (λ w, mkWriter (VarInt.write_var_int value (wbuffer w))).
Definition write_var_uint (value : N) : Wr := write_var_int value.
Definition write_var_bytes (bs : bytes) : Wr :=
  modify (λ w, mkWriter (VarInt.write_var_bytes bs (wbuffer w))).
Definition write_var_string (value : bytes) : Wr := write_var_bytes value.
End Writer.

(** ** The [Serializable] trait *)

Class Serializable (T : Type) := {
  deserialize : M MemoryReader IoError T;
  serialize : T → M BinaryWriter IoError unit;
  ser_size : T → N;
}.

Definition write_serializable_vec `{Serializable T} (values : list T) : Writer.Wr :=
  _ ← Writer.write_var_uint (len values);
  for_each serialize values.

Definition to_array `{Serializable T} (v : T) : Result IoError bytes :=
  match serialize v Writer.new with
  | (w, Ok _) => Ok (wbuffer w)
  | (_, Err e) => Err e
  end.

Module SerializeHelper.
Definition get_var_size (value : N) : N := VarInt.encoded_len value.
Definition get_var_size_bytes (bs : bytes) : N := get_var_size (len bs) + len bs.
Definition get_var_size_serializable_slice `{Serializable T} (values : list T) : N :=
  get_var_size (len values) + foldr N.add 0%N (ser_size <$> values).

Definition serialize_array `{Serializable T} (values : list T) : Writer.Wr :=
  _ ← Writer.write_var_int (len values);
  for_each serialize values.

Definition deserialize_array `{Serializable T} (max : N) : Reader.Rd (list T) :=
  count ← Reader.read_var_int max;
  if (max <? count)%N then fail InvalidData
  else collect deserialize (N.to_nat count).

(** [deserialize_exact_array]: the length is dictated by an earlier field. *)
Definition deserialize_exact_array `{Serializable T} (expected : N) : Reader.Rd (list T) :=
  count ← Reader.read_var_int expected;
  if bool_decide (count ≠ expected) then fail InvalidData
  else collect deserialize (N.to_nat count).
End SerializeHelper.

#[export] Instance UInt256_serializable : Serializable UInt256.t := {
  deserialize :=
    bs ← Reader.read_bytes (N.of_nat UINT256_SIZE);
    match UInt256.from_bytes bs with Ok h => mret h | Err _ => fail InvalidData end;
  serialize h := Writer.write_bytes (UInt256.to_array h);
  ser_size _ := N.of_nat UINT256_SIZE;
}.

#[export] Instance UInt160_serializable : Serializable UInt160.t := {
  deserialize :=
    bs ← Reader.read_bytes (N.of_nat UINT160_SIZE);
    match UInt160.from_bytes bs with Ok h => mret h | Err _ => fail InvalidData end;
  serialize h := Writer.write_bytes (UInt160.to_array h);
  ser_size _ := N.of_nat UINT160_SIZE;
}.

(** ** Reasoning about codecs *)

(** [m] decodes exactly [bs] to [a], wherever [bs] sits in the buffer. *)
Definition reads {E A} (m : M MemoryReader E A) (bs : bytes) (a : A) : Prop :=
  ∀ pre post,
    m (mkReader (pre ++ bs ++ post) (len pre)) =
    (mkReader (pre ++ bs ++ post) (len pre + len bs), Ok a).

(** [m] appends exactly [bs]. *)
Definition writes (m : Writer.Wr) (bs : bytes) : Prop :=
  ∀ w, m w = (mkWriter (wbuffer w ++ bs), Ok tt).

Lemma reads_ret {E A} (a : A) : reads (E:=E) (mret a) [] a.
Proof. intros pre post. by rewrite len_nil, N.add_0_r. Qed.

Lemma reads_bind {E A B} (m : M MemoryReader E A) (f : A → M MemoryReader E B) bs1 bs2 a b :
  reads m bs1 a → reads (f a) bs2 b → reads (m ≫= f) (bs1 ++ bs2) b.
Proof.
  intros H1 H2 pre post. unfold mbind, M_bind.
  specialize (H1 pre (bs2 ++ post)). specialize (H2 (pre ++ bs1) post).
  rewrite <-!app_assoc in *. rewrite H1, <-len_app, H2.
  by rewrite !len_app, N.add_assoc.
Qed.

(** A final step that consumes nothing. *)
Lemma reads_bind_pure {E A B} (m : M MemoryReader E A) (f : A → M MemoryReader E B) bs a b :
  reads m bs a → reads (f a) [] b → reads (m ≫= f) bs b.
Proof. intros H1 H2. rewrite <-(app_nil_r bs). eauto using reads_bind. Qed.

Lemma writes_bind (m : Writer.Wr) (f : unit → Writer.Wr) bs1 bs2 :
  writes m bs1 → writes (f tt) bs2 → writes (m ≫= f) (bs1 ++ bs2).
Proof.
  intros H1 H2 w. unfold mbind, M_bind. rewrite H1, H2. simpl. by rewrite app_assoc.
Qed.

Lemma writes_ret : writes (mret tt) [].
Proof. intros [w]. by rewrite app_nil_r. Qed.

Lemma writes_append bs : writes (Writer.append bs) bs.
Proof. done. Qed.

Lemma usize_saturating_le a b n : (a + b ≤ n)%N → (usize_saturating_add a b ≤ n)%N.
Proof. unfold usize_saturating_add. lia. Qed.

Lemma ensure_available_ok n r :
  (position r + n ≤ len (buffer r))%N → Reader.ensure_available n r = (r, Ok tt).
Proof.
  intros H. unfold Reader.ensure_available.
  destruct (N.ltb_spec (len (buffer r)) (usize_saturating_add (position r) n)) as [Hlt|]; [|done].
  pose proof (usize_saturating_le _ _ _ H). lia.
Qed.

Lemma reads_slice n bs : len bs = n → reads (Reader.read_slice n) bs bs.
Proof.
  intros <- pre post. unfold Reader.read_slice.
  erewrite mbind_ok by (apply ensure_available_ok; simpl; rewrite !len_app; lia).
  unfold Reader.advance; simpl. by rewrite slice_app_exact.
Qed.

Lemma reads_with_buf {T} n (f : bytes → T) bs :
  len bs = n → reads (Reader.read_with_buf n f) bs (f bs).
Proof.
  intros Hn pre post.
  pose proof (reads_slice n bs Hn pre post) as Hs.
  unfold Reader.read_with_buf, Reader.read_slice in *.
  apply mbind_inv_ok in Hs as (s & [] & He & Ha).
  rewrite (mbind_ok _ _ _ _ _ He), (mbind_ok _ _ _ _ _ Ha). done.
Qed.

Lemma reads_byte b : reads Reader.read_byte [b] b.
Proof. by apply (reads_with_buf 1 Reader.get_u8 [b]). Qed.

Definition var_int_bytes (v : N) : bytes := VarInt.write_var_int v [].

Lemma write_var_int_app v dst : VarInt.write_var_int v dst = dst ++ var_int_bytes v.
Proof. unfold var_int_bytes, VarInt.write_var_int. by repeat case_match. Qed.

Lemma len_var_int_bytes v : len (var_int_bytes v) = VarInt.encoded_len v.
Proof.
  unfold var_int_bytes, VarInt.write_var_int, VarInt.encoded_len.
  by repeat case_match.
Qed.

(** A one-byte compact integer is not one of the three markers. *)
Lemma read_prefix_small b rest :
  (Byte.to_N b < Byte.to_N VarInt.VAR_INT_U16_MARKER)%N →
  VarInt.read_var_int_prefix (b :: rest) = Some (Byte.to_N b, 1%N).
Proof. by destruct b. Qed.

Lemma read_prefix_wide w m v rest :
  (m, w) ∈ [(xfd, 2%nat); (xfe, 4%nat); (xff, 8%nat)] →
  (v < 256 ^ N.of_nat w)%N →
  VarInt.read_var_int_prefix (m :: to_le_bytes w v ++ rest) = Some (v, N.of_nat (S w)).
Proof.
  intros Hm Hv. rewrite !elem_of_cons in Hm.
  assert (take w (to_le_bytes w v ++ rest) = to_le_bytes w v) as Ht.
  { by rewrite <-(length_to_le_bytes w v) at 1; rewrite take_app_length. }
  pose proof (from_to_le_bytes_small w v Hv) as Hf.
  assert (len (m :: to_le_bytes w v ++ rest) = 1 + N.of_nat w + len rest)%N as Hl
    by (rewrite len_cons, len_app, len_le; lia).
  destruct Hm as [[= -> ->]|[[= -> ->]|[[= -> ->]|Hm]]];
    [| | |by apply elem_of_nil in Hm];
    cbn [VarInt.read_var_int_prefix]; rewrite Hl, Ht, Hf;
    (case_match eqn:E; [apply N.ltb_lt in E; lia|done]).
Qed.

Lemma read_prefix_var_int v rest :
  (v ≤ u64_max)%N →
  VarInt.read_var_int_prefix (var_int_bytes v ++ rest) = Some (v, VarInt.encoded_len v).
Proof.
  intros Hv.
  unfold var_int_bytes, VarInt.write_var_int, VarInt.encoded_len, u64_max in *.
  case_match eqn:E1; [|case_match eqn:E2; [|case_match eqn:E3]].
  - apply N.ltb_lt in E1. change (Byte.to_N VarInt.VAR_INT_U16_MARKER) with 253%N in *.
    simpl app. rewrite read_prefix_small; rewrite to_N_as_u8, N.mod_small by lia; done.
  - apply (read_prefix_wide 2); [set_solver|]. apply N.leb_le in E2. simpl. lia.
  - apply (read_prefix_wide 4); [set_solver|]. apply N.leb_le in E3. simpl. lia.
  - apply (read_prefix_wide 8); [set_solver|]. simpl. lia.
Qed.

Lemma reads_var_int max v :
  (v ≤ max)%N → (v ≤ u64_max)%N → reads (Reader.read_var_int max) (var_int_bytes v) v.
Proof.
  intros Hmax Hv pre post. unfold Reader.read_var_int. simpl.
  unfold len at 1. rewrite Nat2N.id, drop_app_length, read_prefix_var_int by done.
  rewrite len_var_int_bytes. case_match eqn:E; [|done]. apply N.ltb_lt in E. lia.
Qed.

Lemma reads_var_memory max bs :
  (len bs ≤ max)%N → (len bs ≤ u64_max)%N →
  reads (Reader.read_var_memory max) (var_int_bytes (len bs) ++ bs) bs.
Proof. intros. eapply reads_bind; [by apply reads_var_int|by apply reads_slice]. Qed.

Lemma writes_var_int v : writes (Writer.write_var_int v) (var_int_bytes v).
Proof. intros w. unfold Writer.write_var_int, modify. by rewrite write_var_int_app. Qed.

Lemma writes_var_bytes bs :
  writes (Writer.write_var_bytes bs) (var_int_bytes (len bs) ++ bs).
Proof.
  intros w. unfold Writer.write_var_bytes, modify, VarInt.write_var_bytes.
  by rewrite write_var_int_app, app_assoc.
Qed.

#[export] Hint Resolve reads_ret reads_byte reads_slice reads_var_int reads_var_memory
  writes_ret writes_append writes_var_int writes_var_bytes : neo.

(** Shape of a successful decode: a plain byte, or a marker and its word. *)
Lemma read_prefix_inv src v w :
  VarInt.read_var_int_prefix src = Some (v, w) →
  (∃ b rest, src = b :: rest ∧ v = Byte.to_N b ∧ (v < 253)%N ∧ w = 1%N) ∨
  (∃ m k body rest, (m, k) ∈ [(xfd, 2%nat); (xfe, 4%nat); (xff, 8%nat)] ∧
     src = m :: body ++ rest ∧ length body = k ∧
     v = from_le_bytes body ∧ w = N.of_nat (S k)).
Proof.
  destruct src as [|b rest]; [done|].
  assert (b = xfd ∨ b = xfe ∨ b = xff ∨
    VarInt.read_var_int_prefix (b :: rest) = Some (Byte.to_N b, 1%N) ∧ (Byte.to_N b < 253)%N)
    as [Hb|[Hb|[Hb|[-> Hb]]]] 
    by (destruct b; first [by right; right; right; split|by left|by right; left|by right; right; left]).
  4:{ intros [= <- <-]. left. naive_solver. }
  all: subst b; cbn [VarInt.read_var_int_prefix]; case_match eqn:E; [done|];
    apply N.ltb_ge in E; rewrite len_cons in E; unfold len in E; intros [= <- <-]; right.
  - exists xfd, 2%nat, (take 2 rest), (drop 2 rest).
    rewrite take_drop, length_take. split_and!; [set_solver|done|lia|done..].
  - exists xfe, 4%nat, (take 4 rest), (drop 4 rest).
    rewrite take_drop, length_take. split_and!; [set_solver|done|lia|done..].
  - exists xff, 8%nat, (take 8 rest), (drop 8 rest).
    rewrite take_drop, length_take. split_and!; [set_solver|done|lia|done..].
Qed.

Lemma read_prefix_bounds src v w :
  VarInt.read_var_int_prefix src = Some (v, w) → (w ≤ len src)%N ∧ (v ≤ u64_max)%N.
Proof.
  intros [(b & rest & -> & -> & Hb & ->)|(m & k & body & rest & Hm & -> & Hk & -> & ->)]%read_prefix_inv.
  - rewrite len_cons. unfold u64_max. lia.
  - rewrite len_cons, len_app. unfold len at 1. rewrite Hk. split; [lia|].
    pose proof (from_le_bytes_bound body) as Hb. rewrite Hk in Hb.
    rewrite !elem_of_cons in Hm. unfold u64_max.
    destruct Hm as [[= -> ->]|[[= -> ->]|[[= -> ->]|Hm]]]; [simpl in Hb; lia..|].
    by apply elem_of_nil in Hm.
Qed.

(** The minimal encoding of a marker's word is that marker's own. *)
Lemma var_int_bytes_wide m k v :
  (m, k) ∈ [(xfd, 2%nat); (xfe, 4%nat); (xff, 8%nat)] →
  VarInt.encoded_len v = N.of_nat (S k) → var_int_bytes v = m :: to_le_bytes k v.
Proof.
  rewrite !elem_of_cons.
  unfold VarInt.encoded_len, var_int_bytes, VarInt.write_var_int.
  intros [[= -> ->]|[[= -> ->]|[[= -> ->]|Hm]]]; [..|by apply elem_of_nil in Hm];
    repeat case_match; done.
Qed.

Lemma read_prefix_canonical src v w :
  VarInt.read_var_int_prefix src = Some (v, w) →
  w = VarInt.encoded_len v ↔ take (N.to_nat w) src = var_int_bytes v.
Proof.
  intros Hr. destruct (read_prefix_bounds _ _ _ Hr) as [Hw Hv]. split.
  - intros Hlen. destruct (read_prefix_inv _ _ _ Hr)
      as [(b & rest & -> & -> & Hb & ->)|(m & k & body & rest & Hm & -> & Hk & -> & ->)].
    + unfold var_int_bytes, VarInt.write_var_int.
      change (Byte.to_N VarInt.VAR_INT_U16_MARKER) with 253%N.
      rewrite (proj2 (N.ltb_lt _ _) Hb). simpl. by rewrite as_u8_to_N.
    + rewrite (var_int_bytes_wide _ _ _ Hm) by done.
      rewrite Nat2N.id, <-Hk, to_from_le_bytes. simpl. by rewrite take_app_length.
  - intros Ht. rewrite <-len_var_int_bytes, <-Ht. unfold len in *.
    rewrite length_take. lia.
Qed.

(** Compact integers: for every [u64] the decoder returns the encoded
    value and its width from any buffer that starts with the encoding;
    conversely a decoded integer fits in a [u64], lies inside the buffer, and
    was minimally encoded exactly when the consumed width is [encoded_len]
    (the canonicity test of the persisted-node scrub). *)
Theorem var_int_codec :
  (∀ v rest, (v ≤ u64_max)%N →
     VarInt.read_var_int_prefix (var_int_bytes v ++ rest) = Some (v, VarInt.encoded_len v) ∧
     len (var_int_bytes v) = VarInt.encoded_len v) ∧
  (∀ src v w, VarInt.read_var_int_prefix src = Some (v, w) →
     (v ≤ u64_max)%N ∧ (w ≤ len src)%N ∧
     (w = VarInt.encoded_len v ↔ take (N.to_nat w) src = var_int_bytes v)).
Proof.
  split.
  - intros v rest Hv. split; [by apply read_prefix_var_int|apply len_var_int_bytes].
  - intros src v w Hr. destruct (read_prefix_bounds _ _ _ Hr).
    split_and!; [done..|by apply read_prefix_canonical].
Qed.

(** ** Reader safety *)

(** The cursor stays inside a buffer whose length is a valid slice length. *)
Definition reader_ok (r : MemoryReader) : Prop :=
  (position r ≤ len (buffer r) ∧ len (buffer r) < usize_max)%N.

(** [m] never moves the cursor backwards or past the end, and never
    changes the buffer, whether it succeeds or fails. *)
Definition safe {A} (m : Reader.Rd A) : Prop :=
  ∀ r, reader_ok r →
    let r' := (m r).1 in
    reader_ok r' ∧ buffer r' = buffer r ∧ (position r ≤ position r')%N.

Lemma safe_ret {A} (a : A) : safe (mret a).
Proof. by intros r. Qed.
Lemma safe_fail {A} e : safe (@fail _ _ A e).
Proof. by intros r. Qed.

Lemma safe_bind {A B} (m : Reader.Rd A) (f : A → Reader.Rd B) :
  safe m → (∀ a, safe (f a)) → safe (m ≫= f).
Proof.
  intros Hm Hf r Hr. specialize (Hm r Hr). unfold mbind, M_bind.
  destruct (m r) as [r' [a|e]]; simpl in *; [|done].
  destruct Hm as (Hr' & <- & Hle). destruct (Hf a r' Hr') as (? & ? & ?). eauto using N.le_trans.
Qed.

Lemma ensure_available_inv n r r' :
  reader_ok r → Reader.ensure_available n r = (r', Ok tt) →
  r' = r ∧ (position r + n ≤ len (buffer r))%N.
Proof.
  unfold Reader.ensure_available, usize_saturating_add, reader_ok.
  intros [Hp Hl] H. case_match eqn:E; simplify_eq. apply N.ltb_ge in E. split; [done|lia].
Qed.

Lemma safe_slice n : safe (Reader.read_slice n).
Proof.
  intros r Hr. unfold Reader.read_slice, mbind, M_bind.
  destruct (Reader.ensure_available n r) as [r' [[]|e]] eqn:E.
  - apply ensure_available_inv in E as [-> Hn]; [|done].
    destruct Hr. unfold reader_ok; simpl. split_and!; [lia..|done|lia].
  - unfold Reader.ensure_available in E. case_match; by simplify_eq/=.
Qed.

Lemma read_with_buf_slice {T} n (f : bytes → T) r :
  Reader.read_with_buf n f r = (l ← Reader.read_slice n; mret (f l)) r.
Proof.
  unfold Reader.read_with_buf, Reader.read_slice, mbind, M_bind.
  by destruct (Reader.ensure_available n r) as [? []].
Qed.

Lemma safe_with_buf {T} n (f : bytes → T) : safe (Reader.read_with_buf n f).
Proof.
  intros r Hr. rewrite read_with_buf_slice.
  revert r Hr. apply safe_bind; [apply safe_slice|]. intros. apply safe_ret.
Qed.

Lemma safe_var_int max : safe (Reader.read_var_int max).
Proof.
  intros r [Hp Hl]. unfold Reader.read_var_int, reader_ok.
  destruct (VarInt.read_var_int_prefix _) as [[v w]|] eqn:E.
  - apply read_prefix_bounds in E as [Hw _]. unfold len in Hw, Hp, Hl |- *.
    rewrite length_drop in Hw. case_match; simpl; unfold len; split_and!; lia || done.
  - case_bool_decide as Hd; simpl; [split_and!; done || lia|].
    assert (position r < len (buffer r))%N; [|split_and!; done || lia].
    destruct (N.lt_ge_cases (position r) (len (buffer r))) as [|Hge]; [done|].
    exfalso. apply Hd, drop_ge. unfold len in Hge. lia.
Qed.

Lemma safe_utf8 l : safe (Reader.from_utf8 l).
Proof. unfold Reader.from_utf8. case_match; [apply safe_ret|apply safe_fail]. Qed.

Lemma safe_collect {A} n (m : Reader.Rd A) : safe m → safe (collect m n).
Proof.
  intros Hm. induction n; simpl; [apply safe_ret|].
  repeat (apply safe_bind; [done|intros ?]). apply safe_ret.
Qed.

#[export] Hint Resolve safe_ret safe_fail safe_bind safe_slice safe_with_buf safe_var_int
  safe_utf8 safe_collect : neo.

(** Every decoding primitive of [MemoryReader] keeps the cursor inside the
    buffer, never rewinds it and never alters the bytes, on success and on
    every error path; array decoding inherits this from its element. *)
Theorem reader_never_overruns :
  safe Reader.read_byte ∧ safe Reader.read_boolean ∧ safe Reader.read_uint16 ∧
  safe Reader.read_int32 ∧ safe Reader.read_uint32_big_endian ∧ safe Reader.read_uint64 ∧
  (∀ max, safe (Reader.read_var_int max)) ∧
  (∀ n, safe (Reader.read_fixed_string n)) ∧
  (∀ max, safe (Reader.read_var_string max)) ∧
  (∀ max, safe (Reader.read_var_bytes max)) ∧
  safe Reader.read_to_end ∧ (∀ n, safe (Reader.read n)) ∧
  (∀ T (ST : Serializable T) max, safe (@deserialize T ST) →
     safe (SerializeHelper.deserialize_array max) ∧
     safe (SerializeHelper.deserialize_exact_array max)).
Proof.
  split_and!; try (intros; apply safe_with_buf).
  - apply safe_bind; [apply safe_with_buf|]. intros []; auto with neo.
  - auto with neo.
  - intros n. apply safe_bind; [auto with neo|]. intros l; cbn zeta beta. case_match; auto with neo.
  - intros max. repeat (apply safe_bind; [auto with neo|intros ?]). auto with neo.
  - intros max. apply safe_bind; auto with neo.
  - intros r. unfold Reader.read_to_end. apply safe_slice.
  - intros n r [Hp Hl]. unfold Reader.read, Reader.remaining.
    case_match eqn:E; [done|]. simpl. unfold reader_ok; simpl. split_and!; lia || done.
  - intros T ST max Hd. split; (apply safe_bind; [auto with neo|]); intros n; cbn beta; case_match; auto with neo.
Qed.

(** ** Inverting a decoder *)

(** A successful run of [m] consumed some [bs] related to its result by [P]. *)
Definition parses {E A} (m : M MemoryReader E A) (P : bytes → A → Prop) : Prop :=
  ∀ r r' a, reader_ok r → m r = (r', Ok a) →
    ∃ pre bs post,
      r = mkReader (pre ++ bs ++ post) (len pre) ∧
      r' = mkReader (pre ++ bs ++ post) (len pre + len bs) ∧ P bs a.

Lemma reader_split r :
  reader_ok r → ∃ pre rest, r = mkReader (pre ++ rest) (len pre).
Proof.
  intros [Hp _]. destruct r as [buf pos]; simpl in *.
  exists (take (N.to_nat pos) buf), (drop (N.to_nat pos) buf).
  rewrite take_drop. f_equal. unfold len in *. rewrite length_take. lia.
Qed.

(** The same, for a reader already split at its cursor. *)
Lemma parses_at {E A} (m : M MemoryReader E A) P pre rest r' a :
  parses m P → (len (pre ++ rest) < usize_max)%N →
  m (mkReader (pre ++ rest) (len pre)) = (r', Ok a) →
  ∃ bs post, rest = bs ++ post ∧
    r' = mkReader ((pre ++ bs) ++ post) (len (pre ++ bs)) ∧ P bs a.
Proof.
  intros Hm Hl Hrun. apply Hm in Hrun as (pre' & bs & post & E1 & -> & HP).
  - injection E1 as E1 E2. apply app_inj_1 in E1 as [<- ->]; [|unfold len in E2; lia].
    exists bs, post. by rewrite <-app_assoc, len_app.
  - split; [|done]. simpl. rewrite len_app. lia.
Qed.

Lemma parses_ret {E A} (a : A) : parses (E:=E) (mret a) (λ bs b, bs = [] ∧ b = a).
Proof.
  intros r r' b Hr [= <- <-]. destruct (reader_split r Hr) as (pre & rest & ->).
  exists pre, [], rest. by rewrite len_nil, N.add_0_r.
Qed.

Lemma parses_bind {E A B} (m : M MemoryReader E A) (f : A → M MemoryReader E B) P Q :
  parses m P → (∀ a, parses (f a) (Q a)) →
  parses (m ≫= f) (λ bs b, ∃ bs1 bs2 a, bs = bs1 ++ bs2 ∧ P bs1 a ∧ Q a bs2 b).
Proof.
  intros Hm Hf r r'' b Hr (r' & a & H1 & H2)%mbind_inv_ok.
  destruct (Hm _ _ _ Hr H1) as (pre & bs1 & post & -> & -> & HP).
  assert (reader_ok (mkReader (pre ++ bs1 ++ post) (len pre + len bs1))) as Hr'.
  { destruct Hr as [_ Hl]. split; [|done]. simpl. rewrite !len_app. lia. }
  destruct (Hf a _ _ _ Hr' H2) as (pre' & bs2 & post' & E1 & -> & HQ).
  rewrite app_assoc in E1. injection E1 as E1 E2. rewrite <-len_app in E2.
  apply app_inj_1 in E1 as [<- ->]; [|unfold len in E2; lia].
  exists pre, (bs1 ++ bs2), post'. rewrite <-!app_assoc. split_and!; [done| |by eauto 8].
  by rewrite !len_app, N.add_assoc.
Qed.

Lemma parses_mono {E A} (m : M MemoryReader E A) (P Q : bytes → A → Prop) :
  parses m P → (∀ bs a, P bs a → Q bs a) → parses m Q.
Proof.
  intros Hm HPQ r r' a Hr H. destruct (Hm _ _ _ Hr H) as (pre & bs & post & ? & ? & ?).
  naive_solver.
Qed.

Lemma parses_fail {E A} (e : E) P : parses (A:=A) (fail e) P.
Proof. by intros r r' a _. Qed.

Lemma parses_map_err {E E' A} (g : E → E') (m : M MemoryReader E A) P :
  parses m P → parses (map_err g m) P.
Proof. intros Hm r r' a Hr H%map_err_inv_ok. eauto. Qed.

Lemma reads_map_err {E E' A} (g : E → E') (m : M MemoryReader E A) bs a :
  reads m bs a → reads (map_err g m) bs a.
Proof. intros H pre post. by apply map_err_ok. Qed.

Lemma parses_slice n : parses (Reader.read_slice n) (λ bs a, a = bs ∧ len bs = n).
Proof.
  intros r r' a Hr (r1 & [] & H1 & H2)%mbind_inv_ok.
  apply ensure_available_inv in H1 as [-> Hn]; [|done].
  destruct (reader_split r Hr) as (pre & rest & ->). simpl in Hn.
  assert (n ≤ len rest)%N as Hle by (rewrite len_app in Hn; lia).
  injection H2 as <- <-. simpl.
  exists pre, (take (N.to_nat n) rest), (drop (N.to_nat n) rest). rewrite take_drop.
  assert (len (take (N.to_nat n) rest) = n) as Hlen.
  { unfold len in *. rewrite length_take. lia. }
  split_and!; [done|by rewrite Hlen| |done].
  pose proof (slice_app_exact pre (take (N.to_nat n) rest) (drop (N.to_nat n) rest)) as Hs.
  by rewrite take_drop, Hlen in Hs.
Qed.

Lemma parses_byte : parses Reader.read_byte (λ bs b, bs = [b]).
Proof.
  intros r r' b Hr H. unfold Reader.read_byte in H. rewrite read_with_buf_slice in H.
  revert r r' b Hr H. eapply parses_mono.
  { apply parses_bind; [apply parses_slice|]. intros a. apply parses_ret. }
  intros bs b (bs1 & bs2 & a & -> & [-> Hl] & [-> ->]). rewrite app_nil_r.
  destruct bs1 as [|x [|]]; unfold len in Hl; simpl in *; (done || lia).
Qed.

Lemma parses_var_int max :
  parses (Reader.read_var_int max)
    (λ bs v, VarInt.read_var_int_prefix bs = Some (v, len bs) ∧ (v ≤ max)%N).
Proof.
  intros r r' v Hr H. destruct (reader_split r Hr) as (pre & rest & ->).
  unfold Reader.read_var_int in H. simpl in H.
  unfold len at 1 in H. rewrite Nat2N.id, drop_app_length in H.
  destruct (VarInt.read_var_int_prefix rest) as [[v' w]|] eqn:E; [|done].
  case_match eqn:Em; [done|]. injection H as <- <-. apply N.ltb_ge in Em.
  assert (∃ bs post, rest = bs ++ post ∧ len bs = w ∧
    VarInt.read_var_int_prefix bs = Some (v', w)) as (bs & post & -> & Hw & Hb).
  { destruct (read_prefix_inv _ _ _ E)
      as [(b & tl & -> & -> & Hb & ->)|(m & k & body & tl & Hm & -> & Hk & -> & ->)].
    - exists [b], tl. split_and!; [done..|]. by apply read_prefix_small.
    - exists (m :: body), tl. split_and!; [done| |].
      + rewrite len_cons. unfold len. rewrite Hk. lia.
      + rewrite <-(to_from_le_bytes body) at 1. rewrite Hk.
        rewrite <-(app_nil_r (to_le_bytes k _)). apply read_prefix_wide; [done|].
        rewrite <-Hk. apply from_le_bytes_bound. }
  exists pre, bs, post. by rewrite Hw.
Qed.

Lemma parses_var_memory max :
  parses (Reader.read_var_memory max)
    (λ bs a, ∃ p, bs = p ++ a ∧ VarInt.read_var_int_prefix p = Some (len a, len p) ∧
                  (len a ≤ max)%N).
Proof.
  eapply parses_mono.
  { apply parses_bind; [apply parses_var_int|]. intros n. apply parses_slice. }
  intros bs a (bs1 & bs2 & n & -> & [? ?] & [-> <-]). eauto.
Qed.

(** ** Laws of the trait *)

(** What a client may assume of a [Serializable] type: on the values [wf]
    describes, the writer appends [enc x], the reader decodes it back and
    [ser_size] is its length. *)
Class SerializableLaws (T : Type) `{Serializable T} := {
  ser_wf : T → Prop;
  enc : T → bytes;
  serialize_writes : ∀ x, ser_wf x → writes (serialize x) (enc x);
  deserialize_reads : ∀ x, ser_wf x → reads deserialize (enc x) x;
  ser_size_len : ∀ x, ser_wf x → ser_size x = len (enc x);
}.

#[export] Program Instance UInt256_laws : SerializableLaws UInt256.t := {
  ser_wf := UInt256.wf;
  enc := UInt256.to_array;
}.
Next Obligation. intros x _. apply writes_append. Qed.
Next Obligation.
  intros x Hx. eapply reads_bind_pure.
  - apply reads_slice. unfold len. by rewrite UInt256Facts.length_to_array.
  - rewrite UInt256Facts.from_bytes_to_array by done. apply reads_ret.
Qed.
Next Obligation. intros x _. unfold len. by rewrite UInt256Facts.length_to_array. Qed.

#[export] Program Instance UInt160_laws : SerializableLaws UInt160.t := {
  ser_wf := UInt160.wf;
  enc := UInt160.to_array;
}.
Next Obligation. intros x _. apply writes_append. Qed.
Next Obligation.
  intros x Hx. eapply reads_bind_pure.
  - apply reads_slice. unfold len. by rewrite UInt160Facts.length_to_array160.
  - rewrite UInt160Facts.from_bytes_to_array160 by done. apply reads_ret.
Qed.
Next Obligation. intros x _. unfold len. by rewrite UInt160Facts.length_to_array160. Qed.

Section arrays.
Context {T : Type} `{SerializableLaws T}.

Definition enc_items (l : list T) : bytes := concat (enc <$> l).
Definition enc_array (l : list T) : bytes := var_int_bytes (len l) ++ enc_items l.

Lemma writes_items l : Forall ser_wf l → writes (for_each serialize l) (enc_items l).
Proof.
  induction 1 as [|x l Hx Hl IH]; [apply writes_ret|].
  apply writes_bind; [by apply serialize_writes|done].
Qed.

Lemma reads_items l : Forall ser_wf l → reads (collect deserialize (length l)) (enc_items l) l.
Proof.
  induction 1 as [|x l Hx Hl IH]; [apply reads_ret|].
  eapply reads_bind; [by apply deserialize_reads|].
  eapply reads_bind_pure; [exact IH|apply reads_ret].
Qed.

Lemma sizes_items l : Forall ser_wf l → foldr N.add 0%N (ser_size <$> l) = len (enc_items l).
Proof.
  induction 1 as [|x l Hx Hl IH]; [done|]. unfold enc_items in *.
  rewrite !fmap_cons; cbn [foldr concat].
  by rewrite len_app, IH, ser_size_len.
Qed.

Lemma writes_array l : Forall ser_wf l → writes (SerializeHelper.serialize_array l) (enc_array l).
Proof. intros Hl. apply writes_bind; [apply writes_var_int|by apply writes_items]. Qed.

Lemma reads_array l max :
  Forall ser_wf l → (len l ≤ max)%N → (len l ≤ u64_max)%N →
  reads (SerializeHelper.deserialize_array max) (enc_array l) l.
Proof.
  intros Hwf Hmax Hu. eapply reads_bind; [by apply reads_var_int|].
  case_match eqn:E; [apply N.ltb_lt in E; lia|].
  unfold len. rewrite Nat2N.id. by apply reads_items.
Qed.

(** Length-prefixed arrays of any lawful [Serializable] type: the array
    writer succeeds, [deserialize_array] and [deserialize_exact_array] decode
    what it wrote at any place of any buffer, and the size helper announces
    the number of bytes written. *)
Theorem serialize_array_roundtrip (l : list T) (max : N) :
  Forall ser_wf l → (len l ≤ max)%N → (len l ≤ u64_max)%N →
  writes (SerializeHelper.serialize_array l) (enc_array l) ∧
  reads (SerializeHelper.deserialize_array max) (enc_array l) l ∧
  reads (SerializeHelper.deserialize_exact_array (len l)) (enc_array l) l ∧
  SerializeHelper.get_var_size_serializable_slice l = len (enc_array l).
Proof.
  intros Hwf Hmax Hu. split_and!; [by apply writes_array|by apply reads_array|..].
  - eapply reads_bind; [by apply reads_var_int|].
    rewrite bool_decide_false by (by intros ?).
    unfold len. rewrite Nat2N.id. by apply reads_items.
  - unfold SerializeHelper.get_var_size_serializable_slice, SerializeHelper.get_var_size, enc_array.
    by rewrite len_app, len_var_int_bytes, sizes_items.
Qed.
End arrays.

(** The hypotheses are met by an array of two hashes. *)
Lemma serialize_array_roundtrip_witness :
  writes (SerializeHelper.serialize_array [UInt256.zero; UInt256.mk 1 2 3 4])
    (enc_array [UInt256.zero; UInt256.mk 1 2 3 4]) ∧
  reads (SerializeHelper.deserialize_array 16)
    (enc_array [UInt256.zero; UInt256.mk 1 2 3 4]) [UInt256.zero; UInt256.mk 1 2 3 4].
Proof.
  destruct (serialize_array_roundtrip [UInt256.zero; UInt256.mk 1 2 3 4] 16)
    as (Hw & Hr & _ & _).
  - by repeat constructor.
  - done.
  - done.
  - exact (conj Hw Hr).
Defined.
