(* ===== verification/MptNode.v ===== *)
(** * Merkle Patricia trie nodes

    Node representation and deterministic codec of neo-trie
    (src/neo-trie/src/mpt/node.rs, node_type.rs, error.rs).

    A node owns its children, so [Arc<Node>] is modelled by the node itself:
    the trie never mutates a shared [Arc] ([Arc::make_mut] copies first, and
    the only nodes it ever finds shared are hash and empty nodes, whose clone is
    themselves).  [OnceLock] memoises the node hash: the model reads the memo
    ([hash_cell]) but does not fill it in when a shared reference computes a
    hash.  The representation invariant of MptRefine.v ([memo_ok], [repr])
    states that a filled memo equals the recomputed hash, so filling it is not
    observable. *)
From S2P Require Import Prelude Primitives Io.
From S2P Require Export Hashing.
#[local] Set Warnings "-register-all".

(** [MptError], messages dropped.  The last two are not Rust errors: [Panic]
    is an out-of-range index and [Diverged] a model recursion out of fuel. *)
Inductive MptError :=
| MIo (e : IoError)
| Primitive (e : PrimitiveError)
| Storage
| InvalidOperation
| Key
| Panic
| Diverged.

Module NodeType.
Inductive t := BranchNode | ExtensionNode | LeafNode | HashNode | Empty.

#[global] Instance eq_dec : EqDecision t.
Proof. solve_decision. Defined.

Definition to_byte (ty : t) : byte :=
  match ty with
  | BranchNode => x00
  | ExtensionNode => x01
  | LeafNode => x02
  | HashNode => x03
  | Empty => x04
  end.

Definition from_byte (b : byte) : option t :=
  match b with
  | x00 => Some BranchNode
  | x01 => Some ExtensionNode
  | x02 => Some LeafNode
  | x03 => Some HashNode
  | x04 => Some Empty
  | _ => None
  end.

(** Branch, extension and leaf nodes carry a reference count and are
    stored under their hash. *)
Definition materialized (ty : t) : bool :=
  match ty with
  | BranchNode | ExtensionNode | LeafNode => true
  | HashNode | Empty => false
  end.
End NodeType.
Import NodeType.

Definition MAX_STORAGE_KEY_SIZE : nat := 64.
Definition MAX_STORAGE_VALUE_SIZE : N := 65535.
Definition BRANCH_CHILD_COUNT : nat := 17.
Definition BRANCH_VALUE_INDEX : nat := BRANCH_CHILD_COUNT - 1.
Definition MAX_KEY_LENGTH : nat := (MAX_STORAGE_KEY_SIZE + 4) * 2.
Definition MAX_VALUE_LENGTH : N := 3 + MAX_STORAGE_VALUE_SIZE + 1.

Module Node.
Inductive t : Type := mk {
  node_type : NodeType.t;
  reference : Z;
  hash_cell : option UInt256.t;
  accounted_hash : option UInt256.t;
  dirty : bool;
  children : list t;
  key : bytes;
  next : option t;
  value : bytes;
}.

Definition new : t := mk Empty 0 None None false [] [] None [].
Definition new_branch : t :=
  mk BranchNode 1 None None true (replicate BRANCH_CHILD_COUNT new) [] None [].
Definition new_extension (key : bytes) (next : t) : Result MptError t :=
  match key with
  | [] => Err InvalidOperation
  | _ => Ok (mk ExtensionNode 1 None None true [] key (Some next) [])
  end.
Definition new_leaf (value : bytes) : t := mk LeafNode 1 None None true [] [] None value.
Definition new_hash (h : UInt256.t) : t := mk HashNode 0 (Some h) None false [] [] None [].

Definition is_empty (n : t) : bool := bool_decide (node_type n = Empty).

(** Field updates. *)
Definition with_hash (h : option UInt256.t) (n : t) : t :=
  mk (node_type n) (reference n) h (accounted_hash n) (dirty n) (children n) (key n) (next n) (value n).
Definition with_accounted (h : option UInt256.t) (n : t) : t :=
  mk (node_type n) (reference n) (hash_cell n) h (dirty n) (children n) (key n) (next n) (value n).
Definition with_dirty (d : bool) (n : t) : t :=
  mk (node_type n) (reference n) (hash_cell n) (accounted_hash n) d (children n) (key n) (next n) (value n).
Definition with_reference (r : Z) (n : t) : t :=
  mk (node_type n) r (hash_cell n) (accounted_hash n) (dirty n) (children n) (key n) (next n) (value n).
Definition with_children (cs : list t) (n : t) : t :=
  mk (node_type n) (reference n) (hash_cell n) (accounted_hash n) (dirty n) cs (key n) (next n) (value n).
Definition with_key (k : bytes) (n : t) : t :=
  mk (node_type n) (reference n) (hash_cell n) (accounted_hash n) (dirty n) (children n) k (next n) (value n).
Definition with_next (c : option t) (n : t) : t :=
  mk (node_type n) (reference n) (hash_cell n) (accounted_hash n) (dirty n) (children n) (key n) c (value n).

Definition set_dirty (n : t) : t := with_dirty true (with_accounted None (with_hash None n)).
Definition set_finalized_hash (h : UInt256.t) (n : t) : t :=
  with_dirty false (with_accounted (Some h) (with_hash (Some h) n)).
Definition set_pending_hash (h : UInt256.t) (n : t) : t := with_hash (Some h) n.
Definition set_accounted_hash (h : UInt256.t) (n : t) : t :=
  with_dirty false (with_accounted (Some h) n).

(** [set_child]: out of range, nothing happens. *)
Definition set_child (index : nat) (child : t) (n : t) : t :=
  if (index <? length (children n))%nat then with_children (<[index := child]> (children n)) n
  else n.
(** [get_child_mut]: the child borrowed, if it exists. *)
Definition get_child (index : nat) (n : t) : option t := children n !! index.

Section codec.
Context `{Crypto}.

(** [Node::hash] once the payload is known: an unserializable node
    hashes to zero. *)
Definition hash_of_payload (cell : option UInt256.t) (payload : BinaryWriter * Result IoError unit)
    : UInt256.t :=
  match cell with
  | Some h => h
  | None =>
      match payload with
      | (w, Ok _) =>
          match UInt256.from_bytes (hash256 (wbuffer w)) with
          | Ok h => h
          | Err _ => UInt256.zero
          end
      | (_, Err _) => UInt256.zero
      end
  end.

(** [serialize_without_reference], with [serialize_branch],
    [serialize_extension], [serialize_leaf], [serialize_hash] and
    [serialize_as_child] inlined so that the recursion is structural. *)
Fixpoint serialize_without_reference (n : t) : Writer.Wr :=
  let as_child (c : t) : Writer.Wr :=
    map_err (λ _, InvalidData)
      (if materialized (node_type c) then
         _ ← Writer.write_u8 (to_byte HashNode);
         Writer.write_bytes
           (UInt256.to_array
              (hash_of_payload (hash_cell c) (serialize_without_reference c Writer.new)))
       else serialize_without_reference c) in
  _ ← Writer.write_u8 (to_byte (node_type n));
  match node_type n with
  | BranchNode => for_each as_child (children n)
  | ExtensionNode =>
      match next n with
      | None => fail InvalidData
      | Some c => _ ← Writer.write_var_bytes (key n); as_child c
      end
  | LeafNode => Writer.write_var_bytes (value n)
  | HashNode =>
      match hash_cell n with
      | None => fail InvalidData
      | Some h => Writer.write_bytes (UInt256.to_array h)
      end
  | Empty => mret tt
  end.

Definition to_array_without_reference (n : t) : Result MptError bytes :=
  match serialize_without_reference n Writer.new with
  | (w, Ok _) => Ok (wbuffer w)
  | (_, Err e) => Err (MIo e)
  end.

Definition hash (n : t) : UInt256.t :=
  hash_of_payload (hash_cell n) (serialize_without_reference n Writer.new).

Definition try_hash (n : t) : Result MptError UInt256.t :=
  match hash_cell n with
  | Some h => Ok h
  | None =>
      match to_array_without_reference n with
      | Ok data =>
          match UInt256.from_bytes (hash256 data) with
          | Ok h => Ok h
          | Err e => Err (Primitive e)
          end
      | Err e => Err e
      end
  end.

Definition serialize_as_child (c : t) : Writer.Wr :=
  if materialized (node_type c) then
    _ ← Writer.write_u8 (to_byte HashNode);
    Writer.write_bytes (UInt256.to_array (hash c))
  else serialize_without_reference c.

(** [u64::try_from(reference)] and the trailing compact integer. *)
Definition write_reference (reference : Z) : Writer.Wr :=
  if (reference <? 0)%Z then fail InvalidData
  else Writer.write_var_uint (Z.to_N reference).

Definition node_serialize (n : t) : Writer.Wr :=
  _ ← serialize_without_reference n;
  if materialized (node_type n) then write_reference (reference n) else mret tt.

(** Embedded form of a child: a materialized node becomes its hash. *)
Definition clone_as_child (c : t) : t :=
  if materialized (node_type c) then new_hash (hash c) else c.

(** [Clone::clone]: the memo is dropped and the children are embedded. *)
Definition clone (n : t) : t :=
  match node_type n with
  | BranchNode =>
      mk BranchNode (reference n) None (accounted_hash n) (dirty n)
        (clone_as_child <$> children n) [] None []
  | ExtensionNode =>
      mk ExtensionNode (reference n) None (accounted_hash n) (dirty n)
        [] (key n) (clone_as_child <$> next n) []
  | LeafNode =>
      mk LeafNode (reference n) None (accounted_hash n) (dirty n) [] [] None (value n)
  | HashNode => mk HashNode (reference n) (hash_cell n) None false [] [] None []
  | Empty => mk Empty (reference n) None None false [] [] None []
  end.

(** ** Sizes *)
Definition reference_var_size (reference : Z) : N :=
  if (reference <? 0)%Z then 1 else SerializeHelper.get_var_size (Z.to_N reference).
Definition hash_size : N := N.of_nat UINT256_SIZE.
Definition byte_size_as_child (c : t) : N :=
  match node_type c with
  | BranchNode | ExtensionNode | LeafNode => 1 + N.of_nat UINT256_SIZE
  | HashNode => 1 + hash_size
  | Empty => 1
  end.
Definition branch_size (n : t) : N :=
  foldr N.add 0%N (byte_size_as_child <$> children n).
Definition extension_size (n : t) : N :=
  SerializeHelper.get_var_size_bytes (key n) +
  match next n with Some c => byte_size_as_child c | None => 0 end.
Definition leaf_size (n : t) : N := SerializeHelper.get_var_size_bytes (value n).
Definition byte_size_without_reference (n : t) : N :=
  1 + match node_type n with
      | BranchNode => branch_size n
      | ExtensionNode => extension_size n
      | LeafNode => leaf_size n
      | HashNode => hash_size
      | Empty => 0
      end.
Definition byte_size (n : t) : N :=
  byte_size_without_reference n +
  if materialized (node_type n) then reference_var_size (reference n) else 0.
End codec.
End Node.

Module NodeCodec.
Import Node.
Abbreviation Rd := (M MemoryReader IoError).
Abbreviation RdM := (M MemoryReader MptError).

(** [deserialize_with_depth].  The argument counts the levels left: it is
    [MAX_KEY_LENGTH + 1 - depth], so the depth guard is its zero case. *)
Fixpoint deserialize_levels (levels : nat) : Rd Node.t :=
  match levels with
  | O => fail InvalidData
  | S levels =>
      b ← Reader.read_byte;
      match NodeType.from_byte b with
      | None => fail InvalidData
      | Some BranchNode =>
          cs ← collect (deserialize_levels levels) BRANCH_CHILD_COUNT;
          r ← Reader.read_var_uint;
          mret (Node.mk BranchNode (u64_as_i32 r) None None false cs [] None [])
      | Some ExtensionNode =>
          k ← Reader.read_var_bytes (N.of_nat MAX_KEY_LENGTH);
          c ← deserialize_levels levels;
          r ← Reader.read_var_uint;
          mret (Node.mk ExtensionNode (u64_as_i32 r) None None false [] k (Some c) [])
      | Some LeafNode =>
          v ← Reader.read_var_bytes MAX_VALUE_LENGTH;
          r ← Reader.read_var_uint;
          mret (Node.mk LeafNode (u64_as_i32 r) None None false [] [] None v)
      | Some HashNode =>
          bs ← Reader.read_bytes (N.of_nat UINT256_SIZE);
          match UInt256.from_bytes bs with
          | Ok h => mret (Node.mk HashNode 0 (Some h) None false [] [] None [])
          | Err _ => fail InvalidData
          end
      | Some Empty => mret Node.new
      end
  end.
Definition node_deserialize : Rd Node.t := deserialize_levels (MAX_KEY_LENGTH + 1).

(** ** Splitting a stored row without building the node *)

Definition read_node_type : RdM NodeType.t :=
  b ← map_err MIo Reader.read_byte;
  match NodeType.from_byte b with
  | Some ty => mret ty
  | None => fail InvalidOperation
  end.

(** [skip_node_payload] around [skip_serialized_node] one level down. *)
Definition skip_node_payload (skip_serialized_node : RdM unit) (ty : NodeType.t) : RdM unit :=
  match ty with
  | BranchNode => repeat_n skip_serialized_node BRANCH_CHILD_COUNT
  | ExtensionNode =>
      _ ← map_err MIo (Reader.read_var_memory (N.of_nat MAX_KEY_LENGTH));
      skip_serialized_node
  | LeafNode => _ ← map_err MIo (Reader.read_var_memory MAX_VALUE_LENGTH); mret tt
  | HashNode => _ ← map_err MIo (Reader.read_memory (N.of_nat UINT256_SIZE)); mret tt
  | Empty => mret tt
  end.

Fixpoint skip_serialized_node (levels : nat) : RdM unit :=
  match levels with
  | O => fail InvalidOperation
  | S levels =>
      ty ← read_node_type;
      _ ← skip_node_payload (skip_serialized_node levels) ty;
      if materialized ty then _ ← map_err MIo Reader.read_var_uint; mret tt
      else mret tt
  end.

Definition serialized_reference_parts : RdM (NodeType.t * Z * N) :=
  ty ← read_node_type;
  _ ← skip_node_payload (skip_serialized_node MAX_KEY_LENGTH) ty;
  reference_start ← gets position;
  r ← (if materialized ty then
         n ← map_err MIo Reader.read_var_uint; mret (u64_as_i32 n)
       else mret 0%Z);
  left ← gets Reader.remaining;
  if bool_decide (left ≠ 0%N) then fail InvalidOperation
  else mret (ty, r, reference_start).

Definition split_serialized_reference (bs : bytes) : Result MptError (NodeType.t * Z * bytes) :=
  match (serialized_reference_parts (Reader.new bs)).2 with
  | Ok (ty, r, payload_len) => Ok (ty, r, take (N.to_nat payload_len) bs)
  | Err e => Err e
  end.

(** [array_from_payload_parts] and its owned variant. *)
Definition array_from_payload_parts (ty : NodeType.t) (reference : Z) (payload : bytes)
    : Result MptError bytes :=
  if materialized ty then
    if (reference <? 0)%Z then Err InvalidOperation
    else Ok (payload ++ VarInt.write_var_int (Z.to_N reference) [])
  else Ok payload.

Definition array_from_payload_parts_owned (ty : NodeType.t) (reference : Z) (payload : bytes)
    : Result MptError bytes :=
  if materialized ty then
    if (reference <? 0)%Z then Err InvalidOperation
    else Ok (VarInt.write_var_int (Z.to_N reference) payload)
  else Ok payload.

(** ** Scrubbing persisted rows *)

Definition skip_persisted_child : RdM unit :=
  ty ← read_node_type;
  match ty with
  | HashNode => _ ← map_err MIo (Reader.read_memory (N.of_nat UINT256_SIZE)); mret tt
  | Empty => mret tt
  | BranchNode | ExtensionNode | LeafNode => fail InvalidOperation
  end.

Definition read_canonical_var_memory (maximum : N) : RdM unit :=
  start ← gets position;
  m ← map_err MIo (Reader.read_var_memory maximum);
  stop ← gets position;
  if bool_decide ((stop - start - len m)%N ≠ VarInt.encoded_len (len m))
  then fail InvalidOperation else mret tt.

Definition persisted_payload_len : RdM N :=
  ty ← read_node_type;
  _ ← match ty with
      | BranchNode => repeat_n skip_persisted_child BRANCH_CHILD_COUNT
      | ExtensionNode =>
          _ ← read_canonical_var_memory (N.of_nat MAX_KEY_LENGTH); skip_persisted_child
      | LeafNode => read_canonical_var_memory MAX_VALUE_LENGTH
      | HashNode | Empty => fail InvalidOperation
      end;
  payload_len ← gets position;
  reference ← map_err MIo Reader.read_var_uint;
  if ((reference =? 0)%N || (2147483647 <? reference)%N) then fail InvalidOperation
  else
    stop ← gets position;
    if bool_decide ((stop - payload_len)%N ≠ VarInt.encoded_len reference)
    then fail InvalidOperation
    else
      left ← gets Reader.remaining;
      if bool_decide (left ≠ 0%N) then fail InvalidOperation else mret payload_len.

Section persisted.
Context `{Crypto}.

Definition validate_persisted (bs : bytes) (expected_hash : UInt256.t) : Result MptError unit :=
  match (persisted_payload_len (Reader.new bs)).2 with
  | Err e => Err e
  | Ok payload_len =>
      match UInt256.from_bytes (hash256 (take (N.to_nat payload_len) bs)) with
      | Err e => Err (Primitive e)
      | Ok actual =>
          if bool_decide (actual ≠ expected_hash) then Err InvalidOperation else Ok tt
      end
  end.

Definition deserialize_persisted (bs : bytes) (expected_hash : UInt256.t)
    : Result MptError Node.t :=
  match validate_persisted bs expected_hash with
  | Err e => Err e
  | Ok _ =>
      match (node_deserialize (Reader.new bs)).2 with
      | Ok n => Ok n
      | Err e => Err (MIo e)
      end
  end.
End persisted.
End NodeCodec.
