(* ===== verification/Sha256.v ===== *)
(** * SHA-256

    The hash function behind [Crypto::sha256], after FIPS 180-4.  The
    development is parametric in the hash ([Crypto], Hashing.v); this executable
    instance shows that its hypotheses can be met and lets concrete tries,
    proofs and blocks be evaluated. *)
From S2P Require Import Prelude Primitives Hashing.
#[local] Open Scope N_scope.

Module Sha256.
(** 32-bit words. *)
Definition w32 (x : N) : N := N.land x 0xffffffff.
Definition add32 (x y : N) : N := w32 (x + y).
Definition rotr (n x : N) : N := N.lor (N.shiftr x n) (w32 (N.shiftl x (32 - n))).

Definition big_sigma0 (x : N) : N := N.lxor (rotr 2 x) (N.lxor (rotr 13 x) (rotr 22 x)).
Definition big_sigma1 (x : N) : N := N.lxor (rotr 6 x) (N.lxor (rotr 11 x) (rotr 25 x)).
Definition small_sigma0 (x : N) : N := N.lxor (rotr 7 x) (N.lxor (rotr 18 x) (N.shiftr x 3)).
Definition small_sigma1 (x : N) : N := N.lxor (rotr 17 x) (N.lxor (rotr 19 x) (N.shiftr x 10)).
Definition ch (x y z : N) : N := N.lxor (N.land x y) (N.land (N.lxor x 0xffffffff) z).
Definition maj (x y z : N) : N := N.lxor (N.land x y) (N.lxor (N.land x z) (N.land y z)).

(** The round constants are the first 32 bits of the fractional parts of the
    cube roots of the first 64 primes, the initial state those of the square
    roots of the first 8; both are computed. *)
Definition prime (p : N) : bool :=
  forallb (λ d, negb (p mod N.of_nat d =? 0)) (seq 2 (N.to_nat (N.sqrt p) - 1)).
Definition primes : list N := filter (λ p, prime p = true) (N.of_nat <$> seq 2 310).

(** The cube root of [n] rounded down, bit by bit from bit [b - 1]. *)
Fixpoint cbrt (b : nat) (r n : N) : N :=
  match b with
  | O => r
  | S b => let r' := r + 2 ^ N.of_nat b in cbrt b (if r' ^ 3 <=? n then r' else r) n
  end.

Definition K : list N := Eval vm_compute in (λ p, w32 (cbrt 36 0 (p * 2 ^ 96))) <$> primes.
Definition H0 : list N := Eval vm_compute in (λ p, w32 (N.sqrt (p * 2 ^ 64))) <$> take 8 primes.

Record state := mkState { sa : N; sb : N; sc : N; sd : N; se : N; sf : N; sg : N; sh : N }.

Definition init : state :=
  let h i := nth i H0 0 in
  mkState (h 0%nat) (h 1%nat) (h 2%nat) (h 3%nat) (h 4%nat) (h 5%nat) (h 6%nat) (h 7%nat).

(** The message schedule, most recent word first. *)
Fixpoint extend (n : nat) (ws : list N) : list N :=
  match n with
  | O => ws
  | S n =>
      let w i := nth i ws 0 in
      extend n (add32 (add32 (small_sigma1 (w 1%nat)) (w 6%nat))
                  (add32 (small_sigma0 (w 14%nat)) (w 15%nat)) :: ws)
  end.

Definition round (s : state) (kw : N * N) : state :=
  let t1 := add32 (add32 (sh s) (big_sigma1 (se s)))
              (add32 (ch (se s) (sf s) (sg s)) (add32 kw.1 kw.2)) in
  let t2 := add32 (big_sigma0 (sa s)) (maj (sa s) (sb s) (sc s)) in
  mkState (add32 t1 t2) (sa s) (sb s) (sc s) (add32 (sd s) t1) (se s) (sf s) (sg s).

Definition compress (s : state) (block : list N) : state :=
  let ws := rev (extend 48 (rev block)) in
  let r := foldl round s (zip K ws) in
  mkState (add32 (sa s) (sa r)) (add32 (sb s) (sb r)) (add32 (sc s) (sc r)) (add32 (sd s) (sd r))
    (add32 (se s) (se r)) (add32 (sf s) (sf r)) (add32 (sg s) (sg r)) (add32 (sh s) (sh r)).

Definition be32 (x : N) : bytes :=
  [as_u8 (N.shiftr x 24); as_u8 (N.shiftr x 16); as_u8 (N.shiftr x 8); as_u8 x].

Definition pad (d : bytes) : bytes :=
  let bits := 8 * len d in
  d ++ [x80] ++ replicate (N.to_nat ((119 - len d `mod` 64) `mod` 64)) x00 ++
  be32 (N.shiftr bits 32) ++ be32 bits.

Fixpoint words (d : bytes) : list N :=
  match d with
  | b0 :: b1 :: b2 :: b3 :: d =>
      N.lor (N.shiftl (Byte.to_N b0) 24) (N.lor (N.shiftl (Byte.to_N b1) 16)
        (N.lor (N.shiftl (Byte.to_N b2) 8) (Byte.to_N b3))) :: words d
  | _ => []
  end.

(** One block of sixteen words per unit of fuel. *)
Fixpoint blocks (fuel : nat) (ws : list N) (s : state) : state :=
  match fuel with
  | O => s
  | S fuel =>
      match ws with
      | [] => s
      | _ => blocks fuel (drop 16 ws) (compress s (take 16 ws))
      end
  end.

Definition sha256 (d : bytes) : bytes :=
  let ws := words (pad d) in
  let s := blocks (length ws) ws init in
  be32 (sa s) ++ be32 (sb s) ++ be32 (sc s) ++ be32 (sd s) ++
  be32 (se s) ++ be32 (sf s) ++ be32 (sg s) ++ be32 (sh s).

Lemma sha256_length d : length (sha256 d) = 32%nat.
Proof. done. Qed.

(** The FIPS 180-4 example message abc. *)
Example sha256_abc :
  sha256 [x61; x62; x63] =
  [xba; x78; x16; xbf; x8f; x01; xcf; xea; x41; x41; x40; xde; x5d; xae; x22; x23;
   xb0; x03; x61; xa3; x96; x17; x7a; x9c; xb4; x10; xff; x61; xf2; x00; x15; xad].
Proof. vm_compute. reflexivity. Qed.
End Sha256.

Definition sha256_crypto : Crypto :=
  {| sha256 := Sha256.sha256; sha256_length := Sha256.sha256_length |}.
