(* ===== verification/MptNodeFacts.v ===== *)
(** * The node codec is correct

    Closed forms of the bytes written for a node, the encode/decode round
    trip, exact sizes, and the canonicity of rows accepted by the scrub. *)
From S2P Require Import Prelude Primitives Io MptNode Sha256.
Import NodeType Node NodeCodec.

(** ** Induction over the node tree *)

Section node_ind.
Context (P : Node.t → Prop).
Context (step : ∀ n, Forall P (children n) → (∀ c, next n = Some c → P c) → P n).

Fixpoint node_induction (n : Node.t) : P n.
Proof.
  apply step.
  - destruct n as [ty r hc ah d cs k nx v]; simpl.
    induction cs as [|c cs IH]; constructor; [apply node_induction|exact IH].
  - destruct n as [ty r hc ah d cs k nx v]; simpl.
    destruct nx as [c'|]; intros c Hc; [|discriminate].
    pose proof (node_induction c') as IH. injection Hc as <-. exact IH.
Defined.
End node_ind.

Section codec_facts.
Context `{Crypto}.

Lemma from_bytes_hash256 d :
  UInt256.from_bytes (hash256 d) = Ok (UInt256.from_array (hash256 d)).
Proof. apply UInt256Facts.from_bytes_ok, length_hash256. Qed.

(** Hash of a payload, as a [UInt256]. *)
Definition digest (payload : bytes) : UInt256.t := UInt256.from_array (hash256 payload).

Lemma digest_wf p : UInt256.wf (digest p).
Proof. apply UInt256Facts.wf_from_array. Qed.

(** Bytes of a child inside its parent's payload. *)
Definition child_bytes (c : Node.t) : bytes :=
  match node_type c with
  | Empty => [x04]
  | _ => x03 :: UInt256.to_array (hash c)
  end.

Definition payload_bytes (n : Node.t) : bytes :=
  to_byte (node_type n) ::
  match node_type n with
  | BranchNode => concat (child_bytes <$> children n)
  | ExtensionNode =>
      var_int_bytes (len (key n)) ++ key n ++
      match next n with Some c => child_bytes c | None => [] end
  | LeafNode => var_int_bytes (len (value n)) ++ value n
  | HashNode => match hash_cell n with Some h => UInt256.to_array h | None => [] end
  | Empty => []
  end.

(** A hash node always carries its hash; memoised hashes fit in 32 bytes. *)
Definition cell_ok (n : Node.t) : Prop :=
  (node_type n = HashNode → is_Some (hash_cell n)) ∧
  (∀ h, hash_cell n = Some h → UInt256.wf h).

(** What the codec needs of a node and its direct children. *)
Definition node_ok (n : Node.t) : Prop :=
  cell_ok n ∧ Forall cell_ok (children n) ∧
  (∀ c, next n = Some c → cell_ok c) ∧
  (node_type n = ExtensionNode → is_Some (next n)).

Lemma serialize_unfold n :
  serialize_without_reference n =
  (_ ← Writer.write_u8 (to_byte (node_type n));
   match node_type n with
   | BranchNode => for_each (λ c, map_err (λ _, InvalidData) (serialize_as_child c)) (children n)
   | ExtensionNode =>
       match next n with
       | None => fail InvalidData
       | Some c =>
           _ ← Writer.write_var_bytes (key n);
           map_err (λ _, InvalidData) (serialize_as_child c)
       end
   | LeafNode => Writer.write_var_bytes (value n)
   | HashNode =>
       match hash_cell n with
       | None => fail InvalidData
       | Some h => Writer.write_bytes (UInt256.to_array h)
       end
   | Empty => mret tt
   end).
Proof. by destruct n. Qed.

Lemma writes_map_err {E} (f : IoError → E) (m : Writer.Wr) bs w :
  writes m bs → map_err f m w = (mkWriter (wbuffer w ++ bs), Ok tt).
Proof. intros Hm. by apply map_err_ok. Qed.

Lemma hash_hash_node n h : node_type n = HashNode → hash_cell n = Some h → hash n = h.
Proof. intros _ Hh. unfold hash. by rewrite Hh. Qed.

Lemma writes_as_child c : cell_ok c → writes (serialize_as_child c) (child_bytes c).
Proof.
  intros [Hc _]. unfold serialize_as_child, child_bytes.
  destruct (node_type c) eqn:E; simpl;
    [by apply (writes_bind _ _ [x03]); apply writes_append..| |].
  - destruct (Hc eq_refl) as [h Hh]. rewrite serialize_unfold, E, Hh.
    rewrite (hash_hash_node c h) by done.
    by apply (writes_bind _ _ [x03]); apply writes_append.
  - rewrite serialize_unfold, E. apply (writes_bind _ _ [x04] []); [apply writes_append|apply writes_ret].
Qed.

Lemma writes_children cs :
  Forall cell_ok cs →
  writes (for_each (λ c, map_err (λ _ : IoError, InvalidData) (serialize_as_child c)) cs)
    (concat (child_bytes <$> cs)).
Proof.
  induction 1 as [|c cs Hc Hcs IH]; [apply writes_ret|].
  rewrite fmap_cons. simpl. apply writes_bind; [|done].
  intros w. by apply writes_map_err, writes_as_child.
Qed.

Lemma writes_payload n : node_ok n → writes (serialize_without_reference n) (payload_bytes n).
Proof.
  intros ([Hh _] & Hcs & Hnext & Hext). rewrite serialize_unfold. unfold payload_bytes.
  apply (writes_bind _ _ [to_byte (node_type n)]); [apply writes_append|].
  destruct (node_type n) eqn:E.
  - by apply writes_children.
  - destruct (Hext eq_refl) as [c Hc]. rewrite Hc, app_assoc.
    apply writes_bind; [apply writes_var_bytes|].
    intros w. by apply writes_map_err, writes_as_child, Hnext.
  - apply writes_var_bytes.
  - destruct (Hh eq_refl) as [h ->]. apply writes_append.
  - apply writes_ret.
Qed.

Lemma to_array_without_reference_ok n :
  node_ok n → to_array_without_reference n = Ok (payload_bytes n).
Proof.
  intros Hn. unfold to_array_without_reference. by rewrite writes_payload.
Qed.

(** Node hash: the memo when present, the digest of the payload otherwise. *)
Lemma hash_ok n :
  node_ok n → hash n = default (digest (payload_bytes n)) (hash_cell n).
Proof.
  intros Hn. unfold hash, hash_of_payload. destruct (hash_cell n); [done|].
  rewrite writes_payload by done. simpl. by rewrite from_bytes_hash256.
Qed.

Lemma try_hash_ok n : node_ok n → try_hash n = Ok (hash n).
Proof.
  intros Hn. rewrite hash_ok by done. unfold try_hash.
  destruct (hash_cell n); [done|].
  by rewrite to_array_without_reference_ok, from_bytes_hash256.
Qed.

(** The hash of any node is a well-formed 256-bit value. *)
Lemma hash_wf n : cell_ok n → UInt256.wf (hash n).
Proof.
  intros [_ Hw]. unfold hash, hash_of_payload.
  destruct (hash_cell n) as [h|]; [by apply Hw|].
  destruct (serialize_without_reference n Writer.new) as [w [?|?]]; [|done].
  rewrite from_bytes_hash256. apply UInt256Facts.wf_from_array.
Qed.

(** ** Decoding what was written *)

(** The form in which a node comes back from storage. *)
Definition stored_child (c : Node.t) : Node.t :=
  match node_type c with
  | Empty => Node.new
  | _ => new_hash (hash c)
  end.
Definition stored (n : Node.t) : Node.t :=
  match node_type n with
  | BranchNode =>
      mk BranchNode (reference n) None None false (stored_child <$> children n) [] None []
  | ExtensionNode =>
      mk ExtensionNode (reference n) None None false [] (key n) (stored_child <$> next n) []
  | LeafNode => mk LeafNode (reference n) None None false [] [] None (value n)
  | HashNode | Empty => stored_child n
  end.

(** Within the limits that the reader enforces. *)
Definition storable (n : Node.t) : Prop :=
  materialized (node_type n) = true ∧ node_ok n ∧ (0 ≤ reference n < 2 ^ 31)%Z ∧
  match node_type n with
  | BranchNode => length (children n) = BRANCH_CHILD_COUNT
  | ExtensionNode => (len (key n) ≤ N.of_nat MAX_KEY_LENGTH)%N
  | LeafNode => (len (value n) ≤ MAX_VALUE_LENGTH)%N
  | HashNode | Empty => True
  end.

(** The stored row: payload, then the reference count. *)
Definition row (n : Node.t) : bytes :=
  payload_bytes n ++ var_int_bytes (Z.to_N (reference n)).

Lemma writes_row n : storable n → writes (node_serialize n) (row n).
Proof.
  intros (Hm & Hok & Hr & _). unfold node_serialize, row.
  apply writes_bind; [by apply writes_payload|]. rewrite Hm. unfold write_reference.
  rewrite (proj2 (Z.ltb_ge _ _)) by lia. apply writes_var_int.
Qed.

Lemma len_child_bytes c : len (child_bytes c) = byte_size_as_child c.
Proof.
  unfold child_bytes, byte_size_as_child.
  destruct (node_type c); rewrite ?len_cons; unfold len;
    rewrite ?UInt256Facts.length_to_array; done.
Qed.

Lemma len_children cs :
  len (concat (child_bytes <$> cs)) = foldr N.add 0%N (byte_size_as_child <$> cs).
Proof.
  induction cs as [|c cs IH]; [done|].
  rewrite !fmap_cons. cbn [concat foldr]. by rewrite len_app, IH, len_child_bytes.
Qed.

Lemma len_row n : storable n → len (row n) = byte_size n.
Proof.
  intros (Hm & (_ & _ & _ & Hext) & Hr & Hlim).
  unfold row, payload_bytes, byte_size, byte_size_without_reference, reference_var_size.
  rewrite Hm, (proj2 (Z.ltb_ge _ _)), len_app, len_cons, len_var_int_bytes by lia.
  unfold SerializeHelper.get_var_size. f_equal. f_equal.
  destruct (node_type n); try done.
  - apply len_children.
  - destruct (Hext eq_refl) as [c Hc]. unfold extension_size. rewrite Hc.
    rewrite !len_app, len_var_int_bytes, len_child_bytes. unfold SerializeHelper.get_var_size_bytes,
      SerializeHelper.get_var_size. lia.
  - by rewrite len_app, len_var_int_bytes.
Qed.

Lemma reads_node_child levels c :
  cell_ok c → reads (deserialize_levels (S levels)) (child_bytes c) (stored_child c).
Proof.
  intros Hc. unfold child_bytes, stored_child. cbn [deserialize_levels].
  pose proof (hash_wf c Hc) as Hw.
  destruct (node_type c);
    (eapply (reads_bind _ _ [_]); [apply reads_byte|]; simpl from_byte; cbn beta iota);
    [eapply reads_bind_pure;
       [apply reads_slice; unfold len; by rewrite UInt256Facts.length_to_array|];
     rewrite UInt256Facts.from_bytes_to_array by done..|]; apply reads_ret.
Qed.

Lemma reads_node_children levels cs :
  Forall cell_ok cs →
  reads (collect (deserialize_levels (S levels)) (length cs))
    (concat (child_bytes <$> cs)) (stored_child <$> cs).
Proof.
  induction 1 as [|c cs Hc Hcs IH]; [apply reads_ret|].
  rewrite !fmap_cons. cbn [length collect concat].
  eapply reads_bind; [by apply reads_node_child|].
  eapply reads_bind_pure; [exact IH|apply reads_ret].
Qed.

Lemma reference_roundtrip z : (0 ≤ z < 2 ^ 31)%Z → u64_as_i32 (Z.to_N z) = z.
Proof.
  intros Hz. unfold u64_as_i32. rewrite Z2N.id by lia. apply i32_wrap_id.
  unfold i32_range. lia.
Qed.

Lemma reads_reference n :
  (0 ≤ reference n < 2 ^ 31)%Z →
  reads Reader.read_var_uint (var_int_bytes (Z.to_N (reference n))) (Z.to_N (reference n)).
Proof. intros Hr. apply reads_var_int; unfold u64_max; lia. Qed.

Lemma reads_row n : storable n → reads node_deserialize (row n) (stored n).
Proof.
  intros (Hm & (_ & Hcs & Hnext & Hext) & Hr & Hlim).
  pose proof (reads_reference n Hr) as Href.
  unfold row, payload_bytes, node_deserialize, stored.
  replace (MAX_KEY_LENGTH + 1)%nat with (S (S (MAX_KEY_LENGTH - 1))) by reflexivity.
  remember (S (MAX_KEY_LENGTH - 1)) as levels eqn:Hl. cbn [deserialize_levels app].
  destruct (node_type n) eqn:E; try done;
    (eapply (reads_bind _ _ [_]); [apply reads_byte|]; simpl from_byte; cbn beta iota).
  - eapply reads_bind; [rewrite <-Hlim, Hl; by apply reads_node_children|].
    eapply reads_bind_pure; [exact Href|]. rewrite reference_roundtrip by done. apply reads_ret.
  - destruct (Hext eq_refl) as [c Hc]. rewrite Hc, <-!app_assoc, app_assoc.
    eapply reads_bind; [apply reads_var_memory; [done|unfold u64_max, MAX_KEY_LENGTH in *; simpl in *; lia]|].
    eapply reads_bind; [rewrite Hl; by apply reads_node_child, Hnext|].
    eapply reads_bind_pure; [exact Href|]. rewrite reference_roundtrip by done. apply reads_ret.
  - eapply reads_bind; [apply reads_var_memory; [done|unfold u64_max, MAX_VALUE_LENGTH, MAX_STORAGE_VALUE_SIZE in *; lia]|].
    eapply reads_bind_pure; [exact Href|]. rewrite reference_roundtrip by done. apply reads_ret.
Qed.

Lemma child_bytes_stored c : child_bytes (stored_child c) = child_bytes c.
Proof. unfold child_bytes, stored_child. by destruct (node_type c) eqn:E. Qed.

(** Storage does not change the payload, hence not the hash. *)
Lemma payload_bytes_stored n : storable n → payload_bytes (stored n) = payload_bytes n.
Proof.
  intros (Hm & _). unfold payload_bytes, stored.
  destruct (node_type n) eqn:E; try done; cbn [node_type children key next value]; f_equal.
  - f_equal. rewrite <-list_fmap_compose. apply list_fmap_ext. intros. apply child_bytes_stored.
  - f_equal. f_equal. destruct (next n); simpl; [apply child_bytes_stored|done].
Qed.

Lemma cell_ok_new_hash h : UInt256.wf h → cell_ok (new_hash h).
Proof. intros Hh. split; [by eexists|]. by intros ? [= <-]. Qed.

Lemma cell_ok_no_memo n : node_type n ≠ HashNode → hash_cell n = None → cell_ok n.
Proof. intros Ht Hc. split; [done|]. by rewrite Hc. Qed.

Lemma cell_ok_stored c : cell_ok c → cell_ok (stored_child c).
Proof.
  intros Hc. unfold stored_child.
  destruct (node_type c); [by apply cell_ok_new_hash, hash_wf..|by apply cell_ok_no_memo].
Qed.

Lemma node_ok_stored n : storable n → node_ok (stored n).
Proof.
  intros (Hm & (_ & Hcs & Hnext & Hext) & _). unfold stored, node_ok.
  destruct (node_type n); try done; cbn [children next node_type];
    (split; [by apply cell_ok_no_memo|]); split_and!; try done.
  - apply Forall_fmap. eapply Forall_impl; [exact Hcs|]. apply cell_ok_stored.
  - intros c Hc. destruct (next n) as [c'|]; simplify_eq/=. by apply cell_ok_stored, Hnext.
  - intros _. destruct (Hext eq_refl) as [c ->]. by eexists.
Qed.

(** ** Splitting stored rows *)

Lemma reads_node_type ty : reads read_node_type [to_byte ty] ty.
Proof.
  eapply reads_bind_pure; [apply reads_map_err, reads_byte|].
  destruct ty; apply reads_ret.
Qed.

Lemma reads_skip_child levels c :
  reads (skip_serialized_node (S levels)) (child_bytes c) tt.
Proof.
  assert (∀ h, reads (skip_serialized_node (S levels)) (x03 :: UInt256.to_array h) tt) as Hh.
  { intros h. eapply (reads_bind _ _ [x03]); [apply (reads_node_type HashNode)|]. simpl.
    eapply reads_bind_pure; [|apply reads_ret].
    eapply reads_bind_pure; [|apply reads_ret]. apply reads_map_err, reads_slice.
    unfold len. by rewrite UInt256Facts.length_to_array. }
  unfold child_bytes. destruct (node_type c); try apply Hh.
  eapply (reads_bind _ _ [x04]); [apply (reads_node_type Empty)|].
  eapply reads_bind_pure; apply reads_ret.
Qed.

Lemma reads_skip_children levels cs :
  reads (repeat_n (skip_serialized_node (S levels)) (length cs)) (concat (child_bytes <$> cs)) tt.
Proof.
  induction cs as [|c cs IH]; [apply reads_ret|].
  rewrite fmap_cons. cbn [concat length repeat_n].
  eapply reads_bind; [apply reads_skip_child|exact IH].
Qed.

Lemma reads_skip_payload n levels :
  storable n →
  reads (skip_node_payload (skip_serialized_node (S levels)) (node_type n))
    (drop 1 (payload_bytes n)) tt.
Proof.
  intros (Hm & (_ & _ & _ & Hext) & _ & Hlim).
  unfold payload_bytes, skip_node_payload. rewrite skipn_cons, drop_0.
  destruct (node_type n); try done.
  - rewrite <-Hlim. apply reads_skip_children.
  - destruct (Hext eq_refl) as [c ->]. rewrite app_assoc.
    eapply reads_bind; [|apply reads_skip_child]. apply reads_map_err, reads_var_memory;
      [done|unfold u64_max, MAX_KEY_LENGTH in *; simpl in *; lia].
  - eapply reads_bind_pure; [|apply reads_ret]. apply reads_map_err, reads_var_memory;
      [done|unfold u64_max, MAX_VALUE_LENGTH, MAX_STORAGE_VALUE_SIZE in *; lia].
Qed.

(** Running a decoder at the front of what is left. *)
Lemma reads_step {E A B} (m : M MemoryReader E A) (f : A → M MemoryReader E B) bs a pre post p :
  reads m bs a → p = len pre →
  (m ≫= f) (mkReader (pre ++ bs ++ post) p) =
  f a (mkReader ((pre ++ bs) ++ post) (len (pre ++ bs))).
Proof.
  intros Hm ->. unfold mbind, M_bind. rewrite Hm.
  by rewrite len_app, <-app_assoc.
Qed.

Lemma split_row n :
  storable n → split_serialized_reference (row n) = Ok (node_type n, reference n, payload_bytes n).
Proof.
  intros Hs. assert (Hs' := Hs). destruct Hs' as (Hm & _ & Hr & _).
  unfold split_serialized_reference.
  assert (serialized_reference_parts (Reader.new (row n)) =
    (mkReader (row n) (len (row n)), Ok (node_type n, reference n, len (payload_bytes n)))) as ->.
  2:{ simpl. unfold row, len. by rewrite Nat2N.id, take_app_length. }
  assert (∃ body, payload_bytes n = [to_byte (node_type n)] ++ body ∧
    reads (skip_node_payload (skip_serialized_node MAX_KEY_LENGTH) (node_type n)) body tt)
    as (body & Hp & Hskip).
  { eexists. split; [|exact (reads_skip_payload n (MAX_KEY_LENGTH - 1) Hs)]. done. }
  unfold Reader.new, serialized_reference_parts, row. rewrite Hp, <-app_assoc.
  etransitivity; [apply (reads_step _ _ _ _ [] _ 0 (reads_node_type _) eq_refl)|].
  etransitivity; [apply (reads_step _ _ _ _ _ _ _ Hskip eq_refl)|].
  rewrite (mbind_ok (gets position) _ _ _ _ eq_refl). rewrite Hm.
  rewrite <-(app_nil_r (var_int_bytes _)).
  erewrite (reads_step _ _ _ (reference n) _ [] _); [|eapply reads_bind_pure;
    [apply reads_map_err, reads_reference, Hr|rewrite reference_roundtrip by done; apply reads_ret]|done].
  rewrite (mbind_ok (gets Reader.remaining) _ _ _ _ eq_refl).
  unfold Reader.remaining. cbn [buffer position]. rewrite !app_nil_r, N.sub_diag.
  rewrite bool_decide_false by (by intros ?). by rewrite <-app_assoc.
Qed.

(** (C35) Node codec round trip: a node within the protocol limits is written
    without error, its row decodes to the node with every child replaced by its
    hash and the same reference count, the announced size is exact, and
    splitting the row and joining it again both keep the hash preimage. *)
Theorem node_codec_roundtrip n :
  storable n →
  writes (node_serialize n) (row n) ∧
  reads node_deserialize (row n) (stored n) ∧
  len (row n) = byte_size n ∧
  to_array_without_reference (stored n) = to_array_without_reference n ∧
  split_serialized_reference (row n) = Ok (node_type n, reference n, payload_bytes n) ∧
  array_from_payload_parts (node_type n) (reference n) (payload_bytes n) = Ok (row n).
Proof.
  intros Hs. assert (Hs' := Hs). destruct Hs' as (Hm & Hok & Hr & Hlim).
  split_and!; [by apply writes_row|by apply reads_row|by apply len_row| |by apply split_row|].
  - rewrite (to_array_without_reference_ok n) by done.
    rewrite to_array_without_reference_ok; [by rewrite payload_bytes_stored|].
    by apply node_ok_stored.
  - unfold array_from_payload_parts, row. rewrite Hm.
    by rewrite (proj2 (Z.ltb_ge _ _)) by lia.
Qed.

(** ** Rows accepted by the scrub *)

(** A row as the scrub expects it: already in stored form, referenced. *)
Definition canonical_row (bs : bytes) (n : Node.t) : Prop :=
  storable n ∧ stored n = n ∧ (1 ≤ reference n)%Z ∧ bs = row n.

Lemma parses_node_type : parses read_node_type (λ bs ty, bs = [to_byte ty]).
Proof.
  eapply parses_mono.
  { apply parses_bind; [apply parses_map_err, parses_byte|]. intros b.
    instantiate (1 := λ b bs ty, bs = [] ∧ from_byte b = Some ty). simpl.
    destruct (from_byte b) eqn:E; [|apply parses_fail].
    eapply parses_mono; [apply parses_ret|]. by intros ? ? [-> ->]. }
  intros bs ty (bs1 & bs2 & b & -> & -> & [-> Hb]). by destruct b; simplify_eq/=.
Qed.

Definition stored_child_shape (c : Node.t) : Prop :=
  c = Node.new ∨ ∃ h, UInt256.wf h ∧ c = new_hash h.

Lemma stored_child_shape_ok c : stored_child_shape c → cell_ok c ∧ stored_child c = c.
Proof.
  intros [->|(h & Hh & ->)]; split; try done.
  by apply cell_ok_new_hash.
Qed.

Lemma parses_persisted_child :
  parses skip_persisted_child (λ bs _, ∃ c, stored_child_shape c ∧ bs = child_bytes c).
Proof.
  eapply parses_mono.
  { apply parses_bind; [apply parses_node_type|]. intros ty.
    instantiate (1 := λ ty bs _, (ty = Empty ∧ bs = []) ∨ (ty = HashNode ∧ len bs = N.of_nat UINT256_SIZE)).
    destruct ty; try apply parses_fail.
    - eapply parses_mono; [apply parses_bind;
        [apply parses_map_err, parses_slice|intros; apply parses_ret]|].
      intros bs ? (bs1 & bs2 & a & -> & [-> Hl] & [-> ->]). rewrite app_nil_r. auto.
    - eapply parses_mono; [apply parses_ret|]. intros ? ? [-> _]. by left. }
  intros bs ? (bs1 & bs2 & ty & -> & -> & [[-> ->]|[-> Hl]]).
  - exists Node.new. split; [by left|done].
  - exists (new_hash (UInt256.from_array bs2)). split.
    + right. eexists. split; [apply UInt256Facts.wf_from_array|done].
    + simpl. unfold child_bytes. simpl.
      rewrite (hash_hash_node _ (UInt256.from_array bs2)) by done.
      rewrite UInt256Facts.to_array_from_array; [done|]. unfold len in Hl. lia.
Qed.

Lemma parses_persisted_children n :
  parses (repeat_n skip_persisted_child n)
    (λ bs _, ∃ cs, length cs = n ∧ Forall stored_child_shape cs ∧ bs = concat (child_bytes <$> cs)).
Proof.
  induction n as [|n IH]; cbn [repeat_n].
  { eapply parses_mono; [apply parses_ret|]. intros bs ? [-> _]. by exists []. }
  eapply parses_mono; [apply parses_bind; [apply parses_persisted_child|intros; exact IH]|].
  intros bs ? (bs1 & bs2 & a & -> & (c & Hc & ->) & (cs & <- & Hcs & ->)).
  exists (c :: cs). split_and!; [done|by constructor|done].
Qed.

Lemma parses_canonical_var_memory max :
  parses (read_canonical_var_memory max)
    (λ bs _, ∃ m, bs = var_int_bytes (len m) ++ m ∧ (len m ≤ max)%N).
Proof.
  intros r r' a Hr (r1 & start & [= <- <-] & Hrun)%mbind_inv_ok.
  apply mbind_inv_ok in Hrun as (r2 & m & H1%map_err_inv_ok & Hrun).
  apply parses_var_memory in H1 as (pre & bs & post & -> & -> & (p & -> & Hp & Hmax)); [|done].
  apply mbind_inv_ok in Hrun as (r3 & stop & [= <- <-] & Hrun). cbn [position] in Hrun.
  case_bool_decide as Hw; [done|]. injection Hrun as <- <-.
  exists pre, (p ++ m), post. split_and!; [done..|].
  exists m. split; [|done]. f_equal.
  assert (len p = VarInt.encoded_len (len m)) as Hlen by (rewrite <-Hw, len_app; lia).
  rewrite (read_prefix_canonical _ _ _ Hp) in Hlen.
  unfold len in Hlen. rewrite Nat2N.id, take_ge in Hlen; done.
Qed.

Lemma stored_children_id cs : Forall stored_child_shape cs → stored_child <$> cs = cs.
Proof.
  induction 1 as [|c cs Hc _ IH]; [done|].
  by rewrite fmap_cons, IH, (proj2 (stored_child_shape_ok c Hc)).
Qed.

Lemma shapes_cell_ok cs : Forall stored_child_shape cs → Forall cell_ok cs.
Proof. intros Hcs. eapply Forall_impl; [exact Hcs|]. intros c Hc. by apply stored_child_shape_ok. Qed.

Lemma parses_persisted_body ty :
  parses
    (match ty with
     | BranchNode => repeat_n skip_persisted_child BRANCH_CHILD_COUNT
     | ExtensionNode =>
         _ ← read_canonical_var_memory (N.of_nat MAX_KEY_LENGTH); skip_persisted_child
     | LeafNode => read_canonical_var_memory MAX_VALUE_LENGTH
     | HashNode | Empty => fail InvalidOperation
     end)
    (λ bs _, ∀ r, (0 ≤ r < 2 ^ 31)%Z →
       ∃ n, storable n ∧ stored n = n ∧ node_type n = ty ∧ reference n = r ∧
            payload_bytes n = to_byte ty :: bs).
Proof.
  destruct ty; try apply parses_fail.
  - eapply parses_mono; [apply parses_persisted_children|].
    intros bs _ (cs & Hlen & Hcs & ->) r Hr.
    exists (mk BranchNode r None None false cs [] None []).
    unfold storable, stored, node_ok. cbn [node_type children next reference].
    rewrite stored_children_id by done.
    split_and!; first [done|lia|by apply shapes_cell_ok].
  - eapply parses_mono; [apply parses_bind;
      [apply parses_canonical_var_memory|intros; apply parses_persisted_child]|].
    intros bs _ (bs1 & bs2 & [] & -> & (m & -> & Hm) & (c & Hc & ->)) r Hr.
    destruct (stored_child_shape_ok c Hc) as [Hok Hst].
    exists (mk ExtensionNode r None None false [] m (Some c) []).
    unfold storable, stored, node_ok. cbn [node_type children next reference key fmap option_fmap option_map].
    rewrite Hst. split_and!; first [done|lia|by intros ? [= <-]|idtac].
    unfold payload_bytes. simpl. by rewrite <-app_assoc.
  - eapply parses_mono; [apply parses_canonical_var_memory|].
    intros bs _ (m & -> & Hm) r Hr.
    exists (mk LeafNode r None None false [] [] None m).
    unfold storable, stored, node_ok. cbn [node_type children next reference value].
    split_and!; first [done|lia].
Qed.

Lemma reader_new_ok bs : (len bs < usize_max)%N → reader_ok (Reader.new bs).
Proof. intros Hl. split; simpl; [lia|done]. Qed.

Lemma persisted_payload_len_inv bs r pl :
  (len bs < usize_max)%N → persisted_payload_len (Reader.new bs) = (r, Ok pl) →
  ∃ n, canonical_row bs n ∧ pl = len (payload_bytes n).
Proof.
  intros Hl Hrun. pose proof (reader_new_ok bs Hl) as Hok.
  minv Hrun. rename a into ty.
  apply (parses_at _ _ [] bs _ _ parses_node_type Hl) in Hrun0 as (b1 & rest & -> & -> & ->).
  minv Hrun. destruct a.
  apply (parses_at _ _ _ _ _ _ (parses_persisted_body ty)) in Hrun0
    as (b2 & rest2 & -> & -> & Hbody); [|done].
  rewrite (mbind_ok (gets position) _ _ _ _ eq_refl) in Hrun. minv Hrun. rename a into ref.
  apply (parses_at _ _ _ _ _ _ (parses_map_err _ _ _ (parses_var_int _))) in Hrun0
    as (b3 & rest3 & -> & -> & [Href _]); [|by rewrite <-app_assoc].
  case_match eqn:Eref; [done|]. apply orb_false_iff in Eref as [E1%N.eqb_neq E2%N.ltb_ge].
  rewrite (mbind_ok (gets position) _ _ _ _ eq_refl) in Hrun.
  case_bool_decide as Hcan; [done|].
  rewrite (mbind_ok (gets Reader.remaining) _ _ _ _ eq_refl) in Hrun.
  case_bool_decide as Hrem; [done|]. injection Hrun as <- <-.
  unfold Reader.remaining in Hrem. cbn [buffer position] in Hrem, Hcan |- *.
  destruct rest3; [|rewrite !len_app, !len_cons in Hrem; lia].
  destruct (Hbody (Z.of_N ref)) as (n & Hst & Hid & Hty & Hr & Hp); [lia|].
  exists n. unfold canonical_row, row. rewrite Hp, Hr, N2Z.id. split_and!; try (done || lia).
  rewrite app_nil_r. simpl. f_equal. f_equal.
  assert (len b3 = VarInt.encoded_len ref) as Hlen by (rewrite <-Hcan, !len_app; lia).
  rewrite (read_prefix_canonical _ _ _ Href) in Hlen.
  unfold len in Hlen. by rewrite Nat2N.id, take_ge in Hlen.
Qed.

Lemma stored_child_has_shape c : cell_ok c → stored_child_shape (stored_child c).
Proof.
  intros Hc. unfold stored_child.
  destruct (node_type c); [by right; eexists; split; [apply hash_wf|]..|by left].
Qed.

Lemma reads_persisted_child c :
  stored_child_shape c → reads skip_persisted_child (child_bytes c) tt.
Proof.
  intros [->|(h & Hh & ->)].
  - eapply (reads_bind _ _ [x04]); [apply (reads_node_type Empty)|apply reads_ret].
  - eapply (reads_bind _ _ [x03]); [apply (reads_node_type HashNode)|]. simpl.
    eapply reads_bind_pure; [|apply reads_ret]. apply reads_map_err, reads_slice.
    unfold len. by rewrite UInt256Facts.length_to_array.
Qed.

Lemma reads_persisted_children cs :
  Forall stored_child_shape cs →
  reads (repeat_n skip_persisted_child (length cs)) (concat (child_bytes <$> cs)) tt.
Proof.
  induction 1 as [|c cs Hc Hcs IH]; [apply reads_ret|].
  rewrite fmap_cons. cbn [concat length repeat_n].
  eapply reads_bind; [by apply reads_persisted_child|exact IH].
Qed.

Lemma reads_canonical_var_memory max m :
  (len m ≤ max)%N → (len m ≤ u64_max)%N →
  reads (read_canonical_var_memory max) (var_int_bytes (len m) ++ m) tt.
Proof.
  intros Hmax Hu pre post. unfold read_canonical_var_memory.
  rewrite (mbind_ok (gets position) _ _ _ _ eq_refl).
  erewrite mbind_ok by (apply map_err_ok, reads_var_memory; done).
  rewrite (mbind_ok (gets position) _ _ _ _ eq_refl). cbn [position].
  rewrite bool_decide_false; [done|]. intros Hne. apply Hne.
  rewrite !len_app, len_var_int_bytes. lia.
Qed.

Lemma canonical_shapes n :
  storable n → stored n = n →
  Forall stored_child_shape (children n) ∧ (∀ c, next n = Some c → stored_child_shape c).
Proof.
  intros (Hm & (_ & Hcs & Hnext & _) & _) Hid. rewrite <-Hid. unfold stored.
  destruct (node_type n); try done; cbn [children next]; split; try done.
  - apply Forall_fmap. eapply Forall_impl; [exact Hcs|]. apply stored_child_has_shape.
  - intros c Hc. destruct (next n) as [c'|]; simplify_eq/=.
    by apply stored_child_has_shape, Hnext.
Qed.

Lemma persisted_payload_len_row n :
  storable n → stored n = n → (1 ≤ reference n)%Z →
  (persisted_payload_len (Reader.new (row n))).2 = Ok (len (payload_bytes n)).
Proof.
  intros Hs Hid Href. destruct (canonical_shapes n Hs Hid) as [Hshapes Hshape].
  destruct Hs as (Hm & (_ & _ & _ & Hext) & Hr & Hlim).
  unfold persisted_payload_len, row, payload_bytes, Reader.new. rewrite <-app_comm_cons.
  etransitivity; [apply (f_equal snd), (reads_step _ _ [_] _ [] _ 0 (reads_node_type _) eq_refl)|].
  etransitivity; [eapply (f_equal snd), (reads_step _ _ _ tt); [|done]|].
  { destruct (node_type n); try done.
    - rewrite <-Hlim. by apply reads_persisted_children.
    - destruct (Hext eq_refl) as [c Hc]. rewrite Hc, app_assoc.
      eapply reads_bind; [|by apply reads_persisted_child, Hshape].
      apply reads_canonical_var_memory;
        [done|unfold u64_max, MAX_KEY_LENGTH in *; simpl in *; lia].
    - apply reads_canonical_var_memory;
        [done|unfold u64_max, MAX_VALUE_LENGTH, MAX_STORAGE_VALUE_SIZE in *; lia]. }
  rewrite (mbind_ok (gets position) _ _ _ _ eq_refl). cbn [position].
  rewrite <-(app_nil_r (var_int_bytes (Z.to_N (reference n)))).
  erewrite reads_step; [|by apply reads_map_err, reads_reference|done].
  rewrite (proj2 (N.eqb_neq _ _)), (proj2 (N.ltb_ge _ _)) by lia. cbn [orb].
  rewrite (mbind_ok (gets position) _ _ _ _ eq_refl). cbn [position].
  rewrite bool_decide_false
    by (intros Hne; apply Hne; rewrite (len_app _ (var_int_bytes _)), len_var_int_bytes; lia).
  rewrite (mbind_ok (gets Reader.remaining) _ _ _ _ eq_refl).
  unfold Reader.remaining. cbn [buffer position]. rewrite app_nil_r, N.sub_diag.
  by rewrite bool_decide_false by (by intros ?).
Qed.

Lemma validate_persisted_row n :
  canonical_row (row n) n → validate_persisted (row n) (digest (payload_bytes n)) = Ok tt.
Proof.
  intros (Hs & Hid & Hr & _). unfold validate_persisted.
  rewrite persisted_payload_len_row by done. unfold row, len.
  rewrite Nat2N.id, take_app_length, from_bytes_hash256.
  by rewrite bool_decide_false by (by intros ?).
Qed.

Lemma validate_persisted_inv bs h :
  (len bs < usize_max)%N → validate_persisted bs h = Ok tt →
  ∃ n, canonical_row bs n ∧ h = digest (payload_bytes n).
Proof.
  intros Hl. unfold validate_persisted.
  destruct (persisted_payload_len (Reader.new bs)) as [r [pl|]] eqn:E; [|done].
  apply persisted_payload_len_inv in E as (n & Hn & ->); [|done]. simpl.
  assert (Hn' := Hn). destruct Hn' as (_ & _ & _ & ->).
  unfold row, len. rewrite Nat2N.id, take_app_length, from_bytes_hash256.
  case_bool_decide; [done|]. naive_solver.
Qed.

Lemma deserialize_persisted_row n :
  canonical_row (row n) n → deserialize_persisted (row n) (digest (payload_bytes n)) = Ok n.
Proof.
  intros Hn. unfold deserialize_persisted. rewrite validate_persisted_row by done.
  destruct Hn as (Hs & Hid & _ & _).
  pose proof (reads_row n Hs [] []) as Hrd. rewrite app_nil_r in Hrd. simpl in Hrd.
  change (len []) with 0%N in Hrd. unfold Reader.new. by rewrite Hrd, Hid.
Qed.

Lemma deserialize_persisted_spec bs h n :
  (len bs < usize_max)%N →
  deserialize_persisted bs h = Ok n ↔ canonical_row bs n ∧ h = digest (payload_bytes n).
Proof.
  intros Hl. split.
  - intros E. destruct (validate_persisted bs h) as [[]|] eqn:Ev; [|by unfold deserialize_persisted in E; rewrite Ev in E].
    destruct (validate_persisted_inv bs h Hl Ev) as (m & Hm & ->).
    assert (Hm' := Hm). destruct Hm' as (_ & _ & _ & ->).
    rewrite deserialize_persisted_row in E by done. by simplify_eq.
  - intros [Hn ->]. assert (Hn' := Hn). destruct Hn' as (_ & _ & _ & ->). by apply deserialize_persisted_row.
Qed.

(** The scrub accepts exactly the canonical rows: [validate_persisted]
    succeeds on a byte string if and only if it is the serialization of a
    positively referenced node whose children are hashes, under the hash of its
    payload, and then [deserialize_persisted] returns that very node.  In
    particular a persisted node has a single accepted encoding. *)
Theorem persisted_scrub_exact bs h :
  (len bs < usize_max)%N →
  (validate_persisted bs h = Ok tt ↔
     ∃ n, canonical_row bs n ∧ h = digest (payload_bytes n)) ∧
  (∀ n, canonical_row bs n → h = digest (payload_bytes n) →
     deserialize_persisted bs h = Ok n).
Proof.
  intros Hl. split; [split|].
  - by apply validate_persisted_inv.
  - intros (n & Hn & ->). assert (Hn' := Hn). destruct Hn' as (_ & _ & _ & ->). by apply validate_persisted_row.
  - intros n Hn Hh. by apply deserialize_persisted_spec.
Qed.
End codec_facts.

Section sample.
#[local] Existing Instance sha256_crypto.

(** An extension over a leaf, in memory and as read back from the store. *)
Definition sample_node : Node.t :=
  mk ExtensionNode 1 None None true [] [x01; x02] (Some (new_leaf [xaa; xbb])) [].

Lemma sample_storable : storable sample_node.
Proof.
  split; [done|]. split; [|done]. split; [by apply cell_ok_no_memo|]. split; [constructor|].
  split; [|done]. intros c [= <-]. by apply cell_ok_no_memo.
Qed.

Lemma node_codec_roundtrip_witness :
  writes (node_serialize sample_node) (row sample_node) ∧
  reads node_deserialize (row sample_node) (stored sample_node) ∧
  len (row sample_node) = byte_size sample_node ∧
  to_array_without_reference (stored sample_node) = to_array_without_reference sample_node ∧
  split_serialized_reference (row sample_node) =
    Ok (node_type sample_node, reference sample_node, payload_bytes sample_node) ∧
  array_from_payload_parts (node_type sample_node) (reference sample_node)
    (payload_bytes sample_node) = Ok (row sample_node).
Proof. exact (node_codec_roundtrip sample_node sample_storable). Defined.

Lemma persisted_scrub_exact_witness :
  (validate_persisted (row sample_node) (digest (payload_bytes sample_node)) = Ok tt ↔
     ∃ n, canonical_row (row sample_node) n ∧ digest (payload_bytes sample_node) = digest (payload_bytes n)) ∧
  (∀ n, canonical_row (row sample_node) n → digest (payload_bytes sample_node) = digest (payload_bytes n) →
     deserialize_persisted (row sample_node) (digest (payload_bytes sample_node)) = Ok n).
Proof.
  apply (persisted_scrub_exact (row sample_node) (digest (payload_bytes sample_node))).
  vm_compute. reflexivity.
Defined.
End sample.
