(* ===== verification/MptCache.v ===== *)
(** * The trie's mutation cache

    Reference-counted node cache of neo-trie (src/neo-trie/src/mpt/cache/mod.rs
    and cache/operations.rs): cached entries, the deferred reference journal and
    its export, and the commit to the backing store.

    Telemetry ([MptMutationStats], timers, process counters) is not modelled.
    The Fx hash maps are [gmap]s; where the code iterates over one, the
    model uses [map_to_list], one of the orders the code may observe. *)
From S2P Require Import Prelude Primitives Order Io MptNode.
Import NodeType Node NodeCodec.

Definition MPT_NODE_PREFIX : byte := xf0.

Definition node_key_bytes (prefix : byte) (h : UInt256.t) : bytes :=
  prefix :: UInt256.to_array h.

Inductive TrackState := TNone | TAdded | TChanged | TDeleted.
#[export] Instance TrackState_eq_dec : EqDecision TrackState.
Proof. solve_decision. Defined.

(** One entry of an exported journal. *)
Record UnresolvedDeferredNode := mkUnresolved {
  u_key : bytes;
  u_node_type : NodeType.t;
  u_payload : bytes;
  u_puts : N;
}.

(** ** The store *)

(** [MptStoreSnapshot]: the operations a backend must provide.  Writes go
    through a shared reference in Rust; the model threads the store. *)
Class MptStoreSnapshot (St : Type) := {
  try_get : St → bytes → Result MptError (option bytes);
  store_put : bytes → bytes → M St MptError unit;
  store_delete : bytes → M St MptError unit;
  stage_unresolved_deferred_journal : list UnresolvedDeferredNode → M St MptError bool;
}.

Definition decode_node (bs : option bytes) : Result MptError (option Node.t) :=
  match bs with
  | None => Ok None
  | Some bs =>
      match (node_deserialize (Reader.new bs)).2 with
      | Ok n => Ok (Some n)
      | Err e => Err (MIo e)
      end
  end.

(** [try_get_node] and [try_get_node_with_source], default implementations:
    the provenance only feeds telemetry. *)
Definition try_get_node `{MptStoreSnapshot St} (s : St) (key : bytes)
    : Result MptError (option Node.t) :=
  r ← try_get s key; decode_node r.

Fixpoint try_get_nodes_with_source `{MptStoreSnapshot St} (s : St) (keys : list bytes)
    : Result MptError (list (option Node.t)) :=
  match keys with
  | [] => Ok []
  | k :: ks =>
      n ← try_get_node s k;
      ns ← try_get_nodes_with_source s ks;
      Ok (n :: ns)
  end.

(** [apply_overlay], default implementation. *)
Definition apply_overlay `{MptStoreSnapshot St} (overlay : list (bytes * option bytes))
    : M St MptError unit :=
  for_each (λ '(k, v), match v with
                        | Some v => store_put k v
                        | None => store_delete k
                        end) overlay.

(** ** Cache state *)

Record MptTrackable := mkTrackable {
  t_node : option Node.t;
  t_node_type : option NodeType.t;
  t_reference : Z;
  t_payload : option bytes;
  t_state : TrackState;
  t_produced : bool;
}.

Inductive DeferredReferenceOperation :=
| DPut (ty : NodeType.t) (payload : bytes)
| DDelete.

Record DeferredReferenceOperationRecord := mkOpRecord {
  op : DeferredReferenceOperation;
  op_next : option nat;
}.

Record DeferredReferenceEntry := mkDEntry { d_first : nat; d_last : nat }.

Record DeferredNodeState := mkDState {
  ds_node_type : NodeType.t;
  ds_reference : Z;
  ds_payload : bytes;
}.

Record PendingNodeFinalization := mkPending {
  p_node_type : NodeType.t;
  p_hash : UInt256.t;
  p_payload : bytes;
}.

Record MptCache (St : Type) := mkCache {
  store : St;
  prefix : byte;
  entries : gmap UInt256.t MptTrackable;
  defer_reference_resolution : bool;
  defer_intermediate_nodes : bool;
  export_deferred_journal : bool;
  deferred_entries : gmap UInt256.t DeferredReferenceEntry;
  deferred_operations : list DeferredReferenceOperationRecord;
}.
Arguments mkCache {St}. Arguments store {St}. Arguments prefix {St}. Arguments entries {St}.
Arguments defer_reference_resolution {St}. Arguments defer_intermediate_nodes {St}.
Arguments export_deferred_journal {St}. Arguments deferred_entries {St}.
Arguments deferred_operations {St}.

Section cache.
Context `{Crypto} `{MptStoreSnapshot St}.
Abbreviation Ch := (M (MptCache St) MptError).
Implicit Types (c : MptCache St) (h : UInt256.t).

Definition new_with_reference_mode (s : St) (prefix : byte) (defer_ref defer_int : bool)
    : MptCache St :=
  mkCache s prefix ∅ defer_ref defer_int false ∅ [].

Definition set_store (s : St) c : MptCache St :=
  mkCache s (prefix c) (entries c) (defer_reference_resolution c) (defer_intermediate_nodes c)
    (export_deferred_journal c) (deferred_entries c) (deferred_operations c).
Definition set_entries (e : gmap UInt256.t MptTrackable) c : MptCache St :=
  mkCache (store c) (prefix c) e (defer_reference_resolution c) (defer_intermediate_nodes c)
    (export_deferred_journal c) (deferred_entries c) (deferred_operations c).
Definition set_deferred (d : gmap UInt256.t DeferredReferenceEntry)
    (ops : list DeferredReferenceOperationRecord) c : MptCache St :=
  mkCache (store c) (prefix c) (entries c) (defer_reference_resolution c)
    (defer_intermediate_nodes c) (export_deferred_journal c) d ops.
Definition set_deferred_journal_export (enabled : bool) c : MptCache St :=
  mkCache (store c) (prefix c) (entries c) (defer_reference_resolution c)
    (defer_intermediate_nodes c) enabled (deferred_entries c) (deferred_operations c).

(** Writing through the [&mut MptTrackable] returned for [h]. *)
Definition write_entry h (e : MptTrackable) : Ch unit :=
  modify (λ c, set_entries (<[h := e]> (entries c)) c).

Definition trackable_new (n : option Node.t) : MptTrackable :=
  mkTrackable n (node_type <$> n) (match n with Some n => reference n | None => 0 end)
    None TNone false.

Definition resolve_clone : M MptTrackable MptError (option Node.t) := λ e,
  match t_node_type e with
  | None => (e, Ok None)
  | Some ty =>
      let materialized_node :=
        match t_node e with
        | Some n => Ok n
        | None =>
            match t_payload e with
            | None => Err InvalidOperation
            | Some p =>
                bs ← array_from_payload_parts ty (t_reference e) p;
                match (node_deserialize (Reader.new bs)).2 with
                | Ok n => Ok n
                | Err err => Err (MIo err)
                end
            end
        end in
      match materialized_node with
      | Err err => (e, Err err)
      | Ok n =>
          let n := with_reference (t_reference e) n in
          (mkTrackable (Some n) (t_node_type e) (t_reference e) (t_payload e) (t_state e)
             (t_produced e),
           Ok (Some (clone n)))
      end
  end.

(** ** Deferred journal *)

Definition ds_from_node (n : Node.t) : Result MptError DeferredNodeState :=
  p ← to_array_without_reference n;
  Ok (mkDState (node_type n) (reference n) p).
Definition ds_to_bytes (s : DeferredNodeState) : Result MptError bytes :=
  array_from_payload_parts (ds_node_type s) (ds_reference s) (ds_payload s).
Definition ds_into_bytes (s : DeferredNodeState) : Result MptError bytes :=
  array_from_payload_parts_owned (ds_node_type s) (ds_reference s) (ds_payload s).
Definition ds_from_serialized (bs : bytes) : Result MptError DeferredNodeState :=
  '(ty, r, p) ← split_serialized_reference bs;
  Ok (mkDState ty r p).
Definition ds_into_node (s : DeferredNodeState) h : Result MptError Node.t :=
  bs ← ds_to_bytes s;
  match (node_deserialize (Reader.new bs)).2 with
  | Ok n => Ok (set_accounted_hash h n)
  | Err e => Err (MIo e)
  end.

(** Returns whether the hash already had a journal. *)
Definition append_deferred_operation h (o : DeferredReferenceOperation) c
    : MptCache St * bool :=
  let index := length (deferred_operations c) in
  let ops := deferred_operations c ++ [mkOpRecord o None] in
  match deferred_entries c !! h with
  | Some e =>
      let ops :=
        match ops !! d_last e with
        | Some prev => <[d_last e := mkOpRecord (op prev) (Some index)]> ops
        | None => ops
        end in
      (set_deferred (<[h := mkDEntry (d_first e) index]> (deferred_entries c)) ops c, true)
  | None =>
      (set_deferred (<[h := mkDEntry index index]> (deferred_entries c)) ops c, false)
  end.

Definition replay_operation (o : DeferredReferenceOperation) (state : option DeferredNodeState)
    : option DeferredNodeState :=
  match o with
  | DPut ty payload =>
      match state with
      | Some s => Some (mkDState (ds_node_type s) (i32_wrapping_add (ds_reference s) 1) (ds_payload s))
      | None => Some (mkDState ty 1 payload)
      end
  | DDelete =>
      match state with
      | Some s => if (1 <? ds_reference s)%Z
                  then Some (mkDState (ds_node_type s) (ds_reference s - 1) (ds_payload s))
                  else None
      | None => None
      end
  end.

(** [replay_deferred_operations] follows the [next] links; the fuel bounds
    the number of links followed. *)
Fixpoint replay_links (fuel : nat) (ops : list DeferredReferenceOperationRecord)
    (current : option nat) (state : option DeferredNodeState)
    : Result MptError (option DeferredNodeState) :=
  match current with
  | None => Ok state
  | Some index =>
      match fuel with
      | O => Err Diverged
      | S fuel =>
          match ops !! index with
          | None => Err InvalidOperation
          | Some r => replay_links fuel ops (op_next r) (replay_operation (op r) state)
          end
      end
  end.
Definition replay_deferred_operations (e : DeferredReferenceEntry)
    (base : option DeferredNodeState) c : Result MptError (option DeferredNodeState) :=
  replay_links (S (length (deferred_operations c))) (deferred_operations c)
    (Some (d_first e)) base.

(** ** Resolution *)

Definition load_from_store_snapshot (s : St) (prefix : byte) h : Result MptError (option Node.t) :=
  n ← try_get_node s (node_key_bytes prefix h);
  Ok (set_accounted_hash h <$> (n : option Node.t)).

Definition promote_deferred_entry h : Ch unit := λ c,
  match deferred_entries c !! h with
  | None => (c, Ok tt)
  | Some entry =>
      match load_from_store_snapshot (store c) (prefix c) h with
      | Err e => (c, Err e)
      | Ok base =>
          let base_present := match base with Some _ => true | None => false end in
          let base_state :=
            match base with
            | Some n => s ← ds_from_node n; Ok (Some s)
            | None => Ok None
            end in
          match base_state with
          | Err e => (c, Err e)
          | Ok base =>
              match replay_deferred_operations entry base c with
              | Err e => (c, Err e)
              | Ok state =>
                  let trackable :=
                    match state with
                    | Some s =>
                        n ← ds_into_node s h;
                        Ok (mkTrackable (Some n) (Some (ds_node_type s)) (ds_reference s)
                              (Some (ds_payload s))
                              (if base_present then TChanged else TAdded) true)
                    | None =>
                        Ok (mkTrackable None None 0 None
                              (if base_present then TDeleted else TNone) true)
                    end in
                  match trackable with
                  | Err e => (c, Err e)
                  | Ok t =>
                      (set_entries (<[h := t]> (entries c))
                         (set_deferred (delete h (deferred_entries c)) (deferred_operations c) c),
                       Ok tt)
                  end
              end
          end
      end
  end.

(** The entry for [h], loaded from the store on a miss. *)
Definition resolve_internal h : Ch MptTrackable := λ c,
  match deferred_entries c !! h with
  | Some _ =>
      match promote_deferred_entry h c with
      | (c, Err e) => (c, Err e)
      | (c, Ok _) =>
          match entries c !! h with
          | Some e => (c, Ok e)
          | None => (c, Err InvalidOperation)
          end
      end
  | None =>
      match entries c !! h with
      | Some e => (c, Ok e)
      | None =>
          match load_from_store_snapshot (store c) (prefix c) h with
          | Err e => (c, Err e)
          | Ok n =>
              let e := trackable_new n in
              (set_entries (<[h := e]> (entries c)) c, Ok e)
          end
      end
  end.

(** [resolve_finalized] does not consult the deferred journal. *)
Definition resolve_finalized h : Ch MptTrackable := λ c,
  match entries c !! h with
  | Some e => (c, Ok e)
  | None =>
      match load_from_store_snapshot (store c) (prefix c) h with
      | Err e => (c, Err e)
      | Ok n =>
          let e := trackable_new n in
          (set_entries (<[h := e]> (entries c)) c, Ok e)
      end
  end.

Definition resolve h : Ch (option Node.t) :=
  e ← resolve_internal h;
  let '(e, r) := resolve_clone e in
  _ ← write_entry h e;
  n ← lift r;
  mret (set_accounted_hash h <$> (n : option Node.t)).

(** ** Staging nodes *)

Definition stage_payload (ty : NodeType.t) (payload : bytes) (e : MptTrackable) : MptTrackable :=
  let '(r, st) :=
    match t_node_type e with
    | Some _ => (i32_wrapping_add (t_reference e) 1, TChanged)
    | None => (1%Z, TAdded)
    end in
  mkTrackable (with_reference r <$> t_node e) (Some ty) r (Some payload) st true.

Definition put_node_with_payload (n : option Node.t) (ty : NodeType.t) h (payload : bytes)
    : Ch unit :=
  e ← resolve_finalized h;
  let e := stage_payload ty payload e in
  write_entry h
    match n with
    | Some n =>
        mkTrackable (Some (with_reference (t_reference e) n)) (t_node_type e) (t_reference e)
          (t_payload e) (t_state e) (t_produced e)
    | None => e
    end.

(** The memoised hash, or the digest of the payload just serialized. *)
Definition payload_hash (cell : option UInt256.t) (payload : bytes) : Result MptError UInt256.t :=
  match cell with
  | Some h => Ok h
  | None =>
      match UInt256.from_bytes (hash256 payload) with
      | Ok h => Ok h
      | Err e => Err (Primitive e)
      end
  end.

Definition put_node (n : Node.t) : Ch unit :=
  payload ← lift (to_array_without_reference n);
  h ← lift (payload_hash None payload);
  let n := set_finalized_hash h n in
  put_node_with_payload (Some n) (node_type n) h payload.

(** [put_node_cached], which also updates the caller's node. *)
Definition put_node_cached (n : Node.t) c : MptCache St * Node.t * Result MptError unit :=
  let n := set_dirty n in
  match to_array_without_reference n with
  | Err e => (c, n, Err e)
  | Ok payload =>
      match payload_hash (hash_cell n) payload with
      | Err e => (c, n, Err e)
      | Ok h =>
          match put_node_with_payload None (node_type n) h payload c with
          | (c, Err e) => (c, n, Err e)
          | (c, Ok _) => (c, set_finalized_hash h n, Ok tt)
          end
      end
  end.

Definition prepare_node_finalization (n : Node.t)
    : Node.t * Result MptError PendingNodeFinalization :=
  match to_array_without_reference n with
  | Err e => (n, Err e)
  | Ok payload =>
      match payload_hash (hash_cell n) payload with
      | Err e => (n, Err e)
      | Ok h => (set_pending_hash h n, Ok (mkPending (node_type n) h payload))
      end
  end.

Definition defer_prepared_node (p : PendingNodeFinalization) c : MptCache St :=
  match entries c !! p_hash p with
  | Some e =>
      set_entries (<[p_hash p := stage_payload (p_node_type p) (p_payload p) e]> (entries c)) c
  | None => (append_deferred_operation (p_hash p) (DPut (p_node_type p) (p_payload p)) c).1
  end.

Definition defer_prepared_nodes (ps : list PendingNodeFinalization) c : MptCache St :=
  foldl (λ c p, defer_prepared_node p c) c ps.

Definition defer_intermediate_node (n : Node.t) c : MptCache St * Node.t * Result MptError unit :=
  match prepare_node_finalization n with
  | (n, Err e) => (c, n, Err e)
  | (n, Ok p) => (defer_prepared_node p c, n, Ok tt)
  end.

(** Hashes of [ps] that are neither cached nor seen earlier in [ps]. *)
Fixpoint missing_hashes (seen : gset UInt256.t) (ps : list PendingNodeFinalization) c
    : list UInt256.t :=
  match ps with
  | [] => []
  | p :: ps =>
      if bool_decide (is_Some (entries c !! p_hash p) ∨ p_hash p ∈ seen)
      then missing_hashes seen ps c
      else p_hash p :: missing_hashes ({[p_hash p]} ∪ seen) ps c
  end.

Definition finalize_prepared_nodes (ps : list PendingNodeFinalization) : Ch unit := λ c,
  if defer_reference_resolution c then (defer_prepared_nodes ps c, Ok tt)
  else
    let missing := sort_by_key UInt256.to_array (missing_hashes ∅ ps c) in
    let keys := node_key_bytes (prefix c) <$> missing in
    match try_get_nodes_with_source (store c) keys with
    | Err e => (c, Err e)
    | Ok lookups =>
        if bool_decide (length lookups ≠ length missing) then (c, Err Storage)
        else
          let loaded :=
            zip_with (λ h n, (h, trackable_new (set_accounted_hash h <$> n))) missing lookups in
          let c := set_entries (foldl (λ m '(h, e), <[h := e]> m) (entries c) loaded) c in
          for_each (λ p c,
            match entries c !! p_hash p with
            | None => (c, Err InvalidOperation)
            | Some e =>
                (set_entries (<[p_hash p := stage_payload (p_node_type p) (p_payload p) e]>
                   (entries c)) c, Ok tt)
            end) ps c
    end.

(** ** Releasing nodes *)

Definition delete_node h : Ch unit := λ c,
  if defer_reference_resolution c && bool_decide (is_Some (deferred_entries c !! h))
  then ((append_deferred_operation h DDelete c).1, Ok tt)
  else
    match resolve_internal h c with
    | (c, Err e) => (c, Err e)
    | (c, Ok e) =>
        match t_node_type e with
        | None => (c, Ok tt)
        | Some _ =>
            if (1 <? t_reference e)%Z then
              let r := (t_reference e - 1)%Z in
              let dec p :=
                mkTrackable (with_reference r <$> t_node e) (t_node_type e) r p TChanged
                  (t_produced e) in
              (* the decremented count is written before the payload is computed *)
              let half := mkTrackable (t_node e) (t_node_type e) r (t_payload e) (t_state e)
                            (t_produced e) in
              match t_payload e with
              | Some p => (set_entries (<[h := dec (Some p)]> (entries c)) c, Ok tt)
              | None =>
                  match t_node e with
                  | None => (set_entries (<[h := half]> (entries c)) c, Err InvalidOperation)
                  | Some n =>
                      match to_array_without_reference n with
                      | Err err => (set_entries (<[h := half]> (entries c)) c, Err err)
                      | Ok p => (set_entries (<[h := dec (Some p)]> (entries c)) c, Ok tt)
                      end
                  end
              end
            else
              (set_entries (<[h := mkTrackable None None 0 None TDeleted (t_produced e)]>
                 (entries c)) c, Ok tt)
        end
    end.

Definition checkpoint_entries c : MptCache St :=
  set_entries ((λ e, mkTrackable (t_node e) (t_node_type e) (t_reference e) (t_payload e)
                       (t_state e) false) <$> entries c) c.

(** ** Commit *)

(** Overlay row of one cached entry, if it changed. *)
Definition entry_overlay (prefix : byte) (he : UInt256.t * MptTrackable)
    : Result MptError (list (bytes * option bytes)) :=
  let '(h, e) := he in
  match t_state e with
  | TNone => Ok []
  | TAdded | TChanged =>
      match t_node_type e, t_payload e with
      | None, _ => Err InvalidOperation
      | Some _, None => Err InvalidOperation
      | Some ty, Some p =>
          data ← array_from_payload_parts ty (t_reference e) p;
          Ok [(node_key_bytes prefix h, Some data)]
      end
  | TDeleted => Ok [(node_key_bytes prefix h, None)]
  end.

Fixpoint entries_overlay (prefix : byte) (l : list (UInt256.t * MptTrackable))
    : Result MptError (list (bytes * option bytes)) :=
  match l with
  | [] => Ok []
  | he :: l =>
      o ← entry_overlay prefix he;
      os ← entries_overlay prefix l;
      Ok (o ++ os)
  end.

(** Journal of one hash as a put count, [None] when it holds a delete. *)
Fixpoint summarize_links (fuel : nat) (ops : list DeferredReferenceOperationRecord)
    (key : bytes) (current : option nat) (summary : option UnresolvedDeferredNode)
    : option (option UnresolvedDeferredNode) :=
  match current with
  | None => Some summary
  | Some index =>
      match fuel with
      | O => None
      | S fuel =>
          r ← ops !! index;
          match op r with
          | DPut ty payload =>
              match summary with
              | Some s =>
                  if (u_puts s + 1 <? 2 ^ 32)%N
                  then summarize_links fuel ops key (op_next r)
                         (Some (mkUnresolved (u_key s) (u_node_type s) (u_payload s) (u_puts s + 1)))
                  else None
              | None =>
                  summarize_links fuel ops key (op_next r) (Some (mkUnresolved key ty payload 1))
              end
          | DDelete => None
          end
      end
  end.

Definition summarize_deferred_journal c : option (list UnresolvedDeferredNode) :=
  journal ← mapM (λ '(h, e),
    s ← summarize_links (S (length (deferred_operations c))) (deferred_operations c)
          (node_key_bytes (prefix c) h) (Some (d_first e)) None;
    s) (map_to_list (deferred_entries c));
  Some (sort_by_key u_key journal).

(** [try_get_nodes_with_source_raw_borrowed], default implementation:
    re-encode the decoded node. *)
Definition raw_lookup (n : option Node.t) : Result MptError (option bytes) :=
  match n with
  | None => Ok None
  | Some n =>
      p ← to_array_without_reference n;
      bs ← array_from_payload_parts (node_type n) (reference n) p;
      Ok (Some bs)
  end.
Fixpoint raw_lookups (ns : list (option Node.t)) : Result MptError (list (option bytes)) :=
  match ns with
  | [] => Ok []
  | n :: ns => b ← raw_lookup n; bs ← raw_lookups ns; Ok (b :: bs)
  end.

Fixpoint resolve_deferred_rows c
    (pending : list (UInt256.t * DeferredReferenceEntry)) (lookups : list (option bytes))
    : Result MptError (list (bytes * option bytes)) :=
  match pending, lookups with
  | (h, e) :: pending, lookup :: lookups =>
      base ← match lookup with
             | Some bs => s ← ds_from_serialized bs; Ok (Some s)
             | None => Ok None
             end;
      state ← replay_deferred_operations e base c;
      value ← match state with
              | Some s => bs ← ds_into_bytes s; Ok (Some bs)
              | None => Ok None
              end;
      rest ← resolve_deferred_rows c pending lookups;
      Ok ((node_key_bytes (prefix c) h, value) :: rest)
  | _, _ => Ok []
  end.

Definition deferred_overlay c : Result MptError (list (bytes * option bytes)) :=
  let pending := sort_by_key (λ he, UInt256.to_array he.1) (map_to_list (deferred_entries c)) in
  let keys := (λ he, node_key_bytes (prefix c) he.1) <$> pending in
  nodes ← try_get_nodes_with_source (store c) keys;
  lookups ← raw_lookups nodes;
  if bool_decide (length lookups ≠ length pending) then Err Storage
  else resolve_deferred_rows c pending lookups.

(** [UnresolvedDeferredNode::resolve_bytes]: what the backing commit does
    with one exported entry. *)
Definition resolve_bytes (u : UnresolvedDeferredNode) (stored : option bytes)
    : Result MptError bytes :=
  if (2147483647 <? u_puts u)%N then Err InvalidOperation
  else
    let puts := Z.of_N (u_puts u) in
    match stored with
    | Some bs =>
        '(ty, r, p) ← split_serialized_reference bs;
        array_from_payload_parts_owned ty (i32_wrapping_add r puts) p
    | None => array_from_payload_parts (u_node_type u) puts (u_payload u)
    end.

(** Running a store operation inside the cache. *)
Definition on_store {A} (m : M St MptError A) : Ch A := λ c,
  let '(s, r) := m (store c) in (set_store s c, r).

Definition clear_all c : MptCache St := set_entries ∅ (set_deferred ∅ [] c).

(** Resolve the journal here, then write both overlays. *)
Definition commit_classic (overlay : list (bytes * option bytes)) : Ch unit :=
  d ← (λ c, (c, deferred_overlay c)) : Ch _;
  on_store (apply_overlay (overlay ++ d)).

(** Hand a non-empty summarized journal to the store if it takes it. *)
Definition commit_write (overlay : list (bytes * option bytes))
    (exported : option (list UnresolvedDeferredNode)) : Ch unit :=
  match exported with
  | Some ((_ :: _) as journal) =>
      staged ← on_store (stage_unresolved_deferred_journal journal);
      if staged : bool then on_store (apply_overlay overlay) else commit_classic overlay
  | _ => commit_classic overlay
  end.

Definition commit : Ch unit :=
  overlay ← (λ c, (c, entries_overlay (prefix c) (map_to_list (entries c)))) : Ch _;
  exported ← gets (λ c, if export_deferred_journal c then summarize_deferred_journal c else None);
  _ ← commit_write overlay exported;
  modify clear_all.
End cache.
