(* ===== verification/MptTrie.v ===== *)
(** * The Merkle Patricia trie

    Lookup, mutation, proof and commit of neo-trie
    (src/neo-trie/src/mpt/trie/{mod,lookup,mutation,proof}.rs) over the cache of
    MptCache.v.  A function that takes [node: &mut Node] runs in a state of
    cache and node, so that what it wrote before failing is kept. *)
From S2P Require Import Prelude Primitives Order Io MptNode MptCache.
Import NodeType Node NodeCodec.

(** ** Nibble paths *)

Definition to_nibbles (bs : bytes) : bytes :=
  concat ((λ b, [as_u8 (N.shiftr (Byte.to_N b) 4); as_u8 (N.land (Byte.to_N b) 15)]) <$> bs).

(** [chunks(2)] of an even-length path. *)
Fixpoint from_nibbles_chunks (path : bytes) : bytes :=
  match path with
  | hi :: lo :: rest =>
      as_u8 (N.lor (N.shiftl (Byte.to_N hi) 4) (N.land (Byte.to_N lo) 15))
        :: from_nibbles_chunks rest
  | _ => []
  end.
Definition from_nibbles (path : bytes) : Result MptError bytes :=
  if Nat.even (length path) then Ok (from_nibbles_chunks path) else Err InvalidOperation.

Definition validate_lookup_path (path : bytes) : Result MptError unit :=
  match path with
  | [] => Err Key
  | _ => if (MAX_KEY_LENGTH <? length path)%nat then Err Key else Ok tt
  end.
Definition ensure_lookup_key (key : bytes) : Result MptError bytes :=
  let path := to_nibbles key in
  _ ← validate_lookup_path path;
  Ok path.
Definition ensure_prefix (key : bytes) : Result MptError bytes :=
  let path := to_nibbles key in
  if (MAX_KEY_LENGTH <? length path)%nat then Err Key else Ok path.
Definition ensure_value_length (value : bytes) : Result MptError unit :=
  if (MAX_VALUE_LENGTH <? len value)%N then Err InvalidOperation else Ok tt.

Fixpoint common_prefix_len (a b : bytes) : nat :=
  match a, b with
  | x :: a', y :: b' => if bool_decide (x = y) then S (common_prefix_len a' b') else 0
  | _, _ => 0
  end.

Definition nibble_index (b : byte) : nat := N.to_nat (Byte.to_N b).

(** Recursion depth that suffices for a well-formed trie: every level
    consumes a nibble, except the last two, and may sit behind a hash node. *)
Definition path_fuel (path : bytes) : nat := 2 * length path + 4.

Section trie.
Context `{Crypto} `{MptStoreSnapshot St}.
Abbreviation Cache := (MptCache St).
Abbreviation Ch := (M (MptCache St) MptError).
Abbreviation Nd := (M (MptCache St * Node.t) MptError).

(** ** Borrowing parts of the state *)

Definition on_cache {A} (m : Ch A) : Nd A := λ '(c, n),
  let '(c, r) := m c in ((c, n), r).
Definition set_node (n : Node.t) : Nd unit := modify (λ '(c, _), (c, n)).
(** [get_child_mut(index)] and a call on the borrowed child. *)
Definition on_child {A} (index : nat) (m : Nd A) : Nd A := λ '(c, n),
  match get_child index n with
  | None => ((c, n), Err InvalidOperation)
  | Some ch => let '((c, ch), r) := m (c, ch) in ((c, set_child index ch n), r)
  end.
(** [get_next_mut()] and a call on it. *)
Definition on_next {A} (m : Nd A) : Nd A := λ '(c, n),
  match next n with
  | None => ((c, n), Err InvalidOperation)
  | Some ch => let '((c, ch), r) := m (c, ch) in ((c, with_next (Some ch) n), r)
  end.
(** A call on a local node, which is returned. *)
Definition on_local (x : Node.t) (m : Nd unit) : Nd Node.t := λ '(c, n),
  let '((c, x), r) := m (c, x) in
  ((c, n), match r with Ok _ => Ok x | Err e => Err e end).

(** ** Mutation *)

Definition previous_hash (full_state defer_node_finalization : bool) (n : Node.t)
    : Result MptError (option UInt256.t) :=
  if full_state then Ok None
  else if defer_node_finalization then Ok (accounted_hash n)
  else h ← try_hash n; Ok (Some h).

Definition stage_mutated_node (defer_node_finalization : bool) : Nd unit := λ '(c, n),
  if defer_node_finalization then
    let n := set_dirty n in
    if defer_intermediate_nodes c then defer_intermediate_node n c else ((c, n), Ok tt)
  else put_node_cached n c.

(** [if let Some(old_hash) = ... { cache.delete_node(old_hash)? }] *)
Definition release (old : option UInt256.t) : Nd unit :=
  match old with
  | Some h => on_cache (delete_node h)
  | None => mret tt
  end.

Section mutation.
Context (full_state dnf : bool).
Let stage : Nd unit := stage_mutated_node dnf.
Let prev (n : Node.t) : Nd (option UInt256.t) := lift (previous_hash full_state dnf n).

(** The extension split of [put_internal]; [rec] is the recursive call. *)
Definition split_extension (rec : bytes → Nd unit) (node : Node.t) (path : bytes) : Nd unit :=
  let prefix_len := common_prefix_len (key node) path in
  old ← prev node;
  _ ← release old;
  let original_key := key node in
  _ ← set_node (with_key [] node);
  let prefix := take prefix_len original_key in
  let key_remain := drop prefix_len original_key in
  let path_remain := drop prefix_len path in
  match next node with
  | None => fail InvalidOperation
  | Some next_node =>
      _ ← set_node (with_next None (with_key [] node));
      match key_remain with
      | [] => fail Panic
      | k0 :: krest =>
          below ← (match krest with
                   | [] => mret next_node
                   | _ =>
                       ext_child ← lift (new_extension krest next_node);
                       on_local ext_child stage
                   end);
          let child_branch := set_child (nibble_index k0) below new_branch in
          child_branch ←
            match path_remain with
            | [] =>
                value_child ← on_local Node.new (rec []);
                mret (set_child BRANCH_VALUE_INDEX value_child child_branch)
            | p0 :: prest =>
                value_child ← on_local Node.new (rec prest);
                mret (set_child (nibble_index p0) value_child child_branch)
            end;
          child_branch ← on_local child_branch stage;
          match prefix with
          | [] => set_node child_branch
          | _ =>
              ext ← lift (new_extension prefix child_branch);
              ext ← on_local ext stage;
              set_node ext
          end
      end
  end.

Fixpoint put_internal (fuel : nat) (path : bytes) (val : Node.t) : Nd unit :=
  match fuel with
  | O => fail Diverged
  | S fuel =>
      node ← gets snd;
      match node_type node with
      | LeafNode =>
          match path with
          | [] =>
              old ← prev node;
              _ ← release old;
              _ ← set_node val;
              stage
          | p0 :: prest =>
              _ ← set_node Node.new;
              let branch := set_child BRANCH_VALUE_INDEX node new_branch in
              branch ← on_local branch (on_child (nibble_index p0) (put_internal fuel prest val));
              branch ← on_local branch stage;
              set_node branch
          end
      | ExtensionNode =>
          if starts_with path (key node) then
            old ← prev node;
            _ ← on_next (put_internal fuel (drop (length (key node)) path) val);
            _ ← release old;
            stage
          else split_extension (λ rest, put_internal fuel rest val) node path
      | BranchNode =>
          old ← prev node;
          _ ← (match path with
               | [] => on_child BRANCH_VALUE_INDEX (put_internal fuel [] val)
               | p0 :: prest => on_child (nibble_index p0) (put_internal fuel prest val)
               end);
          _ ← release old;
          stage
      | Empty =>
          match path with
          | [] =>
              _ ← set_node val;
              if bool_decide (node_type val = LeafNode) then stage else mret tt
          | _ =>
              leaf ← on_local val stage;
              ext ← lift (new_extension path leaf);
              ext ← on_local ext stage;
              _ ← set_node ext;
              if bool_decide (node_type ext = LeafNode) then stage else mret tt
          end
      | HashNode =>
          resolved ← on_cache (resolve (hash node));
          match resolved with
          | None => fail Storage
          | Some n => _ ← set_node n; put_internal fuel path val
          end
      end
  end.

(** The scan of a branch: first non-empty child, and whether another follows. *)
Fixpoint scan_children (cs : list Node.t) (i : nat) (first : option nat) : option nat * bool :=
  match cs with
  | [] => (first, false)
  | ch :: cs =>
      if is_empty ch then scan_children cs (S i) first
      else match first with
           | Some _ => (first, true)
           | None => scan_children cs (S i) (Some i)
           end
  end.

(** What a branch becomes once a child has been deleted. *)
Definition collapse_branch : Nd bool :=
  node ← gets snd;
  let '(first_index, multiple) :=
    scan_children (take BRANCH_CHILD_COUNT (children node)) 0 None in
  if multiple : bool then _ ← stage; mret true
  else if (length (children node) <? BRANCH_CHILD_COUNT)%nat then fail Panic
  else
      let last_index := default BRANCH_VALUE_INDEX first_index in
      match get_child last_index node with
      | None => fail Panic
      | Some last_child =>
          _ ← set_node (set_child last_index Node.new node);
          if bool_decide (last_index = BRANCH_VALUE_INDEX) then
            _ ← set_node last_child; mret true
          else
            last_child ←
              (if bool_decide (node_type last_child = HashNode) then
                 r ← on_cache (resolve (hash last_child));
                 match r with None => fail Storage | Some n => mret n end
               else mret last_child);
            let i := as_u8 (N.of_nat last_index) in
            if bool_decide (node_type last_child = ExtensionNode) then
              old ← prev last_child;
              _ ← release old;
              last_child ← on_local (with_key (i :: key last_child) last_child) stage;
              _ ← set_node last_child;
              mret true
            else
              ext ← lift (new_extension [i] last_child);
              ext ← on_local ext stage;
              _ ← set_node ext;
              mret true
      end.

(** What an extension becomes once something below it has been deleted. *)
Definition collapse_extension : Nd bool :=
  node ← gets snd;
  match next node with
  | None => _ ← set_node Node.new; mret true
  | Some nx =>
      if is_empty nx then _ ← set_node nx; mret true
      else
        _ ← (if bool_decide (node_type nx = ExtensionNode) then
               old ← prev nx;
               _ ← release old;
               set_node (with_next (next nx) (with_key (key node ++ key nx) node))
             else mret tt);
        _ ← stage;
        mret true
  end.

Fixpoint try_delete_node (fuel : nat) (path : bytes) : Nd bool :=
  match fuel with
  | O => fail Diverged
  | S fuel =>
      node ← gets snd;
      match node_type node with
      | LeafNode =>
          match path with
          | [] =>
              old ← prev node;
              _ ← release old;
              _ ← set_node Node.new;
              mret true
          | _ => mret false
          end
      | ExtensionNode =>
          if starts_with path (key node) then
            old ← prev node;
            result ← on_next (try_delete_node fuel (drop (length (key node)) path));
            if negb result then mret false
            else _ ← release old; collapse_extension
          else mret false
      | BranchNode =>
          old ← prev node;
          result ← (match path with
                    | [] => on_child BRANCH_VALUE_INDEX (try_delete_node fuel [])
                    | p0 :: prest => on_child (nibble_index p0) (try_delete_node fuel prest)
                    end);
          if negb result then mret false
          else _ ← release old; collapse_branch
      | Empty => mret false
      | HashNode =>
          resolved ← on_cache (resolve (hash node));
          match resolved with
          | None => fail Storage
          | Some n => _ ← set_node n; try_delete_node fuel path
          end
      end
  end.
End mutation.

(** ** Lookup *)

Fixpoint try_get_node_path (fuel : nat) (path : bytes) : Nd (option bytes) :=
  match fuel with
  | O => fail Diverged
  | S fuel =>
      node ← gets snd;
      match node_type node with
      | LeafNode => mret (match path with [] => Some (value node) | _ => None end)
      | Empty => mret None
      | HashNode =>
          resolved ← on_cache (resolve (hash node));
          match resolved with
          | None => fail Storage
          | Some n => _ ← set_node n; try_get_node_path fuel path
          end
      | BranchNode =>
          match path with
          | [] => on_child BRANCH_VALUE_INDEX (try_get_node_path fuel [])
          | p0 :: prest => on_child (nibble_index p0) (try_get_node_path fuel prest)
          end
      | ExtensionNode =>
          if starts_with path (key node)
          then on_next (try_get_node_path fuel (drop (length (key node)) path))
          else mret None
      end
  end.

(** [get_proof_node]: the payloads of the nodes on the path. *)
Fixpoint get_proof_node (fuel : nat) (path : bytes) (proof : gset bytes)
    : Nd (bool * gset bytes) :=
  match fuel with
  | O => fail Diverged
  | S fuel =>
      node ← gets snd;
      match node_type node with
      | LeafNode =>
          match path with
          | [] => p ← lift (to_array_without_reference node); mret (true, {[p]} ∪ proof)
          | _ => mret (false, proof)
          end
      | Empty => mret (false, proof)
      | HashNode =>
          resolved ← on_cache (resolve (hash node));
          match resolved with
          | None => fail Storage
          | Some n => _ ← set_node n; get_proof_node fuel path proof
          end
      | BranchNode =>
          p ← lift (to_array_without_reference node);
          match path with
          | [] => on_child BRANCH_VALUE_INDEX (get_proof_node fuel [] ({[p]} ∪ proof))
          | p0 :: prest =>
              on_child (nibble_index p0) (get_proof_node fuel prest ({[p]} ∪ proof))
          end
      | ExtensionNode =>
          if starts_with path (key node) then
            p ← lift (to_array_without_reference node);
            on_next (get_proof_node fuel (drop (length (key node)) path) ({[p]} ∪ proof))
          else mret (false, proof)
      end
  end.

(** ** Enumeration *)

Fixpoint seek_node (fuel : nat) (path : bytes) : Nd (bytes * option Node.t) :=
  match fuel with
  | O => fail Diverged
  | S fuel =>
      node ← gets snd;
      match node_type node with
      | LeafNode => mret ([], match path with [] => Some node | _ => None end)
      | Empty => mret ([], None)
      | HashNode =>
          resolved ← on_cache (resolve (hash node));
          match resolved with
          | None => fail Storage
          | Some n => _ ← set_node n; seek_node fuel path
          end
      | BranchNode =>
          match path with
          | [] => mret ([], Some node)
          | nibble :: rest =>
              '(suffix, start) ← on_child (nibble_index nibble) (seek_node fuel rest);
              match start, suffix with
              | None, [] => mret ([], None)
              | _, _ => mret (nibble :: suffix, start)
              end
          end
      | ExtensionNode =>
          match path with
          | [] => mret (key node, next node)
          | _ =>
              if starts_with path (key node) then
                '(suffix, start) ← on_next (seek_node fuel (drop (length (key node)) path));
                mret (key node ++ suffix, start)
              else if starts_with (key node) path then mret (key node, next node)
              else mret ([], None)
          end
      end
  end.

Record TrieEntry := mkEntry { e_key : bytes; e_value : bytes }.

Section traverse.
(** The visitor closure: its captured state and its continue flag. *)
Context {V : Type} (visit : TrieEntry → V → V * bool).
Abbreviation Tr := (M (MptCache St * V) MptError).

Definition tr_cache {A} (m : Ch A) : Tr A := λ '(c, v),
  let '(c, r) := m c in ((c, v), r).
Definition tr_visit (e : TrieEntry) : Tr bool := λ '(c, v),
  let '(v, b) := visit e v in ((c, v), Ok b).

(** [for i in i..i+n { if !body(i)? { return Ok(false) } }]. *)
Section index_loop.
Context (body : nat → Tr bool).
Fixpoint for_index (n i : nat) : Tr bool :=
  match n with
  | O => mret true
  | S n => b ← body i; if b : bool then for_index n (S i) else mret false
  end.
End index_loop.

Fixpoint traverse (fuel : nat) (node : option Node.t) (path from : bytes) (offset : nat)
    : Tr bool :=
  match fuel with
  | O => fail Diverged
  | S fuel =>
      match node with
      | None => mret true
      | Some node =>
          match node_type node with
          | LeafNode =>
              if (length from <=? offset)%nat && bool_decide (path ≠ from) then
                k ← lift (from_nibbles path);
                tr_visit (mkEntry k (value node))
              else mret true
          | Empty => mret true
          | HashNode =>
              resolved ← tr_cache (resolve (hash node));
              match resolved with
              | None => fail Storage
              | Some n => traverse fuel (Some n) path from offset
              end
          | BranchNode =>
              let below (i offset : nat) : Tr bool :=
                match get_child i node with
                | None => fail Panic
                | Some ch => traverse fuel (Some ch) (path ++ [as_u8 (N.of_nat i)]) from offset
                end in
              match from !! offset with
              | Some f =>
                  for_index (λ i,
                    match (nibble_index f ?= i)%nat with
                    | Lt => below i (length from)
                    | Eq => below i (offset + 1)%nat
                    | Gt => mret true
                    end) (BRANCH_CHILD_COUNT - 1) 0
              | None =>
                  match get_child BRANCH_VALUE_INDEX node with
                  | None => fail Panic
                  | Some vch =>
                      b ← traverse fuel (Some vch) path from offset;
                      if b : bool then for_index (λ i, below i offset) (BRANCH_CHILD_COUNT - 1) 0
                      else mret false
                  end
              end
          | ExtensionNode =>
              let new_path := path ++ key node in
              if (offset <? length from)%nat && starts_with (drop offset from) (key node) then
                traverse fuel (next node) new_path from (offset + length (key node))
              else if (length from <=? offset)%nat
                      || bool_decide (bytes_cmp (key node) (drop offset from) = Gt) then
                traverse fuel (next node) new_path from (length from)
              else mret true
          end
      end
  end.
End traverse.

(** ** The trie object *)

Record Trie := mkTrie {
  cache : MptCache St;
  root : Node.t;
  full_state : bool;
  defer_node_finalization : bool;
}.

Definition new_with_modes (s : St) (r : option UInt256.t)
    (full_state dnf defer_ref defer_int : bool) : Trie :=
  mkTrie (new_with_reference_mode s MPT_NODE_PREFIX defer_ref (defer_ref && defer_int))
    (match r with Some h => new_hash h | None => Node.new end) full_state dnf.
Definition trie_new (s : St) (r : option UInt256.t) (full_state : bool) : Trie :=
  new_with_modes s r full_state (negb full_state) false false.
Definition new_batch (s : St) (r : option UInt256.t) (full_state : bool) : Trie :=
  new_with_modes s r full_state (negb full_state) (negb full_state) false.
Definition new_batch_deferred_full_state (s : St) (r : option UInt256.t) (full_state : bool)
    : Trie :=
  if negb full_state then new_batch s r false
  else new_with_modes s r full_state true true true.

Abbreviation Tm := (M Trie MptError).

(** Running a node operation on the root. *)
Definition on_root {A} (m : bool → bool → Nd A) : Tm A := λ t,
  let '((c, n), r) := m (full_state t) (defer_node_finalization t) (cache t, root t) in
  (mkTrie c n (full_state t) (defer_node_finalization t), r).

Definition trie_get (k : bytes) : Tm (option bytes) :=
  path ← lift (ensure_lookup_key k);
  on_root (λ _ _, try_get_node_path (path_fuel path) path).

Definition get_required (k : bytes) : Tm bytes :=
  r ← trie_get k;
  match r with Some v => mret v | None => fail Key end.

Definition trie_put (k v : bytes) : Tm unit :=
  path ← lift (ensure_lookup_key k);
  _ ← lift (ensure_value_length v);
  on_root (λ fs dnf, put_internal fs dnf (path_fuel path) path (new_leaf v)).

Definition trie_delete (k : bytes) : Tm bool :=
  path ← lift (ensure_lookup_key k);
  on_root (λ fs dnf, try_delete_node fs dnf (path_fuel path) path).

Definition try_get_proof (k : bytes) : Tm (option (gset bytes)) :=
  path ← lift (ensure_lookup_key k);
  '(found, proof) ← on_root (λ _ _, get_proof_node (path_fuel path) path ∅);
  mret (if found : bool then Some proof else None).

(** Where [find_visit] starts comparing with [from]: [None] when every key
    below the node found precedes [from]. *)
Fixpoint seek_offset (resolved from : bytes) (from_len : nat) : option nat :=
  match resolved, from with
  | r :: resolved, f :: from =>
      match (Byte.to_N r ?= Byte.to_N f)%N with
      | Lt => None
      | Gt => Some from_len
      | Eq => seek_offset resolved from from_len
      end
  | _, _ => Some 0%nat
  end.

Definition traverse_fuel : nat := 2 * MAX_KEY_LENGTH + 4.

Definition find_paths (pre : bytes) (from : option bytes)
    : Result MptError (bytes * option bytes) :=
  _ ← (match from with
       | Some f => if starts_with f pre then Ok tt else Err InvalidOperation
       | None => Ok tt
       end);
  path ← ensure_prefix pre;
  match from with
  | Some f => p ← ensure_prefix f; Ok (path, Some p)
  | None => Ok (path, None)
  end.

Definition find_visit {V} (visit : TrieEntry → V → V * bool) (pre : bytes)
    (from : option bytes) (v0 : V) : M Trie MptError V := λ t,
  match find_paths pre from with
  | Err e => (t, Err e)
  | Ok (path, from_path) =>
      match on_root (λ _ _, seek_node (path_fuel path) path) t with
      | (t, Err e) => (t, Err e)
      | (t, Ok (resolved_path, start)) =>
          let from := default [] from_path in
          match seek_offset resolved_path from (length from) with
          | None => (t, Ok v0)
          | Some offset =>
              let offset :=
                if bool_decide (offset = 0%nat)
                then Nat.min (length resolved_path) (length from) else offset in
              let '((c, v), r) :=
                traverse visit traverse_fuel start resolved_path from offset (cache t, v0) in
              (mkTrie c (root t) (full_state t) (defer_node_finalization t),
               match r with Ok _ => Ok v | Err e => Err e end)
          end
      end
  end.

(** [find_limited]: the visitor pushes and stops at the limit. *)
Definition push_limited (limit : N) (e : TrieEntry) (rs : list TrieEntry) : list TrieEntry * bool :=
  let rs := rs ++ [e] in (rs, (len rs <? limit)%N).
Definition find_limited (pre : bytes) (from : option bytes) (limit : N)
    : M Trie MptError (list TrieEntry) :=
  if (limit =? 0)%N then mret [] else find_visit (push_limited limit) pre from [].
Definition trie_find (pre : bytes) (from : option bytes) : M Trie MptError (list TrieEntry) :=
  find_limited pre from usize_max.

(** ** Finalization and commit *)

Section dirty.
Fixpoint collect_dirty_subtree (n : Node.t) (pending : list PendingNodeFinalization)
    : Node.t * list PendingNodeFinalization * Result MptError unit :=
  if negb (dirty n) then (n, pending, Ok tt)
  else
    let finish (n : Node.t) (pending : list PendingNodeFinalization) :=
      match prepare_node_finalization n with
      | (n, Ok p) => (n, pending ++ [p], Ok tt)
      | (n, Err e) => (n, pending, Err e)
      end in
    match node_type n with
    | BranchNode =>
        let '(cs, pending, r) :=
          (fix go (cs : list Node.t) (pending : list PendingNodeFinalization)
              : list Node.t * list PendingNodeFinalization * Result MptError unit :=
             match cs with
             | [] => ([], pending, Ok tt)
             | ch :: cs =>
                 let '(ch, pending, r) := collect_dirty_subtree ch pending in
                 match r with
                 | Err e => (ch :: cs, pending, Err e)
                 | Ok _ =>
                     let '(cs, pending, r) := go cs pending in (ch :: cs, pending, r)
                 end
             end) (children n) pending in
        match r with
        | Err e => (with_children cs n, pending, Err e)
        | Ok _ => finish (with_children cs n) pending
        end
    | ExtensionNode =>
        match next n with
        | Some ch =>
            let '(ch, pending, r) := collect_dirty_subtree ch pending in
            match r with
            | Err e => (with_next (Some ch) n, pending, Err e)
            | Ok _ => finish (with_next (Some ch) n) pending
            end
        | None => finish n pending
        end
    | LeafNode => finish n pending
    | HashNode | Empty => (n, pending, Ok tt)
    end.

Fixpoint mark_dirty_subtree_finalized (n : Node.t) : Node.t :=
  if negb (dirty n) then n
  else
    let finish (n : Node.t) :=
      match hash_cell n with Some h => set_finalized_hash h n | None => n end in
    match node_type n with
    | BranchNode => finish (with_children (mark_dirty_subtree_finalized <$> children n) n)
    | ExtensionNode => finish (with_next (mark_dirty_subtree_finalized <$> next n) n)
    | LeafNode => finish n
    | HashNode | Empty => n
    end.
End dirty.

Definition finalize_dirty_nodes : Tm unit := λ t,
  if negb (defer_node_finalization t) then (t, Ok tt)
  else if defer_intermediate_nodes (cache t) then
    (mkTrie (cache t) (mark_dirty_subtree_finalized (root t)) (full_state t)
       (defer_node_finalization t), Ok tt)
  else
    let '(n, pending, r) := collect_dirty_subtree (root t) [] in
    match r with
    | Err e => (mkTrie (cache t) n (full_state t) (defer_node_finalization t), Err e)
    | Ok _ =>
        match finalize_prepared_nodes pending (cache t) with
        | (c, Err e) => (mkTrie c n (full_state t) (defer_node_finalization t), Err e)
        | (c, Ok _) =>
            (mkTrie c (mark_dirty_subtree_finalized n) (full_state t)
               (defer_node_finalization t), Ok tt)
        end
    end.

Definition with_cache (c : MptCache St) (t : Trie) : Trie :=
  mkTrie c (root t) (full_state t) (defer_node_finalization t).

Definition trie_commit : Tm unit :=
  _ ← finalize_dirty_nodes;
  (λ t, let '(c, r) := commit (cache t) in (with_cache c t, r)) : Tm unit.

Definition trie_checkpoint : Tm unit :=
  _ ← finalize_dirty_nodes;
  modify (λ t, with_cache (checkpoint_entries (cache t)) t).

Definition try_root_hash (t : Trie) : Result MptError UInt256.t := try_hash (root t).
Definition root_hash (t : Trie) : option UInt256.t :=
  if is_empty (root t) then None else Some (hash (root t)).
End trie.

(** ** Proof verification *)

(** [ProofStore]: a map behind a mutex. *)
Definition ProofStore := gmap bytes bytes.
#[export] Instance proof_store : MptStoreSnapshot ProofStore := {
  try_get s k := Ok (s !! k);
  store_put k v := modify (<[k := v]>);
  store_delete k := modify (delete k);
  stage_unresolved_deferred_journal _ := mret false;
}.

Section verify.
Context `{Crypto}.

Definition proof_store_insert (s : ProofStore) (data : bytes) : Result MptError ProofStore :=
  match UInt256.from_bytes (hash256 data) with
  | Err e => Err (Primitive e)
  | Ok h => Ok (<[node_key_bytes MPT_NODE_PREFIX h := data ++ [x01]]> s)
  end.

Definition build_proof_store (proof : gset bytes) : Result MptError ProofStore :=
  foldl (λ s data, s ← s; proof_store_insert s data) (Ok ∅) (elements proof).

Definition verify_proof (r : UInt256.t) (k : bytes) (proof : gset bytes)
    : Result MptError bytes :=
  s ← build_proof_store proof;
  (get_required k (trie_new s (Some r) false)).2.
End verify.
