(* ===== verification/MptSpec.v ===== *)
(** * The trie as a mathematical object

    An abstract Merkle Patricia trie, without hashes, caches or reference
    counts: its lookup, insertion and deletion, its canonical form, and the
    theorem that the canonical form is determined by the key-value map alone.
    MptRefine.v proves that the trie of MptTrie.v implements it. *)
From S2P Require Import Prelude Primitives Io MptNode MptCache MptTrie.
#[local] Set Warnings "-register-all".

(** ** Trees *)

Inductive mpt : Type :=
| TEmpty
| TLeaf (v : bytes)
| TExt (k : bytes) (t : mpt)
| TBranch (cs : list mpt).

Section mpt_ind.
Context (P : mpt → Prop) (He : P TEmpty) (Hl : ∀ v, P (TLeaf v))
  (Hx : ∀ k t, P t → P (TExt k t)) (Hb : ∀ cs, Forall P cs → P (TBranch cs)).

Fixpoint mpt_induction (t : mpt) : P t :=
  match t with
  | TEmpty => He
  | TLeaf v => Hl v
  | TExt k t => Hx k t (mpt_induction t)
  | TBranch cs =>
      Hb cs ((fix go cs : Forall P cs :=
                match cs with
                | [] => List.Forall_nil P
                | c :: cs => List.Forall_cons _ _ _ (mpt_induction c) (go cs)
                end) cs)
  end.
End mpt_ind.

Definition tempty (t : mpt) : bool := match t with TEmpty => true | _ => false end.

Definition empty_children : list mpt := replicate BRANCH_CHILD_COUNT TEmpty.

(** The child a path selects in a branch, and the path left. *)
Definition branch_step (p : bytes) : nat * bytes :=
  match p with
  | [] => (BRANCH_VALUE_INDEX, [])
  | b :: r => (nibble_index b, r)
  end.

(** ** Operations *)

Fixpoint mlookup (t : mpt) (p : bytes) : option bytes :=
  match t with
  | TEmpty => None
  | TLeaf v => match p with [] => Some v | _ => None end
  | TExt k t => if starts_with p k then mlookup t (drop (length k) p) else None
  | TBranch cs =>
      match (mlookup <$> cs) !! (branch_step p).1 with
      | Some f => f (branch_step p).2
      | None => None
      end
  end.

(** Insertion into an empty position. *)
Definition mput_empty (p v : bytes) : mpt :=
  match p with [] => TLeaf v | _ => TExt p (TLeaf v) end.

(** An extension cut where the path leaves it. *)
Definition msplit (k : bytes) (t : mpt) (p v : bytes) : mpt :=
  let i := common_prefix_len k p in
  match drop i k with
  | [] => TExt k t
  | k0 :: krest =>
      let below := match krest with [] => t | _ => TExt krest t end in
      let '(j, prest) := branch_step (drop i p) in
      let branch := TBranch (<[j := mput_empty prest v]> (<[nibble_index k0 := below]> empty_children)) in
      match take i k with [] => branch | pre => TExt pre branch end
  end.

Fixpoint mput (t : mpt) (p v : bytes) : mpt :=
  match t with
  | TEmpty => mput_empty p v
  | TLeaf w =>
      match p with
      | [] => TLeaf v
      | b :: r =>
          TBranch (<[nibble_index b := mput_empty r v]>
                     (<[BRANCH_VALUE_INDEX := TLeaf w]> empty_children))
      end
  | TExt k t =>
      if starts_with p k then TExt k (mput t (drop (length k) p) v) else msplit k t p v
  | TBranch cs =>
      let '(i, r) := branch_step p in
      TBranch (alter (λ c, mput c r v) i cs)
  end.

(** First non-empty position and whether there is another. *)
Fixpoint scan (es : list bool) (i : nat) (first : option nat) : option nat * bool :=
  match es with
  | [] => (first, false)
  | e :: es =>
      if e then scan es (S i) first
      else match first with
           | Some _ => (first, true)
           | None => scan es (S i) (Some i)
           end
  end.

Definition mcollapse_ext (k : bytes) (t : mpt) : mpt :=
  match t with
  | TEmpty => TEmpty
  | TExt k' t' => TExt (k ++ k') t'
  | _ => TExt k t
  end.

(** A remaining single child at index [i] absorbs its branch. *)
Definition mlast_child (i : nat) (t : mpt) : mpt :=
  if bool_decide (i = BRANCH_VALUE_INDEX) then t
  else match t with
       | TExt k t' => TExt (as_u8 (N.of_nat i) :: k) t'
       | _ => TExt [as_u8 (N.of_nat i)] t
       end.

Definition mcollapse_branch (cs : list mpt) : mpt :=
  let '(first, multiple) := scan (tempty <$> cs) 0 None in
  if multiple : bool then TBranch cs
  else
    let i := default BRANCH_VALUE_INDEX first in
    mlast_child i (default TEmpty (cs !! i)).

(** [None]: the key is absent. *)
Fixpoint mdelete (t : mpt) (p : bytes) : option mpt :=
  match t with
  | TEmpty => None
  | TLeaf _ => match p with [] => Some TEmpty | _ => None end
  | TExt k t =>
      if starts_with p k then mcollapse_ext k <$> mdelete t (drop (length k) p) else None
  | TBranch cs =>
      match (mdelete <$> cs) !! (branch_step p).1 with
      | Some f => (λ c, mcollapse_branch (<[(branch_step p).1 := c]> cs)) <$> f (branch_step p).2
      | None => None
      end
  end.

(** ** Canonical form *)

Definition is_nibble (b : byte) : bool := (nibble_index b <? BRANCH_VALUE_INDEX)%nat.

Definition nonempties (cs : list mpt) : nat := length (filter (λ c, tempty c = false) cs).

(** Children of an extension, and of the value slot of a branch. *)
Definition ext_child (t : mpt) : bool :=
  match t with TBranch _ | TLeaf _ => true | _ => false end.
Definition value_child (t : mpt) : bool :=
  match t with TEmpty | TLeaf _ => true | _ => false end.

Fixpoint canonb (t : mpt) : bool :=
  match t with
  | TEmpty | TLeaf _ => true
  | TExt k t => bool_decide (k ≠ []) && forallb is_nibble k && ext_child t && canonb t
  | TBranch cs =>
      bool_decide (length cs = BRANCH_CHILD_COUNT) && (2 <=? nonempties cs)%nat &&
      value_child (default TEmpty (cs !! BRANCH_VALUE_INDEX)) && forallb canonb cs
  end.
Definition canon (t : mpt) : Prop := canonb t = true.

Definition nibbles (p : bytes) : Prop := Forall (λ b, is_nibble b = true) p.

(** ** Shape lemmas *)

Lemma forallb_Forall' {A} (f : A → bool) l : forallb f l = true ↔ Forall (λ x, f x = true) l.
Proof. rewrite forallb_forall, List.Forall_forall. done. Qed.

Lemma canon_ext k t :
  canon (TExt k t) ↔ k ≠ [] ∧ nibbles k ∧ ext_child t = true ∧ canon t.
Proof.
  unfold canon, nibbles. cbn [canonb].
  rewrite !andb_true_iff, bool_decide_eq_true, forallb_Forall'. tauto.
Qed.

Lemma canon_branch cs :
  canon (TBranch cs) ↔
  length cs = BRANCH_CHILD_COUNT ∧ (2 ≤ nonempties cs)%nat ∧
  value_child (default TEmpty (cs !! BRANCH_VALUE_INDEX)) = true ∧ Forall canon cs.
Proof.
  unfold canon at 1. cbn [canonb].
  rewrite !andb_true_iff, bool_decide_eq_true, Nat.leb_le, forallb_Forall'. tauto.
Qed.

Lemma nonempties_lookup cs :
  (2 ≤ nonempties cs)%nat ↔
  ∃ i j a b, i < j ∧ cs !! i = Some a ∧ cs !! j = Some b ∧ tempty a = false ∧ tempty b = false.
Proof.
  assert (∀ cs, (1 ≤ nonempties cs)%nat ↔ ∃ i a, cs !! i = Some a ∧ tempty a = false) as H1.
  { clear. induction cs as [|c cs IH]; unfold nonempties in *.
    - split; [simpl; lia|]. by intros (i & a & ? & _).
    - rewrite filter_cons. case_decide as Hc.
      + split; [|simpl; lia]. intros _. by exists 0, c.
      + rewrite IH. split.
        * intros (i & a & ?). by exists (S i), a.
        * intros ([|i] & a & ? & ?); simplify_eq/=. eauto. }
  induction cs as [|c cs IH].
  - split; [unfold nonempties; simpl; lia|]. by intros (i & j & a & b & _ & ? & _).
  - unfold nonempties in *. rewrite filter_cons. case_decide as Hc.
    + cbn [length]. rewrite <-Nat.succ_le_mono. rewrite (H1 cs). split.
      * intros (i & a & ? & ?). exists 0, (S i), c, a. split_and!; [lia|done..].
      * intros (i & [|j] & a & b & ? & _ & ? & _ & ?); [lia|]. simplify_eq/=. eauto.
    + rewrite IH. split.
      * intros (i & j & a & b & ? & ? & ? & ? & ?). exists (S i), (S j), a, b. split_and!; try done; lia.
      * intros ([|i] & [|j] & a & b & ? & ? & ? & ? & ?); simplify_eq/=; try lia.
        exists i, j, a, b. split_and!; try done; lia.
Qed.

Lemma nonempties_two cs i j a b :
  i ≠ j → cs !! i = Some a → cs !! j = Some b → tempty a = false → tempty b = false →
  (2 ≤ nonempties cs)%nat.
Proof.
  intros Hij Ha Hb Hna Hnb. apply nonempties_lookup.
  destruct (decide (i < j)); [exists i, j, a, b|exists j, i, b, a]; split_and!; try done; lia.
Qed.

Lemma scan_spec es i0 first :
  match scan es i0 first with
  | (_, true) =>
      ∃ i, es !! i = Some false ∧ (first = None → ∃ j, i ≠ j ∧ es !! j = Some false)
  | (Some k, false) =>
      (first = Some k ∧ ∀ i, es !! i ≠ Some false) ∨
      (first = None ∧ ∃ i, k = (i0 + i)%nat ∧ es !! i = Some false ∧
         ∀ j, j ≠ i → es !! j ≠ Some false)
  | (None, false) => first = None ∧ ∀ i, es !! i ≠ Some false
  end.
Proof.
  revert i0 first. induction es as [|e es IH]; intros i0 first; simpl.
  { destruct first; [left|]; split; done. }
  destruct e.
  - specialize (IH (S i0) first). destruct (scan es (S i0) first) as [[k|] []].
    + destruct IH as (i & ? & Hf). exists (S i). split; [done|].
      intros ->. destruct Hf as (j & ? & ?); [done|]. exists (S j). split; [lia|done].
    + destruct IH as [[-> H1]|(-> & i & -> & ? & Hu)]; [left|right].
      * split; [done|]. intros [|i]; [done|apply H1].
      * split; [done|]. exists (S i). split_and!; [lia|done|].
        intros [|j] Hj; [done|]. apply Hu. lia.
    + destruct IH as (i & ? & Hf). exists (S i). split; [done|].
      intros ->. destruct Hf as (j & ? & ?); [done|]. exists (S j). split; [lia|done].
    + destruct IH as [-> H1]. split; [done|]. intros [|i]; [done|apply H1].
  - destruct first as [k|]; [by exists 0|].
    specialize (IH (S i0) (Some i0)). destruct (scan es (S i0) (Some i0)) as [[k|] []].
    + destruct IH as (i & ? & _). exists (S i). split; [done|]. intros _. by exists 0.
    + destruct IH as [[[= ->] H1]|[? _]]; [|done]. right. split; [done|].
      exists 0. split_and!; [lia|done|]. intros [|j] ?; [done|apply H1].
    + destruct IH as (i & ? & _). exists (S i). split; [done|]. intros _. by exists 0.
    + by destruct IH.
Qed.

(** ** Lookup equations *)

Lemma mlookup_branch cs p :
  mlookup (TBranch cs) p = cs !! (branch_step p).1 ≫= λ c, mlookup c (branch_step p).2.
Proof. cbn [mlookup]. rewrite list_lookup_fmap. by destruct (cs !! _). Qed.

(** [TExt], or nothing for an empty key. *)
Definition mext (k : bytes) (t : mpt) : mpt := match k with [] => t | _ => TExt k t end.

Lemma mlookup_mext k t p :
  mlookup (mext k t) p = if starts_with p k then mlookup t (drop (length k) p) else None.
Proof. by destruct k. Qed.

Lemma mlookup_mext_app k t p : mlookup (mext k t) (k ++ p) = mlookup t p.
Proof. by rewrite mlookup_mext, starts_with_app, drop_app_length. Qed.

Lemma mlookup_ext_Some k t p v :
  mlookup (TExt k t) p = Some v → ∃ r, p = k ++ r ∧ mlookup t r = Some v.
Proof.
  cbn [mlookup]. destruct (starts_with p k) eqn:E; [|done].
  apply starts_with_spec in E as [r ->]. rewrite drop_app_length. eauto.
Qed.

Lemma mput_empty_mext p v : mput_empty p v = mext p (TLeaf v).
Proof. by destruct p. Qed.

Lemma starts_with_self_iff (p k : bytes) :
  starts_with p k = true → drop (length k) p = [] ↔ p = k.
Proof.
  intros [r ->]%starts_with_spec. rewrite drop_app_length. split.
  - intros ->. apply app_nil_r.
  - intros Hr. apply (f_equal length) in Hr. rewrite length_app in Hr.
    destruct r; [done|simpl in Hr; lia].
Qed.

Lemma mlookup_mput_empty p v q :
  mlookup (mput_empty p v) q = if bool_decide (q = p) then Some v else None.
Proof.
  rewrite mput_empty_mext, mlookup_mext. destruct (starts_with q p) eqn:E.
  - pose proof (starts_with_self_iff q p E) as Hiff. simpl.
    case_bool_decide as Hq; [by rewrite (proj2 Hiff)|].
    destruct (drop (length p) q); [|done]. by destruct Hq; apply Hiff.
  - case_bool_decide; [|done]. subst q.
    rewrite <-(app_nil_r p) in E at 1. by rewrite starts_with_app in E.
Qed.

Lemma branch_step_lt p : nibbles p → ((branch_step p).1 < BRANCH_CHILD_COUNT)%nat.
Proof.
  destruct 1 as [|b r Hb]; cbn [branch_step fst]; [unfold BRANCH_VALUE_INDEX, BRANCH_CHILD_COUNT; lia|].
  unfold is_nibble in Hb. apply Nat.ltb_lt in Hb. unfold BRANCH_VALUE_INDEX in Hb. lia.
Qed.

Lemma branch_step_nibbles p : nibbles p → nibbles (branch_step p).2.
Proof. destruct 1; [constructor|done]. Qed.

Lemma nibble_index_inj a b : nibble_index a = nibble_index b → a = b.
Proof. unfold nibble_index. intros ?%N2Nat.inj. by apply to_N_inj. Qed.

Lemma nibble_index_value b : is_nibble b = true → nibble_index b ≠ BRANCH_VALUE_INDEX.
Proof. unfold is_nibble. rewrite Nat.ltb_lt. lia. Qed.

Lemma branch_step_inj p q : nibbles p → nibbles q → branch_step p = branch_step q → p = q.
Proof.
  intros Hp Hq Heq.
  destruct Hp as [|b r Hb]; destruct Hq as [|b' r' Hb']; [done|..];
    cbn [branch_step] in Heq; apply pair_equal_spec in Heq as [Hi Hr].
  - symmetry in Hi. by apply nibble_index_value in Hi.
  - by apply nibble_index_value in Hi.
  - apply nibble_index_inj in Hi. by subst.
Qed.

Lemma mlookup_branch_insert cs i c p :
  (i < length cs)%nat →
  mlookup (TBranch (<[i := c]> cs)) p =
  if bool_decide ((branch_step p).1 = i) then mlookup c (branch_step p).2
  else mlookup (TBranch cs) p.
Proof.
  intros Hi. rewrite !mlookup_branch. case_bool_decide as E.
  - by rewrite E, list_lookup_insert_eq by done.
  - by rewrite list_lookup_insert_ne by done.
Qed.

Lemma value_index_lt : (BRANCH_VALUE_INDEX < BRANCH_CHILD_COUNT)%nat.
Proof. unfold BRANCH_VALUE_INDEX, BRANCH_CHILD_COUNT. lia. Qed.

Lemma length_empty_children : length empty_children = BRANCH_CHILD_COUNT.
Proof. apply length_replicate. Qed.

Lemma mlookup_empty_children p : mlookup (TBranch empty_children) p = None.
Proof.
  rewrite mlookup_branch. unfold empty_children.
  destruct (replicate _ _ !! _) as [c|] eqn:E; [|done].
  by apply lookup_replicate in E as [-> _].
Qed.

Lemma as_u8_index i : (i < BRANCH_VALUE_INDEX)%nat → nibble_index (as_u8 (N.of_nat i)) = i.
Proof.
  intros Hi. unfold nibble_index. rewrite to_N_as_u8, N.mod_small, Nat2N.id; [done|].
  unfold BRANCH_VALUE_INDEX, BRANCH_CHILD_COUNT in Hi. lia.
Qed.

(** ** Insertion *)

Lemma common_prefix_split (k p : bytes) :
  starts_with p k = false →
  ∃ pre k0 krest prest, k = pre ++ k0 :: krest ∧ p = pre ++ prest ∧ head prest ≠ Some k0 ∧
    common_prefix_len k p = length pre.
Proof.
  revert p. induction k as [|k0 k IH]; intros p Hs; [done|]. simpl in *.
  destruct p as [|p0 p]; simpl in *; [by exists [], k0, k, []|].
  destruct (decide (p0 = k0)) as [->|Hne].
  - rewrite bool_decide_true in Hs |- * by done.
    destruct (IH p Hs) as (pre & k1 & kr & pr & -> & -> & ? & ->).
    by exists (k0 :: pre), k1, kr, pr.
  - rewrite (bool_decide_false (k0 = p0)) by done.
    exists [], k0, k, (p0 :: p). split_and!; try done. simpl. congruence.
Qed.

Lemma msplit_unfold pre k0 krest t prest v :
  common_prefix_len (pre ++ k0 :: krest) (pre ++ prest) = length pre →
  msplit (pre ++ k0 :: krest) t (pre ++ prest) v =
  mext pre (TBranch (<[(branch_step prest).1 := mput_empty (branch_step prest).2 v]>
                      (<[nibble_index k0 := mext krest t]> empty_children))).
Proof.
  intros Hl. unfold msplit. rewrite Hl, !drop_app_length, take_app_length.
  destruct (branch_step prest) as [j r]. by destruct pre, krest.
Qed.

Lemma nibbles_app p q : nibbles (p ++ q) ↔ nibbles p ∧ nibbles q.
Proof. apply Forall_app. Qed.

Lemma nibbles_cons b q : nibbles (b :: q) ↔ is_nibble b = true ∧ nibbles q.
Proof. unfold nibbles. by rewrite Forall_cons. Qed.

Lemma mlookup_cons_branch cs b r :
  mlookup (TBranch cs) (b :: r) = cs !! nibble_index b ≫= λ c, mlookup c r.
Proof. apply mlookup_branch. Qed.

Lemma nibble_index_lt b : is_nibble b = true → (nibble_index b < BRANCH_CHILD_COUNT)%nat.
Proof. intros Hb. by apply (branch_step_lt [b]); repeat constructor. Qed.

(** A single subtree hung below nibble [k0] in an empty branch. *)
Lemma mlookup_single_child k0 c q :
  nibbles q → is_nibble k0 = true →
  mlookup (TBranch (<[nibble_index k0 := c]> empty_children)) q = mlookup (TExt [k0] c) q.
Proof.
  intros Hq Hk. rewrite mlookup_branch_insert by (by apply nibble_index_lt).
  rewrite mlookup_empty_children. cbn [mlookup starts_with length].
  destruct Hq as [|b r Hb]; cbn [branch_step fst snd].
  - rewrite bool_decide_false; [done|]. intros E. by apply nibble_index_value in Hk.
  - rewrite andb_true_r. rewrite skipn_cons, drop_0.
    case_bool_decide as E; case_bool_decide as E'; try done.
    + by apply nibble_index_inj in E.
    + by subst.
Qed.

Lemma mlookup_ext_app pre k0 krest t r :
  mlookup (TExt (pre ++ k0 :: krest) t) (pre ++ r) = mlookup (TExt [k0] (mext krest t)) r.
Proof.
  transitivity (mlookup (mext (pre ++ [k0] ++ krest) t) (pre ++ r)); [by destruct pre|].
  rewrite mlookup_mext. cbn [mlookup]. rewrite mlookup_mext.
  destruct (starts_with r [k0]) eqn:E1.
  - apply starts_with_spec in E1 as [r' ->]. rewrite drop_app_length.
    destruct (starts_with r' krest) eqn:E2.
    + apply starts_with_spec in E2 as [r'' ->]. rewrite drop_app_length.
      by rewrite !app_assoc, starts_with_app, drop_app_length.
    + rewrite starts_with_false in E2. rewrite (proj2 (starts_with_false _ _)); [done|].
      intros r''. rewrite <-!app_assoc. intros E%app_inv_head%app_inv_head. naive_solver.
  - rewrite starts_with_false in E1. rewrite (proj2 (starts_with_false _ _)); [done|].
    intros r''. rewrite <-!app_assoc. intros E%app_inv_head. naive_solver.
Qed.

Lemma mlookup_ext_other pre k t q :
  starts_with q pre = false → mlookup (TExt (pre ++ k) t) q = None.
Proof.
  rewrite starts_with_false. intros E. cbn [mlookup].
  destruct (starts_with q _) eqn:E'; [|done].
  apply starts_with_spec in E' as [r ->]. destruct (E (k ++ r)). by rewrite app_assoc.
Qed.

(** A branch with one subtree below [k0] and the new value elsewhere. *)
Lemma mlookup_fork k0 c p v q :
  nibbles p → nibbles q → is_nibble k0 = true → head p ≠ Some k0 →
  mlookup (TBranch (<[(branch_step p).1 := mput_empty (branch_step p).2 v]>
                      (<[nibble_index k0 := c]> empty_children))) q =
  if bool_decide (q = p) then Some v else mlookup (TExt [k0] c) q.
Proof.
  intros Hp Hq Hk0 Hhd.
  rewrite mlookup_branch_insert by (rewrite length_insert; by apply branch_step_lt).
  rewrite mlookup_mput_empty, (mlookup_single_child k0 _ q) by done.
  case_bool_decide as E1; [case_bool_decide as E2|].
  - rewrite bool_decide_true; [done|]. apply branch_step_inj; [done..|].
    by destruct (branch_step q), (branch_step p); simplify_eq/=.
  - rewrite bool_decide_false by naive_solver. symmetry. cbn [mlookup].
    destruct (starts_with q [k0]) eqn:E3; [|done].
    apply starts_with_spec in E3 as [r' ->]. exfalso.
    destruct p as [|p0 p]; cbn [branch_step fst app] in E1.
    + by apply nibble_index_value in Hk0.
    + apply nibble_index_inj in E1 as ->. done.
  - by rewrite bool_decide_false by naive_solver.
Qed.

Lemma mlookup_msplit k t p v q :
  canon (TExt k t) → nibbles p → nibbles q → starts_with p k = false →
  mlookup (msplit k t p v) q = if bool_decide (q = p) then Some v else mlookup (TExt k t) q.
Proof.
  intros (_ & Hnk & _)%canon_ext Hp Hq Hs.
  destruct (common_prefix_split k p Hs) as (pre & k0 & krest & prest & -> & -> & Hhd & Hl).
  apply nibbles_app in Hnk as [_ [Hk0 _]%nibbles_cons]. apply nibbles_app in Hp as [_ Hp].
  rewrite msplit_unfold by done. rewrite mlookup_mext.
  destruct (starts_with q pre) eqn:E.
  2:{ rewrite mlookup_ext_other by done. rewrite starts_with_false in E.
      by rewrite bool_decide_false by naive_solver. }
  apply starts_with_spec in E as [r ->]. rewrite drop_app_length.
  apply nibbles_app in Hq as [_ Hr].
  rewrite mlookup_fork, mlookup_ext_app by done.
  by rewrite (bool_decide_ext (pre ++ r = pre ++ prest) (r = prest))
    by (split; [apply app_inv_head|naive_solver]).
Qed.

Lemma mput_branch cs p v :
  mput (TBranch cs) p v = TBranch (alter (λ c, mput c (branch_step p).2 v) (branch_step p).1 cs).
Proof. cbn [mput]. by destruct (branch_step p). Qed.

Lemma mlookup_mput t p v q :
  canon t → nibbles p → nibbles q →
  mlookup (mput t p v) q = if bool_decide (q = p) then Some v else mlookup t q.
Proof.
  revert p q. induction t as [|w|k t IH|cs IH] using mpt_induction; intros p q Hc Hp Hq.
  - cbn [mput]. by rewrite mlookup_mput_empty.
  - cbn [mput]. destruct Hp as [|b r Hb Hr]; [by destruct q|].
    rewrite mlookup_branch_insert by (rewrite length_insert; by apply nibble_index_lt).
    rewrite mlookup_mput_empty, mlookup_branch_insert by (rewrite length_empty_children; apply value_index_lt).
    rewrite mlookup_empty_children.
    destruct Hq as [|b' r' Hb' Hr']; cbn [branch_step fst snd].
    + rewrite (bool_decide_false (_ = nibble_index b)) by (by intros E; apply nibble_index_value in Hb).
      by rewrite bool_decide_true, bool_decide_false by done.
    + rewrite (bool_decide_false (nibble_index b' = BRANCH_VALUE_INDEX)) by (by apply nibble_index_value).
      destruct (decide (nibble_index b' = nibble_index b)) as [E%nibble_index_inj|E].
      * subst b'. rewrite (bool_decide_true (nibble_index b = _)) by done.
        by rewrite (bool_decide_ext (r' = r) (b :: r' = b :: r)) by (split; congruence).
      * by rewrite !bool_decide_false by congruence.
  - assert (Hc' := Hc). apply canon_ext in Hc' as (_ & _ & _ & Ht). cbn [mput].
    destruct (starts_with p k) eqn:E; [|by apply mlookup_msplit].
    apply starts_with_spec in E as [r ->]. rewrite drop_app_length.
    apply nibbles_app in Hp as [_ Hr]. cbn [mlookup].
    destruct (starts_with q k) eqn:E.
    + apply starts_with_spec in E as [r' ->]. rewrite drop_app_length.
      apply nibbles_app in Hq as [_ Hr']. rewrite IH by done.
      by rewrite (bool_decide_ext (k ++ r' = k ++ r) (r' = r))
        by (split; [apply app_inv_head|naive_solver]).
    + rewrite starts_with_false in E. by rewrite bool_decide_false by naive_solver.
  - rewrite mput_branch, !mlookup_branch.
    apply canon_branch in Hc as (Hl & _ & _ & Hcs). rewrite Forall_forall in IH, Hcs.
    destruct (decide ((branch_step q).1 = (branch_step p).1)) as [E|E].
    + rewrite E, list_lookup_alter_eq.
      destruct (cs !! (branch_step p).1) as [c|] eqn:Ec; simpl.
      * pose proof (list_elem_of_lookup_2 _ _ _ Ec) as Hin.
        rewrite IH by eauto using branch_step_nibbles.
        rewrite (bool_decide_ext (q = p) ((branch_step q).2 = (branch_step p).2)); [done|].
        split; [by intros ->|]. intros. apply branch_step_inj; [done..|].
        by destruct (branch_step q), (branch_step p); simplify_eq/=.
      * apply lookup_ge_None in Ec. pose proof (branch_step_lt p Hp). lia.
    + rewrite list_lookup_alter_ne by done. by rewrite bool_decide_false by naive_solver.
Qed.

Lemma tempty_mput t p v : tempty (mput t p v) = false.
Proof.
  destruct t as [|w|k t|cs]; cbn [mput].
  - by destruct p.
  - by destruct p.
  - destruct (starts_with p k) eqn:E; [done|].
    destruct (common_prefix_split k p E) as (pre & k0 & kr & pr & -> & -> & _ & Hl).
    rewrite msplit_unfold by done. by destruct pre.
  - by destruct (branch_step p).
Qed.

Lemma ext_child_mput t p v : ext_child t = true → ext_child (mput t p v) = true.
Proof. destruct t; cbn [mput]; [done|by destruct p|done|by destruct (branch_step p)]. Qed.

Lemma canon_mext k t :
  nibbles k → canon t → (k ≠ [] → ext_child t = true) → canon (mext k t).
Proof. intros Hk Ht Hx. destruct k as [|b k]; [done|]. apply canon_ext. naive_solver. Qed.

Lemma canon_mput_empty p v : nibbles p → canon (mput_empty p v).
Proof. intros Hp. rewrite mput_empty_mext. by apply canon_mext. Qed.

Lemma tempty_mput_empty p v : tempty (mput_empty p v) = false.
Proof. by destruct p. Qed.

Lemma value_child_mput_empty v : value_child (mput_empty [] v) = true.
Proof. done. Qed.

(** A branch with exactly the two children given is canonical. *)
Lemma canon_fork i j a b :
  (i < BRANCH_CHILD_COUNT)%nat → (j < BRANCH_CHILD_COUNT)%nat → i ≠ j →
  tempty a = false → tempty b = false → canon a → canon b →
  (i = BRANCH_VALUE_INDEX → value_child a = true) →
  (j = BRANCH_VALUE_INDEX → value_child b = true) →
  canon (TBranch (<[j := b]> (<[i := a]> empty_children))).
Proof.
  intros Hi Hj Hij Hta Htb Ha Hb Hva Hvb.
  assert (length (<[i := a]> empty_children) = BRANCH_CHILD_COUNT) as Hl
    by (by rewrite length_insert, length_empty_children).
  apply canon_branch. split_and!.
  - by rewrite length_insert.
  - apply (nonempties_two _ i j a b); [done|..|done|done].
    + rewrite list_lookup_insert_ne by done.
      by rewrite list_lookup_insert_eq by (by rewrite length_empty_children).
    + by rewrite list_lookup_insert_eq by (by rewrite Hl).
  - destruct (decide (j = BRANCH_VALUE_INDEX)) as [->|Hj'].
    { rewrite list_lookup_insert_eq by (by rewrite Hl). by apply Hvb. }
    rewrite list_lookup_insert_ne by done.
    destruct (decide (i = BRANCH_VALUE_INDEX)) as [->|Hi'].
    { rewrite list_lookup_insert_eq by (by rewrite length_empty_children). by apply Hva. }
    by rewrite list_lookup_insert_ne by done.
  - apply Forall_insert; [apply Forall_insert|]; try done. by apply Forall_replicate.
Qed.

Lemma branch_step_value p : nibbles p → (branch_step p).1 = BRANCH_VALUE_INDEX → p = [].
Proof. destruct 1 as [|b r Hb]; [done|]. intros E. by apply nibble_index_value in Hb. Qed.

Lemma canon_msplit k t p v :
  canon (TExt k t) → nibbles p → starts_with p k = false → canon (msplit k t p v).
Proof.
  intros (_ & Hnk & Hx & Ht)%canon_ext Hp Hs.
  destruct (common_prefix_split k p Hs) as (pre & k0 & krest & prest & -> & -> & Hhd & Hl).
  apply nibbles_app in Hnk as [Hpre [Hk0 Hkr]%nibbles_cons]. apply nibbles_app in Hp as [_ Hp].
  rewrite msplit_unfold by done. apply canon_mext; [done| |done].
  apply canon_fork.
  - by apply nibble_index_lt.
  - by apply branch_step_lt.
  - destruct prest as [|p0 prest]; cbn [branch_step fst]; [by apply nibble_index_value|].
    intros E%nibble_index_inj. by subst.
  - by destruct krest, t.
  - apply tempty_mput_empty.
  - by apply canon_mext.
  - by apply canon_mput_empty, branch_step_nibbles.
  - intros E. by apply nibble_index_value in Hk0.
  - intros E. by apply branch_step_value in E as ->.
Qed.

Lemma value_child_mput t v : value_child t = true → value_child (mput t [] v) = true.
Proof. by destruct t. Qed.

Lemma canon_mput t p v : canon t → nibbles p → canon (mput t p v).
Proof.
  revert p. induction t as [|w|k t IH|cs IH] using mpt_induction; intros p Hc Hp.
  - by apply canon_mput_empty.
  - cbn [mput]. destruct Hp as [|b r Hb Hr]; [done|].
    apply canon_fork; [apply value_index_lt|by apply nibble_index_lt| |done|apply tempty_mput_empty
      |done|by apply canon_mput_empty|done|]; intros E; by apply nibble_index_value in Hb.
  - cbn [mput]. destruct (starts_with p k) eqn:E; [|by apply canon_msplit].
    apply canon_ext in Hc as (? & ? & ? & ?). apply starts_with_spec in E as [r ->].
    rewrite drop_app_length. apply nibbles_app in Hp as [_ Hr].
    apply canon_ext. split_and!; [done..|by apply ext_child_mput|by apply IH].
  - rewrite mput_branch. apply canon_branch in Hc as (Hl & Hn & Hv & Hcs).
    apply canon_branch. split_and!.
    + by rewrite length_alter.
    + apply nonempties_lookup in Hn as (i & j & a & b & Hij & Ha & Hb & Hta & Htb).
      apply (nonempties_two _ i j
               (if decide (i = (branch_step p).1) then mput a (branch_step p).2 v else a)
               (if decide (j = (branch_step p).1) then mput b (branch_step p).2 v else b)).
      * lia.
      * case_decide; subst; [by rewrite list_lookup_alter_eq, Ha|by rewrite list_lookup_alter_ne].
      * case_decide; subst; [by rewrite list_lookup_alter_eq, Hb|by rewrite list_lookup_alter_ne].
      * case_decide; [apply tempty_mput|done].
      * case_decide; [apply tempty_mput|done].
    + destruct (decide ((branch_step p).1 = BRANCH_VALUE_INDEX)) as [E|E].
      * pose proof (branch_step_value p Hp E) as ->. cbn [branch_step fst snd].
        rewrite list_lookup_alter_eq. destruct (cs !! _); [|done]. by apply value_child_mput.
      * by rewrite list_lookup_alter_ne.
    + rewrite Forall_lookup in IH, Hcs. apply Forall_lookup. intros i c Hc.
      destruct (decide ((branch_step p).1 = i)) as [<-|E].
      * rewrite list_lookup_alter_eq in Hc.
        destruct (cs !! (branch_step p).1) as [c'|] eqn:Hc'; simplify_eq/=.
        eapply IH; eauto using branch_step_nibbles.
      * rewrite list_lookup_alter_ne in Hc by done. eauto.
Qed.

(** ** Deletion *)

Lemma mlookup_last_child i c q :
  nibbles q → (i < BRANCH_CHILD_COUNT)%nat → (i = BRANCH_VALUE_INDEX → value_child c = true) →
  mlookup (mlast_child i c) q =
  if bool_decide ((branch_step q).1 = i) then mlookup c (branch_step q).2 else None.
Proof.
  intros Hq Hi Hv. unfold mlast_child. case_bool_decide as E.
  - subst i. specialize (Hv eq_refl). case_bool_decide as E'.
    + by apply branch_step_value in E' as ->.
    + by destruct c, q.
  - assert (i < BRANCH_VALUE_INDEX)%nat as Hi'.
    { unfold BRANCH_VALUE_INDEX, BRANCH_CHILD_COUNT in *. lia. }
    transitivity (mlookup (TExt [as_u8 (N.of_nat i)] c) q).
    { destruct c as [| |k c|]; try done. etransitivity; [apply (mlookup_ext_app [])|].
      cbn [mlookup]. by rewrite mlookup_mext. }
    cbn [mlookup starts_with length]. destruct q as [|b r]; cbn [branch_step fst snd].
    + by rewrite bool_decide_false by done.
    + rewrite andb_true_r, skipn_cons, drop_0.
      rewrite (bool_decide_ext (b = as_u8 (N.of_nat i)) (nibble_index b = i)); [done|].
      rewrite <-(as_u8_index i Hi') at 2. split; [by intros ->|apply nibble_index_inj].
Qed.

(** Only child [i] is non-empty. *)
Lemma mlookup_only_child cs i c q :
  cs !! i = Some c → (∀ j d, j ≠ i → cs !! j = Some d → tempty d = true) →
  mlookup (TBranch cs) q =
  if bool_decide ((branch_step q).1 = i) then mlookup c (branch_step q).2 else None.
Proof.
  intros Hi Hu. rewrite mlookup_branch. case_bool_decide as E; [by rewrite E, Hi|].
  destruct (cs !! (branch_step q).1) as [d|] eqn:Ed; [|done].
  specialize (Hu _ _ E Ed). by destruct d.
Qed.

Lemma tempty_lookup (cs : list mpt) (i : nat) b :
  (tempty <$> cs) !! i = Some b ↔ ∃ c, cs !! i = Some c ∧ tempty c = b.
Proof. rewrite list_lookup_fmap, fmap_Some. firstorder. Qed.

(** What the scan finds in a branch that is not empty. *)
Lemma scan_tree cs :
  (1 ≤ nonempties cs)%nat →
  (∃ first, scan (tempty <$> cs) 0 None = (first, true) ∧ (2 ≤ nonempties cs)%nat) ∨
  (∃ i c, scan (tempty <$> cs) 0 None = (Some i, false) ∧ cs !! i = Some c ∧ tempty c = false ∧
     (∀ j d, j ≠ i → cs !! j = Some d → tempty d = true)).
Proof.
  intros Hn. pose proof (scan_spec (tempty <$> cs) 0 None) as Hs.
  destruct (scan (tempty <$> cs) 0 None) as [[k|] []].
  1,3: left; eexists; split; [done|]; destruct Hs as (i & (a & Ha & Hta)%tempty_lookup & Hj);
    destruct (Hj eq_refl) as (j & Hij & (b & Hb & Htb)%tempty_lookup);
    by apply (nonempties_two cs i j a b).
  - right. destruct Hs as [[? _]|(_ & i & -> & (c & Hc & Htc)%tempty_lookup & Hu)]; [done|].
    exists i, c. split_and!; [done..|].
    intros j d Hj Hd. destruct (tempty d) eqn:E; [done|].
    destruct (Hu j Hj). apply tempty_lookup. eauto.
  - exfalso. destruct Hs as [_ Hs]. unfold nonempties in Hn.
    destruct (filter (λ c, tempty c = false) cs) as [|c l] eqn:E; [simpl in Hn; lia|].
    assert (c ∈ filter (λ c, tempty c = false) cs) as Hc by (rewrite E; left).
    apply list_elem_of_filter in Hc as [Hc [i Hi]%list_elem_of_lookup].
    apply (Hs i), tempty_lookup. eauto.
Qed.

Lemma mcollapse_branch_spec cs :
  (1 ≤ nonempties cs)%nat →
  (2 ≤ nonempties cs ∧ mcollapse_branch cs = TBranch cs)%nat ∨
  (∃ i c, cs !! i = Some c ∧ tempty c = false ∧
     (∀ j d, j ≠ i → cs !! j = Some d → tempty d = true) ∧
     mcollapse_branch cs = mlast_child i c).
Proof.
  intros Hn. unfold mcollapse_branch.
  destruct (scan_tree cs Hn) as [(first & -> & ?)|(i & c & -> & Hc & Htc & Hu)]; [by left|right].
  exists i, c. cbn [default id]. by rewrite Hc.
Qed.

Lemma tempty_collapse_branch cs :
  (1 ≤ nonempties cs)%nat → tempty (mcollapse_branch cs) = false.
Proof.
  intros Hn. destruct (mcollapse_branch_spec cs Hn) as [[_ ->]|(i & c & _ & Htc & _ & ->)]; [done|].
  unfold mlast_child. case_bool_decide; [done|]. by destruct c.
Qed.

Lemma canon_last_child i c :
  (i < BRANCH_CHILD_COUNT)%nat → canon c → tempty c = false → canon (mlast_child i c).
Proof.
  intros Hi Hc Ht. unfold mlast_child. case_bool_decide as E; [done|].
  assert (is_nibble (as_u8 (N.of_nat i)) = true) as Hb.
  { apply Nat.ltb_lt. rewrite as_u8_index;
      unfold BRANCH_VALUE_INDEX, BRANCH_CHILD_COUNT in *; lia. }
  destruct c as [|v|k c|cs]; try done.
  - apply canon_ext. split_and!; try done. by repeat constructor.
  - apply canon_ext in Hc as (_ & Hk & Hx & Hc). apply canon_ext.
    split_and!; try done. by constructor.
  - apply canon_ext. split_and!; try done. by repeat constructor.
Qed.

Lemma canon_collapse_ext k t :
  k ≠ [] → nibbles k → canon t → canon (mcollapse_ext k t).
Proof.
  intros Hk Hn Ht. destruct t as [|v|k' t|cs]; cbn [mcollapse_ext]; [done| | |].
  - by apply canon_ext.
  - apply canon_ext in Ht as (_ & Hn' & Hx & Ht). apply canon_ext.
    split_and!; [by destruct k|by apply nibbles_app|done..].
  - by apply canon_ext.
Qed.

Lemma mlookup_collapse_ext k t q :
  mlookup (mcollapse_ext k t) q = mlookup (TExt k t) q.
Proof.
  destruct t as [|v|k' t|cs]; cbn [mcollapse_ext mlookup]; try done.
  - by destruct (starts_with q k).
  - destruct (starts_with q k) eqn:E.
    + apply starts_with_spec in E as [r ->]. rewrite drop_app_length.
      destruct (starts_with r k') eqn:E.
      * apply starts_with_spec in E as [r' ->].
        by rewrite drop_app_length, app_assoc, starts_with_app, drop_app_length.
      * rewrite starts_with_false in E. rewrite (proj2 (starts_with_false _ _)); [done|].
        intros r'. rewrite <-app_assoc. intros ?%app_inv_head. naive_solver.
    + rewrite starts_with_false in E. rewrite (proj2 (starts_with_false _ _)); [done|].
      intros r'. rewrite <-app_assoc. apply E.
Qed.

Lemma mdelete_branch cs p :
  mdelete (TBranch cs) p =
  (λ c, mcollapse_branch (<[(branch_step p).1 := c]> cs)) <$>
    (cs !! (branch_step p).1 ≫= λ c, mdelete c (branch_step p).2).
Proof. cbn [mdelete]. rewrite list_lookup_fmap. by destruct (cs !! _). Qed.

(** A branch keeps a non-empty child when one child changes. *)
Lemma nonempties_insert cs i c :
  (2 ≤ nonempties cs)%nat → (1 ≤ nonempties (<[i := c]> cs))%nat.
Proof.
  intros (j1 & j2 & a & b & Hj & Ha & Hb & Hta & Htb)%nonempties_lookup.
  assert (∃ j d, <[i := c]> cs !! j = Some d ∧ tempty d = false) as (j & d & Hd & Htd).
  { destruct (decide (i = j1)) as [->|].
    - exists j2, b. by rewrite list_lookup_insert_ne by lia.
    - exists j1, a. by rewrite list_lookup_insert_ne by lia. }
  unfold nonempties. apply list_elem_of_lookup_2 in Hd.
  assert (d ∈ filter (λ c, tempty c = false) (<[i := c]> cs)) as Hin by (by apply list_elem_of_filter).
  destruct (filter _ _); [by apply not_elem_of_nil in Hin|simpl; lia].
Qed.

Lemma mdelete_value_child t p t' :
  value_child t = true → mdelete t p = Some t' → value_child t' = true.
Proof. destruct t; cbn; try done. destruct p; naive_solver. Qed.

Lemma branch_collapse_ok cs :
  length cs = BRANCH_CHILD_COUNT → (1 ≤ nonempties cs)%nat →
  value_child (default TEmpty (cs !! BRANCH_VALUE_INDEX)) = true → Forall canon cs →
  canon (mcollapse_branch cs) ∧
  (∀ q, nibbles q → mlookup (mcollapse_branch cs) q = mlookup (TBranch cs) q).
Proof.
  intros Hl Hn Hv Hcs.
  destruct (mcollapse_branch_spec cs Hn) as [[Hn2 ->]|(i & c & Hi & Htc & Hu & ->)].
  - split; [|done]. by apply canon_branch.
  - pose proof (lookup_lt_Some _ _ _ Hi) as Hlt. rewrite Hl in Hlt. split.
    + apply canon_last_child; [done| |done]. rewrite Forall_lookup in Hcs. eauto.
    + intros q Hq. rewrite (mlookup_only_child cs i c) by done. apply mlookup_last_child; [done..|].
      intros ->. by rewrite Hi in Hv.
Qed.

Lemma mdelete_spec t p :
  canon t → nibbles p →
  match mdelete t p with
  | None => mlookup t p = None
  | Some t' =>
      is_Some (mlookup t p) ∧ canon t' ∧
      (∀ q, nibbles q → mlookup t' q = if bool_decide (q = p) then None else mlookup t q)
  end.
Proof.
  revert p. induction t as [|w|k t IH|cs IH] using mpt_induction; intros p Hc Hp.
  - done.
  - destruct p; cbn; [|done]. split_and!; [by eexists|done|]. by intros [].
  - cbn [mdelete mlookup]. destruct (starts_with p k) eqn:E; [|done].
    apply starts_with_spec in E as [r ->]. rewrite drop_app_length.
    apply nibbles_app in Hp as [_ Hr]. apply canon_ext in Hc as (Hk & Hn & Hx & Ht).
    specialize (IH r Ht Hr). destruct (mdelete t r) as [t'|]; cbn; [|done].
    destruct IH as (HS & Ht' & Hq). split_and!; [done|by apply canon_collapse_ext|].
    intros q Hnq. rewrite mlookup_collapse_ext. cbn [mlookup].
    destruct (starts_with q k) eqn:E.
    + apply starts_with_spec in E as [r' ->]. rewrite drop_app_length.
      apply nibbles_app in Hnq as [_ Hr']. rewrite Hq by done.
      by rewrite (bool_decide_ext (k ++ r' = k ++ r) (r' = r))
        by (split; [apply app_inv_head|naive_solver]).
    + by case_bool_decide.
  - rewrite mdelete_branch, mlookup_branch.
    apply canon_branch in Hc as (Hl & Hn & Hv & Hcs).
    destruct (cs !! (branch_step p).1) as [c|] eqn:Ec; cbn [mbind option_bind]; [|done].
    rewrite Forall_lookup in IH. assert (Hcs' := Hcs). rewrite Forall_lookup in Hcs'.
    specialize (IH _ _ Ec _ (Hcs' _ _ Ec) (branch_step_nibbles p Hp)).
    destruct (mdelete c (branch_step p).2) as [c'|] eqn:Ed; cbn [fmap option_fmap option_map]; [|done].
    destruct IH as (HS & Hc' & Hq).
    assert (Hlt := lookup_lt_Some _ _ _ Ec).
    destruct (branch_collapse_ok (<[(branch_step p).1 := c']> cs)) as [Hcanon Hlook].
    + by rewrite length_insert.
    + by apply nonempties_insert.
    + destruct (decide ((branch_step p).1 = BRANCH_VALUE_INDEX)) as [E|E].
      * rewrite <-E, list_lookup_insert_eq by done. rewrite <-E, Ec in Hv.
        by eapply mdelete_value_child.
      * by rewrite list_lookup_insert_ne.
    + by apply Forall_insert.
    + split_and!; [done..|]. intros q Hnq. rewrite Hlook by done.
      rewrite mlookup_branch_insert, !mlookup_branch by done.
      case_bool_decide as E.
      * rewrite E, Ec, Hq by (by apply branch_step_nibbles). cbn.
        rewrite (bool_decide_ext (q = p) ((branch_step q).2 = (branch_step p).2)); [done|].
        split; [by intros ->|]. intros. apply branch_step_inj; [done..|].
        by destruct (branch_step q), (branch_step p); simplify_eq/=.
      * by rewrite bool_decide_false by naive_solver.
Qed.

(** ** The canonical form is unique *)

Lemma mlookup_ext_app_key k t p : mlookup (TExt k t) (k ++ p) = mlookup t p.
Proof. cbn [mlookup]. by rewrite starts_with_app, drop_app_length. Qed.

(** The path of child [i] followed by [p]. *)
Definition child_path (i : nat) (p : bytes) : bytes :=
  if bool_decide (i = BRANCH_VALUE_INDEX) then p else as_u8 (N.of_nat i) :: p.

Lemma child_path_step i p :
  (i < BRANCH_CHILD_COUNT)%nat → nibbles p → (i = BRANCH_VALUE_INDEX → p = []) →
  nibbles (child_path i p) ∧ branch_step (child_path i p) = (i, p).
Proof.
  intros Hi Hp Hv. unfold child_path. case_bool_decide as E.
  - subst i. rewrite Hv by done. split; [constructor|done].
  - assert (i < BRANCH_VALUE_INDEX)%nat as Hi'.
    { unfold BRANCH_VALUE_INDEX, BRANCH_CHILD_COUNT in *. lia. }
    split; [|by cbn [branch_step]; rewrite as_u8_index].
    constructor; [|done]. apply Nat.ltb_lt. by rewrite as_u8_index.
Qed.

Lemma value_child_keys t p : value_child t = true → is_Some (mlookup t p) → p = [].
Proof. destruct t, p; cbn; try done; by intros _ [? ?]. Qed.

Lemma mlookup_child cs i c p :
  canon (TBranch cs) → cs !! i = Some c → nibbles p → is_Some (mlookup c p) →
  nibbles (child_path i p) ∧ (branch_step (child_path i p)).1 = i ∧
  mlookup (TBranch cs) (child_path i p) = mlookup c p.
Proof.
  intros (Hl & _ & Hv & _)%canon_branch Hi Hp Hs.
  destruct (child_path_step i p) as [Hn Hst]; [|done| |].
  - rewrite <-Hl. by eapply lookup_lt_Some.
  - intros ->. rewrite Hi in Hv. by eapply value_child_keys.
  - split_and!; [done|by rewrite Hst|]. by rewrite mlookup_branch, Hst; cbn; rewrite Hi.
Qed.

Lemma key_exists t :
  canon t → tempty t = false → ∃ p, nibbles p ∧ is_Some (mlookup t p).
Proof.
  induction t as [|w|k t IH|cs IH] using mpt_induction; intros Hc Ht; [done|..].
  - exists []. split; [constructor|by eexists].
  - apply canon_ext in Hc as (_ & Hk & Hx & Hc).
    destruct IH as (p & Hp & Hs); [done|by destruct t|].
    exists (k ++ p). rewrite mlookup_ext_app_key. split; [by apply nibbles_app|done].
  - assert (Hc' := Hc). apply canon_branch in Hc' as (_ & Hn & _ & Hcs).
    apply nonempties_lookup in Hn as (i & _ & a & _ & _ & Ha & _ & Hta & _).
    rewrite Forall_lookup in IH, Hcs. destruct (IH i a Ha) as (p & Hp & Hs); [eauto|done|].
    destruct (mlookup_child cs i a p) as (? & _ & Hlook); [done..|].
    exists (child_path i p). by rewrite Hlook.
Qed.

(** Below an extension, no nibble is shared by all keys. *)
Lemma ext_child_diverges t b :
  canon t → ext_child t = true → ∃ p, nibbles p ∧ is_Some (mlookup t p) ∧ head p ≠ Some b.
Proof.
  intros Hc Hx. destruct t as [|w|k t|cs]; try done.
  { exists []. split_and!; [constructor|by eexists|done]. }
  assert (Hc' := Hc). apply canon_branch in Hc' as (_ & Hn & _ & Hcs).
  apply nonempties_lookup in Hn as (i & j & a & a' & Hij & Ha & Ha' & Hta & Hta').
  rewrite Forall_lookup in Hcs.
  assert (∃ i a, cs !! i = Some a ∧ tempty a = false ∧ i ≠ nibble_index b) as (i' & d & Hd & Htd & Hne).
  { destruct (decide (i = nibble_index b)); [exists j, a'|exists i, a]; split_and!; try done; lia. }
  destruct (key_exists d) as (p & Hp & Hs); [eauto|done|].
  destruct (mlookup_child cs i' d p) as (Hn & Hst & Hlook); [done..|].
  exists (child_path i' p). rewrite Hlook. split_and!; [done..|].
  intros Hh. destruct (child_path i' p); [done|]. by simplify_eq/=.
Qed.

Lemma ext_keys_equal k1 t1 k2 t2 :
  canon (TExt k1 t1) → canon (TExt k2 t2) →
  (∀ p, nibbles p → is_Some (mlookup (TExt k1 t1) p) → is_Some (mlookup (TExt k2 t2) p)) →
  ∃ l, k1 = k2 ++ l.
Proof.
  intros (_ & Hk1 & Hx1 & Ht1)%canon_ext _ Heq.
  assert (∀ p, nibbles p → is_Some (mlookup t1 p) → ∃ r, k1 ++ p = k2 ++ r) as Hpre.
  { intros p Hp Hs. destruct (Heq (k1 ++ p)) as [v Hv].
    - by apply nibbles_app.
    - by rewrite mlookup_ext_app_key.
    - apply mlookup_ext_Some in Hv as (r & ? & _). eauto. }
  assert (tempty t1 = false) as Hne by (by destruct t1).
  destruct (key_exists t1 Ht1 Hne) as (p & Hp & Hs). destruct (Hpre p Hp Hs) as [r Hr].
  apply app_eq_inv in Hr as [(l & -> & ->)|(l & -> & ->)]; [by exists l|].
  destruct l as [|b l]; [by exists []; rewrite !app_nil_r|].
  destruct (ext_child_diverges t1 b Ht1 Hx1) as (p' & Hp' & Hs' & Hhd).
  destruct (Hpre p' Hp' Hs') as [r' Hr']. rewrite <-app_assoc in Hr'.
  apply app_inv_head in Hr' as ->. done.
Qed.

Lemma ext_vs_branch k t cs :
  canon (TExt k t) → canon (TBranch cs) →
  ∃ p, nibbles p ∧ mlookup (TExt k t) p ≠ mlookup (TBranch cs) p.
Proof.
  intros (Hk & _)%canon_ext Hc. destruct k as [|b k]; [done|].
  destruct (ext_child_diverges _ b Hc) as (p & Hp & [v Hs] & Hhd); [done|].
  exists p. split; [done|]. rewrite Hs. intros E.
  by apply mlookup_ext_Some in E as (r & -> & _).
Qed.

Lemma canonical_empty t :
  canon t → (∀ p, nibbles p → mlookup t p = None) → t = TEmpty.
Proof.
  intros Hc Hn. destruct (tempty t) eqn:E; [by destruct t|].
  destruct (key_exists t Hc E) as (p & Hp & [v Hs]). by rewrite Hn in Hs.
Qed.

Lemma branch_vs_leaf cs w :
  canon (TBranch cs) → ∃ p, nibbles p ∧ mlookup (TBranch cs) p ≠ mlookup (TLeaf w) p.
Proof.
  intros Hc. assert (Hc' := Hc). apply canon_branch in Hc' as (Hl & Hn & _ & Hcs).
  apply nonempties_lookup in Hn as (i & j & a & b & Hij & Ha & Hb & Hta & _).
  rewrite Forall_lookup in Hcs. destruct (key_exists a) as (q & Hq & [v Hv]); [eauto|done|].
  destruct (mlookup_child cs i a q) as (Hnq & Hst & Hlook); [done..|by eexists|].
  exists (child_path i q). split; [done|]. rewrite Hlook, Hv.
  destruct (child_path i q) eqn:E; [|done]. cbn in Hst. unfold BRANCH_VALUE_INDEX, BRANCH_CHILD_COUNT in *.
  apply lookup_lt_Some in Hb. lia.
Qed.

Lemma canonical_leaf t w :
  canon t → (∀ p, nibbles p → mlookup t p = mlookup (TLeaf w) p) → t = TLeaf w.
Proof.
  intros Hc Hn. pose proof (Hn [] (List.Forall_nil _)) as H0.
  destruct t as [|w'|k t|cs]; cbn [mlookup] in H0; [done|naive_solver|..].
  - apply canon_ext in Hc as (Hk & _). by destruct k.
  - destruct (branch_vs_leaf cs w Hc) as (p & Hp & Hne). by destruct Hne; apply Hn.
Qed.

Lemma canonical_unique t1 t2 :
  canon t1 → canon t2 → (∀ p, nibbles p → mlookup t1 p = mlookup t2 p) → t1 = t2.
Proof.
  revert t2. induction t1 as [|w|k t IH|cs IH] using mpt_induction; intros t2 Hc1 Hc2 Heq.
  - symmetry. apply canonical_empty; [done|]. intros p Hp. by rewrite <-Heq.
  - symmetry. apply canonical_leaf; [done|]. intros p Hp. by rewrite Heq.
  - destruct t2 as [|w2|k2 t2|cs2].
    + by apply canonical_empty.
    + by apply canonical_leaf.
    + destruct (ext_keys_equal k t k2 t2) as [l1 E1]; [done..| |].
      { intros p Hp. by rewrite Heq. }
      destruct (ext_keys_equal k2 t2 k t) as [l2 E2]; [done..| |].
      { intros p Hp. by rewrite Heq. }
      assert (l1 = []) as ->.
      { apply (f_equal length) in E1, E2. rewrite length_app in E1, E2.
        destruct l1; [done|simpl in *; lia]. }
      rewrite app_nil_r in E1. subst k2. f_equal.
      apply canon_ext in Hc1 as (_ & Hk & _ & Hc1). apply canon_ext in Hc2 as (_ & _ & _ & Hc2).
      apply IH; [done..|]. intros p Hp. specialize (Heq (k ++ p)).
      rewrite !mlookup_ext_app_key in Heq. apply Heq. by apply nibbles_app.
    + destruct (ext_vs_branch k t cs2) as (p & Hp & Hne); [done..|]. by destruct Hne; apply Heq.
  - destruct t2 as [|w2|k2 t2|cs2].
    + by apply canonical_empty.
    + by apply canonical_leaf.
    + destruct (ext_vs_branch k2 t2 cs) as (p & Hp & Hne); [done..|]. destruct Hne. by rewrite Heq.
    + f_equal. apply canon_branch in Hc1 as (Hl1 & _ & Hv1 & Hcs1).
      apply canon_branch in Hc2 as (Hl2 & _ & Hv2 & Hcs2).
      apply list_eq_same_length with BRANCH_CHILD_COUNT; [done..|].
      intros i c1 c2 Hi Hi1 Hi2. rewrite Forall_lookup in IH, Hcs1, Hcs2.
      apply (IH i c1 Hi1); [eauto..|]. intros p Hp.
      destruct (decide (i = BRANCH_VALUE_INDEX)) as [->|Hne].
      * rewrite Hi1 in Hv1. rewrite Hi2 in Hv2.
        destruct p; [|by destruct c1, c2].
        specialize (Heq [] Hp). rewrite !mlookup_branch in Heq. cbn [branch_step fst snd] in Heq.
        by rewrite Hi1, Hi2 in Heq.
      * destruct (child_path_step i p) as [Hn Hst]; [done..|].
        specialize (Heq _ Hn). rewrite !mlookup_branch, Hst in Heq. cbn [fst snd] in Heq.
        by rewrite Hi1, Hi2 in Heq.
Qed.

(** Levels visited below a tree on a path. *)
Fixpoint mdepth (t : mpt) (p : bytes) : nat :=
  S match t with
    | TEmpty => 0
    | TLeaf _ => match p with [] => 0 | _ => 1 end
    | TExt k t => if starts_with p k then mdepth t (drop (length k) p) else 1
    | TBranch cs =>
        match (mdepth <$> cs) !! (branch_step p).1 with
        | Some f => f (branch_step p).2
        | None => 0
        end
    end.

Lemma mdepth_branch cs p c :
  cs !! (branch_step p).1 = Some c → mdepth (TBranch cs) p = S (mdepth c (branch_step p).2).
Proof. intros Hc. cbn [mdepth]. by rewrite list_lookup_fmap, Hc. Qed.

Lemma mdepth_bound t p : canon t → nibbles p → (mdepth t p ≤ length p + 2)%nat.
Proof.
  revert p. induction t as [|v|k t IH|cs IH] using mpt_induction; intros p Hc Hp.
  - cbn. lia.
  - destruct p; cbn; lia.
  - cbn [mdepth]. destruct (starts_with p k) eqn:E; [|lia].
    apply starts_with_spec in E as [r ->]. rewrite drop_app_length, length_app.
    apply canon_ext in Hc as (Hk & _ & _ & Hc). apply nibbles_app in Hp as [_ Hr].
    specialize (IH r Hc Hr). destruct k; [done|]. cbn [length]. lia.
  - apply canon_branch in Hc as (Hl & _ & Hv & Hcs).
    destruct (cs !! (branch_step p).1) as [c|] eqn:Ec.
    2:{ apply lookup_ge_None in Ec. pose proof (branch_step_lt p Hp). lia. }
    rewrite (mdepth_branch cs p c Ec). destruct p as [|b r].
    + cbn [branch_step fst snd] in *. rewrite Ec in Hv. destruct c; cbn; try done; lia.
    + cbn [branch_step fst snd] in *. rewrite Forall_lookup in IH, Hcs.
      apply nibbles_cons in Hp as [_ Hr]. specialize (IH _ _ Ec r (Hcs _ _ Ec) Hr). cbn [length]. lia.
Qed.

(** Results of a deletion at every level of the path. *)
Fixpoint mdelete_trace (t : mpt) (p : bytes) : list mpt :=
  match mdelete t p with Some t' => [t'] | None => [] end ++
  match t with
  | TExt k t => if starts_with p k then mdelete_trace t (drop (length k) p) else []
  | TBranch cs =>
      match (mdelete_trace <$> cs) !! (branch_step p).1 with
      | Some f => f (branch_step p).2
      | None => []
      end
  | _ => []
  end.

Lemma mdelete_trace_branch cs p c :
  cs !! (branch_step p).1 = Some c →
  mdelete_trace (TBranch cs) p =
  match mdelete (TBranch cs) p with Some t' => [t'] | None => [] end ++
  mdelete_trace c (branch_step p).2.
Proof. intros Hc. cbn [mdelete_trace]. by rewrite list_lookup_fmap, Hc. Qed.
