(* ===== verification/MptCacheFacts.v ===== *)
(** * The cache is a reference-counted map

    Whatever its mode, [MptCache] implements one abstract object: a map from
    node hashes to reference-counted rows, the rows of the backing store
    with the pending changes applied ([view]).  Resolution and promotion leave
    the map unchanged, staging increments a count, releasing decrements it,
    and [commit] moves the map to the store. *)
From S2P Require Import Prelude Primitives Io MptNode MptNodeFacts MptCache.
Import NodeType Node NodeCodec.

(** ** Stores *)

(** A store that behaves as a map.  A journal is either declined or resolved
    row by row against the rows already there. *)
Class LawfulStore (St : Type) `{MptStoreSnapshot St} := {
  contents : St → gmap bytes bytes;
  get_contents s k : try_get s k = Ok (contents s !! k);
  put_contents s k v :
    ∃ s', store_put k v s = (s', Ok tt) ∧ contents s' = <[k := v]> (contents s);
  delete_contents s k :
    ∃ s', store_delete k s = (s', Ok tt) ∧ contents s' = delete k (contents s);
  stage_contents s j :
    NoDup (u_key <$> j) →
    (∀ u, u ∈ j → ∃ bs, resolve_bytes u (contents s !! u_key u) = Ok bs) →
    ∃ s' b, stage_unresolved_deferred_journal j s = (s', Ok b) ∧
      if b : bool then
        (∀ u bs, u ∈ j → resolve_bytes u (contents s !! u_key u) = Ok bs →
           contents s' !! u_key u = Some bs) ∧
        (∀ k, k ∉ u_key <$> j → contents s' !! k = contents s !! k)
      else contents s' = contents s;
}.

Section facts.
Context `{Crypto} `{LawfulStore St}.
Implicit Types (c : MptCache St) (h : UInt256.t) (n m : Node.t).

(** ** Rows *)

(** A node in stored form with a positive count. *)
Definition canonical n : Prop := storable n ∧ stored n = n ∧ (1 ≤ reference n)%Z.

Definition row_state n : DeferredNodeState :=
  mkDState (node_type n) (reference n) (payload_bytes n).

Definition good_row h (s : DeferredNodeState) : Prop :=
  ∃ n, canonical n ∧ s = row_state n ∧ h = digest (payload_bytes n).

Lemma canonical_row_iff bs n : canonical_row bs n ↔ canonical n ∧ bs = row n.
Proof. unfold canonical_row, canonical. tauto. Qed.

Lemma decode_row n : storable n → (node_deserialize (Reader.new (row n))).2 = Ok (stored n).
Proof.
  intros Hs. pose proof (reads_row n Hs [] []) as Hrd. rewrite app_nil_r in Hrd.
  simpl in Hrd. change (len []) with 0%N in Hrd. unfold Reader.new. by rewrite Hrd.
Qed.

Lemma row_state_inj n m : canonical n → canonical m → row_state n = row_state m → n = m.
Proof.
  intros (Hn & Hin & _) (Hm & Him & _) E.
  pose proof (f_equal ds_payload E) as Hp. pose proof (f_equal ds_reference E) as Hr.
  cbn [row_state ds_payload ds_reference] in Hp, Hr.
  pose proof (decode_row n Hn) as E1. pose proof (decode_row m Hm) as E2.
  unfold row in E1, E2. rewrite Hr, Hp, E2 in E1. congruence.
Qed.

Lemma array_from_row n :
  canonical n → array_from_payload_parts (node_type n) (reference n) (payload_bytes n) = Ok (row n).
Proof.
  intros ((Hm & _ & Hr & _) & _). unfold array_from_payload_parts, row.
  by rewrite Hm, (proj2 (Z.ltb_ge _ _)) by lia.
Qed.

Lemma array_from_row_owned n :
  canonical n →
  array_from_payload_parts_owned (node_type n) (reference n) (payload_bytes n) = Ok (row n).
Proof.
  intros ((Hm & _ & Hr & _) & _). unfold array_from_payload_parts_owned, row.
  rewrite Hm, (proj2 (Z.ltb_ge _ _)) by lia. by rewrite write_var_int_app.
Qed.

Definition row_of (bs : bytes) : option DeferredNodeState :=
  match split_serialized_reference bs with
  | Ok (ty, r, p) => Some (mkDState ty r p)
  | Err _ => None
  end.

Lemma row_of_row n : storable n → row_of (row n) = Some (row_state n).
Proof. intros Hn. unfold row_of. by rewrite split_row. Qed.

(** ** Abstraction *)

(** The row the backing store holds for [h]. *)
Definition base c h : option DeferredNodeState :=
  contents (store c) !! node_key_bytes (prefix c) h ≫= row_of.

Definition entry_row (e : MptTrackable) : option DeferredNodeState :=
  ty ← t_node_type e;
  Some (mkDState ty (t_reference e)
          match t_payload e with
          | Some p => p
          | None => from_option payload_bytes [] (t_node e)
          end).

(** The journal of [h] applied to a row. *)
Definition jreplay c h (s : option DeferredNodeState) : option DeferredNodeState :=
  match deferred_entries c !! h with
  | Some d =>
      match replay_deferred_operations d s c with
      | Ok s => s
      | Err _ => None
      end
  | None => s
  end.

(** What the cache, journal and store together hold for [h]. *)
Definition view c h : option DeferredNodeState :=
  match entries c !! h with
  | Some e => entry_row e
  | None => jreplay c h (base c h)
  end.

(** ** Invariant *)

(** Equal up to reference count and accounting. *)
Definition like m n : Prop :=
  ∃ r a d, n = with_dirty d (with_accounted a (with_reference r m)).

(** Entry [e] caches node [m]: its payload is known, or the entry was only
    read and the decoded node is there. *)
Record entry_holds h (e : MptTrackable) m : Prop := {
  eh_canonical : canonical m;
  eh_hash : h = digest (payload_bytes m);
  eh_type : t_node_type e = Some (node_type m);
  eh_reference : t_reference e = reference m;
  eh_state : t_state e ≠ TDeleted;
  eh_payload : t_payload e = Some (payload_bytes m) ∨
    t_payload e = None ∧ is_Some (t_node e) ∧ t_state e = TNone;
  eh_node n : t_node e = Some n → like m n;
}.

Record entry_absent (e : MptTrackable) : Prop := {
  ea_type : t_node_type e = None;
  ea_node : t_node e = None;
  ea_payload : t_payload e = None;
  ea_state : t_state e = TNone ∨ t_state e = TDeleted;
}.

Definition entry_ok c h (e : MptTrackable) : Prop :=
  (t_state e = TNone → entry_row e = base c h) ∧
  (entry_absent e ∨ ∃ m, entry_holds h e m).

Definition good_store c : Prop :=
  ∀ h bs, UInt256.wf h → contents (store c) !! node_key_bytes (prefix c) h = Some bs →
    ∃ n, canonical n ∧ bs = row n ∧ h = digest (payload_bytes n).

(** The operations journaled along [ix], each record linked to the next. *)
Fixpoint chain (ops : list DeferredReferenceOperationRecord) (ix : list nat)
    (l : list DeferredReferenceOperation) : Prop :=
  match ix, l with
  | [], [] => True
  | i :: ix', o :: l' => ops !! i = Some (mkOpRecord o (head ix')) ∧ chain ops ix' l'
  | _, _ => False
  end.

Definition replay_all (l : list DeferredReferenceOperation) (s : option DeferredNodeState)
    : option DeferredNodeState :=
  foldl (λ s o, replay_operation o s) s l.

(** [js] gives the positions of each hash's operations. *)
Record journal_ok c (js : gmap UInt256.t (list nat)) : Prop := {
  jo_dom h : is_Some (deferred_entries c !! h) ↔ is_Some (js !! h);
  jo_chain h d ix : deferred_entries c !! h = Some d → js !! h = Some ix →
    NoDup ix ∧ head ix = Some (d_first d) ∧ last ix = Some (d_last d) ∧
    ∃ l, chain (deferred_operations c) ix l;
  jo_disjoint h h' ix ix' i : js !! h = Some ix → js !! h' = Some ix' →
    i ∈ ix → i ∈ ix' → h = h';
}.

Record cache_ok c : Prop := {
  co_store : good_store c;
  co_entries h e : entries c !! h = Some e → UInt256.wf h ∧ entry_ok c h e;
  co_disjoint h : is_Some (entries c !! h) → deferred_entries c !! h = None;
  co_mode : defer_reference_resolution c = false → deferred_entries c = ∅;
  co_journal : ∃ js, journal_ok c js;
  co_deferred h d : deferred_entries c !! h = Some d →
    UInt256.wf h ∧
    ∀ ix l1 l2 s, chain (deferred_operations c) ix (l1 ++ l2) → head ix = Some (d_first d) →
      replay_all l1 (base c h) = Some s → good_row h s;
}.

(** ** The journal *)

Lemma chain_lt ops ix l : chain ops ix l → Forall (λ i, (i < length ops)%nat) ix.
Proof.
  revert l. induction ix as [|i ix IH]; intros [|o l] Hc; try done.
  destruct Hc as [Hi Hc]. constructor; [by eapply lookup_lt_Some|by eapply IH].
Qed.

Lemma NoDup_lt_length (ix : list nat) (k : nat) :
  NoDup ix → Forall (λ i, (i < k)%nat) ix → (length ix ≤ k)%nat.
Proof.
  intros Hnd Hlt. rewrite <-(length_seq k 0). apply submseteq_length, NoDup_submseteq; [done|].
  intros i Hi. rewrite Forall_forall in Hlt. apply elem_of_seq. specialize (Hlt i Hi). lia.
Qed.

Lemma chain_functional ops ix ix' l l' :
  chain ops ix l → chain ops ix' l' → head ix = head ix' → l = l'.
Proof.
  revert ix' l l'. induction ix as [|i ix IH]; intros [|i' ix'] [|o l] [|o' l'] Hc Hc' Hh; try done.
  destruct Hc as [Hi Hc]. destruct Hc' as [Hi' Hc']. simplify_eq/=. f_equal. by eapply IH.
Qed.

Lemma replay_links_chain ops ix l fuel s :
  chain ops ix l → (length ix ≤ fuel)%nat →
  replay_links fuel ops (head ix) s = Ok (replay_all l s).
Proof.
  revert l fuel s. induction ix as [|i ix IH]; intros [|o l] fuel s Hc Hf; try done.
  { by destruct fuel. }
  destruct Hc as [Hi Hc]. destruct fuel as [|fuel]; [simpl in Hf; lia|].
  cbn [replay_links head]. rewrite Hi. cbn [op op_next].
  change (replay_all (o :: l) s) with (replay_all l (replay_operation o s)). apply IH; [done|simpl in Hf; lia].
Qed.

Lemma replay_deferred_chain c js h d ix l s :
  journal_ok c js → deferred_entries c !! h = Some d → js !! h = Some ix →
  chain (deferred_operations c) ix l →
  replay_deferred_operations d s c = Ok (replay_all l s).
Proof.
  intros Hj Hd Hix Hl. destruct (jo_chain _ _ Hj h d ix Hd Hix) as (Hnd & Hhd & _ & _).
  unfold replay_deferred_operations. rewrite <-Hhd. apply replay_links_chain; [done|].
  apply Nat.le_le_succ_r, NoDup_lt_length; [done|]. by eapply chain_lt.
Qed.

Lemma jreplay_chain c js h d ix l s :
  journal_ok c js → deferred_entries c !! h = Some d → js !! h = Some ix →
  chain (deferred_operations c) ix l → jreplay c h s = replay_all l s.
Proof.
  intros Hj Hd Hix Hl. unfold jreplay. by rewrite Hd, (replay_deferred_chain _ _ _ _ _ _ _ Hj Hd Hix Hl).
Qed.

Lemma journal_lookup c js h d :
  journal_ok c js → deferred_entries c !! h = Some d →
  ∃ ix l, js !! h = Some ix ∧ chain (deferred_operations c) ix l.
Proof.
  intros Hj Hd. destruct (proj1 (jo_dom _ _ Hj h)) as [ix Hix]; [by eexists|].
  destruct (jo_chain _ _ Hj h d ix Hd Hix) as (_ & _ & _ & l & Hl). eauto.
Qed.

Lemma replay_ok c h d s :
  (∃ js, journal_ok c js) → deferred_entries c !! h = Some d →
  replay_deferred_operations d s c = Ok (jreplay c h s).
Proof.
  intros [js Hj] Hd. destruct (journal_lookup _ _ _ _ Hj Hd) as (ix & l & Hix & Hl).
  by erewrite jreplay_chain, replay_deferred_chain.
Qed.

Lemma deferred_not_cached c h d :
  cache_ok c → deferred_entries c !! h = Some d → entries c !! h = None.
Proof.
  intros Hc Hd. apply eq_None_not_Some. intros Hs. by rewrite (co_disjoint c Hc h Hs) in Hd.
Qed.

(** Every journaled hash has a good row or none. *)
Lemma deferred_good c h s :
  cache_ok c → is_Some (deferred_entries c !! h) → entries c !! h = None →
  view c h = Some s → UInt256.wf h ∧ good_row h s.
Proof.
  intros Hc [d Hd] Hne Hv. destruct (co_deferred c Hc h d Hd) as [Hw Hg]. split; [done|].
  destruct (co_journal c Hc) as [js Hj]. destruct (journal_lookup _ _ _ _ Hj Hd) as (ix & l & Hix & Hl).
  destruct (jo_chain _ _ Hj h d ix Hd Hix) as (_ & Hhd & _).
  unfold view in Hv. rewrite Hne, (jreplay_chain _ _ _ _ _ _ _ Hj Hd Hix Hl) in Hv.
  apply (Hg ix l []); [by rewrite app_nil_r|done..].
Qed.

Lemma journal_ok_ext c c' :
  deferred_entries c' = deferred_entries c → deferred_operations c' = deferred_operations c →
  (∃ js, journal_ok c js) → ∃ js, journal_ok c' js.
Proof.
  intros He Ho [js [H1' H2' H3']]. exists js. split; [by rewrite He|by rewrite He, Ho|done].
Qed.

(** Records outside the chain may change. *)
Lemma chain_ext ops ops' ix l :
  chain ops ix l → (∀ i, i ∈ ix → ops' !! i = ops !! i) → chain ops' ix l.
Proof.
  revert l. induction ix as [|i ix IH]; intros [|o l] Hc Heq; try done.
  destruct Hc as [Hi Hc]. split; [rewrite Heq by left; done|].
  apply IH; [done|]. intros j Hj. apply Heq. by right.
Qed.

(** Linking a new record after the last one. *)
Lemma chain_snoc ops ix l i o prev :
  chain ops ix l → NoDup ix → last ix = Some i → ops !! i = Some prev →
  chain (<[i := mkOpRecord (op prev) (Some (length ops))]> (ops ++ [mkOpRecord o None]))
    (ix ++ [length ops]) (l ++ [o]).
Proof.
  revert l. induction ix as [|j ix IH]; intros [|o' l] Hc Hnd Hlast Hprev; try done.
  destruct Hc as [Hj Hc]. apply NoDup_cons in Hnd as [Hnj Hnd].
  destruct ix as [|j' ix].
  - destruct l; [|done]. simpl in Hlast. injection Hlast as ->. rewrite Hprev in Hj.
    injection Hj as ->. pose proof (lookup_lt_Some _ _ _ Hprev). cbn [app chain op head]. split_and!; [| |done].
    + rewrite list_lookup_insert_eq; [done|]. rewrite length_app. simpl. lia.
    + rewrite list_lookup_insert_ne by lia. by rewrite lookup_app_r, Nat.sub_diag by lia.
  - cbn [app chain]. split.
    + rewrite list_lookup_insert_ne.
      * rewrite lookup_app_l by (by eapply lookup_lt_Some). by rewrite Hj.
      * intros ->. apply Hnj, last_Some_elem_of. by rewrite last_cons_cons in Hlast.
    + apply IH; done.
Qed.

Lemma chain_lookup ops ix l i : chain ops ix l → i ∈ ix → is_Some (ops !! i).
Proof.
  intros Hc Hi. apply lookup_lt_is_Some. pose proof (chain_lt _ _ _ Hc) as Hlt.
  rewrite Forall_forall in Hlt. by apply Hlt.
Qed.

(** The journal after [append_deferred_operation]. *)
Definition appended c h (o : DeferredReferenceOperation) (js : gmap UInt256.t (list nat))
    : gmap UInt256.t (list nat) :=
  <[h := default [] (js !! h) ++ [length (deferred_operations c)]]> js.

(** Operations of other journals are not touched by the append. *)
Lemma append_other c js h o h' d' ix' l' :
  journal_ok c js → h' ≠ h → deferred_entries c !! h' = Some d' → js !! h' = Some ix' →
  chain (deferred_operations c) ix' l' →
  let c' := (append_deferred_operation h o c).1 in
  deferred_entries c' !! h' = Some d' ∧ chain (deferred_operations c') ix' l'.
Proof.
  intros Hj Hne Hd' Hix' Hl' c'. subst c'. unfold append_deferred_operation.
  assert (∀ i, i ∈ ix' → (i < length (deferred_operations c))%nat) as Hlt.
  { pose proof (chain_lt _ _ _ Hl') as Hlt. by rewrite Forall_forall in Hlt. }
  destruct (deferred_entries c !! h) as [d|] eqn:Hd; cbn [fst deferred_entries deferred_operations set_deferred].
  - split; [by rewrite lookup_insert_ne|].
    destruct (journal_lookup _ _ _ _ Hj Hd) as (ix & l & Hix & Hl).
    destruct (jo_chain _ _ Hj h d ix Hd Hix) as (_ & _ & Hlast & _).
    apply last_Some_elem_of in Hlast.
    destruct (chain_lookup _ _ _ _ Hl Hlast) as [prev Hprev].
    rewrite lookup_app_l, Hprev by (by eapply lookup_lt_Some).
    eapply chain_ext; [exact Hl'|]. intros i Hi.
    rewrite list_lookup_insert_ne.
    + by rewrite lookup_app_l by auto.
    + intros <-. apply Hne. by eapply (jo_disjoint _ _ Hj).
  - split; [by rewrite lookup_insert_ne|]. eapply chain_ext; [exact Hl'|].
    intros i Hi. by rewrite lookup_app_l by auto.
Qed.

(** The operations journaled for [h]. *)
Definition journal_of c h (l : list DeferredReferenceOperation) : Prop :=
  match deferred_entries c !! h with
  | None => l = []
  | Some d => ∃ ix, head ix = Some (d_first d) ∧ chain (deferred_operations c) ix l
  end.

(** The extended chain of the hash appended to. *)
Lemma append_self c js h o :
  journal_ok c js →
  let c' := (append_deferred_operation h o c).1 in
  ∃ d' l, deferred_entries c' !! h = Some d' ∧
    (journal_of c h l ∧ ∀ s, jreplay c h s = replay_all l s) ∧
    NoDup (default [] (js !! h) ++ [length (deferred_operations c)]) ∧
    head (default [] (js !! h) ++ [length (deferred_operations c)]) = Some (d_first d') ∧
    d_last d' = length (deferred_operations c) ∧
    chain (deferred_operations c') (default [] (js !! h) ++ [length (deferred_operations c)])
      (l ++ [o]).
Proof.
  intros Hj c'. subst c'. unfold append_deferred_operation.
  destruct (deferred_entries c !! h) as [d|] eqn:Hd; cbn [fst deferred_entries deferred_operations set_deferred].
  - destruct (journal_lookup _ _ _ _ Hj Hd) as (ix & l & Hix & Hl).
    destruct (jo_chain _ _ Hj h d ix Hd Hix) as (Hnd & Hhd & Hlast & _).
    pose proof (last_Some_elem_of _ _ Hlast) as Hin.
    destruct (chain_lookup _ _ _ _ Hl Hin) as [prev Hprev].
    exists (mkDEntry (d_first d) (length (deferred_operations c))), l.
    rewrite Hix, lookup_app_l, Hprev by (by eapply lookup_lt_Some). cbn [default id].
    split_and!; [by rewrite lookup_insert_eq| |by intros; eapply jreplay_chain| | |done|by apply chain_snoc].
    + unfold journal_of. rewrite Hd. eauto.
    + apply NoDup_app. split_and!; [done| |apply NoDup_singleton].
      intros i Hi ->%list_elem_of_singleton. pose proof (chain_lt _ _ _ Hl) as Hlt.
      rewrite Forall_forall in Hlt. specialize (Hlt _ Hi). lia.
    + by destruct ix.
  - assert (js !! h = None) as ->.
    { apply eq_None_not_Some. rewrite <-(jo_dom _ _ Hj), Hd. by intros [? ?]. }
    exists (mkDEntry (length (deferred_operations c)) (length (deferred_operations c))), [].
    cbn [default app head last]. split_and!; try done.
    + by rewrite lookup_insert_eq.
    + unfold journal_of. by rewrite Hd.
    + intros s. unfold jreplay. by rewrite Hd.
    + apply NoDup_singleton.
    + split; [|done]. by rewrite lookup_app_r, Nat.sub_diag by lia.
Qed.

Lemma eq_comm {A} (x y : A) : x = y ↔ y = x.
Proof. done. Qed.

Lemma append_dom c h o h' :
  is_Some (deferred_entries (append_deferred_operation h o c).1 !! h') ↔
  h' = h ∨ is_Some (deferred_entries c !! h').
Proof.
  unfold append_deferred_operation.
  destruct (deferred_entries c !! h) as [d|] eqn:Hd; cbn [fst deferred_entries set_deferred];
    by rewrite lookup_insert_is_Some', (eq_comm h).
Qed.

Lemma append_journal c js h o :
  journal_ok c js → journal_ok (append_deferred_operation h o c).1 (appended c h o js).
Proof.
  intros Hj. destruct (append_self c js h o Hj) as (d' & l & Hd' & _ & Hnd & Hhd & Hlast & Hl).
  set (c' := (append_deferred_operation h o c).1) in *. unfold appended. split.
  - intros h'. unfold c'. by rewrite append_dom, lookup_insert_is_Some', (eq_comm h), (jo_dom _ _ Hj h').
  - intros h' d ix Hd Hix. destruct (decide (h' = h)) as [->|Hne].
    + rewrite lookup_insert_eq in Hix. injection Hix as <-.
      rewrite Hd in Hd'. injection Hd' as ->. split_and!; [done|done| |by eexists].
      by rewrite last_snoc, Hlast.
    + rewrite lookup_insert_ne in Hix by done.
      destruct (proj2 (jo_dom _ _ Hj h')) as [d0 Hd0]; [by eexists|].
      destruct (jo_chain _ _ Hj h' d0 ix Hd0 Hix) as (H1' & H2' & H3' & l0 & Hl0).
      destruct (append_other c js h o h' d0 ix l0 Hj Hne Hd0 Hix Hl0) as [Hd1 Hl1].
      fold c' in Hd1, Hl1. rewrite Hd in Hd1. injection Hd1 as ->. eauto.
  - assert (∀ h1 ix1 i, js !! h1 = Some ix1 → i ∈ ix1 → (i < length (deferred_operations c))%nat) as Hlt.
    { intros h1 ix1 i Hix1 Hi. destruct (proj2 (jo_dom _ _ Hj h1)) as [d1 Hd1]; [by eexists|].
      destruct (jo_chain _ _ Hj h1 d1 ix1 Hd1 Hix1) as (_ & _ & _ & l1 & Hl1).
      pose proof (chain_lt _ _ _ Hl1) as Hf. rewrite Forall_forall in Hf. by apply Hf. }
    assert (∀ h1 ix1 i, js !! h1 = Some ix1 → i ∈ ix1 →
      i ∈ default [] (js !! h) ++ [length (deferred_operations c)] → h1 = h) as Hnew.
    { intros h1 ix1 i Hix1 Hi Hi'. apply elem_of_app in Hi' as [Hi'|Hi'].
      - destruct (js !! h) as [ix|] eqn:Hix; [|by apply not_elem_of_nil in Hi'].
        by eapply (jo_disjoint _ _ Hj).
      - apply list_elem_of_singleton in Hi' as ->. specialize (Hlt _ _ _ Hix1 Hi). lia. }
    intros h1 h2 ix1 ix2 i Hix1 Hix2 Hi1 Hi2.
    apply lookup_insert_Some in Hix1 as [[<- <-]|[Hne1 Hix1]];
      apply lookup_insert_Some in Hix2 as [[<- <-]|[Hne2 Hix2]]; [done|..].
    + symmetry. eauto.
    + eauto.
    + by eapply (jo_disjoint _ _ Hj).
Qed.

Lemma jreplay_append c js h o h' s :
  journal_ok c js →
  jreplay (append_deferred_operation h o c).1 h' s =
  if bool_decide (h' = h) then replay_operation o (jreplay c h s) else jreplay c h' s.
Proof.
  intros Hj. pose proof (append_journal c js h o Hj) as Hj'.
  case_bool_decide as E.
  - subst h'. destruct (append_self c js h o Hj) as (d' & l & Hd' & [_ Hr] & _ & _ & _ & Hl).
    erewrite (jreplay_chain _ _ _ _ _ _ _ Hj' Hd'); [|apply lookup_insert_eq|exact Hl].
    rewrite Hr. unfold replay_all. by rewrite foldl_app.
  - destruct (deferred_entries c !! h') as [d'|] eqn:Hd'.
    + destruct (journal_lookup _ _ _ _ Hj Hd') as (ix & l & Hix & Hl).
      destruct (append_other c js h o h' d' ix l Hj E Hd' Hix Hl) as [Hd1 Hl1].
      erewrite (jreplay_chain _ _ _ _ _ _ _ Hj' Hd1); [|by unfold appended; rewrite lookup_insert_ne|exact Hl1].
      by erewrite jreplay_chain.
    + unfold jreplay. rewrite Hd'.
      destruct (deferred_entries (append_deferred_operation h o c).1 !! h') eqn:Hd1; [|done].
      exfalso. destruct (proj1 (append_dom c h o h')) as [?|[? ?]]; [by eexists|done|congruence].
Qed.

(** ** Nodes and entries *)

Definition same_modes c c' : Prop :=
  store c' = store c ∧ prefix c' = prefix c ∧
  defer_reference_resolution c' = defer_reference_resolution c ∧
  defer_intermediate_nodes c' = defer_intermediate_nodes c ∧
  export_deferred_journal c' = export_deferred_journal c.

#[global] Instance same_modes_refl : Reflexive same_modes.
Proof. done. Qed.
#[global] Instance same_modes_trans : Transitive same_modes.
Proof. intros c1 c2 c3 (?&?&?&?&?) (?&?&?&?&?). unfold same_modes. split_and!; congruence. Qed.

Lemma base_same_modes c c' h : same_modes c c' → base c' h = base c h.
Proof. intros (Hs & Hp & _). unfold base. by rewrite Hs, Hp. Qed.

Lemma entry_ok_same_modes c c' h e : same_modes c c' → entry_ok c h e → entry_ok c' h e.
Proof. intros Hm [He1 He2]. split; [|done]. by rewrite (base_same_modes c c'). Qed.

Lemma canonical_with_reference m r :
  canonical m → (1 ≤ r < 2 ^ 31)%Z → canonical (with_reference r m).
Proof.
  intros ((Hm & Hok & _ & Hlim) & Hid & _) Hr. split_and!; [| |simpl; lia].
  - split_and!; [done..|simpl; lia|simpl; lia|done].
  - revert Hid. unfold stored. cbn [node_type with_reference reference children key next value].
    destruct (node_type m); try done; intros Hid; exact (f_equal (with_reference r) Hid).
Qed.

Lemma like_refl m : like m m.
Proof. exists (reference m), (accounted_hash m), (dirty m). by destruct m. Qed.

Lemma like_accounted m n h : like m n → like m (set_accounted_hash h n).
Proof. intros (r & a & d & ->). by exists r, (Some h), false. Qed.

Lemma like_reference m n r : like m n → like m (with_reference r n).
Proof. intros (r' & a & d & ->). by exists r, a, d. Qed.

Lemma like_with_reference m n r : like m n → like (with_reference r m) n.
Proof. intros (r' & a & d & ->). by exists r', a, d. Qed.

Lemma like_payload m n : like m n → payload_bytes n = payload_bytes m ∧ node_type n = node_type m.
Proof. by intros (r & a & d & ->). Qed.

Lemma like_node_ok m n : like m n → node_ok m → node_ok n.
Proof. by intros (r & a & d & ->). Qed.

Lemma like_set_accounted m n h :
  like m n → set_accounted_hash h (with_reference (reference m) n) = set_accounted_hash h m.
Proof. by intros (r & a & d & ->). Qed.

Lemma clone_as_child_shape ch : stored_child_shape ch → clone_as_child ch = ch.
Proof. by intros [->|(h & _ & ->)]. Qed.

Lemma clone_canonical m n h :
  canonical m → like m n →
  set_accounted_hash h (clone (with_reference (reference m) n)) = set_accounted_hash h m.
Proof.
  intros (Hs & Hid & _) (r & a & d & ->). destruct (canonical_shapes m Hs Hid) as [Hcs Hnx].
  assert (clone_as_child <$> children m = stored_child <$> children m) as Ecs.
  { clear Hs Hid Hnx. induction Hcs as [|ch cs Hch _ IH]; [done|]. rewrite !fmap_cons, IH.
    by rewrite clone_as_child_shape, (proj2 (stored_child_shape_ok ch Hch)). }
  assert (clone_as_child <$> next m = stored_child <$> next m) as Enx.
  { destruct (next m) as [ch|]; [|done]. simpl. specialize (Hnx ch eq_refl).
    by rewrite clone_as_child_shape, (proj2 (stored_child_shape_ok ch Hnx)). }
  destruct Hs as (Hm & _). revert Hid. unfold stored, clone.
  cbn [node_type with_dirty with_accounted with_reference children next key value reference
       accounted_hash dirty].
  rewrite Ecs, Enx.
  destruct (node_type m); try done; intros Hid; exact (f_equal (set_accounted_hash h) Hid).
Qed.

Lemma good_row_canonical h s m :
  good_row h s → canonical m → s = row_state m → h = digest (payload_bytes m).
Proof.
  intros (n & Hn & -> & ->) Hm E. apply row_state_inj in E as ->; done.
Qed.

Lemma entry_holds_row h e m : entry_holds h e m → entry_row e = Some (row_state m).
Proof.
  intros [Hm Hh Hty Hr Hst Hp Hn]. unfold entry_row, row_state. rewrite Hty, Hr. cbn.
  do 2 f_equal. destruct Hp as [->|(-> & [n Hn'] & _)]; [done|].
  rewrite Hn'. by apply like_payload, Hn.
Qed.

Lemma entry_absent_row e : entry_absent e → entry_row e = None.
Proof. intros [Hty _ _ _]. unfold entry_row. by rewrite Hty. Qed.

Lemma base_ok c h :
  good_store c → UInt256.wf h →
  (base c h = None ∧ load_from_store_snapshot (store c) (prefix c) h = Ok None) ∨
  (∃ n, canonical n ∧ h = digest (payload_bytes n) ∧ base c h = Some (row_state n) ∧
     load_from_store_snapshot (store c) (prefix c) h = Ok (Some (set_accounted_hash h n))).
Proof.
  intros Hg Hw. unfold base, load_from_store_snapshot, try_get_node. rewrite get_contents.
  destruct (contents (store c) !! _) as [bs|] eqn:E; [right|by left].
  destruct (Hg h bs Hw E) as (n & Hn & -> & Hh). exists n.
  assert (Hn' := Hn). destruct Hn' as (Hs & Hid & _). cbn [mbind option_bind Result_bind decode_node].
  rewrite row_of_row, decode_row, Hid by done. done.
Qed.

Lemma base_good c h s :
  good_store c → UInt256.wf h → base c h = Some s → good_row h s.
Proof.
  intros Hg Hw Hb. destruct (base_ok c h Hg Hw) as [[? _]|(n & Hn & Hh & Hb' & _)]; [congruence|].
  exists n. split_and!; [done|congruence|done].
Qed.

Lemma entry_ok_new c h (n : option Node.t) :
  base c h = (row_state <$> n) →
  (∀ m, n = Some m → canonical m ∧ h = digest (payload_bytes m)) →
  entry_ok c h (trackable_new (set_accounted_hash h <$> n)).
Proof.
  intros Hb Hn. unfold entry_ok. rewrite Hb. destruct n as [m|]; cbn.
  2:{ split; [done|]. left. by split; auto. }
  destruct (Hn m eq_refl) as [Hm Hh]. split; [done|]. right. exists m. split; try done.
  - right. split_and!; [done|by eexists|done].
  - intros ? [= <-]. apply like_accounted, like_refl.
Qed.

(** ** Replacing one entry *)

Lemma set_entry_ok c h e :
  cache_ok c → UInt256.wf h → deferred_entries c !! h = None → entry_ok c h e →
  let c' := set_entries (<[h := e]> (entries c)) c in
  cache_ok c' ∧ same_modes c c' ∧
  (∀ h', view c' h' = if bool_decide (h' = h) then entry_row e else view c h').
Proof.
  intros Hc Hw Hd He c'.
  assert (∀ h', view c' h' = if bool_decide (h' = h) then entry_row e else view c h') as Hv.
  { intros h'. unfold view, c'. cbn [entries set_entries]. case_bool_decide as E.
    - subst. by rewrite lookup_insert_eq.
    - by rewrite lookup_insert_ne. }
  split_and!; [|done|done].
  split; [apply Hc| | |apply Hc|by apply (journal_ok_ext c), Hc|].
  - intros h' e' He'. unfold c' in He'. cbn [entries set_entries] in He'.
    apply lookup_insert_Some in He' as [[<- <-]|[_ He']]; [done|by apply (co_entries c Hc)].
  - intros h'. unfold c'. cbn [entries set_entries]. rewrite lookup_insert_is_Some'.
    intros [<-|?]; [done|by apply (co_disjoint c Hc)].
  - apply Hc.
Qed.

(** ** Resolution *)

Lemma drop_journal_ok c h :
  (∃ js, journal_ok c js) →
  let c' := set_deferred (delete h (deferred_entries c)) (deferred_operations c) c in
  (∃ js, journal_ok c' js) ∧
  (∀ h' s, jreplay c' h' s = if bool_decide (h' = h) then s else jreplay c h' s).
Proof.
  intros [js [Hdom Hch Hdj]] c'. split.
  - exists (delete h js). unfold c'. split; cbn [deferred_entries deferred_operations set_deferred].
    + intros h'. rewrite !lookup_delete_is_Some. by rewrite Hdom.
    + intros h' d ix [_ Hd]%lookup_delete_Some [_ Hix]%lookup_delete_Some. eauto.
    + intros h1 h2 ix1 ix2 i [_ Hi1]%lookup_delete_Some [_ Hi2]%lookup_delete_Some. eauto.
  - intros h' s. unfold jreplay, c', replay_deferred_operations.
    cbn [deferred_entries deferred_operations set_deferred]. case_bool_decide as E.
    + subst. by rewrite lookup_delete_eq.
    + by rewrite lookup_delete_ne.
Qed.

Lemma ds_into_node_row n h :
  canonical n → ds_into_node (row_state n) h = Ok (set_accounted_hash h n).
Proof.
  intros Hn. unfold ds_into_node, ds_to_bytes. cbn [row_state ds_node_type ds_reference ds_payload].
  rewrite array_from_row by done. cbn [mbind Result_bind].
  destruct Hn as (Hs & Hid & _). by rewrite decode_row, Hid.
Qed.

Lemma base_state_ok c h :
  good_store c → UInt256.wf h →
  ∃ b, load_from_store_snapshot (store c) (prefix c) h = Ok b ∧
    match b with
    | Some n => s ← ds_from_node n; Ok (Some s)
    | None => Ok None
    end = Ok (base c h) ∧
    (is_Some b ↔ is_Some (base c h)).
Proof.
  intros Hg Hw. destruct (base_ok c h Hg Hw) as [[Hb Hl]|(n & Hn & _ & Hb & Hl)].
  - exists None. rewrite Hb. split_and!; [done..|]. by split; intros [? ?].
  - eexists. split; [exact Hl|]. rewrite Hb. split; [|by split; eexists].
    unfold ds_from_node. rewrite to_array_without_reference_ok; [done|]. apply Hn.
Qed.

(** Moving a journaled hash to the entries does not change the map. *)
Lemma promote_ok c h d :
  cache_ok c → deferred_entries c !! h = Some d →
  ∃ c' e, promote_deferred_entry h c = (c', Ok tt) ∧ cache_ok c' ∧ same_modes c c' ∧
    entries c' !! h = Some e ∧ deferred_entries c' !! h = None ∧
    (∀ h', view c' h' = view c h').
Proof.
  intros Hc Hd. destruct (co_deferred c Hc h d Hd) as [Hw _].
  pose proof (deferred_not_cached c h d Hc Hd) as Hne.
  assert (∀ s, view c h = Some s → good_row h s) as Hgood.
  { intros s Hs. by eapply deferred_good. }
  destruct (base_state_ok c h (co_store c Hc) Hw) as (b & Hl & Hbs & Hbi).
  unfold promote_deferred_entry. rewrite Hd, Hl, Hbs, (replay_ok c h d) by (apply Hc || done).
  assert (view c h = jreplay c h (base c h)) as Hview by (unfold view; by rewrite Hne).
  set (c1 := set_deferred (delete h (deferred_entries c)) (deferred_operations c) c).
  destruct (drop_journal_ok c h (co_journal c Hc)) as [Hj1 Hr1]. fold c1 in Hj1, Hr1.
  assert (∀ h', h' ≠ h → view c1 h' = view c h') as Hv1.
  { intros h' Hne'. unfold view. change (entries c1) with (entries c).
    rewrite Hr1, bool_decide_false by done. done. }
  assert (cache_ok c1) as Hc1.
  { split; [apply Hc|apply Hc| | |done|].
    - intros h' Hs. unfold c1. cbn [deferred_entries set_deferred].
      apply lookup_delete_None. right. by apply (co_disjoint c Hc).
    - intros Hm. unfold c1. cbn [deferred_entries set_deferred].
      by rewrite (co_mode c Hc Hm), delete_empty.
    - intros h' d' Hd'. unfold c1 in Hd'. cbn [deferred_entries set_deferred] in Hd'.
      apply lookup_delete_Some in Hd' as [_ Hd']. exact (co_deferred c Hc h' d' Hd'). }
  assert (deferred_entries c1 !! h = None) as Hd1 by apply lookup_delete_eq.
  assert (∃ e, entry_ok c1 h e ∧ entry_row e = view c h ∧
    match jreplay c h (base c h) with
    | Some s => n ← ds_into_node s h;
        Ok (mkTrackable (Some n) (Some (ds_node_type s)) (ds_reference s) (Some (ds_payload s))
              (if match b with Some _ => true | None => false end then TChanged else TAdded) true)
    | None => Ok (mkTrackable None None 0 None
              (if match b with Some _ => true | None => false end then TDeleted else TNone) true)
    end = Ok e) as (e & He & Hrow & ->).
  { rewrite <-Hview. destruct (view c h) as [s|] eqn:Hs.
    - destruct (Hgood s eq_refl) as (m & Hm & -> & Hh). rewrite ds_into_node_row by done.
      eexists. split; [|split; [|reflexivity]]; [|done]. split.
      + cbn [t_state]. by destruct b.
      + right. exists m. split; cbn; try done; [by destruct b|by left|].
        intros ? [= <-]. apply like_accounted, like_refl.
    - eexists. split; [|split; [|reflexivity]]; [|done]. split; [|by left; split; cbn; destruct b; auto].
      cbn. destruct b as [n|]; [done|]. intros _. symmetry. apply eq_None_not_Some.
      change (base c1 h) with (base c h). rewrite <-Hbi. by intros [? ?]. }
  destruct (set_entry_ok c1 h e Hc1 Hw Hd1 He) as (Hc2 & Hm2 & Hv2).
  eexists _, e. split_and!; [reflexivity|exact Hc2|exact Hm2|apply lookup_insert_eq|exact Hd1|].
  intros h'. etransitivity; [apply Hv2|]. case_bool_decide as E; [by subst|by apply Hv1].
Qed.

(** The entry for [h] is there, the map is unchanged. *)
Definition resolved c h c' (e : MptTrackable) : Prop :=
  cache_ok c' ∧ same_modes c c' ∧ entries c' !! h = Some e ∧ deferred_entries c' !! h = None ∧
  (∀ h', view c' h' = view c h').

Lemma load_entry_ok c h :
  cache_ok c → UInt256.wf h → deferred_entries c !! h = None → entries c !! h = None →
  ∃ n : option Node.t, load_from_store_snapshot (store c) (prefix c) h = Ok n ∧
    resolved c h (set_entries (<[h := trackable_new n]> (entries c)) c) (trackable_new n).
Proof.
  intros Hc Hw Hd Hne.
  assert (∃ n : option Node.t, base c h = (row_state <$> n) ∧
    load_from_store_snapshot (store c) (prefix c) h = Ok (set_accounted_hash h <$> n) ∧
    (∀ m, n = Some m → canonical m ∧ h = digest (payload_bytes m))) as (n & Hb & Hl & Hn).
  { destruct (base_ok c h (co_store c Hc) Hw) as [[Hb Hl]|(n & Hn & Hh & Hb & Hl)].
    - by exists None.
    - exists (Some n). split_and!; [done..|]. by intros ? [= <-]. }
  exists (set_accounted_hash h <$> n). split; [done|].
  pose proof (entry_ok_new c h n Hb Hn) as He.
  destruct (set_entry_ok c h _ Hc Hw Hd He) as (Hc' & Hm & Hv).
  split_and!; [done..|apply lookup_insert_eq|done|].
  intros h'. rewrite Hv. case_bool_decide as E; [|done]. subst h'.
  rewrite (proj1 He) by done. unfold view, jreplay. by rewrite Hne, Hd.
Qed.

Lemma resolve_internal_ok c h :
  cache_ok c → UInt256.wf h →
  ∃ c' e, resolve_internal h c = (c', Ok e) ∧ resolved c h c' e.
Proof.
  intros Hc Hw. unfold resolve_internal.
  destruct (deferred_entries c !! h) as [d|] eqn:Hd.
  - destruct (promote_ok c h d Hc Hd) as (c' & e & -> & Hc' & Hm & He & Hd' & Hv).
    rewrite He. by exists c', e.
  - destruct (entries c !! h) as [e|] eqn:He; [by exists c, e|].
    destruct (load_entry_ok c h Hc Hw Hd He) as (n & -> & Hr). eauto.
Qed.

Lemma resolve_finalized_ok c h :
  cache_ok c → UInt256.wf h → defer_reference_resolution c = false →
  ∃ c' e, resolve_finalized h c = (c', Ok e) ∧ resolved c h c' e.
Proof.
  intros Hc Hw Hm. unfold resolve_finalized.
  assert (deferred_entries c !! h = None) as Hd by (by rewrite (co_mode c Hc Hm)).
  destruct (entries c !! h) as [e|] eqn:He; [by exists c, e|].
  destruct (load_entry_ok c h Hc Hw Hd He) as (n & -> & Hr). eauto.
Qed.

Lemma write_entry_run h e c :
  write_entry h e c = (set_entries (<[h := e]> (entries c)) c, Ok tt).
Proof. done. Qed.

(** Materializing the node of an entry. *)
Lemma resolve_clone_absent e : entry_absent e → resolve_clone e = (e, Ok None).
Proof. intros [Hty _ _ _]. unfold resolve_clone. by rewrite Hty. Qed.

Lemma resolve_clone_holds c h e m :
  entry_ok c h e → entry_holds h e m →
  ∃ e' n, resolve_clone e = (e', Ok (Some (clone (with_reference (reference m) n)))) ∧
    like m n ∧ entry_ok c h e' ∧ entry_row e' = Some (row_state m).
Proof.
  intros [Hb _] He. assert (Her := entry_holds_row _ _ _ He).
  destruct He as [Hm Hh Hty Hr Hst Hp Hn]. unfold resolve_clone. rewrite Hty.
  assert (∃ n, match t_node e with
               | Some n => Ok n
               | None =>
                   match t_payload e with
                   | None => Err InvalidOperation
                   | Some p =>
                       bs ← array_from_payload_parts (node_type m) (t_reference e) p;
                       match (node_deserialize (Reader.new bs)).2 with
                       | Ok n => Ok n
                       | Err err => Err (MIo err)
                       end
                   end
               end = Ok n ∧ like m n) as (n & -> & Hlike).
  { destruct (t_node e) as [n|] eqn:En; [eauto|].
    destruct Hp as [->|(_ & [? ?] & _)]; [|done]. rewrite Hr, array_from_row by done.
    cbn [mbind Result_bind]. destruct Hm as (Hs & Hid & _). rewrite decode_row, Hid by done.
    exists m. split; [done|apply like_refl]. }
  rewrite Hr. eexists _, n. split; [reflexivity|]. split; [done|].
  match goal with |- entry_ok _ _ ?e' ∧ _ => assert (entry_holds h e' m) as He' end.
  { split; cbn; try done.
    - destruct Hp as [?|(? & _ & ?)]; [by left|right]. split_and!; [done|by eexists|done].
    - intros ? [= <-]. by apply like_reference. }
  split; [|by apply (entry_holds_row h)]. split; [|by right; eexists].
  cbn [t_state]. intros HS. rewrite <-(Hb HS), Her. by apply (entry_holds_row h).
Qed.

(** [resolve] reads the map. *)
Lemma resolve_ok c h :
  cache_ok c → UInt256.wf h →
  ∃ c' r, resolve h c = (c', Ok r) ∧ cache_ok c' ∧ same_modes c c' ∧
    (∀ h', view c' h' = view c h') ∧
    match view c h with
    | None => r = None
    | Some s => ∃ m, canonical m ∧ s = row_state m ∧ h = digest (payload_bytes m) ∧
        r = Some (set_accounted_hash h m)
    end.
Proof.
  intros Hc Hw. unfold resolve.
  destruct (resolve_internal_ok c h Hc Hw) as (c1 & e & Hrun & Hc1 & Hm1 & He & Hd1 & Hv1).
  mstep Hrun. destruct (co_entries c1 Hc1 h e He) as [_ Heok].
  assert (view c h = entry_row e) as Hve by (rewrite <-Hv1; unfold view; by rewrite He).
  rewrite Hve. assert (Heok' := Heok). destruct Heok' as [_ [Ha|[m Hm]]].
  - rewrite (resolve_clone_absent e Ha), (entry_absent_row e Ha).
    destruct (set_entry_ok c1 h e Hc1 Hw Hd1 Heok) as (Hc2 & Hm2 & Hv2).
    eexists _, None. split; [reflexivity|]. split_and!; [exact Hc2|by etransitivity| |done].
    intros h'. etransitivity; [apply Hv2|]. case_bool_decide as E; [by subst|by rewrite Hv1].
  - destruct (resolve_clone_holds c1 h e m Heok Hm) as (e' & n & -> & Hlike & Hok' & Hrow').
    rewrite (entry_holds_row h e m Hm) in Hve |- *.
    destruct (set_entry_ok c1 h e' Hc1 Hw Hd1 Hok') as (Hc2 & Hm2 & Hv2).
    eexists _, _. split; [reflexivity|]. split_and!; [exact Hc2|by etransitivity| |].
    + intros h'. etransitivity; [apply Hv2|].
      case_bool_decide as E; [by subst; rewrite Hrow', Hve|by rewrite Hv1].
    + exists m. destruct Hm as [Hcm Hh _ _ _ _ _]. split_and!; [done..|].
      apply (f_equal Some). by apply clone_canonical.
Qed.

(** ** Staging *)

(** Row [v] can take one more reference to node [ty, payload] and becomes
    the row of [m]: no other payload has the hash, no count overflow. *)
Definition put_gives (v : option DeferredNodeState) h (ty : NodeType.t) (payload : bytes) m : Prop :=
  canonical m ∧ h = digest payload ∧ ty = node_type m ∧ payload = payload_bytes m ∧
  match v with
  | None => reference m = 1%Z
  | Some s => ds_node_type s = ty ∧ ds_payload s = payload ∧ reference m = (ds_reference s + 1)%Z
  end.

Lemma put_gives_replay v h ty payload m :
  put_gives v h ty payload m → replay_operation (DPut ty payload) v = Some (row_state m).
Proof.
  intros (((_ & _ & Hr & _) & _ & H1') & _ & -> & -> & Hv). unfold row_state. destruct v as [s|]; cbn.
  - destruct Hv as (-> & -> & Hv). unfold i32_wrapping_add.
    rewrite i32_wrap_id by (unfold i32_range; lia). by rewrite Hv.
  - by rewrite Hv.
Qed.

Lemma stage_payload_ok c h e ty payload m :
  entry_ok c h e → put_gives (entry_row e) h ty payload m →
  entry_ok c h (stage_payload ty payload e) ∧
  entry_row (stage_payload ty payload e) = Some (row_state m).
Proof.
  intros [_ He] Hput. assert (Hput' := Hput).
  destruct Hput' as (Hm & Hh & Hty & Hp & Hv). pose proof (put_gives_replay _ _ _ _ _ Hput) as Hrep.
  assert (entry_holds h (stage_payload ty payload e) m) as Hholds.
  { unfold stage_payload. destruct He as [[Ht Hn Hpl Hs]|[m0 Hm0]].
    - assert (entry_row e = None) as Er by (unfold entry_row; by rewrite Ht). rewrite Er in Hv.
      rewrite Ht, Hn. by split; cbn; try done; [congruence|congruence|left; congruence].
    - rewrite (entry_holds_row h e m0 Hm0) in Hv, Hrep. destruct Hm0 as [Hcm Hh0 Ht Hr Hs Hpl Hn].
      rewrite Ht, Hr. destruct Hv as (Hv1 & Hv2 & Hv3). cbn [row_state ds_node_type ds_payload ds_reference] in Hv1, Hv2, Hv3.
      apply (f_equal (from_option ds_reference 0%Z)) in Hrep. cbn in Hrep.
      split; cbn; try done; [congruence|congruence|left; congruence|].
      intros n Hn'. destruct (t_node e) as [n0|] eqn:En; [|done]. injection Hn' as <-.
      assert (m = with_reference (reference m) m0) as ->.
      { apply row_state_inj; [done| |].
        - apply canonical_with_reference; [done|]. destruct Hm as ((_ & _ & ? & _) & _ & ?). lia.
        - unfold row_state. change (payload_bytes (with_reference _ m0)) with (payload_bytes m0).
          cbn [node_type reference with_reference]. congruence. }
      apply like_reference, like_with_reference. by apply Hn. }
  split; [|by apply (entry_holds_row h)]. split; [|by right; eexists].
  unfold stage_payload. by destruct (t_node_type e).
Qed.

(** The map with one more reference to [m]'s node under [h]. *)
Definition putted c h m c' : Prop :=
  cache_ok c' ∧ same_modes c c' ∧
  (∀ h', view c' h' = if bool_decide (h' = h) then Some (row_state m) else view c h').

Lemma putted_wf c h ty payload m :
  put_gives (view c h) h ty payload m → UInt256.wf h.
Proof. intros (_ & -> & _). apply digest_wf. Qed.

Lemma put_node_with_payload_ok c h ty payload m :
  cache_ok c → defer_reference_resolution c = false → put_gives (view c h) h ty payload m →
  ∃ c', put_node_with_payload None ty h payload c = (c', Ok tt) ∧ putted c h m c'.
Proof.
  intros Hc Hmode Hput. assert (Hw := putted_wf _ _ _ _ _ Hput). unfold put_node_with_payload.
  destruct (resolve_finalized_ok c h Hc Hw Hmode) as (c1 & e & Hrun & Hc1 & Hm1 & He & Hd1 & Hv1).
  mstep Hrun. destruct (co_entries c1 Hc1 h e He) as [_ Heok].
  assert (view c h = entry_row e) as Hve by (rewrite <-Hv1; unfold view; by rewrite He).
  rewrite Hve in Hput. destruct (stage_payload_ok c1 h e ty payload m Heok Hput) as [Hok Hrow].
  destruct (set_entry_ok c1 h _ Hc1 Hw Hd1 Hok) as (Hc2 & Hm2 & Hv2).
  eexists. split; [reflexivity|]. split_and!; [exact Hc2|by etransitivity|].
  intros h'. etransitivity; [apply Hv2|]. rewrite Hrow, Hv1. done.
Qed.

Lemma append_ok c h o :
  cache_ok c → UInt256.wf h → entries c !! h = None → defer_reference_resolution c = true →
  (∀ s, replay_operation o (view c h) = Some s → good_row h s) →
  let c' := (append_deferred_operation h o c).1 in
  cache_ok c' ∧ same_modes c c' ∧
  (∀ h', view c' h' = if bool_decide (h' = h) then replay_operation o (view c h) else view c h').
Proof.
  intros Hc Hw Hne Hmode Hgood c'. destruct (co_journal c Hc) as [js Hj].
  assert (same_modes c c' ∧ entries c' = entries c) as [Hm He].
  { unfold c', append_deferred_operation. by destruct (deferred_entries c !! h). }
  assert (∀ h', view c' h' =
    if bool_decide (h' = h) then replay_operation o (view c h) else view c h') as Hv.
  { intros h'. unfold view. rewrite He, (base_same_modes c c') by done.
    unfold c'. rewrite (jreplay_append c js) by done.
    case_bool_decide as E; [subst h'; by rewrite Hne|done]. }
  split_and!; [|done|done]. split.
  - intros h' bs. destruct Hm as (-> & -> & _). apply Hc.
  - intros h' e. rewrite He. intros Hl. destruct (co_entries c Hc h' e Hl) as [? Hok].
    split; [done|]. by eapply entry_ok_same_modes.
  - intros h'. rewrite He. intros Hs. apply eq_None_not_Some. unfold c'. rewrite append_dom.
    intros [->|Hs']; [rewrite Hne in Hs; by destruct Hs|].
    rewrite (co_disjoint c Hc h' Hs) in Hs'. by destruct Hs'.
  - destruct Hm as (_ & _ & -> & _). by rewrite Hmode.
  - eexists. by apply append_journal.
  - intros h' d' Hd'. rewrite (base_same_modes c c') by done. destruct (decide (h' = h)) as [->|Hne'].
    + split; [done|]. intros ix l1 l2 s Hl Hhd. clear Hm He Hv.
      destruct (append_self c js h o Hj) as (d0 & l & Hd0 & [Hjo Hr] & _ & Hhd0 & _ & Hl0).
      fold c' in Hd0, Hl0. rewrite Hd' in Hd0. injection Hd0 as <-.
      pose proof (chain_functional _ _ _ _ _ Hl Hl0 ltac:(congruence)) as E.
      destruct (decide (l2 = [])) as [->|Hl2].
      * rewrite app_nil_r in E. subst l1. unfold replay_all. rewrite foldl_app. cbn.
        intros Hs. apply Hgood. unfold view. by rewrite Hne, Hr.
      * destruct (exists_last Hl2) as (l2' & o' & ->). rewrite app_assoc in E.
        apply app_inj_tail in E as [<- <-]. intros Hs.
        unfold journal_of in Hjo. destruct (deferred_entries c !! h) as [d|] eqn:Hd.
        -- destruct (co_deferred c Hc h d Hd) as [_ Hg]. destruct Hjo as (ix0 & Hhd' & Hl0').
           by eapply Hg.
        -- apply app_eq_nil in Hjo as [-> _]. by eapply base_good; [apply Hc|..].
    + assert (is_Some (deferred_entries c !! h')) as [d Hd].
      { destruct (proj1 (append_dom c h o h')) as [?|?]; [by eexists|done|done]. }
      destruct (co_deferred c Hc h' d Hd) as [Hw' Hg]. split; [done|].
      destruct (journal_lookup _ _ _ _ Hj Hd) as (ix0 & l0 & Hix0 & Hl0).
      destruct (append_other c js h o h' d ix0 l0 Hj Hne' Hd Hix0 Hl0) as [Hd1 Hl1].
      fold c' in Hd1, Hl1. rewrite Hd' in Hd1. injection Hd1 as <-.
      destruct (jo_chain _ _ Hj h' d' ix0 Hd Hix0) as (_ & Hhd' & _).
      intros ix l1 l2 s Hl Hhd Hs.
      pose proof (chain_functional _ _ _ _ _ Hl Hl1 ltac:(congruence)) as <-. by eapply Hg.
Qed.

Lemma defer_prepared_node_ok c p m :
  cache_ok c → defer_reference_resolution c = true →
  put_gives (view c (p_hash p)) (p_hash p) (p_node_type p) (p_payload p) m →
  putted c (p_hash p) m (defer_prepared_node p c).
Proof.
  intros Hc Hmode Hput. assert (Hw := putted_wf _ _ _ _ _ Hput).
  unfold defer_prepared_node. destruct (entries c !! p_hash p) as [e|] eqn:He.
  - destruct (co_entries c Hc _ e He) as [_ Heok].
    assert (view c (p_hash p) = entry_row e) as Hve by (unfold view; by rewrite He).
    rewrite Hve in Hput. destruct (stage_payload_ok c _ e _ _ m Heok Hput) as [Hok Hrow].
    assert (deferred_entries c !! p_hash p = None) as Hd by (apply (co_disjoint c Hc); by eexists).
    destruct (set_entry_ok c _ _ Hc Hw Hd Hok) as (Hc2 & Hm2 & Hv2).
    split_and!; [exact Hc2|done|]. intros h'. etransitivity; [apply Hv2|]. by rewrite Hrow.
  - pose proof (put_gives_replay _ _ _ _ _ Hput) as Hrep.
    destruct (append_ok c (p_hash p) (DPut (p_node_type p) (p_payload p)) Hc Hw He Hmode)
      as (Hc2 & Hm2 & Hv2).
    { rewrite Hrep. intros s [= <-]. exists m. destruct Hput as (? & Hh & ? & Hp & ?).
      split_and!; [done..|]. by rewrite Hh, Hp. }
    split_and!; [done..|]. intros h'. by rewrite Hv2, Hrep.
Qed.

(** ** Releasing *)

(** An entry after one release that leaves references. *)
Definition decremented (e : MptTrackable) m : MptTrackable :=
  mkTrackable (with_reference (reference m - 1) <$> t_node e) (Some (node_type m))
    (reference m - 1) (Some (payload_bytes m)) TChanged (t_produced e).

Lemma decremented_holds h e m :
  entry_holds h e m → (1 < reference m)%Z →
  entry_holds h (decremented e m) (with_reference (reference m - 1) m).
Proof.
  intros [Hcm Hh Ht Hr Hs Hpl Hn] Hgt. split; cbn; try done.
  - apply canonical_with_reference; [done|]. destruct Hcm as ((_ & _ & ? & _) & _). lia.
  - by left.
  - intros n Hn'. destruct (t_node e) as [n0|] eqn:En; [|done]. injection Hn' as <-.
    apply like_reference, like_with_reference. by apply Hn.
Qed.

Lemma good_row_deleted h s s' :
  good_row h s → replay_operation DDelete (Some s) = Some s' → good_row h s'.
Proof.
  intros (m & Hm & -> & Hh). cbn. destruct (1 <? reference m)%Z eqn:E; [|done].
  apply Z.ltb_lt in E. intros [= <-]. exists (with_reference (reference m - 1) m).
  split_and!; [|done..]. apply canonical_with_reference; [done|].
  destruct Hm as ((_ & _ & ? & _) & _). lia.
Qed.

Lemma delete_node_ok c h :
  cache_ok c → UInt256.wf h →
  ∃ c', delete_node h c = (c', Ok tt) ∧ cache_ok c' ∧ same_modes c c' ∧
    (∀ h', view c' h' = if bool_decide (h' = h) then replay_operation DDelete (view c h)
                        else view c h').
Proof.
  intros Hc Hw. unfold delete_node.
  destruct (defer_reference_resolution c && bool_decide (is_Some (deferred_entries c !! h))) eqn:E.
  - apply andb_true_iff in E as [Hmode Hd%bool_decide_eq_true].
    assert (entries c !! h = None) as Hne by (destruct Hd as [d Hd]; by eapply deferred_not_cached).
    destruct (append_ok c h DDelete Hc Hw Hne Hmode) as (Hc2 & Hm2 & Hv2); [|by eexists].
    intros s' Hs'. destruct (view c h) as [s|] eqn:Hs; [|done].
    eapply good_row_deleted; [by eapply deferred_good|done].
  - clear E. destruct (resolve_internal_ok c h Hc Hw) as (c1 & e & -> & Hc1 & Hm1 & He & Hd1 & Hv1).
    destruct (co_entries c1 Hc1 h e He) as [_ Heok].
    assert (view c h = entry_row e) as Hve by (rewrite <-Hv1; unfold view; by rewrite He).
    assert (∀ e', entry_ok c1 h e' → entry_row e' = replay_operation DDelete (view c h) →
      let c' := set_entries (<[h := e']> (entries c1)) c1 in
      cache_ok c' ∧ same_modes c c' ∧
      (∀ h', view c' h' = if bool_decide (h' = h) then replay_operation DDelete (view c h)
                          else view c h')) as Hset.
    { intros e' Hok' Hrow'. destruct (set_entry_ok c1 h e' Hc1 Hw Hd1 Hok') as (Hc2 & Hm2 & Hv2).
      split_and!; [done|by etransitivity|]. intros h'. by rewrite Hv2, Hrow', Hv1. }
    assert (Heok' := Heok). destruct Heok' as [_ [Ha|[m Hm]]].
    + rewrite (ea_type e Ha). exists c1. split_and!; try done.
      intros h'. rewrite Hv1. case_bool_decide as E'; [|done]. subst h'.
      rewrite Hve, (entry_absent_row e Ha). done.
    + rewrite Hve, (entry_holds_row h e m Hm) in Hset |- *.
      assert (Hm' := Hm). destruct Hm' as [Hcm Hh Ht Hr Hs Hpl Hn]. rewrite Ht, Hr.
      cbn [replay_operation row_state ds_reference ds_node_type ds_payload] in Hset |- *.
      destruct (1 <? reference m)%Z eqn:E1.
      * apply Z.ltb_lt in E1.
        pose proof (decremented_holds h e m Hm E1) as Hh'. set (e1 := decremented e m) in Hh'.
        exists (set_entries (<[h := e1]> (entries c1)) c1).
        split; [|apply Hset; [split; [done|by right; eexists]|exact (entry_holds_row h e1 _ Hh')]].
        unfold e1, decremented. destruct (t_payload e) as [p|] eqn:Ep.
        { destruct Hpl as [[= ->]|(? & _)]; done. }
        destruct Hpl as [?|(_ & [n En] & _)]; [done|]. rewrite En.
        rewrite to_array_without_reference_ok by (eapply like_node_ok; [by apply Hn|apply Hcm]).
        by destruct (like_payload m n (Hn n En)) as [-> _].
      * eexists. split; [reflexivity|]. apply Hset; [|done]. split; [done|]. left. by split; auto.
Qed.
End facts.
