(* ===== verification/MptCommitFacts.v ===== *)
(** * Finalization and commit of the cache

    Batched finalization stages its nodes one by one; [commit] writes to the
    store exactly the map that the cache held, through the classic overlay or
    through an exported journal. *)
From S2P Require Import Prelude Primitives Order Io MptNode MptNodeFacts MptCache MptCacheFacts.
Import NodeType Node NodeCodec.

Section commit.
Context `{Crypto} `{LawfulStore St}.
Implicit Types (c : MptCache St) (h : UInt256.t) (m : Node.t).

(** ** Batched finalization *)

(** Staging [ps] one after the other turns the map [v] into [v']. *)
Fixpoint puts_give (v : UInt256.t → option DeferredNodeState)
    (ps : list PendingNodeFinalization) (v' : UInt256.t → option DeferredNodeState) : Prop :=
  match ps with
  | [] => ∀ h, v' h = v h
  | p :: ps =>
      ∃ m, put_gives (v (p_hash p)) (p_hash p) (p_node_type p) (p_payload p) m ∧
        puts_give (λ h, if bool_decide (h = p_hash p) then Some (row_state m) else v h) ps v'
  end.

Lemma puts_give_ext v1 v2 ps v' :
  (∀ h, v1 h = v2 h) → puts_give v1 ps v' → puts_give v2 ps v'.
Proof.
  revert v1 v2. induction ps as [|p ps IH]; intros v1 v2 Heq; cbn [puts_give].
  - intros Hv h. by rewrite Hv, Heq.
  - intros (m & Hp & Hps). exists m. rewrite <-Heq. split; [done|].
    eapply IH; [|exact Hps]. intros h. cbn. by rewrite Heq.
Qed.

Lemma puts_give_wf v ps v' : puts_give v ps v' → Forall (λ p, UInt256.wf (p_hash p)) ps.
Proof.
  revert v. induction ps as [|p ps IH]; intros v Hp; constructor.
  - destruct Hp as (m & (_ & -> & _) & _). apply digest_wf.
  - destruct Hp as (m & _ & Hps). eauto.
Qed.

Lemma defer_prepared_nodes_ok c ps v' :
  cache_ok c → defer_reference_resolution c = true → puts_give (view c) ps v' →
  cache_ok (defer_prepared_nodes ps c) ∧ same_modes c (defer_prepared_nodes ps c) ∧
  (∀ h, view (defer_prepared_nodes ps c) h = v' h).
Proof.
  unfold defer_prepared_nodes. revert c.
  induction ps as [|p ps IH]; intros c Hc Hm Hp; cbn [foldl puts_give] in *.
  { split_and!; [done..|]. intros h. by rewrite Hp. }
  destruct Hp as (m & Hput & Hps).
  destruct (defer_prepared_node_ok c p m Hc Hm Hput) as (Hc1 & Hm1 & Hv1).
  destruct (IH (defer_prepared_node p c)) as (Hc2 & Hm2 & Hv2); [done| | |].
  - destruct Hm1 as (_ & _ & -> & _). done.
  - eapply puts_give_ext; [|exact Hps]. intros h. by rewrite Hv1.
  - split_and!; [done|by etransitivity|done].
Qed.

(** Rows loaded for hashes that are not cached leave the map unchanged. *)
Definition loaded (l : list (UInt256.t * option Node.t)) : list (UInt256.t * MptTrackable) :=
  (λ hn, (hn.1, trackable_new (set_accounted_hash hn.1 <$> hn.2))) <$> l.

Definition insert_all (es : list (UInt256.t * MptTrackable)) (es0 : gmap UInt256.t MptTrackable)
    : gmap UInt256.t MptTrackable :=
  foldl (λ (m : gmap UInt256.t MptTrackable) '(h, e), <[h := e]> m) es0 es.

(** [n] is what the store decodes for [h]. *)
Definition decodes c h (n : option Node.t) : Prop :=
  base c h = (row_state <$> n) ∧ ∀ m, n = Some m → canonical m ∧ h = digest (payload_bytes m).

Lemma try_get_node_ok c h :
  good_store c → UInt256.wf h →
  ∃ n, try_get_node (store c) (node_key_bytes (prefix c) h) = Ok n ∧ decodes c h n.
Proof.
  intros Hg Hw. unfold decodes, base, try_get_node. rewrite get_contents.
  destruct (contents (store c) !! _) as [bs|] eqn:E; [|by exists None].
  destruct (Hg h bs Hw E) as (n & Hn & -> & Hh). exists (Some n).
  assert (Hn' := Hn). destruct Hn' as (Hs & Hid & _). cbn [mbind option_bind Result_bind decode_node].
  rewrite row_of_row, decode_row, Hid by done. split_and!; [done..|]. by intros ? [= <-].
Qed.

Lemma try_get_nodes_ok c hs :
  good_store c → Forall UInt256.wf hs →
  ∃ ns, try_get_nodes_with_source (store c) (node_key_bytes (prefix c) <$> hs) = Ok ns ∧
    Forall2 (decodes c) hs ns.
Proof.
  intros Hg. induction 1 as [|h hs Hw Hws IH]; [by exists []|].
  destruct (try_get_node_ok c h Hg Hw) as (n & Hn & Hd). destruct IH as (ns & Hns & Hds).
  exists (n :: ns). rewrite fmap_cons. cbn [try_get_nodes_with_source]. rewrite Hn. cbn [mbind Result_bind].
  rewrite Hns. split; [done|by constructor].
Qed.

Lemma insert_all_ok c hs ns :
  cache_ok c → deferred_entries c = ∅ → Forall UInt256.wf hs → Forall2 (decodes c) hs ns →
  NoDup hs → (∀ h, h ∈ hs → entries c !! h = None) →
  let c' := set_entries (insert_all (loaded (zip hs ns)) (entries c)) c in
  cache_ok c' ∧ same_modes c c' ∧ (∀ h, view c' h = view c h) ∧
  (∀ h, is_Some (entries c !! h) ∨ h ∈ hs → is_Some (entries c' !! h)).
Proof.
  intros Hc Hd Hws Hds Hnd Hne. revert c Hc Hd Hne Hds.
  revert ns. induction Hws as [|h hs Hw Hws IH]; intros ns c Hc Hd Hne Hds.
  { inversion Hds; subst. unfold insert_all. cbn.
    assert (set_entries (entries c) c = c) as -> by (by destruct c).
    split_and!; [done..|]. intros h [?|?%not_elem_of_nil]; done. }
  inversion Hds as [|? n ? ns' Hdn Hdns]; subst. apply NoDup_cons in Hnd as [Hnh Hnd].
  unfold insert_all, loaded. cbn [zip zip_with fmap list_fmap foldl fst snd].
  set (e := trackable_new (set_accounted_hash h <$> n)).
  assert (entry_ok c h e) as He by (destruct Hdn; by apply entry_ok_new).
  destruct (set_entry_ok c h e Hc Hw) as (Hc1 & Hm1 & Hv1); [by rewrite Hd|done|].
  set (c1 := set_entries (<[h := e]> (entries c)) c) in *.
  destruct (IH Hnd ns' c1) as (Hc2 & Hm2 & Hv2 & Hs2); [done|done| |done|].
  { intros h' Hin. unfold c1. cbn [entries set_entries].
    rewrite lookup_insert_ne by (by intros ->). apply Hne. by right. }
  split_and!; [done|by etransitivity| |].
  - intros h'. etransitivity; [apply Hv2|]. rewrite Hv1. case_bool_decide as E; [|done]. subst h'.
    rewrite (proj1 He) by done. unfold view, jreplay. rewrite Hne by left. by rewrite Hd, lookup_empty.
  - intros h' Hh'. apply Hs2. unfold c1. cbn [entries set_entries].
    rewrite lookup_insert_is_Some'. destruct Hh' as [?|[->|?]%elem_of_cons]; auto.
Qed.

Lemma missing_hashes_spec seen ps c :
  NoDup (missing_hashes seen ps c) ∧
  (∀ h, h ∈ missing_hashes seen ps c → entries c !! h = None ∧ h ∉ seen ∧ ∃ p, p ∈ ps ∧ h = p_hash p) ∧
  (∀ p, p ∈ ps → is_Some (entries c !! p_hash p) ∨ p_hash p ∈ seen ∨
     p_hash p ∈ missing_hashes seen ps c).
Proof.
  revert seen. induction ps as [|p ps IH]; intros seen; cbn [missing_hashes].
  { split_and!; [constructor|by intros ? ?%not_elem_of_nil|by intros ? ?%not_elem_of_nil]. }
  case_bool_decide as E.
  - destruct (IH seen) as (Hnd & H1' & H2'). split_and!; [done| |].
    + intros h Hh. destruct (H1' h Hh) as (? & ? & p' & ? & ->). split_and!; [done..|].
      exists p'. split; [by right|done].
    + intros p' [->|Hp']%elem_of_cons; [tauto|auto].
  - destruct (IH ({[p_hash p]} ∪ seen)) as (Hnd & H1' & H2'). split_and!.
    + constructor; [|done]. intros Hin. destruct (H1' _ Hin) as (_ & Hns & _). set_solver.
    + intros h [->|Hh]%elem_of_cons.
      * split_and!; [|tauto|exists p; split; [left|done]]. apply eq_None_not_Some. tauto.
      * destruct (H1' h Hh) as (? & ? & p' & ? & ->). split_and!; [done|set_solver|].
        exists p'. split; [by right|done].
    + intros p' [->|Hp']%elem_of_cons; [right; right; left|].
      destruct (H2' p' Hp') as [?|[?|?]]; [auto| |right; right; by right].
      destruct (decide (p_hash p' = p_hash p)) as [->|]; [right; right; left|set_solver].
Qed.

(** The staging loop, once every hash is cached. *)
Definition stage_cached (p : PendingNodeFinalization) : M (MptCache St) MptError unit := λ c,
  match entries c !! p_hash p with
  | None => (c, Err InvalidOperation)
  | Some e =>
      (set_entries (<[p_hash p := stage_payload (p_node_type p) (p_payload p) e]> (entries c)) c,
       Ok tt)
  end.

Lemma stage_cached_ok c ps v' :
  cache_ok c → (∀ p, p ∈ ps → is_Some (entries c !! p_hash p)) → puts_give (view c) ps v' →
  ∃ c', for_each stage_cached ps c = (c', Ok tt) ∧ cache_ok c' ∧ same_modes c c' ∧
    (∀ h, view c' h = v' h).
Proof.
  revert c. induction ps as [|p ps IH]; intros c Hc Hin Hp; cbn [for_each puts_give] in *.
  { exists c. split_and!; [done..|]. intros h. by rewrite Hp. }
  destruct Hp as (m & Hput & Hps). destruct (Hin p) as [e He]; [left|].
  destruct (co_entries c Hc _ e He) as [Hw Heok].
  assert (view c (p_hash p) = entry_row e) as Hve by (unfold view; by rewrite He).
  rewrite Hve in Hput. destruct (stage_payload_ok c _ e _ _ m Heok Hput) as [Hok Hrow].
  assert (deferred_entries c !! p_hash p = None) as Hd by (apply (co_disjoint c Hc); by eexists).
  destruct (set_entry_ok c _ _ Hc Hw Hd Hok) as (Hc1 & Hm1 & Hv1).
  set (c1 := set_entries (<[p_hash p := _]> (entries c)) c) in *.
  destruct (IH c1) as (c2 & Hrun & Hc2 & Hm2 & Hv2); [done| | |].
  - intros p' Hp'. unfold c1. cbn [entries set_entries]. rewrite lookup_insert_is_Some'.
    right. apply Hin. by right.
  - eapply puts_give_ext; [|exact Hps]. intros h. rewrite Hv1, Hrow. done.
  - exists c2. split_and!; [|done|by etransitivity|done].
    erewrite mbind_ok; [exact Hrun|]. unfold stage_cached. by rewrite He.
Qed.

Lemma finalize_prepared_nodes_ok c ps v' :
  cache_ok c → puts_give (view c) ps v' →
  ∃ c', finalize_prepared_nodes ps c = (c', Ok tt) ∧ cache_ok c' ∧ same_modes c c' ∧
    (∀ h, view c' h = v' h).
Proof.
  intros Hc Hps. unfold finalize_prepared_nodes.
  destruct (defer_reference_resolution c) eqn:Hm.
  { destruct (defer_prepared_nodes_ok c ps v' Hc Hm Hps) as (? & ? & ?). by eexists. }
  pose proof (co_mode c Hc Hm) as Hd. pose proof (puts_give_wf _ _ _ Hps) as Hwf.
  destruct (missing_hashes_spec ∅ ps c) as (Hnd & Hmiss & Hcov).
  set (missing := sort_by_key UInt256.to_array (missing_hashes ∅ ps c)).
  assert (missing ≡ₚ missing_hashes ∅ ps c) as Hperm by apply merge_sort_Permutation.
  assert (Forall UInt256.wf missing) as Hwm.
  { rewrite Hperm. apply Forall_forall. intros h Hh. destruct (Hmiss h Hh) as (_ & _ & p & Hp & ->).
    rewrite Forall_forall in Hwf. by apply Hwf. }
  destruct (try_get_nodes_ok c missing (co_store c Hc) Hwm) as (ns & -> & Hds).
  rewrite bool_decide_false by (intros Hne; apply Hne; symmetry; by eapply Forall2_length).
  destruct (insert_all_ok c missing ns Hc Hd Hwm Hds) as (Hc1 & Hm1 & Hv1 & Hs1).
  { by rewrite Hperm. }
  { intros h. rewrite Hperm. intros Hh. by apply Hmiss. }
  assert (∀ hs (ns : list (option Node.t)),
    zip_with (λ h n, (h, trackable_new (set_accounted_hash h <$> n))) hs ns = loaded (zip hs ns)) as ->.
  { clear. induction hs as [|h hs IH]; intros [|n ns]; cbn; [done..|]. by rewrite IH. }
  destruct (stage_cached_ok _ ps v' Hc1) as (c2 & Hrun & Hc2 & Hm2 & Hv2).
  - intros p Hp. apply Hs1. rewrite Hperm.
    destruct (Hcov p Hp) as [?|[?|?]]; [by left|set_solver|by right].
  - eapply puts_give_ext; [|exact Hps]. intros h. by rewrite Hv1.
  - exists c2. split_and!; [exact Hrun|done|by etransitivity|done].
Qed.

(** ** Checkpoint *)

Lemma checkpoint_ok c :
  cache_ok c →
  cache_ok (checkpoint_entries c) ∧ same_modes c (checkpoint_entries c) ∧
  (∀ h, view (checkpoint_entries c) h = view c h).
Proof.
  intros Hc. split_and!; [|done|].
  - split; [apply Hc| | |apply Hc|by apply (journal_ok_ext c), Hc|apply Hc];
      unfold checkpoint_entries; cbn [entries set_entries deferred_entries].
    + intros h e He. rewrite lookup_fmap in He. destruct (entries c !! h) as [e0|] eqn:E; [|done].
      injection He as <-. destruct (co_entries c Hc h e0 E) as [Hw [Hb He]]. split; [done|].
      split; [exact Hb|]. destruct He as [[? ? ? ?]|[m [? ? ? ? ? ? ?]]]; [left|right; exists m];
        by split.
    + intros h. rewrite lookup_fmap. intros [e He]. apply (co_disjoint c Hc).
      destruct (entries c !! h); [by eexists|done].
  - intros h. unfold view, checkpoint_entries. cbn [entries set_entries]. rewrite lookup_fmap.
    by destruct (entries c !! h).
Qed.

(** ** Commit *)

Lemma view_good c h s : cache_ok c → UInt256.wf h → view c h = Some s → good_row h s.
Proof.
  intros Hc Hw Hv. destruct (entries c !! h) as [e|] eqn:He.
  - unfold view in Hv. rewrite He in Hv. destruct (co_entries c Hc h e He) as [_ [_ [Ha|[m Hm]]]].
    + by rewrite (entry_absent_row e Ha) in Hv.
    + rewrite (entry_holds_row h e m Hm) in Hv. injection Hv as <-.
      destruct Hm as [Hcm Hh _ _ _ _ _]. by exists m.
  - destruct (deferred_entries c !! h) as [d|] eqn:Hd.
    + by eapply deferred_good; [|by eexists|..].
    + unfold view, jreplay in Hv. rewrite He, Hd in Hv. by eapply base_good; [apply Hc|..].
Qed.

(** The bytes of a row. *)
Definition row_bytes (s : option DeferredNodeState) : option bytes :=
  s ≫= λ s, match array_from_payload_parts (ds_node_type s) (ds_reference s) (ds_payload s) with
            | Ok bs => Some bs
            | Err _ => None
            end.

Lemma row_bytes_state m : canonical m → row_bytes (Some (row_state m)) = Some (row m).
Proof. intros Hm. unfold row_bytes. cbn [mbind option_bind row_state ds_node_type ds_reference ds_payload].
  by rewrite array_from_row. Qed.

Lemma node_key_inj p h h' :
  UInt256.wf h → UInt256.wf h' → node_key_bytes p h = node_key_bytes p h' → h = h'.
Proof. intros Hw Hw' E. apply (f_equal tail) in E. by apply UInt256Facts.to_array_inj in E. Qed.

Lemma contents_base c h :
  good_store c → UInt256.wf h →
  contents (store c) !! node_key_bytes (prefix c) h = row_bytes (base c h).
Proof.
  intros Hg Hw. unfold base. destruct (contents (store c) !! _) as [bs|] eqn:E; [|done].
  destruct (Hg h bs Hw E) as (n & Hn & -> & Hh). cbn [mbind option_bind].
  rewrite row_of_row by apply Hn. by rewrite row_bytes_state.
Qed.

(** *** The overlay of the cached entries *)

Definition entry_rows (pfx : byte) (he : UInt256.t * MptTrackable) : list (bytes * option bytes) :=
  match t_state he.2 with
  | TNone => []
  | _ => [(node_key_bytes pfx he.1, row_bytes (entry_row he.2))]
  end.

Lemma entry_overlay_ok c h e :
  entry_ok c h e → entry_overlay (prefix c) (h, e) = Ok (entry_rows (prefix c) (h, e)).
Proof.
  intros [_ He]. unfold entry_overlay, entry_rows. cbn [fst snd].
  destruct He as [Ha|[m Hm]].
  - rewrite (entry_absent_row e Ha). by destruct Ha as [_ _ _ [->| ->]].
  - rewrite (entry_holds_row h e m Hm). destruct Hm as [Hcm Hh Hty Hr Hst Hp _].
    rewrite Hty, Hr, row_bytes_state by done.
    destruct (t_state e); try done; destruct Hp as [->|(_ & _ & ?)]; try done;
      by rewrite array_from_row.
Qed.

Lemma entries_overlay_ok c l :
  Forall (λ he, entry_ok c he.1 he.2) l →
  entries_overlay (prefix c) l = Ok (concat (entry_rows (prefix c) <$> l)).
Proof.
  induction 1 as [|[h e] l He Hl IH]; [done|]. rewrite fmap_cons. cbn [entries_overlay concat].
  rewrite entry_overlay_ok by done. cbn [mbind Result_bind]. by rewrite IH.
Qed.

(** *** The overlay of the journal *)

Lemma raw_lookups_ok c hs ns :
  Forall2 (decodes c) hs ns → raw_lookups ns = Ok ((λ h, row_bytes (base c h)) <$> hs).
Proof.
  induction 1 as [|h n hs ns [Hb Hn] Hds IH]; [done|]. rewrite fmap_cons. cbn [raw_lookups].
  assert (raw_lookup n = Ok (row_bytes (base c h))) as ->.
  { rewrite Hb. destruct n as [m|]; [|done]. destruct (Hn m eq_refl) as [Hm _].
    unfold raw_lookup. rewrite to_array_without_reference_ok by apply Hm.
    cbn [mbind Result_bind fmap option_fmap option_map].
    by rewrite array_from_row, row_bytes_state. }
  cbn [mbind Result_bind]. by rewrite IH.
Qed.

Definition deferred_row c (hd : UInt256.t * DeferredReferenceEntry) : bytes * option bytes :=
  (node_key_bytes (prefix c) hd.1, row_bytes (view c hd.1)).

Lemma resolve_deferred_rows_ok c l :
  cache_ok c → Forall (λ hd, deferred_entries c !! hd.1 = Some hd.2) l →
  resolve_deferred_rows c l ((λ hd, row_bytes (base c hd.1)) <$> l) = Ok (deferred_row c <$> l).
Proof.
  intros Hc. induction 1 as [|[h d] l Hd Hl IH]; [done|]. rewrite !fmap_cons.
  cbn [resolve_deferred_rows fst snd] in *.
  destruct (co_deferred c Hc h d Hd) as [Hw _].
  pose proof (deferred_not_cached c h d Hc Hd) as Hne.
  assert (match row_bytes (base c h) with
          | Some bs => s ← ds_from_serialized bs; Ok (Some s)
          | None => Ok None
          end = Ok (base c h)) as ->.
  { destruct (base c h) as [s|] eqn:Hb; [|done].
    destruct (base_good c h s (co_store c Hc) Hw Hb) as (m & Hm & -> & _).
    rewrite row_bytes_state by done. unfold ds_from_serialized. by rewrite split_row by apply Hm. }
  cbn [mbind Result_bind]. rewrite (replay_ok c h d) by (apply Hc || done). cbn [mbind Result_bind].
  assert (view c h = jreplay c h (base c h)) as Hview by (unfold view; by rewrite Hne).
  assert (match jreplay c h (base c h) with
          | Some s => bs ← ds_into_bytes s; Ok (Some bs)
          | None => Ok None
          end = Ok (row_bytes (view c h))) as ->.
  { rewrite <-Hview. destruct (view c h) as [s|] eqn:Hv; [|done].
    destruct (view_good c h s Hc Hw Hv) as (m & Hm & -> & _).
    rewrite row_bytes_state by done. unfold ds_into_bytes.
    cbn [row_state ds_node_type ds_reference ds_payload]. by rewrite array_from_row_owned. }
  cbn [mbind Result_bind]. rewrite IH. done.
Qed.

Definition pending_hashes c : list (UInt256.t * DeferredReferenceEntry) :=
  sort_by_key (λ he, UInt256.to_array he.1) (map_to_list (deferred_entries c)).

Lemma pending_hashes_perm c : pending_hashes c ≡ₚ map_to_list (deferred_entries c).
Proof. apply merge_sort_Permutation. Qed.

Lemma deferred_overlay_ok c :
  cache_ok c → deferred_overlay c = Ok (deferred_row c <$> pending_hashes c).
Proof.
  intros Hc. unfold deferred_overlay. fold (pending_hashes c).
  assert (Forall (λ hd, deferred_entries c !! hd.1 = Some hd.2) (pending_hashes c)) as Hl.
  { rewrite pending_hashes_perm. apply Forall_forall. intros [h d]. by rewrite elem_of_map_to_list. }
  assert (Forall UInt256.wf (pending_hashes c).*1) as Hw.
  { apply Forall_fmap. eapply Forall_impl; [exact Hl|]. intros [h d] Hd. by apply (co_deferred c Hc h d). }
  destruct (try_get_nodes_ok c _ (co_store c Hc) Hw) as (ns & Hns & Hds).
  rewrite <-list_fmap_compose in Hns.
  change (λ he, node_key_bytes (prefix c) he.1) with (node_key_bytes (prefix c) ∘ @fst UInt256.t DeferredReferenceEntry).
  rewrite Hns. cbn [mbind Result_bind]. rewrite (raw_lookups_ok c _ _ Hds). cbn [mbind Result_bind].
  rewrite !length_fmap, bool_decide_false by (by intros ?). rewrite <-list_fmap_compose.
  by apply resolve_deferred_rows_ok.
Qed.

(** *** Applying an overlay *)

Definition overlay_step (kvs : gmap bytes bytes) (kv : bytes * option bytes) : gmap bytes bytes :=
  match kv.2 with
  | Some v => <[kv.1 := v]> kvs
  | None => delete kv.1 kvs
  end.

Lemma apply_overlay_ok ov (s : St) :
  ∃ s', apply_overlay ov s = (s', Ok tt) ∧ contents s' = foldl overlay_step (contents s) ov.
Proof.
  unfold apply_overlay. revert s. induction ov as [|[k [v|]] ov IH]; intros s; cbn [for_each foldl].
  - by exists s.
  - destruct (put_contents s k v) as (s1 & Hrun & Hc). mstep Hrun.
    destruct (IH s1) as (s2 & Hrun2 & Hc2). exists s2. split; [done|]. by rewrite Hc2, Hc.
  - destruct (delete_contents s k) as (s1 & Hrun & Hc). mstep Hrun.
    destruct (IH s1) as (s2 & Hrun2 & Hc2). exists s2. split; [done|]. by rewrite Hc2, Hc.
Qed.

Lemma overlay_lookup_ne ov kvs k :
  k ∉ ov.*1 → foldl overlay_step kvs ov !! k = kvs !! k.
Proof.
  revert kvs. induction ov as [|[k' v] ov IH]; intros kvs Hk; [done|].
  rewrite fmap_cons, not_elem_of_cons in Hk. destruct Hk as [Hne Hk]. cbn [foldl].
  rewrite IH by done. unfold overlay_step. cbn [fst snd].
  destruct v; [by rewrite lookup_insert_ne|by rewrite lookup_delete_ne].
Qed.

Lemma overlay_lookup ov kvs k v :
  NoDup ov.*1 → (k, v) ∈ ov → foldl overlay_step kvs ov !! k = v.
Proof.
  revert kvs. induction ov as [|[k' v'] ov IH]; intros kvs Hnd Hin; [by apply not_elem_of_nil in Hin|].
  rewrite fmap_cons in Hnd. apply NoDup_cons in Hnd as [Hk Hnd]. cbn [foldl].
  apply elem_of_cons in Hin as [[= <- <-]|Hin]; [|by apply IH].
  rewrite overlay_lookup_ne by done. unfold overlay_step. cbn [fst snd].
  destruct v; [apply lookup_insert_eq|apply lookup_delete_eq].
Qed.

(** *** What the overlays hold *)

Lemma elem_of_concat {A} (x : A) ls : x ∈ concat ls ↔ ∃ l, x ∈ l ∧ l ∈ ls.
Proof.
  rewrite list_elem_of_In, in_concat. split; intros (l & Hx & Hl); exists l;
    by rewrite ?list_elem_of_In in *.
Qed.

Definition cached_rows c : list (bytes * option bytes) :=
  concat (entry_rows (prefix c) <$> map_to_list (entries c)).

Lemma elem_of_cached_rows c kv :
  kv ∈ cached_rows c ↔
  ∃ h e, entries c !! h = Some e ∧ t_state e ≠ TNone ∧
    kv = (node_key_bytes (prefix c) h, row_bytes (entry_row e)).
Proof.
  unfold cached_rows. rewrite elem_of_concat. split.
  - intros (l & Hkv & Hl). apply list_elem_of_fmap in Hl as ([h e] & -> & He).
    rewrite elem_of_map_to_list in He. exists h, e. unfold entry_rows in Hkv. cbn [fst snd] in Hkv.
    destruct (t_state e); try (apply list_elem_of_singleton in Hkv as ->; done).
    by apply not_elem_of_nil in Hkv.
  - intros (h & e & He & Hs & ->). exists (entry_rows (prefix c) (h, e)). split.
    + unfold entry_rows. cbn [fst snd]. destruct (t_state e); try done; by left.
    + apply list_elem_of_fmap. exists (h, e). by rewrite elem_of_map_to_list.
Qed.

Lemma NoDup_cached_rows c : cache_ok c → NoDup (cached_rows c).*1.
Proof.
  intros Hc. unfold cached_rows.
  assert (∀ h e, (h, e) ∈ map_to_list (entries c) → UInt256.wf h) as Hw.
  { intros h e. rewrite elem_of_map_to_list. intros He. by apply (co_entries c Hc h e). }
  pose proof (NoDup_fst_map_to_list (entries c)) as Hnd. revert Hnd Hw.
  generalize (map_to_list (entries c)) as l. induction l as [|[h e] l IH]; intros Hnd Hw; [constructor|].
  rewrite !fmap_cons in *. cbn [concat fst] in *. apply NoDup_cons in Hnd as [Hh Hnd].
  rewrite fmap_app. apply NoDup_app. split_and!.
  - unfold entry_rows. cbn [fst snd]. destruct (t_state e); cbn; try apply NoDup_singleton. constructor.
  - intros k Hk Hk'. apply list_elem_of_fmap in Hk as (kv & -> & Hkv).
    assert (kv.1 = node_key_bytes (prefix c) h) as Hkey.
    { unfold entry_rows in Hkv. cbn [fst snd] in Hkv.
      destruct (t_state e); try (apply list_elem_of_singleton in Hkv as ->; done).
      by apply not_elem_of_nil in Hkv. }
    apply list_elem_of_fmap in Hk' as (kv' & E & Hkv').
    apply elem_of_concat in Hkv' as (l' & Hkv' & Hl').
    apply list_elem_of_fmap in Hl' as ([h' e'] & -> & Hin).
    assert (kv'.1 = node_key_bytes (prefix c) h') as Hkey'.
    { unfold entry_rows in Hkv'. cbn [fst snd] in Hkv'.
      destruct (t_state e'); try (apply list_elem_of_singleton in Hkv' as ->; done).
      by apply not_elem_of_nil in Hkv'. }
    rewrite Hkey, Hkey' in E. apply node_key_inj in E.
    + subst h'. apply Hh. apply list_elem_of_fmap. by exists (h, e').
    + apply (Hw h e). left.
    + apply (Hw h' e'). by right.
  - apply IH; [done|]. intros h' e' Hin. apply (Hw h' e'). by right.
Qed.

(** The store rows once everything the cache holds has been written. *)
Definition flushed c (kvs : gmap bytes bytes) : Prop :=
  (∀ h, UInt256.wf h → kvs !! node_key_bytes (prefix c) h = row_bytes (view c h)) ∧
  (∀ k, (∀ h, UInt256.wf h → k ≠ node_key_bytes (prefix c) h) →
     kvs !! k = contents (store c) !! k).

(** Journaled rows written, everything else as in the store. *)
Definition journal_flushed c (kvs : gmap bytes bytes) : Prop :=
  (∀ h d, deferred_entries c !! h = Some d →
     kvs !! node_key_bytes (prefix c) h = row_bytes (view c h)) ∧
  (∀ k, (∀ h d, deferred_entries c !! h = Some d → k ≠ node_key_bytes (prefix c) h) →
     kvs !! k = contents (store c) !! k).

Lemma cached_row_key c h kv :
  cache_ok c → UInt256.wf h → kv ∈ cached_rows c → kv.1 = node_key_bytes (prefix c) h →
  ∃ e, entries c !! h = Some e ∧ t_state e ≠ TNone ∧
    kv = (node_key_bytes (prefix c) h, row_bytes (view c h)).
Proof.
  intros Hc Hw (h' & e & He & Hs & ->)%elem_of_cached_rows E. cbn [fst] in E.
  apply node_key_inj in E as ->; [|by apply (co_entries c Hc h' e)|done].
  exists e. split_and!; [done..|]. unfold view. by rewrite He.
Qed.

Lemma flush_cached c kvs :
  cache_ok c → journal_flushed c kvs → flushed c (foldl overlay_step kvs (cached_rows c)).
Proof.
  intros Hc [Hj Hrest]. split.
  - intros h Hw. destruct (entries c !! h) as [e|] eqn:He.
    + assert (contents (store c) !! node_key_bytes (prefix c) h = row_bytes (base c h)) as Hb
        by (apply contents_base; [apply Hc|done]).
      destruct (decide (t_state e = TNone)) as [Hs|Hs].
      * rewrite overlay_lookup_ne.
        { rewrite Hrest, Hb.
          - unfold view. rewrite He. destruct (co_entries c Hc h e He) as [_ [Hbase _]]. by rewrite Hbase.
          - intros h' d Hd E. apply node_key_inj in E as <-; [|done|by apply (co_deferred c Hc h' d)].
            by rewrite (co_disjoint c Hc h) in Hd by (by eexists). }
        intros (kv & E & Hkv)%list_elem_of_fmap.
        destruct (cached_row_key c h kv Hc Hw Hkv) as (e' & He' & Hs' & _); congruence.
      * apply overlay_lookup; [by apply NoDup_cached_rows|]. apply elem_of_cached_rows.
        exists h, e. split_and!; [done..|]. unfold view. by rewrite He.
    + rewrite overlay_lookup_ne.
      * destruct (deferred_entries c !! h) as [d|] eqn:Hd; [by eapply Hj|].
        rewrite Hrest.
        -- rewrite contents_base by (apply Hc || done). unfold view, jreplay. by rewrite He, Hd.
        -- intros h' d Hd' E. apply node_key_inj in E as <-; [congruence|done|by apply (co_deferred c Hc h' d)].
      * intros (kv & E & Hkv)%list_elem_of_fmap.
        destruct (cached_row_key c h kv Hc Hw Hkv) as (e' & He' & _); congruence.
  - intros k Hk. rewrite overlay_lookup_ne.
    + apply Hrest. intros h d Hd. apply Hk. by apply (co_deferred c Hc h d).
    + intros (kv & -> & (h & e & He & _ & ->)%elem_of_cached_rows)%list_elem_of_fmap.
      by apply (Hk h); [apply (co_entries c Hc h e)|].
Qed.

(** *** Exported journals *)

Fixpoint summarize_ops (k : bytes) (l : list DeferredReferenceOperation)
    (summary : option UnresolvedDeferredNode) : option (option UnresolvedDeferredNode) :=
  match l with
  | [] => Some summary
  | DPut ty payload :: l =>
      match summary with
      | Some u =>
          if (u_puts u + 1 <? 2 ^ 32)%N
          then summarize_ops k l
                 (Some (mkUnresolved (u_key u) (u_node_type u) (u_payload u) (u_puts u + 1)))
          else None
      | None => summarize_ops k l (Some (mkUnresolved k ty payload 1))
      end
  | DDelete :: _ => None
  end.

Lemma summarize_links_chain ops k ix l fuel summary :
  chain ops ix l → (length ix ≤ fuel)%nat →
  summarize_links fuel ops k (head ix) summary = summarize_ops k l summary.
Proof.
  revert l fuel summary. induction ix as [|i ix IH]; intros [|o l] fuel summary Hc Hf; try done.
  { by destruct fuel. }
  destruct Hc as [Hi Hc]. destruct fuel as [|fuel]; [simpl in Hf; lia|].
  assert (length ix ≤ fuel)%nat as Hf' by (simpl in Hf; lia).
  cbn [summarize_links head]. rewrite Hi. cbn [mbind option_bind op op_next].
  destruct o as [ty payload|]; [|done]. cbn [summarize_ops].
  destruct summary as [u|]; [|by apply IH].
  destruct (u_puts u + 1 <? 2 ^ 32)%N; [by apply IH|done].
Qed.

Definition puts_only (l : list DeferredReferenceOperation) : Prop :=
  Forall (λ o, match o with DPut _ _ => True | DDelete => False end) l.

Lemma summarize_ops_Some k l u u' :
  summarize_ops k l (Some u) = Some (Some u') →
  puts_only l ∧ u' = mkUnresolved (u_key u) (u_node_type u) (u_payload u) (u_puts u + len l)%N.
Proof.
  revert u. induction l as [|[ty payload|] l IH]; intros u Hs; cbn [summarize_ops] in Hs; [|..|done].
  - injection Hs as <-. split; [constructor|]. rewrite len_nil, N.add_0_r. by destruct u.
  - destruct (u_puts u + 1 <? 2 ^ 32)%N; [|done]. apply IH in Hs as [Hl ->]. cbn.
    split; [by constructor|]. rewrite len_cons. f_equal. lia.
Qed.

Lemma summarize_ops_None k l u :
  summarize_ops k l None = Some (Some u) →
  ∃ ty payload l', l = DPut ty payload :: l' ∧ puts_only l' ∧
    u = mkUnresolved k ty payload (1 + len l')%N.
Proof.
  destruct l as [|[ty payload|] l]; cbn [summarize_ops]; [done| |done].
  intros [Hl ->]%summarize_ops_Some. by exists ty, payload, l.
Qed.

(** Puts on an existing row only raise its count. *)
Lemma replay_puts h l s :
  puts_only l → good_row h s →
  (∀ l1 l2 s', l = l1 ++ l2 → replay_all l1 (Some s) = Some s' → good_row h s') →
  replay_all l (Some s) =
  Some (mkDState (ds_node_type s) (ds_reference s + Z.of_N (len l)) (ds_payload s)).
Proof.
  revert s. induction l as [|[ty payload|] l IH]; intros s Hl Hs Hpre.
  - rewrite len_nil, Z.add_0_r. by destruct s.
  - apply Forall_cons_1 in Hl as [_ Hl].
    assert (good_row h (mkDState (ds_node_type s) (i32_wrapping_add (ds_reference s) 1) (ds_payload s))) as Hg.
    { by apply (Hpre [DPut ty payload] l). }
    assert (i32_wrapping_add (ds_reference s) 1 = (ds_reference s + 1)%Z) as E.
    { destruct Hs as (m & ((_ & _ & Hr & _) & _ & H1') & -> & _).
      destruct Hg as (m' & (_ & _ & H1'') & E & _).
      apply (f_equal ds_reference) in E. cbn [row_state ds_reference] in E |- *.
      unfold i32_wrapping_add in *. destruct (decide (reference m + 1 < 2 ^ 31)%Z) as [Hlt|Hge].
      - apply i32_wrap_id. unfold i32_range. lia.
      - assert (reference m = 2 ^ 31 - 1)%Z as Em by lia. rewrite Em in E.
        change (i32_wrap (2 ^ 31 - 1 + 1)) with (- 2 ^ 31)%Z in E. lia. }
    change (replay_all (DPut ty payload :: l) (Some s)) with
      (replay_all l (Some (mkDState (ds_node_type s) (i32_wrapping_add (ds_reference s) 1) (ds_payload s)))).
    rewrite IH; [|done|done|].
    + cbn [ds_node_type ds_reference ds_payload]. rewrite E, len_cons. do 2 f_equal. lia.
    + intros l1 l2 s' -> Hs'. by apply (Hpre (DPut ty payload :: l1) l2).
  - by apply Forall_cons_1 in Hl as [? _].
Qed.

(** What the backing commit writes for one exported entry is the row of the
    cache. *)
Lemma resolve_bytes_ok c h d u :
  cache_ok c → deferred_entries c !! h = Some d →
  summarize_links (S (length (deferred_operations c))) (deferred_operations c)
    (node_key_bytes (prefix c) h) (Some (d_first d)) None = Some (Some u) →
  u_key u = node_key_bytes (prefix c) h ∧
  ∃ bs, resolve_bytes u (contents (store c) !! node_key_bytes (prefix c) h) = Ok bs ∧
    row_bytes (view c h) = Some bs.
Proof.
  intros Hc Hd Hsum. destruct (co_deferred c Hc h d Hd) as [Hw Hgood].
  destruct (co_journal c Hc) as [js Hj]. destruct (journal_lookup _ _ _ _ Hj Hd) as (ix & l & Hix & Hl).
  destruct (jo_chain _ _ Hj h d ix Hd Hix) as (Hnd & Hhd & _).
  rewrite <-Hhd, (summarize_links_chain _ _ ix l) in Hsum; [|done|].
  2:{ apply Nat.le_le_succ_r, NoDup_lt_length; [done|by eapply chain_lt]. }
  apply summarize_ops_None in Hsum as (ty & payload & l' & -> & Hputs & ->).
  split; [done|]. rewrite contents_base by (apply Hc || done).
  assert (view c h = replay_all (DPut ty payload :: l') (base c h)) as Hview.
  { unfold view. rewrite (deferred_not_cached c h d) by done. by eapply jreplay_chain. }
  assert (∀ l1 l2 s, DPut ty payload :: l' = l1 ++ l2 → replay_all l1 (base c h) = Some s →
    good_row h s) as Hpre by (intros l1 l2 s E; rewrite E in Hl; by eapply Hgood).
  unfold resolve_bytes. cbn [u_puts u_node_type u_payload].
  destruct (base c h) as [s|] eqn:Hb.
  - destruct (base_good c h s (co_store c Hc) Hw Hb) as (m & Hm & -> & Hh).
    rewrite (replay_puts h) in Hview;
      [|by constructor|by exists m|done].
    destruct (view_good c h _ Hc Hw Hview) as (m' & Hm' & E & _). rewrite Hview, E.
    rewrite !row_bytes_state, split_row by (done || apply Hm).
    pose proof (f_equal ds_node_type E) as E1. pose proof (f_equal ds_reference E) as E2.
    pose proof (f_equal ds_payload E) as E3.
    cbn [row_state ds_node_type ds_reference ds_payload] in E1, E2, E3. rewrite len_cons in E2.
    assert (Hm'' := Hm'). destruct Hm'' as ((_ & _ & Hr' & _) & _).
    assert (Hm'' := Hm). destruct Hm'' as (_ & _ & Hr).
    rewrite (proj2 (N.ltb_ge _ _)) by lia. cbn [mbind Result_bind].
    unfold i32_wrapping_add. rewrite i32_wrap_id, E1, E2, E3 by (unfold i32_range; lia).
    exists (row m'). by rewrite array_from_row_owned.
  - change (replay_all (DPut ty payload :: l') None) with
      (replay_all l' (Some (mkDState ty 1 payload))) in Hview.
    rewrite (replay_puts h) in Hview; [|done| |].
    2:{ by apply (Hpre [DPut ty payload] l'). }
    2:{ intros l1 l2 s' ->. by apply (Hpre (DPut ty payload :: l1) l2). }
    destruct (view_good c h _ Hc Hw Hview) as (m' & Hm' & E & _). rewrite Hview, E.
    rewrite row_bytes_state by done.
    pose proof (f_equal ds_node_type E) as E1. pose proof (f_equal ds_reference E) as E2.
    pose proof (f_equal ds_payload E) as E3.
    cbn [row_state ds_node_type ds_reference ds_payload] in E1, E2, E3.
    assert (Hm'' := Hm'). destruct Hm'' as ((_ & _ & Hr' & _) & _).
    rewrite (proj2 (N.ltb_ge _ _)) by lia. cbn [row_bytes mbind option_bind].
    replace (Z.of_N (1 + len l')) with (reference m') by lia. rewrite E1, E3.
    exists (row m'). by rewrite array_from_row.
Qed.

(** *** Commit *)

Lemma overlay_perm kvs ov1 ov2 :
  NoDup ov1.*1 → ov1 ≡ₚ ov2 → foldl overlay_step kvs ov1 = foldl overlay_step kvs ov2.
Proof.
  intros Hnd Hp. assert (NoDup ov2.*1) as Hnd2 by (by rewrite <-Hp). apply map_eq. intros k.
  destruct (decide (k ∈ ov1.*1)) as [Hin|Hin].
  - apply list_elem_of_fmap in Hin as ([k' v] & -> & Hkv). cbn [fst].
    rewrite (overlay_lookup ov1 kvs k' v) by done.
    by rewrite (overlay_lookup ov2 kvs k' v) by (try rewrite <-Hp; done).
  - rewrite !overlay_lookup_ne; [done| |done]. by rewrite <-Hp.
Qed.

Definition journal_rows c : list (bytes * option bytes) := deferred_row c <$> pending_hashes c.

Lemma elem_of_pending c h d : (h, d) ∈ pending_hashes c ↔ deferred_entries c !! h = Some d.
Proof. by rewrite pending_hashes_perm, elem_of_map_to_list. Qed.

Lemma NoDup_journal_rows c : cache_ok c → NoDup (journal_rows c).*1.
Proof.
  intros Hc. unfold journal_rows. rewrite <-list_fmap_compose.
  apply NoDup_fmap_2_strong.
  - intros [h d] [h' d'] Hh Hh' E. apply elem_of_pending in Hh, Hh'. cbn in E.
    apply node_key_inj in E as <-; [|by apply (co_deferred c Hc h d)|by apply (co_deferred c Hc h' d')].
    congruence.
  - rewrite pending_hashes_perm. apply NoDup_map_to_list.
Qed.

Lemma journal_rows_flushed c :
  cache_ok c → journal_flushed c (foldl overlay_step (contents (store c)) (journal_rows c)).
Proof.
  intros Hc. split.
  - intros h d Hd. apply overlay_lookup; [by apply NoDup_journal_rows|].
    apply list_elem_of_fmap. exists (h, d). split; [done|by apply elem_of_pending].
  - intros k Hk. apply overlay_lookup_ne. intros (kv & -> & Hkv)%list_elem_of_fmap.
    apply list_elem_of_fmap in Hkv as ([h d] & -> & Hin%elem_of_pending). by apply (Hk h d).
Qed.

Lemma NoDup_all_rows c : cache_ok c → NoDup (cached_rows c ++ journal_rows c).*1.
Proof.
  intros Hc. rewrite fmap_app. apply NoDup_app. split_and!.
  - by apply NoDup_cached_rows.
  - intros k Hk Hk'. apply list_elem_of_fmap in Hk as (kv & -> & Hkv).
    apply list_elem_of_fmap in Hk' as (kv' & E & Hkv').
    apply list_elem_of_fmap in Hkv' as ([h d] & -> & Hd%elem_of_pending). cbn [deferred_row fst] in E.
    destruct (cached_row_key c h kv Hc) as (e & He & _); [by apply (co_deferred c Hc h d)|done..|].
    by rewrite (deferred_not_cached c h d) in He.
  - by apply NoDup_journal_rows.
Qed.

(** The classic path: resolve the journal, then write both overlays. *)
Lemma classic_flush c :
  cache_ok c →
  ∃ s', on_store (apply_overlay (cached_rows c ++ journal_rows c)) c = (set_store s' c, Ok tt) ∧
    flushed c (contents s').
Proof.
  intros Hc. destruct (apply_overlay_ok (cached_rows c ++ journal_rows c) (store c)) as (s' & Hrun & Hcon).
  exists s'. unfold on_store. rewrite Hrun. split; [done|]. rewrite Hcon.
  rewrite (overlay_perm _ _ (journal_rows c ++ cached_rows c));
    [|by apply NoDup_all_rows|by rewrite Permutation_app_comm].
  rewrite foldl_app. by apply flush_cached, journal_rows_flushed.
Qed.

Lemma set_store_ok c s' :
  cache_ok c → contents s' = contents (store c) →
  cache_ok (set_store s' c) ∧ (∀ h, view (set_store s' c) h = view c h).
Proof.
  intros Hc Hs.
  assert (∀ h, base (set_store s' c) h = base c h) as Hb.
  { intros h. unfold base. cbn [store set_store prefix]. by rewrite Hs. }
  assert (∀ h, view (set_store s' c) h = view c h) as Hv.
  { intros h. unfold view. by rewrite Hb. }
  split; [|done]. split; [|..|apply Hc|by apply (journal_ok_ext c), Hc|].
  - intros h bs. cbn [store set_store prefix]. rewrite Hs. apply Hc.
  - intros h e He. destruct (co_entries c Hc h e He) as [Hw [H1' H2']]. split; [done|].
    split; [by rewrite Hb|done].
  - apply Hc.
  - intros h d Hd. rewrite Hb. apply (co_deferred c Hc h d Hd).
Qed.

(** The cache that remains after a commit. *)
Lemma cleared_ok c s' :
  cache_ok c → flushed c (contents s') →
  let c' := clear_all (set_store s' c) in
  cache_ok c' ∧ (∀ h, UInt256.wf h → view c' h = view c h).
Proof.
  intros Hc [Hf _] c'.
  assert (∀ h, UInt256.wf h → base c' h = view c h) as Hb.
  { intros h Hw. unfold base, c'. cbn [store prefix set_store clear_all set_entries set_deferred].
    rewrite Hf by done. destruct (view c h) as [s|] eqn:E; [|done].
    destruct (view_good c h s Hc Hw E) as (m & Hm & -> & _). rewrite row_bytes_state by done.
    cbn [mbind option_bind]. by rewrite row_of_row by apply Hm. }
  split.
  - split; try done.
    + intros h bs Hw. unfold c'. cbn [store prefix set_store clear_all set_entries set_deferred].
      rewrite Hf by done. destruct (view c h) as [s|] eqn:E; [|done].
      destruct (view_good c h s Hc Hw E) as (m & Hm & -> & Hh). rewrite row_bytes_state by done.
      intros [= <-]. by exists m.
    + exists ∅. split; [|by intros ? ? ? ?|by intros ? ? ? ? ? ?].
      intros h. split; intros [? ?]; done.
  - intros h Hw. unfold view, jreplay, c'. cbn. by rewrite !lookup_empty, Hb.
Qed.

(** An accepted journal leaves the same rows as the classic path. *)
Lemma exported_flush c journal :
  cache_ok c → summarize_deferred_journal c = Some journal →
  NoDup (u_key <$> journal) ∧
  (∀ u, u ∈ journal → ∃ bs, resolve_bytes u (contents (store c) !! u_key u) = Ok bs) ∧
  (∀ kvs,
     (∀ u bs, u ∈ journal → resolve_bytes u (contents (store c) !! u_key u) = Ok bs →
        kvs !! u_key u = Some bs) →
     (∀ k, k ∉ u_key <$> journal → kvs !! k = contents (store c) !! k) →
     journal_flushed c kvs).
Proof.
  intros Hc Hsum. unfold summarize_deferred_journal in Hsum.
  apply bind_Some in Hsum as (us & Hus & [= <-]). apply mapM_Some in Hus.
  assert (sort_by_key u_key us ≡ₚ us) as Hperm by apply merge_sort_Permutation.
  assert (Forall2 (λ hd u, u_key u = node_key_bytes (prefix c) hd.1 ∧
    ∃ bs, resolve_bytes u (contents (store c) !! node_key_bytes (prefix c) hd.1) = Ok bs ∧
      row_bytes (view c hd.1) = Some bs) (map_to_list (deferred_entries c)) us) as Hall.
  { assert (∀ h d, (h, d) ∈ map_to_list (deferred_entries c) → deferred_entries c !! h = Some d) as Hin.
    { intros h d. by rewrite elem_of_map_to_list. }
    revert Hin Hus. generalize (map_to_list (deferred_entries c)) as l. clear Hperm.
    intros l Hin. induction 1 as [|[h d] u l us Hu _ IH]; constructor.
    - apply bind_Some in Hu as (su & Hsu & ->). by eapply resolve_bytes_ok; [|apply Hin; left|].
    - apply IH. intros h' d' Hin'. apply Hin. by right. }
  assert (u_key <$> us = (λ hd, node_key_bytes (prefix c) hd.1) <$> map_to_list (deferred_entries c)) as Hkeys.
  { clear -Hall. induction Hall as [|hd u l us [Hk _] _ IH]; [done|]. by rewrite !fmap_cons, IH, Hk. }
  assert (∀ u, u ∈ us → ∃ h d, deferred_entries c !! h = Some d ∧ u_key u = node_key_bytes (prefix c) h ∧
    ∃ bs, resolve_bytes u (contents (store c) !! u_key u) = Ok bs ∧ row_bytes (view c h) = Some bs) as Hu.
  { intros u [i Hi]%list_elem_of_lookup. destruct (Forall2_lookup_r _ _ _ _ _ Hall Hi) as ([h d] & Hl & Hk & Hbs).
    exists h, d. rewrite Hk. split_and!; [|done..].
    by apply list_elem_of_lookup_2, elem_of_map_to_list in Hl. }
  assert (∀ h d, deferred_entries c !! h = Some d → ∃ u, u ∈ us ∧ u_key u = node_key_bytes (prefix c) h ∧
    ∃ bs, resolve_bytes u (contents (store c) !! u_key u) = Ok bs ∧ row_bytes (view c h) = Some bs) as Hd.
  { intros h d Hd. apply elem_of_map_to_list in Hd. apply list_elem_of_lookup in Hd as [i Hi].
    destruct (Forall2_lookup_l _ _ _ _ _ Hall Hi) as (u & Hl & Hk & Hbs).
    exists u. rewrite Hk. split_and!; [by eapply list_elem_of_lookup_2|done..]. }
  split_and!.
  - rewrite Hperm, Hkeys. apply NoDup_fmap_2_strong; [|apply NoDup_map_to_list].
    intros [h d] [h' d'] Hh Hh' E. rewrite elem_of_map_to_list in Hh, Hh'. cbn in E.
    apply node_key_inj in E as <-; [|by apply (co_deferred c Hc h d)|by apply (co_deferred c Hc h' d')].
    congruence.
  - intros u. rewrite Hperm. intros Hin. destruct (Hu u Hin) as (_ & _ & _ & _ & bs & ? & _). eauto.
  - intros kvs Hw Hr. split.
    + intros h d Hdd. destruct (Hd h d Hdd) as (u & Hin & Hk & bs & Hres & ->).
      rewrite <-Hk. apply Hw; [by rewrite Hperm|done].
    + intros k Hk. apply Hr. rewrite Hperm. intros (u & -> & Hin)%list_elem_of_fmap.
      destruct (Hu u Hin) as (h & d & Hdd & E & _). by apply (Hk h d).
Qed.

Lemma commit_classic_ok c :
  cache_ok c →
  ∃ s', commit_classic (cached_rows c) c = (set_store s' c, Ok tt) ∧ flushed c (contents s').
Proof.
  intros Hc. destruct (classic_flush c Hc) as (s' & Hrun & Hf). exists s'. split; [|done].
  unfold commit_classic. by erewrite mbind_ok by (by rewrite deferred_overlay_ok).
Qed.

Lemma commit_write_ok c exported :
  cache_ok c → (∀ j, exported = Some j → summarize_deferred_journal c = Some j) →
  ∃ s', commit_write (cached_rows c) exported c = (set_store s' c, Ok tt) ∧ flushed c (contents s').
Proof.
  intros Hc Hexp. destruct exported as [[|u j]|]; [by apply commit_classic_ok| |by apply commit_classic_ok].
  destruct (exported_flush c (u :: j) Hc (Hexp _ eq_refl)) as (Hnd & Hres & Hfl).
  destruct (stage_contents (store c) (u :: j) Hnd Hres) as (s1 & b & Hst & Hb).
  cbn [commit_write]. unfold mbind at 1, M_bind at 1, on_store at 1. rewrite Hst. destruct b.
  - destruct Hb as [Hb1 Hb2]. destruct (apply_overlay_ok (cached_rows c) s1) as (s2 & Hrun & Hcon).
    exists s2. unfold on_store. cbn [store set_store]. rewrite Hrun. split; [done|].
    rewrite Hcon. apply flush_cached; [done|]. by apply Hfl.
  - destruct (set_store_ok c s1 Hc Hb) as [Hc1 Hv1].
    destruct (commit_classic_ok (set_store s1 c) Hc1) as (s2 & Hrun & Hf1 & Hf2).
    exists s2. split; [exact Hrun|]. split.
    + intros h Hw. rewrite <-Hv1. by apply Hf1.
    + intros k Hk. rewrite <-Hb. by apply Hf2.
Qed.

Lemma commit_ok c :
  cache_ok c →
  ∃ c', commit c = (c', Ok tt) ∧ cache_ok c' ∧ entries c' = ∅ ∧ deferred_entries c' = ∅ ∧
    prefix c' = prefix c ∧ defer_reference_resolution c' = defer_reference_resolution c ∧
    defer_intermediate_nodes c' = defer_intermediate_nodes c ∧
    flushed c (contents (store c')) ∧ (∀ h, UInt256.wf h → view c' h = view c h).
Proof.
  intros Hc. unfold commit.
  assert (entries_overlay (prefix c) (map_to_list (entries c)) = Ok (cached_rows c)) as Hov.
  { apply entries_overlay_ok. apply Forall_forall. intros [h e]. rewrite elem_of_map_to_list.
    intros He. by apply (co_entries c Hc h e). }
  erewrite mbind_ok by (by rewrite Hov). rewrite (mbind_ok (gets _) _ _ _ _ eq_refl).
  destruct (commit_write_ok c
    (if export_deferred_journal c then summarize_deferred_journal c else None) Hc) as (s' & Hrun & Hf).
  { destruct (export_deferred_journal c); [done|]. by intros ? ?. }
  mstep Hrun. destruct (cleared_ok c s' Hc Hf) as [Hc' Hv]. eexists. by split_and!.
Qed.
End commit.
