(* ===== verification/MptRefine.v ===== *)
(** * The trie implements the abstract trie

    [repr t n]: the in-memory node [n] stands for the tree [t], parts of which
    may be hashes of nodes held by the cache; the memoised hashes of [n] are
    those of [t].  The trie operations are proved against an interface of
    the cache ([TrieCache]), and preserve the representation while computing
    the operations of MptSpec.v. *)
From S2P Require Import Prelude Primitives Io MptNode MptNodeFacts MptCache MptTrie MptSpec.
Import NodeType Node NodeCodec.

(** ** Hashes of trees *)

Section hashes.
Context `{Crypto}.

Fixpoint mpayload (t : mpt) : bytes :=
  let child (c : mpt) : bytes :=
    match c with
    | TEmpty => [x04]
    | _ => x03 :: UInt256.to_array (digest (mpayload c))
    end in
  match t with
  | TEmpty => [x04]
  | TLeaf v => x02 :: var_int_bytes (len v) ++ v
  | TExt k t => x01 :: var_int_bytes (len k) ++ k ++ child t
  | TBranch cs => x00 :: concat (child <$> cs)
  end.

Definition mhash (t : mpt) : UInt256.t := digest (mpayload t).

Definition mchild (t : mpt) : bytes :=
  match t with TEmpty => [x04] | _ => x03 :: UInt256.to_array (mhash t) end.

Lemma mhash_wf t : UInt256.wf (mhash t).
Proof. apply digest_wf. Qed.

Lemma mpayload_unfold t :
  mpayload t =
  match t with
  | TEmpty => [x04]
  | TLeaf v => x02 :: var_int_bytes (len v) ++ v
  | TExt k t => x01 :: var_int_bytes (len k) ++ k ++ mchild t
  | TBranch cs => x00 :: concat (mchild <$> cs)
  end.
Proof. by destruct t. Qed.
End hashes.

(** All non-empty subtrees. *)
Fixpoint subtrees (t : mpt) : list mpt :=
  match t with
  | TEmpty => []
  | TLeaf _ => [t]
  | TExt _ t' => t :: subtrees t'
  | TBranch cs => t :: concat (subtrees <$> cs)
  end.

(** ** Representation *)

Section repr.
Context `{Crypto}.
(** Whether finalization of mutated nodes is deferred, and whether they are
    hashed and journaled when mutated nevertheless. *)
Context (dnf dint : bool).

(** The memoised hashes are right; below a clean node everything is clean
    and accounted for; without deferral every node is clean. *)
Definition memo_ok (t : mpt) (n : Node.t) : Prop :=
  (∀ h, hash_cell n = Some h → h = mhash t) ∧
  (∀ h, accounted_hash n = Some h → h = mhash t) ∧
  (dnf = false → dirty n = false) ∧
  (dint = true → dirty n = true → is_Some (hash_cell n)) ∧
  if dirty n then tempty t = false ∧ accounted_hash n = None
  else (tempty t = true ∨ is_Some (accounted_hash n)) ∧
       Forall (λ c, dirty c = false) (children n) ∧
       (∀ c, next n = Some c → dirty c = false).

Definition is_hash (t : mpt) (n : Node.t) : Prop :=
  node_type n = HashNode ∧ tempty t = false ∧ hash_cell n = Some (mhash t) ∧ dirty n = false.

(** Fields of other node kinds are blank. *)
Definition plain (n : Node.t) : Prop :=
  (node_type n ≠ BranchNode → children n = []) ∧ (node_type n ≠ ExtensionNode → next n = None).

Fixpoint repr (t : mpt) (n : Node.t) : Prop :=
  is_hash t n ∨
  (memo_ok t n ∧ plain n ∧
   match t with
   | TEmpty => node_type n = Empty
   | TLeaf v => node_type n = LeafNode ∧ value n = v
   | TExt k t' =>
       node_type n = ExtensionNode ∧ key n = k ∧
       match next n with Some c => repr t' c | None => False end
   | TBranch ts =>
       node_type n = BranchNode ∧
       (fix all (ts : list mpt) (ns : list Node.t) : Prop :=
          match ts, ns with
          | [], [] => True
          | t :: ts, n :: ns => repr t n ∧ all ts ns
          | _, _ => False
          end) ts (children n)
   end).

(** The node has the fields of the tree; its own memo may be stale. *)
Definition shape (t : mpt) (n : Node.t) : Prop :=
  plain n ∧
  match t with
  | TEmpty => node_type n = Empty
  | TLeaf v => node_type n = LeafNode ∧ value n = v
  | TExt k t' => node_type n = ExtensionNode ∧ key n = k ∧ ∃ c, next n = Some c ∧ repr t' c
  | TBranch ts => node_type n = BranchNode ∧ Forall2 repr ts (children n)
  end.

Lemma repr_unfold t n : repr t n ↔ is_hash t n ∨ (memo_ok t n ∧ shape t n).
Proof.
  unfold shape. destruct t as [|v|k t|ts]; cbn [repr]; try done.
  - assert (match next n with Some c => repr t c | None => False end ↔
            ∃ c, next n = Some c ∧ repr t c) as ->; [|done].
    destruct (next n); naive_solver.
  - assert (∀ ns, (fix all (ts : list mpt) (ns : list Node.t) : Prop :=
          match ts, ns with
          | [], [] => True
          | t :: ts, n :: ns => repr t n ∧ all ts ns
          | _, _ => False
          end) ts ns ↔ Forall2 repr ts ns) as E; [|by rewrite E].
    induction ts as [|t ts IH]; intros [|c ns].
    + split; [constructor|done].
    + split; [done|]. inversion 1.
    + split; [done|]. inversion 1.
    + rewrite IH, Forall2_cons. done.
Qed.

(** *** Hashes *)

Lemma is_hash_cell_ok t n : is_hash t n → cell_ok n.
Proof.
  intros (Hty & _ & Hh & _). split; [by eexists|]. intros h. rewrite Hh. intros [= <-]. apply mhash_wf.
Qed.

Lemma shape_type t n :
  shape t n → node_type n = match t with
                            | TEmpty => Empty
                            | TLeaf _ => LeafNode
                            | TExt _ _ => ExtensionNode
                            | TBranch _ => BranchNode
                            end.
Proof. destruct t; intros [_ Hs]; cbn in Hs; tauto. Qed.

Lemma repr_cell_ok t n : repr t n → cell_ok n.
Proof.
  rewrite repr_unfold. intros [?|[[Hm _] Hs]]; [by eapply is_hash_cell_ok|].
  apply shape_type in Hs. split; [by destruct t; rewrite Hs|].
  intros h ->%Hm. apply mhash_wf.
Qed.

(** Codec conditions for a node whose memo is absent or right. *)
Lemma shape_node_ok t n :
  shape t n → (∀ h, hash_cell n = Some h → UInt256.wf h) → node_ok n.
Proof.
  intros Hs Hw. pose proof (shape_type t n Hs) as Hty. destruct Hs as [[Hcs Hnx] Hs].
  split; [split; [by destruct t; rewrite Hty|done]|].
  destruct t as [|v|k t|ts]; cbn in Hs.
  - rewrite Hcs, Hnx, Hty by (by rewrite Hty). split_and!; [constructor|done..].
  - rewrite Hcs, Hnx, Hty by (by rewrite Hty). split_and!; [constructor|done..].
  - destruct Hs as (_ & _ & c & Hc & Hr). rewrite Hcs, Hc by (by rewrite Hty).
    split_and!; [constructor|intros ? [= <-]; by eapply repr_cell_ok|by eexists].
  - destruct Hs as [_ Hs]. rewrite Hnx, Hty by (by rewrite Hty). split_and!; [|done..].
    clear -Hs. induction Hs; constructor; [by eapply repr_cell_ok|done].
Qed.

Lemma child_bytes_shape t n :
  repr t n → hash n = mhash t → child_bytes n = mchild t.
Proof.
  rewrite repr_unfold. intros Hr Hh. unfold child_bytes, mchild. rewrite Hh.
  destruct Hr as [(Hty & Ht & _)|[_ Hty%shape_type]]; rewrite Hty; by destruct t.
Qed.

Lemma payload_bytes_shape_rec t n :
  shape t n → (∀ t' n', t' ∈ match t with TExt _ t' => [t'] | TBranch ts => ts | _ => [] end →
    repr t' n' → hash n' = mhash t') → payload_bytes n = mpayload t.
Proof.
  intros Hs IH. rewrite mpayload_unfold. unfold payload_bytes. rewrite (shape_type t n Hs).
  destruct Hs as [_ Hs]. destruct t as [|v|k t|ts]; cbn in Hs.
  - done.
  - destruct Hs as [_ ->]. done.
  - destruct Hs as (_ & -> & c & -> & Hr). cbn [to_byte]. do 3 f_equal.
    apply child_bytes_shape; [done|]. apply IH; [left|done].
  - destruct Hs as [_ Hs]. cbn [to_byte]. do 2 f_equal.
    induction Hs as [|t c ts ns Hr Hs IHs]; [done|]. rewrite !fmap_cons. f_equal.
    + apply child_bytes_shape; [done|]. apply IH; [left|done].
    + apply IHs. intros t' n' Ht'. apply IH. by right.
Qed.

Lemma repr_hash_rec t n :
  repr t n → (∀ t' n', t' ∈ match t with TExt _ t' => [t'] | TBranch ts => ts | _ => [] end →
    repr t' n' → hash n' = mhash t') → hash n = mhash t.
Proof.
  rewrite repr_unfold. intros [(_ & _ & Hh & _)|[[Hm _] Hs]] IH; [unfold hash; by rewrite Hh|].
  rewrite hash_ok by (eapply shape_node_ok; [exact Hs|]; intros h ->%Hm; apply mhash_wf).
  destruct (hash_cell n) as [h|]; [by apply Hm|]. cbn. unfold mhash. f_equal.
  by apply payload_bytes_shape_rec.
Qed.

Lemma repr_hash t n : repr t n → hash n = mhash t.
Proof.
  revert n. induction t as [|v|k t IH|ts IH] using mpt_induction; intros n Hr;
    apply (repr_hash_rec _ _ Hr); intros t' n' Ht'.
  - by apply not_elem_of_nil in Ht'.
  - by apply not_elem_of_nil in Ht'.
  - apply list_elem_of_singleton in Ht' as ->. apply IH.
  - rewrite Forall_forall in IH. by apply IH.
Qed.

Lemma payload_bytes_shape t n : shape t n → payload_bytes n = mpayload t.
Proof. intros Hs. apply payload_bytes_shape_rec; [done|]. intros. by apply repr_hash. Qed.

(** ** Ownership *)

Section ownership.
(** Whether the cache holds a reference on behalf of a node with these
    accounted and memoised hashes. *)
Context (held : option UInt256.t → option UInt256.t → bool).

Definition own_self (t : mpt) (n : Node.t) : list mpt :=
  if negb (tempty t) && held (accounted_hash n) (hash_cell n) then [t] else [].

(** The subtrees whose rows the node relies on, with multiplicity. *)
Fixpoint owned (t : mpt) (n : Node.t) : list mpt :=
  if bool_decide (node_type n = HashNode) then subtrees t
  else own_self t n ++
    match t with
    | TExt _ t' => match next n with Some c => owned t' c | None => [] end
    | TBranch ts =>
        (fix all (ts : list mpt) (ns : list Node.t) : list mpt :=
           match ts, ns with
           | t :: ts, n :: ns => owned t n ++ all ts ns
           | _, _ => []
           end) ts (children n)
    | _ => []
    end.

Definition owned_all (ts : list mpt) (ns : list Node.t) : list mpt :=
  concat (zip_with owned ts ns).

Definition kids (t : mpt) (n : Node.t) : list mpt :=
  match t with
  | TExt _ t' => from_option (owned t') [] (next n)
  | TBranch ts => owned_all ts (children n)
  | _ => []
  end.

Lemma owned_unfold t n :
  owned t n = if bool_decide (node_type n = HashNode) then subtrees t
              else own_self t n ++ kids t n.
Proof.
  destruct t as [| | |ts]; cbn [owned kids]; try done. case_bool_decide; [done|]. f_equal.
  unfold owned_all. generalize (children n) as ns.
  induction ts as [|t ts IH]; intros [|c ns]; try done. cbn. by rewrite IH.
Qed.

Lemma owned_shape t n : shape t n → owned t n = own_self t n ++ kids t n.
Proof.
  intros Hs. rewrite owned_unfold, bool_decide_false; [done|].
  rewrite (shape_type t n Hs). by destruct t.
Qed.

Lemma owned_hash t n : is_hash t n → owned t n = subtrees t.
Proof. intros (Hty & _). by rewrite owned_unfold, bool_decide_true. Qed.

(** Splitting the children at one of them. *)
Lemma owned_all_insert ts ns i t n :
  length ts = length ns → ts !! i = Some t → ns !! i = Some n →
  ∃ rest, owned_all ts ns ≡ₚ owned t n ++ rest ∧
    ∀ t' n', owned_all (<[i := t']> ts) (<[i := n']> ns) ≡ₚ owned t' n' ++ rest.
Proof.
  unfold owned_all. revert ns i. induction ts as [|t0 ts IH]; intros [|n0 ns] i Hl Ht Hn; try done.
  destruct i as [|i]; cbn in Ht, Hn |- *.
  - injection Ht as ->. injection Hn as ->. by eexists.
  - destruct (IH ns i) as (rest & H1' & H2'); [simpl in Hl; lia|done..|].
    exists (owned t0 n0 ++ rest). split; [|intros t' n'; rewrite H2'];
      [rewrite H1'|]; apply Permutation_app_swap_app.
Qed.

Lemma owned_empty n : node_type n = Empty → owned TEmpty n = [].
Proof.
  intros Hty. rewrite owned_unfold, bool_decide_false by (by rewrite Hty).
  done.
Qed.
End ownership.
End repr.

(** ** The interface of the cache *)

(** What the trie needs of its cache, in a given mode.  [Own c f]: the cache
    holds, for each tree listed in [f], one reference to its node. *)
Class TrieCache `{Crypto} (St : Type) `{MptStoreSnapshot St} (full_state dnf dint : bool) := {
  held : option UInt256.t → option UInt256.t → bool;
  stageable : mpt → Prop;
  Own : MptCache St → nat → list mpt → Prop;
  Own_perm c q f g : f ≡ₚ g → Own c q f → Own c q g;
  Own_weaken c q q' f : (q' ≤ q)%nat → Own c q f → Own c q' f;
  (** Resolving a held tree gives its node, embedded children hashed. *)
  law_resolve c q t F :
    tempty t = false → Own c q (subtrees t ++ F) →
    ∃ c' n, resolve (mhash t) c = (c', Ok (Some n)) ∧ memo_ok dnf dint t n ∧ shape dnf dint t n ∧
      dirty n = false ∧ owned held t n ≡ₚ subtrees t ∧ Own c' q (subtrees t ++ F);
  (** A node built from represented children is staged and becomes held as
      [held] says. *)
  law_stage c q n t F :
    shape dnf dint t n → tempty t = false → stageable t → Own c (S q) (kids held t n ++ F) →
    ∃ c' n', stage_mutated_node dnf (c, n) = ((c', n'), Ok tt) ∧ memo_ok dnf dint t n' ∧
      shape dnf dint t n' ∧ Own c' q (owned held t n' ++ F);
  (** What the node itself holds can be given back. *)
  law_release n t :
    memo_ok dnf dint t n → shape dnf dint t n → tempty t = false →
    ∃ old, previous_hash full_state dnf n = Ok old ∧
      ∀ c q F x, Own c q (own_self held t n ++ F) →
        ∃ c', release old (c, x) = ((c', x), Ok tt) ∧ Own c' q F;
}.
Arguments held {_ St _} full_state dnf dint {_}.
Arguments stageable {_ St _} full_state dnf dint {_}.
Arguments Own {_ St _} full_state dnf dint {_}.

(** Borrowing steps. *)
Section borrow.
Context `{MptStoreSnapshot St}.
Implicit Types c : MptCache St.

Lemma on_child_run {A} (m : M (MptCache St * Node.t) MptError A) i c n ch c' ch' r :
  children n !! i = Some ch → m (c, ch) = ((c', ch'), r) →
  on_child i m (c, n) = ((c', with_children (<[i := ch']> (children n)) n), r).
Proof.
  intros Hi Hm. unfold on_child, get_child, set_child. rewrite Hi, Hm.
  by rewrite (proj2 (Nat.ltb_lt _ _)) by (by eapply lookup_lt_Some).
Qed.

Lemma on_next_run {A} (m : M (MptCache St * Node.t) MptError A) c n ch c' ch' r :
  next n = Some ch → m (c, ch) = ((c', ch'), r) →
  on_next m (c, n) = ((c', with_next (Some ch') n), r).
Proof. intros Hi Hm. unfold on_next. by rewrite Hi, Hm. Qed.

Lemma on_local_run (m : M (MptCache St * Node.t) MptError unit) x c n c' x' :
  m (c, x) = ((c', x'), Ok tt) → on_local x m (c, n) = ((c', n), Ok x').
Proof. intros Hm. unfold on_local. by rewrite Hm. Qed.

Lemma on_cache_run {A} (m : M (MptCache St) MptError A) c n c' r :
  m c = (c', r) → on_cache m (c, n) = ((c', n), r).
Proof. intros Hm. unfold on_cache. by rewrite Hm. Qed.

Lemma set_node_run c n x : set_node x (c, n) = ((c, x), Ok tt).
Proof. done. Qed.
End borrow.

Section refine.
Context `{Crypto} `{MptStoreSnapshot St} {fs dnf dint : bool} `{!TrieCache St fs dnf dint}.
Implicit Types (c : MptCache St) (n : Node.t) (t : mpt).

Abbreviation Repr := (repr dnf dint).
Abbreviation Owned := (owned (held fs dnf dint)).
Abbreviation Kids := (kids (held fs dnf dint)).
Abbreviation Self := (own_self (held fs dnf dint)).
Abbreviation Owns := (Own fs dnf dint).
Abbreviation Memo := (memo_ok dnf dint).
Abbreviation Shape := (shape dnf dint).

(** A hash node is replaced by the node it stands for. *)
Lemma resolve_step t n c q F :
  is_hash t n → Owns c q (Owned t n ++ F) →
  ∃ c' n', Memo t n' ∧ Shape t n' ∧ dirty n' = dirty n ∧ Owns c' q (Owned t n' ++ F) ∧
    ∀ A (op : M (MptCache St * Node.t) MptError A),
      (resolved ← on_cache (resolve (hash n));
       match resolved with
       | None => fail Storage
       | Some x => _ ← set_node x; op
       end) (c, n) = op (c', n').
Proof.
  intros Hn Hown. rewrite (owned_hash _ t n Hn) in Hown.
  assert (Hn' := Hn). destruct Hn' as (_ & Ht & Hh & Hd).
  destruct (law_resolve c q t F Ht Hown) as (c' & n' & Hrun & Hm & Hs & Hd' & Hp & Hown').
  exists c', n'. split_and!; [done|done|congruence| |].
  - eapply Own_perm; [|exact Hown']. by rewrite Hp.
  - intros A op. erewrite mbind_ok.
    2:{ apply on_cache_run. rewrite (repr_hash dnf dint t n); [done|]. apply repr_unfold. by left. }
    done.
Qed.

Lemma repr_shape t n : Memo t n → Shape t n → Repr t n.
Proof. intros. apply repr_unfold. by right. Qed.

(** *** Changing one child of a branch, or the child of an extension *)

Lemma branch_child ts n i t :
  Shape (TBranch ts) n → ts !! i = Some t → ∃ ch, children n !! i = Some ch ∧ Repr t ch.
Proof. intros (_ & _ & Hs) Ht. by eapply Forall2_lookup_l in Hs. Qed.

Lemma branch_update ts n i t ch :
  Shape (TBranch ts) n → ts !! i = Some t → children n !! i = Some ch →
  ∃ rest, Kids (TBranch ts) n ≡ₚ Owned t ch ++ rest ∧
    ∀ t' ch', Repr t' ch' →
      Shape (TBranch (<[i := t']> ts)) (with_children (<[i := ch']> (children n)) n) ∧
      Kids (TBranch (<[i := t']> ts)) (with_children (<[i := ch']> (children n)) n) ≡ₚ
        Owned t' ch' ++ rest.
Proof.
  intros (Hp & Hty & Hs) Ht Hch.
  destruct (owned_all_insert (held fs dnf dint) ts (children n) i t ch) as (rest & E1 & E2);
    [by eapply Forall2_length|done..|].
  exists rest. split; [done|]. intros t' ch' Hr. split; [|apply E2]. split_and!; [|done|].
  - destruct Hp as [_ H2']. split; [cbn; by rewrite Hty|exact H2'].
  - by apply Forall2_insert.
Qed.

Lemma branch_update_memo ts n i t t' ch ch' :
  Memo (TBranch ts) n → children n !! i = Some ch → dirty ch' = dirty ch → <[i := t']> ts = ts →
  Memo (TBranch (<[i := t']> ts)) (with_children (<[i := ch']> (children n)) n).
Proof.
  intros (H1' & H2' & H3' & H5' & H4') Hch Hd ->. split_and!; [done..|]. cbn [dirty with_children].
  destruct (dirty n); [done|]. destruct H4' as (Ha & Hcs & Hnx). split_and!; [done| |done].
  apply Forall_insert; [done|]. rewrite Hd. rewrite Forall_lookup in Hcs. eauto.
Qed.

Lemma ext_child_inv k t n :
  Shape (TExt k t) n → key n = k ∧ ∃ ch, next n = Some ch ∧ Repr t ch ∧ Kids (TExt k t) n = Owned t ch.
Proof.
  intros (_ & _ & Hk & ch & Hch & Hr). split; [done|]. exists ch. split_and!; [done..|].
  cbn [kids]. by rewrite Hch.
Qed.

Lemma ext_update k t n t' ch' :
  Shape (TExt k t) n → Repr t' ch' →
  Shape (TExt k t') (with_next (Some ch') n) ∧
  Kids (TExt k t') (with_next (Some ch') n) = Owned t' ch'.
Proof.
  intros (Hp & Hty & Hk & _) Hr. split; [|done]. split_and!; [|done|done|by eexists].
  destruct Hp as [H1' H2']. split; [exact H1'|]. cbn. by rewrite Hty.
Qed.

Lemma ext_update_memo k t n ch ch' :
  Memo (TExt k t) n → next n = Some ch → dirty ch' = dirty ch →
  Memo (TExt k t) (with_next (Some ch') n).
Proof.
  intros (H1' & H2' & H3' & H5' & H4') Hch Hd. split_and!; [done..|]. cbn [dirty with_next].
  destruct (dirty n); [done|]. destruct H4' as (Ha & Hcs & Hnx). split_and!; [done..|].
  intros ? [= <-]. rewrite Hd. by apply Hnx.
Qed.

(** ** Lookup *)

(** A read returns [a]; the node still stands for [t], as clean as it was. *)
Definition read_post {A} t (a : A) (r : (MptCache St * Node.t) * Result MptError A) (d : bool) q F : Prop :=
  ∃ c' n', r = ((c', n'), Ok a) ∧ Repr t n' ∧ dirty n' = d ∧ Owns c' q (Owned t n' ++ F).

Lemma read_here {A} t (a : A) n c q F :
  Memo t n → Shape t n → Owns c q (Owned t n ++ F) → read_post t a ((c, n), Ok a) (dirty n) q F.
Proof. intros Hm Hs Hown. exists c, n. split_and!; [done|by apply repr_shape|done..]. Qed.

(** A read whose result and node are related by [P]. *)
Definition read_rel {A} t (P : A → Node.t → Prop) (r : (MptCache St * Node.t) * Result MptError A)
    (d : bool) q F : Prop :=
  ∃ c' n' a, r = ((c', n'), Ok a) ∧ Repr t n' ∧ dirty n' = d ∧ Owns c' q (Owned t n' ++ F) ∧ P a n'.

Lemma read_post_rel {A} t (a : A) r d q F :
  read_post t a r d q F ↔ read_rel t (λ a' _, a' = a) r d q F.
Proof.
  split; [|by intros (c' & n' & ? & -> & ? & ? & ? & ->); exists c', n'].
  intros (c' & n' & -> & ? & ? & ?). by exists c', n', a.
Qed.

(** Reading below an extension. *)
Lemma rel_next {A} (P : A → Node.t → Prop) (op : M (MptCache St * Node.t) MptError A) k t n c q F :
  Memo (TExt k t) n → Shape (TExt k t) n → Owns c q (Owned (TExt k t) n ++ F) →
  (∀ ch F, Repr t ch → Owns c q (Owned t ch ++ F) → read_rel t P (op (c, ch)) (dirty ch) q F) →
  read_rel (TExt k t) (λ a n', ∃ ch' rest, P a ch' ∧ Owned (TExt k t) n' ≡ₚ Owned t ch' ++ rest)
    (on_next op (c, n)) (dirty n) q F.
Proof.
  intros Hm Hs Hown Hop. destruct (ext_child_inv k t n Hs) as (Hk & ch & Hch & Hrc & Hkids).
  rewrite (owned_shape dnf dint _ _ _ Hs), Hkids in Hown.
  destruct (Hop ch (Self (TExt k t) n ++ F) Hrc) as (c' & ch' & a & Hrun & Hr' & Hd & Hown' & HP).
  { eapply Own_perm; [|exact Hown]. perm. }
  destruct (ext_update k t n t ch' Hs Hr') as [Hs' Hk'].
  assert (Owned (TExt k t) (with_next (Some ch') n) ≡ₚ Owned t ch' ++ Self (TExt k t) n) as Hperm.
  { rewrite (owned_shape dnf dint _ _ _ Hs'), Hk'.
    change (Self (TExt k t) (with_next _ n)) with (Self (TExt k t) n). perm. }
  exists c', (with_next (Some ch') n), a. split_and!; [by apply (on_next_run _ c n ch)| |done| |].
  - apply repr_shape; [by eapply ext_update_memo|done].
  - eapply Own_perm; [|exact Hown']. rewrite Hperm. perm.
  - eauto.
Qed.

Lemma read_next {A} (op : M (MptCache St * Node.t) MptError A) k t n c q F a :
  Memo (TExt k t) n → Shape (TExt k t) n → Owns c q (Owned (TExt k t) n ++ F) →
  (∀ ch F, Repr t ch → Owns c q (Owned t ch ++ F) → read_post t a (op (c, ch)) (dirty ch) q F) →
  read_post (TExt k t) a (on_next op (c, n)) (dirty n) q F.
Proof.
  intros Hm Hs Hown Hop. apply read_post_rel.
  destruct (rel_next (λ a' _, a' = a) op k t n c q F) as (c' & n' & a' & ? & ? & ? & ? & ? & ? & -> & _);
    [done..| |by exists c', n', a].
  intros. by apply read_post_rel, Hop.
Qed.

(** Reading below a branch. *)
Lemma rel_child {A} (P : A → Node.t → Prop) (op : M (MptCache St * Node.t) MptError A) ts i t n c q F :
  ts !! i = Some t → Memo (TBranch ts) n → Shape (TBranch ts) n →
  Owns c q (Owned (TBranch ts) n ++ F) →
  (∀ ch F, Repr t ch → Owns c q (Owned t ch ++ F) → read_rel t P (op (c, ch)) (dirty ch) q F) →
  read_rel (TBranch ts) (λ a n', ∃ ch' rest, P a ch' ∧ Owned (TBranch ts) n' ≡ₚ Owned t ch' ++ rest)
    (on_child i op (c, n)) (dirty n) q F.
Proof.
  intros Ht Hm Hs Hown Hop. destruct (branch_child ts n _ t Hs Ht) as (ch & Hch & Hrc).
  assert (<[i := t]> ts = ts) as Hins by (by apply list_insert_id).
  destruct (branch_update ts n _ t ch Hs Ht Hch) as (rest & E1 & Hupd).
  destruct (Hop ch (rest ++ Self (TBranch ts) n ++ F) Hrc) as (c' & ch' & a & Hrun & Hr' & Hd & Hown' & HP).
  { eapply Own_perm; [|exact Hown]. rewrite (owned_shape dnf dint _ _ _ Hs), E1. perm. }
  destruct (Hupd t ch' Hr') as [Hs' E2]. rewrite Hins in Hs', E2.
  assert (Owned (TBranch ts) (with_children (<[i := ch']> (children n)) n) ≡ₚ
    Owned t ch' ++ rest ++ Self (TBranch ts) n) as Hperm.
  { rewrite (owned_shape dnf dint _ _ _ Hs'), E2.
    change (Self (TBranch ts) (with_children _ n)) with (Self (TBranch ts) n). perm. }
  exists c', (with_children (<[i := ch']> (children n)) n), a.
  split_and!; [by apply (on_child_run _ _ c n ch)| |done| |].
  - pose proof (branch_update_memo ts n _ t t ch ch' Hm Hch Hd Hins) as Hm'.
    rewrite Hins in Hm'. by apply repr_shape.
  - eapply Own_perm; [|exact Hown']. rewrite Hperm. perm.
  - eauto.
Qed.

Lemma read_child {A} (op : M (MptCache St * Node.t) MptError A) ts i t n c q F a :
  ts !! i = Some t → Memo (TBranch ts) n → Shape (TBranch ts) n →
  Owns c q (Owned (TBranch ts) n ++ F) →
  (∀ ch F, Repr t ch → Owns c q (Owned t ch ++ F) → read_post t a (op (c, ch)) (dirty ch) q F) →
  read_post (TBranch ts) a (on_child i op (c, n)) (dirty n) q F.
Proof.
  intros Ht Hm Hs Hown Hop. apply read_post_rel.
  destruct (rel_child (λ a' _, a' = a) op ts i t n c q F) as (c' & n' & a' & ? & ? & ? & ? & ? & ? & -> & _);
    [done..| |by exists c', n', a].
  intros. by apply read_post_rel, Hop.
Qed.

(** A reader that resolves hash nodes and goes on with the node found;
    [Φ] is its postcondition. *)
Lemma hash_step {A} t d (op : nat → M (MptCache St * Node.t) MptError A)
    (Φ : (MptCache St * Node.t) * Result MptError A → bool → nat → list mpt → Prop) fuel n c q F :
  (∀ fuel s, node_type s.2 = HashNode → op (S fuel) s =
     (resolved ← on_cache (resolve (hash s.2));
      match resolved with
      | None => fail Storage
      | Some x => _ ← set_node x; op fuel
      end) s) →
  (∀ fuel n c q F, Memo t n → Shape t n → (2 * d ≤ fuel)%nat → Owns c q (Owned t n ++ F) →
     Φ (op (S fuel) (c, n)) (dirty n) q F) →
  Repr t n → (2 * S d ≤ fuel)%nat → Owns c q (Owned t n ++ F) →
  Φ (op fuel (c, n)) (dirty n) q F.
Proof.
  intros Heq Hshape [Hh|[Hm Hs]]%repr_unfold Hf Hown;
    (destruct fuel as [|fuel]; [lia|]); [|by apply Hshape; [..|lia|]].
  destruct (resolve_step t n c q F Hh Hown) as (c' & n' & Hm & Hs & Hd & Hown' & Hrun).
  destruct fuel as [|fuel]; [lia|]. rewrite Heq by apply Hh. cbn [snd]. rewrite Hrun, <-Hd.
  apply Hshape; try done; lia.
Qed.

Lemma read_hash {A} t (a : A) d (op : nat → M (MptCache St * Node.t) MptError A) fuel n c q F :
  (∀ fuel s, node_type s.2 = HashNode → op (S fuel) s =
     (resolved ← on_cache (resolve (hash s.2));
      match resolved with
      | None => fail Storage
      | Some x => _ ← set_node x; op fuel
      end) s) →
  (∀ fuel n c q F, Memo t n → Shape t n → (2 * d ≤ fuel)%nat → Owns c q (Owned t n ++ F) →
     read_post t a (op (S fuel) (c, n)) (dirty n) q F) →
  Repr t n → (2 * S d ≤ fuel)%nat → Owns c q (Owned t n ++ F) →
  read_post t a (op fuel (c, n)) (dirty n) q F.
Proof. apply (hash_step t d op (read_post t a)). Qed.

Lemma get_refines t fuel n c q F p :
  Repr t n → canon t → nibbles p → (2 * mdepth t p ≤ fuel)%nat → Owns c q (Owned t n ++ F) →
  read_post t (mlookup t p) (try_get_node_path fuel p (c, n)) (dirty n) q F.
Proof.
  revert fuel n c q F p. induction t as [|v|k t IH|ts IH] using mpt_induction;
    intros fuel n c q F p Hr Hcan Hp Hf Hown;
    (eapply (read_hash _ _ _ (λ fuel, try_get_node_path fuel p)); [|..|exact Hf|exact Hown]; try done;
     [by intros ? [? ?] E; cbn [try_get_node_path]; rewrite (mbind_ok (gets snd) _ _ _ _ eq_refl), E|]);
    clear fuel n c q F Hr Hf Hown; intros fuel n c q F Hm Hs Hf Hown;
    cbn [try_get_node_path]; rewrite (mbind_ok (gets snd) _ _ _ _ eq_refl); cbn [snd];
    rewrite (shape_type dnf dint _ _ Hs).
  - by apply read_here.
  - assert (value n = v) as -> by apply Hs. destruct p; by apply read_here.
  - destruct (ext_child_inv k t n Hs) as (Hk & _). rewrite Hk. cbn [mlookup].
    destruct (starts_with p k) eqn:E; [|by apply read_here].
    apply canon_ext in Hcan as (_ & _ & _ & Hcan). apply read_next; [done..|]. intros ch F' Hrc Hown'.
    apply IH; try done. by apply Forall_drop.
  - assert (Hcan' := Hcan). apply canon_branch in Hcan' as (Hl & _ & _ & Hcs).
    destruct (ts !! (branch_step p).1) as [t|] eqn:Ht.
    2:{ apply lookup_ge_None in Ht. pose proof (branch_step_lt p Hp). lia. }
    rewrite mlookup_branch, Ht. cbn [mbind option_bind]. rewrite Forall_lookup in IH, Hcs.
    assert (∀ ch F', Repr t ch → Owns c q (Owned t ch ++ F') →
      read_post t (mlookup t (branch_step p).2)
        (try_get_node_path fuel (branch_step p).2 (c, ch)) (dirty ch) q F') as Hrec.
    { intros ch F' Hrc Hown'. apply (IH _ t Ht); eauto using branch_step_nibbles.
      pose proof (mdepth_branch ts p t Ht) as E. cbn [mdepth] in E. injection E as <-. done. }
    destruct p; by eapply read_child.
Qed.

(** ** Insertion *)

Lemma stage_run c q n t F :
  Shape t n → tempty t = false → stageable fs dnf dint t → Owns c (S q) (Kids t n ++ F) →
  ∃ c' n', stage_mutated_node dnf (c, n) = ((c', n'), Ok tt) ∧ Repr t n' ∧ Shape t n' ∧
    Owns c' q (Owned t n' ++ F).
Proof.
  intros Hs Ht Hst Hown. destruct (law_stage c q n t F Hs Ht Hst Hown) as (c' & n' & ? & ? & ? & ?).
  exists c', n'. split_and!; [done|by apply repr_shape|done..].
Qed.

Lemma new_leaf_shape v : Shape (TLeaf v) (new_leaf v).
Proof. done. Qed.

Lemma new_extension_shape k t ch :
  k ≠ [] → Repr t ch →
  ∃ n, new_extension k ch = Ok n ∧ Shape (TExt k t) n ∧ Kids (TExt k t) n = Owned t ch.
Proof.
  intros Hk Hr. destruct k as [|b k]; [done|]. eexists. split; [done|]. split; [|done].
  split_and!; [done..|by eexists].
Qed.

Lemma empty_repr : Repr TEmpty Node.new.
Proof.
  apply repr_unfold. right. split; [|done]. split_and!; [done..|]. cbn. split_and!; [by left|done..].
Qed.

Lemma Forall2_replicate {A B} (R : A → B → Prop) k x y :
  R x y → Forall2 R (replicate k x) (replicate k y).
Proof. intros HR. induction k; cbn; by constructor. Qed.

Lemma new_branch_shape :
  Shape (TBranch empty_children) new_branch ∧ Kids (TBranch empty_children) new_branch = [].
Proof.
  split; [|done]. split_and!; [done..|]. apply Forall2_replicate, empty_repr.
Qed.

(** Subtrees of a child are subtrees of the parent. *)
Lemma stageable_child ts i t :
  Forall (stageable fs dnf dint) (subtrees (TBranch ts)) → ts !! i = Some t →
  Forall (stageable fs dnf dint) (subtrees t).
Proof.
  rewrite !Forall_forall. intros Hall Hi s Hs. apply Hall. cbn [subtrees]. right.
  clear Hall. revert i Hi. induction ts as [|t0 ts IH]; intros [|i] Hi; try done; cbn.
  - injection Hi as ->. apply elem_of_app. by left.
  - apply elem_of_app. right. by eapply IH.
Qed.

Lemma stageable_self t :
  Forall (stageable fs dnf dint) (subtrees t) → tempty t = false → stageable fs dnf dint t.
Proof. intros Hall Ht. destruct t; [done|..]; by apply Forall_cons_1 in Hall as [? _]. Qed.

Lemma stageable_below k t :
  Forall (stageable fs dnf dint) (subtrees (TExt k t)) → Forall (stageable fs dnf dint) (subtrees t).
Proof. by intros [_ ?]%Forall_cons_1. Qed.

Definition put_post t' (r : (MptCache St * Node.t) * Result MptError unit) q F : Prop :=
  ∃ c' n', r = ((c', n'), Ok tt) ∧ Repr t' n' ∧ Owns c' q (Owned t' n' ++ F).

Abbreviation put := (put_internal fs dnf).

Lemma put_empty fuel p v n c q F :
  node_type n = Empty → Forall (stageable fs dnf dint) (subtrees (mput_empty p v)) → Owns c (2 + q) F →
  put_post (mput_empty p v) (put (S fuel) p (new_leaf v) (c, n)) q F.
Proof.
  intros Hty Hst Hown. cbn [put_internal]. rewrite (mbind_ok (gets snd) _ _ _ _ eq_refl). cbn [snd].
  rewrite Hty. destruct p as [|b p].
  - rewrite (mbind_ok (set_node _) _ _ _ _ eq_refl). rewrite bool_decide_true by done.
    destruct (stage_run c q (new_leaf v) (TLeaf v) F) as (c' & n' & ? & ? & ? & ?);
      [done..|by apply stageable_self|by eapply Own_weaken; [|exact Hown]; lia|]. by exists c', n'.
  - destruct (stage_run c (1 + q) (new_leaf v) (TLeaf v) F) as (c1 & n1 & Hrun1 & Hr1 & _ & Hown1);
      [done..|by apply stageable_below, stageable_self in Hst|done|].
    rewrite (mbind_ok _ _ _ _ _ (on_local_run _ _ _ n _ _ Hrun1)).
    destruct (new_extension_shape (b :: p) (TLeaf v) n1) as (e & He & Hs & Hk); [done..|].
    rewrite He. rewrite (mbind_ok (lift _) _ _ _ _ eq_refl).
    destruct (stage_run c1 q e (TExt (b :: p) (TLeaf v)) F) as (c2 & n2 & Hrun2 & Hr2 & Hs2 & Hown2);
      [done..|by apply stageable_self|by rewrite Hk|].
    rewrite (mbind_ok _ _ _ _ _ (on_local_run _ _ _ n _ _ Hrun2)).
    rewrite (mbind_ok (set_node _) _ _ _ _ eq_refl), (shape_type dnf dint _ _ Hs2).
    by exists c2, n2.
Qed.

(** Owning nothing for an empty child. *)
Lemma fork_first i t ch :
  (i < BRANCH_CHILD_COUNT)%nat → Repr t ch →
  Shape (TBranch (<[i := t]> empty_children)) (set_child i ch new_branch) ∧
  Kids (TBranch (<[i := t]> empty_children)) (set_child i ch new_branch) ≡ₚ Owned t ch.
Proof.
  intros Hi Hr. destruct new_branch_shape as [Hs Hk]. unfold set_child.
  rewrite (proj2 (Nat.ltb_lt _ _)) by done.
  assert (empty_children !! i = Some TEmpty) as Ht by (by apply lookup_replicate_2).
  assert (children new_branch !! i = Some Node.new) as Hch by (by apply lookup_replicate_2).
  destruct (branch_update _ _ i TEmpty Node.new Hs Ht Hch) as (rest & E & Hupd).
  rewrite Hk, owned_empty in E by done. destruct (Hupd t ch Hr) as [? ->]. split; [done|].
  by rewrite <-E, app_nil_r.
Qed.

Lemma fork_second i j t ch n :
  (i < BRANCH_CHILD_COUNT)%nat → (j < BRANCH_CHILD_COUNT)%nat → i ≠ j →
  Shape (TBranch (<[i := t]> empty_children)) n →
  Kids (TBranch (<[i := t]> empty_children)) n ≡ₚ Owned t ch →
  ∃ cj, children n !! j = Some cj ∧ node_type cj = Empty ∧
    ∀ t' ch', Repr t' ch' →
      Shape (TBranch (<[j := t']> (<[i := t]> empty_children))) (set_child j ch' n) ∧
      Kids (TBranch (<[j := t']> (<[i := t]> empty_children))) (set_child j ch' n) ≡ₚ
        Owned t' ch' ++ Owned t ch.
Proof.
  intros Hi Hj Hij Hs Hk.
  assert (<[i := t]> empty_children !! j = Some TEmpty) as Ht.
  { rewrite list_lookup_insert_ne by done. by apply lookup_replicate_2. }
  destruct (branch_child _ _ j TEmpty Hs Ht) as (cj & Hcj & Hrj). exists cj.
  assert (node_type cj = Empty) as Hty.
  { apply repr_unfold in Hrj as [(_ & ? & _)|[_ ?%shape_type]]; done. }
  split_and!; [done..|]. intros t' ch' Hr'.
  destruct (branch_update _ _ j TEmpty cj Hs Ht Hcj) as (rest & E & Hupd).
  rewrite owned_empty in E by done. cbn [app] in E.
  unfold set_child. rewrite (proj2 (Nat.ltb_lt _ _)) by (by eapply lookup_lt_Some).
  destruct (Hupd t' ch' Hr') as [? ->]. split; [done|]. by rewrite <-E, Hk.
Qed.

Lemma put_leaf fuel p v w n c q F :
  Memo (TLeaf w) n → Shape (TLeaf w) n → nibbles p → (p ≠ [] → 1 ≤ fuel)%nat →
  Forall (stageable fs dnf dint) (subtrees (mput (TLeaf w) p v)) → Owns c (3 + q) (Owned (TLeaf w) n ++ F) →
  put_post (mput (TLeaf w) p v) (put (S fuel) p (new_leaf v) (c, n)) q F.
Proof.
  intros Hm Hs Hp Hf Hst Hown. cbn [put_internal]. rewrite (mbind_ok (gets snd) _ _ _ _ eq_refl).
  cbn [snd]. rewrite (shape_type dnf dint _ _ Hs). destruct Hp as [|b r Hb Hr].
  - destruct (law_release n (TLeaf w) Hm Hs eq_refl) as (old & Hold & Hrel).
    rewrite Hold, (mbind_ok (lift _) _ _ _ _ eq_refl).
    rewrite (owned_shape dnf dint _ _ _ Hs), <-app_assoc in Hown.
    destruct (Hrel c _ _ n Hown) as (c1 & Hrun1 & Hown1). rewrite (mbind_ok _ _ _ _ _ Hrun1).
    rewrite (mbind_ok (set_node _) _ _ _ _ eq_refl).
    destruct (stage_run c1 q (new_leaf v) (TLeaf v) F) as (c' & n' & ? & ? & ? & ?);
      [done..|by apply stageable_self|by eapply Own_weaken; [|exact Hown1]; lia|]. by exists c', n'.
  - destruct fuel as [|fuel]; [by specialize (Hf ltac:(done)); lia|].
    rewrite (mbind_ok (set_node _) _ _ _ _ eq_refl).
    assert (Repr (TLeaf w) n) as Hrn by (by apply repr_shape). cbn [mput] in Hst |- *.
    destruct (fork_first BRANCH_VALUE_INDEX (TLeaf w) n value_index_lt Hrn) as [Hs1 Hk1].
    destruct (fork_second BRANCH_VALUE_INDEX (nibble_index b) (TLeaf w) n _ value_index_lt
      (nibble_index_lt b Hb) (not_eq_sym (nibble_index_value b Hb)) Hs1 Hk1) as (cj & Hcj & Htyj & Hupd).
    set (n1 := set_child BRANCH_VALUE_INDEX n new_branch) in *.
    destruct (put_empty fuel r v cj c (S q) (Owned (TLeaf w) n ++ F)) as (c2 & ch2 & Hrun2 & Hr2 & Hown2);
      [done| |done|].
    { eapply stageable_child; [exact Hst|]. apply list_lookup_insert_eq.
      rewrite length_insert, length_empty_children. by apply nibble_index_lt. }
    rewrite (mbind_ok _ _ _ _ _ (on_local_run _ _ _ Node.new _ _ (on_child_run _ _ _ _ _ _ _ _ Hcj Hrun2))).
    destruct (Hupd _ ch2 Hr2) as [Hs2 Hk2]. unfold set_child in Hs2, Hk2.
    rewrite (proj2 (Nat.ltb_lt _ _)) in Hs2, Hk2 by (by eapply lookup_lt_Some).
    destruct (stage_run c2 q _ _ F Hs2) as (c3 & n3 & Hrun3 & Hr3 & _ & Hown3);
      [done|by apply stageable_self| |].
    { eapply Own_perm; [|exact Hown2]. rewrite Hk2. perm. }
    rewrite (mbind_ok _ _ _ _ _ (on_local_run _ _ _ Node.new _ _ Hrun3)). by exists c3, n3.
Qed.

Lemma put_ext_descend cost fuel k t r v n c q F :
  (∀ ch c q F, Repr t ch → Owns c (cost + q) (Owned t ch ++ F) →
     put_post (mput t r v) (put fuel r (new_leaf v) (c, ch)) q F) →
  Memo (TExt k t) n → Shape (TExt k t) n → stageable fs dnf dint (TExt k (mput t r v)) →
  Owns c (cost + S q) (Owned (TExt k t) n ++ F) →
  put_post (TExt k (mput t r v)) (put (S fuel) (k ++ r) (new_leaf v) (c, n)) q F.
Proof.
  intros IH Hm Hs Hst Hown. cbn [put_internal]. rewrite (mbind_ok (gets snd) _ _ _ _ eq_refl).
  cbn [snd]. rewrite (shape_type dnf dint _ _ Hs).
  destruct (ext_child_inv k t n Hs) as (-> & ch & Hch & Hrc & Hkids).
  rewrite starts_with_app, drop_app_length.
  destruct (law_release n (TExt k t) Hm Hs eq_refl) as (old & Hold & Hrel).
  rewrite Hold, (mbind_ok (lift _) _ _ _ _ eq_refl).
  rewrite (owned_shape dnf dint _ _ _ Hs), Hkids in Hown.
  destruct (IH ch c (S q) (Self (TExt k t) n ++ F) Hrc) as (c1 & ch1 & Hrun1 & Hr1 & Hown1).
  { eapply Own_perm; [|exact Hown]. perm. }
  rewrite (mbind_ok _ _ _ _ _ (on_next_run _ _ _ _ _ _ _ Hch Hrun1)).
  destruct (Hrel c1 (S q) (Owned (mput t r v) ch1 ++ F) (with_next (Some ch1) n)) as (c2 & Hrun2 & Hown2).
  { eapply Own_perm; [|exact Hown1]. perm. }
  rewrite (mbind_ok _ _ _ _ _ Hrun2).
  destruct (ext_update k t n (mput t r v) ch1 Hs Hr1) as [Hs' Hk'].
  destruct (stage_run c2 q _ _ F Hs') as (c3 & n3 & Hrun3 & Hr3 & _ & Hown3);
    [done..|by rewrite Hk'|]. by exists c3, n3.
Qed.

Lemma put_branch cost fuel ts t p v n c q F :
  ts !! (branch_step p).1 = Some t →
  (∀ ch c q F, Repr t ch → Owns c (cost + q) (Owned t ch ++ F) →
     put_post (mput t (branch_step p).2 v) (put fuel (branch_step p).2 (new_leaf v) (c, ch)) q F) →
  Memo (TBranch ts) n → Shape (TBranch ts) n →
  let t' := TBranch (<[(branch_step p).1 := mput t (branch_step p).2 v]> ts) in
  stageable fs dnf dint t' → Owns c (cost + S q) (Owned (TBranch ts) n ++ F) →
  put_post t' (put (S fuel) p (new_leaf v) (c, n)) q F.
Proof.
  intros Ht IH Hm Hs t' Hst Hown. cbn [put_internal].
  rewrite (mbind_ok (gets snd) _ _ _ _ eq_refl). cbn [snd]. rewrite (shape_type dnf dint _ _ Hs).
  destruct (law_release n (TBranch ts) Hm Hs eq_refl) as (old & Hold & Hrel).
  rewrite Hold, (mbind_ok (lift _) _ _ _ _ eq_refl).
  destruct (branch_child ts n _ t Hs Ht) as (ch & Hch & Hrc).
  destruct (branch_update ts n _ t ch Hs Ht Hch) as (rest & E1 & Hupd).
  rewrite (owned_shape dnf dint _ _ _ Hs) in Hown.
  destruct (IH ch c (S q) (rest ++ Self (TBranch ts) n ++ F) Hrc) as (c1 & ch1 & Hrun1 & Hr1 & Hown1).
  { eapply Own_perm; [|exact Hown]. rewrite E1. perm. }
  destruct (Hupd _ ch1 Hr1) as [Hs' E2].
  set (n1 := with_children (<[(branch_step p).1 := ch1]> (children n)) n) in *.
  assert (match p with
          | [] => on_child BRANCH_VALUE_INDEX (put fuel [] (new_leaf v))
          | p0 :: prest => on_child (nibble_index p0) (put fuel prest (new_leaf v))
          end (c, n) = ((c1, n1), Ok tt)) as Hrun.
  { destruct p; cbn [branch_step fst snd] in *; by apply (on_child_run _ _ _ _ ch). }
  rewrite (mbind_ok _ _ _ _ _ Hrun).
  destruct (Hrel c1 (S q) (Owned (mput t (branch_step p).2 v) ch1 ++ rest ++ F) n1) as (c2 & Hrun2 & Hown2).
  { eapply Own_perm; [|exact Hown1]. perm. }
  rewrite (mbind_ok _ _ _ _ _ Hrun2).
  destruct (stage_run c2 q _ _ F Hs') as (c3 & n3 & Hrun3 & Hr3 & _ & Hown3); [done..| |by exists c3, n3].
  eapply Own_perm; [|exact Hown2]. rewrite E2. perm.
Qed.

(** The part of the split below the shared prefix. *)
Lemma split_below k t ch c q F x :
  Repr t ch → (k ≠ [] → stageable fs dnf dint (TExt k t)) → Owns c (S q) (Owned t ch ++ F) →
  ∃ c' ch', (match k with
             | [] => mret ch
             | _ => e ← lift (new_extension k ch); on_local e (stage_mutated_node dnf)
             end) (c, x) = ((c', x), Ok ch') ∧
    Repr (mext k t) ch' ∧ Owns c' q (Owned (mext k t) ch' ++ F).
Proof.
  intros Hr Hst Hown.
  destruct k as [|b k]; [exists c, ch; split_and!; [done..|by eapply Own_weaken; [|exact Hown]; lia]|].
  destruct (new_extension_shape (b :: k) t ch) as (e & He & Hs & Hk); [done..|].
  rewrite He, (mbind_ok (lift _) _ _ _ _ eq_refl).
  destruct (stage_run c q e (TExt (b :: k) t) F) as (c1 & n1 & Hrun & Hr1 & _ & Hown1);
    [done..|by apply Hst|by rewrite Hk|].
  exists c1, n1. split_and!; [by apply on_local_run|done..].
Qed.

(** The branch of the split: the old subtree below [k0], the new value. *)
Lemma split_branch fuel k0 below t p v c q F x :
  is_nibble k0 = true → nibbles p → head p ≠ Some k0 → (1 ≤ fuel)%nat → Repr t below →
  let br := TBranch (<[(branch_step p).1 := mput_empty (branch_step p).2 v]>
                       (<[nibble_index k0 := t]> empty_children)) in
  Forall (stageable fs dnf dint) (subtrees br) → Owns c (3 + q) (Owned t below ++ F) →
  ∃ c' n', (let child_branch := set_child (nibble_index k0) below new_branch in
            child_branch ←
              match p with
              | [] =>
                  value_child ← on_local Node.new (put fuel [] (new_leaf v));
                  mret (set_child BRANCH_VALUE_INDEX value_child child_branch)
              | p0 :: prest =>
                  value_child ← on_local Node.new (put fuel prest (new_leaf v));
                  mret (set_child (nibble_index p0) value_child child_branch)
              end;
            on_local child_branch (stage_mutated_node dnf)) (c, x) = ((c', x), Ok n') ∧
    Repr br n' ∧ Owns c' q (Owned br n' ++ F).
Proof.
  intros Hk0 Hp Hhd Hf Hr br Hst Hown. destruct fuel as [|fuel]; [lia|].
  assert (nibble_index k0 ≠ (branch_step p).1) as Hne.
  { destruct p as [|p0 p]; cbn [branch_step fst]; [by apply nibble_index_value|].
    intros E%nibble_index_inj. by subst. }
  destruct (fork_first (nibble_index k0) t below) as [Hs1 Hk1]; [by apply nibble_index_lt|done|].
  destruct (fork_second (nibble_index k0) (branch_step p).1 t below
    (set_child (nibble_index k0) below new_branch)) as (_ & _ & _ & Hupd);
    [by apply nibble_index_lt|by apply branch_step_lt|done|exact Hs1|exact Hk1|].
  set (n1 := set_child (nibble_index k0) below new_branch) in *.
  destruct (put_empty fuel (branch_step p).2 v Node.new c (S q) (Owned t below ++ F))
    as (c1 & ch1 & Hrun1 & Hr1 & Hown1); [done| |done|].
  { eapply stageable_child; [exact Hst|]. apply list_lookup_insert_eq.
    rewrite length_insert, length_empty_children. by apply branch_step_lt. }
  destruct (Hupd _ ch1 Hr1) as [Hs2 Hk2]. cbv zeta.
  rewrite (mbind_ok _ _ _ (c1, x) (set_child (branch_step p).1 ch1 n1)).
  2:{ destruct p; cbn [branch_step fst snd] in Hrun1 |- *;
        by rewrite (mbind_ok _ _ _ _ _ (on_local_run _ _ _ x _ _ Hrun1)). }
  destruct (stage_run c1 q _ _ F Hs2) as (c2 & n2 & Hrun2 & Hr2 & _ & Hown2);
    [done|by apply stageable_self| |].
  { eapply Own_perm; [|exact Hown1]. rewrite Hk2. perm. }
  exists c2, n2. split_and!; [by apply on_local_run|done..].
Qed.

Lemma mext_stageable pre t :
  Forall (stageable fs dnf dint) (subtrees (mext pre t)) →
  Forall (stageable fs dnf dint) (subtrees t) ∧ (pre ≠ [] → stageable fs dnf dint (TExt pre t)).
Proof.
  destruct pre as [|b pre]; [done|]. intros Hst. split; [by eapply stageable_below|].
  intros _. by apply stageable_self.
Qed.

Lemma put_split fuel k t p v n c q F :
  Memo (TExt k t) n → Shape (TExt k t) n → canon (TExt k t) → nibbles p →
  starts_with p k = false → (1 ≤ fuel)%nat →
  Forall (stageable fs dnf dint) (subtrees (msplit k t p v)) → Owns c (5 + q) (Owned (TExt k t) n ++ F) →
  put_post (msplit k t p v)
    (split_extension fs dnf (λ rest, put fuel rest (new_leaf v)) n p (c, n)) q F.
Proof.
  intros Hm Hs (_ & Hnk & Hx & _)%canon_ext Hp Hsw Hf Hst Hown.
  destruct (ext_child_inv k t n Hs) as (Hk & ch & Hch & Hrc & Hkids).
  destruct (common_prefix_split k p Hsw) as (pre & k0 & krest & pr & -> & -> & Hhd & Hl).
  apply nibbles_app in Hnk as [Hpre [Hk0 Hkr]%nibbles_cons]. apply nibbles_app in Hp as [_ Hp].
  rewrite msplit_unfold in Hst |- * by done. apply mext_stageable in Hst as [Hst Hstp].
  destruct (law_release n _ Hm Hs eq_refl) as (old & Hold & Hrel).
  rewrite (owned_shape dnf dint _ _ _ Hs), Hkids, <-app_assoc in Hown.
  destruct (Hrel c _ _ n Hown) as (c1 & Hrun1 & Hown1).
  unfold split_extension. rewrite Hk, Hl, Hold. rewrite (mbind_ok (lift _) _ _ _ _ eq_refl).
  rewrite (mbind_ok _ _ _ _ _ Hrun1), (mbind_ok (set_node _) _ _ _ _ eq_refl), Hch.
  rewrite (mbind_ok (set_node _) _ _ _ _ eq_refl), !drop_app_length, take_app_length.
  destruct (split_below krest t ch c1 (4 + q) F (with_next None (with_key [] n)) Hrc)
    as (c2 & below & Hrun2 & Hr2 & Hown2); [|done|].
  { intros Hkr0. assert (Forall (stageable fs dnf dint) (subtrees (mext krest t))) as Hst'.
    { eapply stageable_child; [exact Hst|]. rewrite list_lookup_insert_ne.
      - apply list_lookup_insert_eq. rewrite length_empty_children. by apply nibble_index_lt.
      - destruct pr as [|p0 pr]; cbn [branch_step fst];
          [apply not_eq_sym; by apply nibble_index_value|]. intros E%nibble_index_inj. by subst. }
    by apply mext_stageable in Hst' as [_ ?]; auto. }
  rewrite (mbind_ok _ _ _ _ _ Hrun2).
  destruct (split_branch fuel k0 below (mext krest t) pr v c2 (1 + q) F (with_next None (with_key [] n)))
    as (c3 & br & Hrun3 & Hr3 & Hown3); [done..|].
  cbv zeta in Hrun3 |- *. apply mbind_inv_ok in Hrun3 as (s3 & nb & Hnb & Hrun3).
  rewrite (mbind_ok _ _ _ _ _ Hnb), (mbind_ok _ _ _ _ _ Hrun3).
  destruct pre as [|p0 pre];
    [exists c3, br; split_and!; [done..|by eapply Own_weaken; [|exact Hown3]; lia]|].
  destruct (split_below (p0 :: pre) _ br c3 q F (with_next None (with_key [] n)) Hr3 Hstp Hown3)
    as (c4 & e & Hrun4 & Hr4 & Hown4).
  apply mbind_inv_ok in Hrun4 as (s4 & e0 & Hlift & Hrun4).
  rewrite (mbind_ok _ _ _ _ _ Hlift), (mbind_ok _ _ _ _ _ Hrun4). by exists c4, e.
Qed.

Lemma put_hash cost t t' fuel n c q F p v :
  (∀ fuel n c q F, Memo t n → Shape t n → (2 * mdepth t p ≤ S fuel)%nat → Owns c (cost + q) (Owned t n ++ F) →
     put_post t' (put fuel p (new_leaf v) (c, n)) q F) →
  Repr t n → (2 * mdepth t p ≤ fuel)%nat → Owns c (cost + q) (Owned t n ++ F) →
  put_post t' (put fuel p (new_leaf v) (c, n)) q F.
Proof.
  intros Hshape [Hh|[Hm Hs]]%repr_unfold Hf Hown; [|by apply Hshape; [..|lia|]].
  destruct fuel as [|fuel]; [destruct t; simpl in Hf; lia|].
  destruct (resolve_step t n c _ F Hh Hown) as (c' & n' & Hm & Hs & _ & Hown' & Hrun).
  cbn [put_internal]. rewrite (mbind_ok (gets snd) _ _ _ _ eq_refl). cbn [snd].
  assert (Hh' := Hh). destruct Hh' as (-> & _). rewrite Hrun. apply Hshape; try done; lia.
Qed.

Lemma alter_insert_eq {A} (f : A → A) (l : list A) i x :
  l !! i = Some x → alter f i l = <[i := f x]> l.
Proof.
  revert i. induction l as [|y l IH]; intros [|i] Hi; try done; simplify_eq/=; [done|].
  f_equal. by apply IH.
Qed.

#[local] Ltac weaken H := eapply Own_weaken; [|exact H]; cbn [mdepth]; lia.

Lemma put_refines t fuel n c q F p v :
  Repr t n → canon t → nibbles p → (2 * mdepth t p ≤ fuel)%nat →
  Forall (stageable fs dnf dint) (subtrees (mput t p v)) → Owns c (mdepth t p + 4 + q) (Owned t n ++ F) →
  put_post (mput t p v) (put fuel p (new_leaf v) (c, n)) q F.
Proof.
  revert fuel n c q F p. induction t as [|w|k t IH|ts IH] using mpt_induction;
    intros fuel n c q F p Hr Hcan Hp Hf Hst Hown; eapply put_hash; try done;
    clear fuel n c q F Hr Hf Hown; intros fuel n c q F Hm Hs Hf Hown;
    (destruct fuel as [|fuel]; [destruct p; cbn in Hf; lia|]).
  - apply put_empty; [by destruct Hs|done|].
    rewrite owned_empty in Hown by (by destruct Hs). weaken Hown.
  - apply put_leaf; try done; [destruct p; [done|]; cbn in Hf; lia|]. destruct p; weaken Hown.
  - cbn [mput mdepth] in *. destruct (starts_with p k) eqn:E.
    + assert (Hcan' := Hcan). apply canon_ext in Hcan' as (_ & _ & _ & Hcan').
      apply starts_with_spec in E as [r ->]. rewrite drop_app_length in *.
      apply nibbles_app in Hp as [_ Hr].
      eapply (put_ext_descend (mdepth t r + 4));
        [|done|done|by apply stageable_self|weaken Hown].
      intros ch c' q' F' Hrc Hown'. apply IH; try done; [lia|]. by eapply stageable_below.
    + cbn [put_internal]. rewrite (mbind_ok (gets snd) _ _ _ _ eq_refl). cbn [snd].
      rewrite (shape_type dnf dint _ _ Hs). destruct (ext_child_inv k t n Hs) as (Hk & _).
      rewrite Hk, E. apply put_split; try done; [lia|]. weaken Hown.
  - assert (Hcan' := Hcan). apply canon_branch in Hcan' as (Hl & _ & _ & Hcs).
    destruct (ts !! (branch_step p).1) as [t|] eqn:Ht.
    2:{ apply lookup_ge_None in Ht. pose proof (branch_step_lt p Hp). lia. }
    rewrite (mdepth_branch ts p t Ht) in Hf, Hown. rewrite Forall_lookup in IH, Hcs.
    rewrite mput_branch, (alter_insert_eq _ _ _ t Ht) in Hst |- *.
    eapply (put_branch (mdepth t (branch_step p).2 + 4) fuel ts t p v n c q F Ht);
      [|done|done|by apply stageable_self|weaken Hown].
    intros ch c' q' F' Hrc Hown'. apply (IH _ t Ht); eauto using branch_step_nibbles; [lia|].
    eapply stageable_child; [exact Hst|]. apply list_lookup_insert_eq. by eapply lookup_lt_Some.
Qed.

(** ** Deletion *)

Lemma repr_is_empty t n : Repr t n → is_empty n = tempty t.
Proof.
  intros [(Hty & Ht & _)|[_ Hs%shape_type]]%repr_unfold; unfold is_empty.
  - rewrite Hty, Ht. done.
  - rewrite Hs. by destruct t.
Qed.

Lemma scan_children_spec cs i first : scan_children cs i first = scan (is_empty <$> cs) i first.
Proof.
  revert i first. induction cs as [|c cs IH]; intros i first; [done|].
  rewrite fmap_cons. cbn [scan_children scan]. destruct (is_empty c); [done|]. by destruct first.
Qed.

Lemma branch_emptiness ts n : Shape (TBranch ts) n → is_empty <$> children n = tempty <$> ts.
Proof.
  intros (_ & _ & Hs). induction Hs as [|t ch ts cs Hr _ IH]; [done|].
  by rewrite !fmap_cons, IH, (repr_is_empty t).
Qed.

Lemma repr_empty_owned t n : Repr t n → tempty t = true → Owned t n = [].
Proof.
  intros Hr Ht. pose proof (repr_is_empty t n Hr) as He. rewrite Ht in He.
  apply bool_decide_eq_true in He. destruct t; [|done..]. by apply owned_empty.
Qed.

(** Only child [i] owns anything. *)
Lemma kids_only_child ts n i t ch :
  Shape (TBranch ts) n → ts !! i = Some t → children n !! i = Some ch →
  (∀ j d, j ≠ i → ts !! j = Some d → tempty d = true) → Kids (TBranch ts) n = Owned t ch.
Proof.
  intros (_ & _ & Hs) Ht Hch Hu. cbn [kids]. unfold owned_all. revert i Ht Hch Hu.
  induction Hs as [|t0 n0 ts ns Hr Hs IH]; intros i Ht Hch Hu; [done|].
  destruct i as [|i]; cbn in Ht, Hch |- *.
  - injection Ht as ->. injection Hch as ->.
    assert (concat (zip_with Owned ts ns) = []) as ->; [|apply app_nil_r].
    assert (∀ j d, ts !! j = Some d → tempty d = true) as Hu' by (intros j d; by apply (Hu (S j))).
    clear -Hs Hu'. induction Hs as [|t0 n0 ts ns Hr Hs IH]; [done|]. cbn.
    rewrite (repr_empty_owned t0) by (done || by apply (Hu' 0%nat)). apply IH.
    intros j d. apply (Hu' (S j)).
  - rewrite (repr_empty_owned t0) by (done || by apply (Hu 0%nat)). cbn. apply IH with i; try done.
    intros j d Hj. apply (Hu (S j)). lia.
Qed.

Abbreviation del := (try_delete_node fs dnf).

(** The node left by a successful deletion: a hash only for a leaf. *)
Definition deleted t' (r : (MptCache St * Node.t) * Result MptError bool) q F : Prop :=
  ∃ c' n', r = ((c', n'), Ok true) ∧ Repr t' n' ∧
    (node_type n' = HashNode → value_child t' = true) ∧ Owns c' q (Owned t' n' ++ F).

Lemma stage_deleted c q n t F :
  Shape t n → tempty t = false → stageable fs dnf dint t → Owns c (S q) (Kids t n ++ F) →
  deleted t ((_ ← stage_mutated_node dnf; mret true) (c, n)) q F.
Proof.
  intros Hs Ht Hst Hown. destruct (stage_run c q n t F Hs Ht Hst Hown) as (c' & n' & Hrun & Hr & Hs' & Hown').
  rewrite (mbind_ok _ _ _ _ _ Hrun). exists c', n'. split_and!; [done..| |done].
  rewrite (shape_type dnf dint _ _ Hs'). by destruct t.
Qed.

Lemma repr_not_hash t n : Repr t n → node_type n ≠ HashNode → Memo t n ∧ Shape t n.
Proof. by intros [(? & _)|?]%repr_unfold ?. Qed.

Lemma collapse_extension_ok k t n nx c q F :
  plain n → node_type n = ExtensionNode → key n = k → next n = Some nx → Repr t nx →
  k ≠ [] → (node_type nx = HashNode → value_child t = true) →
  (tempty t = false → stageable fs dnf dint (mcollapse_ext k t)) → Owns c (S q) (Owned t nx ++ F) →
  deleted (mcollapse_ext k t) (collapse_extension fs dnf (c, n)) q F.
Proof.
  intros Hp Hty Hk Hnx Hr Hk0 Hhash Hst Hown. unfold collapse_extension.
  rewrite (mbind_ok (gets snd) _ _ _ _ eq_refl). cbn [snd]. rewrite Hnx, (repr_is_empty t nx Hr).
  assert (ext_child t = true → deleted (TExt k t) ((_ ← stage_mutated_node dnf; mret true) (c, n)) q F) as Hstay.
  { intros Hx. assert (tempty t = false) as Ht by (by destruct t).
    apply stage_deleted; [|done| |by cbn [kids]; rewrite Hnx].
    - split_and!; [done..|by exists nx].
    - specialize (Hst Ht). by destruct t. }
  assert (ext_child t = true → node_type nx ≠ ExtensionNode) as Hnext.
  { apply repr_unfold in Hr as [(-> & _)|[_ ->%shape_type]]; by destruct t. }
  destruct t as [|v|k' t|ts]; cbn [tempty mcollapse_ext] in *.
  - rewrite (mbind_ok (set_node _) _ _ _ _ eq_refl). exists c, nx. split_and!; [done..|weaken Hown].
  - rewrite bool_decide_false by (by apply Hnext). by apply Hstay.
  - destruct (repr_not_hash _ _ Hr) as [Hm Hs]; [by intros ?%Hhash|].
    rewrite (shape_type dnf dint _ _ Hs), bool_decide_true by done.
    destruct (ext_child_inv k' t nx Hs) as (Hk' & ch & Hch & Hrc & Hkids).
    destruct (law_release nx _ Hm Hs eq_refl) as (old & Hold & Hrel).
    rewrite (owned_shape dnf dint _ _ _ Hs), Hkids, <-app_assoc in Hown.
    destruct (Hrel c _ _ n Hown) as (c1 & Hrun1 & Hown1).
    rewrite (mbind_ok _ _ (c, n) (c1, with_next (next nx) (with_key (key n ++ key nx) n)) tt).
    2:{ rewrite Hold, (mbind_ok (lift _) _ _ _ _ eq_refl). by rewrite (mbind_ok _ _ _ _ _ Hrun1). }
    rewrite Hk, Hk', Hch. apply stage_deleted; [|done|by apply Hst|done].
    destruct Hp as [Hp1 Hp2]. split_and!; [|done|done|by exists ch].
    split; [exact Hp1|]. cbn. by rewrite Hty.
  - rewrite bool_decide_false by (by apply Hnext). by apply Hstay.
Qed.

(** The last remaining child, materialized. *)
Lemma materialize_child t ch c q F x :
  Repr t ch → Owns c q (Owned t ch ++ F) →
  ∃ c' n', (if bool_decide (node_type ch = HashNode) then
              r ← on_cache (resolve (hash ch));
              match r with None => fail Storage | Some n => mret n end
            else mret ch) (c, x) = ((c', x), Ok n') ∧ Memo t n' ∧ Shape t n' ∧
    Owns c' q (Owned t n' ++ F).
Proof.
  intros Hr Hown. case_bool_decide as E.
  - assert (is_hash t ch) as Hh.
    { apply repr_unfold in Hr as [?|[_ Hty%shape_type]]; [done|]. rewrite Hty in E. by destruct t. }
    rewrite (owned_hash _ t ch Hh) in Hown. assert (Hh' := Hh). destruct Hh' as (_ & Ht & Hc & _).
    destruct (law_resolve c q t F Ht Hown) as (c' & n' & Hrun & Hm & Hs & _ & Hp & Hown').
    exists c', n'. split_and!; [|done..|eapply Own_perm; [|exact Hown']; by rewrite Hp].
    rewrite (repr_hash dnf dint t ch Hr).
    by rewrite (mbind_ok _ _ _ _ _ (on_cache_run _ _ x _ _ Hrun)).
  - destruct (repr_not_hash t ch Hr E). by exists c, ch.
Qed.

(** The single child left takes the place of its branch. *)
Lemma last_child_ok i t n c q F (x : Node.t) :
  (i < BRANCH_VALUE_INDEX)%nat → Memo t n → Shape t n → tempty t = false →
  stageable fs dnf dint (mlast_child i t) → Owns c (S q) (Owned t n ++ F) →
  deleted (mlast_child i t)
    ((if bool_decide (node_type n = ExtensionNode) then
        old ← lift (previous_hash fs dnf n);
        _ ← release old;
        n ← on_local (with_key (as_u8 (N.of_nat i) :: key n) n) (stage_mutated_node dnf);
        _ ← set_node n;
        mret true
      else
        ext ← lift (new_extension [as_u8 (N.of_nat i)] n);
        ext ← on_local ext (stage_mutated_node dnf);
        _ ← set_node ext;
        mret true) (c, x)) q F.
Proof.
  intros Hi Hm Hs Ht Hst Hown. unfold mlast_child in *.
  rewrite bool_decide_false in Hst |- * by lia. rewrite (shape_type dnf dint _ _ Hs).
  assert (∀ c t' n', Shape t' n' → tempty t' = false → stageable fs dnf dint t' → Owns c (S q) (Kids t' n' ++ F) →
    deleted t' ((n ← on_local n' (stage_mutated_node dnf); _ ← set_node n; mret true) (c, x)) q F) as Hstage.
  { intros c0 t' n' Hs' Ht' Hst' Hown'.
    destruct (stage_run c0 q n' t' F Hs' Ht' Hst' Hown') as (c1 & n1 & Hrun & Hr1 & Hs1 & Hown1).
    rewrite (mbind_ok _ _ _ _ _ (on_local_run _ _ _ x _ _ Hrun)), (mbind_ok (set_node _) _ _ _ _ eq_refl).
    exists c1, n1. split_and!; [done..| |done]. rewrite (shape_type dnf dint _ _ Hs1). by destruct t'. }
  assert (ext_child t = true → deleted (TExt [as_u8 (N.of_nat i)] t)
    ((ext ← lift (new_extension [as_u8 (N.of_nat i)] n);
      ext ← on_local ext (stage_mutated_node dnf); _ ← set_node ext; mret true) (c, x)) q F) as Hwrap.
  { intros Hx. destruct (new_extension_shape [as_u8 (N.of_nat i)] t n) as (e & He & Hse & Hke);
      [done|by apply repr_shape|].
    rewrite He, (mbind_ok (lift _) _ _ _ _ eq_refl). apply Hstage; [done..| |by rewrite Hke].
    by destruct t. }
  destruct t as [|v|k t|ts];
    [done|rewrite bool_decide_false by done; by apply Hwrap| |rewrite bool_decide_false by done; by apply Hwrap].
  destruct (ext_child_inv k t n Hs) as (Hk & ch & Hch & Hrc & Hkids).
  destruct (law_release n _ Hm Hs eq_refl) as (old & Hold & Hrel).
  rewrite (owned_shape dnf dint _ _ _ Hs), Hkids, <-app_assoc in Hown.
  destruct (Hrel c _ _ x Hown) as (c1 & Hrun1 & Hown1). rewrite bool_decide_true by done.
  rewrite Hold, (mbind_ok (lift _) _ _ _ _ eq_refl), (mbind_ok _ _ _ _ _ Hrun1), Hk.
  apply Hstage; [|done..|by cbn [kids next with_key]; rewrite Hch].
  destruct Hs as (Hp & Hty & _). split_and!; [done..|by exists ch].
Qed.

Lemma last_index_lt i : (i < BRANCH_CHILD_COUNT)%nat → i ≠ BRANCH_VALUE_INDEX → (i < BRANCH_VALUE_INDEX)%nat.
Proof. unfold BRANCH_VALUE_INDEX. lia. Qed.

Lemma collapse_branch_ok ts n c q F :
  Shape (TBranch ts) n → length ts = BRANCH_CHILD_COUNT → (1 ≤ nonempties ts)%nat →
  value_child (default TEmpty (ts !! BRANCH_VALUE_INDEX)) = true →
  stageable fs dnf dint (mcollapse_branch ts) → Owns c (S q) (Kids (TBranch ts) n ++ F) →
  deleted (mcollapse_branch ts) (collapse_branch fs dnf (c, n)) q F.
Proof.
  intros Hs Hl Hn Hv Hst Hown. unfold collapse_branch.
  rewrite (mbind_ok (gets snd) _ _ _ _ eq_refl). cbn [snd].
  assert (length (children n) = BRANCH_CHILD_COUNT) as Hlc.
  { destruct Hs as (_ & _ & Hs). by rewrite <-(Forall2_length _ _ _ Hs). }
  rewrite take_ge, scan_children_spec, (branch_emptiness ts n Hs) by lia.
  unfold mcollapse_branch in Hst |- *.
  destruct (scan_tree ts Hn) as [(first & E & _)|(i & t & E & Ht & Htt & Hu)]; rewrite E in Hst |- *;
    [by apply stage_deleted|].
  rewrite Hlc, (proj2 (Nat.ltb_ge _ _)) by done. cbn [default id] in Hst |- *.
  rewrite Ht in Hst |- *. cbn [default id] in Hst |- *.
  destruct (branch_child ts n i t Hs Ht) as (ch & Hch & Hrc). unfold get_child. rewrite Hch.
  rewrite (mbind_ok (set_node _) _ _ _ _ eq_refl).
  rewrite (kids_only_child ts n i t ch Hs Ht Hch Hu) in Hown.
  destruct (decide (i = BRANCH_VALUE_INDEX)) as [->|Hi].
  - rewrite bool_decide_true, (mbind_ok (set_node _) _ _ _ _ eq_refl) by done.
    unfold mlast_child. rewrite bool_decide_true by done. exists c, ch. split_and!; [done..| |weaken Hown].
    intros _. by rewrite Ht in Hv.
  - rewrite bool_decide_false by done.
    destruct (materialize_child t ch c _ F (set_child i Node.new n) Hrc Hown)
      as (c1 & n1 & Hrun & Hm1 & Hs1 & Hown1).
    rewrite (mbind_ok _ _ _ _ _ Hrun). apply last_child_ok; try done.
    apply last_index_lt; [|done]. rewrite <-Hl. by eapply lookup_lt_Some.
Qed.

(** *** The recursion *)

Definition del_post t p (r : (MptCache St * Node.t) * Result MptError bool) (d : bool) q F : Prop :=
  match mdelete t p with
  | Some t' => deleted t' r q F
  | None => ∃ c' n', r = ((c', n'), Ok false) ∧ Repr t n' ∧ dirty n' = d ∧ Owns c' q (Owned t n' ++ F)
  end.

Definition trace_stageable t p : Prop :=
  Forall (λ s, tempty s = false → stageable fs dnf dint s) (mdelete_trace t p).

Lemma trace_here t p t' :
  trace_stageable t p → mdelete t p = Some t' → tempty t' = false → stageable fs dnf dint t'.
Proof.
  intros Htr Hd. unfold trace_stageable in Htr. destruct t; cbn [mdelete_trace] in Htr;
    rewrite Hd in Htr; by apply Forall_cons_1 in Htr as [? _].
Qed.

Lemma del_ext cost fuel k t r n c q F :
  (∀ ch c q F, Repr t ch → Owns c (cost + q) (Owned t ch ++ F) → del_post t r (del fuel r (c, ch)) (dirty ch) q F) →
  Memo (TExt k t) n → Shape (TExt k t) n → k ≠ [] → trace_stageable (TExt k t) (k ++ r) →
  Owns c (cost + S q) (Owned (TExt k t) n ++ F) →
  del_post (TExt k t) (k ++ r) (del (S fuel) (k ++ r) (c, n)) (dirty n) q F.
Proof.
  intros IH Hm Hs Hk0 Htr Hown. cbn [try_delete_node]. rewrite (mbind_ok (gets snd) _ _ _ _ eq_refl).
  cbn [snd]. rewrite (shape_type dnf dint _ _ Hs).
  destruct (ext_child_inv k t n Hs) as (Hk & ch & Hch & Hrc & Hkids). rewrite Hk.
  rewrite starts_with_app, drop_app_length.
  destruct (law_release n (TExt k t) Hm Hs eq_refl) as (old & Hold & Hrel).
  rewrite Hold, (mbind_ok (lift _) _ _ _ _ eq_refl).
  rewrite (owned_shape dnf dint _ _ _ Hs), Hkids in Hown.
  assert (Owns c (cost + S q) (Owned t ch ++ Self (TExt k t) n ++ F)) as Hown0
    by (eapply Own_perm; [|exact Hown]; perm).
  specialize (IH ch c _ _ Hrc Hown0).
  assert (mdelete (TExt k t) (k ++ r) = mcollapse_ext k <$> mdelete t r) as Ed.
  { cbn [mdelete]. by rewrite starts_with_app, drop_app_length. }
  pose proof (trace_here _ _ (mcollapse_ext k (default TEmpty (mdelete t r))) Htr) as Hst.
  unfold del_post in IH |- *. rewrite Ed in Hst |- *. destruct (mdelete t r) as [t'|];
    cbn [fmap option_fmap option_map default id] in Hst |- *.
  - destruct IH as (c1 & ch1 & Hrun1 & Hr1 & Hh1 & Hown1).
    rewrite (mbind_ok _ _ _ _ _ (on_next_run _ _ _ _ _ _ _ Hch Hrun1)). cbn [negb].
    destruct (Hrel c1 (S q) (Owned t' ch1 ++ F) (with_next (Some ch1) n)) as (c2 & Hrun2 & Hown2).
    { eapply Own_perm; [|exact Hown1]. perm. }
    rewrite (mbind_ok _ _ _ _ _ Hrun2). destruct Hs as ([Hp1 Hp2] & Hty & _).
    assert (plain (with_next (Some ch1) n)) as Hp by (split; [exact Hp1|cbn; by rewrite Hty]).
    apply collapse_extension_ok with ch1; try done.
    intros Ht'. apply Hst; [done|]. by destruct t'.
  - destruct IH as (c1 & ch1 & Hrun1 & Hr1 & Hd1 & Hown1).
    rewrite (mbind_ok _ _ _ _ _ (on_next_run _ _ _ _ _ _ _ Hch Hrun1)). cbn [negb].
    destruct (ext_update k t n t ch1 Hs Hr1) as [Hs' Hk'].
    exists c1, (with_next (Some ch1) n). split_and!; [done| |done|].
    + apply repr_shape; [by eapply ext_update_memo|done].
    + rewrite (owned_shape dnf dint _ _ _ Hs'), Hk'.
      eapply Own_perm; [|eapply Own_weaken; [|exact Hown1]; lia].
      change (Self (TExt k t) (with_next _ n)) with (Self (TExt k t) n). perm.
Qed.

Lemma del_branch cost fuel ts t p n c q F :
  canon (TBranch ts) → nibbles p → ts !! (branch_step p).1 = Some t →
  (∀ ch c q F, Repr t ch → Owns c (cost + q) (Owned t ch ++ F) →
     del_post t (branch_step p).2 (del fuel (branch_step p).2 (c, ch)) (dirty ch) q F) →
  Memo (TBranch ts) n → Shape (TBranch ts) n → trace_stageable (TBranch ts) p →
  Owns c (cost + S q) (Owned (TBranch ts) n ++ F) →
  del_post (TBranch ts) p (del (S fuel) p (c, n)) (dirty n) q F.
Proof.
  intros Hcan Hp Ht IH Hm Hs Htr Hown. cbn [try_delete_node].
  rewrite (mbind_ok (gets snd) _ _ _ _ eq_refl). cbn [snd]. rewrite (shape_type dnf dint _ _ Hs).
  destruct (law_release n (TBranch ts) Hm Hs eq_refl) as (old & Hold & Hrel).
  rewrite Hold, (mbind_ok (lift _) _ _ _ _ eq_refl).
  destruct (branch_child ts n _ t Hs Ht) as (ch & Hch & Hrc).
  destruct (branch_update ts n _ t ch Hs Ht Hch) as (rest & E1 & Hupd).
  rewrite (owned_shape dnf dint _ _ _ Hs) in Hown.
  assert (Owns c (cost + S q) (Owned t ch ++ rest ++ Self (TBranch ts) n ++ F)) as Hown0
    by (eapply Own_perm; [|exact Hown]; rewrite E1; perm).
  specialize (IH ch c _ _ Hrc Hown0).
  assert (mdelete (TBranch ts) p =
    (λ t', mcollapse_branch (<[(branch_step p).1 := t']> ts)) <$> mdelete t (branch_step p).2) as Ed.
  { by rewrite mdelete_branch, Ht. }
  assert (∀ ch1 c1 b, del fuel (branch_step p).2 (c, ch) = ((c1, ch1), Ok b) →
    match p with
    | [] => on_child BRANCH_VALUE_INDEX (del fuel [])
    | p0 :: prest => on_child (nibble_index p0) (del fuel prest)
    end (c, n) = ((c1, with_children (<[(branch_step p).1 := ch1]> (children n)) n), Ok b)) as Hrun.
  { intros ch1 c1 b Hrun1. destruct p; cbn [branch_step fst snd] in *; by apply (on_child_run _ _ _ _ ch). }
  apply canon_branch in Hcan as (Hl & Hn & Hv & Hcs).
  unfold del_post in IH |- *. rewrite Ed. destruct (mdelete t (branch_step p).2) as [t'|] eqn:Edt; cbn [fmap option_fmap option_map] in Ed |- *.
  - destruct IH as (c1 & ch1 & Hrun1 & Hr1 & Hh1 & Hown1).
    rewrite (mbind_ok _ _ _ _ _ (Hrun _ _ _ Hrun1)). cbn [negb].
    destruct (Hupd t' ch1 Hr1) as [Hs' E2].
    destruct (Hrel c1 (S q) (Owned t' ch1 ++ rest ++ F)
      (with_children (<[(branch_step p).1 := ch1]> (children n)) n)) as (c2 & Hrun2 & Hown2).
    { eapply Own_perm; [|exact Hown1]. perm. }
    rewrite (mbind_ok _ _ _ _ _ Hrun2).
    apply collapse_branch_ok; [done|by rewrite length_insert|by apply nonempties_insert| | |].
    + destruct (decide ((branch_step p).1 = BRANCH_VALUE_INDEX)) as [E|E].
      * rewrite <-E, list_lookup_insert_eq by (by eapply lookup_lt_Some). rewrite <-E, Ht in Hv.
        by eapply mdelete_value_child.
      * by rewrite list_lookup_insert_ne.
    + eapply trace_here; [exact Htr|exact Ed|]. by apply tempty_collapse_branch, nonempties_insert.
    + eapply Own_perm; [|exact Hown2]. rewrite E2. perm.
  - destruct IH as (c1 & ch1 & Hrun1 & Hr1 & Hd1 & Hown1).
    rewrite (mbind_ok _ _ _ _ _ (Hrun _ _ _ Hrun1)). cbn [negb].
    destruct (Hupd t ch1 Hr1) as [Hs' E2].
    assert (<[(branch_step p).1 := t]> ts = ts) as Hins by (by apply list_insert_id).
    pose proof (branch_update_memo ts n _ t t ch ch1 Hm Hch Hd1 Hins) as Hm'.
    rewrite Hins in Hm', Hs', E2.
    eexists _, _. split_and!; [done|by apply repr_shape|done|].
    rewrite (owned_shape dnf dint _ _ _ Hs').
    eapply Own_perm; [|eapply Own_weaken; [|exact Hown1]; lia]. rewrite E2.
    change (Self (TBranch ts) (with_children _ n)) with (Self (TBranch ts) n). perm.
Qed.

Lemma del_hash cost t fuel n c q F p :
  (∀ fuel n c q F, Memo t n → Shape t n → (2 * mdepth t p ≤ S fuel)%nat → Owns c (cost + q) (Owned t n ++ F) →
     del_post t p (del fuel p (c, n)) (dirty n) q F) →
  Repr t n → (2 * mdepth t p ≤ fuel)%nat → Owns c (cost + q) (Owned t n ++ F) →
  del_post t p (del fuel p (c, n)) (dirty n) q F.
Proof.
  intros Hshape [Hh|[Hm Hs]]%repr_unfold Hf Hown; [|by apply Hshape; [..|lia|]].
  destruct fuel as [|fuel]; [destruct t; simpl in Hf; lia|].
  destruct (resolve_step t n c _ F Hh Hown) as (c' & n' & Hm & Hs & Hd & Hown' & Hrun).
  cbn [try_delete_node]. rewrite (mbind_ok (gets snd) _ _ _ _ eq_refl). cbn [snd].
  assert (Hh' := Hh). destruct Hh' as (-> & _). rewrite Hrun, <-Hd. apply Hshape; try done; lia.
Qed.

Lemma del_leaf fuel p w n c q F :
  Memo (TLeaf w) n → Shape (TLeaf w) n → Owns c q (Owned (TLeaf w) n ++ F) →
  del_post (TLeaf w) p (del (S fuel) p (c, n)) (dirty n) q F.
Proof.
  intros Hm Hs Hown. unfold del_post. cbn [try_delete_node mdelete].
  rewrite (mbind_ok (gets snd) _ _ _ _ eq_refl). cbn [snd]. rewrite (shape_type dnf dint _ _ Hs).
  destruct p as [|b p].
  - destruct (law_release n (TLeaf w) Hm Hs eq_refl) as (old & Hold & Hrel).
    rewrite Hold, (mbind_ok (lift _) _ _ _ _ eq_refl).
    rewrite (owned_shape dnf dint _ _ _ Hs), <-app_assoc in Hown.
    destruct (Hrel c _ _ n Hown) as (c1 & Hrun1 & Hown1). rewrite (mbind_ok _ _ _ _ _ Hrun1).
    rewrite (mbind_ok (set_node _) _ _ _ _ eq_refl).
    exists c1, Node.new. split_and!; [done|apply empty_repr|done..].
  - exists c, n. split_and!; [done|by apply repr_shape|done..].
Qed.

Lemma delete_refines t fuel n c q F p :
  Repr t n → canon t → nibbles p → (2 * mdepth t p ≤ fuel)%nat → trace_stageable t p →
  Owns c (mdepth t p + q) (Owned t n ++ F) → del_post t p (del fuel p (c, n)) (dirty n) q F.
Proof.
  revert fuel n c q F p. induction t as [|w|k t IH|ts IH] using mpt_induction;
    intros fuel n c q F p Hr Hcan Hp Hf Htr Hown; eapply del_hash; try done;
    clear fuel n c q F Hr Hf Hown; intros fuel n c q F Hm Hs Hf Hown;
    (destruct fuel as [|fuel]; [destruct p; cbn in Hf; lia|]).
  - unfold del_post. cbn [try_delete_node mdelete]. rewrite (mbind_ok (gets snd) _ _ _ _ eq_refl).
    cbn [snd]. rewrite (shape_type dnf dint _ _ Hs). exists c, n.
    split_and!; [done|by apply repr_shape|done|weaken Hown].
  - apply del_leaf; try done. weaken Hown.
  - assert (Hcan' := Hcan). apply canon_ext in Hcan' as (Hk & _ & _ & Hcan').
    destruct (starts_with p k) eqn:E.
    + cbn [mdepth] in Hf. rewrite E in Hf. assert (E' := E). apply starts_with_spec in E' as [r ->].
      rewrite drop_app_length in Hf. apply nibbles_app in Hp as [_ Hr].
      cbn [mdepth] in Hown. rewrite E, drop_app_length in Hown.
      eapply (del_ext (mdepth t r)); try done; [|weaken Hown]. intros ch c' q' F' Hrc Hown'. apply IH; try done; [lia|].
      unfold trace_stageable in Htr. cbn [mdelete_trace] in Htr. rewrite E, drop_app_length in Htr.
      by apply Forall_app in Htr as [_ ?].
    + unfold del_post. cbn [try_delete_node mdelete]. rewrite (mbind_ok (gets snd) _ _ _ _ eq_refl).
      cbn [snd]. rewrite (shape_type dnf dint _ _ Hs). destruct (ext_child_inv k t n Hs) as (Hkn & _).
      rewrite Hkn, E. exists c, n. split_and!; [done|by apply repr_shape|done|weaken Hown].
  - assert (Hcan' := Hcan). apply canon_branch in Hcan' as (Hl & _ & _ & Hcs).
    destruct (ts !! (branch_step p).1) as [t|] eqn:Ht.
    2:{ apply lookup_ge_None in Ht. pose proof (branch_step_lt p Hp). lia. }
    rewrite (mdepth_branch ts p t Ht) in Hf, Hown. rewrite Forall_lookup in IH, Hcs.
    eapply (del_branch (mdepth t (branch_step p).2) fuel ts t p n c q F); try done; [|weaken Hown].
    intros ch c' q' F' Hrc Hown'. apply (IH _ t Ht); eauto using branch_step_nibbles; [lia|].
    unfold trace_stageable in Htr. rewrite (mdelete_trace_branch ts p t Ht) in Htr.
    by apply Forall_app in Htr as [_ ?].
Qed.
End refine.
