(* ===== verification/MptModes.v ===== *)
(** * The cache modes implement the trie's cache interface

    The trie runs its cache in three modes.  When pruning, mutated nodes stay
    in memory until finalization and released nodes lose a reference; in
    full-state mode every mutated node is written at once, or journaled at
    once, and nothing is released.  For each mode an instance of [TrieCache]
    (MptRefine.v) is derived from the reference-counted map of
    MptCacheFacts.v. *)
From S2P Require Import Prelude Primitives Io MptNode MptNodeFacts MptCache MptTrie MptSpec.
From S2P Require Import MptCacheFacts MptCommitFacts MptRefine.
Import NodeType Node NodeCodec.

(** Protocol limits on the fields of one node. *)
Definition limit (t : mpt) : Prop :=
  match t with
  | TEmpty => True
  | TLeaf v => (len v ≤ MAX_VALUE_LENGTH)%N
  | TExt k _ => (len k ≤ N.of_nat MAX_KEY_LENGTH)%N
  | TBranch ts => length ts = BRANCH_CHILD_COUNT
  end.

Definition tree_type (t : mpt) : NodeType.t :=
  match t with
  | TEmpty => Empty
  | TLeaf _ => LeafNode
  | TExt _ _ => ExtensionNode
  | TBranch _ => BranchNode
  end.

Section stored_tree.
Context `{Crypto}.
Implicit Types (t : mpt) (n m : Node.t).

(** ** The stored node of a tree *)

Definition stored_kid t : Node.t := if tempty t then Node.new else new_hash (mhash t).

Definition stored_of t (r : Z) : Node.t :=
  match t with
  | TEmpty => Node.new
  | TLeaf v => mk LeafNode r None None false [] [] None v
  | TExt k t => mk ExtensionNode r None None false [] k (Some (stored_kid t)) []
  | TBranch ts => mk BranchNode r None None false (stored_kid <$> ts) [] None []
  end.

Lemma stored_kid_shape t : stored_child_shape (stored_kid t).
Proof. unfold stored_kid. destruct (tempty t); [by left|]. right. eexists. split; [apply mhash_wf|done]. Qed.

Lemma stored_kid_bytes t : child_bytes (stored_kid t) = mchild t.
Proof. by destruct t. Qed.

Lemma stored_of_payload t r : payload_bytes (stored_of t r) = mpayload t.
Proof.
  rewrite mpayload_unfold. destruct t as [|v|k t|ts]; try done; unfold payload_bytes; cbn.
  - by rewrite stored_kid_bytes.
  - do 2 f_equal. rewrite <-list_fmap_compose. apply list_fmap_ext. intros i s _. apply stored_kid_bytes.
Qed.

Lemma stored_of_type t r : node_type (stored_of t r) = tree_type t.
Proof. by destruct t. Qed.

Lemma stored_of_reference t r : tempty t = false → reference (stored_of t r) = r.
Proof. by destruct t. Qed.

Lemma stored_of_row t r :
  tempty t = false → row_state (stored_of t r) = mkDState (tree_type t) r (mpayload t).
Proof.
  intros Ht. unfold row_state. by rewrite stored_of_type, stored_of_reference, stored_of_payload.
Qed.

Lemma stored_of_canonical t r :
  tempty t = false → limit t → (1 ≤ r < 2 ^ 31)%Z → canonical (stored_of t r).
Proof.
  intros Ht Hl Hr.
  assert (∀ ts, Forall stored_child_shape (stored_kid <$> ts)) as Hkids.
  { intros ts. apply Forall_fmap, Forall_true. intros. apply stored_kid_shape. }
  assert (node_ok (stored_of t r)) as Hok.
  { split_and!.
    - apply cell_ok_no_memo; by destruct t.
    - destruct t as [| | |ts]; try apply Forall_nil_2. apply shapes_cell_ok, Hkids.
    - destruct t as [| |k t|]; try done. intros c [= <-]. by apply stored_child_shape_ok, stored_kid_shape.
    - by destruct t. }
  split; [split_and!; [by destruct t|done|rewrite stored_of_reference by done; lia..|]|].
  - destruct t as [| | |ts]; try done. cbn. by rewrite length_fmap.
  - rewrite stored_of_reference by done. split; [|lia].
    destruct t as [|v|k t|ts]; try done; unfold stored; cbn.
    + by rewrite (proj2 (stored_child_shape_ok _ (stored_kid_shape t))).
    + by rewrite stored_children_id.
Qed.

(** A good row with the payload of [t] is the stored node of [t]. *)
Lemma good_row_stored h s t :
  good_row h s → ds_payload s = mpayload t → tempty t = false → limit t →
  (1 ≤ ds_reference s < 2 ^ 31)%Z ∧ s = row_state (stored_of t (ds_reference s)).
Proof.
  intros (m & Hm & -> & _) Hp Ht Hl. cbn [row_state ds_payload ds_reference] in *.
  assert (1 ≤ reference m < 2 ^ 31)%Z as Hr by (destruct Hm as ((_ & _ & ? & _) & _ & ?); lia).
  split; [done|]. rewrite (stored_of_row t) by done. unfold row_state. rewrite Hp. f_equal.
  assert (hd x00 (payload_bytes m) = hd x00 (mpayload t)) as Hhd by (by rewrite Hp).
  rewrite mpayload_unfold in Hhd. unfold payload_bytes in Hhd. cbn [hd] in Hhd.
  destruct (node_type m), t; cbn in Hhd; done.
Qed.

(** *** As a representation *)

Context (dnf dint : bool).

Lemma stored_kid_repr t : repr dnf dint t (stored_kid t).
Proof.
  apply repr_unfold. unfold stored_kid. destruct (tempty t) eqn:Ht.
  - right. destruct t; try done. split; [|done].
    repeat (split; [done|]). cbn. split_and!; [by left|constructor|done].
  - left. done.
Qed.

Definition loaded_of t r : Node.t := set_accounted_hash (mhash t) (stored_of t r).

Lemma loaded_of_memo t r : tempty t = false → memo_ok dnf dint t (loaded_of t r).
Proof.
  intros Ht. assert (hash_cell (loaded_of t r) = None) as Hc by (by destruct t).
  split_and!; [by rewrite Hc|by intros h [= <-]|done|done|].
  cbn. split_and!; [right; by eexists| |].
  - destruct t as [| | |ts]; try apply Forall_nil_2. apply Forall_fmap, Forall_true. intros s.
    unfold stored_kid. cbn. by destruct (tempty s).
  - destruct t as [| |k t|]; try done. intros c [= <-]. unfold stored_kid. by destruct (tempty t).
Qed.

Lemma loaded_of_shape t r : tempty t = false → shape dnf dint t (loaded_of t r).
Proof.
  intros Ht. destruct t as [|v|k t|ts]; split_and!; try done.
  - eexists. split; [done|]. apply stored_kid_repr.
  - cbn. induction ts as [|t ts IH]; [constructor|]. constructor; [apply stored_kid_repr|apply IH; done].
Qed.

Lemma stored_kid_owned held t : owned held t (stored_kid t) = subtrees t.
Proof. rewrite owned_unfold. unfold stored_kid. by destruct t. Qed.

Lemma loaded_of_owned held t r :
  held (Some (mhash t)) None = true → tempty t = false → owned held t (loaded_of t r) = subtrees t.
Proof.
  intros Hh Ht. rewrite (owned_shape dnf dint _ _ _ (loaded_of_shape t r Ht)).
  assert (own_self held t (loaded_of t r) = [t]) as ->.
  { unfold own_self. rewrite Ht. cbn [negb andb]. destruct t; try done; cbn; by rewrite Hh. }
  destruct t as [|v|k t|ts]; try done; cbn [kids loaded_of set_accounted_hash with_dirty
    with_accounted stored_of next children from_option subtrees].
  - by rewrite stored_kid_owned.
  - cbn [app]. f_equal. unfold owned_all. f_equal.
    clear Hh Ht. induction ts as [|t ts IH]; [done|]. cbn. by rewrite stored_kid_owned, IH.
Qed.
End stored_tree.

Lemma subtrees_self t : tempty t = false → t ∈ subtrees t.
Proof. by destruct t; [|left..]. Qed.

(** ** Maps of rows *)

Abbreviation rows := (UInt256.t → option DeferredNodeState).

Definition refs (r : option DeferredNodeState) : Z := from_option ds_reference 0%Z r.

Section rows.
Context `{Crypto}.
Implicit Types (v : rows) (t : mpt) (h : UInt256.t).

Definition good_rows v : Prop := ∀ h s, UInt256.wf h → v h = Some s → good_row h s.

(** [v] has the node of [t], with [r] references. *)
Definition has_row v t (r : Z) : Prop :=
  tempty t = false ∧ limit t ∧ v (mhash t) = Some (row_state (stored_of t r)).

Lemma has_row_bounds v t r : good_rows v → has_row v t r → (1 ≤ r < 2 ^ 31)%Z.
Proof.
  intros Hg (Ht & Hl & Hv). specialize (Hg _ _ (mhash_wf t) Hv).
  destruct (good_row_stored _ _ t Hg) as [Hr _]; try done.
  - by rewrite stored_of_row.
  - by rewrite stored_of_row in Hr.
Qed.

(** The row of [t] can take one more reference: no other payload has its
    hash, and the count does not overflow. *)
Definition room v t : Prop :=
  tempty t = false ∧ limit t ∧
  ∀ s, v (mhash t) = Some s → ds_payload s = mpayload t ∧ (ds_reference s + 1 < 2 ^ 31)%Z.

Definition next_row v t : Node.t := stored_of t (refs (v (mhash t)) + 1).

(** [v] with one more reference to the row of [t]. *)
Definition put_tree v t : rows := λ h,
  if bool_decide (h = mhash t) then Some (row_state (next_row v t)) else v h.

Lemma put_tree_gives v t :
  good_rows v → room v t →
  put_gives (v (mhash t)) (mhash t) (tree_type t) (mpayload t) (next_row v t).
Proof.
  intros Hg (Ht & Hl & Hs). unfold put_gives, next_row.
  rewrite stored_of_type, stored_of_payload, stored_of_reference by done.
  destruct (v (mhash t)) as [s|] eqn:Hv; cbn [refs from_option].
  - destruct (Hs s eq_refl) as [Hp Hr].
    destruct (good_row_stored _ _ t (Hg _ _ (mhash_wf t) Hv) Hp Ht Hl) as [Hb E].
    split_and!; try done; [apply stored_of_canonical; [done..|lia]|].
    by rewrite E, stored_of_row.
  - split_and!; try done. by apply stored_of_canonical.
Qed.

Lemma put_tree_view v t h :
  tempty t = false →
  put_tree v t h = if bool_decide (h = mhash t)
                   then Some (mkDState (tree_type t) (refs (v (mhash t)) + 1) (mpayload t))
                   else v h.
Proof. intros Ht. unfold put_tree, next_row. by rewrite stored_of_row. Qed.

Lemma put_tree_good v t : good_rows v → room v t → good_rows (put_tree v t).
Proof.
  intros Hg Hroom h s Hw. unfold put_tree. case_bool_decide as E; [|by apply Hg].
  destruct (put_tree_gives v t Hg Hroom) as (Hc & Eh & Ety & Ep & _).
  intros [= <-]. exists (next_row v t). split_and!; [done..|]. congruence.
Qed.

Lemma put_tree_row v t : room v t → has_row (put_tree v t) t (refs (v (mhash t)) + 1).
Proof.
  intros (Ht & Hl & _). split_and!; [done..|]. unfold put_tree. by rewrite bool_decide_true.
Qed.

Lemma tree_type_payload s t : mpayload s = mpayload t → tree_type s = tree_type t.
Proof. rewrite (mpayload_unfold s), (mpayload_unfold t). by destruct s, t. Qed.

(** Rows of trees survive. *)
Lemma put_tree_rows v t s r : room v t → has_row v s r → ∃ r', has_row (put_tree v t) s r'.
Proof.
  intros (Ht & _ & Hp) (Hs & Hl & Hv). unfold has_row. rewrite put_tree_view by done.
  case_bool_decide as E; [|by exists r]. rewrite E, stored_of_row in Hv by done.
  destruct (Hp _ Hv) as [Hp' _]. cbn [ds_payload] in Hp'.
  eexists. split_and!; [done..|]. by rewrite stored_of_row, <-Hp', (tree_type_payload s t Hp').
Qed.
End rows.

Section resolve_tree.
Context `{Crypto} `{LawfulStore St}.
Implicit Types (c : MptCache St) (h : UInt256.t) (t : mpt) (n : Node.t).

(** [c] and [c'] are the same map in the same mode. *)
Definition same_map c c' : Prop :=
  cache_ok c' ∧ same_modes c c' ∧ ∀ h, view c' h = view c h.

Lemma cache_good_rows c : cache_ok c → good_rows (view c).
Proof. intros Hc h s Hw Hv. by eapply view_good. Qed.

Lemma resolve_tree c t r :
  cache_ok c → has_row (view c) t r →
  ∃ c', resolve (mhash t) c = (c', Ok (Some (loaded_of t r))) ∧ same_map c c'.
Proof.
  intros Hc Hrow. pose proof (has_row_bounds _ t r (cache_good_rows c Hc) Hrow) as Hr.
  destruct Hrow as (Ht & Hl & Hv).
  destruct (resolve_ok c (mhash t) Hc (mhash_wf t)) as (c' & n & Hrun & Hc' & Hm & Hv' & Hn).
  rewrite Hv in Hn. destruct Hn as (m & Hm' & Erow & _ & ->).
  exists c'. split; [|done]. rewrite Hrun. unfold loaded_of.
  by rewrite (row_state_inj _ _ (stored_of_canonical t r Ht Hl Hr) Hm' Erow).
Qed.

(** Serializing and hashing a represented node. *)
Lemma prepare_tree dnf dint t n :
  shape dnf dint t n → (∀ h, hash_cell n = Some h → h = mhash t) →
  to_array_without_reference n = Ok (mpayload t) ∧
  payload_hash (hash_cell n) (mpayload t) = Ok (mhash t).
Proof.
  intros Hs Hc. split.
  - rewrite to_array_without_reference_ok, (payload_bytes_shape dnf dint t n Hs); [done|].
    eapply shape_node_ok; [exact Hs|]. intros h ->%Hc. apply mhash_wf.
  - unfold payload_hash. destruct (hash_cell n) as [h|]; [by rewrite (Hc h)|].
    by rewrite from_bytes_hash256.
Qed.
End resolve_tree.

(** ** Reference counts *)

Section count.
Context `{Crypto}.
Implicit Types (f g : list mpt) (h : UInt256.t).

(** References that the trees of [f] make to the row [h]. *)
Definition count f h : Z := Z.of_nat (length (filter (λ s, mhash s = h) f)).

Lemma count_app f g h : count (f ++ g) h = (count f h + count g h)%Z.
Proof. unfold count. rewrite filter_app, length_app. lia. Qed.

Lemma count_cons s f h : count (s :: f) h = ((if bool_decide (h = mhash s) then 1 else 0) + count f h)%Z.
Proof.
  unfold count. rewrite filter_cons. destruct (decide (mhash s = h)) as [E|E].
  - rewrite bool_decide_true by done. cbn [length]. lia.
  - rewrite bool_decide_false by done. lia.
Qed.

Lemma count_nonneg f h : (0 ≤ count f h)%Z.
Proof. unfold count. lia. Qed.

Lemma count_elem f s : s ∈ f → (1 ≤ count f (mhash s))%Z.
Proof.
  intros Hs. unfold count. assert (s ∈ filter (λ x, mhash x = mhash s) f) as Hin
    by (by apply list_elem_of_filter).
  destruct (filter _ f); [by apply not_elem_of_nil in Hin|]. cbn [length]. lia.
Qed.

#[global] Instance count_proper : Proper ((≡ₚ) ==> (=) ==> (=)) count.
Proof. intros f g Hp h ? <-. unfold count. by rewrite Hp. Qed.
End count.

(** ** Pruning *)

(** Every row is the node of a tree of [f], and its reference count is the
    number of trees of [f] that refer to it. *)
Record counted `{Crypto} (v : rows) (f : list mpt) : Prop := {
  cn_good : good_rows v;
  cn_rows s : s ∈ f → ∃ r, has_row v s r;
  cn_refs h : UInt256.wf h → refs (v h) = count f h;
}.

Section counted.
Context `{Crypto}.
Implicit Types (v : rows) (t : mpt) (f : list mpt).

Lemma counted_perm v f g : f ≡ₚ g → counted v f → counted v g.
Proof.
  intros Hp [Hg Hr Hn]. split; [done|intros s; rewrite <-Hp; auto|].
  intros h Hw. rewrite <-Hp. auto.
Qed.

Lemma counted_ext v v' f : (∀ h, UInt256.wf h → v' h = v h) → counted v f → counted v' f.
Proof.
  intros E [Hg Hr Hn]. split.
  - intros h s Hw. rewrite E by done. by apply Hg.
  - intros s Hs. destruct (Hr s Hs) as (r & ? & ? & ?). exists r. split_and!; [done..|].
    by rewrite E by apply mhash_wf.
  - intros h Hw. rewrite E by done. by apply Hn.
Qed.

(** A row that is not referenced is not there. *)
Lemma counted_absent v f h : counted v f → UInt256.wf h → count f h = 0%Z → v h = None.
Proof.
  intros [Hg _ Hn] Hw E. specialize (Hn h Hw). destruct (v h) as [s|] eqn:Hv; [|done].
  destruct (Hg h s Hw Hv) as (m & (_ & _ & ?) & -> & _). rewrite E in Hn. cbn in Hn. lia.
Qed.

Lemma counted_row v f s : counted v f → s ∈ f → has_row v s (count f (mhash s)).
Proof.
  intros Hc Hs. destruct (cn_rows _ _ Hc s Hs) as (r & Hrow). assert (Hrow' := Hrow).
  destruct Hrow' as (Ht & _ & Hv). pose proof (cn_refs _ _ Hc _ (mhash_wf s)) as Hn.
  rewrite Hv, stored_of_row in Hn by done. cbn in Hn. by rewrite <-Hn.
Qed.

(** Every row belongs to a tree. *)
Lemma counted_inv v f h s :
  counted v f → UInt256.wf h → v h = Some s → ∃ t, t ∈ f ∧ h = mhash t ∧
    s = mkDState (tree_type t) (count f h) (mpayload t).
Proof.
  intros Hc Hw Hv. destruct (filter (λ t, mhash t = h) f) as [|t l] eqn:E.
  { rewrite (counted_absent v f h Hc Hw) in Hv; [done|]. unfold count. by rewrite E. }
  assert (t ∈ filter (λ t, mhash t = h) f) as [<- Ht]%list_elem_of_filter by (rewrite E; left).
  exists t. split_and!; [done..|]. destruct (counted_row v f t Hc Ht) as (He & _ & Hv').
  rewrite Hv', stored_of_row in Hv by done. congruence.
Qed.

(** What one release leaves. *)
Definition release_row v h : rows := λ h',
  if bool_decide (h' = h) then replay_operation DDelete (v h) else v h'.

Lemma counted_release v t f : counted v (t :: f) → counted (release_row v (mhash t)) f.
Proof.
  intros Hc. destruct (counted_row v _ t Hc) as (Ht & Hl & Hrow); [left|].
  destruct Hc as [Hg Hr Hn]. rewrite stored_of_row, count_cons, bool_decide_true in Hrow by done.
  pose proof (count_nonneg f (mhash t)). unfold release_row. rewrite Hrow. split.
  - intros h s Hw. case_bool_decide as E; [|by apply Hg]. subst h.
    by apply good_row_deleted, Hg.
  - intros s Hs. destruct (Hr s) as (r' & Hs' & Hl' & Hrow'); [by right|].
    unfold has_row. case_bool_decide as E; [|by exists r'].
    pose proof (count_elem f s Hs) as Hge. rewrite E in Hge. cbn [replay_operation ds_reference].
    rewrite (proj2 (Z.ltb_lt _ _)) by lia. eexists. split_and!; [done..|].
    rewrite E, Hrow, !stored_of_row in Hrow' by done. injection Hrow' as E1 E2 E3.
    rewrite stored_of_row by done. cbn. by rewrite E1, E3.
  - intros h Hw. case_bool_decide as E.
    + subst h. cbn [replay_operation ds_reference].
      case (Z.ltb_spec 1 (1 + count f (mhash t))); cbn [refs from_option ds_reference]; lia.
    + rewrite Hn, count_cons, bool_decide_false by done. lia.
Qed.

Lemma counted_put v t f : counted v f → room v t → counted (put_tree v t) (t :: f).
Proof.
  intros [Hg Hr Hn] Hroom. split; [by apply put_tree_good| |].
  - intros s [->|Hs]%elem_of_cons; [eexists; by apply put_tree_row|].
    destruct (Hr s Hs) as [r Hrow]. by eapply put_tree_rows.
  - intros h Hw. rewrite count_cons, put_tree_view by apply Hroom. case_bool_decide as E.
    + cbn. rewrite <-E, Hn by done. lia.
    + rewrite Hn by done. lia.
Qed.
End counted.

Section pruning.
Context `{Crypto} `{LawfulStore St}.
Implicit Types (c : MptCache St) (h : UInt256.t) (t : mpt) (f : list mpt).

Record pruned c f : Prop := {
  pr_cache : cache_ok c;
  pr_prefix : prefix c = MPT_NODE_PREFIX;
  pr_mode : defer_intermediate_nodes c = false;
  pr_counted : counted (view c) f;
}.

Lemma pruned_perm c f g : f ≡ₚ g → pruned c f → pruned c g.
Proof. intros Hp [? ? ? ?]. split; [done..|]. by eapply counted_perm. Qed.

Lemma pruned_modes c c' f g :
  pruned c f → cache_ok c' → same_modes c c' → counted (view c') g → pruned c' g.
Proof. intros [_ Hp Hm _] Hc (_ & E1 & _ & E2 & _) Hn. split; [done|congruence..|done]. Qed.

Lemma pruned_same_map c c' f : same_map c c' → pruned c f → pruned c' f.
Proof.
  intros (Hc & Hm & Hv) Hp. eapply pruned_modes; [exact Hp|done..|].
  eapply counted_ext; [|apply Hp]. intros; apply Hv.
Qed.

Lemma pruned_release c t f :
  pruned c (t :: f) → ∃ c', delete_node (mhash t) c = (c', Ok tt) ∧ pruned c' f.
Proof.
  intros Hp. destruct (delete_node_ok c (mhash t) (pr_cache _ _ Hp) (mhash_wf t))
    as (c' & Hrun & Hc' & Hm & Hv).
  exists c'. split; [done|]. eapply pruned_modes; [exact Hp|done..|].
  eapply counted_ext; [|apply counted_release, Hp]. intros h _. by rewrite Hv.
Qed.

Definition held_accounted (accounted cell : option UInt256.t) : bool := bool_decide (is_Some accounted).

Lemma own_self_accounted t n :
  memo_ok true false t n → tempty t = false →
  (accounted_hash n = None ∧ own_self held_accounted t n = []) ∨
  (accounted_hash n = Some (mhash t) ∧ own_self held_accounted t n = [t]).
Proof.
  intros (_ & Ha & _) Ht. unfold own_self, held_accounted. rewrite Ht. cbn [negb andb].
  destruct (accounted_hash n) as [h|]; [right|by left]. by rewrite (Ha h).
Qed.

#[local] Lemma pruning_stage c n t F :
  shape true false t n → tempty t = false → pruned c (kids held_accounted t n ++ F) →
  ∃ c' n', stage_mutated_node true (c, n) = ((c', n'), Ok tt) ∧ memo_ok true false t n' ∧
    shape true false t n' ∧ pruned c' (owned held_accounted t n' ++ F).
Proof.
  intros Hs Ht Hown. exists c, (set_dirty n).
  assert (shape true false t (set_dirty n)) as Hs' by (by destruct t).
  split_and!; [| |done|].
  - unfold stage_mutated_node. by rewrite (pr_mode _ _ Hown).
  - by split_and!.
  - rewrite (owned_shape true false _ _ _ Hs'). unfold own_self. rewrite Ht. by destruct t.
Qed.

Definition pruning_mode : TrieCache St false true false.
Proof.
  refine {| held := held_accounted; stageable _ := True; Own c _ f := pruned c f |}.
  - intros c _ f g. apply pruned_perm.
  - done.
  - intros c _ t F Ht Hown. destruct (cn_rows _ _ (pr_counted _ _ Hown) t) as [r Hrow].
    { apply elem_of_app. left. by apply subtrees_self. }
    destruct (resolve_tree c t r (pr_cache _ _ Hown) Hrow) as (c' & Hrun & Hmap).
    exists c', (loaded_of t r).
    split_and!; [done|by apply loaded_of_memo|by apply loaded_of_shape|done| |].
    + by rewrite (loaded_of_owned true false).
    + by eapply pruned_same_map.
  - intros c _ n t F Hs Ht _. apply pruning_stage; done.
  - intros n t Hm Hs Ht. exists (accounted_hash n). split; [done|]. intros c _ F x Hown.
    destruct (own_self_accounted t n Hm Ht) as [[-> E]|[-> E]]; rewrite E in Hown.
    + by exists c.
    + destruct (pruned_release c t F Hown) as (c' & Hrun & Hown'). exists c'. split; [|done].
      by apply on_cache_run.
Defined.
End pruning.

(** ** Full state *)

Section full_state.
Context `{Crypto} `{LawfulStore St}.
(** The payloads that may occur, on which the node hash is injective. *)
Context (P : bytes → Prop) (P_inj : ∀ p p', P p → P p' → digest p = digest p' → p = p').
Context (dref dint : bool).
Implicit Types (c : MptCache St) (h : UInt256.t) (t : mpt) (n : Node.t) (f : list mpt) (q : nat).

(** Every tree of [f] has its row; no row comes within [q] of overflow. *)
Record retained c q f : Prop := {
  rt_cache : cache_ok c;
  rt_prefix : prefix c = MPT_NODE_PREFIX;
  rt_ref : defer_reference_resolution c = dref;
  rt_int : defer_intermediate_nodes c = dint;
  rt_budget : (Z.of_nat q < 2 ^ 31)%Z;
  rt_rows s : s ∈ f → ∃ r, has_row (view c) s r;
  rt_all h s : UInt256.wf h → view c h = Some s →
    P (ds_payload s) ∧ (ds_reference s + Z.of_nat q < 2 ^ 31)%Z;
}.

Lemma retained_mono c q q' f g :
  (q' ≤ q)%nat → (∀ s, s ∈ g → s ∈ f) → retained c q f → retained c q' g.
Proof.
  intros Hq Hg [Hc H1' H2' H3' Hb Hr Ha]. split; [done..|lia|auto|]. intros h s Hw Hv.
  destruct (Ha h s Hw Hv). split; [done|lia].
Qed.

Lemma retained_same_map c c' q f : same_map c c' → retained c q f → retained c' q f.
Proof.
  intros (Hc & (_ & E0 & E1 & E2 & _) & Hv) [_ H1' H2' H3' Hb Hr Ha]. split; [done|congruence..|done| |].
  - intros s Hs. destruct (Hr s Hs) as (r & ? & ? & Hrow). exists r. split_and!; [done..|]. by rewrite Hv.
  - intros h s Hw. rewrite Hv. by apply Ha.
Qed.

Definition stageable_full t : Prop := limit t ∧ P (mpayload t).

Lemma retained_room c q f t :
  retained c (S q) f → tempty t = false → stageable_full t → room (view c) t.
Proof.
  intros [Hc _ _ _ _ _ Ha] Ht [Hl HP]. split_and!; [done..|]. intros s Hv.
  destruct (Ha _ s (mhash_wf t) Hv) as [HP' Hq]. split; [|lia].
  apply P_inj; [done..|]. destruct (view_good c _ _ Hc (mhash_wf t) Hv) as (m & _ & -> & E). exact (eq_sym E).
Qed.

Lemma retained_put c c' q f t :
  retained c (S q) f → tempty t = false → stageable_full t →
  putted c (mhash t) (next_row (view c) t) c' → retained c' q (t :: f).
Proof.
  intros Hret Ht Hst (Hc' & (_ & E0 & E1 & E2 & _) & Hv).
  pose proof (retained_room _ _ _ _ Hret Ht Hst) as Hroom.
  destruct Hret as [Hc H1' H2' H3' Hb Hr Ha]. destruct Hst as [_ HP].
  assert (∀ h, view c' h = put_tree (view c) t h) as Hv' by (intros; apply Hv).
  split; [done|congruence..|lia| |].
  - intros s Hs. assert (∃ r, has_row (put_tree (view c) t) s r) as (r & ? & ? & ?).
    { apply elem_of_cons in Hs as [->|Hs]; [eexists; by apply put_tree_row|].
      destruct (Hr s Hs) as [r Hrow]. by eapply put_tree_rows. }
    exists r. split_and!; [done..|]. by rewrite Hv'.
  - intros h s Hw. rewrite Hv', put_tree_view by done. case_bool_decide as E.
    + intros [= <-]. cbn [ds_payload ds_reference]. split; [done|].
      destruct (view c (mhash t)) as [s|] eqn:Hs; cbn [refs from_option]; [|lia].
      destruct (Ha _ s (mhash_wf t) Hs). lia.
    + intros Hs. destruct (Ha h s Hw Hs). split; [done|lia].
Qed.

Lemma retained_resolve c q f t :
  retained c q f → t ∈ f → ∃ c' r, resolve (mhash t) c = (c', Ok (Some (loaded_of t r))) ∧ retained c' q f.
Proof.
  intros Hret Ht. destruct (rt_rows _ _ _ Hret t Ht) as [r Hrow].
  destruct (resolve_tree c t r (rt_cache _ _ _ Hret) Hrow) as (c' & Hrun & Hmap).
  exists c', r. split; [done|]. by eapply retained_same_map.
Qed.
End full_state.

(** *** Writing at once, or journaling at once *)

Definition held_hashed (accounted cell : option UInt256.t) : bool :=
  bool_decide (is_Some accounted ∨ is_Some cell).

Section full_modes.
Context `{Crypto} `{LawfulStore St}.
Context (P : bytes → Prop) (P_inj : ∀ p p', P p → P p' → digest p = digest p' → p = p').
Implicit Types (c : MptCache St) (n : Node.t) (t : mpt).

(** When nothing is deferred, everything is clean. *)
Lemma eager_clean t n : repr false false t n → dirty n = false.
Proof. intros [(_ & _ & _ & ?)|[(_ & _ & Hd & _) _]]%repr_unfold; auto. Qed.

Lemma eager_clean_below t n :
  shape false false t n →
  Forall (λ ch, dirty ch = false) (children n) ∧ (∀ ch, next n = Some ch → dirty ch = false).
Proof.
  intros Hs. pose proof (shape_type _ _ _ _ Hs) as Hty. destruct Hs as [[Hcs Hnx] Hs]. split.
  - destruct t as [| | |ts]; try (by rewrite Hcs by (by rewrite Hty)).
    destruct Hs as [_ Hs]. clear -Hs. induction Hs; constructor; [by eapply eager_clean|done].
  - destruct t as [| |k t|]; try (by rewrite Hnx by (by rewrite Hty)).
    destruct Hs as (_ & _ & ch & -> & Hr). intros ? [= <-]. by eapply eager_clean.
Qed.

Lemma staged_type dnf dint t n : shape dnf dint t n → node_type (set_dirty n) = tree_type t.
Proof. intros Hs. cbn. rewrite (shape_type _ _ _ _ Hs). by destruct t. Qed.

#[local] Lemma eager_stage c q n t F :
  shape false false t n → tempty t = false → stageable_full P t →
  retained P false false c (S q) (kids held_hashed t n ++ F) →
  ∃ c' n', stage_mutated_node false (c, n) = ((c', n'), Ok tt) ∧ memo_ok false false t n' ∧
    shape false false t n' ∧ retained P false false c' q (owned held_hashed t n' ++ F).
Proof.
  intros Hs Ht Hst Hret. pose proof (retained_room P P_inj _ _ _ _ _ _ Hret Ht Hst) as Hroom.
  assert (shape false false t (set_dirty n)) as Hs1 by (by destruct t).
  destruct (prepare_tree _ _ t (set_dirty n) Hs1) as [Hp Hh]; [done|].
  destruct (put_node_with_payload_ok c (mhash t) (tree_type t) (mpayload t) (next_row (view c) t))
    as (c' & Hrun & Hput); [by eapply rt_cache|by eapply rt_ref| |].
  { apply put_tree_gives; [|done]. by eapply cache_good_rows, rt_cache. }
  assert (shape false false t (set_finalized_hash (mhash t) (set_dirty n))) as Hs2 by (by destruct t).
  exists c', (set_finalized_hash (mhash t) (set_dirty n)). split_and!; [| |done|].
  - unfold stage_mutated_node, put_node_cached. by rewrite Hp, Hh, (staged_type _ _ t n Hs), Hrun.
  - split_and!; [by intros h [= <-]|by intros h [= <-]|done|done|].
    cbn. split; [right; by eexists|]. by apply eager_clean_below with t.
  - rewrite (owned_shape false false _ _ _ Hs2). eapply retained_mono; [done| |].
    2:{ by eapply (retained_put P P_inj); [exact Hret|..]. }
    unfold own_self. rewrite Ht. cbn. by destruct t.
Qed.

#[local] Lemma deferred_stage c q n t F :
  shape true true t n → tempty t = false → stageable_full P t →
  retained P true true c (S q) (kids held_hashed t n ++ F) →
  ∃ c' n', stage_mutated_node true (c, n) = ((c', n'), Ok tt) ∧ memo_ok true true t n' ∧
    shape true true t n' ∧ retained P true true c' q (owned held_hashed t n' ++ F).
Proof.
  intros Hs Ht Hst Hret. pose proof (retained_room P P_inj _ _ _ _ _ _ Hret Ht Hst) as Hroom.
  assert (shape true true t (set_dirty n)) as Hs1 by (by destruct t).
  destruct (prepare_tree _ _ t (set_dirty n) Hs1) as [Hp Hh]; [done|].
  pose proof (defer_prepared_node_ok c (mkPending (tree_type t) (mhash t) (mpayload t)) (next_row (view c) t))
    as Hput. cbn [p_hash p_node_type p_payload] in Hput.
  specialize (Hput (rt_cache _ _ _ _ _ _ Hret) (rt_ref _ _ _ _ _ _ Hret)
    (put_tree_gives _ t (cache_good_rows c (rt_cache _ _ _ _ _ _ Hret)) Hroom)).
  assert (shape true true t (set_pending_hash (mhash t) (set_dirty n))) as Hs2 by (by destruct t).
  eexists _, (set_pending_hash (mhash t) (set_dirty n)). split_and!; [| |done|].
  - unfold stage_mutated_node, defer_intermediate_node, prepare_node_finalization.
    by rewrite (rt_int _ _ _ _ _ _ Hret), Hp, Hh, (staged_type _ _ t n Hs).
  - split_and!; [by intros h [= <-]|done|done|by eexists|done].
  - rewrite (owned_shape true true _ _ _ Hs2). eapply retained_mono; [done| |].
    2:{ by eapply (retained_put P P_inj); [exact Hret|..]. }
    unfold own_self. rewrite Ht. cbn. by destruct t.
Qed.

(** Full state, eager ([b] false) or deferred ([b] true). *)
Definition full_mode (b : bool) : TrieCache St true b b.
Proof.
  refine {| held := held_hashed; stageable := stageable_full P; Own := retained P b b |}.
  - intros c q f g Hp. apply retained_mono; [done|]. intros s. by rewrite Hp.
  - intros c q q' f Hq. by apply retained_mono.
  - intros c q t F Ht Hown.
    destruct (retained_resolve P _ _ c q _ t Hown) as (c' & r & Hrun & Hown').
    { apply elem_of_app. left. by apply subtrees_self. }
    exists c', (loaded_of t r).
    split_and!; [done|by apply loaded_of_memo|by apply loaded_of_shape|done| |done].
    by rewrite (loaded_of_owned b b).
  - intros c q n t F Hs Ht Hst Hown. destruct b; [by apply deferred_stage|by apply eager_stage].
  - intros n t _ _ _. exists None. split; [done|]. intros c q F x Hown. exists c. split; [done|].
    eapply retained_mono; [done| |exact Hown]. intros s Hs. apply elem_of_app. by right.
Defined.
End full_modes.
