(* ===== verification/MptFinal.v ===== *)
(** * Finalization of dirty nodes

    [finalize_dirty_nodes] walks the dirty part of the tree in memory, stages
    one reference for each of its nodes and marks them as accounted for.
    Afterwards the rows of the cache are those of the whole tree. *)
From S2P Require Import Prelude Primitives Io MptNode MptNodeFacts MptCache MptTrie MptSpec.
From S2P Require Import MptCacheFacts MptCommitFacts MptRefine MptModes.
Import NodeType Node NodeCodec.

Section dirty.
Context `{Crypto}.
Implicit Types (t : mpt) (n ch : Node.t) (ts : list mpt) (ns : list Node.t).

Abbreviation Repr := (repr true).

(** The trees of the dirty nodes, children first. *)
Fixpoint dirty_trees t n : list mpt :=
  if negb (dirty n) then []
  else match t with
       | TEmpty => []
       | TLeaf _ => [t]
       | TExt _ t' => match next n with Some ch => dirty_trees t' ch | None => [] end ++ [t]
       | TBranch ts =>
           (fix all (ts : list mpt) (ns : list Node.t) : list mpt :=
              match ts, ns with
              | t :: ts, n :: ns => dirty_trees t n ++ all ts ns
              | _, _ => []
              end) ts (children n) ++ [t]
       end.

Definition dirty_all ts ns : list mpt := concat (zip_with dirty_trees ts ns).

Definition dirty_kids t n : list mpt :=
  match t with
  | TExt _ t' => from_option (dirty_trees t') [] (next n)
  | TBranch ts => dirty_all ts (children n)
  | _ => []
  end.

Lemma dirty_trees_unfold t n :
  dirty_trees t n = if dirty n then dirty_kids t n ++ (if tempty t then [] else [t]) else [].
Proof.
  destruct t as [| | |ts]; cbn [dirty_trees dirty_kids tempty]; destruct (dirty n); try done.
  cbn [negb]. f_equal. unfold dirty_all. generalize (children n) as ns.
  induction ts as [|t ts IH]; intros [|ch ns]; try done. cbn. by rewrite IH.
Qed.

Lemma dirty_trees_clean t n : dirty n = false → dirty_trees t n = [].
Proof. intros Hd. by rewrite dirty_trees_unfold, Hd. Qed.

Lemma dirty_all_clean ts ns : Forall (λ ch, dirty ch = false) ns → dirty_all ts ns = [].
Proof.
  intros Hns. revert ts. induction Hns as [|ch ns Hd _ IH]; intros [|t ts]; try done.
  unfold dirty_all in *. cbn. by rewrite dirty_trees_clean, IH.
Qed.

(** A represented node with a pending hash on every dirty node is one
    without. *)
Lemma memo_pending dint t n : memo_ok true true t n → memo_ok true dint t n.
Proof. intros (? & ? & ? & Hd & ?). split_and!; [done..| |done]. intros _. by apply Hd. Qed.

(** ** The owned and the dirty trees make up the tree *)

(** [R] holds of the children. *)
Definition kids_all (R : mpt → Node.t → Prop) t n : Prop :=
  match t with
  | TExt _ t' => ∃ ch, next n = Some ch ∧ R t' ch
  | TBranch ts => Forall2 R ts (children n)
  | _ => True
  end.

Lemma shape_kids dnf dint t n : shape dnf dint t n → kids_all (repr dnf dint) t n.
Proof. intros [_ Hs]. destruct t; cbn in Hs |- *; tauto. Qed.

(** Induction over a tree and the node that represents it. *)
Lemma repr_induction dnf dint (Q : mpt → Node.t → Prop) :
  (∀ t n, is_hash t n → Q t n) →
  (∀ t n, memo_ok dnf dint t n → shape dnf dint t n → kids_all Q t n → Q t n) →
  ∀ t n, repr dnf dint t n → Q t n.
Proof.
  intros Hh Hs t. induction t as [|v|k t IH|ts IH] using mpt_induction; intros n
    [?|[Hm Hsh]]%repr_unfold; auto; apply Hs; try done; pose proof (shape_kids _ _ _ _ Hsh) as Hk.
  - destruct Hk as (ch & Hch & Hr). exists ch. auto.
  - cbn in Hk |- *. clear -IH Hk. induction Hk as [|t ch ts ns Hr _ IHk]; [constructor|].
    apply Forall_cons_1 in IH as [? ?]. constructor; auto.
Qed.

(** Dirty trees below a clean node: none. *)
Lemma dirty_trees_memo dint t n :
  memo_ok true dint t n →
  dirty_trees t n = dirty_kids t n ++ (if dirty n && negb (tempty t) then [t] else []).
Proof.
  intros (_ & _ & _ & _ & Hd). rewrite dirty_trees_unfold. destruct (dirty n); [by destruct t|].
  destruct Hd as (_ & Hcs & Hnx). destruct t as [| |k t|ts]; try done; cbn [dirty_kids andb];
    rewrite app_nil_r.
  - destruct (next n) as [ch|] eqn:E; [|done]. cbn. rewrite dirty_trees_clean; [done|]. by apply Hnx.
  - by rewrite dirty_all_clean.
Qed.

Lemma own_self_dirty t n :
  memo_ok true false t n →
  own_self held_accounted t n ++ (if dirty n && negb (tempty t) then [t] else []) =
  if tempty t then [] else [t].
Proof.
  intros (_ & _ & _ & _ & Hd). unfold own_self, held_accounted.
  destruct (tempty t) eqn:Ht; [by rewrite andb_false_r|]. cbn [negb andb]. rewrite andb_true_r.
  destruct (dirty n).
  - by destruct Hd as [_ ->].
  - destruct Hd as ([Hd|Hd] & _); [done|]. by rewrite bool_decide_true.
Qed.

Definition kid_trees t : list mpt :=
  match t with TExt _ t' => subtrees t' | TBranch ts => concat (subtrees <$> ts) | _ => [] end.

Lemma subtrees_unfold t : subtrees t = (if tempty t then [] else [t]) ++ kid_trees t.
Proof. by destruct t. Qed.

Lemma owned_dirty t n :
  Repr false t n → owned held_accounted t n ++ dirty_trees t n ≡ₚ subtrees t.
Proof.
  apply (repr_induction true false (λ t n, owned held_accounted t n ++ dirty_trees t n ≡ₚ subtrees t)).
  - intros t' n' Hh. rewrite owned_hash by done. destruct Hh as (_ & _ & _ & Hd).
    by rewrite dirty_trees_clean, app_nil_r.
  - clear t n. intros t n Hm Hs IH.
    rewrite (owned_shape _ _ _ _ _ Hs), (dirty_trees_memo _ _ _ Hm), subtrees_unfold.
    rewrite <-(own_self_dirty t n Hm).
    assert (kids held_accounted t n ++ dirty_kids t n ≡ₚ kid_trees t) as <-; [|perm].
    destruct t as [|v|k t|ts]; try done; cbn [kids_all kids dirty_kids kid_trees] in *.
    + destruct IH as (ch & -> & IH). done.
    + unfold owned_all, dirty_all. clear -IH. induction IH as [|t ch ts ns IH _ IHs]; [done|].
      cbn. rewrite <-IH, <-IHs. perm.
Qed.

(** ** Marking *)

Lemma mark_unfold n :
  mark_dirty_subtree_finalized n =
  if negb (dirty n) then n
  else
    let finish n := match hash_cell n with Some h => set_finalized_hash h n | None => n end in
    match node_type n with
    | BranchNode => finish (with_children (mark_dirty_subtree_finalized <$> children n) n)
    | ExtensionNode => finish (with_next (mark_dirty_subtree_finalized <$> next n) n)
    | LeafNode => finish n
    | HashNode | Empty => n
    end.
Proof. by destruct n. Qed.

Lemma finished_memo t n :
  Forall (λ ch, dirty ch = false) (children n) → (∀ ch, next n = Some ch → dirty ch = false) →
  memo_ok true true t (set_finalized_hash (mhash t) n).
Proof.
  intros Hcs Hnx. split_and!; [by intros h [= <-]|by intros h [= <-]|done|done|].
  cbn. split_and!; [right; by eexists|done..].
Qed.

Lemma mark_ok t n :
  Repr true t n →
  Repr true t (mark_dirty_subtree_finalized n) ∧ dirty (mark_dirty_subtree_finalized n) = false.
Proof.
  apply (repr_induction true true (λ t n, Repr true t (mark_dirty_subtree_finalized n) ∧
    dirty (mark_dirty_subtree_finalized n) = false)).
  - intros t' n' Hh. assert (Hh' := Hh). destruct Hh' as (_ & _ & _ & Hd).
    rewrite mark_unfold, Hd. split; [|done]. apply repr_unfold. by left.
  - clear t n. intros t n Hm Hs IH. rewrite mark_unfold. destruct (dirty n) eqn:Hd; cbn [negb].
    2:{ split; [|done]. apply repr_unfold. by right. }
    destruct Hm as (Hc & _ & _ & Hcell & Hd'). destruct (Hcell eq_refl Hd) as [h Hh].
    rewrite Hd in Hd'. destruct Hd' as [Ht _]. pose proof (Hc h Hh) as ->.
    pose proof (shape_type _ _ _ _ Hs) as Hty. rewrite Hty. destruct Hs as ([Hp1 Hp2] & Hs).
    destruct t as [|v|k t|ts]; [done|..]; cbn [kids_all] in IH; cbn [with_children with_next hash_cell];
      rewrite Hh; (split; [|done]); rewrite Hty in Hp1, Hp2; apply repr_unfold; right; (split; [apply finished_memo|]).
    + by rewrite Hp1.
    + by rewrite Hp2.
    + split; [|done]. split; cbn; by rewrite Hty.
    + cbn. by rewrite Hp1.
    + destruct IH as (ch & -> & _ & Hd'). by intros ? [= <-].
    + destruct IH as (ch & Hch & Hr & _). destruct Hs as (_ & Hk & _). split_and!; [|done..|].
      * split; cbn; by rewrite Hty.
      * cbn. rewrite Hch. by eexists.
    + cbn. clear -IH. induction IH as [|t ch ts ns [_ ?] _ IHs]; by constructor.
    + cbn. by rewrite Hp2.
    + split_and!; [|done|].
      * split; cbn; by rewrite Hty.
      * cbn. clear -IH. induction IH as [|t ch ts ns [? _] _ IHs]; by constructor.
Qed.

(** ** Collecting *)

(** What is staged for a tree. *)
Definition pend t : PendingNodeFinalization := mkPending (tree_type t) (mhash t) (mpayload t).

Fixpoint collect_children (cs : list Node.t) (pending : list PendingNodeFinalization)
    : list Node.t * list PendingNodeFinalization * Result MptError unit :=
  match cs with
  | [] => ([], pending, Ok tt)
  | ch :: cs =>
      let '(ch, pending, r) := collect_dirty_subtree ch pending in
      match r with
      | Err e => (ch :: cs, pending, Err e)
      | Ok _ => let '(cs, pending, r) := collect_children cs pending in (ch :: cs, pending, r)
      end
  end.

Lemma collect_unfold n pending :
  collect_dirty_subtree n pending =
  if negb (dirty n) then (n, pending, Ok tt)
  else
    let finish n pending :=
      match prepare_node_finalization n with
      | (n, Ok p) => (n, pending ++ [p], Ok tt)
      | (n, Err e) => (n, pending, Err e)
      end in
    match node_type n with
    | BranchNode =>
        let '(cs, pending, r) := collect_children (children n) pending in
        match r with
        | Err e => (with_children cs n, pending, Err e)
        | Ok _ => finish (with_children cs n) pending
        end
    | ExtensionNode =>
        match next n with
        | Some ch =>
            let '(ch, pending, r) := collect_dirty_subtree ch pending in
            match r with
            | Err e => (with_next (Some ch) n, pending, Err e)
            | Ok _ => finish (with_next (Some ch) n) pending
            end
        | None => finish n pending
        end
    | LeafNode => finish n pending
    | HashNode | Empty => (n, pending, Ok tt)
    end.
Proof. by destruct n. Qed.

Definition collected t n : Prop :=
  ∃ n', Repr true t n' ∧ ∀ pending,
    collect_dirty_subtree n pending = (n', pending ++ (pend <$> dirty_trees t n), Ok tt).

Lemma collect_children_ok ts ns :
  Forall2 collected ts ns →
  ∃ ns', Forall2 (Repr true) ts ns' ∧ ∀ pending,
    collect_children ns pending = (ns', pending ++ (pend <$> dirty_all ts ns), Ok tt).
Proof.
  induction 1 as [|t ch ts ns (ch' & Hr & Hrun) _ (ns' & Hrs & IH)].
  - exists []. split; [constructor|]. intros pending. cbn. by rewrite app_nil_r.
  - exists (ch' :: ns'). split; [by constructor|]. intros pending. cbn [collect_children].
    rewrite Hrun, IH. unfold dirty_all. cbn. by rewrite fmap_app, app_assoc.
Qed.

(** The last step at a dirty node whose children are done. *)
Lemma prepare_ok t n :
  (∀ h, hash_cell n = Some h → h = mhash t) → accounted_hash n = None → dirty n = true →
  tempty t = false → shape true true t n →
  prepare_node_finalization n = (set_pending_hash (mhash t) n, Ok (pend t)) ∧
  Repr true t (set_pending_hash (mhash t) n).
Proof.
  intros Hc Ha Hd Ht Hs. destruct (prepare_tree _ _ t n Hs Hc) as [Hp Hh]. split.
  - unfold prepare_node_finalization. rewrite Hp, Hh. unfold pend. do 3 f_equal.
    rewrite (shape_type _ _ _ _ Hs). by destruct t.
  - apply repr_unfold. right. split; [|by destruct t].
    split_and!; cbn; [by intros h [= <-]|by rewrite Ha|done|by eexists|]. by rewrite Hd.
Qed.

Lemma clean_repr dint dint' t n : Repr dint t n → dirty n = false → Repr dint' t n.
Proof.
  apply (repr_induction true dint (λ t n, dirty n = false → Repr dint' t n)).
  - intros t' n' Hh _. apply repr_unfold. by left.
  - clear t n. intros t n (Hc & Ha & Hd & _ & Hcl) Hs IH Hclean. apply repr_unfold. right.
    split; [split_and!; [done..|by rewrite Hclean|done]|].
    rewrite Hclean in Hcl. destruct Hcl as (_ & Hcs & Hnx). destruct Hs as (Hp & Hs).
    split; [done|]. destruct t as [|v|k t|ts]; cbn [kids_all] in IH; try done.
    + destruct IH as (ch & Hch & IH). split_and!; [apply Hs..|]. exists ch. auto.
    + split; [apply Hs|]. clear -IH Hcs. induction IH as [|t ch ts ns IH _ IHs]; [constructor|].
      apply Forall_cons_1 in Hcs as [? ?]. constructor; auto.
Qed.

Lemma collect_ok t n : Repr false t n → collected t n.
Proof.
  apply (repr_induction true false collected).
  - intros t' n' Hh. exists n'. split; [apply repr_unfold; by left|]. intros pending.
    destruct Hh as (_ & _ & _ & Hd). rewrite collect_unfold, dirty_trees_clean, Hd by done.
    by rewrite app_nil_r.
  - clear t n. intros t n Hm Hs IH. destruct (dirty n) eqn:Hd.
    2:{ exists n. split; [by eapply clean_repr; [apply repr_unfold; right|]|]. intros pending.
        rewrite collect_unfold, dirty_trees_clean, Hd by done. by rewrite app_nil_r. }
    assert (Hm' := Hm). destruct Hm' as (Hc & _ & _ & _ & Hcl). rewrite Hd in Hcl. destruct Hcl as [Ht Ha].
    pose proof (shape_type _ _ _ _ Hs) as Hty. destruct Hs as ([Hp1 Hp2] & Hs).
    rewrite Hty in Hp1, Hp2. unfold collected. setoid_rewrite collect_unfold.
    setoid_rewrite dirty_trees_unfold. rewrite Hd, Hty. cbn [negb].
    destruct t as [|v|k t|ts]; [done|..]; cbn [kids_all dirty_kids tempty] in *.
    + destruct (prepare_ok (TLeaf v) n Hc Ha Hd eq_refl) as [Hrun Hr].
      { split; [|done]. split; by rewrite Hty. }
      eexists. split; [exact Hr|]. intros pending. by rewrite Hrun.
    + destruct IH as (ch & Hch & ch' & Hr' & Hrun'). rewrite Hch. cbn [from_option].
      destruct (prepare_ok (TExt k t) (with_next (Some ch') n) Hc Ha Hd eq_refl) as [Hrun Hr].
      { split_and!; [|done|apply Hs|by eexists]. split; cbn; by rewrite Hty. }
      eexists. split; [exact Hr|]. intros pending. by rewrite Hrun', Hrun, fmap_app, app_assoc.
    + destruct (collect_children_ok ts (children n) IH) as (ns' & Hrs & Hrun').
      destruct (prepare_ok (TBranch ts) (with_children ns' n) Hc Ha Hd eq_refl) as [Hrun Hr].
      { split_and!; [|done..]. split; cbn; by rewrite Hty. }
      eexists. split; [exact Hr|]. intros pending. by rewrite Hrun', Hrun, fmap_app, app_assoc.
Qed.
End dirty.

(** ** Finalization when pruning *)

Section finalize.
Context `{Crypto}.

Lemma count_length f h : (count f h ≤ Z.of_nat (length f))%Z.
Proof. unfold count. pose proof (length_filter (λ s, mhash s = h) f). lia. Qed.

Lemma counted_room v f t :
  counted v f → tempty t = false → limit t → collision_free digest (mpayload <$> t :: f) →
  (Z.of_nat (length (t :: f)) < 2 ^ 31)%Z → room v t.
Proof.
  intros Hc Ht Hl Hcf Hlen. split_and!; [done..|]. intros s Hv.
  destruct (counted_inv v f _ s Hc (mhash_wf t) Hv) as (t' & Ht' & E & ->). cbn [ds_payload ds_reference].
  pose proof (count_length f (mhash t)). cbn [length] in Hlen. split; [|lia].
  apply Hcf; [by apply list_elem_of_fmap_2, elem_of_cons; right|by apply list_elem_of_fmap_2; left|].
  by symmetry.
Qed.

Lemma puts_trees v f ts :
  counted v f → Forall (λ t, tempty t = false ∧ limit t) ts →
  collision_free digest (mpayload <$> ts ++ f) → (Z.of_nat (length (ts ++ f)) < 2 ^ 31)%Z →
  ∃ v', puts_give v (pend <$> ts) v' ∧ counted v' (ts ++ f).
Proof.
  revert v f. induction ts as [|t ts IH]; intros v f Hc Hts Hcf Hlen; [by exists v|].
  apply Forall_cons_1 in Hts as [[Ht Hl] Hts]. cbn [app] in Hcf, Hlen.
  assert (Hperm : t :: ts ++ f ≡ₚ ts ++ t :: f) by apply Permutation_middle.
  assert (room v t) as Hroom.
  { apply (counted_room v f); try done.
    - eapply collision_free_mono; [|exact Hcf]. intros p. rewrite !list_elem_of_fmap.
      intros (s & -> & [->|Hs]%elem_of_cons); eexists; (split; [done|]); [left|].
      right. apply elem_of_app. by right.
    - cbn [length] in *. rewrite length_app in Hlen. lia. }
  destruct (IH (put_tree v t) (t :: f)) as (v' & Hputs & Hc').
  - by apply counted_put.
  - done.
  - by rewrite <-Hperm.
  - by rewrite <-Hperm.
  - exists v'. split; [|by eapply counted_perm].
    exists (next_row v t). split; [by apply put_tree_gives; [apply cn_good in Hc|]|done].
Qed.

Lemma dirty_trees_subtrees t n s : repr true false t n → s ∈ dirty_trees t n → s ∈ subtrees t.
Proof. intros Hr Hs. rewrite <-(owned_dirty t n Hr). apply elem_of_app. by right. Qed.

Lemma subtrees_nonempty t s : s ∈ subtrees t → tempty s = false.
Proof.
  induction t as [|v|k t IH|ts IH] using mpt_induction; cbn [subtrees]; intros Hs.
  - by apply not_elem_of_nil in Hs.
  - by apply list_elem_of_singleton in Hs as ->.
  - apply elem_of_cons in Hs as [->|Hs]; auto.
  - apply elem_of_cons in Hs as [->|Hs]; [done|]. apply elem_of_concat in Hs as (l & Hs & Hl).
    apply list_elem_of_fmap in Hl as (t & -> & Ht). rewrite Forall_forall in IH. by apply (IH t).
Qed.

Context `{LawfulStore St}.
Implicit Types (T : Trie (St := St)) (c : MptCache St).

(** After finalization the rows are those of the whole tree. *)
Lemma finalize_pruned T t F :
  defer_node_finalization T = true → repr true false t (root T) →
  pruned (cache T) (owned held_accounted t (root T) ++ F) →
  Forall limit (subtrees t) → collision_free digest (mpayload <$> subtrees t ++ F) →
  (Z.of_nat (length (subtrees t ++ F)) < 2 ^ 31)%Z →
  ∃ c' n', finalize_dirty_nodes T = (mkTrie c' n' (full_state T) true, Ok tt) ∧
    same_modes (cache T) c' ∧ repr true false t n' ∧ dirty n' = false ∧ pruned c' (subtrees t ++ F).
Proof.
  intros Hd Hr Hpr Hl Hcf Hlen. assert (Hpr' := Hpr). destruct Hpr' as [Hc _ Hm Hcn].
  destruct (collect_ok t (root T) Hr) as (n1 & Hr1 & Hcol).
  pose proof (owned_dirty t (root T) Hr) as Hod.
  assert (dirty_trees t (root T) ++ owned held_accounted t (root T) ++ F ≡ₚ subtrees t ++ F) as Hperm
    by (rewrite <-Hod; perm).
  destruct (puts_trees (view (cache T)) _ (dirty_trees t (root T)) Hcn) as (v' & Hputs & Hcn').
  { apply Forall_forall. intros s Hs%(dirty_trees_subtrees _ _ _ Hr). rewrite Forall_forall in Hl.
    split; [by eapply subtrees_nonempty|auto]. }
  { by rewrite Hperm. }
  { by rewrite Hperm. }
  destruct (finalize_prepared_nodes_ok (cache T) _ v' Hc Hputs) as (c' & Hrun & Hc' & Hmodes & Hv').
  destruct (mark_ok t n1 Hr1) as [Hr2 Hd2].
  exists c', (mark_dirty_subtree_finalized n1). split_and!; [|done| |done|].
  - unfold finalize_dirty_nodes. rewrite Hd, Hm, Hcol. cbn [negb app]. by rewrite Hrun.
  - by eapply clean_repr.
  - eapply pruned_modes; [exact Hpr|done..|].
    eapply counted_perm; [exact Hperm|]. eapply counted_ext; [|exact Hcn']. auto.
Qed.
End finalize.
