(* ===== verification/MptMap.v ===== *)
(** * The trie of a key-value map

    The specification of the state trie: one canonical tree, and one root
    hash, for each finite map from storage keys to values. *)
From S2P Require Import Prelude Primitives Io MptNode MptNodeFacts MptCache MptTrie MptSpec.
From S2P Require Import MptCacheFacts MptCommitFacts MptRefine MptModes.
Import NodeType Node.

(** ** Nibble paths *)

Lemma nibble_pair_cons b bs :
  to_nibbles (b :: bs) =
  as_u8 (N.shiftr (Byte.to_N b) 4) :: as_u8 (N.land (Byte.to_N b) 15) :: to_nibbles bs.
Proof. done. Qed.

Lemma nibbles_of_byte b :
  is_nibble (as_u8 (N.shiftr (Byte.to_N b) 4)) = true ∧
  is_nibble (as_u8 (N.land (Byte.to_N b) 15)) = true ∧
  as_u8 (N.lor (N.shiftl (Byte.to_N (as_u8 (N.shiftr (Byte.to_N b) 4))) 4)
    (N.land (Byte.to_N (as_u8 (N.land (Byte.to_N b) 15))) 15)) = b.
Proof. by destruct b; vm_compute. Qed.

Lemma nibbles_to_nibbles k : nibbles (to_nibbles k).
Proof.
  induction k as [|b k IH]; [constructor|]. rewrite nibble_pair_cons.
  destruct (nibbles_of_byte b) as (? & ? & _). by repeat constructor.
Qed.

Lemma length_to_nibbles k : length (to_nibbles k) = (2 * length k)%nat.
Proof. induction k as [|b k IH]; [done|]. rewrite nibble_pair_cons. cbn [length]. lia. Qed.

Lemma from_to_nibbles k : from_nibbles (to_nibbles k) = Ok k.
Proof.
  unfold from_nibbles. rewrite length_to_nibbles, Nat.even_mul. cbn [Nat.even orb]. f_equal.
  induction k as [|b k IH]; [done|]. rewrite nibble_pair_cons. cbn [from_nibbles_chunks].
  rewrite IH. f_equal. by destruct (nibbles_of_byte b) as (_ & _ & ?).
Qed.

#[export] Instance to_nibbles_inj : Inj (=) (=) to_nibbles.
Proof. intros k k' E. pose proof (from_to_nibbles k) as E1. rewrite E, from_to_nibbles in E1. congruence. Qed.

(** ** Maps and trees *)

Abbreviation kvmap := (gmap bytes bytes).
Implicit Types (m : kvmap) (t : mpt).

(** [t] is canonical and holds exactly the entries of [m]. *)
Definition stands_for t m : Prop :=
  canon t ∧ ∀ p v, nibbles p → mlookup t p = Some v ↔ ∃ k, p = to_nibbles k ∧ m !! k = Some v.

Lemma stands_for_lookup t m k : stands_for t m → mlookup t (to_nibbles k) = m !! k.
Proof.
  intros [_ Ht]. destruct (m !! k) as [v|] eqn:E.
  - apply Ht; [apply nibbles_to_nibbles|]. eauto.
  - destruct (mlookup _ _) as [v|] eqn:E'; [|done].
    apply Ht in E' as (k' & Ek & Hk); [|apply nibbles_to_nibbles].
    apply (inj to_nibbles) in Ek as ->. congruence.
Qed.

Lemma stands_for_unique t1 t2 m : stands_for t1 m → stands_for t2 m → t1 = t2.
Proof.
  intros [Hc1 H1] [Hc2 H2]. apply canonical_unique; [done..|]. intros p Hp.
  apply option_eq. intros v. by rewrite H1, H2.
Qed.

Lemma stands_for_empty : stands_for TEmpty ∅.
Proof. split; [done|]. intros p v _. split; [done|]. intros (k & _ & Hk). by rewrite lookup_empty in Hk. Qed.

Lemma stands_for_put t m k v :
  stands_for t m → stands_for (mput t (to_nibbles k) v) (<[k := v]> m).
Proof.
  intros [Hc Ht]. pose proof (nibbles_to_nibbles k) as Hk. split; [by apply canon_mput|].
  intros p w Hp. rewrite mlookup_mput by done. case_bool_decide as E.
  - subst p. split; [intros [= <-]; exists k; split; [done|by rewrite lookup_insert_eq]|].
    intros (k' & ->%(inj _) & Hk'). by rewrite lookup_insert_eq in Hk'.
  - rewrite Ht by done. split; intros (k' & -> & Hk'); exists k'; (split; [done|]).
    + rewrite lookup_insert_ne; congruence.
    + rewrite lookup_insert_ne in Hk'; congruence.
Qed.

Lemma stands_for_delete t m k :
  stands_for t m →
  match mdelete t (to_nibbles k) with
  | Some t' => is_Some (m !! k) ∧ stands_for t' (delete k m)
  | None => m !! k = None
  end.
Proof.
  intros Hst. pose proof (stands_for_lookup t m k Hst) as Hl. destruct Hst as [Hc Ht].
  pose proof (nibbles_to_nibbles k) as Hk. pose proof (mdelete_spec t _ Hc Hk) as Hd.
  destruct (mdelete t (to_nibbles k)) as [t'|]; [|by rewrite <-Hl].
  destruct Hd as (Hs & Hc' & Hd). split; [by rewrite <-Hl|]. split; [done|].
  intros p w Hp. rewrite Hd by done. case_bool_decide as E.
  - subst p. split; [done|]. intros (k' & ->%(inj _) & Hk'). by rewrite lookup_delete_eq in Hk'.
  - rewrite Ht by done. split; intros (k' & -> & Hk'); exists k'; (split; [done|]).
    + rewrite lookup_delete_ne; congruence.
    + by apply lookup_delete_Some in Hk' as [_ ?].
Qed.

(** The tree of a map. *)
Definition tree_of m : mpt := map_fold (λ k v t, mput t (to_nibbles k) v) TEmpty m.

Lemma tree_of_stands m : stands_for (tree_of m) m.
Proof.
  unfold tree_of. apply (map_fold_weak_ind (λ t m, stands_for t m)); [apply stands_for_empty|].
  intros k v m' t _ Ht. by apply stands_for_put.
Qed.

Lemma tree_of_spec t m : stands_for t m → t = tree_of m.
Proof. intros Ht. eapply stands_for_unique; [done|apply tree_of_stands]. Qed.

Lemma tree_of_put m k v : mput (tree_of m) (to_nibbles k) v = tree_of (<[k := v]> m).
Proof. apply tree_of_spec, stands_for_put, tree_of_stands. Qed.

Lemma tree_of_delete m k :
  mdelete (tree_of m) (to_nibbles k) =
  if decide (is_Some (m !! k)) then Some (tree_of (delete k m)) else None.
Proof.
  pose proof (stands_for_delete _ _ k (tree_of_stands m)) as Hd.
  destruct (mdelete _ _) as [t'|]; case_decide as E; try done.
  - destruct Hd as [_ ->%tree_of_spec]. done.
  - by destruct Hd.
  - rewrite Hd in E. by destruct E.
Qed.

Lemma tree_of_lookup m k : mlookup (tree_of m) (to_nibbles k) = m !! k.
Proof. apply stands_for_lookup, tree_of_stands. Qed.

Lemma tree_of_canon m : canon (tree_of m).
Proof. apply tree_of_stands. Qed.

Lemma tree_of_empty m : tempty (tree_of m) = true ↔ m = ∅.
Proof.
  split.
  - intros Ht. apply map_eq. intros k. rewrite <-tree_of_lookup, lookup_empty. by destruct (tree_of m).
  - intros ->. done.
Qed.

(** The root hash the protocol prescribes for a map. *)
Definition root_of `{Crypto} m : option UInt256.t :=
  if tempty (tree_of m) then None else Some (mhash (tree_of m)).

(** ** Protocol limits *)

Definition valid_key (k : bytes) : bool :=
  (0 <? length k)%nat && (2 * length k <=? MAX_KEY_LENGTH)%nat.
Definition valid_value (v : bytes) : bool := (len v <=? MAX_VALUE_LENGTH)%N.
Definition valid_map m : Prop := map_Forall (λ k v, valid_key k = true ∧ valid_value v = true) m.

(** Keys and values of a tree are within the limits. *)
Definition bounded t : Prop := ∀ p v,
  nibbles p → mlookup t p = Some v → (length p ≤ MAX_KEY_LENGTH)%nat ∧ valid_value v = true.

Lemma bounded_ext k t : canon (TExt k t) → bounded (TExt k t) → bounded t ∧ limit (TExt k t).
Proof.
  intros (_ & Hk & Hx & Hct)%canon_ext Hb.
  assert (∀ p v, nibbles p → mlookup t p = Some v →
    (length (k ++ p) ≤ MAX_KEY_LENGTH)%nat ∧ valid_value v = true) as Hb'.
  { intros p v Hp Hv. apply Hb; [by apply nibbles_app|]. by rewrite mlookup_ext_app_key. }
  split.
  - intros p v Hp Hv. destruct (Hb' p v Hp Hv) as [Hl ?]. rewrite length_app in Hl. split; [lia|done].
  - destruct (key_exists t Hct) as (p & Hp & [v Hv]); [by destruct t|].
    destruct (Hb' p v Hp Hv) as [Hl _]. rewrite length_app in Hl. unfold limit, len. lia.
Qed.

Lemma bounded_branch ts i t : canon (TBranch ts) → bounded (TBranch ts) → ts !! i = Some t → bounded t.
Proof.
  intros Hc Hb Ht p v Hp Hv. destruct (mlookup_child ts i t p Hc Ht Hp) as (Hn & _ & E); [by eexists|].
  destruct (Hb (child_path i p) v Hn) as [Hlen ?]; [by rewrite E|]. split; [|done].
  unfold child_path in Hlen. case_bool_decide; cbn [length] in Hlen; lia.
Qed.

Lemma limit_subtrees t : canon t → bounded t → Forall limit (subtrees t).
Proof.
  induction t as [|v|k t IH|ts IH] using mpt_induction; intros Hc Hb.
  - constructor.
  - constructor; [|constructor]. cbn. destruct (Hb [] v) as [_ Hv]; [constructor|done|].
    by apply N.leb_le in Hv.
  - destruct (bounded_ext k t Hc Hb). constructor; [done|]. apply IH; [by apply canon_ext in Hc as (_ & _ & _ & ?)|done].
  - assert (Hc' := Hc). apply canon_branch in Hc' as (Hl & _ & _ & Hcs). cbn [subtrees].
    constructor; [done|]. apply Forall_concat, Forall_fmap, Forall_lookup. intros i t Ht.
    rewrite Forall_lookup in IH, Hcs. apply (IH i t Ht); [by eapply Hcs|by eapply bounded_branch].
Qed.

(** What a deletion builds on the way is within the limits. *)
Lemma deleted_limit t p t' :
  canon t → nibbles p → bounded t → mdelete t p = Some t' → tempty t' = false → limit t'.
Proof.
  intros Hc Hp Hb E Ht'. pose proof (mdelete_spec t p Hc Hp) as Hd. rewrite E in Hd.
  destruct Hd as (_ & Hc' & Hd).
  assert (Forall limit (subtrees t')) as Hl.
  { apply limit_subtrees; [done|]. intros q w Hq. rewrite Hd by done. case_bool_decide; [done|]. by apply Hb. }
  rewrite Forall_forall in Hl. by apply Hl, subtrees_self.
Qed.

Lemma trace_limit t p :
  canon t → nibbles p → bounded t → Forall (λ s, tempty s = false → limit s) (mdelete_trace t p).
Proof.
  assert (∀ t p, canon t → nibbles p → bounded t → Forall (λ s, tempty s = false → limit s)
    match mdelete t p with Some t' => [t'] | None => [] end) as Hhere.
  { intros t' p' Hc Hp Hb. destruct (mdelete t' p') as [t''|] eqn:E; [|constructor].
    constructor; [|constructor]. by apply (deleted_limit t' p'). }
  revert p. induction t as [|v|k t IH|ts IH] using mpt_induction; intros p Hc Hp Hb;
    specialize (Hhere _ p Hc Hp Hb).
  - done.
  - cbn [mdelete_trace]. by rewrite app_nil_r.
  - cbn [mdelete_trace]. apply Forall_app_2; [exact Hhere|].
    destruct (starts_with p k); [|constructor]. destruct (bounded_ext k t Hc Hb).
    apply IH; [by apply canon_ext in Hc as (_ & _ & _ & ?)|by apply Forall_drop|done].
  - assert (Hc' := Hc). apply canon_branch in Hc' as (Hl & _ & _ & Hcs).
    destruct (ts !! (branch_step p).1) as [t|] eqn:Ht.
    2:{ apply lookup_ge_None in Ht. pose proof (branch_step_lt p Hp). lia. }
    rewrite (mdelete_trace_branch ts p t Ht). apply Forall_app_2; [exact Hhere|].
    rewrite Forall_lookup in IH, Hcs.
    apply (IH _ t Ht); [by eapply Hcs|by apply branch_step_nibbles|by eapply bounded_branch].
Qed.

Lemma tree_of_bounded m : valid_map m → bounded (tree_of m).
Proof.
  intros Hm p v Hp Hv. apply tree_of_stands in Hv as (k & -> & Hk); [|done].
  destruct (Hm k v Hk) as [Hvk ?]. split; [|done].
  apply andb_true_iff in Hvk as [_ Hl%Nat.leb_le]. by rewrite length_to_nibbles.
Qed.

Lemma tree_of_limit m : valid_map m → Forall limit (subtrees (tree_of m)).
Proof. intros Hm. apply limit_subtrees; [apply tree_of_canon|by apply tree_of_bounded]. Qed.

Lemma valid_map_put m k v :
  valid_map m → valid_key k = true → valid_value v = true → valid_map (<[k := v]> m).
Proof. intros. by apply map_Forall_insert_2. Qed.

Lemma valid_map_delete m k : valid_map m → valid_map (delete k m).
Proof. apply map_Forall_delete. Qed.
