(* ===== verification/MptFind.v ===== *)
(** * Enumeration of the trie

    [find_visit] seeks the subtree of a prefix and walks it in key order,
    skipping the keys up to [from] and stopping when the visitor says so.  Here
    the walk is related to the sorted list of the entries of the tree. *)
From S2P Require Import Prelude Primitives Order Io MptNode MptNodeFacts MptCache MptTrie MptSpec.
From S2P Require Import MptCacheFacts MptCommitFacts MptRefine MptModes MptMap.
Import NodeType Node.

Implicit Types t : mpt.

(** ** Entries of a tree *)

Abbreviation entry := (bytes * bytes)%type.

(** Entries below a path. *)
Definition under (p : bytes) (es : list entry) : list entry := prod_map (p ++.) id <$> es.

(** The children of a branch other than its value, from index [i] on. *)
Fixpoint child_entries (i : nat) (ess : list (list entry)) : list (list entry) :=
  match ess with
  | [] => []
  | es :: ess => under [as_u8 (N.of_nat i)] es :: child_entries (S i) ess
  end.

(** Entries in key order: the value of a branch comes before its children. *)
Fixpoint mentries (t : mpt) : list entry :=
  match t with
  | TEmpty => []
  | TLeaf v => [([], v)]
  | TExt k t => under k (mentries t)
  | TBranch cs =>
      let ess := mentries <$> cs in
      default [] (ess !! BRANCH_VALUE_INDEX) ++
      concat (child_entries 0 (take BRANCH_VALUE_INDEX ess))
  end.

Fixpoint mheight (t : mpt) : nat :=
  match t with
  | TEmpty | TLeaf _ => 1
  | TExt _ t => S (mheight t)
  | TBranch cs => S (max_list (mheight <$> cs))
  end.

(** The subtree of a prefix and the path it starts at. *)
Fixpoint mseek (t : mpt) (p : bytes) : bytes * option mpt :=
  match t with
  | TEmpty => ([], None)
  | TLeaf v => ([], match p with [] => Some (TLeaf v) | _ => None end)
  | TExt k t =>
      match p with
      | [] => (k, Some t)
      | _ =>
          if starts_with p k then
            let '(s, st) := mseek t (drop (length k) p) in (k ++ s, st)
          else if starts_with k p then (k, Some t)
          else ([], None)
      end
  | TBranch cs =>
      match p with
      | [] => ([], Some (TBranch cs))
      | b :: r =>
          match (mseek <$> cs) !! nibble_index b with
          | Some f =>
              match f r with
              | ([], None) => ([], None)
              | (s, st) => (b :: s, st)
              end
          | None => ([], None)
          end
      end
  end.

Lemma under_nil es : under [] es = es.
Proof. unfold under. rewrite <-(list_fmap_id es) at 2. apply list_fmap_ext. by intros ? [] _. Qed.
Lemma under_under p q es : under p (under q es) = under (p ++ q) es.
Proof.
  unfold under. rewrite <-list_fmap_compose. apply list_fmap_ext. intros ? [] _. cbn.
  by rewrite (assoc_L (++)).
Qed.
Lemma under_app p es es' : under p (es ++ es') = under p es ++ under p es'.
Proof. apply fmap_app. Qed.
Lemma elem_of_under p k v es : (k, v) ∈ under p es ↔ ∃ r, k = p ++ r ∧ (r, v) ∈ es.
Proof.
  unfold under. rewrite list_elem_of_fmap. split.
  - intros ([r w] & [= -> ->] & ?). eauto.
  - intros (r & -> & ?). by exists (r, v).
Qed.

Lemma length_child_entries i ess : length (child_entries i ess) = length ess.
Proof. revert i. induction ess; intros i; cbn; [done|]. by f_equal. Qed.

Lemma child_entries_lookup i ess j :
  child_entries i ess !! j = under [as_u8 (N.of_nat (i + j))] <$> ess !! j.
Proof.
  revert i j. induction ess as [|es ess IH]; intros i [|j]; cbn; try done.
  - by rewrite Nat.add_0_r.
  - rewrite IH. do 4 f_equal. lia.
Qed.

Lemma under_concat_children p i ess :
  under p (concat (child_entries i ess)) = concat (under p <$> child_entries i ess).
Proof.
  revert i. induction ess as [|es ess IH]; intros i; [done|].
  cbn [child_entries concat fmap list_fmap]. by rewrite under_app, IH.
Qed.

(** The entries of a branch, child by child. *)
Lemma elem_of_branch cs p v :
  (p, v) ∈ mentries (TBranch cs) ↔
  (∃ c, cs !! BRANCH_VALUE_INDEX = Some c ∧ (p, v) ∈ mentries c) ∨
  (∃ i c r, (i < BRANCH_VALUE_INDEX)%nat ∧ cs !! i = Some c ∧
     p = as_u8 (N.of_nat i) :: r ∧ (r, v) ∈ mentries c).
Proof.
  cbn [mentries]. rewrite elem_of_app, list_lookup_fmap. f_equiv.
  - destruct (cs !! BRANCH_VALUE_INDEX) as [c|]; cbn; [|set_solver]. set_solver.
  - rewrite elem_of_concat. split.
    + intros (es & Hin & [i Hi]%list_elem_of_lookup). rewrite child_entries_lookup in Hi.
      apply fmap_Some in Hi as (es' & Hi & ->). apply lookup_take_Some in Hi as [Hi Hlt].
      apply list_lookup_fmap_Some in Hi as (c & -> & Hc).
      apply elem_of_under in Hin as (r & -> & Hin). by exists i, c, r.
    + intros (i & c & r & Hlt & Hc & -> & Hin). exists (under [as_u8 (N.of_nat i)] (mentries c)).
      split; [by apply elem_of_under; exists r|].
      apply list_elem_of_lookup. exists i. rewrite child_entries_lookup, lookup_take_lt by done.
      by rewrite list_lookup_fmap, Hc.
Qed.

Lemma is_nibble_as_u8 i : (i < BRANCH_VALUE_INDEX)%nat → is_nibble (as_u8 (N.of_nat i)) = true.
Proof. intros Hi. apply Nat.ltb_lt. by rewrite as_u8_index. Qed.

(** The entries are the keys that can be looked up. *)
Lemma mentries_lookup t p v :
  canon t → (p, v) ∈ mentries t ↔ nibbles p ∧ mlookup t p = Some v.
Proof.
  revert p. induction t as [|w|k t IH|cs IH] using mpt_induction; intros p Hc.
  - cbn. set_solver.
  - cbn [mentries mlookup]. rewrite list_elem_of_singleton. split.
    + intros [= -> ->]. split; [constructor|done].
    + intros [_ E]. destruct p; by simplify_eq.
  - apply canon_ext in Hc as (_ & Hk & _ & Hc). cbn [mentries]. rewrite elem_of_under. split.
    + intros (r & -> & [? ?]%IH); [|done]. by rewrite mlookup_ext_app_key, nibbles_app.
    + intros [Hp (r & -> & Hr)%mlookup_ext_Some]. exists r. apply nibbles_app in Hp as [_ ?].
      split; [done|]. by apply IH.
  - assert (Hc' := Hc). apply canon_branch in Hc' as (Hl & _ & Hv & Hcs). rewrite Forall_lookup in IH, Hcs.
    rewrite elem_of_branch, mlookup_branch. split.
    + intros [(c & Hi & [Hp Hr]%(IH _ _ Hi))|(i & c & r & Hlt & Hi & -> & [Hp Hr]%(IH _ _ Hi))];
        [|by eapply Hcs| |by eapply Hcs].
      * rewrite Hi in Hv. cbn in Hv.
        assert (p = []) as -> by (eapply value_child_keys; [done|by eexists]).
        split; [constructor|]. cbn [branch_step fst]. by rewrite Hi.
      * split; [by apply nibbles_cons; split; [apply is_nibble_as_u8|]|].
        cbn [branch_step fst snd]. by rewrite as_u8_index, Hi.
    + intros [Hp E]. apply bind_Some in E as (c & Hi & Hr).
      destruct p as [|b r]; cbn [branch_step fst snd] in *.
      * left. exists c. split; [done|]. by apply (IH _ _ Hi); [eapply Hcs|].
      * right. apply nibbles_cons in Hp as [Hb Hp]. apply Nat.ltb_lt in Hb.
        exists (nibble_index b), c, r. split_and!; [done..| |by apply (IH _ _ Hi); [eapply Hcs|]].
        f_equal. apply nibble_index_inj. by rewrite as_u8_index.
Qed.

(** They are listed in strictly increasing order of keys. *)
Lemma under_sorted p es :
  StronglySorted (lt_by fst) es → StronglySorted (lt_by fst) (under p es).
Proof.
  induction 1 as [|[k v] es _ IH Hall]; [constructor|]. constructor; [done|].
  unfold under. apply Forall_fmap. eapply Forall_impl; [done|]. intros [k' v'] Hl.
  unfold lt_by, bytes_lt in *. cbn in *. by rewrite bytes_cmp_app.
Qed.

Lemma child_entries_sorted i ess :
  (i + length ess ≤ BRANCH_VALUE_INDEX)%nat →
  Forall (StronglySorted (lt_by fst)) ess →
  StronglySorted (lt_by fst) (concat (child_entries i ess)).
Proof.
  intros Hlen Hs. revert i Hlen. induction Hs as [|es ess Hes _ IH]; intros i Hlen; [constructor|].
  cbn [child_entries concat length] in *. apply StronglySorted_app_2; [|by apply under_sorted|apply IH; lia].
  intros [k v] [k' v'] (r & -> & _)%elem_of_under Hin.
  apply elem_of_concat in Hin as (es' & Hin & [j Hj]%list_elem_of_lookup).
  assert (j < length ess)%nat.
  { apply lookup_lt_Some in Hj. by rewrite length_child_entries in Hj. }
  rewrite child_entries_lookup in Hj. apply fmap_Some in Hj as (? & _ & ->).
  apply elem_of_under in Hin as (r' & -> & _).
  apply (bytes_lt_first [] (as_u8 (N.of_nat i)) (as_u8 (N.of_nat (S i + j)))).
  pose proof (as_u8_index i) as E1. pose proof (as_u8_index (S i + j)) as E2.
  unfold nibble_index in E1, E2. lia.
Qed.

Lemma mentries_sorted t : canon t → StronglySorted (lt_by fst) (mentries t).
Proof.
  induction t as [|w|k t IH|cs IH] using mpt_induction; intros Hc.
  - constructor.
  - by repeat constructor.
  - apply canon_ext in Hc as (_ & _ & _ & Hc). by apply under_sorted, IH.
  - apply canon_branch in Hc as (Hl & _ & Hv & Hcs). cbn [mentries]. apply StronglySorted_app, and_comm.
    split; [split|].
    + rewrite list_lookup_fmap. destruct (cs !! BRANCH_VALUE_INDEX) as [c|] eqn:E; [|constructor].
      cbn in *. rewrite Forall_lookup in IH, Hcs. by apply (IH _ _ E), (Hcs _ _ E).
    + apply child_entries_sorted; [rewrite length_take; lia|].
      apply Forall_take, Forall_fmap. rewrite Forall_lookup in IH, Hcs |- *. intros i c Hi.
      by apply (IH _ _ Hi), (Hcs _ _ Hi).
    + intros [k v] [k' v'] Hin Hin'. rewrite list_lookup_fmap in Hin.
      destruct (cs !! BRANCH_VALUE_INDEX) as [c|] eqn:E; [|set_solver]. cbn in Hv, Hin.
      assert (k = []) as ->.
      { destruct c; cbn in *; try done; set_solver. }
      apply elem_of_concat in Hin' as (es & Hin' & [j Hj]%list_elem_of_lookup).
      rewrite child_entries_lookup in Hj. apply fmap_Some in Hj as (? & _ & ->).
      apply elem_of_under in Hin' as (r' & -> & _). done.
Qed.

(** ** Height *)

Lemma max_list_le l b : Forall (λ x, (x ≤ b)%nat) l → (max_list l ≤ b)%nat.
Proof. induction 1; cbn; lia. Qed.
Lemma max_list_elem x l : x ∈ l → (x ≤ max_list l)%nat.
Proof. induction 1; cbn; lia. Qed.

Lemma mheight_child cs i c : cs !! i = Some c → (mheight c < mheight (TBranch cs))%nat.
Proof.
  intros Hi. cbn [mheight]. apply Nat.lt_succ_r, max_list_elem, list_elem_of_fmap_2.
  by eapply list_elem_of_lookup_2.
Qed.

(** No tree is higher than its longest key allows. *)
Lemma mheight_bound t L :
  canon t → (∀ p v, nibbles p → mlookup t p = Some v → (length p ≤ L)%nat) →
  (mheight t ≤ L + 2)%nat.
Proof.
  revert L. induction t as [|w|k t IH|cs IH] using mpt_induction; intros L Hc Hb; cbn [mheight]; [lia..| |].
  - apply canon_ext in Hc as (Hk0 & Hk & Hx & Hc).
    assert (∀ p v, nibbles p → mlookup t p = Some v → (length k + length p ≤ L)%nat) as Hb'.
    { intros p v Hp Hv. rewrite <-length_app. apply (Hb _ v); [by apply nibbles_app|].
      by rewrite mlookup_ext_app_key. }
    destruct (key_exists t Hc) as (p & Hp & [v Hv]); [by destruct t|].
    pose proof (Hb' _ _ Hp Hv). destruct k as [|b k]; [done|]. cbn [length] in *.
    enough (mheight t ≤ (L - S (length k)) + 2)%nat by lia. apply IH; [done|].
    intros q w Hq Hw. specialize (Hb' _ _ Hq Hw). lia.
  - assert (Hc' := Hc). apply canon_branch in Hc' as (Hl & Hne & Hv & Hcs).
    enough (max_list (mheight <$> cs) ≤ L + 1)%nat by lia.
    apply max_list_le, Forall_fmap, Forall_lookup. intros i c Hi. unfold compose.
    rewrite Forall_lookup in IH, Hcs. destruct (tempty c) eqn:Et; [destruct c; cbn; lia || done|].
    destruct (decide (i = BRANCH_VALUE_INDEX)) as [->|Hi16].
    { rewrite Hi in Hv. destruct c; cbn in *; done || lia. }
    assert (∀ p v, nibbles p → mlookup c p = Some v → (S (length p) ≤ L)%nat) as Hb'.
    { intros p v Hp Hvp. destruct (mlookup_child cs i c p Hc Hi Hp) as (Hn & _ & E); [by eexists|].
      rewrite Hvp in E. specialize (Hb _ _ Hn E). unfold child_path in Hb.
      by rewrite bool_decide_false in Hb. }
    destruct (key_exists c (Hcs _ _ Hi) Et) as (p & Hp & [v Hvp]). pose proof (Hb' _ _ Hp Hvp).
    enough (mheight c ≤ (L - 1) + 2)%nat by lia. apply (IH _ _ Hi); [by eapply Hcs|].
    intros q w Hq Hw. specialize (Hb' _ _ Hq Hw). lia.
Qed.

(** ** Seeking *)

Definition prefixed (p : bytes) (es : list entry) : list entry :=
  filter (λ e, starts_with e.1 p = true) es.

(** The entries at a place reached by [mseek]. *)
Definition entries_at (at_ : bytes * option mpt) : list entry :=
  match at_.2 with Some t => under at_.1 (mentries t) | None => [] end.

Lemma prefixed_nil es : prefixed [] es = es.
Proof.
  unfold prefixed. induction es as [|[k v] es IH]; [done|]. rewrite filter_cons_True by (by destruct k).
  by rewrite IH.
Qed.

Lemma prefixed_under_shared p q es : prefixed (p ++ q) (under p es) = under p (prefixed q es).
Proof.
  unfold prefixed, under. induction es as [|[k v] es IH]; [done|]. cbn [fmap list_fmap].
  assert (starts_with (p ++ k) (p ++ q) = starts_with k q) as E.
  { clear. induction p as [|b p IH]; [done|]. cbn. by rewrite bool_decide_true. }
  destruct (starts_with k q) eqn:Ek.
  - rewrite !filter_cons_True by (cbn; congruence). cbn [fmap list_fmap]. by rewrite IH.
  - rewrite !filter_cons_False by (cbn; congruence). done.
Qed.

Lemma prefixed_under_all p q es : starts_with q p = true → prefixed p (under q es) = under q es.
Proof.
  intros Hq. unfold prefixed, under. induction es as [|[k v] es IH]; [done|]. cbn [fmap list_fmap].
  rewrite filter_cons_True, IH; [done|]. cbn. apply starts_with_spec in Hq as [r ->].
  rewrite <-(assoc_L (++)). apply starts_with_app.
Qed.

Lemma prefixed_elem p es k v : (k, v) ∈ prefixed p es ↔ starts_with k p = true ∧ (k, v) ∈ es.
Proof. unfold prefixed. by rewrite list_elem_of_filter. Qed.

Lemma filter_sorted {A} (R : A → A → Prop) (P : A → Prop) `{∀ x, Decision (P x)} l :
  StronglySorted R l → StronglySorted R (filter P l).
Proof.
  induction 1 as [|a l _ IH Ha]; [constructor|]. rewrite filter_cons. case_decide; [|done].
  constructor; [done|]. rewrite Forall_forall in Ha |- *. intros x [_ Hx]%list_elem_of_filter. auto.
Qed.

Lemma mseek_branch cs b r :
  mseek (TBranch cs) (b :: r) =
  match cs !! nibble_index b with
  | Some c =>
      match mseek c r with
      | ([], None) => ([], None)
      | (s, st) => (b :: s, st)
      end
  | None => ([], None)
  end.
Proof. cbn [mseek]. rewrite list_lookup_fmap. by destruct (cs !! nibble_index b). Qed.

Lemma entries_at_cons b sst :
  entries_at match sst with ([], None) => ([], None) | (s, st) => (b :: s, st) end =
  under [b] (entries_at sst).
Proof. destruct sst as [[|x s] [t|]]; unfold entries_at; cbn [fst snd]; by rewrite ?under_under. Qed.

(** Only one child of a branch holds keys that start with a given nibble. *)
Lemma prefixed_branch cs b r c :
  canon (TBranch cs) → is_nibble b = true → cs !! nibble_index b = Some c →
  prefixed (b :: r) (mentries (TBranch cs)) = under [b] (prefixed r (mentries c)).
Proof.
  intros Hc Hb Hi. assert (Hc' := Hc). apply canon_branch in Hc' as (Hl & _ & Hv & Hcs).
  rewrite Forall_lookup in Hcs.
  apply (lt_by_sorted_unique fst).
  - by apply filter_sorted, mentries_sorted.
  - apply under_sorted, filter_sorted, mentries_sorted. by eapply Hcs.
  - intros [k v]. rewrite prefixed_elem, elem_of_under, elem_of_branch. split.
    + intros [Hp [(c' & Hc0 & Hin)|(i & c' & r' & Hlt & Hc0 & -> & Hin)]].
      * rewrite Hc0 in Hv. exfalso. destruct c'; cbn in *; try done; [set_solver|].
        apply list_elem_of_singleton in Hin. by simplify_eq.
      * cbn in Hp. apply andb_true_iff in Hp as [E%bool_decide_eq_true Hp]. subst b.
        rewrite as_u8_index in Hi by done. simplify_eq. exists r'. by rewrite prefixed_elem.
    + intros (r' & -> & [Hp Hin]%prefixed_elem). split; [cbn; by rewrite bool_decide_true|].
      right. apply Nat.ltb_lt in Hb. exists (nibble_index b), c, r'. split_and!; [done..| |done].
      cbn. f_equal. apply nibble_index_inj. by rewrite as_u8_index.
Qed.

Lemma mseek_spec t p :
  canon t → nibbles p →
  prefixed p (mentries t) = entries_at (mseek t p) ∧
  ∀ t', (mseek t p).2 = Some t' → canon t' ∧ (mheight t' ≤ mheight t)%nat.
Proof.
  revert p. induction t as [|w|k t IH|cs IH] using mpt_induction; intros p Hc Hp.
  - by destruct p.
  - destruct p as [|b p]; cbn [mseek snd]; [|split; [|done]; by apply filter_none; intros ? ->%list_elem_of_singleton].
    split; [by rewrite prefixed_nil|]. by intros ? [= <-].
  - assert (Hc' := Hc). apply canon_ext in Hc' as (Hk0 & Hk & _ & Hct). cbn [mseek].
    assert (canon t ∧ (mheight t ≤ mheight (TExt k t))%nat) as Hhere by (cbn; split; [done|lia]).
    destruct p as [|b p]; [split; [by rewrite prefixed_nil|by intros ? [= <-]]|]. cbn [mentries].
    destruct (starts_with (b :: p) k) eqn:E1; [|destruct (starts_with k (b :: p)) eqn:E2].
    + apply starts_with_spec in E1 as [r E1]. rewrite E1 in *. rewrite drop_app_length.
      apply nibbles_app in Hp as [_ Hr]. destruct (IH r Hct Hr) as [IH1 IH2].
      rewrite prefixed_under_shared, IH1. destruct (mseek t r) as [s [t'|]]; unfold entries_at; cbn [fst snd] in *.
      * split; [by rewrite under_under|]. intros ? [= <-]. destruct (IH2 t') as [? ?]; [done|].
        split; [done|]. cbn. lia.
      * done.
    + split; [by apply prefixed_under_all|by intros ? [= <-]].
    + split; [|done]. apply filter_none. intros [k' v] (r & -> & _)%elem_of_under Hs. cbn [fst] in Hs.
      apply starts_with_spec in Hs as [r' E].
      apply app_eq_inv in E as [(z & E & _)|(z & E & _)].
      * rewrite E, starts_with_app in E2. done.
      * rewrite E, starts_with_app in E1. done.
  - assert (Hc' := Hc). apply canon_branch in Hc' as (Hl & _ & _ & Hcs). rewrite Forall_lookup in IH, Hcs.
    destruct p as [|b p]; [split; [by rewrite prefixed_nil, <-(under_nil (mentries (TBranch cs)))|by intros ? [= <-]]|].
    apply nibbles_cons in Hp as [Hb Hp]. pose proof (nibble_index_lt b Hb) as Hlt.
    destruct (lookup_lt_is_Some_2 cs (nibble_index b)) as [c Hi]; [lia|].
    destruct (IH _ _ Hi p (Hcs _ _ Hi) Hp) as [IH1 IH2]. pose proof (mheight_child cs _ c Hi).
    rewrite mseek_branch, Hi, entries_at_cons, (prefixed_branch cs b p c) by done. split; [by rewrite IH1|].
    intros t' Ht'. destruct (IH2 t') as [? ?]; [by destruct (mseek c p) as [[] []]|]. split; [done|lia].
Qed.

(** ** Resuming after a key *)

(** The entries strictly after [from]. *)
Definition after (from : bytes) (es : list entry) : list entry :=
  filter (λ e, bytes_lt from e.1) es.

Lemma after_app from es es' : after from (es ++ es') = after from es ++ after from es'.
Proof. apply filter_app. Qed.

Lemma after_concat from ess : after from (concat ess) = concat (after from <$> ess).
Proof. induction ess as [|es ess IH]; [done|]. cbn [concat fmap list_fmap]. by rewrite after_app, IH. Qed.

Lemma after_none from p es : (∀ s, ¬ bytes_lt from (p ++ s)) → after from (under p es) = [].
Proof. intros Hn. apply filter_none. intros [k v] (r & -> & _)%elem_of_under. apply Hn. Qed.

(** What [offset] says of the path walked so far: it is the part of [from]
    before [offset], or it is already not less than [from]. *)
Definition placed (path from : bytes) (offset : nat) : Prop :=
  (offset < length from)%nat ∧ take offset from = path ∨
  (length from ≤ offset)%nat ∧ bytes_cmp from path ≠ Gt.

Lemma not_gt_app a b s : bytes_cmp a b ≠ Gt → bytes_cmp a (b ++ s) ≠ Gt.
Proof.
  rewrite !bytes_cmp_gt. intros Hn Hlt. apply Hn. destruct (decide (s = [])) as [->|Hs].
  - by rewrite app_nil_r in Hlt.
  - etrans; [by apply bytes_lt_prefix|done].
Qed.

Lemma bytes_lt_no_prefix a b s :
  bytes_lt a b → starts_with b a = false → bytes_lt (a ++ s) b.
Proof.
  unfold bytes_lt. revert b. induction a as [|x a IH]; intros [|y b]; try done. cbn.
  rewrite !cmp_then_Lt. intros [?|[E Hl]] Hs; [by left|]. right. split; [done|]. apply IH; [done|].
  apply N.compare_eq_iff, to_N_inj in E. subst. by rewrite bool_decide_true in Hs.
Qed.

Lemma placed_split (path from : bytes) (offset : nat) :
  (offset < length from)%nat → take offset from = path → from = path ++ drop offset from.
Proof. intros _ <-. by rewrite take_drop. Qed.

(** Going down an extension. *)
Lemma placed_match path from offset k :
  placed path from offset → (offset < length from)%nat → starts_with (drop offset from) k = true →
  placed (path ++ k) from (offset + length k).
Proof.
  intros [[_ Ht]|[? _]] Hlt [r Hr]%starts_with_spec; [|lia].
  pose proof (placed_split _ _ _ Hlt Ht) as E. rewrite Hr in E.
  assert (length path = offset) as Hl by (rewrite <-Ht, length_take; lia).
  destruct r as [|x r].
  - right. rewrite app_nil_r in E. rewrite E, length_app. split; [lia|]. by rewrite bytes_cmp_refl.
  - left. rewrite E, (assoc_L (++)). rewrite !length_app. split; [cbn; lia|].
    rewrite take_app_le by (rewrite length_app; lia). apply take_ge. rewrite length_app. lia.
Qed.

Lemma placed_beyond path from offset k :
  placed path from offset →
  (length from ≤ offset)%nat ∨ bytes_cmp k (drop offset from) = Gt →
  placed (path ++ k) from (length from).
Proof.
  intros Hp Hor. right. split; [done|].
  destruct Hp as [[Hlt Ht]|[_ Hn]]; [|by apply not_gt_app].
  destruct Hor as [?|Hg]; [lia|]. rewrite (placed_split _ _ _ Hlt Ht), bytes_cmp_app.
  rewrite bytes_cmp_antisym, Hg. done.
Qed.

Lemma placed_before path from offset k s :
  placed path from offset → (offset < length from)%nat →
  starts_with (drop offset from) k = false → bytes_cmp k (drop offset from) ≠ Gt →
  ¬ bytes_lt from ((path ++ k) ++ s).
Proof.
  intros [[_ Ht]|[? _]] Hlt Hs Hg; [|lia]. rewrite (placed_split _ _ _ Hlt Ht), <-(assoc_L (++)).
  unfold bytes_lt. rewrite bytes_cmp_app. fold (bytes_lt (drop offset from) (k ++ s)). intros Hbad.
  assert (bytes_lt k (drop offset from)) as Hk.
  { destruct (bytes_cmp k (drop offset from)) eqn:E; [|done..].
    apply bytes_cmp_eq in E. rewrite <-E in Hs. rewrite <-(app_nil_r k) in Hs at 1.
    by rewrite starts_with_app in Hs. }
  apply (irreflexivity bytes_lt (k ++ s)). etrans; [|done]. by apply bytes_lt_no_prefix.
Qed.

(** Going down a branch whose path is still a part of [from]. *)
Lemma placed_value path from offset : placed path from offset → (offset < length from)%nat →
  ¬ bytes_lt from path.
Proof.
  intros [[_ Ht]|[? _]] Hlt Hbad; [|lia]. rewrite (placed_split _ _ _ Hlt Ht) in Hbad.
  apply (irreflexivity bytes_lt path). etrans; [|done]. apply bytes_lt_prefix.
  intros E. apply (f_equal length) in E. rewrite length_drop in E. cbn in E. lia.
Qed.

(** ** Refinement *)

Section refine.
Context `{Crypto} `{MptStoreSnapshot St} {fs dnf dint : bool} `{!TrieCache St fs dnf dint}.
Implicit Types (c : MptCache St) (n : Node.t).

Abbreviation Repr := (repr dnf dint).
Abbreviation Owned := (owned (held fs dnf dint)).
Abbreviation Owns := (Own fs dnf dint).
Abbreviation Memo := (memo_ok dnf dint).
Abbreviation Shape := (shape dnf dint).

(** The seek returns a copy of a node of the tree, at its path. *)
Definition seek_rel t (at_ : bytes * option mpt) (r : bytes * option Node.t) n : Prop :=
  r.1 = at_.1 ∧
  match at_.2 with
  | Some t' => ∃ s rest, r.2 = Some s ∧ Repr t' s ∧ Owned t n ≡ₚ Owned t' s ++ rest
  | None => r.2 = None
  end.

Lemma seek_rel_self t p n : Repr t n → seek_rel t (p, Some t) (p, Some n) n.
Proof. intros Hr. split; [done|]. exists n, []. by rewrite app_nil_r. Qed.

Lemma seek_rel_next k t n ch :
  Shape (TExt k t) n → next n = Some ch → Repr t ch →
  seek_rel (TExt k t) (k, Some t) (k, next n) n.
Proof.
  intros Hs Hch Hr. destruct (ext_child_inv (fs := fs) k t n Hs) as (Hk & ch' & Hch' & _ & Hkids).
  split; [done|]. exists ch, (own_self (held fs dnf dint) (TExt k t) n). split_and!; [done..|].
  rewrite (owned_shape dnf dint _ _ _ Hs), Hkids. simplify_eq. perm.
Qed.

(** The result of a sub-seek, seen from the node above. *)
Lemma seek_rel_up t1 t2 p r n1 n2 rest at_ at' :
  seek_rel t2 at_ r n2 → Owned t1 n1 ≡ₚ Owned t2 n2 ++ rest →
  at'.1 = p ++ at_.1 → at'.2 = at_.2 → seek_rel t1 at' (p ++ r.1, r.2) n1.
Proof.
  intros [E Hrel] Hp E1 E2. unfold seek_rel. rewrite E1, E2. split; [by rewrite <-E|].
  destruct at_ as [? [t'|]]; [|done]. destruct Hrel as (s & rest' & ? & ? & Hp').
  exists s, (rest' ++ rest). split_and!; [done..|]. rewrite Hp, Hp'. perm.
Qed.

Lemma read_rel_bind {A B} t (P : A → Node.t → Prop) (Q : B → Node.t → Prop)
    (m : M (MptCache St * Node.t) MptError A) (g : A → M (MptCache St * Node.t) MptError B) s d q F :
  read_rel t P (m s) d q F →
  (∀ a n c, P a n → ∃ b, g a (c, n) = ((c, n), Ok b) ∧ Q b n) →
  read_rel t Q ((m ≫= g) s) d q F.
Proof.
  intros (c' & n' & a & Hrun & ? & ? & ? & HP) HQ. destruct (HQ a n' c' HP) as (b & Hg & HQb).
  exists c', n', b. rewrite (mbind_ok m _ _ _ _ Hrun). by split_and!.
Qed.

Lemma rel_here {A} t (P : A → Node.t → Prop) a n c q F :
  Memo t n → Shape t n → Owns c q (Owned t n ++ F) → P a n → read_rel t P ((c, n), Ok a) (dirty n) q F.
Proof. intros Hm Hs Hown HP. exists c, n, a. split_and!; [done|by apply repr_shape|done..]. Qed.

Lemma seek_refines t fuel n c q F p :
  Repr t n → canon t → nibbles p → (2 * mdepth t p ≤ fuel)%nat → Owns c q (Owned t n ++ F) →
  read_rel t (seek_rel t (mseek t p)) (seek_node fuel p (c, n)) (dirty n) q F.
Proof.
  revert fuel n c q F p. induction t as [|v|k t IH|ts IH] using mpt_induction;
    intros fuel n c q F p Hr Hcan Hp Hf Hown;
    (eapply (hash_step _ _ (λ fuel, seek_node fuel p) (read_rel _ _)); [|..|exact Hf|exact Hown]; try done;
     [by intros ? [? ?] E; cbn [seek_node]; rewrite (mbind_ok (gets snd) _ _ _ _ eq_refl), E|]);
    clear fuel n c q F Hr Hf Hown; intros fuel n c q F Hm Hs Hf Hown;
    cbn [seek_node]; rewrite (mbind_ok (gets snd) _ _ _ _ eq_refl); cbn [snd];
    rewrite (shape_type dnf dint _ _ Hs).
  - by apply rel_here.
  - apply rel_here; [done..|]. destruct p; [|done]. apply seek_rel_self. by apply repr_shape.
  - destruct (ext_child_inv (fs := fs) k t n Hs) as (Hk & ch & Hch & Hrc & _).
    apply canon_ext in Hcan as (_ & _ & _ & Hcan). rewrite Hk. destruct p as [|b p].
    { apply rel_here; [done..|]. by eapply seek_rel_next. }
    cbn [mseek]. destruct (starts_with (b :: p) k) eqn:E1;
      [|destruct (starts_with k (b :: p)) eqn:E2; apply rel_here; try done; by eapply seek_rel_next].
    eapply read_rel_bind.
    + apply (rel_next (seek_rel t (mseek t (drop (length k) (b :: p))))); [done..|].
      intros ch' F' Hrc' Hown'. apply IH; try done. by apply Forall_drop.
    + intros r n' c' (ch' & rest & Hrel & Hperm). destruct r as [r1 r2]. eexists. split; [done|].
      eapply (seek_rel_up _ _ k (r1, r2)); [done..| |]; by destruct (mseek t _).
  - assert (Hcan' := Hcan). apply canon_branch in Hcan' as (Hl & _ & _ & Hcs).
    destruct p as [|b p].
    { apply rel_here; [done..|]. apply seek_rel_self. by apply repr_shape. }
    rewrite Forall_lookup in IH, Hcs.
    destruct (ts !! nibble_index b) as [t|] eqn:Ht.
    2:{ apply lookup_ge_None in Ht. pose proof (branch_step_lt _ Hp). cbn in *. lia. }
    rewrite mseek_branch, Ht.
    eapply read_rel_bind.
    + apply (rel_child (seek_rel t (mseek t p)) _ ts (nibble_index b) t); [done..|].
      intros ch F' Hrc Hown'. apply (IH _ t Ht); try done; [by eapply Hcs|by apply nibbles_cons in Hp as [_ ?]|].
      pose proof (mdepth_branch ts (b :: p) t Ht) as E. cbn [mdepth] in E. injection E as <-. done.
    + intros [r1 r2] n' c' (ch' & rest & Hrel & Hperm).
      destruct (mseek t p) as [[|x s] [t'|]];
        (assert (Hrel' := Hrel); destruct Hrel' as [E1 E2]; cbn [fst snd] in E1, E2; subst r1;
         try (destruct E2 as (? & ? & -> & _)); try subst r2; eexists; (split; [done|]);
         first [done | by apply (seek_rel_up _ _ [b] _ _ _ _ _ _ Hrel Hperm)]).
Qed.

(** ** The walk *)

Section walk.
Context {V : Type} (visit : TrieEntry → V → V * bool).

(** Visiting a list until told to stop. *)
Fixpoint visit_all (es : list TrieEntry) (v : V) : V * bool :=
  match es with
  | [] => (v, true)
  | e :: es => let '(v, b) := visit e v in if b then visit_all es v else (v, false)
  end.

Definition entry_of (e : entry) : TrieEntry := mkEntry (from_nibbles_chunks e.1) e.2.
Definition selected (from : bytes) (es : list entry) : list TrieEntry := entry_of <$> after from es.

(** Every path is that of a byte string. *)
Definition keyed (es : list entry) : Prop := Forall (λ e, ∃ k, e.1 = to_nibbles k) es.

Lemma visit_all_app es es' v :
  visit_all (es ++ es') v =
  let '(v, b) := visit_all es v in if b then visit_all es' v else (v, false).
Proof.
  revert v. induction es as [|e es IH]; intros v; [done|]. cbn [app visit_all].
  destruct (visit e v) as [v' []]; [apply IH|done].
Qed.

Lemma keyed_from p es : keyed es → ∀ v, (p, v) ∈ es → from_nibbles p = Ok (from_nibbles_chunks p).
Proof.
  intros Hk v Hin. unfold keyed in Hk. rewrite Forall_forall in Hk. destruct (Hk _ Hin) as [k E].
  cbn in E. subst p. pose proof (from_to_nibbles k) as E. unfold from_nibbles in E |- *.
  by destruct (Nat.even _).
Qed.

(** Running [op] visits [es]; what the cache holds is not changed. *)
Definition walks (op : M (MptCache St * V) MptError bool) (es : list TrieEntry) q F : Prop :=
  ∀ c v, Owns c q F →
    ∃ c', op (c, v) = ((c', (visit_all es v).1), Ok (visit_all es v).2) ∧ Owns c' q F.

Lemma walks_perm op es q F F' : F ≡ₚ F' → walks op es q F → walks op es q F'.
Proof.
  intros Hp Hw c v Hown. destruct (Hw c v) as (c' & ? & ?); [by eapply Own_perm|].
  exists c'. split; [done|]. by eapply Own_perm.
Qed.

Lemma walks_ret q F : walks (mret true) [] q F.
Proof. intros c v Hown. by exists c. Qed.

Lemma walks_seq op op' es es' q F :
  walks op es q F → walks op' es' q F →
  walks (b ← op; if b : bool then op' else mret false) (es ++ es') q F.
Proof.
  intros H1 H2 c v Hown. destruct (H1 c v Hown) as (c' & Hrun & Hown'). unfold mbind, M_bind. rewrite Hrun, visit_all_app.
  destruct (visit_all es v) as [v' []]; cbn [fst snd]; [by apply H2|by exists c'].
Qed.

Lemma walks_for body ess i q F :
  (∀ j es, ess !! j = Some es → walks (body (i + j)%nat) es q F) →
  walks (for_index body (length ess) i) (concat ess) q F.
Proof.
  revert i. induction ess as [|es ess IH]; intros i Hb; [apply walks_ret|].
  cbn [length for_index concat]. apply walks_seq.
  - rewrite <-(Nat.add_0_r i). by apply Hb.
  - apply IH. intros j es' Hj. rewrite Nat.add_succ_comm. by apply Hb.
Qed.

Lemma walks_resolve t n q F (op : Node.t → M (MptCache St * V) MptError bool) es :
  is_hash t n →
  (∀ n', Memo t n' → Shape t n' → walks (op n') es q (Owned t n' ++ F)) →
  walks (resolved ← tr_cache (resolve (hash n));
         match resolved with None => fail Storage | Some x => op x end) es q (Owned t n ++ F).
Proof.
  intros Hn Hop c v Hown. rewrite (owned_hash _ t n Hn) in Hown |- *.
  assert (Hn' := Hn). destruct Hn' as (_ & Ht & Hh & Hd).
  destruct (law_resolve c q t F Ht Hown) as (c' & n' & Hrun & Hm & Hs & _ & Hp & Hown').
  assert (tr_cache (resolve (hash n)) (c, v) = ((c', v), Ok (Some n'))) as Hres.
  { unfold tr_cache. rewrite (repr_hash dnf dint t n); [by rewrite Hrun|]. apply repr_unfold. by left. }
  rewrite (mbind_ok _ _ _ _ _ Hres).
  destruct (Hop n' Hm Hs c' v) as (c2 & ? & Hown2); [by eapply Own_perm; [|exact Hown']; rewrite Hp|].
  exists c2. split; [done|]. eapply Own_perm; [|exact Hown2]. by rewrite Hp.
Qed.

Lemma selected_app from es es' : selected from (es ++ es') = selected from es ++ selected from es'.
Proof. unfold selected. by rewrite after_app, fmap_app. Qed.

Lemma selected_concat from ess : selected from (concat ess) = concat (selected from <$> ess).
Proof.
  induction ess as [|es ess IH]; [done|]. cbn [concat fmap list_fmap]. by rewrite selected_app, IH.
Qed.

Lemma selected_none from p es : (∀ s, ¬ bytes_lt from (p ++ s)) → selected from (under p es) = [].
Proof. intros Hn. unfold selected. by rewrite after_none. Qed.

Lemma walk_leaf path v from offset q F :
  keyed [(path, v)] → placed path from offset →
  walks (if (length from <=? offset)%nat && bool_decide (path ≠ from)
         then k ← lift (from_nibbles path); tr_visit visit (mkEntry k v) else mret true)
    (selected from [(path, v)]) q F.
Proof.
  intros Hk Hpl. unfold selected, after.
  destruct (length from <=? offset)%nat eqn:El; cbn [andb].
  - apply Nat.leb_le in El. destruct Hpl as [[? _]|[_ Hn]]; [lia|]. case_bool_decide as Hne.
    + rewrite filter_cons_True.
      2:{ cbn. destruct (bytes_cmp from path) eqn:E; [|done..]. by apply bytes_cmp_eq in E. }
      rewrite (keyed_from path _ Hk v) by left. cbn. intros c s Hown. exists c.
      unfold mbind, M_bind. cbn. unfold entry_of. cbn. by destruct (visit _ s) as [? []].
    + subst from. rewrite filter_cons_False by apply (irreflexivity bytes_lt).
      apply walks_ret.
  - apply Nat.leb_gt in El. rewrite filter_cons_False by (by eapply placed_value).
    apply walks_ret.
Qed.

(** Child [i] of a branch, when [from] continues with [f]. *)
Lemma walk_child_from (below : nat → nat → M (MptCache St * V) MptError bool)
    path from offset f i es q F :
  placed path from offset → from !! offset = Some f → (i < BRANCH_VALUE_INDEX)%nat →
  (∀ o, placed (path ++ [as_u8 (N.of_nat i)]) from o →
     walks (below i o) (selected from (under (path ++ [as_u8 (N.of_nat i)]) es)) q F) →
  walks (match (nibble_index f ?= i)%nat with
         | Lt => below i (length from)
         | Eq => below i (offset + 1)%nat
         | Gt => mret true
         end) (selected from (under (path ++ [as_u8 (N.of_nat i)]) es)) q F.
Proof.
  intros Hpl Hf Hi Hb. pose proof (lookup_lt_Some _ _ _ Hf) as Hlt.
  pose proof (drop_S _ _ _ Hf) as Hd. pose proof (as_u8_index i Hi) as Hidx.
  destruct (Nat.compare_spec (nibble_index f) i) as [E|Hl|Hg].
  - apply Hb. apply (placed_match _ _ _ [as_u8 (N.of_nat i)]); [done..|]. rewrite Hd. cbn.
    rewrite bool_decide_true; [done|]. apply nibble_index_inj. congruence.
  - apply Hb. eapply placed_beyond; [done|]. right. rewrite Hd. cbn. unfold nibble_index in *.
    by rewrite (proj2 (N.compare_gt_iff _ _)) by lia.
  - rewrite selected_none; [apply walks_ret|]. intros s. eapply placed_before; [done..| |]; rewrite Hd; cbn.
    + rewrite bool_decide_false; [done|]. intros ->. lia.
    + unfold nibble_index in *. by rewrite (proj2 (N.compare_lt_iff _ _)) by lia.
Qed.

(** The children of a branch, one walk after the other. *)
Lemma walk_children body path from cs q F :
  length cs = BRANCH_CHILD_COUNT →
  (∀ i (x : mpt), (i < BRANCH_VALUE_INDEX)%nat → cs !! i = Some x →
     walks (body i) (selected from (under (path ++ [as_u8 (N.of_nat i)]) (mentries x))) q F) →
  walks (for_index body (BRANCH_CHILD_COUNT - 1) 0)
    (selected from (under path (concat (child_entries 0 (take BRANCH_VALUE_INDEX (mentries <$> cs)))))) q F.
Proof.
  intros Hl Hb. rewrite under_concat_children, selected_concat.
  set (ess := selected from <$> _).
  assert (length ess = BRANCH_CHILD_COUNT - 1)%nat as <-.
  { unfold ess. rewrite !length_fmap, length_child_entries, length_take, length_fmap, Hl. done. }
  apply walks_for. intros j es Hj. unfold ess in Hj.
  apply list_lookup_fmap_Some in Hj as (es1 & -> & Hj).
  apply list_lookup_fmap_Some in Hj as (es2 & -> & Hj). rewrite child_entries_lookup in Hj.
  apply fmap_Some in Hj as (es3 & Hj & ->). apply lookup_take_Some in Hj as [Hj Hlt].
  apply list_lookup_fmap_Some in Hj as (c & -> & Hc). rewrite under_under. by apply Hb.
Qed.

Lemma keyed_app es es' : keyed (es ++ es') ↔ keyed es ∧ keyed es'.
Proof. apply Forall_app. Qed.

Lemma keyed_child path cs i (c : mpt) :
  keyed (under path (mentries (TBranch cs))) → (i < BRANCH_VALUE_INDEX)%nat → cs !! i = Some c →
  keyed (under (path ++ [as_u8 (N.of_nat i)]) (mentries c)).
Proof.
  intros Hk Hi Hc. apply Forall_forall. intros [k v] (r & -> & Hin)%elem_of_under.
  unfold keyed in Hk. rewrite Forall_forall in Hk. apply (Hk (_, v)). apply elem_of_under.
  eexists. rewrite <-(assoc_L (++)). split; [done|]. apply elem_of_branch. right. by exists i, c, r.
Qed.

Lemma keyed_value path cs (c : mpt) :
  keyed (under path (mentries (TBranch cs))) → cs !! BRANCH_VALUE_INDEX = Some c →
  keyed (under path (mentries c)).
Proof.
  intros Hk Hc. cbn [mentries] in Hk. rewrite under_app, keyed_app, list_lookup_fmap, Hc in Hk. apply Hk.
Qed.

Lemma walk_branch ts n path from offset q F
    (rec : Node.t → bytes → nat → M (MptCache St * V) MptError bool) :
  canon (TBranch ts) → Shape (TBranch ts) n → placed path from offset →
  (∀ i t ch p o F', ts !! i = Some t → Repr t ch → placed p from o → keyed (under p (mentries t)) →
     walks (rec ch p o) (selected from (under p (mentries t))) q (Owned t ch ++ F')) →
  keyed (under path (mentries (TBranch ts))) →
  let below (i o : nat) :=
    match get_child i n with
    | None => fail Panic
    | Some ch => rec ch (path ++ [as_u8 (N.of_nat i)]) o
    end in
  walks
    (match from !! offset with
     | Some f =>
         for_index (λ i, match (nibble_index f ?= i)%nat with
                         | Lt => below i (length from)
                         | Eq => below i (offset + 1)%nat
                         | Gt => mret true
                         end) (BRANCH_CHILD_COUNT - 1) 0
     | None =>
         match get_child BRANCH_VALUE_INDEX n with
         | None => fail Panic
         | Some vch =>
             b ← rec vch path offset;
             if b : bool then for_index (λ i, below i offset) (BRANCH_CHILD_COUNT - 1) 0
             else mret false
         end
     end) (selected from (under path (mentries (TBranch ts)))) q (Owned (TBranch ts) n ++ F).
Proof.
  intros Hcan Hs Hpl Hrec Hk. cbv zeta. assert (Hcan' := Hcan). apply canon_branch in Hcan' as (Hl & _ & Hv & _).
  assert (∀ i t, ts !! i = Some t → ∃ ch, get_child i n = Some ch ∧
    ∀ p o, placed p from o → keyed (under p (mentries t)) →
      walks (rec ch p o) (selected from (under p (mentries t))) q (Owned (TBranch ts) n ++ F)) as Hch.
  { intros i t Ht. destruct (branch_child ts n i t Hs Ht) as (ch & Hch & Hrc). exists ch.
    split; [done|]. intros p o Hp Hkp. destruct (branch_update ts n i t ch Hs Ht Hch) as (rest & E1 & _).
    eapply walks_perm; [|eapply (Hrec i t ch p o (rest ++ own_self (held fs dnf dint) (TBranch ts) n ++ F)); done].
    rewrite (owned_shape dnf dint _ _ _ Hs), E1. perm. }
  cbn [mentries]. rewrite under_app, selected_app. destruct (from !! offset) as [f|] eqn:Hf.
  - assert (offset < length from)%nat as Hlt by (by eapply lookup_lt_Some).
    assert (selected from (under path (default [] ((mentries <$> ts) !! BRANCH_VALUE_INDEX))) = []) as ->.
    { rewrite list_lookup_fmap. destruct (ts !! BRANCH_VALUE_INDEX) as [c|]; [|done]. cbn in *.
      destruct c; try done. unfold selected, after. cbn [mentries under fmap list_fmap].
      rewrite filter_cons_False; [done|]. cbn. rewrite app_nil_r. by eapply placed_value. }
    apply walk_children; [done|]. intros i c Hi Hc.
    apply (walk_child_from (λ i o, match get_child i n with None => fail Panic
                            | Some ch => rec ch (path ++ [as_u8 (N.of_nat i)]) o end)); [done..|].
    intros o Ho. destruct (Hch i c Hc) as (ch & -> & Hw). apply Hw; [done|]. by eapply keyed_child.
  - destruct Hpl as [[Hlt _]|[Hge Hn]]; [apply lookup_ge_None in Hf; lia|].
    destruct (lookup_lt_is_Some_2 ts BRANCH_VALUE_INDEX) as [vt Hvt]; [rewrite Hl; apply value_index_lt|].
    destruct (Hch _ _ Hvt) as (vch & -> & Hvw). rewrite list_lookup_fmap, Hvt. cbn [fmap option_fmap option_map default].
    apply walks_seq; [apply Hvw; [by right|by eapply keyed_value]|].
    apply walk_children; [done|]. intros i c Hi Hc. destruct (Hch i c Hc) as (ch & -> & Hw).
    apply Hw; [right; split; [done|by apply not_gt_app]|by eapply keyed_child].
Qed.

(** A hash node is walked as the node it stands for. *)
Lemma walk_hash t from q :
  (∀ fuel n path offset F, Memo t n → Shape t n → canon t → (2 * mheight t ≤ S fuel)%nat →
     placed path from offset → keyed (under path (mentries t)) →
     walks (traverse visit fuel (Some n) path from offset)
       (selected from (under path (mentries t))) q (Owned t n ++ F)) →
  ∀ fuel n path offset F, Repr t n → canon t → (2 * mheight t ≤ fuel)%nat → placed path from offset →
    keyed (under path (mentries t)) →
    walks (traverse visit fuel (Some n) path from offset)
      (selected from (under path (mentries t))) q (Owned t n ++ F).
Proof.
  intros Hsh fuel n path offset F [Hh|[Hm Hs]]%repr_unfold Hcan Hf Hpl Hk;
    [|apply Hsh; try done; lia].
  destruct fuel as [|fuel]; [destruct t; cbn in Hf; lia|]. cbn [traverse]. destruct Hh as (Ht & ?).
  rewrite Ht. apply (walks_resolve t); [by split|]. intros n' Hm Hs. by apply Hsh.
Qed.

Lemma traverse_refines t fuel n path from offset q F :
  Repr t n → canon t → (2 * mheight t ≤ fuel)%nat → placed path from offset →
  keyed (under path (mentries t)) →
  walks (traverse visit fuel (Some n) path from offset) (selected from (under path (mentries t))) q
    (Owned t n ++ F).
Proof.
  revert fuel n path offset F.
  induction t as [|v|k t IH|ts IH] using mpt_induction; apply walk_hash;
    intros fuel n path offset F Hm Hs Hcan Hf Hpl Hk;
    (destruct fuel as [|fuel]; [cbn in Hf; lia|]); cbn [traverse]; rewrite (shape_type dnf dint _ _ Hs).
  - apply walks_ret.
  - assert (value n = v) as -> by apply Hs. cbn [mentries] in *.
    change (under path [([], v)]) with [(path ++ [], v)] in *. rewrite app_nil_r in *. by apply walk_leaf.
  - destruct (ext_child_inv (fs := fs) k t n Hs) as (-> & ch & -> & Hrc & Hkids).
    apply canon_ext in Hcan as (_ & _ & _ & Hcan). cbn [mentries mheight] in *. rewrite under_under in *.
    assert (∀ o, placed (path ++ k) from o → walks (traverse visit fuel (Some ch) (path ++ k) from o)
      (selected from (under (path ++ k) (mentries t))) q (Owned (TExt k t) n ++ F)) as Hrec.
    { intros o Ho. eapply walks_perm; [|apply (IH fuel ch (path ++ k) o (own_self (held fs dnf dint) (TExt k t) n ++ F));
        try done; lia]. rewrite (owned_shape dnf dint _ _ _ Hs), Hkids. perm. }
    destruct (offset <? length from)%nat eqn:El; cbn [andb].
    + apply Nat.ltb_lt in El. destruct (starts_with (drop offset from) k) eqn:E1; [by apply Hrec, placed_match|].
      rewrite (proj2 (Nat.leb_gt _ _)) by lia. cbn [orb]. case_bool_decide as E2.
      * apply Hrec. eapply placed_beyond; [done|by right].
      * rewrite selected_none; [apply walks_ret|]. intros s. by eapply placed_before.
    + apply Nat.ltb_ge in El. rewrite (proj2 (Nat.leb_le _ _)) by lia. cbn [orb]. apply Hrec.
      eapply placed_beyond; [done|by left].
  - apply (walk_branch ts n path from offset q F (λ ch p o, traverse visit fuel (Some ch) p from o)); [done..| |done].
    intros i t ch p o F' Ht Hrc Ho Hkp. rewrite Forall_lookup in IH. apply (IH i t Ht); try done.
    + apply canon_branch in Hcan as (_ & _ & _ & Hcs). rewrite Forall_lookup in Hcs. by eapply Hcs.
    + pose proof (mheight_child ts i t Ht). lia.
Qed.
End walk.
End refine.

(** ** Keys as byte strings *)

Lemma byte_cmp_nibbles a b :
  (Byte.to_N a ?= Byte.to_N b)%N =
  cmp_then (Byte.to_N (as_u8 (N.shiftr (Byte.to_N a) 4)) ?= Byte.to_N (as_u8 (N.shiftr (Byte.to_N b) 4)))%N
    (Byte.to_N (as_u8 (N.land (Byte.to_N a) 15)) ?= Byte.to_N (as_u8 (N.land (Byte.to_N b) 15)))%N.
Proof.
  assert (∀ x : byte, Byte.to_N (as_u8 (N.shiftr (Byte.to_N x) 4)) = (Byte.to_N x / 16)%N ∧
    Byte.to_N (as_u8 (N.land (Byte.to_N x) 15)) = (Byte.to_N x mod 16)%N) as Hx
    by (by intros []; vm_compute).
  destruct (Hx a) as [-> ->], (Hx b) as [-> ->].
  pose proof (N.div_mod (Byte.to_N a) 16 ltac:(done)). pose proof (N.div_mod (Byte.to_N b) 16 ltac:(done)).
  pose proof (N.mod_lt (Byte.to_N a) 16 ltac:(done)). pose proof (N.mod_lt (Byte.to_N b) 16 ltac:(done)).
  generalize dependent (Byte.to_N a / 16)%N. generalize dependent (Byte.to_N b / 16)%N.
  generalize dependent (Byte.to_N a mod 16)%N. generalize dependent (Byte.to_N b mod 16)%N.
  intros lb ? la ? hb ? ha ?.
  destruct (N.compare_spec ha hb); cbn [cmp_then].
  - destruct (N.compare_spec la lb);
      [apply N.compare_eq_iff|apply N.compare_lt_iff|apply N.compare_gt_iff]; lia.
  - apply N.compare_lt_iff. lia.
  - apply N.compare_gt_iff. lia.
Qed.

(** Nibble paths are ordered as their keys. *)
Lemma bytes_cmp_to_nibbles a b : bytes_cmp (to_nibbles a) (to_nibbles b) = bytes_cmp a b.
Proof.
  revert b. induction a as [|x a IH]; intros [|y b]; try done. rewrite !nibble_pair_cons. cbn [bytes_cmp].
  by rewrite IH, (byte_cmp_nibbles x y), cmp_then_assoc.
Qed.

Lemma to_nibbles_app a b : to_nibbles (a ++ b) = to_nibbles a ++ to_nibbles b.
Proof. unfold to_nibbles. by rewrite fmap_app, concat_app. Qed.

Lemma starts_with_to_nibbles a b : starts_with (to_nibbles a) (to_nibbles b) = starts_with a b.
Proof.
  revert b. induction a as [|x a IH]; intros [|y b]; try done. rewrite !nibble_pair_cons. cbn [starts_with].
  rewrite IH, andb_assoc. f_equal. rewrite <-bool_decide_and. apply bool_decide_ext. split; [|by intros ->].
  intros [E1 E2]. destruct (nibbles_of_byte x) as (_ & _ & <-), (nibbles_of_byte y) as (_ & _ & <-). congruence.
Qed.

Lemma chunks_to_nibbles k : from_nibbles_chunks (to_nibbles k) = k.
Proof.
  pose proof (from_to_nibbles k) as E. unfold from_nibbles in E. destruct (Nat.even _); congruence.
Qed.

(** ** Enumeration of a map *)

Section map_find.
Implicit Types m : kvmap.

(** The entries of a map in key order. *)
Definition sorted_entries m : list (bytes * bytes) := sort_by_key fst (map_to_list m).

Definition valid_prefix (p : bytes) : bool := (2 * length p <=? MAX_KEY_LENGTH)%nat.

(** What an enumeration visits: keys that start with [pre], strictly after
    [from], in increasing order. *)
Definition found (pre : bytes) (from : option bytes) m : list TrieEntry :=
  (λ kv, mkEntry kv.1 kv.2) <$>
  filter (λ kv, starts_with kv.1 pre = true ∧ bytes_lt (default [] from) kv.1) (sorted_entries m).

Definition find_spec {V} (visit : TrieEntry → V → V * bool) (pre : bytes) (from : option bytes)
    (v : V) m : Result MptError V :=
  if match from with Some f => starts_with f pre | None => true end then
    if valid_prefix pre && match from with Some f => valid_prefix f | None => true end
    then Ok (visit_all visit (found pre from m) v).1
    else Err Key
  else Err InvalidOperation.

Definition find_limited_spec (pre : bytes) (from : option bytes) (limit : N) m
    : Result MptError (list TrieEntry) :=
  if (limit =? 0)%N then Ok [] else find_spec (push_limited limit) pre from [] m.

Lemma sorted_entries_elem m k v : (k, v) ∈ sorted_entries m ↔ m !! k = Some v.
Proof. unfold sorted_entries. rewrite sort_by_key_perm. apply elem_of_map_to_list. Qed.

Lemma sorted_entries_sorted m : StronglySorted (lt_by fst) (sorted_entries m).
Proof. apply sort_by_key_sorted, NoDup_fst_map_to_list. Qed.

(** The tree lists the map's entries. *)
Lemma tree_entries m :
  mentries (tree_of m) = (λ kv, (to_nibbles kv.1, kv.2)) <$> sorted_entries m.
Proof.
  apply (lt_by_sorted_unique fst).
  - apply mentries_sorted, tree_of_canon.
  - induction (sorted_entries_sorted m) as [|[k v] l _ IH Ha]; [constructor|]. constructor; [done|].
    apply Forall_fmap. eapply Forall_impl; [done|]. intros [k' v'] Hl.
    unfold lt_by, bytes_lt, compose in *. cbn [fst] in *. by rewrite bytes_cmp_to_nibbles.
  - intros [p v]. rewrite mentries_lookup by apply tree_of_canon.
    destruct (tree_of_stands m) as [_ Hst]. rewrite list_elem_of_fmap. split.
    + intros [Hp (k & -> & Hk)%Hst]; [|done]. exists (k, v). by rewrite sorted_entries_elem.
    + intros ([k v'] & [= -> ->] & Hk%sorted_entries_elem). split; [apply nibbles_to_nibbles|].
      by rewrite tree_of_lookup.
Qed.

Lemma fmap_filter {A B} (f : A → B) (P : B → Prop) (Q : A → Prop)
    `{∀ x, Decision (P x), ∀ x, Decision (Q x)} (l : list A) :
  (∀ x, P (f x) ↔ Q x) → filter P (f <$> l) = f <$> filter Q l.
Proof.
  intros Hpq. induction l as [|x l IH]; [done|]. cbn [fmap list_fmap]. rewrite !filter_cons.
  destruct (decide (Q x)) as [Hq|Hq].
  - rewrite decide_True by (by apply Hpq). cbn [fmap list_fmap]. by rewrite <-IH.
  - rewrite decide_False by (by rewrite Hpq). done.
Qed.

Lemma found_tree pre from m :
  selected (to_nibbles (default [] from)) (prefixed (to_nibbles pre) (mentries (tree_of m))) = found pre from m.
Proof.
  unfold selected, after, prefixed, found. rewrite tree_entries.
  rewrite (fmap_filter _ _ (λ kv, starts_with kv.1 pre = true))
    by (intros [k v]; cbn [fst]; by rewrite starts_with_to_nibbles).
  rewrite (fmap_filter _ _ (λ kv, bytes_lt (default [] from) kv.1))
    by (intros [k v]; unfold bytes_lt; cbn [fst]; by rewrite bytes_cmp_to_nibbles).
  rewrite list_filter_filter, <-list_fmap_compose.
  rewrite (list_filter_iff _ (λ kv, starts_with kv.1 pre = true ∧ bytes_lt (default [] from) kv.1))
    by (intros [k v]; naive_solver).
  apply list_fmap_ext. intros ? [k v] _. unfold entry_of, compose. cbn [fst snd]. by rewrite chunks_to_nibbles.
Qed.

Lemma found_elem pre from m k v :
  mkEntry k v ∈ found pre from m ↔
  m !! k = Some v ∧ starts_with k pre = true ∧ bytes_lt (default [] from) k.
Proof.
  unfold found. rewrite list_elem_of_fmap. split.
  - intros ([k' v'] & [= -> ->] & [Hp Hin%sorted_entries_elem]%list_elem_of_filter). done.
  - intros (Hin & Hp). exists (k, v). split; [done|]. apply list_elem_of_filter.
    by rewrite sorted_entries_elem.
Qed.

Lemma found_sorted pre from m : StronglySorted (lt_by e_key) (found pre from m).
Proof.
  unfold found. induction (filter_sorted (lt_by fst)
    (λ kv : bytes * bytes, starts_with kv.1 pre = true ∧ bytes_lt (default [] from) kv.1) _ (sorted_entries_sorted m))
    as [|[k v] l _ IH Ha]; [constructor|]. constructor; [done|].
  apply Forall_fmap. eapply Forall_impl; [done|]. by intros [k' v'] Hl.
Qed.

(** Resuming at an entry gives what followed it. *)
Lemma found_resume pre from m i e :
  found pre from m !! i = Some e → found pre (Some (e_key e)) m = drop (S i) (found pre from m).
Proof.
  intros Hi. pose proof (found_sorted pre from m) as Hs.
  apply take_drop_middle in Hi as Hsplit. rewrite <-Hsplit in Hs.
  apply StronglySorted_app in Hs as (Hbefore & _ & Hs). apply StronglySorted_inv in Hs as [Hs Hafter].
  apply (lt_by_sorted_unique e_key); [apply found_sorted|done|].
  intros [k v]. destruct e as [k0 v0]. rewrite found_elem. cbn [default e_key] in *.
  assert (mkEntry k0 v0 ∈ found pre from m) as (_ & _ & Hk0)%found_elem by (by eapply list_elem_of_lookup_2).
  split.
  - intros (Hm & Hp & Hlt). assert (mkEntry k v ∈ found pre from m) as Hin.
    { apply found_elem. split_and!; [done..|]. by etrans. }
    rewrite <-Hsplit in Hin. apply elem_of_app in Hin as [Hin|Hin].
    + specialize (Hbefore _ (mkEntry k0 v0) Hin ltac:(left)). destruct (irreflexivity bytes_lt k). by etrans.
    + apply elem_of_cons in Hin as [[= -> ->]|Hin]; [by destruct (irreflexivity bytes_lt k0)|done].
  - intros Hin. rewrite Forall_forall in Hafter. specialize (Hafter _ Hin).
    assert (mkEntry k v ∈ found pre from m) as (? & ? & _)%found_elem; [|done].
    rewrite <-Hsplit. apply elem_of_app. right. by right.
Qed.

Lemma visit_all_push limit es rs :
  (len rs < limit)%N →
  (visit_all (push_limited limit) es rs).1 = rs ++ take (N.to_nat limit - length rs) es.
Proof.
  revert rs. induction es as [|e es IH]; intros rs Hl; cbn [visit_all].
  { by rewrite take_nil, app_nil_r. }
  unfold push_limited at 1. unfold len in *. rewrite length_app. cbn [length].
  destruct (N.to_nat limit - length rs)%nat as [|j] eqn:Ej; [lia|]. cbn [take].
  destruct (_ <? limit)%N eqn:E.
  - apply N.ltb_lt in E. rewrite IH by (rewrite length_app; cbn; lia).
    rewrite length_app, <-(assoc_L (++)). cbn [length app]. do 3 f_equal. lia.
  - apply N.ltb_ge in E. cbn [fst]. by replace j with 0%nat by lia.
Qed.

(** A bounded enumeration is the beginning of the full one. *)
Lemma find_limited_take pre from limit m :
  (0 < limit)%N →
  find_limited_spec pre from limit m =
  if match from with Some f => starts_with f pre | None => true end then
    if valid_prefix pre && match from with Some f => valid_prefix f | None => true end
    then Ok (take (N.to_nat limit) (found pre from m)) else Err Key
  else Err InvalidOperation.
Proof.
  intros Hl. unfold find_limited_spec, find_spec. rewrite (proj2 (N.eqb_neq _ _)) by lia.
  rewrite visit_all_push by done. cbn [app length]. by rewrite Nat.sub_0_r.
Qed.

Lemma find_paths_spec pre from :
  find_paths pre from =
  if match from with Some f => starts_with f pre | None => true end then
    if valid_prefix pre && match from with Some f => valid_prefix f | None => true end
    then Ok (to_nibbles pre, to_nibbles <$> from) else Err Key
  else Err InvalidOperation.
Proof.
  assert (∀ p, ensure_prefix p = if valid_prefix p then Ok (to_nibbles p) else Err Key) as Hens.
  { intros p. unfold ensure_prefix, valid_prefix. cbv zeta. rewrite length_to_nibbles, Nat.leb_antisym.
    by destruct (_ <? _)%nat. }
  unfold find_paths. rewrite Hens. destruct from as [f|]; [|by destruct (valid_prefix pre)].
  rewrite Hens. destruct (starts_with f pre), (valid_prefix pre), (valid_prefix f); done.
Qed.

(** The start offset puts the walk in place, or there is nothing after [from]. *)
Lemma seek_offset_cases r f L :
  match seek_offset r f L with
  | None => ∀ s, bytes_lt (r ++ s) f
  | Some o => o = L ∧ bytes_lt f r ∨ o = 0%nat ∧ ∃ x, f = r ++ x ∨ r = f ++ x
  end.
Proof.
  revert f. induction r as [|x r IH]; intros [|y f]; cbn [seek_offset].
  - right. split; [done|]. exists []. by left.
  - right. split; [done|]. exists (y :: f). by left.
  - right. split; [done|]. exists (x :: r). by right.
  - destruct (N.compare_spec (Byte.to_N x) (Byte.to_N y)) as [E%to_N_inj|Hl|Hg].
    + subst y. specialize (IH f).
      assert (∀ a b, bytes_lt (x :: a) (x :: b) ↔ bytes_lt a b) as Hcons
        by (intros a b; unfold bytes_lt; by rewrite <-(bytes_cmp_app [x] a b)).
      destruct (seek_offset r f L) as [o|]; [|intros s; apply Hcons, IH].
      destruct IH as [[-> Hl]|[-> [z [->| ->]]]].
      * left. by rewrite Hcons.
      * right. split; [done|]. exists z. by left.
      * right. split; [done|]. exists z. by right.
    + intros s. by apply (bytes_lt_first [] x y (r ++ s) f).
    + left. split; [done|]. by apply (bytes_lt_first [] y x f r).
Qed.

Lemma seek_offset_placed r f :
  match seek_offset r f (length f) with
  | None => ∀ s, ¬ bytes_lt f (r ++ s)
  | Some o => placed r f (if bool_decide (o = 0%nat) then Nat.min (length r) (length f) else o)
  end.
Proof.
  pose proof (seek_offset_cases r f (length f)) as Hc. destruct (seek_offset r f (length f)) as [o|].
  2:{ intros s Hl. apply (irreflexivity bytes_lt f). etrans; [done|]. apply Hc. }
  assert (bytes_lt f r → bytes_cmp f r ≠ Gt) as Hlt by (unfold bytes_lt; congruence).
  destruct Hc as [[-> Hl]|[-> [z [->| ->]]]].
  - case_bool_decide as E; [destruct f; [|done]; right; split; [lia|auto]|]. right. auto.
  - rewrite bool_decide_true by done. rewrite length_app, Nat.min_l by lia. destruct z as [|b z].
    + rewrite app_nil_r. right. cbn. split; [lia|]. by rewrite bytes_cmp_refl.
    + left. rewrite length_app, take_app_length. split; [cbn; lia|done].
  - rewrite bool_decide_true by done. right. rewrite length_app. split; [lia|].
    apply not_gt_app. by rewrite bytes_cmp_refl.
Qed.
End map_find.
