(* ===== verification/MptOps.v ===== *)
(** * The trie implements a key-value map

    The trie object in any mode simulates a finite map from keys to values:
    reads and writes have the map's results, errors included, and the root
    hash is the one prescribed for the map ([root_of], MptMap.v). *)
From S2P Require Import Prelude Primitives Io MptNode MptNodeFacts MptCache MptTrie MptSpec.
From S2P Require Import MptCacheFacts MptCommitFacts MptRefine MptModes MptMap MptFind.
Import NodeType Node.

Section fuel.
Lemma path_fuel_enough t p : canon t → nibbles p → (2 * mdepth t p ≤ path_fuel p)%nat.
Proof. intros Hc Hp. pose proof (mdepth_bound t p Hc Hp). unfold path_fuel. lia. Qed.

Lemma ensure_lookup_key_spec k :
  ensure_lookup_key k = if valid_key k then Ok (to_nibbles k) else Err Key.
Proof.
  unfold ensure_lookup_key, validate_lookup_path, valid_key. cbv zeta.
  rewrite length_to_nibbles, Nat.leb_antisym.
  destruct k as [|b k]; [done|]. rewrite nibble_pair_cons.
  by destruct (MAX_KEY_LENGTH <? 2 * length (b :: k))%nat.
Qed.

Lemma ensure_value_length_spec v :
  ensure_value_length v = if valid_value v then Ok tt else Err InvalidOperation.
Proof. unfold ensure_value_length, valid_value. rewrite N.leb_antisym. by destruct (_ <? _)%N. Qed.
End fuel.

(** ** Operations on the map *)

Section map_spec.
Implicit Types m : kvmap.

Definition get_spec (k : bytes) m : Result MptError (option bytes) :=
  if valid_key k then Ok (m !! k) else Err Key.
Definition put_spec (k v : bytes) m : kvmap * Result MptError unit :=
  if valid_key k then
    if valid_value v then (<[k := v]> m, Ok tt) else (m, Err InvalidOperation)
  else (m, Err Key).
Definition delete_spec (k : bytes) m : kvmap * Result MptError bool :=
  if valid_key k then (delete k m, Ok (bool_decide (is_Some (m !! k)))) else (m, Err Key).
End map_spec.

(** ** Simulation *)

Section sim.
Context `{Crypto} `{MptStoreSnapshot St} {fs dnf dint : bool} `{!TrieCache St fs dnf dint}.
Implicit Types (T : Trie (St := St)) (m : kvmap).

(** The trie [T] stands for [m]; the cache further holds the rows of [F] and
    has room for [q] more stagings. *)
Record sim q F T m : Prop := {
  sim_full : full_state T = fs;
  sim_defer : defer_node_finalization T = dnf;
  sim_valid : valid_map m;
  sim_root : repr dnf dint (tree_of m) (root T);
  sim_own : Own fs dnf dint (cache T) q (owned (held fs dnf dint) (tree_of m) (root T) ++ F);
}.

(** What a mutation may stage: bounded by the length of the path. *)
Definition op_cost (k : bytes) : nat := 2 * length k + 6.

Lemma sim_weaken q q' F T m : (q' ≤ q)%nat → sim q F T m → sim q' F T m.
Proof. intros Hq [? ? ? ? Hown]. split; [done..|]. by eapply Own_weaken. Qed.

Lemma lift_run {S E A} (r : Result E A) (s : S) : lift r s = (s, r).
Proof. done. Qed.

Lemma get_sim q F T m k :
  sim q F T m → ∃ T', trie_get k T = (T', get_spec k m) ∧ sim q F T' m.
Proof.
  intros Hsim. unfold trie_get, get_spec. rewrite ensure_lookup_key_spec.
  destruct (valid_key k); [|by exists T]. rewrite (mbind_ok (lift _) _ _ _ _ eq_refl).
  destruct Hsim as [Hf Hd Hv Hr Hown]. pose proof (nibbles_to_nibbles k) as Hk.
  destruct (get_refines (tree_of m) (path_fuel (to_nibbles k)) (root T) (cache T) q F (to_nibbles k))
    as (c' & n' & Hrun & Hr' & _ & Hown'); try done; [apply tree_of_canon|by apply path_fuel_enough; [apply tree_of_canon|]|].
  unfold on_root. rewrite Hrun, tree_of_lookup. eexists. split; [done|]. by split.
Qed.

Lemma tree_height m : valid_map m → (2 * mheight (tree_of m) ≤ traverse_fuel)%nat.
Proof.
  intros Hv. enough (mheight (tree_of m) ≤ MAX_KEY_LENGTH + 2)%nat by (unfold traverse_fuel; lia).
  apply mheight_bound; [apply tree_of_canon|]. intros p v Hp Hl.
  destruct (tree_of_stands m) as [_ Hst]. apply Hst in Hl as (k & -> & Hk); [|done].
  apply Hv in Hk as [Hk _]. unfold valid_key in Hk. rewrite length_to_nibbles.
  apply andb_true_iff in Hk as [_ Hk]. by apply Nat.leb_le in Hk.
Qed.

(** Enumeration: the visitor sees the map's entries in key order. *)
Lemma find_sim {V} (visit : TrieEntry → V → V * bool) q F T m pre from v :
  sim q F T m →
  ∃ T', find_visit visit pre from v T = (T', find_spec visit pre from v m) ∧ sim q F T' m.
Proof.
  intros Hsim. unfold find_visit, find_spec. rewrite find_paths_spec.
  destruct (match from with Some f => starts_with f pre | None => true end); [|by exists T].
  destruct (valid_prefix pre && _); [|by exists T].
  destruct Hsim as [Hf Hd Hv Hr Hown]. pose proof (nibbles_to_nibbles pre) as Hp.
  destruct (seek_refines (tree_of m) (path_fuel (to_nibbles pre)) (root T) (cache T) q F (to_nibbles pre))
    as (c' & n' & [r start] & Hrun & Hr' & _ & Hown' & Hrel);
    [done|apply tree_of_canon|done|by apply path_fuel_enough; [apply tree_of_canon|]|done|].
  unfold on_root. rewrite Hrun. destruct (mseek_spec (tree_of m) (to_nibbles pre) (tree_of_canon m) Hp) as [Hes Hsub].
  destruct Hrel as [Er Hst]. cbn [fst snd] in Er, Hst.
  rewrite <-found_tree, Hes. unfold entries_at.
  assert (default [] (to_nibbles <$> from) = to_nibbles (default [] from)) as -> by (by destruct from).
  set (f := to_nibbles (default [] from)). pose proof (seek_offset_placed r f) as Hpl. rewrite <-Er.
  destruct (mseek (tree_of m) (to_nibbles pre)) as [r0 [t'|]]; cbn [fst snd] in *; subst r0.
  - destruct Hst as (s & rest & -> & Hrs & Hperm). destruct (Hsub t') as [Hct Hh]; [done|].
    destruct (seek_offset r f (length f)) as [o|].
    + pose proof (tree_height m Hv).
      destruct (traverse_refines visit t' traverse_fuel s r f _ q (rest ++ F) Hrs Hct ltac:(lia) Hpl)
        with (c := c') (v := v) as (c2 & Hrun2 & Hown2).
      * change (keyed (entries_at (r, Some t'))). rewrite <-Hes. apply Forall_forall. intros [p w] [_ Hin]%prefixed_elem.
        rewrite tree_entries in Hin. apply list_elem_of_fmap in Hin as ([k ?] & [= -> _] & _). by exists k.
      * eapply Own_perm; [|exact Hown']. rewrite Hperm. perm.
      * cbn [cache root]. rewrite Hrun2. eexists. split; [done|]. split; try done.
        eapply Own_perm; [|exact Hown2]. cbn [root]. rewrite Hperm. perm.
    + unfold selected. rewrite after_none by done. eexists. split; [done|]. by split.
  - subst start. destruct (seek_offset r f (length f)) as [o|]; (eexists; split; [done|]); by split.
Qed.

Lemma find_limited_sim q F T m pre from limit :
  sim q F T m →
  ∃ T', find_limited pre from limit T = (T', find_limited_spec pre from limit m) ∧ sim q F T' m.
Proof.
  intros Hsim. unfold find_limited, find_limited_spec. destruct (limit =? 0)%N; [by exists T|].
  by apply find_sim.
Qed.

Lemma depth_cost m k : (mdepth (tree_of m) (to_nibbles k) + 4 ≤ op_cost k)%nat.
Proof.
  pose proof (mdepth_bound (tree_of m) (to_nibbles k) (tree_of_canon m) (nibbles_to_nibbles k)) as Hb.
  rewrite length_to_nibbles in Hb. unfold op_cost. lia.
Qed.

Lemma put_sim q F T m k v :
  sim (op_cost k + q) F T m →
  (valid_key k = true → valid_value v = true →
   Forall (stageable fs dnf dint) (subtrees (tree_of (<[k := v]> m)))) →
  ∃ T', trie_put k v T = (T', (put_spec k v m).2) ∧ sim q F T' (put_spec k v m).1.
Proof.
  intros Hsim Hst. unfold trie_put, put_spec. rewrite ensure_lookup_key_spec, ensure_value_length_spec.
  destruct (valid_key k) eqn:Hvk; [|exists T; split; [done|eapply sim_weaken; [|done]; lia]].
  rewrite (mbind_ok (lift _) _ _ _ _ eq_refl).
  destruct (valid_value v) eqn:Hvv; [|exists T; split; [done|eapply sim_weaken; [|done]; lia]].
  rewrite (mbind_ok (lift _) _ _ _ _ eq_refl).
  destruct Hsim as [Hf Hd Hv Hr Hown]. pose proof (nibbles_to_nibbles k) as Hk.
  destruct (put_refines (tree_of m) (path_fuel (to_nibbles k)) (root T) (cache T) q F (to_nibbles k) v)
    as (c' & n' & Hrun & Hr' & Hown'); try done.
  - apply tree_of_canon.
  - by apply path_fuel_enough; [apply tree_of_canon|].
  - rewrite tree_of_put. auto.
  - eapply Own_weaken; [|exact Hown]. pose proof (depth_cost m k). lia.
  - unfold on_root. rewrite Hf, Hd, Hrun. eexists. split; [done|]. rewrite tree_of_put in Hr', Hown'.
    by split; [..|apply valid_map_put| |].
Qed.

Lemma delete_sim q F T m k :
  sim (op_cost k + q) F T m →
  (valid_key k = true → trace_stageable (fs := fs) (dnf := dnf) (dint := dint) (tree_of m) (to_nibbles k)) →
  ∃ T', trie_delete k T = (T', (delete_spec k m).2) ∧ sim q F T' (delete_spec k m).1.
Proof.
  intros Hsim Hst. unfold trie_delete, delete_spec. rewrite ensure_lookup_key_spec.
  destruct (valid_key k) eqn:Hvk; [|exists T; split; [done|eapply sim_weaken; [|done]; lia]].
  rewrite (mbind_ok (lift _) _ _ _ _ eq_refl).
  destruct Hsim as [Hf Hd Hv Hr Hown]. pose proof (nibbles_to_nibbles k) as Hk.
  assert (del_post (tree_of m) (to_nibbles k)
    (try_delete_node fs dnf (path_fuel (to_nibbles k)) (to_nibbles k) (cache T, root T))
    (dirty (root T)) q F) as Hdel.
  { apply delete_refines; try done; [apply tree_of_canon|by apply path_fuel_enough; [apply tree_of_canon|]|auto|].
    eapply Own_weaken; [|exact Hown]. pose proof (depth_cost m k). lia. }
  unfold del_post in Hdel. rewrite tree_of_delete in Hdel. unfold on_root. rewrite Hf, Hd.
  case_decide as E; destruct Hdel as (c' & n' & Hrun & Hr' & _ & Hown').
  - rewrite Hrun, bool_decide_true by done. eexists. split; [done|].
    by split; [..|apply valid_map_delete| |].
  - rewrite Hrun, bool_decide_false by done. eexists. split; [done|].
    rewrite (delete_id m k) by (by apply eq_None_not_Some). by split.
Qed.

Lemma root_hash_sim q F T m : sim q F T m → root_hash T = root_of m.
Proof.
  intros [_ _ _ Hr _]. unfold root_hash, root_of.
  by rewrite (repr_is_empty _ _ Hr), (repr_hash dnf dint _ _ Hr).
Qed.
End sim.
Arguments sim {_ St _} fs dnf dint {_}.

(** ** Sequences of calls *)

Inductive call :=
| CGet (k : bytes)
| CPut (k v : bytes)
| CDelete (k : bytes)
| CFind (pre : bytes) (from : option bytes) (limit : N)
| CCheckpoint
| CCommit.

Inductive reply :=
| RValue (v : option bytes)
| RDone
| RDeleted (existed : bool)
| RFound (es : list TrieEntry).

Definition on_reply {A} (f : A → reply) (r : Result MptError A) : Result MptError reply :=
  match r with Ok a => Ok (f a) | Err e => Err e end.

(** A call on the trie; a failed call leaves the trie usable. *)
Definition run_call `{Crypto} `{MptStoreSnapshot St} (o : call) (T : Trie (St := St))
    : Trie (St := St) * Result MptError reply :=
  match o with
  | CGet k => let '(T, r) := trie_get k T in (T, on_reply RValue r)
  | CPut k v => let '(T, r) := trie_put k v T in (T, on_reply (λ _, RDone) r)
  | CDelete k => let '(T, r) := trie_delete k T in (T, on_reply RDeleted r)
  | CFind pre from limit =>
      let '(T, r) := find_limited pre from limit T in (T, on_reply RFound r)
  | CCheckpoint => let '(T, r) := trie_checkpoint T in (T, on_reply (λ _, RDone) r)
  | CCommit => let '(T, r) := trie_commit T in (T, on_reply (λ _, RDone) r)
  end.

(** The same call on the map. *)
Definition spec_call (o : call) (m : kvmap) : kvmap * Result MptError reply :=
  match o with
  | CGet k => (m, on_reply RValue (get_spec k m))
  | CPut k v => let '(m, r) := put_spec k v m in (m, on_reply (λ _, RDone) r)
  | CDelete k => let '(m, r) := delete_spec k m in (m, on_reply RDeleted r)
  | CFind pre from limit => (m, on_reply RFound (find_limited_spec pre from limit m))
  | CCheckpoint | CCommit => (m, Ok RDone)
  end.

Section sequence.
Context {S R : Type} (step : call → S → S * R).
Fixpoint run_all (os : list call) (s : S) : S * list R :=
  match os with
  | [] => (s, [])
  | o :: os =>
      let '(s, r) := step o s in
      let '(s, rs) := run_all os s in
      (s, r :: rs)
  end.
End sequence.

(** The maps a sequence of calls goes through. *)
Fixpoint maps_of (os : list call) (m : kvmap) : list kvmap :=
  m :: match os with [] => [] | o :: os => maps_of os (spec_call o m).1 end.

(** A simulation of single calls is one of sequences. *)
Lemma run_all_sim {S1 S2 R} (f1 : call → S1 → S1 * R) (f2 : call → S2 → S2 * R)
    (I : list call → S1 → S2 → Prop) :
  (∀ o os s1 s2, I (o :: os) s1 s2 →
     (f1 o s1).2 = (f2 o s2).2 ∧ I os (f1 o s1).1 (f2 o s2).1) →
  ∀ os s1 s2, I os s1 s2 →
    (run_all f1 os s1).2 = (run_all f2 os s2).2 ∧ I [] (run_all f1 os s1).1 (run_all f2 os s2).1.
Proof.
  intros Hstep os. induction os as [|o os IH]; intros s1 s2 HI; [done|].
  destruct (Hstep o os s1 s2 HI) as [Hr HI']. cbn [run_all].
  destruct (f1 o s1) as [s1' r1], (f2 o s2) as [s2' r2]. cbn [fst snd] in *. subst r2.
  destruct (IH s1' s2' HI') as [Hrs HI'']. destruct (run_all f1 os s1'), (run_all f2 os s2').
  cbn [fst snd] in *. by subst.
Qed.
