(* ===== verification/Instances.v ===== *)
(** * Concrete instances

    An in-memory store that satisfies the store laws, SHA-256 as the hash, and
    readable byte literals: what the witnesses evaluate the development on. *)
From S2P Require Import Prelude Primitives Io MptNode MptNodeFacts MptCache MptTrie MptCacheFacts Sha256.

(** [ProofStore] is a map; it declines exported journals. *)
#[export] Program Instance lawful_proof_store : LawfulStore ProofStore := {
  contents s := s;
}.
Next Obligation. done. Qed.
Next Obligation. intros s k v. by eexists. Qed.
Next Obligation. intros s k. by eexists. Qed.
Next Obligation. intros s j _ _. by exists s, false. Qed.

Lemma contents_empty k : contents (∅ : ProofStore) !! k = None.
Proof. exact (lookup_empty (M := gmap bytes) (A := bytes) k). Qed.

(** The bytes of a string literal, and of hexadecimal digits. *)
Definition bytes_of_string (s : string) : bytes :=
  (λ a, as_u8 (Ascii.N_of_ascii a)) <$> String.list_ascii_of_string s.

Definition hex_digit (a : Ascii.ascii) : N :=
  let n := Ascii.N_of_ascii a in
  if (n <? 58)%N then n - 48 else n - 87.

Fixpoint unhex (s : string) : bytes :=
  match s with
  | String a (String b s) => as_u8 (16 * hex_digit a + hex_digit b) :: unhex s
  | _ => []
  end.

