(* ===== verification/MptPrune.v ===== *)
(** * The pruned state trie

    A trie that does not keep the full state ([Trie::new(.., false)] and
    [Trie::new_batch(.., false)]): it simulates a key-value map, a commit leaves in
    the store exactly the nodes of the current tree, each with a reference
    count equal to its number of occurrences, and the trie can be reopened
    from its root hash. *)
From S2P Require Import Prelude Primitives Order Io MptNode MptNodeFacts MptCache MptTrie MptSpec.
From S2P Require Import MptCacheFacts MptCommitFacts MptRefine MptModes MptFinal MptMap MptFind MptOps Sha256 Instances.
Import NodeType Node.

(** ** Stores *)

Section stores.
Context `{Crypto} `{LawfulStore St}.
Implicit Types (s : St) (h : UInt256.t).

(** The node rows of a store. *)
Definition node_rows s : rows := λ h,
  contents s !! node_key_bytes MPT_NODE_PREFIX h ≫= row_of.

(** Every row under the node prefix is a persisted node. *)
Definition mpt_store s : Prop := ∀ h bs,
  UInt256.wf h → contents s !! node_key_bytes MPT_NODE_PREFIX h = Some bs →
  ∃ n, canonical n ∧ bs = row n ∧ h = digest (payload_bytes n).

Lemma fresh_cache s dref dint :
  mpt_store s →
  let c := new_with_reference_mode s MPT_NODE_PREFIX dref dint in
  cache_ok c ∧ ∀ h, view c h = node_rows s h.
Proof.
  intros Hs c. split.
  - split; try done; cbn. exists ∅. split; cbn; try done. intros h. by rewrite !lookup_empty.
  - intros h. unfold view, c, jreplay. cbn. by rewrite !lookup_empty.
Qed.

(** Once the cache is empty, the store has its rows. *)
Lemma committed_rows (c : MptCache St) h :
  entries c = ∅ → deferred_entries c = ∅ → prefix c = MPT_NODE_PREFIX → view c h = node_rows (store c) h.
Proof.
  intros He Hde Hp. unfold view, jreplay, base, node_rows. by rewrite He, Hde, !lookup_empty, Hp.
Qed.

Lemma committed_mpt_store (c : MptCache St) :
  cache_ok c → prefix c = MPT_NODE_PREFIX → mpt_store (store c).
Proof. intros Hc Hp h bs Hw Hbs. rewrite <-Hp in Hbs. by eapply (co_store c Hc). Qed.

(** Nothing but node rows differs. *)
Definition same_elsewhere s s' : Prop :=
  ∀ k, (∀ h, UInt256.wf h → k ≠ node_key_bytes MPT_NODE_PREFIX h) → contents s' !! k = contents s !! k.
End stores.

Section prune.
Context `{Crypto} `{LawfulStore St}.
Implicit Types (s : St) (T : Trie (St := St)) (m : kvmap) (F : list mpt).

#[local] Existing Instance pruning_mode.

(** The trie stands for [m]; the store and cache hold the nodes of its tree,
    as far as they are not in memory, and those of [F]. *)
Definition pruned_trie F T m : Prop := sim false true false 0 F T m.

(** The store holds the nodes of the tree of [m] and of [F], nothing else,
    with exact reference counts. *)
Definition pruned_store F s m : Prop :=
  mpt_store s ∧ counted (node_rows s) (subtrees (tree_of m) ++ F).

Lemma sim_any q q' F T m : sim false true false q F T m → sim false true false q' F T m.
Proof. by intros [? ? ? ? ?]; split. Qed.

Lemma open_pruned F s m dref :
  pruned_store F s m → valid_map m →
  pruned_trie F (new_with_modes s (root_of m) false true dref false) m.
Proof.
  intros [Hs Hc] Hm. destruct (fresh_cache s dref false Hs) as [Hok Hv].
  assert (pruned (new_with_reference_mode s MPT_NODE_PREFIX dref (dref && false))
    (subtrees (tree_of m) ++ F)) as Hp.
  { rewrite andb_false_r. split; [done..|]. eapply counted_ext; [|exact Hc]. auto. }
  unfold root_of. destruct (tempty (tree_of m)) eqn:Ht.
  - split; [done..| |].
    + cbn [root new_with_modes]. destruct (tree_of m); try done. apply empty_repr.
    + cbn [root new_with_modes cache]. by destruct (tree_of m).
  - assert (is_hash (tree_of m) (new_hash (mhash (tree_of m)))) as Hh by done.
    split; [done..| |]; cbn [root new_with_modes cache].
    + apply repr_unfold. by left.
    + by rewrite owned_hash.
Qed.

(** A clean root has accounted for its whole tree. *)
Lemma owned_clean t (n : Node.t) :
  repr true false t n → dirty n = false → owned held_accounted t n ≡ₚ subtrees t.
Proof. intros Hr Hd. rewrite <-(owned_dirty t n Hr), dirty_trees_clean by done. by rewrite app_nil_r. Qed.

(** Finalization does not change what the trie stands for. *)
Definition finalizable F m : Prop :=
  collision_free digest (mpayload <$> subtrees (tree_of m) ++ F) ∧
  (Z.of_nat (length (subtrees (tree_of m) ++ F)) < 2 ^ 31)%Z.

Lemma finalize_prune F T m :
  pruned_trie F T m → finalizable F m →
  ∃ T', finalize_dirty_nodes T = (T', Ok tt) ∧ pruned_trie F T' m ∧
    store (cache T') = store (cache T) ∧
    pruned (cache T') (subtrees (tree_of m) ++ F) ∧ dirty (root T') = false.
Proof.
  intros [Hf Hd Hv Hr Hown] [Hcf Hlen].
  destruct (finalize_pruned T (tree_of m) F) as (c' & n' & Hrun & Hmodes & Hr' & Hd' & Hown');
    try done; [by apply tree_of_limit|].
  eexists. split; [exact Hrun|]. split_and!; [|apply Hmodes|done..]. split; try done.
  refine (pruned_perm _ _ _ _ Hown'). by apply Permutation_app_tail; symmetry; apply owned_clean.
Qed.

Lemma checkpoint_prune F T m :
  pruned_trie F T m → finalizable F m →
  ∃ T', trie_checkpoint T = (T', Ok tt) ∧ pruned_trie F T' m ∧ store (cache T') = store (cache T).
Proof.
  intros Hp Hfin. destruct (finalize_prune F T m Hp Hfin) as (T1 & Hrun & Hsim & Hst & _ & _).
  unfold trie_checkpoint. rewrite (mbind_ok _ _ _ _ _ Hrun). destruct Hsim as [Hf Hd Hv Hr Hown].
  destruct (checkpoint_ok (cache T1) (pr_cache _ _ Hown)) as (Hc' & Hmodes & Hv').
  eexists. split; [done|]. split; [|done]. split; try done.
  eapply pruned_same_map; [|exact Hown]. done.
Qed.

Lemma commit_prune F T m :
  pruned_trie F T m → finalizable F m →
  ∃ T', trie_commit T = (T', Ok tt) ∧ pruned_trie F T' m ∧ pruned_store F (store (cache T')) m ∧
    same_elsewhere (store (cache T)) (store (cache T')).
Proof.
  intros Hp Hfin. destruct (finalize_prune F T m Hp Hfin) as (T1 & Hrun & Hsim & Hst & Hown & Hcl).
  unfold trie_commit. rewrite (mbind_ok _ _ _ _ _ Hrun). destruct Hown as [Hc Hpfx Hm Hcn].
  destruct (commit_ok (cache T1) Hc) as (c' & Hcom & Hc' & He & Hde & Hpfx' & _ & Hdi & Hfl & Hv').
  rewrite Hcom. eexists. split; [done|]. rewrite Hpfx in Hpfx'. cbn [cache with_cache].
  destruct Hsim as [Hf Hd Hv Hr _].
  assert (pruned c' (subtrees (tree_of m) ++ F)) as Hown'.
  { split; [done..|congruence|]. by eapply counted_ext. }
  split_and!.
  - split; try done. refine (pruned_perm _ _ _ _ Hown').
    by apply Permutation_app_tail; symmetry; apply owned_clean.
  - split; [by apply committed_mpt_store|]. eapply counted_ext; [|apply Hown'].
    intros h _. by rewrite committed_rows.
  - intros k Hk. rewrite <-Hst. apply (proj2 Hfl). by rewrite Hpfx.
Qed.

(** ** Sessions *)

(** The tree can be finalized wherever the calls ask for it. *)
Fixpoint finalizable_at F (os : list call) m : Prop :=
  match os with
  | [] => True
  | o :: os =>
      match o with CCheckpoint | CCommit => finalizable F m | _ => True end ∧
      finalizable_at F os (spec_call o m).1
  end.

Lemma call_prune F o os T m :
  pruned_trie F T m ∧ finalizable_at F (o :: os) m →
  (run_call o T).2 = (spec_call o m).2 ∧
  pruned_trie F (run_call o T).1 (spec_call o m).1 ∧ finalizable_at F os (spec_call o m).1.
Proof.
  intros [Hp [Hfin Hrest]].
  enough ((run_call o T).2 = (spec_call o m).2 ∧ pruned_trie F (run_call o T).1 (spec_call o m).1) by tauto.
  clear Hrest.
  destruct o as [k|k v|k|pre from limit| |]; cbn [run_call spec_call].
  - destruct (get_sim 0 F T m k Hp) as (T' & -> & Hp'). done.
  - destruct (put_sim 0 F T m k v) as (T' & -> & Hp'); [by eapply sim_any| |by destruct (put_spec k v m)].
    intros _ _. by apply Forall_true.
  - destruct (delete_sim 0 F T m k) as (T' & -> & Hp'); [by eapply sim_any| |by destruct (delete_spec k m)].
    intros _. by apply Forall_true.
  - destruct (find_limited_sim 0 F T m pre from limit Hp) as (T' & -> & Hp'). done.
  - destruct (checkpoint_prune F T m Hp Hfin) as (T' & -> & Hp' & _). done.
  - destruct (commit_prune F T m Hp Hfin) as (T' & -> & Hp' & _). done.
Qed.

Lemma session_prune F os T m :
  pruned_trie F T m → finalizable_at F os m →
  (run_all run_call os T).2 = (run_all spec_call os m).2 ∧
  pruned_trie F (run_all run_call os T).1 (run_all spec_call os m).1.
Proof.
  intros Hp Hfin.
  destruct (run_all_sim run_call spec_call (λ os T m, pruned_trie F T m ∧ finalizable_at F os m))
    with os T m as [? [? _]]; try done. intros. by apply call_prune.
Qed.

Definition open_trie (batch : bool) s m : Trie (St := St) :=
  if batch then new_batch s (root_of m) false else trie_new s (root_of m) false.

Lemma open_trie_ok F batch s m :
  pruned_store F s m → valid_map m → pruned_trie F (open_trie batch s m) m.
Proof. intros. destruct batch; by apply open_pruned. Qed.

(** (C5) A pruning trie behaves as a key-value map.  Opened at the root of a
    map on a store that holds exactly the nodes of that map's tree, as a
    single trie or as a batch, and driven through any sequence of lookups,
    enumerations, insertions, deletions, checkpoints and commits, it gives the replies of
    the map, errors for invalid keys and values included; its root hash is
    then the one prescribed for the map reached, whatever the calls that led
    there.  The trees finalized on the way must not make the hash collide. *)
Theorem pruned_session_refines_map F batch s m os :
  pruned_store F s m → valid_map m → finalizable_at F os m →
  let '(T, replies) := run_all run_call os (open_trie batch s m) in
  let '(m', expected) := run_all spec_call os m in
  replies = expected ∧ root_hash T = root_of m' ∧ valid_map m'.
Proof.
  intros Hs Hm Hfin.
  destruct (session_prune F os _ m (open_trie_ok F batch s m Hs Hm) Hfin) as [Hr Hp].
  destruct (run_all run_call _ _) as [T rs], (run_all spec_call _ _) as [m' rs'].
  split_and!; [done|by eapply root_hash_sim|apply Hp].
Qed.

Lemma run_all_app {S R} (f : call → S → S * R) os os' x :
  (run_all f (os ++ os') x).1 = (run_all f os' (run_all f os x).1).1.
Proof.
  revert x. induction os as [|o os IH]; intros x; [done|]. cbn [app run_all].
  destruct (f o x) as [y r]. specialize (IH y). destruct (run_all f os y), (run_all f (os ++ os') y). done.
Qed.

Lemma finalizable_at_app F os os' m :
  finalizable_at F (os ++ os') m ↔
  finalizable_at F os m ∧ finalizable_at F os' (run_all spec_call os m).1.
Proof.
  revert m. induction os as [|o os IH]; intros m; [cbn; tauto|]. cbn [app finalizable_at run_all].
  rewrite IH. destruct (spec_call o m) as [m' r]. cbn [fst].
  destruct (run_all spec_call os m'). cbn [fst]. tauto.
Qed.

(** A session that ends with a commit leaves the store pruned. *)
Lemma session_committed F batch s m os :
  pruned_store F s m → valid_map m → finalizable_at F (os ++ [CCommit]) m →
  let T := (run_all run_call (os ++ [CCommit]) (open_trie batch s m)).1 in
  let m' := (run_all spec_call os m).1 in
  pruned_store F (store (cache T)) m' ∧ valid_map m' ∧ root_hash T = root_of m'.
Proof.
  intros Hs Hm [Hfin [Hlast _]]%finalizable_at_app. cbv zeta.
  destruct (session_prune F os _ m (open_trie_ok F batch s m Hs Hm) Hfin) as [_ Hp].
  rewrite run_all_app. cbn [run_all run_call].
  destruct (commit_prune F _ _ Hp Hlast) as (T' & -> & Hp' & Hst & _). cbn [fst].
  split_and!; [done|apply Hp|by eapply root_hash_sim].
Qed.

(** (C18) Pruning is exact.  After any session that ends with a commit, the
    node rows of the store are exactly the nodes of the tree of the current
    map (and of the trees [F] kept alive besides it): no node is missing, no
    dead node is left behind, and each row's reference count is the number of
    times its node occurs.  The store can then be reopened at the new root. *)
Theorem pruned_commit_exact F batch s m os :
  pruned_store F s m → valid_map m → finalizable_at F (os ++ [CCommit]) m →
  let T := (run_all run_call (os ++ [CCommit]) (open_trie batch s m)).1 in
  let m' := (run_all spec_call os m).1 in
  pruned_store F (store (cache T)) m' ∧ valid_map m' ∧ root_hash T = root_of m'.
Proof. apply session_committed. Qed.

(** (C22) Enumeration is ordered, complete and resumable.  With any visitor,
    [find_visit] on a trie opened for [m] shows it the entries of [m] whose
    keys start with [pre] and come strictly after [from], in increasing
    order of keys, until the visitor stops; a bad [from] or an over-long
    argument is an error.  Resuming after the entry at any position
    enumerates exactly what followed it, so pages neither lose nor repeat
    entries. *)
Theorem find_enumerates_map F batch s m {V} (visit : TrieEntry → V → V * bool) pre from v :
  pruned_store F s m → valid_map m →
  (find_visit visit pre from v (open_trie batch s m)).2 = find_spec visit pre from v m ∧
  StronglySorted (lt_by e_key) (found pre from m) ∧
  (∀ k w, mkEntry k w ∈ found pre from m ↔
     m !! k = Some w ∧ starts_with k pre = true ∧ bytes_lt (default [] from) k) ∧
  (∀ i e, found pre from m !! i = Some e →
     found pre (Some (e_key e)) m = drop (S i) (found pre from m)).
Proof.
  intros Hs Hm. split_and!; [|apply found_sorted|apply found_elem|apply found_resume].
  destruct (find_sim visit 0 F (open_trie batch s m) m pre from v) as (T' & -> & _); [|done].
  by apply open_trie_ok.
Qed.

(** *** Checking finalizability by evaluation *)

Definition finalizableb (F : list mpt) (m : kvmap) : bool :=
  collision_freeb digest (mpayload <$> subtrees (tree_of m) ++ F) &&
  (Z.of_nat (length (subtrees (tree_of m) ++ F)) <? 2 ^ 31)%Z.
Fixpoint finalizable_atb (F : list mpt) (os : list call) (m : kvmap) : bool :=
  match os with
  | [] => true
  | o :: os =>
      match o with CCheckpoint | CCommit => finalizableb F m | _ => true end &&
      finalizable_atb F os (spec_call o m).1
  end.

Lemma finalizable_atb_spec F os m : finalizable_atb F os m = true → finalizable_at F os m.
Proof.
  assert (∀ m, finalizableb F m = true → finalizable F m) as Hf.
  { intros m' [Hc Hl]%andb_true_iff. split; [by apply collision_freeb_spec|by apply Z.ltb_lt]. }
  revert m. induction os as [|o os IH]; intros m; [done|]. cbn [finalizable_atb finalizable_at].
  intros [Ho Hrest]%andb_true_iff. split; [destruct o; auto|auto].
Qed.
End prune.

(** ** A concrete session *)

Section sample.
#[local] Existing Instance sha256_crypto.
#[local] Open Scope string_scope.

(** Two keys with a common prefix, one a prefix of the other, an update and
    a deletion that merges a branch away. *)
Definition sample_calls : list call :=
  let k := bytes_of_string in
  [CPut (k "ac01") (k "abcd"); CPut (k "ac02") (k "2222"); CPut (k "ac") (k "hello"); CCommit;
   CPut (k "ac01") (k "2222"); CDelete (k "ac"); CGet (k "ac02"); CDelete (k "zz");
   CFind (k "a") (Some (k "ac01")) 5;
   CPut [] (k "rejected"); CCheckpoint; CDelete (k "ac01")].

Lemma sample_store : pruned_store [] (∅ : ProofStore) ∅.
Proof.
  unfold pruned_store, mpt_store, node_rows. split; [intros h bs _; by rewrite contents_empty|]. split.
  - intros h r _. by rewrite contents_empty.
  - intros t Ht. by apply not_elem_of_nil in Ht.
  - intros h _. by rewrite contents_empty.
Qed.

Lemma sample_finalizable : finalizable_at [] (sample_calls ++ [CCommit]) ∅.
Proof. apply finalizable_atb_spec. vm_compute. reflexivity. Qed.

Lemma pruned_session_refines_map_witness :
  let '(T, replies) := run_all run_call sample_calls (open_trie true (∅ : ProofStore) ∅) in
  let '(m', expected) := run_all spec_call sample_calls ∅ in
  replies = expected ∧ root_hash T = root_of m' ∧ valid_map m'.
Proof.
  apply (pruned_session_refines_map [] true ∅ ∅ sample_calls);
    [exact sample_store|apply map_Forall_empty|].
  exact (proj1 (proj1 (finalizable_at_app _ _ _ _) sample_finalizable)).
Defined.

Lemma pruned_commit_exact_witness :
  let T := (run_all run_call (sample_calls ++ [CCommit]) (open_trie false (∅ : ProofStore) ∅)).1 in
  let m' := (run_all spec_call sample_calls ∅).1 in
  pruned_store [] (store (cache T)) m' ∧ valid_map m' ∧ root_hash T = root_of m'.
Proof.
  apply (pruned_commit_exact [] false ∅ ∅ sample_calls);
    [exact sample_store|apply map_Forall_empty|exact sample_finalizable].
Defined.

(** The store left by the sample session, and an enumeration of it. *)
Definition sample_trie : Trie (St := ProofStore) :=
  (run_all run_call (sample_calls ++ [CCommit]) (open_trie false ∅ ∅)).1.
Definition sample_map : kvmap := (run_all spec_call sample_calls ∅).1.

Lemma sample_committed : pruned_store [] (store (cache sample_trie)) sample_map ∧ valid_map sample_map.
Proof.
  destruct (session_committed [] false (∅ : ProofStore) ∅ sample_calls) as (H1 & H2 & _);
    [exact sample_store|apply map_Forall_empty|exact sample_finalizable|].
  exact (conj H1 H2).
Qed.

Lemma find_enumerates_map_witness :
  let visit := λ e (es : list TrieEntry), ((es ++ [e])%list, true) in
  (find_visit visit [] None [] (open_trie true (store (cache sample_trie)) sample_map)).2 =
    find_spec visit [] None [] sample_map ∧
  find_spec visit [] None [] sample_map =
    Ok [mkEntry (bytes_of_string "ac02") (bytes_of_string "2222")].
Proof.
  split; [|vm_compute; reflexivity].
  exact (proj1 (find_enumerates_map [] true (store (cache sample_trie)) sample_map
    (λ e (es : list TrieEntry), ((es ++ [e])%list, true)) [] None []
    (proj1 sample_committed) (proj2 sample_committed))).
Defined.
End sample.
