(* ===== verification/MptFull.v ===== *)
(** * The full-state trie

    A trie that keeps the full state writes every node it builds, at once
    ([Trie::new(.., true)]) or through the deferred journal
    ([Trie::new_batch_deferred_full_state(.., true)]), and never removes one.  It simulates
    a key-value map, and after a commit every map it has gone through can be
    reopened from its root. *)
From S2P Require Import Prelude Primitives Io MptNode MptNodeFacts MptCache MptTrie MptSpec.
From S2P Require Import MptCacheFacts MptCommitFacts MptRefine MptModes MptFinal MptMap MptOps MptPrune Sha256 Instances.
Import NodeType Node.

Section full.
Context `{Crypto} `{LawfulStore St}.
(** The payloads of the nodes that may occur. *)
Context (ps : list bytes) (ps_free : collision_free digest ps).
(** Whether references are journaled. *)
Context (b : bool).
Implicit Types (s : St) (T : Trie (St := St)) (m : kvmap) (F : list mpt) (hist : list kvmap).

Definition known (p : bytes) : Prop := p ∈ ps.

Lemma known_inj p p' : known p → known p' → digest p = digest p' → p = p'.
Proof. apply ps_free. Qed.

#[local] Instance full_trie_cache : TrieCache St true b b := full_mode known known_inj b.

(** The nodes of all the trees of a history. *)
Definition archive hist : list mpt := concat ((λ m, subtrees (tree_of m)) <$> hist).

Lemma elem_of_archive hist t : t ∈ archive hist ↔ ∃ m, m ∈ hist ∧ t ∈ subtrees (tree_of m).
Proof.
  unfold archive. rewrite elem_of_concat. split.
  - intros (l & Ht & (m & -> & Hm)%list_elem_of_fmap). eauto.
  - intros (m & Hm & Ht). eexists. split; [exact Ht|]. by apply (list_elem_of_fmap_2 (λ m, subtrees (tree_of m))).
Qed.

Definition full_trie q hist T m : Prop := sim true b b q (archive hist) T m.

(** The store has the trees of a history, and room for [q] more references
    to any row. *)
Record full_store q hist s : Prop := {
  fl_store : mpt_store s;
  fl_budget : (Z.of_nat q < 2 ^ 31)%Z;
  fl_rows t : t ∈ archive hist → ∃ r, has_row (node_rows s) t r;
  fl_all h row : UInt256.wf h → node_rows s h = Some row →
    known (ds_payload row) ∧ (ds_reference row + Z.of_nat q < 2 ^ 31)%Z;
}.

(** Every node in memory has its row. *)
Lemma owned_held t n : repr b b t n → owned held_hashed t n ≡ₚ subtrees t.
Proof.
  apply (repr_induction b b (λ t n, owned held_hashed t n ≡ₚ subtrees t)).
  - intros t' n' Hh. by rewrite owned_hash.
  - clear t n. intros t n (Hc & Ha & Hd & Hcell & Hcl) Hs IH. rewrite (owned_shape _ _ _ _ _ Hs), subtrees_unfold.
    apply Permutation_app.
    + unfold own_self, held_hashed. destruct (tempty t) eqn:Ht; [done|]. cbn [negb andb].
      rewrite bool_decide_true; [done|]. destruct (dirty n) eqn:Hdn.
      * right. apply Hcell; [|done]. destruct b; [done|]. by specialize (Hd eq_refl).
      * left. by destruct Hcl as ([?|?] & _).
    + destruct t as [|v|k t|ts]; try done; cbn [kids_all kids kid_trees] in *.
      * destruct IH as (ch & -> & IH). done.
      * unfold owned_all. clear -IH. induction IH as [|t ch ts ns IH _ IHs]; [done|].
        cbn. by rewrite IH, IHs.
Qed.

(** Retention does not count multiplicities. *)
Lemma full_archive q hist T m : full_trie q hist T m → full_trie q (m :: hist) T m.
Proof.
  intros [? ? ? Hr Hown]. split; [done..|]. eapply retained_mono; [done| |exact Hown].
  intros t. rewrite !elem_of_app. intros [?|Ht]; [by left|].
  apply elem_of_app in Ht as [Ht|Ht]; [|by right]. left. by rewrite (owned_held _ _ Hr).
Qed.

Definition open_full s m : Trie (St := St) :=
  if b then new_batch_deferred_full_state s (root_of m) true else trie_new s (root_of m) true.

Lemma open_full_ok q hist s m :
  full_store q hist s → m ∈ hist → valid_map m → full_trie q hist (open_full s m) m.
Proof.
  intros [Hs Hb Hr Ha] Hm Hv. destruct (fresh_cache s b b Hs) as [Hok Hview].
  assert (open_full s m = new_with_modes s (root_of m) true b b b) as ->
    by (unfold open_full; by destruct b).
  assert (retained known b b (new_with_reference_mode s MPT_NODE_PREFIX b (b && b)) q (archive hist)) as Hret.
  { rewrite andb_diag. split; [done..| |].
    - intros t Ht. destruct (Hr t Ht) as (r & ? & ? & ?). exists r. split_and!; [done..|]. by rewrite Hview.
    - intros h row Hw. rewrite Hview. by apply Ha. }
  assert (∀ t, t ∈ subtrees (tree_of m) ++ archive hist → t ∈ archive hist) as Hsub.
  { intros t [Ht|?]%elem_of_app; [|done]. apply elem_of_archive. eauto. }
  unfold root_of. destruct (tempty (tree_of m)) eqn:Ht.
  - split; [done..| |]; cbn [root new_with_modes cache].
    + destruct (tree_of m); try done. apply stored_kid_repr with (t := TEmpty).
    + destruct (tree_of m); done.
  - assert (is_hash (tree_of m) (new_hash (mhash (tree_of m)))) as Hh by done.
    split; [done..| |]; cbn [root new_with_modes cache].
    + apply repr_unfold. by left.
    + rewrite owned_hash by done. by eapply retained_mono.
Qed.

(** ** Calls *)

Definition call_cost (o : call) : nat :=
  match o with CPut k _ | CDelete k => op_cost k | _ => 0 end.

(** The payloads a call may write are among [ps]. *)
Definition admissible_call (o : call) m : Prop :=
  match o with
  | CPut k v => valid_key k = true → valid_value v = true →
      Forall (λ t, known (mpayload t)) (subtrees (tree_of (<[k := v]> m)))
  | CDelete k => valid_key k = true →
      Forall (λ t, tempty t = false → known (mpayload t)) (mdelete_trace (tree_of m) (to_nibbles k))
  | _ => True
  end.

Lemma put_full q hist T m k v :
  full_trie (op_cost k + q) hist T m → admissible_call (CPut k v) m →
  ∃ T', trie_put k v T = (T', (put_spec k v m).2) ∧ full_trie q hist T' (put_spec k v m).1.
Proof.
  intros Hsim Hadm. apply put_sim; [done|]. intros Hk Hv.
  pose proof (tree_of_limit (<[k := v]> m) (valid_map_put m k v (sim_valid _ _ _ _ Hsim) Hk Hv)) as Hl.
  specialize (Hadm Hk Hv). rewrite Forall_forall in Hl, Hadm. apply Forall_forall.
  intros t Ht. split; auto.
Qed.

Lemma delete_full q hist T m k :
  full_trie (op_cost k + q) hist T m → admissible_call (CDelete k) m →
  ∃ T', trie_delete k T = (T', (delete_spec k m).2) ∧ full_trie q hist T' (delete_spec k m).1.
Proof.
  intros Hsim Hadm. apply delete_sim; [done|]. intros Hk.
  pose proof (trace_limit (tree_of m) (to_nibbles k) (tree_of_canon m) (nibbles_to_nibbles k)
    (tree_of_bounded m (sim_valid _ _ _ _ Hsim))) as Hl.
  specialize (Hadm Hk). rewrite Forall_forall in Hl, Hadm. apply Forall_forall.
  intros t Ht He. split; auto.
Qed.

(** Finalization only marks nodes. *)
Lemma finalize_full q hist T m :
  full_trie q hist T m →
  ∃ T', finalize_dirty_nodes T = (T', Ok tt) ∧ full_trie q hist T' m ∧ cache T' = cache T.
Proof.
  intros Hsim. assert (Hsim' := Hsim). destruct Hsim' as [Hf Hd Hv Hr Hown].
  unfold finalize_dirty_nodes. rewrite Hd, (rt_int _ _ _ _ _ _ Hown).
  destruct (decide (b = true)) as [E|E%not_true_is_false]; [|by rewrite E; exists T].
  rewrite E. cbn [negb]. eexists. split; [done|]. split; [|done].
  assert (repr b b (tree_of m) (mark_dirty_subtree_finalized (root T))) as Hr'.
  { revert Hr. rewrite E. by intros [? _]%mark_ok. }
  split; [done|by rewrite E|done..|]. eapply retained_mono; [done| |exact Hown]. cbn [root].
  intros t. change (held true b b) with held_hashed.
  by rewrite !elem_of_app, (owned_held _ _ Hr), (owned_held _ _ Hr').
Qed.

Lemma checkpoint_full q hist T m :
  full_trie q hist T m →
  ∃ T', trie_checkpoint T = (T', Ok tt) ∧ full_trie q hist T' m.
Proof.
  intros Hsim. destruct (finalize_full q hist T m Hsim) as (T1 & Hrun & Hsim1 & _).
  unfold trie_checkpoint. rewrite (mbind_ok _ _ _ _ _ Hrun). destruct Hsim1 as [Hf Hd Hv Hr Hown].
  eexists. split; [done|]. split; [done..|].
  eapply retained_same_map; [|exact Hown]. exact (checkpoint_ok _ (rt_cache _ _ _ _ _ _ Hown)).
Qed.

Lemma retained_store q f (c : MptCache St) :
  retained known b b c q f → entries c = ∅ → deferred_entries c = ∅ →
  (∀ hist, (∀ t, t ∈ archive hist → t ∈ f) → full_store q hist (store c)).
Proof.
  intros [Hc Hp _ _ Hb Hr Ha] He Hde hist Hsub.
  assert (∀ h, view c h = node_rows (store c) h) as Hv by (intros h; by apply committed_rows).
  split; [by apply committed_mpt_store|done| |].
  - intros t Ht. destruct (Hr t (Hsub t Ht)) as (r & ? & ? & ?). exists r. split_and!; [done..|]. by rewrite <-Hv.
  - intros h row Hw. rewrite <-Hv. by apply Ha.
Qed.

Lemma commit_full q hist T m :
  full_trie q hist T m →
  ∃ T', trie_commit T = (T', Ok tt) ∧ full_trie q hist T' m ∧
    full_store q (m :: hist) (store (cache T')).
Proof.
  intros Hsim. destruct (finalize_full q hist T m Hsim) as (T1 & Hrun & Hsim1%full_archive & _).
  unfold trie_commit. rewrite (mbind_ok _ _ _ _ _ Hrun). destruct Hsim1 as [Hf Hd Hv Hr Hown].
  destruct (commit_ok (cache T1) (rt_cache _ _ _ _ _ _ Hown))
    as (c' & Hcom & Hc' & He & Hde & Hp & Href & Hint & _ & Hview).
  assert (retained known b b c' q (subtrees (tree_of m) ++ archive (m :: hist))) as Hret.
  { destruct Hown as [_ Hp1 Href1 Hint1 Hb1 Hr1 Ha1]. split; [done|congruence..|done| |].
    - intros t Ht. destruct (Hr1 t) as (r & ? & ? & Hrow).
      { rewrite <-(owned_held _ _ Hr) in Ht. exact Ht. }
      exists r. split_and!; [done..|]. by rewrite Hview by apply mhash_wf.
    - intros h row Hw. rewrite Hview by done. by apply Ha1. }
  rewrite Hcom. eexists. split; [done|]. split.
  - split; [done..|]. eapply retained_mono; [done| |exact Hret]. intros t.
    cbn [root with_cache cache]. change (held true b b) with held_hashed.
    rewrite (owned_held _ _ Hr), !elem_of_app. intros [?|?]; [by left|]. right. apply elem_of_app. by right.
  - eapply retained_store; [exact Hret|done..|]. intros t Ht. apply elem_of_app. by right.
Qed.

(** ** Sessions *)

Fixpoint session_cost (os : list call) : nat :=
  match os with [] => 0 | o :: os => call_cost o + session_cost os end.

Fixpoint admissible (os : list call) m : Prop :=
  match os with
  | [] => True
  | o :: os => admissible_call o m ∧ admissible os (spec_call o m).1
  end.

Lemma call_full q hist o T m :
  full_trie (call_cost o + q) hist T m → admissible_call o m →
  (run_call o T).2 = (spec_call o m).2 ∧ full_trie q (m :: hist) (run_call o T).1 (spec_call o m).1.
Proof.
  intros Hsim%full_archive Hadm. destruct o as [k|k v|k|pre from limit| |]; cbn [run_call spec_call call_cost] in *.
  - destruct (get_sim q _ T m k Hsim) as (T' & -> & Hp'). done.
  - destruct (put_full q _ T m k v Hsim Hadm) as (T' & -> & Hp'). by destruct (put_spec k v m).
  - destruct (delete_full q _ T m k Hsim Hadm) as (T' & -> & Hp'). by destruct (delete_spec k m).
  - destruct (find_limited_sim q _ T m pre from limit Hsim) as (T' & -> & Hp'). done.
  - destruct (checkpoint_full q _ T m Hsim) as (T' & -> & Hp'). done.
  - destruct (commit_full q _ T m Hsim) as (T' & -> & Hp' & _). done.
Qed.

Lemma session_full q os hist T m :
  full_trie (session_cost os + q) hist T m → admissible os m →
  (run_all run_call os T).2 = (run_all spec_call os m).2 ∧
  ∃ hist', full_trie q hist' (run_all run_call os T).1 (run_all spec_call os m).1 ∧
    ∀ x, x ∈ maps_of os m ++ hist → x ∈ hist'.
Proof.
  revert hist T m. induction os as [|o os IH]; intros hist T m Hsim Hadm.
  { split; [done|]. exists (m :: hist). split; [by apply full_archive|done]. }
  cbn [session_cost] in Hsim. rewrite <-Nat.add_assoc in Hsim. destruct Hadm as [Ho Hadm].
  destruct (call_full _ hist o T m Hsim Ho) as [Hr Hsim']. cbn [run_all maps_of].
  destruct (run_call o T) as [T1 r1], (spec_call o m) as [m1 r2]. cbn [fst snd] in *. subst r2.
  destruct (IH (m :: hist) T1 m1 Hsim' Hadm) as (Hrs & hist' & Hsim'' & Hsub).
  destruct (run_all run_call os T1) as [T2 rs], (run_all spec_call os m1) as [m2 rs']. cbn [fst snd] in *.
  subst rs'. split; [done|]. exists hist'. split; [done|]. intros x Hx. apply Hsub.
  rewrite elem_of_app, elem_of_cons. cbn [app] in Hx. rewrite elem_of_cons, elem_of_app in Hx. tauto.
Qed.

Lemma full_store_mono q hist hist' s :
  (∀ x, x ∈ hist' → x ∈ hist) → full_store q hist s → full_store q hist' s.
Proof.
  intros Hsub [? ? Hr ?]. split; [done..| |done]. intros t Ht. apply Hr. rewrite elem_of_archive in *.
  destruct Ht as (x & Hx & Ht). eauto.
Qed.

(** (C19) A full-state trie behaves as a key-value map.  Opened at the root
    of any map in the history the store has kept, eagerly writing or
    journaling, and driven through any sequence of calls, it gives the
    replies of the map, and its root hash is the one prescribed for the map
    reached.  The payloads written must be free of hash collisions and no row
    may be close to overflowing its reference count. *)
Theorem full_session_refines_map q os hist s m :
  full_store (session_cost os + q) hist s → m ∈ hist → valid_map m → admissible os m →
  let '(T, replies) := run_all run_call os (open_full s m) in
  let '(m', expected) := run_all spec_call os m in
  replies = expected ∧ root_hash T = root_of m'.
Proof.
  intros Hs Hm Hv Hadm.
  destruct (session_full q os hist _ m (open_full_ok _ hist s m Hs Hm Hv) Hadm) as (Hr & hist' & Hsim & _).
  destruct (run_all run_call _ _) as [T rs], (run_all spec_call _ _) as [m' rs'].
  split; [done|by eapply root_hash_sim].
Qed.

Lemma open_full_reads q hist s m k :
  full_store q hist s → m ∈ hist → valid_map m → (trie_get k (open_full s m)).2 = get_spec k m.
Proof.
  intros Hs Hm Hv.
  by destruct (get_sim q _ (open_full s m) m k (open_full_ok q hist s m Hs Hm Hv)) as (T' & -> & _).
Qed.
End full.

Section archive.
Context `{Crypto} `{LawfulStore St}.
Context (ps : list bytes) (ps_free : collision_free digest ps).
Implicit Types (s : St) (m : kvmap) (hist : list kvmap).

(** (C20) A full-state store is an archive.  After a session that ends with a
    commit, the store still has every map of its history, and every map the
    session went through: a trie opened at the root of any of them, in either
    mode, returns exactly its values. *)
Theorem full_commit_archives b b' q os hist s m :
  full_store ps (session_cost os + q) hist s → m ∈ hist → valid_map m → admissible ps os m →
  let s' := store (cache (run_all run_call (os ++ [CCommit]) (open_full b s m)).1) in
  let hist' := maps_of os m ++ hist in
  full_store ps q hist' s' ∧
  ∀ x k, x ∈ hist' → valid_map x → (trie_get k (open_full b' s' x)).2 = get_spec k x.
Proof.
  intros Hs Hm Hv Hadm s' hist'.
  assert (full_store ps q hist' s') as Hs'.
  { destruct (session_full ps ps_free b q os hist _ m (open_full_ok ps ps_free b _ hist s m Hs Hm Hv) Hadm)
      as (_ & h & Hsim & Hsub).
    unfold s'. rewrite run_all_app. cbn [run_all run_call].
    destruct (commit_full ps ps_free b q h _ _ Hsim) as (T' & -> & _ & Hst). cbn [fst].
    eapply full_store_mono; [|exact Hst]. intros x Hx. right. by apply Hsub. }
  split; [done|]. intros x k Hx Hvx. by apply (open_full_reads ps ps_free b' q hist').
Qed.
End archive.

(** ** Collecting the payloads of a session *)

Section payloads.
Context `{Crypto}.

Definition call_payloads (o : call) (m : kvmap) : list bytes :=
  match o with
  | CPut k v => mpayload <$> subtrees (tree_of (<[k := v]> m))
  | CDelete k => mpayload <$> mdelete_trace (tree_of m) (to_nibbles k)
  | _ => []
  end.

Fixpoint session_payloads (os : list call) (m : kvmap) : list bytes :=
  match os with
  | [] => []
  | o :: os => call_payloads o m ++ session_payloads os (spec_call o m).1
  end.

Lemma session_payloads_admissible ps os m :
  (∀ p, p ∈ session_payloads os m → p ∈ ps) → admissible ps os m.
Proof.
  revert m. induction os as [|o os IH]; intros m Hsub; [done|]. cbn [session_payloads] in Hsub. split.
  - assert (∀ p, p ∈ call_payloads o m → p ∈ ps) as Hsub' by (intros p Hp; apply Hsub, elem_of_app; by left).
    destruct o as [k|k v|k|pre from limit| |]; try done.
    + intros _ _. apply Forall_forall. intros t Ht. apply Hsub'. by apply list_elem_of_fmap_2.
    + intros _. apply Forall_forall. intros t Ht _. apply Hsub'. by apply list_elem_of_fmap_2.
  - apply IH. intros p Hp. apply Hsub, elem_of_app. by right.
Qed.

Lemma empty_full_store ps q :
  (Z.of_nat q < 2 ^ 31)%Z → full_store ps q [∅] (∅ : ProofStore).
Proof.
  intros Hq. split; [|done|..].
  - intros h bs _. by rewrite contents_empty.
  - intros t (m & ->%list_elem_of_singleton & Ht)%elem_of_archive. by apply not_elem_of_nil in Ht.
  - intros h row _. unfold node_rows. by rewrite contents_empty.
Qed.
End payloads.

Section sample.
#[local] Existing Instance sha256_crypto.

Definition sample_payloads : list bytes := session_payloads sample_calls ∅.

Lemma sample_collision_free : collision_free digest sample_payloads.
Proof. apply collision_freeb_spec. vm_compute. reflexivity. Qed.

Lemma full_session_refines_map_witness :
  let '(T, replies) := run_all run_call sample_calls (open_full true (∅ : ProofStore) ∅) in
  let '(m', expected) := run_all spec_call sample_calls ∅ in
  replies = expected ∧ root_hash T = root_of m'.
Proof.
  apply (full_session_refines_map sample_payloads sample_collision_free true 0 sample_calls [∅]).
  - apply empty_full_store. vm_compute. reflexivity.
  - left.
  - apply map_Forall_empty.
  - by apply session_payloads_admissible.
Defined.

Lemma full_commit_archives_witness :
  let s' := store (cache (run_all run_call (sample_calls ++ [CCommit])
                            (open_full false (∅ : ProofStore) ∅)).1) in
  let hist' := maps_of sample_calls ∅ ++ [∅] in
  full_store sample_payloads 7 hist' s' ∧
  ∀ x k, x ∈ hist' → valid_map x → (trie_get k (open_full true s' x)).2 = get_spec k x.
Proof.
  apply (full_commit_archives sample_payloads sample_collision_free false true 7 sample_calls [∅]).
  - apply empty_full_store. vm_compute. reflexivity.
  - left.
  - apply map_Forall_empty.
  - by apply session_payloads_admissible.
Defined.
End sample.
