(* ===== verification/MptBinding.v ===== *)
(** * The root hash commits to the map

    Two maps with the same root hash are equal, unless the hash function
    collides on the nodes of their trees. *)
From S2P Require Import Prelude Primitives Io MptNode MptNodeFacts MptCache MptTrie MptSpec.
From S2P Require Import MptCacheFacts MptCommitFacts MptRefine MptModes MptFinal MptMap MptOps MptPrune Sha256 Instances.
Import NodeType Node.

Section binding.
Context `{Crypto}.
Implicit Types (t : mpt) (m : kvmap).

(** Equal payloads, equal stored nodes. *)
Lemma payload_stored t1 t2 :
  limit t1 → limit t2 → tempty t1 = false → tempty t2 = false → mpayload t1 = mpayload t2 →
  stored_of t1 1 = stored_of t2 1.
Proof.
  intros Hl1 Hl2 Ht1 Ht2 E. apply row_state_inj; [by apply stored_of_canonical..|].
  by rewrite !stored_of_row, E, (tree_type_payload t1 t2 E).
Qed.

(** Children equal in stored form are equal. *)
Lemma stored_kid_inj t1 t2 :
  stored_kid t1 = stored_kid t2 →
  (tempty t1 = false → tempty t2 = false → mhash t1 = mhash t2 → t1 = t2) → t1 = t2.
Proof.
  unfold stored_kid. intros E IH. destruct (tempty t1) eqn:Ht1, (tempty t2) eqn:Ht2; try done.
  - by destruct t1, t2.
  - apply IH; [done..|]. apply (inj Some). exact (f_equal hash_cell E).
Qed.

Lemma subtrees_branch ts i t : ts !! i = Some t → ∀ s, s ∈ subtrees t → s ∈ subtrees (TBranch ts).
Proof.
  intros Ht s Hs. right. apply elem_of_concat. eexists. split; [exact Hs|].
  by apply list_elem_of_fmap_2, list_elem_of_lookup_2 with i.
Qed.

Lemma payloads_mono (f1 f2 g1 g2 : list mpt) :
  (∀ s, s ∈ f1 → s ∈ g1) → (∀ s, s ∈ f2 → s ∈ g2) →
  collision_free digest (mpayload <$> g1 ++ g2) → collision_free digest (mpayload <$> f1 ++ f2).
Proof.
  intros H1 H2. apply collision_free_mono. intros p (s & -> & Hs)%list_elem_of_fmap.
  apply list_elem_of_fmap_2, elem_of_app. apply elem_of_app in Hs as [?|?]; auto.
Qed.

Lemma hash_binds t1 t2 :
  Forall limit (subtrees t1) → Forall limit (subtrees t2) → tempty t1 = false → tempty t2 = false →
  collision_free digest (mpayload <$> subtrees t1 ++ subtrees t2) → mhash t1 = mhash t2 → t1 = t2.
Proof.
  revert t2. induction t1 as [|v|k t1 IH|ts1 IH] using mpt_induction; intros t2 Hl1 Hl2 Ht1 Ht2 Hcf Eh;
    [done|..];
    (assert (mpayload _ = mpayload t2) as Ep by
      (apply Hcf; [apply list_elem_of_fmap_2, elem_of_app; left; by apply subtrees_self
                  |apply list_elem_of_fmap_2, elem_of_app; right; by apply subtrees_self|exact Eh]));
    rewrite Forall_forall in Hl1, Hl2;
    pose proof (payload_stored _ t2 (Hl1 _ (subtrees_self _ Ht1)) (Hl2 _ (subtrees_self _ Ht2)) Ht1 Ht2 Ep)
      as Es.
  - destruct t2 as [|v2|k2 t2|ts2]; try done. by injection Es as ->.
  - destruct t2 as [|v2|k2 t2|ts2]; try done. pose proof (f_equal key Es) as Ek. cbn in Ek. subst k2. f_equal.
    apply stored_kid_inj; [apply (inj Some); exact (f_equal next Es)|]. intros. apply IH; try done.
    + apply Forall_forall. intros s Hs. apply Hl1. by right.
    + apply Forall_forall. intros s Hs. apply Hl2. by right.
    + eapply payloads_mono; [..|exact Hcf]; intros s Hs; by right.
  - destruct t2 as [|v2|k2 t2|ts2]; try done. pose proof (f_equal children Es) as Ek. cbn [stored_of children] in Ek.
    f_equal. apply list_eq. intros i. rewrite Forall_lookup in IH.
    pose proof (f_equal (.!! i) Ek) as Ei. rewrite !list_lookup_fmap in Ei.
    destruct (ts1 !! i) as [t1|] eqn:E1, (ts2 !! i) as [t2|] eqn:E2; try done. f_equal.
    apply stored_kid_inj; [by apply (inj Some)|]. intros. apply (IH i t1 E1); try done.
    + apply Forall_forall. intros s Hs. by eapply Hl1, subtrees_branch.
    + apply Forall_forall. intros s Hs. by eapply Hl2, subtrees_branch.
    + eapply payloads_mono; [..|exact Hcf]; intros s Hs; by eapply subtrees_branch.
Qed.

(** Equal roots, equal maps. *)
Lemma root_of_inj m1 m2 :
  valid_map m1 → valid_map m2 →
  collision_free digest (mpayload <$> subtrees (tree_of m1) ++ subtrees (tree_of m2)) →
  root_of m1 = root_of m2 → m1 = m2.
Proof.
  intros Hv1 Hv2 Hcf E. assert (tree_of m1 = tree_of m2) as Et.
  { unfold root_of in E. destruct (tempty (tree_of m1)) eqn:H1, (tempty (tree_of m2)) eqn:H2; try done.
    - by destruct (tree_of m1), (tree_of m2).
    - apply hash_binds; [by apply tree_of_limit..|done|done|done|]. by apply (inj Some). }
  apply map_eq. intros k. by rewrite <-!tree_of_lookup, Et.
Qed.
End binding.

Section state.
Context `{Crypto} `{LawfulStore St}.
Implicit Types (s : St) (m : kvmap).
#[local] Existing Instance pruning_mode.

(** What a trie answers determines its map. *)
Lemma gets_inj F1 F2 (T1 T2 : Trie (St := St)) m1 m2 :
  pruned_trie F1 T1 m1 → pruned_trie F2 T2 m2 →
  (∀ k, (trie_get k T1).2 = (trie_get k T2).2) ↔ m1 = m2.
Proof.
  intros Hp1 Hp2. assert (∀ F T m, pruned_trie F T m → ∀ k,
    (trie_get k T).2 = if valid_key k then Ok (m !! k) else Err Key) as Hget.
  { intros F T m HT k. by destruct (get_sim 0 F T m k HT) as (? & -> & _). }
  split; [|intros ->; intros k; by rewrite (Hget _ _ _ Hp1), (Hget _ _ _ Hp2)].
  intros E. apply map_eq. intros k. specialize (E k). rewrite (Hget _ _ _ Hp1), (Hget _ _ _ Hp2) in E.
  destruct (valid_key k) eqn:Hk; [by injection E|].
  destruct (m1 !! k) as [v|] eqn:E1; [by destruct (sim_valid _ _ _ _ Hp1 k v E1) as [? _]; congruence|].
  destruct (m2 !! k) as [v|] eqn:E2; [by destruct (sim_valid _ _ _ _ Hp2 k v E2) as [? _]; congruence|done].
Qed.

(** (C23) The state root commits to the whole state, and to nothing else.  Take
    two tries, each opened on a store of its own and driven through any sequence
    of calls: their root hashes are equal if and only if the two tries answer
    every lookup alike, unless two distinct nodes of their trees exhibit a
    collision of the hash function. *)
Theorem root_binds_state F1 F2 batch1 batch2 s1 s2 m1 m2 os1 os2 :
  pruned_store F1 s1 m1 → valid_map m1 → finalizable_at F1 os1 m1 →
  pruned_store F2 s2 m2 → valid_map m2 → finalizable_at F2 os2 m2 →
  collision_free digest (mpayload <$> subtrees (tree_of (run_all spec_call os1 m1).1) ++
                                      subtrees (tree_of (run_all spec_call os2 m2).1)) →
  let T1 := (run_all run_call os1 (open_trie batch1 s1 m1)).1 in
  let T2 := (run_all run_call os2 (open_trie batch2 s2 m2)).1 in
  root_hash T1 = root_hash T2 ↔ ∀ k, (trie_get k T1).2 = (trie_get k T2).2.
Proof.
  intros Hs1 Hm1 Hf1 Hs2 Hm2 Hf2 Hcf. cbv zeta.
  destruct (session_prune F1 os1 _ m1 (open_trie_ok F1 batch1 s1 m1 Hs1 Hm1) Hf1) as [_ Hp1].
  destruct (session_prune F2 os2 _ m2 (open_trie_ok F2 batch2 s2 m2 Hs2 Hm2) Hf2) as [_ Hp2].
  rewrite (gets_inj _ _ _ _ _ _ Hp1 Hp2), (root_hash_sim _ _ _ _ Hp1), (root_hash_sim _ _ _ _ Hp2).
  split; [|by intros ->]. apply root_of_inj; [exact (sim_valid _ _ _ _ Hp1)|exact (sim_valid _ _ _ _ Hp2)|done].
Qed.
End state.

Section sample.
#[local] Existing Instance sha256_crypto.
#[local] Open Scope string_scope.

(** The same entries inserted in two orders, one of them with a detour. *)
Definition calls1 : list call :=
  [CPut (bytes_of_string "ac01") [x01]; CPut (bytes_of_string "ac02") [x02]; CCommit].
Definition calls2 : list call :=
  [CPut (bytes_of_string "ac02") [x02]; CPut (bytes_of_string "ad") [x03]; CCheckpoint;
   CPut (bytes_of_string "ac01") [x01]; CDelete (bytes_of_string "ad")].

Lemma same_roots :
  root_hash (run_all run_call calls1 (open_trie false (∅ : ProofStore) ∅)).1 =
  root_hash (run_all run_call calls2 (open_trie true (∅ : ProofStore) ∅)).1.
Proof. vm_compute. reflexivity. Qed.
Lemma root_binds_state_witness :
  root_hash (run_all run_call calls1 (open_trie false (∅ : ProofStore) ∅)).1 =
    root_hash (run_all run_call calls2 (open_trie true (∅ : ProofStore) ∅)).1 ∧
  ∀ k, (trie_get k (run_all run_call calls1 (open_trie false (∅ : ProofStore) ∅)).1).2 =
       (trie_get k (run_all run_call calls2 (open_trie true (∅ : ProofStore) ∅)).1).2.
Proof.
  split; [exact same_roots|]. generalize same_roots. apply (root_binds_state [] [] false true ∅ ∅ ∅ ∅ calls1 calls2).
  - exact sample_store.
  - apply map_Forall_empty.
  - apply finalizable_atb_spec. vm_compute. reflexivity.
  - exact sample_store.
  - apply map_Forall_empty.
  - apply finalizable_atb_spec. vm_compute. reflexivity.
  - apply collision_freeb_spec. vm_compute. reflexivity.
Defined.
End sample.
