(* ===== verification/RootAudit.v ===== *)
(** * Validation of a persisted root graph

    [validate_persisted_root_graph] of src/neo-trie/src/mpt/root_validation.rs:
    a bounded depth-first walk, with an explicit stack, of the node rows
    reachable from a root.  It succeeds exactly when the rows form a finite
    acyclic graph of well-formed nodes within the limits. *)
From S2P Require Import Prelude Primitives Order Io MptNode MptNodeFacts MptCache.
Import NodeType Node NodeCodec.

Record PersistedMptGraphLimits := mkLimits {
  max_nodes : N;
  max_total_bytes : N;
  max_node_bytes : N;
}.

Definition limits_validate (l : PersistedMptGraphLimits) : Result MptError PersistedMptGraphLimits :=
  if (max_nodes l =? 0)%N then Err InvalidOperation
  else if (max_total_bytes l =? 0)%N then Err InvalidOperation
  else if (max_node_bytes l =? 0)%N then Err InvalidOperation
  else if (max_total_bytes l <? max_node_bytes l)%N then Err InvalidOperation
  else Ok l.

Record PersistedMptGraphReport := mkReport {
  unique_nodes : N;
  total_bytes : N;
  branch_nodes : N;
  extension_nodes : N;
  leaf_nodes : N;
}.
Definition report_default : PersistedMptGraphReport := mkReport 0 0 0 0 0.

Inductive VisitState := Active | Complete.
#[export] Instance VisitState_eq_dec : EqDecision VisitState.
Proof. solve_decision. Defined.

Inductive TraversalStep :=
| Enter (h : UInt256.t)
| Children (parent : UInt256.t) (children : list UInt256.t) (next : nat).

(** [checked_add] on [u64]. *)
Definition checked_add (a b : N) : option N :=
  if (u64_max <? a + b)%N then None else Some (a + b)%N.

(** [record]: counts the node by its kind. *)
Definition record (ty : NodeType.t) (r : PersistedMptGraphReport)
    : Result MptError PersistedMptGraphReport :=
  let bump n k := match checked_add n 1 with Some n => Ok (k n) | None => Err InvalidOperation end in
  match ty with
  | BranchNode => bump (branch_nodes r)
      (λ n, mkReport (unique_nodes r) (total_bytes r) n (extension_nodes r) (leaf_nodes r))
  | ExtensionNode => bump (extension_nodes r)
      (λ n, mkReport (unique_nodes r) (total_bytes r) (branch_nodes r) n (leaf_nodes r))
  | LeafNode => bump (leaf_nodes r)
      (λ n, mkReport (unique_nodes r) (total_bytes r) (branch_nodes r) (extension_nodes r) n)
  | HashNode | Empty => Err InvalidOperation
  end.

Section audit.
Context `{Crypto}.

Definition child_hash (c : Node.t) : Result MptError (list UInt256.t) :=
  match node_type c with
  | HashNode => h ← try_hash c; Ok [h]
  | Empty => Ok []
  | BranchNode | ExtensionNode | LeafNode => Err InvalidOperation
  end.

(** The fold over a branch's children. *)
Fixpoint children_hashes (cs : list Node.t) : Result MptError (list UInt256.t) :=
  match cs with
  | [] => Ok []
  | c :: cs => h ← child_hash c; hs ← children_hashes cs; Ok (h ++ hs)
  end.

Definition child_hashes (n : Node.t) : Result MptError (list UInt256.t) :=
  match node_type n with
  | BranchNode => children_hashes (children n)
  | ExtensionNode =>
      match next n with
      | None => Err InvalidOperation
      | Some c => child_hash c
      end
  | LeafNode => Ok []
  | HashNode | Empty => Err InvalidOperation
  end.

(** The local state of [validate_graph]. *)
Record Graph := mkGraph {
  g_states : gmap UInt256.t VisitState;
  g_steps : list TraversalStep;
  g_report : PersistedMptGraphReport;
}.

Section graph.
Context (limits : PersistedMptGraphLimits).
(** [load hash remaining_bytes]: the node and the length of its row. *)
Context (load : UInt256.t → N → Result MptError (Node.t * N)).

Definition enter (h : UInt256.t) (steps : list TraversalStep) (g : Graph) : Result MptError Graph :=
  match g_states g !! h with
  | Some Active => Err InvalidOperation
  | Some Complete => Ok (mkGraph (g_states g) steps (g_report g))
  | None =>
      let r := g_report g in
      if (max_nodes limits <=? unique_nodes r)%N then Err InvalidOperation
      else
        '(n, byte_len) ← load h (max_total_bytes limits - total_bytes r)%N;
        match checked_add (total_bytes r) byte_len with
        | None => Err InvalidOperation
        | Some next_total =>
            if (max_total_bytes limits <? next_total)%N then Err InvalidOperation
            else
              r ← record (node_type n)
                    (mkReport (unique_nodes r + 1) next_total (branch_nodes r) (extension_nodes r)
                       (leaf_nodes r));
              cs ← child_hashes n;
              Ok (mkGraph (<[h := Active]> (g_states g)) (Children h cs 0 :: steps) r)
        end
  end.

Definition visit_children (parent : UInt256.t) (cs : list UInt256.t) (next : nat)
    (steps : list TraversalStep) (g : Graph) : Result MptError Graph :=
  match cs !! next with
  | None =>
      match g_states g !! parent with
      | Some Active => Ok (mkGraph (<[parent := Complete]> (g_states g)) steps (g_report g))
      | Some Complete | None => Err InvalidOperation
      end
  | Some child =>
      let steps := Children parent cs (next + 1) :: steps in
      match g_states g !! child with
      | Some Active => Err InvalidOperation
      | Some Complete => Ok (mkGraph (g_states g) steps (g_report g))
      | None => Ok (mkGraph (g_states g) (Enter child :: steps) (g_report g))
      end
  end.

Definition step_of (step : TraversalStep) (steps : list TraversalStep) (g : Graph) : Result MptError Graph :=
  match step with
  | Enter h => enter h steps g
  | Children p cs nx => visit_children p cs nx steps g
  end.

(** The loop; one unit of fuel per iteration, [None] when the fuel runs out before
    the loop ends. *)
Fixpoint graph_loop (fuel : nat) (g : Graph) : option (Result MptError PersistedMptGraphReport) :=
  match g_steps g with
  | [] => Some (Ok (g_report g))
  | step :: steps =>
      match fuel with
      | O => None
      | S fuel =>
          match step_of step steps g with
          | Ok g => graph_loop fuel g
          | Err e => Some (Err e)
          end
      end
  end.

(** Each node is entered once and its at most seventeen children looked at
    twice. *)
Definition graph_fuel : nat := S (36 * N.to_nat (max_nodes limits)).

Definition validate_graph (root : UInt256.t) : Result MptError PersistedMptGraphReport :=
  default (Err Diverged) (graph_loop graph_fuel (mkGraph ∅ [Enter root] report_default)).
End graph.

Definition load_row `{MptStoreSnapshot St} (s : St) (limits : PersistedMptGraphLimits)
    (h : UInt256.t) (remaining_bytes : N) : Result MptError (Node.t * N) :=
  r ← try_get s (node_key_bytes MPT_NODE_PREFIX h);
  match r with
  | None => Err Storage
  | Some bs =>
      let byte_len := len bs in
      if (max_node_bytes limits <? byte_len)%N then Err InvalidOperation
      else if (remaining_bytes <? byte_len)%N then Err InvalidOperation
      else n ← deserialize_persisted bs h; Ok (n, byte_len)
  end.

Definition validate_persisted_root_graph `{MptStoreSnapshot St} (s : St) (root : UInt256.t)
    (limits : PersistedMptGraphLimits) : Result MptError PersistedMptGraphReport :=
  limits ← limits_validate limits;
  validate_graph limits (load_row s limits) root.
End audit.
