(* ===== verification/RootAuditFacts.v ===== *)
(** * The root audit is exact

    Invariant of the depth-first walk of RootAudit.v, its termination, and the
    equivalence of success with a specification of the reachable graph. *)
From S2P Require Import Prelude Primitives Order Io MptNode MptNodeFacts MptCache RootAudit.
Import NodeType Node NodeCodec.

(** ** Reports *)

Section reports.
Context (row_at : UInt256.t → option (Node.t * N * list UInt256.t)).
Implicit Types (h p : UInt256.t) (X : gset UInt256.t).

(** What a node adds to the report. *)
Definition add_row h (r : PersistedMptGraphReport) : PersistedMptGraphReport :=
  match row_at h with
  | Some (n, l, _) =>
      let one ty := if bool_decide (node_type n = ty) then 1%N else 0%N in
      mkReport (unique_nodes r + 1) (total_bytes r + l) (branch_nodes r + one BranchNode)
        (extension_nodes r + one ExtensionNode) (leaf_nodes r + one LeafNode)
  | None => r
  end.
Definition report_of X : PersistedMptGraphReport := foldr add_row report_default (elements X).

Lemma add_row_comm h p r : add_row h (add_row p r) = add_row p (add_row h r).
Proof.
  unfold add_row. destruct (row_at h) as [[[n l] ks]|], (row_at p) as [[[n' l'] ks']|]; [|done..].
  cbn. f_equal; lia.
Qed.

Lemma report_of_insert X h : h ∉ X → report_of ({[h]} ∪ X) = add_row h (report_of X).
Proof.
  intros Hh. unfold report_of.
  by rewrite (foldr_permutation_proper eq add_row report_default add_row_comm _ _
    (elements_union_singleton X h Hh)).
Qed.

Lemma report_of_empty : report_of ∅ = report_default.
Proof. unfold report_of. by rewrite elements_empty. Qed.

(** All rows are there: the report counts them. *)
Definition rows_in X : Prop := ∀ h, h ∈ X → is_Some (row_at h).

Lemma report_counts X : rows_in X → unique_nodes (report_of X) = N.of_nat (size X) ∧
  (branch_nodes (report_of X) ≤ unique_nodes (report_of X))%N ∧
  (extension_nodes (report_of X) ≤ unique_nodes (report_of X))%N ∧
  (leaf_nodes (report_of X) ≤ unique_nodes (report_of X))%N.
Proof.
  induction X as [|h X Hh IH] using set_ind_L; intros Hx.
  { rewrite report_of_empty, size_empty. done. }
  destruct IH as (IH1 & IH2 & IH3 & IH4); [intros p Hp; apply Hx; set_solver|].
  rewrite report_of_insert by done. unfold add_row. destruct (Hx h) as [[[n l] ks] ->]; [set_solver|].
  cbn [unique_nodes branch_nodes extension_nodes leaf_nodes].
  rewrite size_union, size_singleton by set_solver. repeat split; repeat case_bool_decide; lia.
Qed.

Lemma report_total_mono X Y : X ⊆ Y → (total_bytes (report_of X) ≤ total_bytes (report_of Y))%N.
Proof.
  intros Hsub. replace Y with (Y ∖ X ∪ X) by (rewrite difference_union_L; set_solver).
  assert ((Y ∖ X) ## X) as Hd by set_solver. revert Hd. generalize (Y ∖ X). clear Y Hsub. intros Z.
  induction Z as [|h Z Hh IH] using set_ind_L; intros Hd; [by rewrite union_empty_l_L|].
  rewrite <-union_assoc_L, report_of_insert by set_solver. unfold add_row.
  specialize (IH ltac:(set_solver)). destruct (row_at h) as [[[n l] ks]|]; cbn; lia.
Qed.

End reports.

(** ** The walk *)

Section facts.
Context `{Crypto} (limits : PersistedMptGraphLimits).
Context (load : UInt256.t → N → Result MptError (Node.t * N)).
Implicit Types (h p : UInt256.t) (g : Graph) (X : gset UInt256.t).

(** The row of a hash: its node, its length and its children. *)
Context (row_at : UInt256.t → option (Node.t * N * list UInt256.t)).
Context (row_at_ok : ∀ h n l ks, row_at h = Some (n, l, ks) →
  materialized (node_type n) = true ∧ child_hashes n = Ok ks ∧ (length ks ≤ BRANCH_CHILD_COUNT)%nat).
Context (load_ok : ∀ h rem n l, load h rem = Ok (n, l) ↔
  (∃ ks, row_at h = Some (n, l, ks)) ∧ (l ≤ max_node_bytes limits)%N ∧ (l ≤ rem)%N).
Context (limits_u64 : (max_nodes limits ≤ u64_max)%N ∧ (max_total_bytes limits ≤ u64_max)%N).
Context (root : UInt256.t).

Definition kids_at h : list UInt256.t := match row_at h with Some (_, _, ks) => ks | None => [] end.

Inductive reach : UInt256.t → Prop :=
| reach_root : reach root
| reach_kid h c : reach h → c ∈ kids_at h → reach c.

(** [X] is the acyclic graph reachable from the root, within the limits. *)
Record audited X : Prop := {
  au_root : root ∈ X;
  au_rows h : h ∈ X → ∃ n l ks, row_at h = Some (n, l, ks) ∧ (l ≤ max_node_bytes limits)%N ∧
    ∀ c, c ∈ ks → c ∈ X;
  au_reach h : h ∈ X → reach h;
  au_acyclic : ∃ rank : UInt256.t → nat, ∀ h c, h ∈ X → c ∈ kids_at h → (rank c < rank h)%nat;
  au_nodes : (N.of_nat (size X) ≤ max_nodes limits)%N;
  au_bytes : (total_bytes (report_of row_at X) ≤ max_total_bytes limits)%N;
}.

(** ** The invariant *)

Section invariant.
Context (st : gmap UInt256.t VisitState).

Definition complete h : Prop := st !! h = Some Complete.

Definition parents (fs : list TraversalStep) : list UInt256.t :=
  omap (λ f, match f with Children p _ _ => Some p | Enter _ => None end) fs.

(** A stack of open nodes.  [above] is the node being entered on top of it;
    the children passed by are complete. *)
Fixpoint stack_ok (above : option UInt256.t) (fs : list TraversalStep) : Prop :=
  match fs with
  | [] => match above with Some c => c = root | None => complete root end
  | Enter _ :: _ => False
  | Children p ks nx :: fs =>
      (∃ n l, row_at p = Some (n, l, ks)) ∧ st !! p = Some Active ∧
      (∃ done, (∀ j c, (j < done)%nat → ks !! j = Some c → complete c) ∧
         match above with
         | Some c => nx = S done ∧ ks !! done = Some c
         | None => nx = done
         end) ∧
      stack_ok (Some p) fs
  end.

Definition top_ok (fs : list TraversalStep) : Prop :=
  match fs with
  | Enter c :: fs => st !! c = None ∧ reach c ∧ stack_ok (Some c) fs
  | _ => stack_ok None fs
  end.
End invariant.

Record inv g : Prop := {
  inv_stack : top_ok (g_states g) (g_steps g);
  inv_nodup : NoDup (parents (g_steps g));
  inv_active h : g_states g !! h = Some Active → h ∈ parents (g_steps g);
  inv_rows h : is_Some (g_states g !! h) → ∃ n l ks, row_at h = Some (n, l, ks) ∧
    (l ≤ max_node_bytes limits)%N ∧ reach h;
  inv_complete : ∃ (rank : UInt256.t → nat) b, ∀ h, complete (g_states g) h →
    (rank h < b)%nat ∧ ∀ c, c ∈ kids_at h → complete (g_states g) c ∧ (rank c < rank h)%nat;
  inv_report : g_report g = report_of row_at (dom (g_states g));
  inv_bytes : (total_bytes (g_report g) ≤ max_total_bytes limits)%N;
  inv_nodes : (unique_nodes (g_report g) ≤ max_nodes limits)%N;
}.

Lemma dom_rows g : inv g → rows_in row_at (dom (g_states g)).
Proof. intros Hi h Hh%elem_of_dom. destruct (inv_rows g Hi h Hh) as (? & ? & ? & -> & _). eauto. Qed.

Lemma unique_dom g : inv g → unique_nodes (g_report g) = N.of_nat (size (dom (g_states g))).
Proof. intros Hi. rewrite (inv_report g Hi). by apply report_counts, dom_rows. Qed.

Lemma inv_init : inv (mkGraph ∅ [Enter root] report_default).
Proof.
  split; cbn.
  - split_and!; [done|constructor|done].
  - constructor.
  - intros h. by rewrite lookup_empty.
  - intros h [? Hh]. by rewrite lookup_empty in Hh.
  - exists (λ _, 0%nat), 0%nat. intros h Hh. unfold complete in Hh. by rewrite lookup_empty in Hh.
  - by rewrite dom_empty_L, report_of_empty.
  - lia.
  - lia.
Qed.

(** Frames do not see states of hashes outside the stack. *)
Lemma stack_ok_mono st st' above fs :
  (∀ h, complete st h → complete st' h) →
  (∀ h, h ∈ parents fs → st' !! h = st !! h) →
  stack_ok st above fs → stack_ok st' above fs.
Proof.
  intros Hc. revert above. induction fs as [|[c|p ks nx] fs IH]; intros above Hp; cbn [stack_ok].
  - destruct above; [done|]. apply Hc.
  - done.
  - intros (Hrow & Hact & (d & Hd & Hab) & Hfs). cbn [parents omap list_omap] in Hp.
    split_and!; [done|by rewrite Hp by left|exists d; split; [by eauto|done]|].
    apply IH; [|done]. intros h Hh. apply Hp. by right.
Qed.

(** Once the node above is complete, the frame below moves on. *)
Lemma stack_ok_done st c fs : stack_ok st (Some c) fs → complete st c → stack_ok st None fs.
Proof.
  destruct fs as [|[?|p ks nx] fs]; cbn [stack_ok]; [by intros ->|done|].
  intros (Hrow & Hact & (d & Hd & -> & Hc) & Hfs) Hcc. split_and!; [done..| |done].
  exists (S d). split; [|done]. intros j x Hj Hx. destruct (decide (j = d)) as [->|]; [congruence|].
  apply (Hd j); [lia|done].
Qed.

Lemma stack_ok_active st above fs p : stack_ok st above fs → p ∈ parents fs → st !! p = Some Active.
Proof.
  revert above. induction fs as [|[c|x ks nx] fs IH]; intros above; cbn [stack_ok].
  - intros _ Hin. by apply not_elem_of_nil in Hin.
  - done.
  - intros (_ & Ha & _ & Hfs) Hin. cbn [parents omap list_omap] in Hin.
    apply elem_of_cons in Hin as [->|Hin]; [done|]. by eapply IH.
Qed.

(** ** One iteration *)

Definition tally_row h r : Result MptError PersistedMptGraphReport :=
  match row_at h with
  | Some (n, l, _) =>
      record (node_type n) (mkReport (unique_nodes r + 1) (total_bytes r + l) (branch_nodes r)
        (extension_nodes r) (leaf_nodes r))
  | None => Err Storage
  end.

Lemma tally_row_add h r r' : tally_row h r = Ok r' → r' = add_row row_at h r.
Proof.
  unfold tally_row, add_row. destruct (row_at h) as [[[n l] ks]|]; [|done].
  unfold record, checked_add. destruct (node_type n); cbn; try done;
    case_match eqn:E; try done; case_match; simplify_eq; cbn; intros [= <-];
    repeat (first [rewrite bool_decide_true by done|rewrite bool_decide_false by done]); f_equal; lia.
Qed.

Lemma tally_row_ok h r n l ks :
  row_at h = Some (n, l, ks) →
  (branch_nodes r < u64_max ∧ extension_nodes r < u64_max ∧ leaf_nodes r < u64_max)%N →
  ∃ r', tally_row h r = Ok r'.
Proof.
  intros Hrow (H1 & H2 & H3). unfold tally_row. rewrite Hrow.
  destruct (row_at_ok _ _ _ _ Hrow) as (Hm & _). unfold record, checked_add.
  destruct (node_type n); try done; cbn [branch_nodes extension_nodes leaf_nodes];
    rewrite (proj2 (N.ltb_ge _ _)) by lia; by eexists.
Qed.

(** What a successful [enter] of a new node found and did. *)
Lemma enter_new_inv h fs g g' :
  g_states g !! h = None → enter limits load h fs g = Ok g' →
  ∃ n l ks, row_at h = Some (n, l, ks) ∧ (l ≤ max_node_bytes limits)%N ∧
    (unique_nodes (g_report g) < max_nodes limits)%N ∧
    (total_bytes (g_report g) + l ≤ max_total_bytes limits)%N ∧
    g' = mkGraph (<[h := Active]> (g_states g)) (Children h ks 0 :: fs) (add_row row_at h (g_report g)).
Proof.
  intros Hn. unfold enter. rewrite Hn. cbv zeta. case_match eqn:Emax; [done|]. apply N.leb_gt in Emax.
  destruct (load h _) as [[n l]|] eqn:El; [|done]. cbn [mbind Result_bind].
  apply load_ok in El as ((ks & Hrow) & Hl & Hrem).
  destruct (checked_add _ l) as [nt|] eqn:Eadd; [|done]. unfold checked_add in Eadd.
  destruct (u64_max <? _)%N; [done|]. injection Eadd as <-. case_match eqn:Et; [done|]. apply N.ltb_ge in Et.
  destruct (record (node_type n) _) as [r'|] eqn:Er; [|done]. cbn [mbind Result_bind].
  destruct (row_at_ok _ _ _ _ Hrow) as (_ & -> & _). cbn [mbind Result_bind]. intros [= <-].
  exists n, l, ks. split_and!; [done..|]. f_equal. apply tally_row_add. unfold tally_row. by rewrite Hrow.
Qed.

Lemma enter_preserves h fs g g' :
  inv g → g_steps g = Enter h :: fs → enter limits load h fs g = Ok g' → inv g'.
Proof.
  intros Hi Hsteps Hrun. pose proof (inv_stack g Hi) as Hst. rewrite Hsteps in Hst.
  destruct Hst as (Hn & Hr & Hst).
  destruct (enter_new_inv h fs g g' Hn Hrun) as (n & l & ks & Hrow & Hl & Hmax & Htot & ->).
  pose proof (unique_dom g Hi) as Hu. pose proof (inv_nodup g Hi) as Hnd. pose proof (inv_active g Hi) as Hact.
  rewrite Hsteps in Hnd, Hact. cbn [parents omap list_omap] in Hnd, Hact.
  assert (h ∉ dom (g_states g)) as Hdom by (by apply not_elem_of_dom).
  assert (h ∉ parents fs) as Hnp.
  { intros Hin. pose proof (stack_ok_active _ _ _ _ Hst Hin). congruence. }
  split; cbn [g_steps g_states g_report].
  - cbn [stack_ok]. split_and!; [by eauto|by rewrite lookup_insert_eq| |].
    + exists 0%nat. split; [lia|done].
    + eapply stack_ok_mono; [| |exact Hst].
      * intros x Hx. unfold complete in *. rewrite lookup_insert_ne; [done|]. congruence.
      * intros x Hx. rewrite lookup_insert_ne; [done|]. intros ->. done.
  - cbn [parents omap list_omap]. by constructor.
  - intros x Hx. cbn [parents omap list_omap]. destruct (decide (x = h)) as [->|Hne]; [by left|].
    rewrite lookup_insert_ne in Hx by done. right. by apply Hact.
  - intros x Hx. destruct (decide (x = h)) as [->|Hne]; [by eauto 10|].
    rewrite lookup_insert_ne in Hx by done. by apply (inv_rows g Hi).
  - destruct (inv_complete g Hi) as (rank & b & Hc). exists rank, b. intros x Hx.
    assert (∀ y, complete (<[h := Active]> (g_states g)) y ↔ complete (g_states g) y) as Heq.
    { intros y. unfold complete. destruct (decide (y = h)) as [->|]; [by rewrite lookup_insert_eq, Hn|].
      by rewrite lookup_insert_ne. }
    rewrite Heq in Hx. destruct (Hc x Hx) as [? Hk]. split; [done|]. intros c Hcx. rewrite Heq. by apply Hk.
  - rewrite dom_insert_L, report_of_insert by done. by rewrite <-(inv_report g Hi).
  - unfold add_row. rewrite Hrow. cbn. lia.
  - unfold add_row. rewrite Hrow. cbn. lia.
Qed.

Lemma stack_top st fs : stack_ok st None fs → top_ok st fs.
Proof. by destruct fs as [|[] ?]. Qed.

(** All children of the top node are complete: so is the node. *)
Lemma finish_preserves p ks nx fs g :
  inv g → g_steps g = Children p ks nx :: fs → ks !! nx = None →
  inv (mkGraph (<[p := Complete]> (g_states g)) fs (g_report g)).
Proof.
  intros Hi Hsteps Hnx. pose proof (inv_stack g Hi) as Hst. pose proof (inv_nodup g Hi) as Hnd.
  pose proof (inv_active g Hi) as Hact. rewrite Hsteps in Hst, Hnd, Hact.
  cbn [parents omap list_omap] in Hnd, Hact. apply NoDup_cons in Hnd as [Hp Hnd].
  destruct Hst as ((n & l & Hrow) & Ha & (d & Hd & ->) & Hst).
  assert (∀ x, complete (g_states g) x → complete (<[p := Complete]> (g_states g)) x) as Hmono.
  { intros x Hx. unfold complete in *. rewrite lookup_insert_ne by congruence. done. }
  split; cbn [g_steps g_states g_report].
  - apply stack_top, (stack_ok_done _ p); [|by unfold complete; rewrite lookup_insert_eq].
    eapply stack_ok_mono; [exact Hmono| |exact Hst]. intros x Hx. rewrite lookup_insert_ne; [done|]. by intros ->.
  - done.
  - intros x Hx. destruct (decide (x = p)) as [->|]; [by rewrite lookup_insert_eq in Hx|].
    rewrite lookup_insert_ne in Hx by done. by apply Hact in Hx as [->|]%elem_of_cons.
  - intros x Hx. apply (inv_rows g Hi). destruct (decide (x = p)) as [->|]; [by rewrite Ha|].
    by rewrite lookup_insert_ne in Hx.
  - destruct (inv_complete g Hi) as (rank & b & Hc).
    exists (λ x, if decide (x = p) then b else rank x), (S b). intros x Hx.
    destruct (decide (x = p)) as [->|Hxp].
    + split; [lia|]. unfold kids_at. rewrite Hrow. intros c [j Hj]%list_elem_of_lookup.
      apply lookup_lt_Some in Hj as Hlt. apply lookup_ge_None in Hnx.
      assert (complete (g_states g) c) as Hcc by (apply (Hd j); [lia|done]). split; [by apply Hmono|].
      destruct (decide (c = p)) as [->|]; [unfold complete in Hcc; congruence|]. by apply Hc.
    + unfold complete in Hx. rewrite lookup_insert_ne in Hx by done. destruct (Hc x Hx) as [? Hk].
      split; [lia|]. intros c Hcx. destruct (Hk c Hcx) as [Hcc ?]. split; [by apply Hmono|].
      destruct (decide (c = p)) as [->|]; [unfold complete in Hcc; congruence|done].
  - rewrite dom_insert_lookup_L by (by eexists). by apply inv_report.
  - by apply inv_bytes.
  - by apply inv_nodes.
Qed.

(** Moving on to the next child. *)
Lemma next_preserves p ks nx fs g c :
  inv g → g_steps g = Children p ks nx :: fs → ks !! nx = Some c →
  let fs' := Children p ks (nx + 1) :: fs in
  (g_states g !! c = Some Complete → inv (mkGraph (g_states g) fs' (g_report g))) ∧
  (g_states g !! c = None → inv (mkGraph (g_states g) (Enter c :: fs') (g_report g))).
Proof.
  intros Hi Hsteps Hnx fs'. pose proof (inv_stack g Hi) as Hst. rewrite Hsteps in Hst.
  destruct Hst as ((n & l & Hrow) & Ha & (d & Hd & ->) & Hst).
  pose proof (inv_nodup g Hi) as Hnd. pose proof (inv_active g Hi) as Hact. rewrite Hsteps in Hnd, Hact.
  split; intros Hc; (split; cbn [g_steps g_states g_report]; try by apply Hi); try done.
  - cbn [stack_ok]. split_and!; [by eauto|done| |done]. exists (S d). split; [|lia].
    intros j x Hj Hx. destruct (decide (j = d)) as [->|]; [by simplify_eq|]. apply (Hd j); [lia|done].
  - split_and!; [done| |].
    + apply (reach_kid p); [|unfold kids_at; rewrite Hrow; by eapply list_elem_of_lookup_2].
      destruct (inv_rows g Hi p) as (? & ? & ? & _ & _ & ?); [by rewrite Ha|done].
    + cbn [stack_ok]. split_and!; [by eauto|done| |done]. exists d. split; [done|]. split; [lia|done].
Qed.

Lemma children_preserves p ks nx fs g g' :
  inv g → g_steps g = Children p ks nx :: fs → visit_children p ks nx fs g = Ok g' → inv g'.
Proof.
  intros Hi Hsteps. unfold visit_children. destruct (ks !! nx) as [c|] eqn:Hnx.
  - destruct (next_preserves p ks nx fs g c Hi Hsteps Hnx) as [H1 H2]. cbv zeta.
    destruct (g_states g !! c) as [[]|]; intros [= <-]; auto.
  - destruct (g_states g !! p) as [[]|]; intros [= <-]. by eapply finish_preserves.
Qed.

(** ** Soundness *)

Lemma inv_audited g : inv g → g_steps g = [] → audited (dom (g_states g)) ∧ g_report g = report_of row_at (dom (g_states g)).
Proof.
  intros Hi Hsteps. split; [|by apply inv_report]. pose proof (inv_stack g Hi) as Hst. rewrite Hsteps in Hst.
  assert (∀ h, h ∈ dom (g_states g) → complete (g_states g) h) as Hall.
  { intros h [[] Hh]%elem_of_dom; [|done]. apply (inv_active g Hi) in Hh. rewrite Hsteps in Hh.
    by apply not_elem_of_nil in Hh. }
  destruct (inv_complete g Hi) as (rank & b & Hc). cbn [stack_ok] in Hst. split.
  - apply elem_of_dom. by eexists.
  - intros h Hh. destruct (inv_rows g Hi h) as (n & l & ks & Hrow & Hl & _); [by apply elem_of_dom|].
    exists n, l, ks. split_and!; [done..|]. intros c Hcx.
    destruct (Hc h (Hall h Hh)) as [_ Hk]. destruct (Hk c) as [Hcc _]; [by unfold kids_at; rewrite Hrow|].
    apply elem_of_dom. by eexists.
  - intros h Hh. by destruct (inv_rows g Hi h) as (? & ? & ? & _ & _ & ?); [by apply elem_of_dom|].
  - exists rank. intros h c Hh Hcx. by apply (Hc h (Hall h Hh)).
  - rewrite <-unique_dom by done. by apply inv_nodes.
  - rewrite <-(inv_report g Hi). by apply inv_bytes.
Qed.

Lemma step_preserves step fs g g' :
  inv g → g_steps g = step :: fs → step_of limits load step fs g = Ok g' → inv g'.
Proof. destruct step; [apply enter_preserves|apply children_preserves]. Qed.

Lemma graph_loop_sound fuel g r :
  inv g → graph_loop limits load fuel g = Some (Ok r) → ∃ X, audited X ∧ r = report_of row_at X.
Proof.
  revert g. induction fuel as [|fuel IH]; intros g Hi; cbn [graph_loop];
    destruct (g_steps g) as [|step fs] eqn:Hsteps; try done.
  1,2: intros [= <-]; eexists; by apply inv_audited.
  destruct (step_of limits load step fs g) as [g'|] eqn:Hrun; [|done]. apply IH. by eapply step_preserves.
Qed.

(** ** Termination *)

Definition weight (f : TraversalStep) : nat :=
  match f with Enter _ => 1 | Children _ ks nx => 2 * (length ks - nx) + 1 end.

(** What is left to do, at most. *)
Definition work g : nat :=
  sum_list_with weight (g_steps g) +
  36 * (N.to_nat (max_nodes limits) - N.to_nat (unique_nodes (g_report g))).

Lemma step_works step fs g g' :
  inv g → g_steps g = step :: fs → step_of limits load step fs g = Ok g' → (work g' < work g)%nat.
Proof.
  intros Hi Hsteps Hrun. unfold work. rewrite Hsteps. cbn [sum_list_with]. destruct step as [h|p ks nx]; cbn [step_of] in Hrun.
  - pose proof (inv_stack g Hi) as Hst. rewrite Hsteps in Hst. destruct Hst as (Hn & _).
    destruct (enter_new_inv h fs g g' Hn Hrun) as (n & l & ks & Hrow & _ & Hmax & _ & ->).
    cbn [g_steps g_report sum_list_with weight]. unfold add_row. rewrite Hrow. cbn [unique_nodes].
    destruct (row_at_ok _ _ _ _ Hrow) as (_ & _ & Hlen). unfold BRANCH_CHILD_COUNT in Hlen. lia.
  - unfold visit_children in Hrun. destruct (ks !! nx) as [c|] eqn:Hnx.
    + apply lookup_lt_Some in Hnx. cbv zeta in Hrun.
      destruct (g_states g !! c) as [[]|]; simplify_eq; cbn [g_steps g_report sum_list_with weight]; lia.
    + destruct (g_states g !! p) as [[]|]; simplify_eq. cbn [g_steps g_report weight]. lia.
Qed.

(** The loop ends within the work left, and more fuel changes nothing. *)
Lemma graph_loop_ends fuel g :
  inv g → (work g ≤ fuel)%nat → ∃ res, ∀ k, graph_loop limits load (fuel + k) g = Some res.
Proof.
  revert g. induction fuel as [|fuel IH]; intros g Hi Hw; destruct (g_steps g) as [|step fs] eqn:Hsteps.
  - exists (Ok (g_report g)). intros []; cbn; by rewrite Hsteps.
  - unfold work in Hw. rewrite Hsteps in Hw. destruct step; cbn in Hw; lia.
  - exists (Ok (g_report g)). intros k. cbn. by rewrite Hsteps.
  - cbn [Nat.add graph_loop]. rewrite Hsteps. destruct (step_of limits load step fs g) as [g'|e] eqn:Hrun; [|by exists (Err e)].
    apply IH; [by eapply step_preserves|]. pose proof (step_works step fs g g' Hi Hsteps Hrun). lia.
Qed.

Lemma work_init : (work (mkGraph ∅ [Enter root] report_default) = graph_fuel limits)%nat.
Proof. unfold work, graph_fuel. cbn. lia. Qed.

(** ** Completeness *)

Lemma reach_audited X h : audited X → reach h → h ∈ X.
Proof.
  intros Ha. induction 1 as [|h c Hh IH Hc]; [apply Ha|].
  destruct (au_rows X Ha h IH) as (n & l & ks & Hrow & _ & Hk). unfold kids_at in Hc. rewrite Hrow in Hc. auto.
Qed.

Lemma audited_unique X Y : audited X → audited Y → X = Y.
Proof.
  intros HX HY. apply set_eq. intros h.
  split; intros Hh; [apply (reach_audited Y), (au_reach X)|apply (reach_audited X), (au_reach Y)]; done.
Qed.

(** Ranks grow towards the bottom of the stack. *)
Lemma stack_rank st (rank : UInt256.t → nat) c fs p :
  (∀ h x, h ∈ parents fs → x ∈ kids_at h → (rank x < rank h)%nat) →
  stack_ok st (Some c) fs → p ∈ parents fs → (rank c < rank p)%nat.
Proof.
  revert c. induction fs as [|[x|q ks nx] fs IH]; intros c Hrank; cbn [stack_ok].
  - intros _ Hin. by apply not_elem_of_nil in Hin.
  - done.
  - intros ((n & l & Hrow) & _ & (d & _ & _ & Hd) & Hfs) Hin. cbn [parents omap list_omap] in Hin, Hrank.
    assert (rank c < rank q)%nat as Hcq.
    { apply Hrank; [left|]. unfold kids_at. rewrite Hrow. by eapply list_elem_of_lookup_2. }
    apply elem_of_cons in Hin as [->|Hin]; [done|]. etrans; [done|]. apply IH; [|done..].
    intros h x Hh. apply Hrank. by right.
Qed.

Lemma enter_progress X h fs g :
  audited X → inv g → g_steps g = Enter h :: fs → ∃ g', enter limits load h fs g = Ok g'.
Proof.
  intros Ha Hi Hsteps. pose proof (inv_stack g Hi) as Hst. rewrite Hsteps in Hst. destruct Hst as (Hn & Hr & _).
  pose proof (unique_dom g Hi) as Hu. assert (h ∈ X) as Hx by (by apply reach_audited).
  destruct (au_rows X Ha h Hx) as (n & l & ks & Hrow & Hl & _).
  assert (h ∉ dom (g_states g)) as Hdom by (by apply not_elem_of_dom).
  assert ({[h]} ∪ dom (g_states g) ⊆ X) as Hsub.
  { intros x [->%elem_of_singleton|Hin%elem_of_dom]%elem_of_union; [done|].
    apply reach_audited; [done|]. by destruct (inv_rows g Hi x Hin) as (? & ? & ? & _ & _ & ?). }
  pose proof (subseteq_size _ _ Hsub) as Hsize. rewrite size_union, size_singleton in Hsize by set_solver.
  pose proof (au_nodes X Ha). pose proof (au_bytes X Ha).
  pose proof (report_total_mono row_at _ _ Hsub) as Htot. rewrite report_of_insert in Htot by done.
  unfold add_row in Htot. rewrite Hrow in Htot. cbn [total_bytes] in Htot. rewrite <-(inv_report g Hi) in Htot.
  destruct limits_u64 as [Hl1 Hl2].
  unfold enter. rewrite Hn. cbv zeta. rewrite (proj2 (N.leb_gt _ _)) by lia.
  rewrite (proj2 (load_ok h _ n l)) by (split_and!; [by eexists|done|lia]). cbn [mbind Result_bind].
  unfold checked_add. rewrite (proj2 (N.ltb_ge _ _)) by lia. rewrite (proj2 (N.ltb_ge _ _)) by lia.
  destruct (report_counts row_at (dom (g_states g)) (dom_rows g Hi)) as (_ & Hb & He & Hf).
  rewrite <-(inv_report g Hi) in Hb, He, Hf.
  destruct (tally_row_ok h (g_report g) n l ks Hrow) as [r' Hr']; [lia|].
  unfold tally_row in Hr'. rewrite Hrow in Hr'. rewrite Hr'. cbn [mbind Result_bind].
  destruct (row_at_ok _ _ _ _ Hrow) as (_ & -> & _). by eexists.
Qed.

Lemma children_progress X p ks nx fs g :
  audited X → inv g → g_steps g = Children p ks nx :: fs → ∃ g', visit_children p ks nx fs g = Ok g'.
Proof.
  intros Ha Hi Hsteps. pose proof (inv_stack g Hi) as Hst. rewrite Hsteps in Hst.
  destruct Hst as ((n & l & Hrow) & Hact & (d & Hd & ->) & Hst).
  unfold visit_children. destruct (ks !! d) as [c|] eqn:Hc; [|rewrite Hact; by eexists]. cbv zeta.
  destruct (g_states g !! c) as [[]|] eqn:Hs; [|by eexists..].
  destruct (au_acyclic X Ha) as [rank Hrank]. exfalso.
  apply (inv_active g Hi) in Hs as Hin. rewrite Hsteps in Hin.
  enough (rank c < rank c)%nat by lia.
  apply (stack_rank (g_states g) rank c (Children p ks (S d) :: fs)).
  - intros h x Hh. apply Hrank. apply reach_audited; [done|].
    destruct (inv_rows g Hi h) as (? & ? & ? & _ & _ & ?); [|done].
    exists Active. apply (stack_ok_active _ (Some c) (Children p ks (S d) :: fs)); [|done].
    cbn [stack_ok]. by eauto 10.
  - cbn [stack_ok]. by eauto 10.
  - done.
Qed.

Lemma graph_loop_complete X fuel g :
  audited X → inv g → (work g ≤ fuel)%nat → graph_loop limits load fuel g = Some (Ok (report_of row_at X)).
Proof.
  intros Ha. revert g. induction fuel as [|fuel IH]; intros g Hi Hw.
  - destruct (g_steps g) as [|step fs] eqn:Hsteps.
    2:{ unfold work in Hw. rewrite Hsteps in Hw. destruct step; cbn in Hw; lia. }
    cbn. rewrite Hsteps. destruct (inv_audited g Hi Hsteps) as [Hd ->]. by rewrite (audited_unique _ _ Hd Ha).
  - cbn [graph_loop]. destruct (g_steps g) as [|step fs] eqn:Hsteps.
    { destruct (inv_audited g Hi Hsteps) as [Hd ->]. by rewrite (audited_unique _ _ Hd Ha). }
    assert (∃ g', step_of limits load step fs g = Ok g') as [g' Hrun].
    { destruct step; [by eapply enter_progress|by eapply children_progress]. }
    rewrite Hrun. apply IH; [by eapply step_preserves|].
    pose proof (step_works step fs g g' Hi Hsteps Hrun). lia.
Qed.

(** The walk never runs out of iterations, and succeeds exactly on acceptable
    graphs. *)
Lemma validate_graph_ends :
  ∃ res, (∀ k, graph_loop limits load (graph_fuel limits + k) (mkGraph ∅ [Enter root] report_default) = Some res) ∧
    validate_graph limits load root = res.
Proof.
  destruct (graph_loop_ends (graph_fuel limits) (mkGraph ∅ [Enter root] report_default)) as [res Hres];
    [apply inv_init|by rewrite work_init|].
  exists res. split; [done|]. unfold validate_graph. pose proof (Hres 0%nat) as E. rewrite Nat.add_0_r in E. by rewrite E.
Qed.
Lemma validate_graph_exact r :
  validate_graph limits load root = Ok r ↔ ∃ X, audited X ∧ r = report_of row_at X.
Proof.
  split.
  - destruct validate_graph_ends as (res & Hres & ->). intros ->. apply (graph_loop_sound _ _ _ (inv_init) (Hres 0%nat)).
  - intros (X & Ha & ->). unfold validate_graph.
    by rewrite (graph_loop_complete X _ _ Ha inv_init) by (by rewrite work_init).
Qed.
End facts.
