(* ===== verification/RootAuditThms.v ===== *)
(** * The root audit and the trie

    The audit of RootAudit.v over a store: what it accepts, that an accepted
    root is the hash of a finite stored tree, and that it accepts what a
    pruning trie commits. *)
From S2P Require Import Prelude Primitives Order Io MptNode MptNodeFacts MptCache MptTrie MptSpec.
From S2P Require Import MptCacheFacts MptCommitFacts MptRefine MptModes MptFinal MptMap MptFind MptOps.
From S2P Require Import MptPrune MptBinding Sha256 Instances RootAudit RootAuditFacts.
Import NodeType Node NodeCodec.

Section rows.
Context `{Crypto} `{MptStoreSnapshot St}.
Implicit Types (s : St) (h : UInt256.t) (n : Node.t).

(** Byte strings read from a store are Rust vectors. *)
Definition rows_fit s : Prop := ∀ h bs,
  try_get s (node_key_bytes MPT_NODE_PREFIX h) = Ok (Some bs) → (len bs < usize_max)%N.

(** The hashes in a node. *)
Definition kid_hash (c : Node.t) : list UInt256.t :=
  match hash_cell c with Some h => [h] | None => [] end.
Definition kid_hashes n : list UInt256.t :=
  match node_type n with
  | BranchNode => concat (kid_hash <$> children n)
  | ExtensionNode => from_option kid_hash [] (next n)
  | _ => []
  end.

(** A well-formed row under its hash. *)
Definition row_at s h : option (Node.t * N * list UInt256.t) :=
  match try_get s (node_key_bytes MPT_NODE_PREFIX h) with
  | Ok (Some bs) =>
      match deserialize_persisted bs h with
      | Ok n => Some (n, len bs, kid_hashes n)
      | Err _ => None
      end
  | _ => None
  end.

Lemma child_hash_shape c : stored_child_shape c → child_hash c = Ok (kid_hash c).
Proof. by intros [->|(h & Hw & ->)]. Qed.

Lemma children_hashes_shapes cs :
  Forall stored_child_shape cs → children_hashes cs = Ok (concat (kid_hash <$> cs)).
Proof.
  induction 1 as [|c cs Hc _ IH]; [done|]. cbn [children_hashes].
  rewrite child_hash_shape by done. cbn [mbind Result_bind]. by rewrite IH.
Qed.

Lemma child_hashes_canonical n : canonical n → child_hashes n = Ok (kid_hashes n).
Proof.
  intros (Hs & Hid & _). destruct (canonical_shapes n Hs Hid) as [Hcs Hnx].
  destruct Hs as (Hm & (_ & _ & _ & Hext) & _). unfold child_hashes, kid_hashes.
  destruct (node_type n); try done; [by apply children_hashes_shapes|].
  destruct (Hext eq_refl) as [c Hc]. rewrite Hc. by apply child_hash_shape, Hnx.
Qed.

Lemma length_kid_hash c : (length (kid_hash c) ≤ 1)%nat.
Proof. unfold kid_hash. destruct (hash_cell c); cbn; lia. Qed.

Lemma length_kid_hashes n : canonical n → (length (kid_hashes n) ≤ BRANCH_CHILD_COUNT)%nat.
Proof.
  intros ((_ & _ & _ & Hlim) & _). unfold kid_hashes. destruct (node_type n); try (cbn; lia).
  - rewrite <-Hlim. clear Hlim. induction (children n) as [|c cs IH]; cbn; [lia|].
    rewrite length_app. pose proof (length_kid_hash c). lia.
  - destruct (next n) as [c|]; cbn; [|lia]. pose proof (length_kid_hash c). unfold BRANCH_CHILD_COUNT. lia.
Qed.

Lemma row_at_inv s h n l ks :
  rows_fit s → row_at s h = Some (n, l, ks) →
  ∃ bs, try_get s (node_key_bytes MPT_NODE_PREFIX h) = Ok (Some bs) ∧ canonical n ∧ bs = row n ∧
    h = digest (payload_bytes n) ∧ l = len bs ∧ ks = kid_hashes n.
Proof.
  intros Hfit. unfold row_at. destruct (try_get s _) as [[bs|]|] eqn:E; try done.
  destruct (deserialize_persisted bs h) as [m|] eqn:Ed; [|done]. intros [= -> <- <-].
  apply deserialize_persisted_spec in Ed as [[Hc ->]%canonical_row_iff ->]; [|by eapply Hfit]. eauto 10.
Qed.

Lemma row_at_ok s h n l ks :
  rows_fit s → row_at s h = Some (n, l, ks) →
  materialized (node_type n) = true ∧ child_hashes n = Ok ks ∧ (length ks ≤ BRANCH_CHILD_COUNT)%nat.
Proof.
  intros Hfit (bs & _ & Hc & _ & _ & _ & ->)%row_at_inv; [|done].
  split_and!; [apply Hc|by apply child_hashes_canonical|by apply length_kid_hashes].
Qed.

Lemma load_row_ok s limits h rem n l :
  load_row s limits h rem = Ok (n, l) ↔
  (∃ ks, row_at s h = Some (n, l, ks)) ∧ (l ≤ max_node_bytes limits)%N ∧ (l ≤ rem)%N.
Proof.
  unfold load_row, row_at. destruct (try_get s _) as [[bs|]|]; cbn [mbind Result_bind]; [|naive_solver..].
  destruct (deserialize_persisted bs h) as [m|]; cbn [mbind Result_bind].
  2:{ split; [|naive_solver]. destruct (_ <? _)%N; [done|]. by destruct (_ <? _)%N. }
  destruct (max_node_bytes limits <? len bs)%N eqn:E1.
  { apply N.ltb_lt in E1. split; [done|]. intros ((ks & [= -> <- _]) & ? & ?). lia. }
  destruct (rem <? len bs)%N eqn:E2.
  { apply N.ltb_lt in E2. split; [done|]. intros ((ks & [= -> <- _]) & ? & ?). lia. }
  apply N.ltb_ge in E1, E2. split; [intros [= -> <-]; eauto|]. by intros ((ks & [= -> <- _]) & _).
Qed.

(** The limits fit in their 64 bits. *)
Definition limits_fit (l : PersistedMptGraphLimits) : Prop :=
  (max_nodes l ≤ u64_max)%N ∧ (max_total_bytes l ≤ u64_max)%N.

Lemma limits_validate_ok l l' : limits_validate l = Ok l' → l' = l.
Proof.
  unfold limits_validate. repeat (case_match; [done|]). by intros [= ->].
Qed.

Lemma audit_spec s root limits r :
  rows_fit s → limits_fit limits →
  validate_persisted_root_graph s root limits = Ok r ↔
  limits_validate limits = Ok limits ∧
  ∃ X, audited limits (row_at s) root X ∧ r = report_of (row_at s) X.
Proof.
  intros Hfit Hl. unfold validate_persisted_root_graph.
  destruct (limits_validate limits) as [l'|] eqn:E; cbn [mbind Result_bind]; [|naive_solver].
  apply limits_validate_ok in E as ->.
  rewrite (validate_graph_exact limits (load_row s limits) (row_at s)
    (λ h n l ks, row_at_ok s h n l ks Hfit) (load_row_ok s limits) Hl root). naive_solver.
Qed.
End rows.

(** ** Accepted roots are trees *)

Section trees.
Context `{Crypto} `{MptStoreSnapshot St}.
Implicit Types (s : St) (h : UInt256.t) (n : Node.t) (t : mpt).

(** The node of [t] is stored, well formed, under its hash. *)
Definition stored_at s t : Prop :=
  ∃ n l ks, row_at s (mhash t) = Some (n, l, ks) ∧ payload_bytes n = mpayload t.
Definition stored_tree s t : Prop := Forall (stored_at s) (subtrees t).

Lemma kid_tree s c :
  stored_child_shape c →
  (∀ h, h ∈ kid_hash c → ∃ t, tempty t = false ∧ mhash t = h ∧ stored_tree s t) →
  ∃ t, child_bytes c = mchild t ∧ stored_tree s t.
Proof.
  intros [->|(h & Hw & ->)] Hkid; [by exists TEmpty; split; [|constructor]|].
  destruct (Hkid h) as (t & Ht & <- & Hst); [by left|]. exists t. split; [|done]. by destruct t.
Qed.

Lemma kid_trees s cs :
  Forall stored_child_shape cs →
  (∀ h, h ∈ concat (kid_hash <$> cs) → ∃ t, tempty t = false ∧ mhash t = h ∧ stored_tree s t) →
  ∃ ts, child_bytes <$> cs = mchild <$> ts ∧ Forall (stored_tree s) ts.
Proof.
  induction 1 as [|c cs Hc _ IH]; intros Hkid; [by exists []|]. cbn [fmap list_fmap concat] in *.
  destruct (kid_tree s c Hc) as (t & Et & Ht); [intros h Hh; apply Hkid, elem_of_app; by left|].
  destruct IH as (ts & Ets & Hts); [intros h Hh; apply Hkid, elem_of_app; by right|].
  exists (t :: ts). cbn [fmap list_fmap]. split; [congruence|by constructor].
Qed.

(** A node whose children are trees is a tree. *)
Lemma node_tree s h n l ks :
  rows_fit s → row_at s h = Some (n, l, ks) →
  (∀ c, c ∈ ks → ∃ t, tempty t = false ∧ mhash t = c ∧ stored_tree s t) →
  ∃ t, tempty t = false ∧ mhash t = h ∧ stored_tree s t.
Proof.
  intros Hfit Hrow Hkid. pose proof (row_at_inv s h n l ks Hfit Hrow) as (bs & _ & Hc & _ & -> & _ & ->).
  destruct Hc as (Hs & Hid & _). destruct (canonical_shapes n Hs Hid) as [Hcs Hnx].
  assert (∃ t, tempty t = false ∧ payload_bytes n = mpayload t ∧ (stored_at s t → stored_tree s t))
    as (t & Ht & Ep & Hst).
  2:{ exists t. unfold mhash. rewrite <-Ep. split_and!; [done..|]. apply Hst.
      exists n, l, (kid_hashes n). unfold mhash. by rewrite <-Ep. }
  destruct Hs as (Hm & (_ & _ & _ & Hext) & _). unfold kid_hashes in Hkid. unfold payload_bytes.
  destruct (node_type n); try done.
  - destruct (kid_trees s (children n) Hcs Hkid) as (ts & Ets & Hts). exists (TBranch ts).
    split_and!; [done|by rewrite mpayload_unfold, Ets|]. intros Hself. constructor; [done|].
    apply Forall_concat, Forall_fmap. by eapply Forall_impl.
  - destruct (Hext eq_refl) as [c E]. rewrite E in *. destruct (kid_tree s c (Hnx c eq_refl) Hkid) as (t & Et & Hts).
    exists (TExt (key n) t). split_and!; [done|by rewrite mpayload_unfold, Et|]. by constructor.
  - exists (TLeaf (value n)). split_and!; [done..|]. by repeat constructor.
Qed.

Lemma audited_tree s root limits X :
  rows_fit s → audited limits (row_at s) root X →
  ∃ t, tempty t = false ∧ mhash t = root ∧ stored_tree s t.
Proof.
  intros Hfit [Hroot Hrows _ [rank Hrank] _ _]. revert root Hroot.
  enough (∀ k h, (rank h < k)%nat → h ∈ X → ∃ t, tempty t = false ∧ mhash t = h ∧ stored_tree s t) as Hall
    by (intros root Hroot; by apply (Hall (S (rank root)) root); [lia|]).
  induction k as [|k IH]; intros h Hk Hh; [lia|].
  destruct (Hrows h Hh) as (n & l & ks & Hrow & _ & Hkx). eapply node_tree; [done..|].
  intros c Hc. apply IH; [|auto]. enough (rank c < rank h)%nat by lia.
  apply Hrank; [done|]. unfold kids_at. by rewrite Hrow.
Qed.
End trees.

(** ** Committed tries are accepted *)

Section committed.
Context `{Crypto} `{LawfulStore St}.
Implicit Types (s : St) (t : mpt) (m : kvmap).

(** No persisted node is longer. *)
Definition MAX_ROW : N := 65550.

Lemma len_canonical_row n : canonical n → (len (row n) ≤ MAX_ROW)%N.
Proof.
  intros (Hs & _). rewrite len_row by done. destruct Hs as (Hm & _ & Hr & Hlim).
  unfold byte_size, byte_size_without_reference, reference_var_size. rewrite Hm.
  rewrite (proj2 (Z.ltb_ge _ _)) by lia.
  assert (∀ x, SerializeHelper.get_var_size x ≤ 5 ∨ 4294967295 < x)%N as Hv.
  { intros x. unfold SerializeHelper.get_var_size, VarInt.encoded_len.
    destruct (N.leb_spec x 4294967295); [|by right]. left. by repeat case_match. }
  assert (SerializeHelper.get_var_size (Z.to_N (reference n)) ≤ 5)%N as Href.
  { destruct (Hv (Z.to_N (reference n))) as [?|?]; [done|lia]. }
  assert (∀ c, byte_size_as_child c ≤ 33)%N as Hchild.
  { intros c. unfold byte_size_as_child, hash_size. destruct (node_type c); vm_compute; done. }
  enough (1 + match node_type n with
     | BranchNode => branch_size n | ExtensionNode => extension_size n | LeafNode => leaf_size n
     | HashNode => hash_size | Empty => 0 end ≤ 65545)%N by (unfold MAX_ROW; lia).
  destruct (node_type n); try done.
  - unfold branch_size. enough (foldr N.add 0%N (byte_size_as_child <$> children n) ≤ 33 * N.of_nat (length (children n)))%N
      by (rewrite Hlim in *; unfold BRANCH_CHILD_COUNT in *; lia).
    clear Hlim. induction (children n) as [|c cs IH]; cbn [fmap list_fmap foldr length]; [lia|].
    specialize (Hchild c). lia.
  - unfold extension_size, SerializeHelper.get_var_size_bytes. destruct (Hv (len (key n))) as [?|?];
      [|unfold MAX_KEY_LENGTH, MAX_STORAGE_KEY_SIZE in *; lia].
    destruct (next n) as [c|]; [specialize (Hchild c)|]; unfold MAX_KEY_LENGTH, MAX_STORAGE_KEY_SIZE in *; lia.
  - unfold leaf_size, SerializeHelper.get_var_size_bytes. destruct (Hv (len (value n))) as [?|?];
      unfold MAX_VALUE_LENGTH, MAX_STORAGE_VALUE_SIZE in *; lia.
Qed.

Lemma mpt_rows_fit s : mpt_store s → rows_fit s.
Proof.
  intros Hs h bs Hget. rewrite get_contents in Hget. injection Hget as Hget.
  set (h' := UInt256.from_array (UInt256.to_array h)).
  assert (node_key_bytes MPT_NODE_PREFIX h = node_key_bytes MPT_NODE_PREFIX h') as E.
  { unfold node_key_bytes, h'. by rewrite UInt256Facts.to_array_from_array by apply UInt256Facts.length_to_array. }
  rewrite E in Hget. destruct (Hs h' bs) as (n & Hn & -> & _); [apply UInt256Facts.wf_from_array|done|].
  eapply N.le_lt_trans; [by apply len_canonical_row|done].
Qed.

Lemma stored_row s t r :
  mpt_store s → good_rows (node_rows s) → has_row (node_rows s) t r →
  row_at s (mhash t) = Some (stored_of t r, len (row (stored_of t r)), kid_hashes (stored_of t r)) ∧
  canonical (stored_of t r).
Proof.
  intros Hs Hg Hrow. pose proof (has_row_bounds _ _ _ Hg Hrow) as Hr. destruct Hrow as (Ht & Hl & Hv).
  pose proof (stored_of_canonical t r Ht Hl Hr) as Hcan.
  unfold node_rows in Hv. apply bind_Some in Hv as (bs & Hbs & Hof).
  destruct (Hs _ _ (mhash_wf t) Hbs) as (n & Hn & -> & Hh). rewrite row_of_row in Hof by apply Hn.
  assert (n = stored_of t r) as -> by (apply row_state_inj; [done..|congruence]).
  split; [|done]. unfold row_at. rewrite get_contents, Hbs, Hh.
  by rewrite deserialize_persisted_row by (apply canonical_row_iff; done).
Qed.

(** The children of a stored tree node are those of the tree. *)
Lemma elem_kid_hash t c : c ∈ kid_hash (stored_kid t) ↔ tempty t = false ∧ c = mhash t.
Proof.
  unfold stored_kid. destruct (tempty t); cbn.
  - split; [intros Hin; by apply not_elem_of_nil in Hin|by intros []].
  - rewrite list_elem_of_singleton. naive_solver.
Qed.

Lemma elem_kid_hashes t r c :
  c ∈ kid_hashes (stored_of t r) →
  ∃ t', c = mhash t' ∧ t' ∈ subtrees t ∧ (mheight t' < mheight t)%nat.
Proof.
  destruct t as [|v|k t|ts]; cbn [stored_of kid_hashes node_type next children from_option].
  1,2: intros Hin; by apply not_elem_of_nil in Hin.
  - intros [Ht ->]%elem_kid_hash. exists t. split_and!; [done|right; by apply subtrees_self|cbn; lia].
  - intros (l & Hin & (x & -> & (t' & -> & Ht')%list_elem_of_fmap)%list_elem_of_fmap)%elem_of_concat.
    apply elem_kid_hash in Hin as [Ht ->]. apply list_elem_of_lookup in Ht' as [i Hi].
    exists t'. split_and!; [done| |by eapply mheight_child].
    eapply subtrees_branch; [done|]. by apply subtrees_self.
Qed.

(** The hashes of the nodes of a tree. *)
Definition tree_hashes t : gset UInt256.t := list_to_set (mhash <$> subtrees t).

Lemma elem_of_tree_hashes t h : h ∈ tree_hashes t ↔ ∃ t', t' ∈ subtrees t ∧ h = mhash t'.
Proof.
  unfold tree_hashes. rewrite elem_of_list_to_set, list_elem_of_fmap. naive_solver.
Qed.

Lemma subtrees_trans t1 t2 t3 : t1 ∈ subtrees t2 → t2 ∈ subtrees t3 → t1 ∈ subtrees t3.
Proof.
  intros H1'. induction t3 as [|v|k t3 IH|ts IH] using mpt_induction; cbn [subtrees].
  - intros Hin. by apply not_elem_of_nil in Hin.
  - by intros ->%list_elem_of_singleton.
  - intros [->|Hin]%elem_of_cons; [done|]. right. auto.
  - intros [->|(l & Hin & (t & -> & Ht)%list_elem_of_fmap)%elem_of_concat]%elem_of_cons; [done|].
    right. apply elem_of_concat. exists (subtrees t). split; [|by apply list_elem_of_fmap_2].
    rewrite Forall_forall in IH. by apply IH.
Qed.

(** Equal hashes in a stored forest mean equal trees. *)
Lemma counted_inj v f t1 t2 :
  counted v f → (∀ x, x ∈ subtrees t1 → x ∈ f) → (∀ x, x ∈ subtrees t2 → x ∈ f) →
  tempty t1 = false → tempty t2 = false → mhash t1 = mhash t2 → t1 = t2.
Proof.
  intros Hc Hs1 Hs2 Ht1 Ht2. apply hash_binds; [..|done|done|].
  1,2: apply Forall_forall; intros x Hx; by destruct (counted_row v f x Hc) as (_ & ? & _); [auto|].
  intros p1 p2 (x1 & -> & Hx1)%list_elem_of_fmap (x2 & -> & Hx2)%list_elem_of_fmap E.
  assert (∀ x, x ∈ subtrees t1 ++ subtrees t2 → x ∈ f) as Hf by (intros x [?|?]%elem_of_app; auto).
  destruct (counted_row v f x1 Hc (Hf _ Hx1)) as (He1 & _ & Hr1), (counted_row v f x2 Hc (Hf _ Hx2)) as (He2 & _ & Hr2).
  unfold mhash in Hr1, Hr2. rewrite E in Hr1. rewrite Hr1 in Hr2. apply (inj Some) in Hr2.
  rewrite !stored_of_row in Hr2 by done. exact (f_equal ds_payload Hr2).
Qed.

(** Total size: every row is bounded. *)
Lemma total_bytes_bound s X :
  (∀ h n l ks, h ∈ X → row_at s h = Some (n, l, ks) → (l ≤ MAX_ROW)%N) →
  (total_bytes (report_of (row_at s) X) ≤ MAX_ROW * N.of_nat (size X))%N.
Proof.
  induction X as [|h X Hh IH] using set_ind_L; intros Hb.
  { rewrite report_of_empty, size_empty. done. }
  rewrite report_of_insert, size_union, size_singleton by set_solver.
  specialize (IH ltac:(set_solver)). unfold add_row.
  destruct (row_at s h) as [[[n l] ks]|] eqn:E; cbn [total_bytes]; [|lia].
  assert (l ≤ MAX_ROW)%N by (eapply Hb; [|done]; set_solver). lia.
Qed.

(** Limits that no trie with these nodes exceeds. *)
Definition limits_suffice (limits : PersistedMptGraphLimits) t : Prop :=
  limits_fit limits ∧ (N.of_nat (size (tree_hashes t)) ≤ max_nodes limits)%N ∧
  (MAX_ROW ≤ max_node_bytes limits)%N ∧ (max_node_bytes limits ≤ max_total_bytes limits)%N ∧
  (MAX_ROW * N.of_nat (size (tree_hashes t)) ≤ max_total_bytes limits)%N.

Lemma rank_of_tree v f t :
  counted v f → (∀ x, x ∈ subtrees t → x ∈ f) →
  ∃ rank : UInt256.t → nat, ∀ x, x ∈ subtrees t → rank (mhash x) = mheight x.
Proof.
  intros Hc Hsub.
  exists (λ h, from_option mheight 0%nat (head (filter (λ x, mhash x = h) (subtrees t)))).
  intros x Hx. destruct (filter _ (subtrees t)) as [|y l] eqn:E.
  - assert (x ∈ filter (λ y, mhash y = mhash x) (subtrees t)) as Hin by (by apply list_elem_of_filter).
    rewrite E in Hin. by apply not_elem_of_nil in Hin.
  - cbn. assert (y ∈ filter (λ y, mhash y = mhash x) (subtrees t)) as [Eh Hy]%list_elem_of_filter
      by (rewrite E; left).
    assert (∀ z, z ∈ subtrees t → tempty z = false) as Hne
      by (intros z Hz; by destruct (counted_row v f z Hc (Hsub z Hz)) as (? & _)).
    by rewrite (counted_inj v f y x Hc (λ z Hz, Hsub z (subtrees_trans z y t Hz Hy))
      (λ z Hz, Hsub z (subtrees_trans z x t Hz Hx)) (Hne y Hy) (Hne x Hx) Eh).
Qed.

(** The nodes of a stored tree can be reached from its root. *)
Lemma tree_reach s t0 root t x :
  (∀ y, y ∈ subtrees t0 → ∃ r, kids_at (row_at s) (mhash y) = kid_hashes (stored_of y r)) →
  t ∈ subtrees t0 → reach (row_at s) root (mhash t) → x ∈ subtrees t → reach (row_at s) root (mhash x).
Proof.
  intros Hrow. induction t as [|w|k t IH|ts IH] using mpt_induction; intros Hin Hr; cbn [subtrees].
  - intros Hx. by apply not_elem_of_nil in Hx.
  - by intros ->%list_elem_of_singleton.
  - intros [->|Hx]%elem_of_cons; [done|]. destruct (tempty t) eqn:Et; [by destruct t; try apply not_elem_of_nil in Hx|].
    apply IH; [eapply subtrees_trans; [|exact Hin]; right; by apply subtrees_self| |done].
    eapply reach_kid; [exact Hr|]. destruct (Hrow _ Hin) as (r & ->). cbn. by apply elem_kid_hash.
  - intros [->|(l & Hx & (t & -> & Ht')%list_elem_of_fmap)%elem_of_concat]%elem_of_cons; [done|].
    destruct (tempty t) eqn:Et; [by destruct t; try apply not_elem_of_nil in Hx|].
    apply list_elem_of_lookup in Ht' as Hi. destruct Hi as [i Hi]. rewrite Forall_lookup in IH.
    apply (IH i t Hi); [eapply subtrees_trans; [|exact Hin]; eapply subtrees_branch; [done|by apply subtrees_self]| |done].
    eapply reach_kid; [exact Hr|]. destruct (Hrow _ Hin) as (r & ->).
    cbn. apply elem_of_concat. exists (kid_hash (stored_kid t)). split; [by apply elem_kid_hash|].
    by apply list_elem_of_fmap_2, list_elem_of_fmap_2.
Qed.

Lemma pruned_audited F s m limits :
  pruned_store F s m → m ≠ ∅ → limits_suffice limits (tree_of m) →
  audited limits (row_at s) (mhash (tree_of m)) (tree_hashes (tree_of m)).
Proof.
  intros [Hs Hc] Hm (Hfit & Hn & Hnb & _ & Htb).
  assert (∀ x, x ∈ subtrees (tree_of m) → x ∈ subtrees (tree_of m) ++ F) as Hsub by (intros; apply elem_of_app; by left).
  assert (∀ x, x ∈ subtrees (tree_of m) → ∃ r, row_at s (mhash x) =
    Some (stored_of x r, len (row (stored_of x r)), kid_hashes (stored_of x r)) ∧
    (len (row (stored_of x r)) ≤ MAX_ROW)%N) as Hrow.
  { intros x Hx. pose proof (counted_row _ _ x Hc (Hsub x Hx)) as Hr.
    destruct (stored_row s x _ Hs (cn_good _ _ Hc) Hr) as [E Hcan]. eexists. split; [done|].
    by apply len_canonical_row. }
  assert (tempty (tree_of m) = false) as Ht.
  { destruct (tempty (tree_of m)) eqn:E; [|done]. by apply tree_of_empty in E. }
  assert (∀ x r c, x ∈ subtrees (tree_of m) → c ∈ kid_hashes (stored_of x r) →
    ∃ y, c = mhash y ∧ y ∈ subtrees (tree_of m) ∧ (mheight y < mheight x)%nat) as Hkids.
  { intros x r c Hx (y & -> & Hy & Hh)%elem_kid_hashes. exists y. split_and!; [done| |done].
    by eapply subtrees_trans. }
  split.
  - apply elem_of_tree_hashes. exists (tree_of m). split; [by apply subtrees_self|done].
  - intros h (x & Hx & ->)%elem_of_tree_hashes. destruct (Hrow x Hx) as (r & E & Hl).
    do 3 eexists. split_and!; [done|lia|]. intros c Hcx. destruct (Hkids x r c Hx Hcx) as (y & -> & Hy & _).
    apply elem_of_tree_hashes. eauto.
  - intros h (x & Hx & ->)%elem_of_tree_hashes. revert x Hx.
    intros x Hx. eapply (tree_reach s (tree_of m) (mhash (tree_of m))); [|by apply subtrees_self|constructor|done].
    intros y Hy. destruct (Hrow y Hy) as (r & E & _). exists r. unfold kids_at. by rewrite E.
  - destruct (rank_of_tree _ _ (tree_of m) Hc Hsub) as [rank Hrank]. exists rank.
    intros h c (x & Hx & ->)%elem_of_tree_hashes. unfold kids_at. destruct (Hrow x Hx) as (r & -> & _).
    intros (y & -> & Hy & Hh)%(Hkids x r c Hx). by rewrite !Hrank.
  - done.
  - etrans; [apply total_bytes_bound|done].
    intros h n l ks (x & Hx & ->)%elem_of_tree_hashes. destruct (Hrow x Hx) as (r & -> & Hl). by intros [= <- <- <-].
Qed.

(** (C28) The root audit is exact.  [validate_persisted_root_graph] succeeds if
    and only if the limits are consistent and the rows reachable from the root
    are well-formed nodes under their hashes, without cycles, within the
    limits; its report then counts exactly these nodes, their bytes and their
    kinds.  Whatever the store holds, the loop ends within [graph_fuel]
    iterations, that is thirty-six per node the limits allow, and more
    iterations would change nothing.  An accepted root is the hash of a
    finite tree whose nodes are all stored.  A row is shorter than [usize_max] bytes
    ([rows_fit]) and the limits are 64-bit integers ([limits_fit]). *)
Theorem root_audit_exact s root limits :
  rows_fit s → limits_fit limits →
  (∀ r, validate_persisted_root_graph s root limits = Ok r ↔
     limits_validate limits = Ok limits ∧
     ∃ X, audited limits (row_at s) root X ∧ r = report_of (row_at s) X) ∧
  (∃ res,
     (∀ k, graph_loop limits (load_row s limits) (graph_fuel limits + k)
             (mkGraph ∅ [Enter root] report_default) = Some res) ∧
     validate_graph limits (load_row s limits) root = res) ∧
  (∀ r, validate_persisted_root_graph s root limits = Ok r →
     ∃ t, tempty t = false ∧ mhash t = root ∧ stored_tree s t).
Proof.
  intros Hfit Hl. split_and!.
  - intros r. by apply audit_spec.
  - apply (validate_graph_ends limits (load_row s limits) (row_at s)); [|apply load_row_ok|done].
    intros h n l ks. by apply row_at_ok.
  - intros r (_ & X & HX & _)%audit_spec; [|done..]. by eapply audited_tree.
Qed.

(** (C29) What a pruning trie commits passes the audit.  On the store of a
    session that ended with a commit, with limits that suffice for the tree,
    the audit of the new root succeeds and its node count is the number of
    distinct nodes of the tree of the map. *)
Theorem committed_root_passes_audit F batch s m os limits :
  pruned_store F s m → valid_map m → finalizable_at F (os ++ [CCommit]) m →
  let T := (run_all run_call (os ++ [CCommit]) (open_trie batch s m)).1 in
  let m' := (run_all spec_call os m).1 in
  m' ≠ ∅ → limits_suffice limits (tree_of m') →
  ∃ root r, root_hash T = Some root ∧
    validate_persisted_root_graph (store (cache T)) root limits = Ok r ∧
    unique_nodes r = N.of_nat (size (tree_hashes (tree_of m'))).
Proof.
  intros Hs Hv Hfin T m' Hm' Hl.
  destruct (session_committed F batch s m os Hs Hv Hfin) as (Hps & _ & Hroot). fold T m' in Hps, Hroot.
  assert (tempty (tree_of m') = false) as Ht.
  { destruct (tempty (tree_of m')) eqn:E; [|done]. by apply tree_of_empty in E. }
  pose proof (pruned_audited F _ m' limits Hps Hm' Hl) as Haud.
  assert (rows_fit (store (cache T))) as Hfit by (apply mpt_rows_fit, Hps).
  exists (mhash (tree_of m')), (report_of (row_at (store (cache T))) (tree_hashes (tree_of m'))).
  split_and!; [by rewrite Hroot; unfold root_of; rewrite Ht| |].
  - destruct Hl as (Hl1 & Hl2 & Hl3 & Hl4 & Hl5). apply audit_spec; [done..|]. split; [|by eauto].
    unfold limits_validate, MAX_ROW in *.
    assert (1 ≤ max_nodes limits)%N.
    { pose proof (au_root _ _ _ _ Haud) as Hin. apply elem_of_subseteq_singleton, subseteq_size in Hin.
      rewrite size_singleton in Hin. lia. }
    rewrite !(proj2 (N.eqb_neq _ _)), (proj2 (N.ltb_ge _ _)) by lia. done.
  - apply report_counts. intros h Hh. destruct (au_rows _ _ _ _ Haud h Hh) as (? & ? & ? & -> & _). done.
Qed.
End committed.

(** ** A concrete audit *)

Section sample.
#[local] Existing Instance sha256_crypto.

Definition sample_limits : PersistedMptGraphLimits := mkLimits 10 1000000 70000.

Lemma committed_root_passes_audit_witness :
  ∃ root r, root_hash sample_trie = Some root ∧
    validate_persisted_root_graph (store (cache sample_trie)) root sample_limits = Ok r ∧
    unique_nodes r = N.of_nat (size (tree_hashes (tree_of sample_map))).
Proof.
  apply (committed_root_passes_audit [] false (∅ : ProofStore) ∅ sample_calls sample_limits).
  - exact sample_store.
  - apply map_Forall_empty.
  - exact sample_finalizable.
  - intros E. apply (f_equal size) in E. vm_compute in E. done.
  - split_and!; [split|..]; vm_compute; done.
Defined.

Definition sample_root : UInt256.t := default UInt256.zero (root_hash sample_trie).

Lemma root_audit_exact_witness :
  validate_persisted_root_graph (store (cache sample_trie)) sample_root sample_limits =
    Ok (mkReport 2 51 0 1 1) ∧
  ∃ t, tempty t = false ∧ mhash t = sample_root ∧ stored_tree (store (cache sample_trie)) t.
Proof.
  assert (validate_persisted_root_graph (store (cache sample_trie)) sample_root sample_limits =
    Ok (mkReport 2 51 0 1 1)) as Hrun by (vm_compute; reflexivity).
  split; [exact Hrun|].
  exact (proj2 (proj2 (root_audit_exact (store (cache sample_trie)) sample_root sample_limits
    (mpt_rows_fit _ (proj1 (proj1 sample_committed))) ltac:(split; vm_compute; done))) _ Hrun).
Defined.
End sample.
