(* ===== verification/MptProof.v ===== *)
(** * Merkle proofs

    [try_get_proof] collects the payloads of the nodes on a key's path;
    [verify_proof] looks the key up in a trie whose store holds just a proof's
    payloads, which may come from an adversary. *)
From S2P Require Import Prelude Primitives Io MptNode MptNodeFacts MptCache MptTrie MptSpec.
From S2P Require Import MptCacheFacts MptCommitFacts MptRefine MptModes MptFinal MptMap MptOps MptPrune MptBinding.
From S2P Require Import Sha256 Instances.
Import NodeType Node NodeCodec.

(** The nodes on a path. *)
Fixpoint mpath (t : mpt) (p : bytes) : list mpt :=
  match t with
  | TEmpty => []
  | TLeaf _ => match p with [] => [t] | _ => [] end
  | TExt k t' => if starts_with p k then t :: mpath t' (drop (length k) p) else []
  | TBranch cs =>
      t :: match (mpath <$> cs) !! (branch_step p).1 with
           | Some f => f (branch_step p).2
           | None => []
           end
  end.

Lemma mpath_branch cs p c :
  cs !! (branch_step p).1 = Some c → mpath (TBranch cs) p = TBranch cs :: mpath c (branch_step p).2.
Proof. intros Hc. cbn [mpath]. by rewrite list_lookup_fmap, Hc. Qed.

(** ** Building a proof *)

Section build.
Context `{Crypto} `{MptStoreSnapshot St} {fs dnf dint : bool} `{!TrieCache St fs dnf dint}.

Definition payload_set (ts : list mpt) : gset bytes := list_to_set (mpayload <$> ts).

Lemma payload_set_cons t ts proof :
  payload_set ts ∪ ({[mpayload t]} ∪ proof) = payload_set (t :: ts) ∪ proof.
Proof. unfold payload_set. rewrite fmap_cons, list_to_set_cons. set_solver. Qed.

Lemma to_array_shape t n :
  memo_ok dnf dint t n → shape dnf dint t n → to_array_without_reference n = Ok (mpayload t).
Proof.
  intros [Hc _] Hs.
  rewrite to_array_without_reference_ok, (payload_bytes_shape dnf dint t n Hs); [done|].
  eapply shape_node_ok; [exact Hs|]. intros h ->%Hc. apply mhash_wf.
Qed.

Lemma proof_refines t fuel n (c : MptCache St) q F p proof :
  repr dnf dint t n → canon t → nibbles p → (2 * mdepth t p ≤ fuel)%nat →
  Own fs dnf dint c q (owned (held fs dnf dint) t n ++ F) →
  read_post t (bool_decide (is_Some (mlookup t p)), payload_set (mpath t p) ∪ proof)
    (get_proof_node fuel p proof (c, n)) (dirty n) q F.
Proof.
  revert fuel n c q F p proof. induction t as [|v|k t IH|ts IH] using mpt_induction;
    intros fuel n c q F p proof Hr Hcan Hp Hf Hown;
    (eapply (read_hash _ _ _ (λ fuel, get_proof_node fuel p proof)); [|..|exact Hf|exact Hown]; try done;
     [by intros ? [? ?] E; cbn [get_proof_node]; rewrite (mbind_ok (gets snd) _ _ _ _ eq_refl), E|]);
    clear fuel n c q F Hr Hf Hown; intros fuel n c q F Hm Hs Hf Hown;
    cbn [get_proof_node]; rewrite (mbind_ok (gets snd) _ _ _ _ eq_refl); cbn [snd];
    rewrite (shape_type dnf dint _ _ Hs).
  - cbn [mlookup mpath]. unfold payload_set. cbn. rewrite union_empty_l_L. by apply read_here.
  - destruct p as [|b p]; cbn [mlookup mpath].
    + rewrite (to_array_shape _ n Hm Hs), (mbind_ok (lift _) _ _ _ _ eq_refl), bool_decide_true by done.
      unfold payload_set. cbn. rewrite union_empty_r_L. by apply read_here.
    + unfold payload_set. cbn. rewrite union_empty_l_L. by apply read_here.
  - destruct (ext_child_inv k t n Hs) as (Hk & _). rewrite Hk. cbn [mlookup mpath].
    destruct (starts_with p k) eqn:E.
    + apply canon_ext in Hcan as (_ & _ & _ & Hcan).
      rewrite (to_array_shape _ n Hm Hs), (mbind_ok (lift _) _ _ _ _ eq_refl), <-payload_set_cons.
      apply read_next; [done..|]. intros ch F' Hrc Hown'. apply IH; try done. by apply Forall_drop.
    + unfold payload_set. cbn. rewrite union_empty_l_L. by apply read_here.
  - assert (Hcan' := Hcan). apply canon_branch in Hcan' as (Hl & _ & _ & Hcs).
    destruct (ts !! (branch_step p).1) as [t|] eqn:Ht.
    2:{ apply lookup_ge_None in Ht. pose proof (branch_step_lt p Hp). lia. }
    rewrite mlookup_branch, (mpath_branch ts p t Ht), Ht, <-payload_set_cons. cbn [mbind option_bind].
    rewrite Forall_lookup in IH, Hcs.
    rewrite (to_array_shape _ n Hm Hs), (mbind_ok (lift _) _ _ _ _ eq_refl).
    assert (∀ ch F', repr dnf dint t ch → Own fs dnf dint c q (owned (held fs dnf dint) t ch ++ F') →
      read_post t (bool_decide (is_Some (mlookup t (branch_step p).2)),
          payload_set (mpath t (branch_step p).2) ∪ ({[mpayload (TBranch ts)]} ∪ proof))
        (get_proof_node fuel (branch_step p).2 ({[mpayload (TBranch ts)]} ∪ proof) (c, ch))
        (dirty ch) q F') as Hrec.
    { intros ch F' Hrc Hown'. apply (IH _ t Ht); eauto using branch_step_nibbles.
      pose proof (mdepth_branch ts p t Ht) as E. cbn [mdepth] in E. injection E as <-. done. }
    destruct p; by eapply read_child.
Qed.

(** The proof of a present key is the set of payloads on its path. *)
Lemma proof_sim q F T m k :
  sim fs dnf dint q F T m →
  ∃ T', try_get_proof k T =
      (T', if valid_key k
           then Ok (if bool_decide (is_Some (m !! k))
                    then Some (payload_set (mpath (tree_of m) (to_nibbles k))) else None)
           else Err Key) ∧ sim fs dnf dint q F T' m.
Proof.
  intros Hsim. unfold try_get_proof. rewrite ensure_lookup_key_spec.
  destruct (valid_key k); [|by exists T]. rewrite (mbind_ok (lift _) _ _ _ _ eq_refl).
  destruct Hsim as [Hf Hd Hv Hr Hown]. pose proof (nibbles_to_nibbles k) as Hk.
  destruct (proof_refines (tree_of m) (path_fuel (to_nibbles k)) (root T) (cache T) q F (to_nibbles k) ∅)
    as (c' & n' & Hrun & Hr' & _ & Hown'); try done;
    [apply tree_of_canon|by apply path_fuel_enough; [apply tree_of_canon|]|].
  rewrite tree_of_lookup, union_empty_r_L in Hrun. eexists. erewrite mbind_ok.
  2:{ unfold on_root. by rewrite Hrun. }
  split; [done|]. by split.
Qed.
End build.

(** ** Verifying a proof *)

Section verify.
Context `{Crypto}.
(** The tree of the root, and the payloads supplied. *)
Context (D : gset bytes).
Implicit Types (t s : mpt) (c : MptCache ProofStore).

(** Lookup in a tree of which only the nodes of [D] are known. *)
Fixpoint mlookup_in t (p : bytes) : Result MptError (option bytes) :=
  match t with
  | TEmpty => Ok None
  | _ =>
      if bool_decide (mpayload t ∈ D) then
        match t with
        | TEmpty => Ok None
        | TLeaf v => Ok match p with [] => Some v | _ => None end
        | TExt k t' => if starts_with p k then mlookup_in t' (drop (length k) p) else Ok None
        | TBranch cs =>
            match (mlookup_in <$> cs) !! (branch_step p).1 with
            | Some f => f (branch_step p).2
            | None => Ok None
            end
        end
      else Err Storage
  end.

(** A value is found only if it is the value of the tree and the whole path is known. *)
Lemma mlookup_in_sound t p v :
  mlookup_in t p = Ok (Some v) → mlookup t p = Some v ∧ Forall (λ s, mpayload s ∈ D) (mpath t p).
Proof.
  revert p. induction t as [|w|k t IH|ts IH] using mpt_induction; intros p; cbn [mlookup_in mlookup mpath];
    [done|..]; (destruct (bool_decide _) eqn:Hd; [apply bool_decide_eq_true in Hd|done]).
  - destruct p; [|done]. intros [= ->]. by repeat constructor.
  - destruct (starts_with p k); [|done]. intros [? ?]%IH. by repeat constructor.
  - rewrite !list_lookup_fmap. destruct (ts !! (branch_step p).1) as [t|] eqn:Ht; [|done].
    cbn. rewrite Forall_lookup in IH. intros [? ?]%(IH _ _ Ht). by repeat constructor.
Qed.

Lemma mlookup_in_complete t p :
  Forall (λ s, mpayload s ∈ D) (mpath t p) → is_Some (mlookup t p) → mlookup_in t p = Ok (mlookup t p).
Proof.
  revert p. induction t as [|w|k t IH|ts IH] using mpt_induction; intros p Hd Hs; cbn [mlookup_in mlookup] in *.
  - done.
  - destruct p; [|by destruct Hs]. cbn [mpath] in Hd. apply Forall_cons_1 in Hd as [Hd _].
    by rewrite bool_decide_true.
  - destruct (starts_with p k) eqn:E; [|by destruct Hs]. cbn [mpath] in Hd. rewrite E in Hd.
    apply Forall_cons_1 in Hd as [Hd ?]. rewrite bool_decide_true by done. by apply IH.
  - cbn [mpath] in Hd. apply Forall_cons_1 in Hd as [Hd Hrest]. rewrite bool_decide_true by done.
    rewrite !list_lookup_fmap in *. destruct (ts !! (branch_step p).1) as [t|] eqn:Ht; [|by destruct Hs].
    cbn in *. rewrite Forall_lookup in IH. by eapply IH.
Qed.

(** *** The cache during verification *)

Context (t0 : mpt) (limits : Forall limit (subtrees t0))
  (free : collision_free digest (elements D ++ (mpayload <$> subtrees t0))).

(** What the store holds for a node. *)
Definition given s : option Node.t := if bool_decide (mpayload s ∈ D) then Some (loaded_of s 1) else None.

(** The entry that stands for what the store holds. *)
Definition entry_given s (e : MptTrackable) : Prop :=
  match given s with
  | None => t_node_type e = None
  | Some n => t_node_type e = Some (tree_type s) ∧ t_reference e = 1%Z ∧ t_node e = Some n
  end.

Record proof_cache c : Prop := {
  pc_deferred : deferred_entries c = ∅;
  pc_given s : s ∈ subtrees t0 →
    match entries c !! mhash s with
    | None => load_from_store_snapshot (store c) (prefix c) (mhash s) = Ok (given s)
    | Some e => entry_given s e
    end;
}.

Lemma same_hash_payload s s' :
  s ∈ subtrees t0 → s' ∈ subtrees t0 → mhash s = mhash s' → mpayload s = mpayload s'.
Proof.
  intros Hs Hs' E. apply free; [apply elem_of_app; right; by apply list_elem_of_fmap_2..|exact E].
Qed.

(** Nodes with one hash are one node. *)
Lemma given_hash s s' :
  s ∈ subtrees t0 → s' ∈ subtrees t0 → mhash s = mhash s' → given s = given s' ∧ tree_type s = tree_type s'.
Proof.
  intros Hs Hs' E. pose proof (same_hash_payload s s' Hs Hs' E) as Ep.
  rewrite Forall_forall in limits. split; [|by apply tree_type_payload]. unfold given. rewrite Ep.
  unfold loaded_of. rewrite E, (payload_stored s s'); eauto using subtrees_nonempty.
Qed.

Lemma given_clone s :
  s ∈ subtrees t0 →
  set_accounted_hash (mhash s) (clone (with_reference 1 (loaded_of s 1))) = loaded_of s 1.
Proof.
  intros Hs. rewrite Forall_forall in limits. pose proof (subtrees_nonempty t0 s Hs) as Ht.
  pose proof (clone_canonical (stored_of s 1) (loaded_of s 1) (mhash s)) as Hcl.
  rewrite stored_of_reference in Hcl by done. apply Hcl.
  - apply stored_of_canonical; [done|auto|lia].
  - by eexists _, _, _.
Qed.

Lemma proof_cache_insert c s e :
  proof_cache c → s ∈ subtrees t0 → entry_given s e →
  proof_cache (set_entries (<[mhash s := e]> (entries c)) c).
Proof.
  intros Hc Hs He. split; [apply Hc|]. cbn [entries set_entries store prefix]. intros s' Hs'.
  destruct (decide (mhash s' = mhash s)) as [E|E].
  - rewrite E, lookup_insert_eq. destruct (given_hash s' s Hs' Hs E) as [Eg Et].
    unfold entry_given in *. by rewrite Eg, Et.
  - rewrite lookup_insert_ne by done. by apply (pc_given _ Hc).
Qed.

Lemma given_Some s n :
  s ∈ subtrees t0 → given s = Some n →
  n = loaded_of s 1 ∧ node_type n = tree_type s ∧ with_reference 1 n = n ∧ reference n = 1%Z.
Proof.
  intros Hs. unfold given. case_bool_decide; [|done]. intros [= <-].
  pose proof (subtrees_nonempty t0 s Hs). by destruct s.
Qed.

Lemma resolve_internal_given c s :
  proof_cache c → s ∈ subtrees t0 →
  ∃ c' e, resolve_internal (mhash s) c = (c', Ok e) ∧ proof_cache c' ∧ entry_given s e.
Proof.
  intros Hc Hs. pose proof (pc_given _ Hc s Hs) as He. unfold resolve_internal.
  rewrite (pc_deferred _ Hc), lookup_empty. destruct (entries c !! mhash s) as [e|] eqn:Ee; [by exists c, e|].
  rewrite He. assert (entry_given s (trackable_new (given s))) as Hnew.
  { unfold entry_given. destruct (given s) as [n|] eqn:Eg; [|done].
    destruct (given_Some s n Hs Eg) as (_ & Ht & _ & Hr). cbn. by rewrite Ht, Hr. }
  eexists _, _. split; [done|]. split; [|done]. by apply proof_cache_insert.
Qed.

Lemma resolve_given c s :
  proof_cache c → s ∈ subtrees t0 →
  ∃ c', resolve (mhash s) c = (c', Ok (given s)) ∧ proof_cache c'.
Proof.
  intros Hc Hs. destruct (resolve_internal_given c s Hc Hs) as (c1 & e & Hrun & Hc1 & Hg).
  unfold resolve. rewrite (mbind_ok _ _ _ _ _ Hrun).
  assert (∃ e', resolve_clone e = (e', Ok ((λ n, clone (with_reference 1 n)) <$> given s)) ∧ entry_given s e')
    as (e' & Hcl & Hg').
  { unfold entry_given in *. unfold resolve_clone. destruct (given s) as [n|] eqn:Eg.
    - destruct Hg as (-> & Hr & ->). rewrite Hr. eexists. split; [done|]. cbn.
      by destruct (given_Some s n Hs Eg) as (_ & _ & -> & _).
    - rewrite Hg. by eexists. }
  rewrite Hcl, (mbind_ok _ _ _ _ _ (write_entry_run _ _ _)), (mbind_ok (lift _) _ _ _ _ eq_refl).
  eexists. split; [|by apply proof_cache_insert].
  unfold mret, M_ret. do 2 f_equal. unfold given. case_bool_decide; [|done]. cbn. f_equal.
  by apply given_clone.
Qed.

(** *** The walk *)

Lemma get_given_hash t fuel p c r :
  tempty t = false → t ∈ subtrees t0 → proof_cache c →
  (∀ c', proof_cache c' → (try_get_node_path fuel p (c', loaded_of t 1)).2 = r) →
  (try_get_node_path (S fuel) p (c, stored_kid t)).2 = if bool_decide (mpayload t ∈ D) then r else Err Storage.
Proof.
  intros Ht Hin Hc Hr. destruct (resolve_given c t Hc Hin) as (c1 & Hrun & Hc1).
  cbn [try_get_node_path]. rewrite (mbind_ok (gets snd) _ _ _ _ eq_refl). cbn [snd].
  unfold stored_kid. rewrite Ht. cbn [node_type new_hash].
  rewrite (mbind_ok _ _ _ _ _ (on_cache_run _ _ _ _ _ Hrun)). unfold given.
  destruct (bool_decide _); [|done]. rewrite (mbind_ok (set_node _) _ _ _ _ eq_refl). by apply Hr.
Qed.

Lemma get_given t fuel p c :
  (∀ s, s ∈ subtrees t → s ∈ subtrees t0) → canon t → nibbles p → (2 * mdepth t p ≤ fuel)%nat →
  proof_cache c → (try_get_node_path fuel p (c, stored_kid t)).2 = mlookup_in t p.
Proof.
  revert fuel p c. induction t as [|v|k t IH|ts IH] using mpt_induction; intros fuel p c Hsub Hcan Hp Hf Hc;
    (destruct fuel as [|fuel]; [cbn in Hf; lia|]); [done|..];
    cbn [mlookup_in]; apply get_given_hash; try done; try (by apply Hsub; left); clear c Hc; intros c Hc;
    (destruct fuel as [|fuel]; [cbn in Hf; lia|]);
    cbn [try_get_node_path]; rewrite (mbind_ok (gets snd) _ _ _ _ eq_refl); cbn [snd];
    cbn [loaded_of stored_of set_accounted_hash with_accounted with_dirty node_type key].
  - done.
  - apply canon_ext in Hcan as (_ & _ & _ & Hcan).
    cbn [mdepth] in Hf. destruct (starts_with p k); [|done]. unfold on_next.
    change (next (loaded_of (TExt k t) 1)) with (Some (stored_kid t)).
    rewrite <-(IH fuel _ c); [|intros s Hs; apply Hsub; by right|done|by apply Forall_drop|lia|done].
    by destruct (try_get_node_path _ _ _) as [[? ?] ?].
  - assert (Hcan' := Hcan). apply canon_branch in Hcan' as (Hl & _ & _ & Hcs).
    destruct (ts !! (branch_step p).1) as [t|] eqn:Ht.
    2:{ apply lookup_ge_None in Ht. pose proof (branch_step_lt p Hp). lia. }
    rewrite (mdepth_branch ts p t Ht) in Hf. rewrite list_lookup_fmap, Ht. cbn [fmap option_fmap option_map].
    rewrite Forall_lookup in IH, Hcs.
    rewrite <-(IH _ t Ht fuel _ c);
      [|intros s Hs; apply Hsub; by eapply subtrees_branch|by eapply Hcs|by apply branch_step_nibbles|lia|done].
    destruct p; cbn [branch_step fst snd] in *; unfold on_child, get_child;
      change (children (loaded_of (TBranch ts) 1)) with (stored_kid <$> ts);
      rewrite list_lookup_fmap, Ht; cbn [fmap option_fmap option_map];
      by destruct (try_get_node_path _ _ _) as [[? ?] ?].
Qed.
End verify.

(** *** The store built from a proof *)

Section proof_store.
Context `{Crypto}.
Implicit Types (D : gset bytes) (l : list bytes) (s : gmap bytes bytes).

Definition proof_key (d : bytes) : bytes := node_key_bytes MPT_NODE_PREFIX (digest d).
Definition proof_rows l s : gmap bytes bytes := foldl (λ s d, <[proof_key d := d ++ [x01]]> s) s l.

Lemma build_proof_store_ok D : build_proof_store D = Ok (proof_rows (elements D) ∅).
Proof.
  assert (∀ l s, foldl (λ (r : Result MptError ProofStore) data, s ← r; proof_store_insert s data)
    (Ok s) l = Ok (proof_rows l s)) as Hl.
  { induction l as [|d l IH]; intros s; [done|].
    change (proof_rows (d :: l) s) with (proof_rows l (<[proof_key d := d ++ [x01]]> s)).
    rewrite <-IH. cbn [foldl mbind Result_bind]. unfold proof_store_insert. by rewrite from_bytes_hash256. }
  apply Hl.
Qed.

Lemma proof_rows_Some l s k v :
  proof_rows l s !! k = Some v → (∃ d, d ∈ l ∧ k = proof_key d ∧ v = d ++ [x01]) ∨ s !! k = Some v.
Proof.
  revert s. induction l as [|d l IH]; intros s Hk; [by right|].
  destruct (IH _ Hk) as [(d' & Hd' & E)|Hs]; [left; exists d'; split; [by right|exact E]|].
  apply lookup_insert_Some in Hs as [[<- <-]|[_ ?]]; [|by right]. left. exists d. split; [left|done].
Qed.

Lemma proof_rows_is_Some l s d :
  d ∈ l ∨ is_Some (s !! proof_key d) → is_Some (proof_rows l s !! proof_key d).
Proof.
  revert s. induction l as [|d' l IH]; intros s Hd; [by destruct Hd as [?%not_elem_of_nil|]|].
  apply IH. cbv beta. rewrite lookup_insert_is_Some'. destruct Hd as [[->|?]%elem_of_cons|?]; auto.
Qed.

Lemma proof_rows_lookup D t0 (s : mpt) :
  collision_free digest (elements D ++ (mpayload <$> subtrees t0)) → s ∈ subtrees t0 →
  proof_rows (elements D) ∅ !! node_key_bytes MPT_NODE_PREFIX (mhash s) =
  if bool_decide (mpayload s ∈ D) then Some (mpayload s ++ [x01]) else None.
Proof.
  intros Hcf Hs.
  assert (∀ v, proof_rows (elements D) ∅ !! node_key_bytes MPT_NODE_PREFIX (mhash s) = Some v →
    mpayload s ∈ D ∧ v = mpayload s ++ [x01]) as Hinv.
  { intros v [(d & Hd & Ek & ->)|Hv]%proof_rows_Some.
    - apply node_key_inj in Ek; [|apply mhash_wf|apply digest_wf].
      assert (mpayload s = d) as ->.
      { apply Hcf; [apply elem_of_app; right; by apply list_elem_of_fmap_2|apply elem_of_app; by left|done]. }
      split; [by apply elem_of_elements|done].
    - by rewrite lookup_empty in Hv. }
  case_bool_decide as E.
  - destruct (proof_rows_is_Some (elements D) ∅ (mpayload s)) as [v Hv]; [left; by apply elem_of_elements|].
    destruct (Hinv v Hv) as [_ <-]. done.
  - apply eq_None_not_Some. intros [v [? _]%Hinv]. done.
Qed.

Lemma proof_cache_new D t0 :
  Forall limit (subtrees t0) → collision_free digest (elements D ++ (mpayload <$> subtrees t0)) →
  proof_cache D t0 (new_with_reference_mode (proof_rows (elements D) ∅) MPT_NODE_PREFIX false false).
Proof.
  intros Hl Hcf. split; [done|]. cbn [entries new_with_reference_mode store prefix].
  intros s Hs. rewrite lookup_empty. unfold load_from_store_snapshot, try_get_node.
  assert (∀ k, try_get (St := ProofStore) (proof_rows (elements D) ∅) k = Ok (proof_rows (elements D) ∅ !! k))
    as -> by done.
  rewrite (proof_rows_lookup D t0 s Hcf Hs). unfold given. case_bool_decide; [|done].
  assert (canonical (stored_of s 1)) as (Hst & Hid & _).
  { rewrite Forall_forall in Hl. apply stored_of_canonical; [by eapply subtrees_nonempty|auto|lia]. }
  assert (mpayload s ++ [x01] = row (stored_of s 1)) as ->.
  { unfold row. rewrite stored_of_payload, stored_of_reference by (by eapply subtrees_nonempty). done. }
  cbn [mbind Result_bind decode_node]. by rewrite (decode_row _ Hst), Hid.
Qed.

(** What verification computes, whatever payloads it is given. *)
Lemma verify_proof_spec D m r k :
  valid_map m → root_of m = Some r →
  collision_free digest (elements D ++ (mpayload <$> subtrees (tree_of m))) →
  verify_proof r k D =
  if valid_key k then
    match mlookup_in D (tree_of m) (to_nibbles k) with
    | Ok (Some v) => Ok v
    | Ok None => Err Key
    | Err e => Err e
    end
  else Err Key.
Proof.
  intros Hv Hr Hcf. unfold verify_proof. rewrite build_proof_store_ok. cbn [mbind Result_bind].
  unfold get_required, trie_get. rewrite ensure_lookup_key_spec. destruct (valid_key k); [|done].
  pose proof (get_given D (tree_of m) (tree_of_limit m Hv) Hcf (tree_of m) (path_fuel (to_nibbles k))
    (to_nibbles k) _ (λ _ Hs, Hs) (tree_of_canon m) (nibbles_to_nibbles k)
    (path_fuel_enough _ _ (tree_of_canon m) (nibbles_to_nibbles k))
    (proof_cache_new D _ (tree_of_limit m Hv) Hcf)) as Hget.
  assert (root (trie_new (St := ProofStore) (proof_rows (elements D) ∅) (Some r) false) =
    stored_kid (tree_of m)) as Hroot.
  { unfold root_of in Hr. unfold stored_kid. destruct (tempty (tree_of m)); [done|]. by injection Hr as <-. }
  unfold mbind at 1, M_bind at 1. rewrite (mbind_ok (lift _) _ _ _ _ eq_refl). unfold on_root. rewrite Hroot.
  cbn [cache trie_new new_with_modes andb]. destruct (try_get_node_path _ _ _) as [[c n] [[v|]|e]];
    cbn [snd] in Hget; by rewrite <-Hget.
Qed.

Lemma verify_proof_sound D m r k v :
  valid_map m → root_of m = Some r →
  collision_free digest (elements D ++ (mpayload <$> subtrees (tree_of m))) →
  verify_proof r k D = Ok v → m !! k = Some v ∧ payload_set (mpath (tree_of m) (to_nibbles k)) ⊆ D.
Proof.
  intros Hv Hr Hcf. rewrite (verify_proof_spec D m r k Hv Hr Hcf). destruct (valid_key k); [|done].
  destruct (mlookup_in _ _ _) as [[w|]|e] eqn:E; try done. intros [= <-].
  apply mlookup_in_sound in E as [Hk Hp]. rewrite tree_of_lookup in Hk. split; [done|].
  intros d. unfold payload_set. rewrite elem_of_list_to_set. intros (s & -> & Hs)%list_elem_of_fmap.
  rewrite Forall_forall in Hp. by apply Hp.
Qed.

Lemma verify_proof_complete D m r k v :
  valid_map m → root_of m = Some r →
  collision_free digest (elements D ++ (mpayload <$> subtrees (tree_of m))) →
  m !! k = Some v → payload_set (mpath (tree_of m) (to_nibbles k)) ⊆ D → verify_proof r k D = Ok v.
Proof.
  intros Hv Hr Hcf Hk Hsub. rewrite (verify_proof_spec D m r k Hv Hr Hcf). destruct (Hv k v Hk) as [-> _].
  rewrite mlookup_in_complete; rewrite ?tree_of_lookup, ?Hk; try done.
  apply Forall_forall. intros s Hs. apply Hsub. unfold payload_set.
  apply elem_of_list_to_set. by apply list_elem_of_fmap_2.
Qed.

(** (C24) Merkle proofs are sound and complete.  Against the root hash of a
    map, verification of a proof assembled by anyone returns a value if and
    only if the map has that value under the key and the proof contains the
    payloads of all the nodes on the key's path; every other proof is
    answered with an error.  The payloads of the proof and of the tree must
    not make the hash collide. *)
Theorem verify_proof_sound_complete D m r k :
  valid_map m → root_of m = Some r →
  collision_free digest (elements D ++ (mpayload <$> subtrees (tree_of m))) →
  ∀ v, verify_proof r k D = Ok v ↔ m !! k = Some v ∧ payload_set (mpath (tree_of m) (to_nibbles k)) ⊆ D.
Proof.
  intros Hv Hr Hcf v. split; [by eapply verify_proof_sound|intros []; by eapply verify_proof_complete].
Qed.
End proof_store.

(** ** Proofs from the trie *)

Section roundtrip.
Context `{Crypto} `{MptStoreSnapshot St} {fs dnf dint : bool} `{!TrieCache St fs dnf dint}.

Lemma mpath_subtrees t p s : s ∈ mpath t p → s ∈ subtrees t.
Proof.
  revert p. induction t as [|v|k t IH|ts IH] using mpt_induction; intros p; cbn [mpath subtrees].
  - done.
  - destruct p; [done|by intros ?%not_elem_of_nil].
  - destruct (starts_with p k); [|by intros ?%not_elem_of_nil].
    intros [->|?]%elem_of_cons; [left|right]. eauto.
  - rewrite list_lookup_fmap. intros [->|Hs]%elem_of_cons; [left|].
    destruct (ts !! (branch_step p).1) as [t|] eqn:Ht; [|by apply not_elem_of_nil in Hs].
    cbn in Hs. rewrite Forall_lookup in IH. eapply (subtrees_branch ts _ t Ht). by eapply IH.
Qed.

(** (C25) Proofs taken from a trie verify.  In every mode of the trie, for a trie
    that represents a map ([sim]) whose node payloads do not collide,
    [try_get_proof] succeeds exactly on the keys present, rejects invalid
    keys, and the proof it returns verifies, against the root hash of the
    trie, to the value the trie holds. *)
Theorem proof_roundtrip q F (T : Trie (St := St)) m k :
  sim fs dnf dint q F T m → collision_free digest (mpayload <$> subtrees (tree_of m)) →
  match (try_get_proof k T).2 with
  | Ok (Some proof) =>
      ∃ r v, root_hash T = Some r ∧ m !! k = Some v ∧ verify_proof r k proof = Ok v
  | Ok None => valid_key k = true ∧ m !! k = None
  | Err e => valid_key k = false ∧ e = Key
  end.
Proof.
  intros Hsim Hcf. destruct (proof_sim q F T m k Hsim) as (T' & -> & _). cbn [snd].
  destruct (valid_key k); [|done]. case_bool_decide as E; [|by apply eq_None_not_Some in E].
  rewrite (root_hash_sim _ _ _ _ Hsim). destruct E as [v Hk].
  assert (tempty (tree_of m) = false) as Ht.
  { apply not_true_is_false. rewrite tree_of_empty. intros ->. by rewrite lookup_empty in Hk. }
  assert (root_of m = Some (mhash (tree_of m))) as Hr by (unfold root_of; by rewrite Ht).
  exists (mhash (tree_of m)), v. split_and!; [done..|].
  apply (verify_proof_complete _ m); try done; [exact (sim_valid _ _ _ _ Hsim)|].
  eapply collision_free_mono; [|exact Hcf]. intros p [Hp|?]%elem_of_app; [|done].
  apply elem_of_elements, elem_of_list_to_set, list_elem_of_fmap in Hp as (s & -> & Hs).
  by eapply list_elem_of_fmap_2, mpath_subtrees.
Qed.
End roundtrip.

Section sample.
#[local] Existing Instance sha256_crypto.
#[local] Open Scope string_scope.

Definition proof_calls : list call := take 4 sample_calls.
Definition proof_map : kvmap := (run_all spec_call proof_calls ∅).1.
Definition proof_root : UInt256.t := default UInt256.zero (root_of proof_map).
Definition proof_given : gset bytes :=
  payload_set (mpath (tree_of proof_map) (to_nibbles (bytes_of_string "ac01"))).

Lemma verify_proof_sound_complete_witness :
  proof_map !! bytes_of_string "ac01" = Some (default [] (proof_map !! bytes_of_string "ac01")) ∧
  verify_proof proof_root (bytes_of_string "ac01") proof_given =
    Ok (default [] (proof_map !! bytes_of_string "ac01")).
Proof.
  assert (proof_map !! bytes_of_string "ac01" = Some (default [] (proof_map !! bytes_of_string "ac01"))) as E
    by (vm_compute; reflexivity).
  split; [exact E|]. apply (verify_proof_sound_complete proof_given proof_map proof_root).
  - by repeat apply map_Forall_insert_2.
  - vm_compute. reflexivity.
  - apply collision_freeb_spec. vm_compute. reflexivity.
  - split; [exact E|done].
Defined.

Lemma proof_roundtrip_witness :
  match (try_get_proof (bytes_of_string "ac01")
           (run_all run_call proof_calls (open_trie false (∅ : ProofStore) ∅)).1).2 with
  | Ok (Some proof) =>
      ∃ r v, root_hash (run_all run_call proof_calls (open_trie false (∅ : ProofStore) ∅)).1 = Some r ∧
        proof_map !! bytes_of_string "ac01" = Some v ∧
        verify_proof r (bytes_of_string "ac01") proof = Ok v
  | Ok None =>
      valid_key (bytes_of_string "ac01") = true ∧ proof_map !! bytes_of_string "ac01" = None
  | Err e => valid_key (bytes_of_string "ac01") = false ∧ e = Key
  end.
Proof.
  apply (proof_roundtrip (TrieCache0 := pruning_mode) 0 [] _ proof_map).
  - apply (session_prune [] proof_calls).
    + apply open_trie_ok; [exact sample_store|apply map_Forall_empty].
    + apply finalizable_atb_spec. vm_compute. reflexivity.
  - apply collision_freeb_spec. vm_compute. reflexivity.
Defined.
End sample.
