(* ===== verification/MptCacheThms.v ===== *)
(** * What the node cache promises

    The properties of [MptCache] as a component of its own, stated on the map
    of reference-counted rows it stands for ([view], MptCacheFacts.v). *)
From S2P Require Import Prelude Primitives Order Io MptNode MptNodeFacts MptCache MptTrie MptSpec.
From S2P Require Import MptCacheFacts MptCommitFacts MptRefine MptModes MptFinal MptMap MptOps MptPrune Sha256 Instances.
Import NodeType Node NodeCodec.

Section theorems.
Context `{Crypto} `{LawfulStore St}.
Implicit Types (c : MptCache St) (h : UInt256.t).

Lemma export_ok c b : cache_ok c → cache_ok (set_deferred_journal_export b c).
Proof.
  intros [? ? ? ? Hj ?]. split; try done. destruct Hj as [js [? ? ?]]. exists js. by split.
Qed.

(** (C26) The cache is a reference-counted map.  In every mode, resolving
    a hash returns the node of its row, marked as accounted for, and changes
    nothing; releasing a hash removes one reference, and the row with the
    last; finalizing a batch of nodes adds one reference for each, in
    order, creating rows as needed; a checkpoint changes nothing.  In a cache
    that resolves references at once, putting a payload adds one reference to
    its row, or creates it with one.  None of
    them fails, and they preserve the invariant of the cache: an entry is
    never both cached and journaled, and cached rows are valid. *)
Theorem cache_is_refcounted_map c h :
  cache_ok c → UInt256.wf h →
  (∃ c' r, resolve h c = (c', Ok r) ∧ cache_ok c' ∧ (∀ h', view c' h' = view c h') ∧
     match view c h with
     | None => r = None
     | Some s => ∃ m, canonical m ∧ s = row_state m ∧ h = digest (payload_bytes m) ∧
         r = Some (set_accounted_hash h m)
     end) ∧
  (∃ c', delete_node h c = (c', Ok tt) ∧ cache_ok c' ∧
     (∀ h', view c' h' = if bool_decide (h' = h) then replay_operation DDelete (view c h)
                         else view c h')) ∧
  (∀ ps v', puts_give (view c) ps v' →
     ∃ c', finalize_prepared_nodes ps c = (c', Ok tt) ∧ cache_ok c' ∧ ∀ h', view c' h' = v' h') ∧
  (cache_ok (checkpoint_entries c) ∧ ∀ h', view (checkpoint_entries c) h' = view c h') ∧
  (∀ ty payload m, defer_reference_resolution c = false → put_gives (view c h) h ty payload m →
     ∃ c', put_node_with_payload None ty h payload c = (c', Ok tt) ∧ cache_ok c' ∧
       ∀ h', view c' h' = if bool_decide (h' = h) then Some (row_state m) else view c h').
Proof.
  intros Hc Hw. split_and!.
  - destruct (resolve_ok c h Hc Hw) as (c' & r & ? & ? & _ & ? & ?). by exists c', r.
  - destruct (delete_node_ok c h Hc Hw) as (c' & ? & ? & _ & ?). by exists c'.
  - intros ps v' Hps. destruct (finalize_prepared_nodes_ok c ps v' Hc Hps) as (c' & ? & ? & _ & ?). by exists c'.
  - apply (checkpoint_ok c Hc).
  - apply (checkpoint_ok c Hc).
  - intros ty payload m Hm Hput. destruct (put_node_with_payload_ok c h ty payload m Hc Hm Hput) as (c' & ? & ? & _ & ?).
    by exists c'.
Qed.

(** A commit publishes the map.  It succeeds, leaves the cache empty
    and still valid, and the store then has exactly the rows of the map:
    under a node key the serialization of its row, or nothing, and everything
    else as it was.  This holds whether the journal is resolved by the cache
    or handed to the store, which may accept or decline it. *)
Theorem commit_publishes_map c :
  cache_ok c →
  ∃ c', commit c = (c', Ok tt) ∧ cache_ok c' ∧ entries c' = ∅ ∧ deferred_entries c' = ∅ ∧
    (∀ h, UInt256.wf h →
       contents (store c') !! node_key_bytes (prefix c) h = row_bytes (view c h) ∧
       view c' h = view c h) ∧
    (∀ k, (∀ h, UInt256.wf h → k ≠ node_key_bytes (prefix c) h) →
       contents (store c') !! k = contents (store c) !! k).
Proof.
  intros Hc. destruct (commit_ok c Hc) as (c' & ? & ? & ? & ? & _ & _ & _ & [Hrows Helse] & Hv).
  exists c'. split_and!; try done. intros h Hw. split; [by apply Hrows|by apply Hv].
Qed.

(** (C27) The exported journal is exact.  When the journal of a valid cache can be exported,
    it has one entry for each journaled hash and no two for one key, and
    resolving an entry against the stored row, as the backing store does,
    gives the very bytes that the cache's own resolution writes. *)
Theorem exported_journal_exact c journal :
  cache_ok c → summarize_deferred_journal c = Some journal →
  NoDup (u_key <$> journal) ∧
  (∀ u, u ∈ journal → ∃ h bs, is_Some (deferred_entries c !! h) ∧ u_key u = node_key_bytes (prefix c) h ∧
     resolve_bytes u (contents (store c) !! u_key u) = Ok bs ∧ row_bytes (view c h) = Some bs) ∧
  (∀ h, is_Some (deferred_entries c !! h) → node_key_bytes (prefix c) h ∈ (u_key <$> journal)).
Proof.
  intros Hc Hj. destruct (exported_flush c journal Hc Hj) as (Hnd & _ & _). split; [done|].
  unfold summarize_deferred_journal in Hj. apply bind_Some in Hj as (us & Hm & [= <-]).
  apply mapM_Some_1 in Hm.
  assert (∀ u, u ∈ sort_by_key u_key us ↔ u ∈ us) as Hperm.
  { intros u. unfold sort_by_key. by rewrite (merge_sort_Permutation _ us). }
  split.
  - intros u Hu%Hperm. apply list_elem_of_lookup in Hu as [i Hi].
    destruct (Forall2_lookup_r _ _ _ _ _ Hm Hi) as ([h d] & Hd & Hs).
    apply list_elem_of_lookup_2, elem_of_map_to_list in Hd.
    apply bind_Some in Hs as ([u'|] & Hs & Hu'); [|done]. injection Hu' as ->.
    destruct (resolve_bytes_ok c h d u Hc Hd Hs) as (Hk & bs & Hr & Hv). exists h, bs.
    rewrite Hk. split_and!; [by eexists|done..].
  - intros h [d Hd]. apply elem_of_map_to_list, list_elem_of_lookup in Hd as [i Hi].
    destruct (Forall2_lookup_l _ _ _ _ _ Hm Hi) as (u & Hu & Hs).
    apply bind_Some in Hs as ([u'|] & Hs & Hu'); [|done]. injection Hu' as ->.
    apply list_elem_of_lookup_2, elem_of_map_to_list in Hi.
    destruct (resolve_bytes_ok c h d u Hc Hi Hs) as (<- & _).
    apply list_elem_of_fmap_2, Hperm. by eapply list_elem_of_lookup_2.
Qed.
End theorems.

(** ** A journaled cache *)

Section sample.
#[local] Existing Instance sha256_crypto.

Definition sample_leaves : list mpt := [TLeaf [x01]; TLeaf [x02]; TLeaf [x01]].

(** A deferred cache over an empty store into which three leaves, two of
    them equal, have been journaled. *)
Definition sample_cache : MptCache ProofStore :=
  set_deferred_journal_export true
    (defer_prepared_nodes (pend <$> sample_leaves) (new_with_reference_mode ∅ MPT_NODE_PREFIX true true)).

Lemma sample_puts : ∃ v', puts_give (λ _, None) (pend <$> sample_leaves) v'.
Proof.
  destruct (puts_trees (λ _, None) [] sample_leaves) as (v' & Hputs & _); [| | | |by exists v'].
  - by split; [|intros t Ht; apply not_elem_of_nil in Ht|].
  - by repeat constructor.
  - apply collision_freeb_spec. vm_compute. reflexivity.
  - done.
Qed.

Lemma sample_cache_ok : cache_ok sample_cache.
Proof.
  destruct (fresh_cache (∅ : ProofStore) true true) as [Hc Hv].
  { apply (proj1 sample_store). }
  destruct sample_puts as [v' Hputs].
  apply export_ok. eapply defer_prepared_nodes_ok; [exact Hc|done|].
  eapply puts_give_ext; [|exact Hputs]. intros h. rewrite Hv. unfold node_rows. by rewrite contents_empty.
Qed.

Definition sample_hash : UInt256.t := mhash (TLeaf [x01]).

Lemma cache_is_refcounted_map_witness :
  (∃ c' r, resolve sample_hash sample_cache = (c', Ok r) ∧ cache_ok c' ∧
     (∀ h', view c' h' = view sample_cache h') ∧
     match view sample_cache sample_hash with
     | None => r = None
     | Some s => ∃ m, canonical m ∧ s = row_state m ∧ sample_hash = digest (payload_bytes m) ∧
         r = Some (set_accounted_hash sample_hash m)
     end) ∧
  (∃ c', delete_node sample_hash sample_cache = (c', Ok tt) ∧ cache_ok c' ∧
     (∀ h', view c' h' = if bool_decide (h' = sample_hash)
                         then replay_operation DDelete (view sample_cache sample_hash)
                         else view sample_cache h')) ∧
  (∀ ps v', puts_give (view sample_cache) ps v' →
     ∃ c', finalize_prepared_nodes ps sample_cache = (c', Ok tt) ∧ cache_ok c' ∧
       ∀ h', view c' h' = v' h') ∧
  (cache_ok (checkpoint_entries sample_cache) ∧
   ∀ h', view (checkpoint_entries sample_cache) h' = view sample_cache h') ∧
  (∀ ty payload m, defer_reference_resolution sample_cache = false →
     put_gives (view sample_cache sample_hash) sample_hash ty payload m →
     ∃ c', put_node_with_payload None ty sample_hash payload sample_cache = (c', Ok tt) ∧ cache_ok c' ∧
       ∀ h', view c' h' = if bool_decide (h' = sample_hash) then Some (row_state m) else view sample_cache h').
Proof. exact (cache_is_refcounted_map sample_cache sample_hash sample_cache_ok (mhash_wf (TLeaf [x01]))). Defined.

Lemma commit_publishes_map_witness :
  ∃ c', commit sample_cache = (c', Ok tt) ∧ cache_ok c' ∧ entries c' = ∅ ∧ deferred_entries c' = ∅ ∧
    (∀ h, UInt256.wf h →
       contents (store c') !! node_key_bytes (prefix sample_cache) h = row_bytes (view sample_cache h) ∧
       view c' h = view sample_cache h) ∧
    (∀ k, (∀ h, UInt256.wf h → k ≠ node_key_bytes (prefix sample_cache) h) →
       contents (store c') !! k = contents (store sample_cache) !! k).
Proof. exact (commit_publishes_map sample_cache sample_cache_ok). Defined.

Definition sample_journal : list UnresolvedDeferredNode :=
  default [] (summarize_deferred_journal sample_cache).

Lemma exported_journal_exact_witness :
  (2 = length sample_journal)%nat ∧
  NoDup (u_key <$> sample_journal) ∧
  (∀ u, u ∈ sample_journal → ∃ h bs, is_Some (deferred_entries sample_cache !! h) ∧
     u_key u = node_key_bytes (prefix sample_cache) h ∧
     resolve_bytes u (contents (store sample_cache) !! u_key u) = Ok bs ∧
     row_bytes (view sample_cache h) = Some bs) ∧
  (∀ h, is_Some (deferred_entries sample_cache !! h) →
     node_key_bytes (prefix sample_cache) h ∈ (u_key <$> sample_journal)).
Proof.
  split; [vm_compute; reflexivity|].
  apply (exported_journal_exact sample_cache sample_journal sample_cache_ok). vm_compute. reflexivity.
Defined.
End sample.
