(* ===== verification/Genesis.v ===== *)
(** * The genesis state root

    The trie model evaluated on the storage of the Neo N3 MainNet genesis block
    (the vector of src/neo-trie/src/tests/mpt_trie/diagnostics.rs) gives the
    state root of the reference implementation. *)
From S2P Require Import Prelude Primitives Io MptNode MptCache MptTrie Sha256 Instances.

#[local] Existing Instance sha256_crypto.
#[local] Open Scope string_scope.

Definition genesis_storage : list (bytes * bytes) :=
    [(unhex "f7ffffff05", unhex "80f0fa02");
     (unhex "f7ffffff09", []);
     (unhex "f9ffffff0a", unhex "e803");
     (unhex "f9ffffff12", unhex "1e");
     (unhex "f9ffffff13", unhex "a08601");
     (unhex "faffffff0b", unhex "80f0cf5b5f7912");
     (unhex "faffffff146b123dd8bec718648852bbc78595e3536a058f9f", unhex "410121070000d5585f7912");
     (unhex "faffffff1496949ed482e7c60aaeec691550f1b3d599146194", unhex "4101210480f0fa02");
     (unhex "fbffffff01", []);
     (unhex "fbffffff0b", unhex "00e1f505");
     (unhex "fbffffff0d", unhex "00e8764817");
     (unhex "fbffffff0e", unhex ("40154102282103b209fd4f53a7170ea4444e0cb0a6bb6a53c2bd016926989cf85f9b0fba17a70c2100410228"
      ++ "2102df48f60e8f3e01c48ff40b9b7f1310d7a8b2a193188befe1c2e3df740e89509321004102282103b8d9d5"
      ++ "771d8f513aa0869b9cc8d50986403b78c6da36890638c3d46a5adce04a21004102282102ca0e27697b9c248f"
      ++ "6f16e085fd0061e26f44da85b58ee835c110caa5ec3ba554210041022821024c7b7fb6c310fccf1ba33b0825"
      ++ "19d82964ea93868d676662d4a59ad548df0e7d21004102282102aaec38470f6aad0042c6e877cfd8087d2676"
      ++ "b0f516fddd362801b9bd3936399e21004102282102486fd15702c4490a26703112a5cc1d0923fd697a33406b"
      ++ "d5a1c00e0013b09a70210041022821023a36c72844610b4d34d1968662424011bf783ca9d984efa19a20babf"
      ++ "5582f3fe21004102282103708b860c1de5d87f5b151a12c2a99feebd2e8b315ee8e7cf8aa19692a9e1837921"
      ++ "004102282103c6aa6e12638b36e88adc1ccdceac4db9929575c3e03576c617c49cce7114a050210041022821"
      ++ "03204223f8c86b8cd5c89ef12e4f0dbb314172e9241e30c9ef2293790793537cf021004102282102a62c915c"
      ++ "f19c7f19a50ec217e79fac2439bbaad658493de0c7d8ffa92ab0aa6221004102282103409f31f0d66bdc2f70"
      ++ "a9730b66fe186658f84a8018204db01c106edc36553cd02100410228210288342b141c30dc8ffcde0204929b"
      ++ "b46aed5756b41ef4a56778d15ada8f0c6654210041022821020f2887f41474cfeb11fd262e982051c1541418"
      ++ "137c02a0f4961af911045de6392100410228210222038884bbd1d8ff109ed3bdef3542e768eef76c1247aea8"
      ++ "bc8171f532928c3021004102282103d281b42002647f0113f36c7b8efb30db66078dfaaa9ab3ff76d043a98d"
      ++ "512fde21004102282102504acbc1f4b3bdad1d86d6e1a08603771db135a73e61c9d565ae06a1938cd2ad2100"
      ++ "410228210226933336f1b75baa42d42b71d9091508b638046d19abd67f4e119bf64a7cfb4d21004102282103"
      ++ "cdcea66032b82f5c30450e381e5295cae85c5e6943af716cc6b646352a6067dc21004102282102cd5a554711"
      ++ "9e24feaa7c2a0f37b8c9366216bab7054de0065c9be42084003c8a2100"));
     (unhex "fbffffff146b123dd8bec718648852bbc78595e3536a058f9f", unhex "4104210400e1f5052100002100");
     (unhex "fbffffff1d00000000", unhex "0065cd1d");
     (unhex "ffffffff081bf575ab1189688413610a35a12886cde0b66c72", unhex ("40052101fd210028141bf575ab1189688413610a35a12886cde0b66c7228944e4546336e656f2d636f72652d"
      ++ "76332e3000000000000000000000000000000000000000000000000000000000000000000000000000000000"
      ++ "000000000000000000000000000000004610411af77b674010411af77b674010411af77b674010411af77b67"
      ++ "4010411af77b674010411af77b674010411af77b674010411af77b674010411af77b674010411af77b6740b9"
      ++ "98507f4108280943727970746f4c69624000480040004102400a4105280b626c733132333831416464400241"
      ++ "0228017821013041022801792101302101302100200141052813626c733132333831446573657269616c697a"
      ++ "654001410228046461746121011221013021010720014105280d626c733132333831457175616c4002410228"
      ++ "0178210130410228017921013021011021010e20014105280b626c7331323338314d756c4003410228017821"
      ++ "0130410228036d756c210112410228036e656721011021013021011520014105280f626c7331323338315061"
      ++ "6972696e67400241022802673121013041022802673221013021013021011c200141052811626c7331323338"
      ++ "3153657269616c697a65400141022801672101302101122101232001410528086d75726d7572333240024102"
      ++ "280464617461210112410228047365656421011121011221012a200141052809726970656d64313630400141"
      ++ "0228046461746121011221011221013120014105280673686132353640014102280464617461210112210112"
      ++ "21013820014105280f7665726966795769746845434473614004410228076d65737361676521011241022806"
      ++ "7075626b6579210112410228097369676e617475726521011241022805637572766521011121011021013f20"
      ++ "014000400141020000400028046e756c6c"));
     (unhex "ffffffff08588717117e0aa81072afab71d2dd89fe7c4b92fe", unhex ("40052101f721002814588717117e0aa81072afab71d2dd89fe7c4b92fe28714e4546336e656f2d636f72652d"
      ++ "76332e3000000000000000000000000000000000000000000000000000000000000000000000000000000000"
      ++ "000000000000000000000000000000002310411af77b674010411af77b674010411af77b674010411af77b67"
      ++ "4010411af77b67405141c79e4108280e4f7261636c65436f6e74726163744000480040004102400541052806"
      ++ "66696e69736840002102ff002100200041052808676574507269636540002101112101072001410528077265"
      ++ "717565737440054102280375726c2101134102280666696c7465722101134102280863616c6c6261636b2101"
      ++ "1341022808757365724461746121004102280e676173466f72526573706f6e73652101112102ff0021010e20"
      ++ "0041052808736574507269636540014102280570726963652101112102ff0021011520004105280676657269"
      ++ "6679400021011021011c200140024102280d4f7261636c655265717565737440044102280249642101114102"
      ++ "280f52657175657374436f6e74726163742101144102280355726c2101134102280646696c74657221011341"
      ++ "02280e4f7261636c65526573706f6e736540024102280249642101114102280a4f726967696e616c54782101"
      ++ "15400141020000400028046e756c6c"));
     (unhex "ffffffff087bc681c0a1f71d543457b68bba8d5f9fdd4e5ecc", unhex ("40052101f9210028147bc681c0a1f71d543457b68bba8d5f9fdd4e5ecc289b4e4546336e656f2d636f72652d"
      ++ "76332e3000000000000000000000000000000000000000000000000000000000000000000000000000000000"
      ++ "000000000000000000000000000000004d10411af77b674010411af77b674010411af77b674010411af77b67"
      ++ "4010411af77b674010411af77b674010411af77b674010411af77b674010411af77b674010411af77b674010"
      ++ "411af77b6740481139414108280e506f6c696379436f6e74726163744000480040004102400b4105280c626c"
      ++ "6f636b4163636f756e744001410228076163636f756e74210114210110210020004105280f67657441747472"
      ++ "696275746546656540014102280d617474726962757465547970652101112101112101072001410528106765"
      ++ "7445786563466565466163746f72400021011121010e20014105280d67657446656550657242797465400021"
      ++ "011121011520014105280f67657453746f726167655072696365400021011121011c2001410528096973426c"
      ++ "6f636b65644001410228076163636f756e7421011421011021012320014105280f7365744174747269627574"
      ++ "6546656540024102280d617474726962757465547970652101114102280576616c75652101112102ff002101"
      ++ "2a20004105281073657445786563466565466163746f7240014102280576616c75652101112102ff00210131"
      ++ "20004105280d7365744665655065724279746540014102280576616c75652101112102ff0021013820004105"
      ++ "280f73657453746f72616765507269636540014102280576616c75652101112102ff0021013f20004105280e"
      ++ "756e626c6f636b4163636f756e744001410228076163636f756e742101142101102101462000400040014102"
      ++ "0000400028046e756c6c"));
     (unhex "ffffffff08bef2043140362a77c15099c7e64c12f700b665da", unhex ("40052101fc21002814bef2043140362a77c15099c7e64c12f700b665da28864e4546336e656f2d636f72652d"
      ++ "76332e3000000000000000000000000000000000000000000000000000000000000000000000000000000000"
      ++ "000000000000000000000000000000003810411af77b674010411af77b674010411af77b674010411af77b67"
      ++ "4010411af77b674010411af77b674010411af77b674010411af77b67409d382d424108280e4c656467657243"
      ++ "6f6e7472616374400048004000410240084105280b63757272656e7448617368400021011521002001410528"
      ++ "0c63757272656e74496e6465784000210111210107200141052808676574426c6f636b40014102280b696e64"
      ++ "65784f724861736821011221012021010e20014105280e6765745472616e73616374696f6e40014102280468"
      ++ "6173682101152101202101152001410528176765745472616e73616374696f6e46726f6d426c6f636b400241"
      ++ "022810626c6f636b496e6465784f7248617368210112410228077478496e64657821011121012021011c2001"
      ++ "410528146765745472616e73616374696f6e4865696768744001410228046861736821011521011121012320"
      ++ "01410528156765745472616e73616374696f6e5369676e657273400141022804686173682101152101202101"
      ++ "2a2001410528156765745472616e73616374696f6e564d537461746540014102280468617368210115210111"
      ++ "21013120014000400141020000400028046e756c6c"));
     (unhex "ffffffff08c0ef39cee0e4e925c6c2a06a79e1440dd86fceac", unhex ("40052101fe21002814c0ef39cee0e4e925c6c2a06a79e1440dd86fceac28e14e4546336e656f2d636f72652d"
      ++ "76332e3000000000000000000000000000000000000000000000000000000000000000000000000000000000"
      ++ "000000000000000000000000000000009310411af77b674010411af77b674010411af77b674010411af77b67"
      ++ "4010411af77b674010411af77b674010411af77b674010411af77b674010411af77b674010411af77b674010"
      ++ "411af77b674010411af77b674010411af77b674010411af77b674010411af77b674010411af77b674010411a"
      ++ "f77b674010411af77b674010411af77b674010411af77b674010411af77b674031b2b576410828065374644c"
      ++ "6962400048004000410240154105280461746f6940014102280576616c756521011321011121002001410528"
      ++ "0461746f6940024102280576616c756521011341022804626173652101112101112101072001410528116261"
      ++ "73653538436865636b4465636f64654001410228017321011321011221010e20014105281162617365353843"
      ++ "6865636b456e636f64654001410228046461746121011221011321011520014105280c626173653538446563"
      ++ "6f64654001410228017321011321011221011c20014105280c626173653538456e636f646540014102280464"
      ++ "61746121011221011321012320014105280c6261736536344465636f64654001410228017321011321011221"
      ++ "012a20014105280c626173653634456e636f6465400141022804646174612101122101132101312001410528"
      ++ "0b646573657269616c697a6540014102280464617461210112210021013820014105280469746f6140014102"
      ++ "280576616c756521011121011321013f20014105280469746f6140024102280576616c756521011141022804"
      ++ "6261736521011121011321014620014105280f6a736f6e446573657269616c697a654001410228046a736f6e"
      ++ "210112210021014d20014105280d6a736f6e53657269616c697a654001410228046974656d21002101122101"
      ++ "5420014105280d6d656d6f7279436f6d70617265400241022804737472312101124102280473747232210112"
      ++ "21011121015b20014105280c6d656d6f72795365617263684002410228036d656d2101124102280576616c75"
      ++ "6521011221011121016220014105280c6d656d6f72795365617263684003410228036d656d21011241022805"
      ++ "76616c756521011241022805737461727421011121011121016920014105280c6d656d6f7279536561726368"
      ++ "4004410228036d656d2101124102280576616c7565210112410228057374617274210111410228086261636b"
      ++ "7761726421011021011121017020014105280973657269616c697a654001410228046974656d210021011221"
      ++ "01772001410528067374724c656e40014102280373747221011321011121017e20014105280b737472696e67"
      ++ "53706c697440024102280373747221011341022809736570617261746f722101132101202102850020014105"
      ++ "280b737472696e6753706c697440034102280373747221011341022809736570617261746f72210113410228"
      ++ "1272656d6f7665456d707479456e747269657321011021012021028c0020014000400141020000400028046e"
      ++ "756c6c"));
     (unhex "ffffffff08cf76e28bd0062c4a478ee35561011319f3cfa4d2", unhex ("40052101fa21002814cf76e28bd0062c4a478ee35561011319f3cfa4d228714e4546336e656f2d636f72652d"
      ++ "76332e3000000000000000000000000000000000000000000000000000000000000000000000000000000000"
      ++ "000000000000000000000000000000002310411af77b674010411af77b674010411af77b674010411af77b67"
      ++ "4010411af77b67405141c79e41082808476173546f6b656e40004800400128064e45502d3137410240054105"
      ++ "280962616c616e63654f664001410228076163636f756e742101142101112100200141052808646563696d61"
      ++ "6c73400021011121010720014105280673796d626f6c400021011321010e20014105280b746f74616c537570"
      ++ "706c7940002101112101152001410528087472616e7366657240044102280466726f6d21011441022802746f"
      ++ "21011441022806616d6f756e742101114102280464617461210021011021011c20004001410228085472616e"
      ++ "7366657240034102280466726f6d21011441022802746f21011441022806616d6f756e742101114001410200"
      ++ "00400028046e756c6c"));
     (unhex "ffffffff08e295e391544c178ad94f03ec4dcdff78534ecf49", unhex ("40052101f821002814e295e391544c178ad94f03ec4dcdff78534ecf49285c4e4546336e656f2d636f72652d"
      ++ "76332e3000000000000000000000000000000000000000000000000000000000000000000000000000000000"
      ++ "000000000000000000000000000000000e10411af77b674010411af77b6740a621a13a4108280e526f6c654d"
      ++ "616e6167656d656e74400048004000410240024105280f64657369676e6174654173526f6c65400241022804"
      ++ "726f6c65210111410228056e6f6465732101202102ff00210020004105281367657444657369676e61746564"
      ++ "4279526f6c65400241022804726f6c6521011141022805696e64657821011121012021010720014001410228"
      ++ "0b44657369676e6174696f6e400241022804526f6c652101114102280a426c6f636b496e6465782101114001"
      ++ "41020000400028046e756c6c"));
     (unhex "ffffffff08f563ea40bc283d4d0e05c48ea305b3f2a07340ef", unhex ("40052101fb21002814f563ea40bc283d4d0e05c48ea305b3f2a07340ef28d34e4546336e656f2d636f72652d"
      ++ "76332e3000000000000000000000000000000000000000000000000000000000000000000000000000000000"
      ++ "000000000000000000000000000000008510411af77b674010411af77b674010411af77b674010411af77b67"
      ++ "4010411af77b674010411af77b674010411af77b674010411af77b674010411af77b674010411af77b674010"
      ++ "411af77b674010411af77b674010411af77b674010411af77b674010411af77b674010411af77b674010411a"
      ++ "f77b674010411af77b674010411af77b67407bf3e603410828084e656f546f6b656e40004800400128064e45"
      ++ "502d3137410240134105280962616c616e63654f664001410228076163636f756e7421011421011121002001"
      ++ "41052808646563696d616c73400021011121010720014105280f6765744163636f756e745374617465400141"
      ++ "0228076163636f756e7421011421012021010e200141052810676574416c6c43616e64696461746573400021"
      ++ "013021011520014105281067657443616e646964617465566f74654001410228067075624b65792101162101"
      ++ "1121011c20014105280d67657443616e64696461746573400021012021012320014105280c676574436f6d6d"
      ++ "6974746565400021012021012a20014105280e676574476173506572426c6f636b4000210111210131200141"
      ++ "0528166765744e657874426c6f636b56616c696461746f727340002101202101382001410528106765745265"
      ++ "6769737465725072696365400021011121013f200141052811726567697374657243616e6469646174654001"
      ++ "410228067075626b657921011621011021014620004105280e736574476173506572426c6f636b4001410228"
      ++ "0b676173506572426c6f636b2101112102ff0021014d20004105281073657452656769737465725072696365"
      ++ "40014102280d726567697374657250726963652101112102ff0021015420004105280673796d626f6c400021"
      ++ "011321015b20014105280b746f74616c537570706c7940002101112101622001410528087472616e73666572"
      ++ "40044102280466726f6d21011441022802746f21011441022806616d6f756e74210111410228046461746121"
      ++ "0021011021016920004105280c756e636c61696d65644761734002410228076163636f756e74210114410228"
      ++ "03656e64210111210111210170200141052813756e726567697374657243616e646964617465400141022806"
      ++ "7075626b6579210116210110210177200041052804766f74654002410228076163636f756e74210114410228"
      ++ "06766f7465546f21011621011021017e20004003410228085472616e7366657240034102280466726f6d2101"
      ++ "1441022802746f21011441022806616d6f756e742101114102281543616e6469646174655374617465436861"
      ++ "6e6765644003410228067075626b65792101164102280a7265676973746572656421011041022805766f7465"
      ++ "7321011141022804566f74654004410228076163636f756e742101144102280466726f6d2101164102280274"
      ++ "6f21011641022806616d6f756e74210111400141020000400028046e756c6c"));
     (unhex "ffffffff08fda3fa4346ea532a258fc497ddaddb6437c9fdff", unhex ("40052101ff21002814fda3fa4346ea532a258fc497ddaddb6437c9fdff289b4e4546336e656f2d636f72652d"
      ++ "76332e3000000000000000000000000000000000000000000000000000000000000000000000000000000000"
      ++ "000000000000000000000000000000004d10411af77b674010411af77b674010411af77b674010411af77b67"
      ++ "4010411af77b674010411af77b674010411af77b674010411af77b674010411af77b674010411af77b674010"
      ++ "411af77b67404811394141082812436f6e74726163744d616e6167656d656e744000480040004102400b4105"
      ++ "28066465706c6f794002410228076e656646696c65210112410228086d616e69666573742101122101202100"
      ++ "2000410528066465706c6f794003410228076e656646696c65210112410228086d616e696665737421011241"
      ++ "02280464617461210021012021010720004105280764657374726f7940002102ff0021010e20004105280b67"
      ++ "6574436f6e74726163744001410228046861736821011421012021011520014105280f676574436f6e747261"
      ++ "637442794964400141022802696421011121012021011c200141052811676574436f6e747261637448617368"
      ++ "657340002101302101232001410528176765744d696e696d756d4465706c6f796d656e744665654000210111"
      ++ "21012a2001410528096861734d6574686f6440034102280468617368210114410228066d6574686f64210113"
      ++ "4102280670636f756e742101112101102101312001410528177365744d696e696d756d4465706c6f796d656e"
      ++ "7446656540014102280576616c75652101112102ff002101382000410528067570646174654002410228076e"
      ++ "656646696c65210112410228086d616e69666573742101122102ff0021013f20004105280675706461746540"
      ++ "03410228076e656646696c65210112410228086d616e6966657374210112410228046461746121002102ff00"
      ++ "21014620004003410228064465706c6f79400141022804486173682101144102280655706461746540014102"
      ++ "2804486173682101144102280744657374726f7940014102280448617368210114400141020000400028046e"
      ++ "756c6c"));
     (unhex "ffffffff0cfffffff7", unhex "588717117e0aa81072afab71d2dd89fe7c4b92fe");
     (unhex "ffffffff0cfffffff8", unhex "e295e391544c178ad94f03ec4dcdff78534ecf49");
     (unhex "ffffffff0cfffffff9", unhex "7bc681c0a1f71d543457b68bba8d5f9fdd4e5ecc");
     (unhex "ffffffff0cfffffffa", unhex "cf76e28bd0062c4a478ee35561011319f3cfa4d2");
     (unhex "ffffffff0cfffffffb", unhex "f563ea40bc283d4d0e05c48ea305b3f2a07340ef");
     (unhex "ffffffff0cfffffffc", unhex "bef2043140362a77c15099c7e64c12f700b665da");
     (unhex "ffffffff0cfffffffd", unhex "1bf575ab1189688413610a35a12886cde0b66c72");
     (unhex "ffffffff0cfffffffe", unhex "c0ef39cee0e4e925c6c2a06a79e1440dd86fceac");
     (unhex "ffffffff0cffffffff", unhex "fda3fa4346ea532a258fc497ddaddb6437c9fdff");
     (unhex "ffffffff0f", unhex "01");
     (unhex "ffffffff14", unhex "00ca9a3b")].

Definition put_all (kvs : list (bytes * bytes)) (T : Trie (St := ProofStore))
    : Trie (St := ProofStore) * bool :=
  foldl (λ '(T, ok) '(k, v), let '(T, r) := trie_put k v T in
           (T, ok && match r with Ok _ => true | Err _ => false end)) (T, true) kvs.

(** The model reproduces a real chain: writing the storage of the Neo MainNet
    genesis block into an empty pruning trie, with SHA-256 computed, gives the
    state root of the reference implementation, and every write succeeds. *)
Example genesis_state_root :
  (let '(T, ok) := put_all genesis_storage (trie_new ∅ None false) in
   (ok, UInt256.to_array <$> root_hash T)) =
  (true, Some (unhex "e881de01a3172b4988a8cd6194b82ab18eec47171f2931f6abee997e7b15a558")).
Proof. vm_compute. reflexivity. Qed.
