(* ===== verification/MerkleTree.v ===== *)
(** * Merkle trees over transaction hashes

    src/neo-crypto/src/hashes/merkle_tree.rs: the level-by-level root used for
    block headers ([compute_root]), the explicit tree ([new]), its trimming by
    bloom-filter flags ([trim]) and the depth-first listing sent in a
    MerkleBlock ([to_hash_array]).

    The theorems show that the two root computations agree, that the root binds
    the list of leaves of a given length, and that trimming keeps the root and
    every flagged leaf. *)
From S2P Require Import Prelude Primitives Hashing Sha256.
#[local] Set Warnings "-register-all".

Section merkle.
Context `{Crypto}.

(** [MerkleTreeNode]. *)
Inductive MerkleTreeNode :=
| MNode (hash : UInt256.t) (left right : option MerkleTreeNode).

Definition nhash (n : MerkleTreeNode) : UInt256.t := match n with MNode h _ _ => h end.
Definition nleft (n : MerkleTreeNode) : option MerkleTreeNode := match n with MNode _ l _ => l end.
Definition nright (n : MerkleTreeNode) : option MerkleTreeNode := match n with MNode _ _ r => r end.

Definition leaf (h : UInt256.t) : MerkleTreeNode := MNode h None None.
Definition is_pruned (n : MerkleTreeNode) : bool :=
  match nleft n, nright n with None, None => true | _, _ => false end.

(** [hash_pair]. *)
Definition hash_pair (left right : UInt256.t) : UInt256.t :=
  UInt256.from_array (hash256 (UInt256.to_array left ++ UInt256.to_array right)).

Record MerkleTree := mkTree { root_node : option MerkleTreeNode; depth : nat }.

(** The inner loop of [MerkleTree::new]: one level of parents, the last node
    paired with itself when the level is odd. *)
Fixpoint parents (nodes : list MerkleTreeNode) : list MerkleTreeNode :=
  match nodes with
  | [] => []
  | [l] => [MNode (hash_pair (nhash l) (nhash l)) (Some l) (Some l)]
  | l :: r :: rest => MNode (hash_pair (nhash l) (nhash r)) (Some l) (Some r) :: parents rest
  end.

(** The outer loop, [while nodes.len() > 1]; a level at least halves, so the
    number of nodes is fuel enough. *)
Fixpoint build_levels (fuel : nat) (nodes : list MerkleTreeNode) (depth : nat) :
    list MerkleTreeNode * nat :=
  match fuel with
  | O => (nodes, depth)
  | S fuel' =>
      if (1 <? length nodes)%nat then build_levels fuel' (parents nodes) (S depth)
      else (nodes, depth)
  end.

Definition new (hashes : list UInt256.t) : MerkleTree :=
  if decide (hashes = []) then mkTree None 0
  else
    let '(nodes, depth) := build_levels (length hashes) (leaf <$> hashes) 1 in
    mkTree (last nodes) depth.

(** [MerkleTree::root]. *)
Definition root (t : MerkleTree) : option UInt256.t := nhash <$> root_node t.

(** The inner loop of [compute_root]. *)
Fixpoint next_level (current : list UInt256.t) : list UInt256.t :=
  match current with
  | [] => []
  | [l] => [hash_pair l l]
  | l :: r :: rest => hash_pair l r :: next_level rest
  end.

Fixpoint reduce_levels (fuel : nat) (current : list UInt256.t) : list UInt256.t :=
  match fuel with
  | O => current
  | S fuel' =>
      if (1 <? length current)%nat then reduce_levels fuel' (next_level current) else current
  end.

Definition compute_root (hashes : list UInt256.t) : option UInt256.t :=
  match hashes with
  | [] => None
  | [h] => Some h
  | _ => last (reduce_levels (length hashes) hashes)
  end.

Definition compute_root_with_tree (hashes : list UInt256.t) : option UInt256.t := root (new hashes).

(** [depth_first_collect]. *)
Fixpoint depth_first_collect (node : MerkleTreeNode) : list UInt256.t :=
  match node with
  | MNode h l r =>
      match l with
      | None => [h]
      | Some l =>
          depth_first_collect l ++ match r with Some r => depth_first_collect r | None => [] end
      end
  end.

Definition to_hash_array (t : MerkleTree) : list UInt256.t :=
  match root_node t with Some n => depth_first_collect n | None => [] end.

Definition flag_at (flags : list bool) (i : nat) : bool := default false (flags !! i).

(** [trim_node]. *)
Fixpoint trim_node (node : MerkleTreeNode) (index depth : nat) (flags : list bool) : MerkleTreeNode :=
  match node with
  | MNode h l r =>
      if (depth <=? 1)%nat then node else
      match l with
      | None => node
      | Some lc =>
          if (depth =? 2)%nat then
            if negb (flag_at flags (index * 2)) && negb (flag_at flags (index * 2 + 1))
            then MNode h None None else node
          else
            let lc' := trim_node lc (index * 2) (depth - 1) flags in
            let r' := match r with
                      | Some rc => Some (trim_node rc (index * 2 + 1) (depth - 1) flags)
                      | None => None
                      end in
            let left_pruned := is_pruned lc' in
            let right_pruned := match r' with Some rc => is_pruned rc | None => true end in
            if left_pruned && right_pruned then MNode h None None
            else MNode h (Some lc') r'
      end
  end.

(** [MerkleTree::trim]: the flags padded with [false] to the full bottom row. *)
Definition trim (t : MerkleTree) (flags : list bool) : MerkleTree :=
  match root_node t with
  | None => t
  | Some n =>
      if (depth t <=? 1)%nat then t
      else
        let required := (2 ^ (depth t - 1))%nat in
        let padded := take required flags ++ replicate (required - length flags) false in
        mkTree (Some (trim_node n 0 (depth t) padded)) (depth t)
  end.

(** ** The two root computations *)

Lemma hash_parents nodes : nhash <$> parents nodes = next_level (nhash <$> nodes).
Proof.
  assert (∀ n nodes, (length nodes ≤ n)%nat →
    nhash <$> parents nodes = next_level (nhash <$> nodes)) as Hn; [|by eapply Hn].
  clear nodes. intros n. induction n as [|n IH]; intros [|l [|r rest]] Hle; simpl in *; try done; try lia.
  f_equal. apply IH. lia.
Qed.

Lemma build_levels_hashes fuel nodes d :
  nhash <$> (build_levels fuel nodes d).1 = reduce_levels fuel (nhash <$> nodes).
Proof.
  revert nodes d. induction fuel as [|fuel IH]; intros nodes d; simpl; [done|].
  rewrite length_fmap. destruct (1 <? length nodes)%nat; [|done]. by rewrite IH, hash_parents.
Qed.

Lemma length_next_level current : (2 * length (next_level current) ≤ S (length current))%nat.
Proof.
  assert (∀ n current, (length current ≤ n)%nat →
    (2 * length (next_level current) ≤ S (length current))%nat) as Hn; [|by eapply Hn].
  clear current. intros n. induction n as [|n IH]; intros [|l [|r rest]] Hle; simpl in *; try lia.
  specialize (IH rest). lia.
Qed.

Lemma next_level_nonempty current : current ≠ [] → next_level current ≠ [].
Proof. by destruct current as [|? [|? ?]]. Qed.

Lemma reduce_levels_single fuel current :
  current ≠ [] → (length current ≤ fuel)%nat → ∃ h, reduce_levels fuel current = [h].
Proof.
  revert current. induction fuel as [|fuel IH]; intros current Hne Hle; simpl.
  { destruct current; simpl in *; [done|lia]. }
  destruct (1 <? length current)%nat eqn:E.
  - apply Nat.ltb_lt in E. apply IH; [by apply next_level_nonempty|].
    pose proof (length_next_level current). lia.
  - apply Nat.ltb_ge in E. destruct current as [|h [|]]; simpl in *; [done|eauto|lia].
Qed.

Lemma compute_root_levels hashes :
  hashes ≠ [] → compute_root hashes = last (reduce_levels (length hashes) hashes).
Proof. by destruct hashes as [|h [|h' hs]]. Qed.

Lemma compute_root_new hashes : compute_root hashes = root (new hashes).
Proof.
  destruct (decide (hashes = [])) as [->|Hne]; [done|].
  rewrite compute_root_levels by done. unfold new, root. rewrite decide_False by done.
  pose proof (build_levels_hashes (length hashes) (leaf <$> hashes) 1) as Hb.
  destruct (build_levels _ _ _) as [nodes d]. cbn in *.
  rewrite <-list_fmap_compose in Hb. unfold compose in Hb. cbn in Hb. rewrite list_fmap_id in Hb.
  by rewrite <-Hb, fmap_last.
Qed.

Lemma compute_root_some hashes : hashes ≠ [] → is_Some (compute_root hashes).
Proof.
  intros Hne. rewrite compute_root_levels by done.
  destruct (reduce_levels_single (length hashes) hashes) as [h ->]; [done..|]. by eexists.
Qed.

(** The streaming root computation and the root of the explicit tree are
    the same function, and it is defined exactly on non-empty inputs. *)
Theorem compute_root_is_tree_root hashes :
  compute_root hashes = compute_root_with_tree hashes ∧ (is_Some (compute_root hashes) ↔ hashes ≠ []).
Proof.
  split; [apply compute_root_new|].
  split; [by intros [h E] -> | apply compute_root_some].
Qed.

(** ** The root binds the leaves *)

(** The inputs hashed while reducing one level, and all of them. *)
Fixpoint level_preimages (current : list UInt256.t) : list bytes :=
  match current with
  | [] => []
  | [l] => [UInt256.to_array l ++ UInt256.to_array l]
  | l :: r :: rest => (UInt256.to_array l ++ UInt256.to_array r) :: level_preimages rest
  end.

Fixpoint root_preimages (fuel : nat) (current : list UInt256.t) : list bytes :=
  match fuel with
  | O => []
  | S fuel' =>
      if (1 <? length current)%nat
      then level_preimages current ++ root_preimages fuel' (next_level current) else []
  end.

Lemma hash_pair_inj ps l r l' r' :
  collision_free hash256 ps → UInt256.wf l → UInt256.wf r → UInt256.wf l' → UInt256.wf r' →
  UInt256.to_array l ++ UInt256.to_array r ∈ ps →
  UInt256.to_array l' ++ UInt256.to_array r' ∈ ps →
  hash_pair l r = hash_pair l' r' → l = l' ∧ r = r'.
Proof.
  intros Hcf Hl Hr Hl' Hr' Hp Hp' E. unfold hash_pair in E.
  apply (f_equal UInt256.to_array) in E.
  rewrite !UInt256Facts.to_array_from_array in E by apply length_hash256.
  apply Hcf, app_inj_1 in E as [E1 E2]; [|by rewrite !UInt256Facts.length_to_array|done..].
  split; by apply UInt256Facts.to_array_inj.
Qed.

Lemma next_level_inj ps hs hs' :
  collision_free hash256 ps → Forall UInt256.wf hs → Forall UInt256.wf hs' →
  (∀ p, p ∈ level_preimages hs → p ∈ ps) → (∀ p, p ∈ level_preimages hs' → p ∈ ps) →
  length hs = length hs' → next_level hs = next_level hs' → hs = hs'.
Proof.
  intros Hcf. assert (∀ n hs hs', (length hs ≤ n)%nat → Forall UInt256.wf hs → Forall UInt256.wf hs' →
    (∀ p, p ∈ level_preimages hs → p ∈ ps) → (∀ p, p ∈ level_preimages hs' → p ∈ ps) →
    length hs = length hs' → next_level hs = next_level hs' → hs = hs') as Hn; [|by eapply Hn].
  clear hs hs'. intros n. induction n as [|n IH];
    intros [|l [|r rest]] [|l' [|r' rest']] Hle Hw Hw' Hp Hp' Hlen E;
    cbn [length next_level level_preimages] in *; try done; try lia; rewrite ?Forall_cons in Hw; rewrite ?Forall_cons in Hw'; destruct_and?.
  - apply (inj2 cons) in E as [E _]. f_equal.
    destruct (hash_pair_inj ps l l l' l') as [? _]; try done; first [apply Hp; by constructor|apply Hp'; by constructor].
  - apply (inj2 cons) in E as [E Er].
    destruct (hash_pair_inj ps l r l' r') as [-> ->]; try done; try first [apply Hp; by constructor|apply Hp'; by constructor].
    do 2 f_equal. apply IH; try done; try lia; intros p ?; [apply Hp|apply Hp']; by right.
Qed.

Lemma wf_next_level hs : Forall UInt256.wf (next_level hs).
Proof.
  assert (∀ n hs, (length hs ≤ n)%nat → Forall UInt256.wf (next_level hs)) as Hn; [|by eapply Hn].
  clear hs. intros n. induction n as [|n IH]; intros [|l [|r rest]] Hle; simpl in *; try lia; try done;
    repeat constructor; try apply UInt256Facts.wf_from_array; apply IH; lia.
Qed.

Lemma length_next_level_eq hs hs' :
  length hs = length hs' → length (next_level hs) = length (next_level hs').
Proof.
  assert (∀ n hs hs', (length hs ≤ n)%nat → length hs = length hs' →
    length (next_level hs) = length (next_level hs')) as Hn; [|by eapply Hn].
  clear hs hs'. intros n. induction n as [|n IH]; intros [|l [|r rest]] [|l' [|r' rest']];
    simpl; intros; try done; try lia. f_equal. apply IH; lia.
Qed.

Lemma reduce_levels_inj ps fuel hs hs' :
  collision_free hash256 ps → Forall UInt256.wf hs → Forall UInt256.wf hs' →
  (∀ p, p ∈ root_preimages fuel hs → p ∈ ps) → (∀ p, p ∈ root_preimages fuel hs' → p ∈ ps) →
  length hs = length hs' → reduce_levels fuel hs = reduce_levels fuel hs' → hs = hs'.
Proof.
  intros Hcf. revert hs hs'. induction fuel as [|fuel IH]; intros hs hs' Hw Hw' Hp Hp' Hlen E; [done|].
  simpl in *. rewrite <-Hlen in *. destruct (1 <? length hs)%nat; [|done].
  eapply next_level_inj; try done.
  - intros p ?. apply Hp, elem_of_app. by left.
  - intros p ?. apply Hp', elem_of_app. by left.
  - apply IH; auto using wf_next_level, length_next_level_eq; intros p ?;
      [apply Hp|apply Hp']; apply elem_of_app; by right.
Qed.

(** (C36) The Merkle root binds the transaction list: two well-formed lists of
    the same length with the same root are the same list, as long as the hash
    does not collide on the pairs hashed on the way. *)
Theorem merkle_root_binds hashes hashes' :
  Forall UInt256.wf hashes → Forall UInt256.wf hashes' → length hashes = length hashes' →
  collision_free hash256
    (root_preimages (length hashes) hashes ++ root_preimages (length hashes') hashes') →
  compute_root hashes = compute_root hashes' → hashes = hashes'.
Proof.
  intros Hw Hw' Hlen Hcf E. destruct (decide (hashes = [])) as [->|Hne]; [by destruct hashes'|].
  assert (hashes' ≠ []) as Hne' by (intros ->; by destruct hashes).
  rewrite !compute_root_levels, <-Hlen in E by done. rewrite <-Hlen in Hcf.
  destruct (reduce_levels_single (length hashes) hashes) as [h Eh]; [done..|].
  destruct (reduce_levels_single (length hashes) hashes') as [h' Eh']; [done|lia|].
  rewrite Eh, Eh' in E. simplify_eq/=. eapply reduce_levels_inj; try done; [..|by rewrite Eh, Eh'];
    intros p Hp; apply elem_of_app; auto.
Qed.

(** ** Trimming *)

(** A full tree of the given depth in which every node hashes its children. *)
Fixpoint perfect (d : nat) (n : MerkleTreeNode) : Prop :=
  match d with
  | O => False
  | 1%nat => nleft n = None ∧ nright n = None
  | S d' =>
      ∃ l r, nleft n = Some l ∧ nright n = Some r ∧
        nhash n = hash_pair (nhash l) (nhash r) ∧ perfect d' l ∧ perfect d' r
  end.

(** What trimming may leave of such a tree: below some nodes the children are
    cut, all the others still hash their children. *)
Inductive hashed : MerkleTreeNode → Prop :=
| hashed_cut h : hashed (MNode h None None)
| hashed_pair l r : hashed l → hashed r →
    hashed (MNode (hash_pair (nhash l) (nhash r)) (Some l) (Some r)).

(** The elements of a list whose flag, counted from [i], is set. *)
Fixpoint flagged (flags : list bool) (i : nat) (l : list UInt256.t) : list UInt256.t :=
  match l with
  | [] => []
  | h :: l' => if flag_at flags i then h :: flagged flags (S i) l' else flagged flags (S i) l'
  end.

Lemma flagged_app flags i l k :
  flagged flags i (l ++ k) = flagged flags i l ++ flagged flags (i + length l) k.
Proof.
  revert i. induction l as [|h l IH]; intros i; simpl; [by rewrite Nat.add_0_r|].
  rewrite IH, <-Nat.add_succ_comm. by destruct (flag_at flags i).
Qed.

Lemma length_leaves d n : perfect d n → length (depth_first_collect n) = (2 ^ (d - 1))%nat.
Proof.
  revert n. induction d as [|d IH]; intros [h l r] Hp; [done|]. destruct d as [|d].
  { destruct Hp as [Hl Hr]. simpl in Hl, Hr. by subst. }
  destruct Hp as (lc & rc & Hl & Hr & Eh & Pl & Pr). simpl in Hl, Hr. subst l r.
  cbn [depth_first_collect]. rewrite length_app, (IH lc), (IH rc) by done.
  replace (S (S d) - 1)%nat with (S (S d - 1)) by lia. rewrite Nat.pow_succ_r'. lia.
Qed.

Lemma trim_node_hash n i d flags : nhash (trim_node n i d flags) = nhash n.
Proof.
  destruct n as [h l r]. cbn [trim_node]. destruct (d <=? 1)%nat; [done|].
  destruct l as [l|]; [|done]. destruct (d =? 2)%nat; [by destruct (_ && _)|].
  cbv zeta. by destruct (_ && _).
Qed.

Lemma perfect_hashed d n : perfect d n → hashed n.
Proof.
  revert n. induction d as [|d IH]; intros [h l r] Hp; [done|]. destruct d as [|d].
  { destruct Hp as [Hl Hr]. simpl in Hl, Hr. subst. constructor. }
  destruct Hp as (lc & rc & Hl & Hr & Eh & Pl & Pr). simpl in Hl, Hr, Eh. subst. constructor; by apply IH.
Qed.

Lemma trim_node_hashed d n i flags : perfect d n → hashed (trim_node n i d flags).
Proof.
  revert n i. induction d as [|d IH]; intros [h l r] i Hp; [done|].
  destruct d as [|d]; [by eapply (perfect_hashed 1)|].
  pose proof (perfect_hashed _ _ Hp) as Hh.
  destruct Hp as (lc & rc & Hl & Hr & Eh & Pl & Pr). simpl in Hl, Hr, Eh. subst l r.
  cbn [trim_node]. replace (S (S d) <=? 1)%nat with false by done. cbv zeta.
  destruct (S (S d) =? 2)%nat; [destruct (_ && _); [constructor|done]|].
  destruct (_ && _); [constructor|].
  rewrite Eh, <-(trim_node_hash lc (i * 2) (S (S d) - 1) flags),
    <-(trim_node_hash rc (i * 2 + 1) (S (S d) - 1) flags).
  replace (S (S d) - 1)%nat with (S d) by lia. constructor; by apply IH.
Qed.


Lemma perfect_leaf n : perfect 1 n → depth_first_collect n = [nhash n].
Proof. destruct n as [h l r]. intros [Hl Hr]. simpl in *. by subst. Qed.

(** A node cut by trimming covers no flagged leaf, and the flagged leaves stay
    listed in order. *)
Lemma trim_node_keeps d n i flags :
  perfect (S (S d)) n →
  let kept := flagged flags (i * 2 ^ S d) (depth_first_collect n) in
  (is_pruned (trim_node n i (S (S d)) flags) = true → kept = []) ∧
  kept `sublist_of` depth_first_collect (trim_node n i (S (S d)) flags).
Proof.
  revert n i. induction d as [|d IH]; intros [h l r] i Hp;
    destruct Hp as (lc & rc & Hl & Hr & Eh & Pl & Pr); simpl in Hl, Hr; subst l r; cbv zeta.
  - cbn [trim_node depth_first_collect]. rewrite !perfect_leaf by done.
    cbn [app flagged Nat.leb Nat.eqb]. replace (i * 2 ^ 1)%nat with (i * 2)%nat by (cbn; lia).
    rewrite (Nat.add_1_r (i * 2)).
    destruct (flag_at flags (i * 2)), (flag_at flags (S (i * 2))); cbn;
      rewrite ?perfect_leaf by done; split; try done; by repeat constructor.
  - cbn [trim_node depth_first_collect]. change (S (S (S d)) <=? 1)%nat with false.
    change (S (S (S d)) =? 2)%nat with false. replace (S (S (S d)) - 1)%nat with (S (S d)) by lia.
    cbv zeta. destruct (IH lc (i * 2)%nat Pl) as [Cl Sl]. destruct (IH rc (i * 2 + 1)%nat Pr) as [Cr Sr].
    rewrite flagged_app, (length_leaves _ _ Pl). replace (S (S d) - 1)%nat with (S d) by lia.
    replace (i * 2 ^ S (S d))%nat with (i * 2 * 2 ^ S d)%nat by (rewrite (Nat.pow_succ_r' 2 (S d)); lia).
    replace (i * 2 * 2 ^ S d + 2 ^ S d)%nat with ((i * 2 + 1) * 2 ^ S d)%nat by lia.
    destruct (is_pruned (trim_node lc _ _ _)) eqn:El, (is_pruned (trim_node rc _ _ _)) eqn:Er; cbn [andb];
      rewrite ?Cl, ?Cr by done; cbn [depth_first_collect app]; rewrite ?app_nil_r; split; try done.
    + constructor. apply sublist_nil_l.
    + by apply sublist_inserts_l.
    + by apply sublist_inserts_r.
    + by apply sublist_app.
Qed.

(** The tree [new] builds is perfect and its leaves start with the input. *)
Lemma parents_perfect d nodes : Forall (perfect (S d)) nodes → Forall (perfect (S (S d))) (parents nodes).
Proof.
  assert (∀ n nodes, (length nodes ≤ n)%nat → Forall (perfect (S d)) nodes →
    Forall (perfect (S (S d))) (parents nodes)) as Hn; [|by eapply Hn].
  clear nodes. intros n. induction n as [|n IH]; intros [|l [|r rest]] Hle Hf;
    cbn [length parents] in *; try lia; try done; rewrite ?Forall_cons in *; destruct_and?; split_and?; try done.
  - by exists l, l.
  - by exists l, r.
  - apply IH; [lia|done].
Qed.

Definition row (nodes : list MerkleTreeNode) : list UInt256.t := concat (depth_first_collect <$> nodes).

Lemma parents_row nodes : row nodes `prefix_of` row (parents nodes).
Proof.
  assert (∀ n nodes, (length nodes ≤ n)%nat → row nodes `prefix_of` row (parents nodes)) as Hn; [|by eapply Hn].
  clear nodes. intros n. induction n as [|n IH]; intros [|l [|r rest]] Hle;
    cbn [length parents] in *; try lia; try done; unfold row in *; cbn.
  - rewrite !app_nil_r. by apply prefix_app_r.
  - rewrite <-app_assoc. do 2 apply prefix_app. apply IH. lia.
Qed.

Lemma build_levels_perfect fuel nodes d :
  Forall (perfect (S d)) nodes →
  ∃ d', (build_levels fuel nodes (S d)).2 = S d' ∧
    Forall (perfect (S d')) (build_levels fuel nodes (S d)).1 ∧
    row nodes `prefix_of` row (build_levels fuel nodes (S d)).1.
Proof.
  revert nodes d. induction fuel as [|fuel IH]; intros nodes d Hf; cbn [build_levels]; [by exists d|].
  destruct (1 <? length nodes)%nat; [|by exists d].
  destruct (IH (parents nodes) (S d)) as (d' & Ed & Hf' & Hp); [by apply parents_perfect|].
  exists d'. split_and!; [done..|]. etrans; [apply parents_row|done].
Qed.

Lemma new_perfect hashes :
  hashes ≠ [] → ∃ n d, new hashes = mkTree (Some n) (S d) ∧ perfect (S d) n ∧
    hashes `prefix_of` depth_first_collect n.
Proof.
  intros Hne. unfold new. rewrite decide_False by done.
  destruct (build_levels_perfect (length hashes) (leaf <$> hashes) 0) as (d & Ed & Hf & Hr).
  { apply Forall_fmap, Forall_true. done. }
  pose proof (build_levels_hashes (length hashes) (leaf <$> hashes) 1) as Hb.
  rewrite <-list_fmap_compose in Hb. unfold compose in Hb. cbn in Hb. rewrite list_fmap_id in Hb.
  destruct (reduce_levels_single (length hashes) hashes) as [h Eh]; [done..|]. rewrite Eh in Hb.
  destruct (build_levels _ _ _) as [nodes d']. cbn [fst snd] in *. subst d'.
  destruct nodes as [|n [|]]; try done. exists n, d. split_and!; [done|by inversion Hf|].
  unfold row in Hr. cbn in Hr. rewrite app_nil_r in Hr. etrans; [|exact Hr].
  clear. induction hashes as [|h hs IH]; cbn; [done|]. by apply prefix_cons.
Qed.

Lemma flagged_ext flags flags' i l :
  (∀ j, (i ≤ j < i + length l)%nat → flag_at flags j = flag_at flags' j) →
  flagged flags i l = flagged flags' i l.
Proof.
  revert i. induction l as [|h l IH]; intros i Hf; simpl; [done|]. simpl in Hf.
  rewrite (Hf i) by lia. rewrite IH; [done|]. intros j Hj. apply Hf. lia.
Qed.

Lemma flagged_sublist flags i l : flagged flags i l `sublist_of` l.
Proof.
  revert i. induction l as [|h l IH]; intros i; simpl; [done|].
  destruct (flag_at flags i); by constructor.
Qed.

Lemma flag_at_padded flags m j :
  (j < m)%nat → flag_at (take m flags ++ replicate (m - length flags) false) j = flag_at flags j.
Proof.
  intros Hj. unfold flag_at. destruct (decide (j < length flags)%nat) as [Hl|Hl].
  - rewrite lookup_app_l by (rewrite length_take; lia). by rewrite lookup_take_lt.
  - rewrite lookup_app_r by (rewrite length_take; lia).
    rewrite lookup_replicate_2 by (rewrite length_take; lia). by rewrite lookup_ge_None_2 by lia.
Qed.

(** Trimming a Merkle tree by bloom-filter flags keeps its root, leaves a
    tree in which every remaining inner node still hashes its children, and
    keeps every flagged transaction hash, in order, in the listing sent to a
    light client. *)
Theorem trim_keeps_root_and_flagged hashes flags :
  root (trim (new hashes) flags) = compute_root hashes ∧
  (∀ n, root_node (trim (new hashes) flags) = Some n → hashed n) ∧
  flagged flags 0 hashes `sublist_of` to_hash_array (trim (new hashes) flags).
Proof.
  destruct (decide (hashes = [])) as [->|Hne]; [done|]. rewrite compute_root_new.
  destruct (new_perfect hashes Hne) as (n & d & En & Hp & k & Hk). rewrite En.
  unfold trim, root, to_hash_array. cbn [root_node depth]. destruct d as [|d].
  - cbn. split_and!; [done|intros ? [= <-]; by eapply perfect_hashed|].
    rewrite Hk. etrans; [apply flagged_sublist|]. by apply sublist_inserts_r.
  - change (S (S d) <=? 1)%nat with false. cbn [root_node fmap option_fmap option_map].
    rewrite trim_node_hash. split_and!; [done|intros ? [= <-]; by apply trim_node_hashed|].
    set (padded := _ ++ _). destruct (trim_node_keeps d n 0 padded Hp) as [_ Hs].
    etrans; [|exact Hs]. replace (S (S d) - 1)%nat with (S d) in padded by lia.
    rewrite (flagged_ext padded flags).
    + rewrite Hk, flagged_app. by apply sublist_inserts_r.
    + intros j Hj. apply flag_at_padded. rewrite (length_leaves _ _ Hp) in Hj. lia.
Qed.
End merkle.

#[local] Existing Instance sha256_crypto.
(** Three transaction hashes, the last one paired with itself. *)
Definition sample_hashes : list UInt256.t :=
  (λ n, UInt256.mk n 2 3 n) <$> [5; 6; 7]%N.

Lemma merkle_root_binds_witness :
  collision_free hash256
    (root_preimages (length sample_hashes) sample_hashes ++
     root_preimages (length sample_hashes) (id <$> sample_hashes)) ∧
  sample_hashes = id <$> sample_hashes.
Proof.
  assert (collision_free hash256
    (root_preimages (length sample_hashes) sample_hashes ++
     root_preimages (length sample_hashes) (id <$> sample_hashes))) as Hcf.
  { apply collision_freeb_spec. vm_compute. reflexivity. }
  split; [exact Hcf|].
  apply merkle_root_binds; try exact Hcf; try reflexivity;
    unfold sample_hashes; repeat constructor.
Defined.
