(* ===== verification/EcPoint.v ===== *)
(** * Public keys

    src/neo-crypto/src/curves/ecc.rs: the [ECPoint] type, its parsing and the
    order that fixes the key order of multi-signature scripts.  Curve
    arithmetic is that of the p256, k256 and ed25519-dalek crates, and stays a
    parameter ([Curves]). *)
From S2P Require Import Prelude Primitives Order.

(** SEC1 decoding of a point to its affine coordinates (big-endian, for a
    non-identity point on the curve), SEC1 compression, the Ed25519 key check,
    ECDSA verification over secp256r1 returning [Ok(true)], and ECDSA signing of
    a message with a private key, whose signatures are [[u8; 64]]. *)
Class Curves := {
  p256_affine : bytes → option (bytes * bytes);
  p256_compress : bytes * bytes → bytes;
  k256_affine : bytes → option (bytes * bytes);
  k256_compress : bytes * bytes → bytes;
  ed25519_valid : bytes → bool;
  secp256r1_verify : bytes → bytes → bytes → bool;
  secp256r1_sign : bytes → bytes → option bytes;
  secp256r1_sign_length : ∀ d key sig, secp256r1_sign d key = Some sig → length sig = 64%nat;
}.

Inductive ECCurve := Secp256r1 | Secp256k1 | Ed25519.
#[export] Instance ECCurve_eq_dec : EqDecision ECCurve.
Proof. solve_decision. Defined.

Inductive CryptoError := InvalidPoint.

Record ECPoint := mkPoint { curve : ECCurve; data : bytes }.
#[export] Instance ECPoint_eq_dec : EqDecision ECPoint.
Proof. solve_decision. Defined.

Module Point.
Definition compressed_size (c : ECCurve) : N :=
  match c with Secp256r1 | Secp256k1 => 33 | Ed25519 => 32 end.
Definition uncompressed_size (c : ECCurve) : N :=
  match c with Secp256r1 | Secp256k1 => 65 | Ed25519 => 32 end.

(** [ECPoint::new_unchecked]. *)
Definition new_unchecked (c : ECCurve) (d : bytes) : Result CryptoError ECPoint :=
  if negb (len d =? compressed_size c)%N then Err InvalidPoint
  else if negb (bool_decide (c = Ed25519)) && negb (bool_decide (head d = Some x02))
          && negb (bool_decide (head d = Some x03))
  then Err InvalidPoint
  else Ok (mkPoint c d).

Section curves.
Context `{Curves}.

(** [parse_p256_point] and [parse_k256_point]: the length check, then the
    decoder of the curve crate. *)
Definition parse_p256_point (d : bytes) : Result CryptoError (bytes * bytes) :=
  if negb (len d =? compressed_size Secp256r1)%N && negb (len d =? uncompressed_size Secp256r1)%N
  then Err InvalidPoint
  else match p256_affine d with Some p => Ok p | None => Err InvalidPoint end.
Definition parse_k256_point (d : bytes) : Result CryptoError (bytes * bytes) :=
  if negb (len d =? compressed_size Secp256k1)%N && negb (len d =? uncompressed_size Secp256k1)%N
  then Err InvalidPoint
  else match k256_affine d with Some p => Ok p | None => Err InvalidPoint end.

Definition from_bytes_with_curve (c : ECCurve) (d : bytes) : Result CryptoError ECPoint :=
  match c with
  | Secp256r1 => p ← parse_p256_point d; new_unchecked c (p256_compress p)
  | Secp256k1 => p ← parse_k256_point d; new_unchecked c (k256_compress p)
  | Ed25519 =>
      if negb (len d =? 32)%N then Err InvalidPoint
      else if ed25519_valid d then new_unchecked c d else Err InvalidPoint
  end.

Definition from_bytes (d : bytes) : Result CryptoError ECPoint :=
  if (len d =? 32)%N then from_bytes_with_curve Ed25519 d
  else if (len d =? 33)%N || (len d =? 65)%N then
    match from_bytes_with_curve Secp256r1 d with
    | Ok p => Ok p
    | Err _ => from_bytes_with_curve Secp256k1 d
    end
  else Err InvalidPoint.

Definition encoded (p : ECPoint) : bytes := data p.

Definition is_infinity (p : ECPoint) : bool :=
  let zeros := forallb (λ b, bool_decide (b = x00)) (data p) in
  match curve p with
  | Secp256r1 | Secp256k1 => bool_decide (data p = [x00]) || zeros
  | Ed25519 => zeros
  end.

Definition curve_rank (c : ECCurve) : N :=
  match c with Secp256r1 => 0 | Secp256k1 => 1 | Ed25519 => 2 end.

(** Coordinates first; the encodings when either point does not decode. *)
Definition cmp_affine (l r : Result CryptoError (bytes * bytes)) (dl dr : bytes) : comparison :=
  match l, r with
  | Ok (x, y), Ok (x', y') =>
      match bytes_cmp x x' with Eq => bytes_cmp y y' | c => c end
  | _, _ => bytes_cmp dl dr
  end.

(** [Ord for ECPoint]. *)
Definition cmp (a b : ECPoint) : comparison :=
  match (curve_rank (curve a) ?= curve_rank (curve b))%N with
  | Eq =>
      match is_infinity a, is_infinity b with
      | true, true => Eq
      | true, false => Lt
      | false, true => Gt
      | false, false =>
          match curve a with
          | Secp256r1 => cmp_affine (parse_p256_point (data a)) (parse_p256_point (data b)) (data a) (data b)
          | Secp256k1 => cmp_affine (parse_k256_point (data a)) (parse_k256_point (data b)) (data a) (data b)
          | Ed25519 => bytes_cmp (data a) (data b)
          end
      end
  | c => c
  end.

Definition le (a b : ECPoint) : Prop := cmp a b ≠ Gt.
#[global] Instance le_dec : RelDecision le.
Proof. intros a b. unfold le. apply _. Defined.
End curves.
End Point.
