(* ===== verification/SampleKeys.v ===== *)
(** * Executable keys and signatures for the examples

    The protocol code is parametric in the curve backend ([Curves], EcPoint.v).
    This instance makes the examples run: a point is its own coordinate, and a
    signature is a pair of digests of the key and the data.  It shows that the
    hypotheses of the theorems can be met; it has no security. *)
From S2P Require Import Prelude Primitives Order Hashing EcPoint.
#[local] Open Scope N_scope.

(** A checksum in place of SHA-256, which is cheap to evaluate and has
    no security. *)
Definition checksum (b : bytes) : N :=
  foldl (λ a x, N.land (a * 1099511628211 + Byte.to_N x + 1) (N.ones 64)) 14695981039346656037 b.
Program Definition checksum_crypto : Crypto := {| sha256 b := to_le_bytes 32 (checksum b) |}.
Next Obligation. intros b. apply length_to_le_bytes. Qed.

#[local] Existing Instance checksum_crypto.

Definition sample_affine (d : bytes) : option (bytes * bytes) :=
  match d with
  | (x02 as b) :: x | (x03 as b) :: x => if len x =? 32 then Some (x, [b]) else None
  | _ => None
  end.

Definition sample_sign (key data : bytes) : bytes := sha256 (key ++ data) ++ sha256 (data ++ key).

(** The private key of [sample_key n] is 32 copies of [n]; it signs for that key. *)
Definition sample_public (key : bytes) : bytes :=
  match key with b :: _ => x02 :: replicate 31 x00 ++ [b] | [] => [] end.
Definition sample_secp256r1_sign (d key : bytes) : option bytes := Some (sample_sign (sample_public key) d).
Lemma sample_secp256r1_sign_length d key sig :
  sample_secp256r1_sign d key = Some sig → length sig = 64%nat.
Proof. intros [= <-]. unfold sample_sign. by rewrite length_app, !sha256_length. Qed.

Definition sample_curves : Curves := {|
  p256_affine := sample_affine;
  p256_compress := λ p, p.2 ++ p.1;
  k256_affine := λ _, None;
  k256_compress := λ p, p.2 ++ p.1;
  ed25519_valid := λ _, false;
  secp256r1_verify := λ data sig key, bool_decide (sig = sample_sign key data);
  secp256r1_sign := sample_secp256r1_sign;
  secp256r1_sign_length := sample_secp256r1_sign_length;
|}.
#[local] Existing Instance sample_curves.

(** The key whose coordinate ends in [n]. *)
Definition sample_key (n : N) : ECPoint := mkPoint Secp256r1 (x02 :: replicate 31 x00 ++ [as_u8 n]).

(** RIPEMD-160 stands for a truncated checksum in the examples. *)
Lemma sample_ripemd_length d : length (take 20 (sha256 d)) = 20%nat.
Proof. rewrite length_take, sha256_length. done. Qed.
Definition sample_ripemd : Ripemd := {| ripemd160 := λ d, take 20 (sha256 d); ripemd160_length := sample_ripemd_length |}.
#[local] Existing Instance sample_ripemd.
