(* ===== verification/OpCode.v ===== *)
(** * NeoVM opcodes and instructions

    The canonical opcode table (src/neo-vm/src/vm_types/opcode.rs) and the
    instruction decoder (src/neo-vm/src/vm_types/instruction.rs).  The opcode
    macro generates an enum, its byte values, operand widths and the lookup
    table; the model lists the same rows. *)
From S2P Require Import Prelude Primitives.

Module OpCode.
Inductive t :=
| PUSHINT8 | PUSHINT16 | PUSHINT32 | PUSHINT64 | PUSHINT128 | PUSHINT256 | PUSHT | PUSHF
| PUSHA | PUSHNULL | PUSHDATA1 | PUSHDATA2 | PUSHDATA4 | PUSHM1 | PUSH0 | PUSH1 | PUSH2 | PUSH3
| PUSH4 | PUSH5 | PUSH6 | PUSH7 | PUSH8 | PUSH9 | PUSH10 | PUSH11 | PUSH12 | PUSH13 | PUSH14
| PUSH15 | PUSH16 | NOP | JMP | JMP_L | JMPIF | JMPIF_L | JMPIFNOT | JMPIFNOT_L | JMPEQ
| JMPEQ_L | JMPNE | JMPNE_L | JMPGT | JMPGT_L | JMPGE | JMPGE_L | JMPLT | JMPLT_L | JMPLE
| JMPLE_L | CALL | CALL_L | CALLA | CALLT | ABORT | ASSERT | THROW | TRY | TRY_L | ENDTRY
| ENDTRY_L | ENDFINALLY | RET | SYSCALL | DEPTH | DROP | NIP | XDROP | CLEAR | DUP | OVER
| PICK | TUCK | SWAP | ROT | ROLL | REVERSE3 | REVERSE4 | REVERSEN | INITSSLOT | INITSLOT
| LDSFLD0 | LDSFLD1 | LDSFLD2 | LDSFLD3 | LDSFLD4 | LDSFLD5 | LDSFLD6 | LDSFLD | STSFLD0
| STSFLD1 | STSFLD2 | STSFLD3 | STSFLD4 | STSFLD5 | STSFLD6 | STSFLD | LDLOC0 | LDLOC1 | LDLOC2
| LDLOC3 | LDLOC4 | LDLOC5 | LDLOC6 | LDLOC | STLOC0 | STLOC1 | STLOC2 | STLOC3 | STLOC4
| STLOC5 | STLOC6 | STLOC | LDARG0 | LDARG1 | LDARG2 | LDARG3 | LDARG4 | LDARG5 | LDARG6
| LDARG | STARG0 | STARG1 | STARG2 | STARG3 | STARG4 | STARG5 | STARG6 | STARG | NEWBUFFER
| MEMCPY | CAT | SUBSTR | LEFT | RIGHT | INVERT | AND | OR | XOR | EQUAL | NOTEQUAL | SIGN
| ABS | NEGATE | INC | DEC | ADD | SUB | MUL | DIV | MOD | POW | SQRT | MODMUL | MODPOW | SHL
| SHR | NOT | BOOLAND | BOOLOR | NZ | NUMEQUAL | NUMNOTEQUAL | LT | LE | GT | GE | MIN | MAX
| WITHIN | PACKMAP | PACKSTRUCT | PACK | UNPACK | NEWARRAY0 | NEWARRAY | NEWARRAY_T
| NEWSTRUCT0 | NEWSTRUCT | NEWMAP | SIZE | HASKEY | KEYS | VALUES | PICKITEM | APPEND | SETITEM
| REVERSEITEMS | REMOVE | CLEARITEMS | POPITEM | ISNULL | ISTYPE | CONVERT | ABORTMSG
| ASSERTMSG.

(** [OpCode::byte]. *)
Definition byte (op : t) : Byte.byte :=
  match op with
  | PUSHINT8 => x00 | PUSHINT16 => x01 | PUSHINT32 => x02 | PUSHINT64 => x03
  | PUSHINT128 => x04 | PUSHINT256 => x05 | PUSHT => x08 | PUSHF => x09 | PUSHA => x0a
  | PUSHNULL => x0b | PUSHDATA1 => x0c | PUSHDATA2 => x0d | PUSHDATA4 => x0e | PUSHM1 => x0f
  | PUSH0 => x10 | PUSH1 => x11 | PUSH2 => x12 | PUSH3 => x13 | PUSH4 => x14 | PUSH5 => x15
  | PUSH6 => x16 | PUSH7 => x17 | PUSH8 => x18 | PUSH9 => x19 | PUSH10 => x1a | PUSH11 => x1b
  | PUSH12 => x1c | PUSH13 => x1d | PUSH14 => x1e | PUSH15 => x1f | PUSH16 => x20 | NOP => x21
  | JMP => x22 | JMP_L => x23 | JMPIF => x24 | JMPIF_L => x25 | JMPIFNOT => x26
  | JMPIFNOT_L => x27 | JMPEQ => x28 | JMPEQ_L => x29 | JMPNE => x2a | JMPNE_L => x2b
  | JMPGT => x2c | JMPGT_L => x2d | JMPGE => x2e | JMPGE_L => x2f | JMPLT => x30
  | JMPLT_L => x31 | JMPLE => x32 | JMPLE_L => x33 | CALL => x34 | CALL_L => x35 | CALLA => x36
  | CALLT => x37 | ABORT => x38 | ASSERT => x39 | THROW => x3a | TRY => x3b | TRY_L => x3c
  | ENDTRY => x3d | ENDTRY_L => x3e | ENDFINALLY => x3f | RET => x40 | SYSCALL => x41
  | DEPTH => x43 | DROP => x45 | NIP => x46 | XDROP => x48 | CLEAR => x49 | DUP => x4a
  | OVER => x4b | PICK => x4d | TUCK => x4e | SWAP => x50 | ROT => x51 | ROLL => x52
  | REVERSE3 => x53 | REVERSE4 => x54 | REVERSEN => x55 | INITSSLOT => x56 | INITSLOT => x57
  | LDSFLD0 => x58 | LDSFLD1 => x59 | LDSFLD2 => x5a | LDSFLD3 => x5b | LDSFLD4 => x5c
  | LDSFLD5 => x5d | LDSFLD6 => x5e | LDSFLD => x5f | STSFLD0 => x60 | STSFLD1 => x61
  | STSFLD2 => x62 | STSFLD3 => x63 | STSFLD4 => x64 | STSFLD5 => x65 | STSFLD6 => x66
  | STSFLD => x67 | LDLOC0 => x68 | LDLOC1 => x69 | LDLOC2 => x6a | LDLOC3 => x6b
  | LDLOC4 => x6c | LDLOC5 => x6d | LDLOC6 => x6e | LDLOC => x6f | STLOC0 => x70
  | STLOC1 => x71 | STLOC2 => x72 | STLOC3 => x73 | STLOC4 => x74 | STLOC5 => x75
  | STLOC6 => x76 | STLOC => x77 | LDARG0 => x78 | LDARG1 => x79 | LDARG2 => x7a
  | LDARG3 => x7b | LDARG4 => x7c | LDARG5 => x7d | LDARG6 => x7e | LDARG => x7f
  | STARG0 => x80 | STARG1 => x81 | STARG2 => x82 | STARG3 => x83 | STARG4 => x84
  | STARG5 => x85 | STARG6 => x86 | STARG => x87 | NEWBUFFER => x88 | MEMCPY => x89
  | CAT => x8b | SUBSTR => x8c | LEFT => x8d | RIGHT => x8e | INVERT => x90 | AND => x91
  | OR => x92 | XOR => x93 | EQUAL => x97 | NOTEQUAL => x98 | SIGN => x99 | ABS => x9a
  | NEGATE => x9b | INC => x9c | DEC => x9d | ADD => x9e | SUB => x9f | MUL => xa0 | DIV => xa1
  | MOD => xa2 | POW => xa3 | SQRT => xa4 | MODMUL => xa5 | MODPOW => xa6 | SHL => xa8
  | SHR => xa9 | NOT => xaa | BOOLAND => xab | BOOLOR => xac | NZ => xb1 | NUMEQUAL => xb3
  | NUMNOTEQUAL => xb4 | LT => xb5 | LE => xb6 | GT => xb7 | GE => xb8 | MIN => xb9
  | MAX => xba | WITHIN => xbb | PACKMAP => xbe | PACKSTRUCT => xbf | PACK => xc0
  | UNPACK => xc1 | NEWARRAY0 => xc2 | NEWARRAY => xc3 | NEWARRAY_T => xc4 | NEWSTRUCT0 => xc5
  | NEWSTRUCT => xc6 | NEWMAP => xc8 | SIZE => xca | HASKEY => xcb | KEYS => xcc
  | VALUES => xcd | PICKITEM => xce | APPEND => xcf | SETITEM => xd0 | REVERSEITEMS => xd1
  | REMOVE => xd2 | CLEARITEMS => xd3 | POPITEM => xd4 | ISNULL => xd8 | ISTYPE => xd9
  | CONVERT => xdb | ABORTMSG => xe0 | ASSERTMSG => xe1
  end.

(** [OpCode::operand_size]; the opcodes without an operand are the default. *)
Definition operand_size (op : t) : N :=
  match op with
  | PUSHINT8 => 1 | PUSHINT16 => 2 | PUSHINT32 => 4 | PUSHINT64 => 8 | PUSHINT128 => 16
  | PUSHINT256 => 32 | PUSHA => 4 | PUSHDATA1 => 1 | PUSHDATA2 => 2 | PUSHDATA4 => 4 | JMP => 1
  | JMP_L => 4 | JMPIF => 1 | JMPIF_L => 4 | JMPIFNOT => 1 | JMPIFNOT_L => 4 | JMPEQ => 1
  | JMPEQ_L => 4 | JMPNE => 1 | JMPNE_L => 4 | JMPGT => 1 | JMPGT_L => 4 | JMPGE => 1
  | JMPGE_L => 4 | JMPLT => 1 | JMPLT_L => 4 | JMPLE => 1 | JMPLE_L => 4 | CALL => 1
  | CALL_L => 4 | CALLT => 2 | TRY => 2 | TRY_L => 8 | ENDTRY => 1 | ENDTRY_L => 4
  | SYSCALL => 4 | INITSSLOT => 1 | INITSLOT => 2 | LDSFLD => 1 | STSFLD => 1 | LDLOC => 1
  | STLOC => 1 | LDARG => 1 | STARG => 1 | NEWARRAY_T => 1 | ISTYPE => 1 | CONVERT => 1
  | _ => 0
  end.

(** [OpCode::operand_prefix]. *)
Definition operand_prefix (op : t) : N :=
  match op with
  | PUSHDATA1 => 1 | PUSHDATA2 => 2 | PUSHDATA4 => 4
  | _ => 0
  end.

(** [OpCode::ALL]. *)
Definition ALL : list t :=
  [PUSHINT8; PUSHINT16; PUSHINT32; PUSHINT64; PUSHINT128; PUSHINT256; PUSHT; PUSHF; PUSHA;
   PUSHNULL; PUSHDATA1; PUSHDATA2; PUSHDATA4; PUSHM1; PUSH0; PUSH1; PUSH2; PUSH3; PUSH4; PUSH5;
   PUSH6; PUSH7; PUSH8; PUSH9; PUSH10; PUSH11; PUSH12; PUSH13; PUSH14; PUSH15; PUSH16; NOP;
   JMP; JMP_L; JMPIF; JMPIF_L; JMPIFNOT; JMPIFNOT_L; JMPEQ; JMPEQ_L; JMPNE; JMPNE_L; JMPGT;
   JMPGT_L; JMPGE; JMPGE_L; JMPLT; JMPLT_L; JMPLE; JMPLE_L; CALL; CALL_L; CALLA; CALLT; ABORT;
   ASSERT; THROW; TRY; TRY_L; ENDTRY; ENDTRY_L; ENDFINALLY; RET; SYSCALL; DEPTH; DROP; NIP;
   XDROP; CLEAR; DUP; OVER; PICK; TUCK; SWAP; ROT; ROLL; REVERSE3; REVERSE4; REVERSEN;
   INITSSLOT; INITSLOT; LDSFLD0; LDSFLD1; LDSFLD2; LDSFLD3; LDSFLD4; LDSFLD5; LDSFLD6; LDSFLD;
   STSFLD0; STSFLD1; STSFLD2; STSFLD3; STSFLD4; STSFLD5; STSFLD6; STSFLD; LDLOC0; LDLOC1;
   LDLOC2; LDLOC3; LDLOC4; LDLOC5; LDLOC6; LDLOC; STLOC0; STLOC1; STLOC2; STLOC3; STLOC4;
   STLOC5; STLOC6; STLOC; LDARG0; LDARG1; LDARG2; LDARG3; LDARG4; LDARG5; LDARG6; LDARG;
   STARG0; STARG1; STARG2; STARG3; STARG4; STARG5; STARG6; STARG; NEWBUFFER; MEMCPY; CAT;
   SUBSTR; LEFT; RIGHT; INVERT; AND; OR; XOR; EQUAL; NOTEQUAL; SIGN; ABS; NEGATE; INC; DEC;
   ADD; SUB; MUL; DIV; MOD; POW; SQRT; MODMUL; MODPOW; SHL; SHR; NOT; BOOLAND; BOOLOR; NZ;
   NUMEQUAL; NUMNOTEQUAL; LT; LE; GT; GE; MIN; MAX; WITHIN; PACKMAP; PACKSTRUCT; PACK; UNPACK;
   NEWARRAY0; NEWARRAY; NEWARRAY_T; NEWSTRUCT0; NEWSTRUCT; NEWMAP; SIZE; HASKEY; KEYS; VALUES;
   PICKITEM; APPEND; SETITEM; REVERSEITEMS; REMOVE; CLEARITEMS; POPITEM; ISNULL; ISTYPE;
   CONVERT; ABORTMSG; ASSERTMSG].

(** [OpCode::build_lookup]. *)
Definition build_lookup : list (option t) :=
  foldl (λ lookup op, <[N.to_nat (Byte.to_N (byte op)) := Some op]> lookup) (replicate 256 None) ALL.
Definition LOOKUP : list (option t) := Eval vm_compute in build_lookup.

(** [TryFrom<u8>]. *)
Definition try_from (value : Byte.byte) : Result Byte.byte t :=
  match mjoin (LOOKUP !! N.to_nat (Byte.to_N value)) with
  | Some op => Ok op
  | None => Err value
  end.
End OpCode.

Module OpCodeFacts.
Import OpCode.

Lemma try_from_byte op : try_from (byte op) = Ok op.
Proof. destruct op; vm_compute; reflexivity. Qed.

Lemma byte_inj op op' : byte op = byte op' → op = op'.
Proof.
  intros E. pose proof (try_from_byte op) as H. rewrite E, try_from_byte in H. by injection H.
Qed.

#[global] Instance eq_dec : EqDecision t.
Proof.
  intros x y. destruct (decide (byte x = byte y)) as [E|N].
  - left. by apply byte_inj.
  - right. by intros ->.
Defined.

Lemma try_from_ok b op : try_from b = Ok op → b = byte op.
Proof. destruct b; vm_compute; intros [=]; subst; reflexivity. Qed.
End OpCodeFacts.
