(* ===== verification/Instruction.v ===== *)
(** * Instruction decoding and script validation

    src/neo-vm/src/vm_types/instruction.rs (the decoder) and
    src/neo-vm/src/vm_types/script_validation.rs (the structural validation of
    contract scripts).  The theorems show that decoding inverts encoding, that
    a parsed script is exactly the concatenation of its instructions, and that
    a strictly validated script only jumps to instruction boundaries. *)
From S2P Require Import Prelude Primitives OpCode.
#[local] Open Scope N_scope.

(** [InstructionErrorKind]; messages dropped. *)
Inductive InstructionError := Parse | Operand.

Record Instruction := mkInstruction {
  pointer : N;
  opcode : OpCode.t;
  operand : bytes;
  cached_size : N;
}.

Definition compute_size (op : OpCode.t) (operand_len : N) : N :=
  1 + OpCode.operand_prefix op + operand_len.

Definition checked_add (a b : N) : option N := if a + b <=? usize_max then Some (a + b) else None.

Definition at_or_zero (l : bytes) (i : N) : byte := default x00 (l !! N.to_nat i).

(** A [PUSHDATA] arm of [Instruction::parse]: a [w]-byte little-endian length at
    [start], then that many bytes. *)
Definition parse_pushdata (script : bytes) (start w : N) : Result InstructionError bytes :=
  if len script <=? start + (w - 1) then Err Parse
  else
    let length := from_le_bytes (slice script start w) in
    let data_start := start + w in
    match checked_add data_start length with
    | None => Err Parse
    | Some data_end =>
        if len script <? data_end then Err Parse else Ok (slice script data_start length)
    end.

(** The other arm: a fixed-size operand. *)
Definition parse_fixed (script : bytes) (position size : N) : Result InstructionError bytes :=
  match checked_add (position + 1) size with
  | None => Err Parse
  | Some operand_end =>
      if len script <? operand_end then Err Parse else Ok (slice script (position + 1) size)
  end.

(** [Instruction::parse]. *)
Definition parse (script : bytes) (position : N) : Result InstructionError Instruction :=
  if len script <=? position then Err Parse
  else
    match OpCode.try_from (at_or_zero script position) with
    | Err _ => Err Parse
    | Ok op =>
        data ← match op with
               | OpCode.PUSHDATA1 => parse_pushdata script (position + 1) 1
               | OpCode.PUSHDATA2 => parse_pushdata script (position + 1) 2
               | OpCode.PUSHDATA4 => parse_pushdata script (position + 1) 4
               | _ => parse_fixed script position (OpCode.operand_size op)
               end;
        Ok (mkInstruction position op data (compute_size op (len data)))
    end.

(** [Instruction::new]. *)
Definition new (op : OpCode.t) (data : bytes) : Instruction :=
  mkInstruction 0 op data (compute_size op (len data)).
Definition ret : Instruction := new OpCode.RET [].

(** Two's complement reading of [w] bits. *)
Definition to_signed (w : N) (n : N) : Z :=
  if n <? 2 ^ (w - 1) then Z.of_N n else (Z.of_N n - 2 ^ Z.of_N w)%Z.

(** The [token_*] accessors: missing operand bytes read as zero. *)
Definition token_bytes (i : Instruction) (from w : N) : bytes :=
  (λ k, at_or_zero (operand i) (from + N.of_nat k)) <$> seq 0 (N.to_nat w).
Definition token_i8 (i : Instruction) : Z := to_signed 8 (from_le_bytes (token_bytes i 0 1)).
Definition token_i8_1 (i : Instruction) : Z := to_signed 8 (from_le_bytes (token_bytes i 1 1)).
Definition token_u16 (i : Instruction) : N := from_le_bytes (token_bytes i 0 2).
Definition token_u32 (i : Instruction) : N := from_le_bytes (token_bytes i 0 4).
Definition token_i32 (i : Instruction) : Z := to_signed 32 (token_u32 i).
Definition token_i32_1 (i : Instruction) : Z := to_signed 32 (from_le_bytes (token_bytes i 4 4)).

(** [FromOperand] for the [w]-byte integer types. *)
Definition from_operand (w : N) (i : Instruction) : Result InstructionError N :=
  if len (operand i) <? w then Err Operand else Ok (from_le_bytes (slice (operand i) 0 w)).

(** ** Script validation *)

Module StackItemType.
Inductive t :=
| Any | Pointer | Boolean | Integer | ByteString | Buffer | Array | Struct | Map | InteropInterface.

Definition to_byte (ty : t) : byte :=
  match ty with
  | Any => x00 | Pointer => x10 | Boolean => x20 | Integer => x21 | ByteString => x28
  | Buffer => x30 | Array => x40 | Struct => x41 | Map => x48 | InteropInterface => x60
  end.

Definition from_byte (value : byte) : option t :=
  match value with
  | x00 => Some Any | x10 => Some Pointer | x20 => Some Boolean | x21 => Some Integer
  | x28 => Some ByteString | x30 => Some Buffer | x40 => Some Array | x41 => Some Struct
  | x48 => Some Map | x60 => Some InteropInterface
  | _ => None
  end.
End StackItemType.

(** Validation errors are strings in the source. *)
Inductive ValidationError := Invalid.

(** [parse_script_instructions]; every instruction is at least one byte long, so
    the script length is fuel enough. *)
Fixpoint parse_instructions_fuel (fuel : nat) (script : bytes) (position : N) :
    Result ValidationError (list Instruction) :=
  match fuel with
  | O => Err Invalid
  | S fuel' =>
      if position <? len script then
        match parse script position with
        | Err _ => Err Invalid
        | Ok i =>
            match checked_add position (cached_size i) with
            | None => Err Invalid
            | Some position' =>
                rest ← parse_instructions_fuel fuel' script position'; Ok (i :: rest)
            end
        end
      else Ok []
  end.
Definition parse_script_instructions (script : bytes) : Result ValidationError (list Instruction) :=
  parse_instructions_fuel (S (length script)) script 0.

Definition read_u8 (i : Instruction) (offset : N) : Result ValidationError byte :=
  match operand i !! N.to_nat offset with Some b => Ok b | None => Err Invalid end.
Definition read_i8 (i : Instruction) (offset : N) : Result ValidationError Z :=
  b ← read_u8 i offset; Ok (to_signed 8 (Byte.to_N b)).
Definition read_i32 (i : Instruction) (offset : N) : Result ValidationError Z :=
  if len (operand i) <? offset + 4 then Err Invalid
  else Ok (to_signed 32 (from_le_bytes (slice (operand i) offset 4))).

Definition jump_target (i : Instruction) (offset : Z) : Result ValidationError N :=
  let target := (Z.of_N (pointer i) + offset)%Z in
  if (target <? 0)%Z then Err Invalid else Ok (Z.to_N target).

(** [instruction_jump_target]. *)
Definition instruction_jump_target (i : Instruction) : Result ValidationError N :=
  offset ←
    match opcode i with
    | OpCode.JMP | OpCode.JMPIF | OpCode.JMPIFNOT | OpCode.JMPEQ | OpCode.JMPNE | OpCode.JMPGT
    | OpCode.JMPGE | OpCode.JMPLT | OpCode.JMPLE | OpCode.CALL | OpCode.ENDTRY => read_i8 i 0
    | OpCode.PUSHA | OpCode.JMP_L | OpCode.JMPIF_L | OpCode.JMPIFNOT_L | OpCode.JMPEQ_L | OpCode.JMPNE_L
    | OpCode.JMPGT_L | OpCode.JMPGE_L | OpCode.JMPLT_L | OpCode.JMPLE_L | OpCode.CALL_L | OpCode.ENDTRY_L => read_i32 i 0
    | _ => Err Invalid
    end;
  jump_target i offset.

(** [instruction_try_targets]. *)
Definition instruction_try_targets (i : Instruction) : Result ValidationError (N * N) :=
  '(catch_offset, finally_offset) ←
     match opcode i with
     | OpCode.TRY => c ← read_i8 i 0; f ← read_i8 i 1; Ok (c, f)
     | OpCode.TRY_L => c ← read_i32 i 0; f ← read_i32 i 4; Ok (c, f)
     | _ => Err Invalid
     end;
  c ← jump_target i catch_offset; f ← jump_target i finally_offset; Ok (c, f).

Definition validate_jump_target (i : Instruction) (offsets : list N) : Result ValidationError unit :=
  target ← instruction_jump_target i;
  if bool_decide (target ∈ offsets) then Ok tt else Err Invalid.

Definition validate_try_targets (i : Instruction) (offsets : list N) : Result ValidationError unit :=
  '(c, f) ← instruction_try_targets i;
  if negb (bool_decide (c ∈ offsets)) then Err Invalid
  else if negb (bool_decide (f ∈ offsets)) then Err Invalid else Ok tt.

(** The type operand of [NEWARRAY_T], [ISTYPE] and [CONVERT]. *)
Definition validate_type_operand (op : OpCode.t) (type_byte : byte) : Result ValidationError unit :=
  match StackItemType.from_byte type_byte with
  | None => Err Invalid
  | Some _ =>
      match op with
      | OpCode.NEWARRAY_T => Ok tt
      | _ => if bool_decide (type_byte = StackItemType.to_byte StackItemType.Any)
             then Err Invalid else Ok tt
      end
  end.

(** [validate_instruction]. *)
Definition validate_instruction (i : Instruction) (offsets : list N) : Result ValidationError unit :=
  match opcode i with
  | OpCode.JMP | OpCode.JMPIF | OpCode.JMPIFNOT | OpCode.JMPEQ | OpCode.JMPNE | OpCode.JMPGT
  | OpCode.JMPGE | OpCode.JMPLT | OpCode.JMPLE | OpCode.CALL | OpCode.ENDTRY => validate_jump_target i offsets
  | OpCode.PUSHA | OpCode.JMP_L | OpCode.JMPIF_L | OpCode.JMPIFNOT_L | OpCode.JMPEQ_L | OpCode.JMPNE_L
  | OpCode.JMPGT_L | OpCode.JMPGE_L | OpCode.JMPLT_L | OpCode.JMPLE_L | OpCode.CALL_L | OpCode.ENDTRY_L => validate_jump_target i offsets
  | OpCode.TRY => validate_try_targets i offsets
  | OpCode.TRY_L => validate_try_targets i offsets
  | OpCode.NEWARRAY_T | OpCode.ISTYPE | OpCode.CONVERT =>
      type_byte ← read_u8 i 0; validate_type_operand (opcode i) type_byte
  | _ => Ok tt
  end.

Fixpoint validate_all (l : list Instruction) (offsets : list N) : Result ValidationError unit :=
  match l with
  | [] => Ok tt
  | i :: l' => _ ← validate_instruction i offsets; validate_all l' offsets
  end.

(** [validate_script]: the instruction offsets of a well-formed script. *)
Definition validate_script (script : bytes) (strict : bool) : Result ValidationError (list N) :=
  instructions ← parse_script_instructions script;
  let offsets := pointer <$> instructions in
  if strict then _ ← validate_all instructions offsets; Ok offsets else Ok offsets.

(** ** Encoding *)

(** The bytes of an instruction: opcode, length prefix, operand. *)
Definition encode (i : Instruction) : bytes :=
  OpCode.byte (opcode i) ::
  to_le_bytes (N.to_nat (OpCode.operand_prefix (opcode i))) (len (operand i)) ++ operand i.

(** The operand has the width the opcode asks for. *)
Definition instruction_ok (i : Instruction) : Prop :=
  cached_size i = compute_size (opcode i) (len (operand i)) ∧
  if OpCode.operand_prefix (opcode i) =? 0
  then len (operand i) = OpCode.operand_size (opcode i)
  else len (operand i) < 256 ^ OpCode.operand_prefix (opcode i).

(** Instructions laid out one after the other from [position]. *)
Fixpoint laid_out (position : N) (l : list Instruction) : Prop :=
  match l with
  | [] => True
  | i :: l' => instruction_ok i ∧ pointer i = position ∧ laid_out (position + cached_size i) l'
  end.

Lemma len_encode i : instruction_ok i → len (encode i) = cached_size i.
Proof.
  intros [-> _]. unfold encode, compute_size. rewrite len_cons, len_app.
  unfold len at 1. rewrite length_to_le_bytes. lia.
Qed.

Lemma at_or_zero_app pre b post : at_or_zero (pre ++ b :: post) (len pre) = b.
Proof.
  unfold at_or_zero, len. rewrite Nat2N.id. by rewrite list_lookup_middle.
Qed.

Lemma slice_mid {A} (pre mid post : list A) p n :
  p = len pre → n = len mid → slice (pre ++ mid ++ post) p n = mid.
Proof. intros -> ->. apply slice_app_exact. Qed.

Lemma parse_pushdata_encode pre w data post :
  (0 < w) → len data < 256 ^ w → len (pre ++ to_le_bytes (N.to_nat w) (len data) ++ data ++ post) ≤ usize_max →
  parse_pushdata (pre ++ to_le_bytes (N.to_nat w) (len data) ++ data ++ post) (len pre) w = Ok data.
Proof.
  intros Hw Hd Hmax. unfold parse_pushdata. set (L := to_le_bytes _ _) in *.
  assert (len L = w) as HL. { unfold len, L. rewrite length_to_le_bytes. lia. }
  rewrite !len_app in *. destruct (N.leb_spec (len pre + (len L + (len data + len post))) (len pre + (w - 1))); [lia|].
  rewrite (slice_mid pre L (data ++ post)) by done.
  replace (from_le_bytes L) with (len data)
    by (unfold L; rewrite from_to_le_bytes_small; [done|by rewrite N2Nat.id]).
  unfold checked_add. destruct (N.leb_spec (len pre + w + len data) usize_max); [|lia].
  destruct (N.ltb_spec (len pre + (len L + (len data + len post))) (len pre + w + len data)); [lia|].
  f_equal. rewrite app_assoc. apply slice_mid; [rewrite len_app|]; lia.
Qed.

Lemma parse_fixed_encode pre b data post :
  len (pre ++ b :: data ++ post) ≤ usize_max →
  parse_fixed (pre ++ b :: data ++ post) (len pre) (len data) = Ok data.
Proof.
  intros Hmax. unfold parse_fixed, checked_add. rewrite len_app, len_cons, len_app in *.
  destruct (N.leb_spec (len pre + 1 + len data) usize_max); [|lia].
  destruct (N.ltb_spec (len pre + (1 + (len data + len post))) (len pre + 1 + len data)); [lia|].
  f_equal. change (b :: data ++ post) with ([b] ++ data ++ post). rewrite app_assoc.
  apply slice_mid; [|done]. by rewrite len_app.
Qed.

(** Decoding inverts encoding. *)
Lemma parse_encode pre i post :
  instruction_ok i → pointer i = len pre → len (pre ++ encode i ++ post) ≤ usize_max →
  parse (pre ++ encode i ++ post) (len pre) = Ok i.
Proof.
  destruct i as [p op data sz]. intros [Hs Hop] Hp Hmax. simpl in Hs, Hop, Hp. subst sz p.
  unfold parse, encode in *. cbn [opcode operand] in *. cbn [app] in *.
  rewrite at_or_zero_app, OpCodeFacts.try_from_byte.
  destruct (N.leb_spec (len (pre ++ OpCode.byte op :: (to_le_bytes (N.to_nat (OpCode.operand_prefix op)) (len data) ++ data) ++ post)) (len pre)) as [Hl|_].
  { rewrite len_app, len_cons in Hl. lia. }
  assert (∀ w, OpCode.operand_prefix op = w → 0 < w →
    parse_pushdata (pre ++ OpCode.byte op :: (to_le_bytes (N.to_nat (OpCode.operand_prefix op)) (len data) ++ data) ++ post)
      (len pre + 1) w = Ok data) as Hpush.
  { intros w Ew Hw. rewrite Ew in *. destruct (N.eqb_spec w 0); [lia|].
    rewrite <-app_assoc in *. change (?a :: ?b) with ([a] ++ b) in *. rewrite app_assoc in *.
    replace (len pre + 1) with (len (pre ++ [OpCode.byte op])) by (by rewrite len_app).
    by apply parse_pushdata_encode. }
  assert (OpCode.operand_prefix op = 0 →
    parse_fixed (pre ++ OpCode.byte op :: (to_le_bytes (N.to_nat (OpCode.operand_prefix op)) (len data) ++ data) ++ post)
      (len pre) (OpCode.operand_size op) = Ok data) as Hfix.
  { intros Ew. rewrite Ew in *. cbn [N.eqb] in Hop. rewrite <-Hop. by apply parse_fixed_encode. }
  destruct op; first [rewrite (Hfix eq_refl)|rewrite (Hpush 1 eq_refl eq_refl)
    |rewrite (Hpush 2 eq_refl eq_refl)|rewrite (Hpush 4 eq_refl eq_refl)]; reflexivity.
Qed.

Lemma slice_add {A} (l : list A) p n m : slice l p (n + m) = slice l p n ++ slice l (p + n) m.
Proof.
  unfold slice. rewrite N2Nat.inj_add, <-take_take_drop, drop_drop. do 3 f_equal. lia.
Qed.

Lemma slice_split {A} (l : list A) p n :
  p + n ≤ len l → ∃ pre post, l = pre ++ slice l p n ++ post ∧ len pre = p.
Proof.
  intros Hle. exists (take (N.to_nat p) l), (drop (N.to_nat n) (drop (N.to_nat p) l)).
  unfold slice. rewrite take_drop, take_drop. split; [done|]. unfold len in *. rewrite length_take. lia.
Qed.

Lemma parse_pushdata_inv script start w data :
  0 < w → parse_pushdata script start w = Ok data →
  len data < 256 ^ w ∧ slice script start w = to_le_bytes (N.to_nat w) (len data) ∧
  data = slice script (start + w) (len data) ∧ start + w + len data ≤ len script.
Proof.
  intros Hw. unfold parse_pushdata, checked_add.
  destruct (N.leb_spec (len script) (start + (w - 1))) as [|Hl]; [done|].
  set (L := slice script start w). destruct (N.leb_spec (start + w + from_le_bytes L) usize_max); [|done].
  destruct (N.ltb_spec (len script) (start + w + from_le_bytes L)) as [|Hle]; [done|]. intros [= <-].
  assert (len L = w) as HL by (apply length_slice; lia).
  assert (length L = N.to_nat w) as HL' by (unfold len in HL; lia).
  pose proof (from_le_bytes_bound L) as Hb. rewrite HL', N2Nat.id in Hb.
  assert (len (slice script (start + w) (from_le_bytes L)) = from_le_bytes L) as Hd by (apply length_slice; lia).
  rewrite Hd. split_and!; [done| |done..]. by rewrite <-HL', to_from_le_bytes.
Qed.

Lemma parse_fixed_inv script position size data :
  parse_fixed script position size = Ok data →
  len data = size ∧ data = slice script (position + 1) size ∧ position + 1 + size ≤ len script.
Proof.
  unfold parse_fixed, checked_add. destruct (_ <=? _); [|done].
  destruct (N.ltb_spec (len script) (position + 1 + size)) as [|Hle]; [done|]. intros [= <-].
  split_and!; [by apply length_slice|done..].
Qed.

Lemma slice_one script p : p < len script → slice script p 1 = [at_or_zero script p].
Proof.
  intros Hp. unfold slice, at_or_zero. unfold len in Hp.
  destruct (lookup_lt_is_Some_2 script (N.to_nat p)) as [b Hb]; [lia|]. rewrite Hb. cbn.
  by rewrite (drop_S _ _ _ Hb).
Qed.

(** What the decoder accepts is an encoded instruction at that position. *)
Lemma parse_inv script position i :
  parse script position = Ok i →
  instruction_ok i ∧ pointer i = position ∧
  slice script position (cached_size i) = encode i ∧ position + cached_size i ≤ len script.
Proof.
  unfold parse. destruct (N.leb_spec (len script) position) as [|Hlt]; [done|].
  destruct (OpCode.try_from _) as [op|] eqn:Eop; [|done]. apply OpCodeFacts.try_from_ok in Eop.
  pose proof (slice_one script position Hlt) as Hone. rewrite Eop in Hone.
  assert (∀ w data, OpCode.operand_prefix op = w → 0 < w →
    parse_pushdata script (position + 1) w = Ok data →
    let i := mkInstruction position op data (compute_size op (len data)) in
    instruction_ok i ∧ pointer i = position ∧
    slice script position (cached_size i) = encode i ∧ position + cached_size i ≤ len script) as Hpush.
  { intros w data Ew Hw (Hd & HL & Hdata & Hle)%parse_pushdata_inv; [|done].
    unfold instruction_ok, encode, compute_size. cbn [opcode operand cached_size pointer]. rewrite Ew.
    split_and!; [done| |done| |lia]; [by destruct (N.eqb_spec w 0); [lia|]|].
    by rewrite !slice_add, Hone, HL, N.add_assoc, <-Hdata, <-app_assoc. }
  assert (∀ data, OpCode.operand_prefix op = 0 →
    parse_fixed script position (OpCode.operand_size op) = Ok data →
    let i := mkInstruction position op data (compute_size op (len data)) in
    instruction_ok i ∧ pointer i = position ∧
    slice script position (cached_size i) = encode i ∧ position + cached_size i ≤ len script) as Hfix.
  { intros data Ew (Hlen & Hdata & Hle)%parse_fixed_inv.
    unfold instruction_ok, encode, compute_size. cbn [opcode operand cached_size pointer]. rewrite Ew.
    split_and!; [done|done|done| |lia]. rewrite N.add_0_r, slice_add, Hone, Hlen, <-Hdata. done. }
  intros [data [Hdata [= <-]]]%Result_bind_ok.
  destruct op; first [exact (Hfix data eq_refl Hdata)|exact (Hpush 1 data eq_refl eq_refl Hdata)
    |exact (Hpush 2 data eq_refl eq_refl Hdata)|exact (Hpush 4 data eq_refl eq_refl Hdata)].
Qed.

(** ** Parsing a script *)

Lemma cached_size_pos i : instruction_ok i → 1 ≤ cached_size i.
Proof. intros [-> _]. unfold compute_size. lia. Qed.

Lemma parse_instructions_sound fuel script position l :
  parse_instructions_fuel fuel script position = Ok l → position ≤ len script →
  laid_out position l ∧ slice script position (len script - position) = concat (encode <$> l).
Proof.
  revert position l. induction fuel as [|fuel IH]; intros position l; [done|]. cbn.
  destruct (N.ltb_spec position (len script)) as [Hlt|Hge].
  - destruct (parse script position) as [i|] eqn:Ei; [|done].
    apply parse_inv in Ei as (Hok & Hp & Hs & Hle). unfold checked_add.
    destruct (_ <=? _); [|done]. intros (rest & Hr & [= <-])%Result_bind_ok _.
    apply IH in Hr as [Hlaid Hcat]; [|done]. split; [done|]. cbn [fmap list_fmap concat]. rewrite <-Hs, <-Hcat, <-slice_add.
    f_equal. lia.
  - intros [= <-] ?. split; [done|]. replace (len script - position) with 0 by lia. done.
Qed.

Lemma parse_instructions_complete fuel pre l :
  laid_out (len pre) l → len (pre ++ concat (encode <$> l)) ≤ usize_max → (length l < fuel)%nat →
  parse_instructions_fuel fuel (pre ++ concat (encode <$> l)) (len pre) = Ok l.
Proof.
  revert pre l. induction fuel as [|fuel IH]; intros pre l Hlaid Hmax Hf; [lia|]. cbn [parse_instructions_fuel].
  destruct l as [|i l]; cbn [fmap list_fmap concat] in *.
  { rewrite app_nil_r. by rewrite N.ltb_irrefl. }
  destruct Hlaid as (Hok & Hp & Hl). pose proof (len_encode i Hok) as Hlen.
  pose proof (cached_size_pos i Hok) as Hpos. cbn [length] in Hf.
  rewrite parse_encode by done.
  destruct (N.ltb_spec (len pre) (len (pre ++ encode i ++ concat (encode <$> l)))) as [_|Hge];
    [|rewrite !len_app in Hge; lia].
  unfold checked_add. destruct (N.leb_spec (len pre + cached_size i) usize_max); [|rewrite !len_app in Hmax; lia].
  replace (len pre + cached_size i) with (len (pre ++ encode i)) in * by (rewrite len_app; lia).
  rewrite app_assoc in *. rewrite IH; [done..|lia].
Qed.

Lemma laid_out_length p l : laid_out p l → (length l ≤ length (concat (encode <$> l)))%nat.
Proof.
  revert p. induction l as [|i l IH]; intros p; cbn; [done|]. intros (Hok & _ & Hl).
  apply IH in Hl. rewrite length_app. pose proof (len_encode i Hok) as Hlen.
  pose proof (cached_size_pos i Hok). unfold len in Hlen. lia.
Qed.

Lemma parse_exact script l :
  len script ≤ usize_max →
  parse_script_instructions script = Ok l ↔ script = concat (encode <$> l) ∧ laid_out 0 l.
Proof.
  intros Hmax. unfold parse_script_instructions. split.
  - intros [Hlaid Hcat]%parse_instructions_sound; [|lia]. split; [|done].
    rewrite <-Hcat, N.sub_0_r. unfold slice, len. rewrite Nat2N.id. cbn. by rewrite firstn_all.
  - intros [-> Hlaid]. apply (parse_instructions_complete _ []); [done..|].
    apply laid_out_length in Hlaid. lia.
Qed.

(** (C38) A script parses to a list of instructions exactly when it is the
    concatenation of their encodings, each with the operand width of its opcode
    and the pointer of the place it starts at: disassembly is total on well
    formed scripts, unambiguous, and inverts assembly. *)
Theorem script_parse_exact script l :
  len script ≤ usize_max →
  parse_script_instructions script = Ok l ↔ script = concat (encode <$> l) ∧ laid_out 0 l.
Proof. apply parse_exact. Qed.

(** ** Strict validation *)

(** The instruction set by its byte codes, apart from the code's tables: where the
    operand of an instruction holds relative targets, and their widths in bytes.
    From 0x22 (JMP) to 0x35 (CALL_L), short forms are even and long forms odd. *)
Definition branch_operands (code : N) : list (nat * nat) :=
  if (0x22 <=? code) && (code <=? 0x35) then [(0%nat, if N.even code then 1%nat else 4%nat)]
  else if (code =? 0x0a) || (code =? 0x3e) then [(0, 4)%nat]
  else if code =? 0x3d then [(0, 1)%nat]
  else if code =? 0x3b then [(0, 1); (1, 1)]%nat
  else if code =? 0x3c then [(0, 4); (4, 4)]%nat
  else [].
(** The codes of the instructions with a type operand, and of the types. *)
Definition typed_codes : list N := [0xc4; 0xd9; 0xdb].
Definition type_codes : list N := [0x00; 0x10; 0x20; 0x21; 0x28; 0x30; 0x40; 0x41; 0x48; 0x60].

Definition code (i : Instruction) : N := Byte.to_N (OpCode.byte (opcode i)).
(** The [w] bytes at [p] of an operand are [z] in two's complement. *)
Definition offset_at (data : bytes) (p w : nat) (z : Z) : Prop :=
  (p + w ≤ length data)%nat ∧ (- 2 ^ (8 * Z.of_nat w - 1) ≤ z < 2 ^ (8 * Z.of_nat w - 1))%Z ∧
  (z mod 2 ^ (8 * Z.of_nat w) = Z.of_N (from_le_bytes (take w (drop p data))))%Z.
(** The target there is an instruction of [l]. *)
Definition reaches (l : list Instruction) (i : Instruction) (p w : nat) : Prop :=
  ∃ z j, offset_at (operand i) p w z ∧ j ∈ l ∧ Z.of_N (pointer j) = (Z.of_N (pointer i) + z)%Z.
Definition type_ok (i : Instruction) : Prop :=
  ∃ b, head (operand i) = Some b ∧ Byte.to_N b ∈ type_codes ∧ (code i ≠ 0xc4 → Byte.to_N b ≠ 0x00).
(** What strict validation promises of one instruction of the script [l]. *)
Definition lands (l : list Instruction) (i : Instruction) : Prop :=
  Forall (λ '(p, w), reaches l i p w) (branch_operands (code i)) ∧ (code i ∈ typed_codes → type_ok i).

Lemma to_signed_spec w n z : 0 < w → n < 2 ^ w →
  z = to_signed w n ↔ (- 2 ^ (Z.of_N w - 1) ≤ z < 2 ^ (Z.of_N w - 1))%Z ∧ (z mod 2 ^ Z.of_N w = Z.of_N n)%Z.
Proof.
  intros Hw Hn. unfold to_signed.
  assert (Z.of_N (2 ^ (w - 1)) = 2 ^ (Z.of_N w - 1))%Z as E1 by (rewrite N2Z.inj_pow, N2Z.inj_sub by lia; done).
  assert (Z.of_N (2 ^ w) = 2 ^ Z.of_N w)%Z as E2 by (by rewrite N2Z.inj_pow).
  assert (2 ^ Z.of_N w = 2 * 2 ^ (Z.of_N w - 1))%Z as E3 by (rewrite <- Z.pow_succ_r by lia; f_equal; lia).
  assert (0 < 2 ^ (Z.of_N w - 1))%Z as Hpos by (apply Z.pow_pos_nonneg; lia).
  rewrite E3 in *. set (h := (2 ^ (Z.of_N w - 1))%Z) in *. clearbody h. split.
  - intros ->. destruct (N.ltb_spec n (2 ^ (w - 1))).
    + split; [lia|]. apply Z.mod_small. lia.
    + split; [lia|]. symmetry. apply (Z.mod_unique _ _ (-1)); lia.
  - intros [Hz Hm]. pose proof (Z.div_mod z (2 * h) ltac:(lia)) as Hd. rewrite Hm in Hd.
    assert (z / (2 * h) = 0 ∨ z / (2 * h) = -1)%Z as [Eq|Eq] by nia; rewrite Eq in Hd;
      destruct (N.ltb_spec n (2 ^ (w - 1))); lia.
Qed.
Lemma read_i8_ok i p z : read_i8 i p = Ok z ↔ offset_at (operand i) (N.to_nat p) 1 z.
Proof.
  unfold read_i8, read_u8, offset_at. destruct (operand i !! N.to_nat p) as [b|] eqn:E.
  - pose proof (lookup_lt_Some _ _ _ E). rewrite (drop_S _ _ _ E). cbn [take from_le_bytes mbind Result_bind].
    rewrite N.mul_0_r, N.add_0_r. pose proof (to_N_lt b).
    rewrite <- (to_signed_spec 8 (Byte.to_N b) z) by lia. split; [intros [= <-]; split; [lia|done] | by intros [_ ->]].
  - apply lookup_ge_None in E. split; [done|lia].
Qed.
Lemma read_i32_ok i p z : read_i32 i p = Ok z ↔ offset_at (operand i) (N.to_nat p) 4 z.
Proof.
  unfold read_i32, offset_at, len. destruct (N.ltb_spec (N.of_nat (length (operand i))) (p + 4)); [split; [done|lia]|].
  unfold slice. change (N.to_nat 4) with 4%nat. set (data := take 4 (drop (N.to_nat p) (operand i))).
  assert (from_le_bytes data < 2 ^ 32).
  { pose proof (from_le_bytes_bound data) as Hb. unfold data in Hb at 2. rewrite length_take, length_drop in Hb.
    replace (4 `min` _)%nat with 4%nat in Hb by lia. exact Hb. }
  rewrite <- (to_signed_spec 32 (from_le_bytes data) z) by done. split; [intros [= <-]; split; [lia|done] | by intros [_ ->]].
Qed.

Lemma reaches_ok l i (r : Result ValidationError Z) p w :
  (∀ z, r = Ok z ↔ offset_at (operand i) p w z) →
  (∃ t, (z ← r; jump_target i z) = Ok t ∧ t ∈ pointer <$> l) ↔ reaches l i p w.
Proof.
  intros Hr. unfold reaches, jump_target. split.
  - intros (t & (z & Hz & Ht)%Result_bind_ok & (j & -> & Hj)%list_elem_of_fmap). exists z, j.
    split; [by apply Hr|]. split; [done|]. destruct (Z.ltb_spec (Z.of_N (pointer i) + z) 0); [done|].
    injection Ht as <-. lia.
  - intros (z & j & Hz & Hj & E). exists (pointer j). split; [|by apply list_elem_of_fmap_2].
    apply Result_bind_ok. exists z. split; [by apply Hr|]. destruct (Z.ltb_spec (Z.of_N (pointer i) + z) 0); [lia|].
    f_equal. lia.
Qed.
Lemma validate_jump_ok l i r p w :
  (∀ z, r = Ok z ↔ offset_at (operand i) p w z) → instruction_jump_target i = (z ← r; jump_target i z) →
  validate_jump_target i (pointer <$> l) = Ok tt ↔ reaches l i p w.
Proof.
  intros Hr E. rewrite <- (reaches_ok l i r p w Hr), <- E. unfold validate_jump_target. rewrite Result_bind_ok.
  split; intros (t & Ht & Hin); exists t; (split; [done|]); [by case_bool_decide | by rewrite bool_decide_true].
Qed.
Lemma validate_try_ok l i r r' p p' w :
  (∀ z, r = Ok z ↔ offset_at (operand i) p w z) → (∀ z, r' = Ok z ↔ offset_at (operand i) p' w z) →
  instruction_try_targets i =
    ('(c, f) ← (c ← r; f ← r'; Ok (c, f)); c ← jump_target i c; f ← jump_target i f; Ok (c, f)) →
  validate_try_targets i (pointer <$> l) = Ok tt ↔ reaches l i p w ∧ reaches l i p' w.
Proof.
  intros Hr Hr' E. rewrite <- (reaches_ok l i r p w Hr), <- (reaches_ok l i r' p' w Hr').
  unfold validate_try_targets. rewrite E, Result_bind_ok. split.
  - intros ([c f] & Ht & Hin). destruct (bool_decide_reflect (c ∈ pointer <$> l)) as [Hc|]; [|done].
    destruct (bool_decide_reflect (f ∈ pointer <$> l)) as [Hf|]; [|done].
    apply Result_bind_ok in Ht as ([z z'] & (? & -> & (? & -> & [= -> ->])%Result_bind_ok)%Result_bind_ok & Ht).
    apply Result_bind_ok in Ht as (? & Hz & (? & Hz' & [= -> ->])%Result_bind_ok).
    split; [exists c|exists f]; done.
  - intros [(c & (z & -> & Hc)%Result_bind_ok & Hcl) (f & (z' & -> & Hf)%Result_bind_ok & Hfl)]. exists (c, f).
    cbn. rewrite Hc. cbn. rewrite Hf. split; [done|]. by rewrite !bool_decide_true.
Qed.
Lemma type_codes_ok b :
  (∃ ty, StackItemType.from_byte b = Some ty) ↔ Byte.to_N b ∈ type_codes.
Proof.
  split; [intros [ty E]|intros E].
  - apply (bool_decide_unpack _). by destruct b; try discriminate E.
  - assert (bool_decide (Byte.to_N b ∈ type_codes) = true) as E' by (by apply bool_decide_eq_true_2).
    clear E. destruct b; try discriminate E'; by eexists.
Qed.
Lemma validate_type_ok i :
  (type_byte ← read_u8 i 0; validate_type_operand (opcode i) type_byte) = Ok tt ↔
  ∃ b, head (operand i) = Some b ∧ Byte.to_N b ∈ type_codes ∧ (opcode i ≠ OpCode.NEWARRAY_T → Byte.to_N b ≠ 0x00).
Proof.
  rewrite Result_bind_ok. unfold read_u8. destruct (operand i) as [|b data]; [split; intros (? & [=] & _)|].
  change ((b :: data) !! N.to_nat 0) with (Some b). cbn [head]. split; intros (? & [= <-] & Hb); exists b; (split; [done|]).
  - unfold validate_type_operand in Hb. destruct (StackItemType.from_byte b) as [ty|] eqn:E; [|done].
    split; [apply type_codes_ok; eauto|]. intros Hne E0. assert (b = x00) as -> by (by apply to_N_inj).
    by destruct (opcode i).
  - destruct Hb as [[ty Hty]%type_codes_ok Hany]. unfold validate_type_operand. rewrite Hty.
    destruct (decide (opcode i = OpCode.NEWARRAY_T)) as [->|Hne]; [done|]. specialize (Hany Hne).
    rewrite bool_decide_false by (intros ->; done). by destruct (opcode i).
Qed.

Lemma untyped (c : N) (P Q : Prop) : bool_decide (c ∈ typed_codes) = false → (P ∧ (c ∈ typed_codes → Q)) ↔ P.
Proof. intros H%bool_decide_eq_false. tauto. Qed.
Lemma typed (op : OpCode.t) (data : bytes) :
  let c := Byte.to_N (OpCode.byte op) in
  bool_decide (c ∈ typed_codes) && bool_decide (op = OpCode.NEWARRAY_T ↔ c = 0xc4) = true →
  (∃ b, head data = Some b ∧ Byte.to_N b ∈ type_codes ∧ (op ≠ OpCode.NEWARRAY_T → Byte.to_N b ≠ 0x00)) ↔
  True ∧ (c ∈ typed_codes → ∃ b, head data = Some b ∧ Byte.to_N b ∈ type_codes ∧ (c ≠ 0xc4 → Byte.to_N b ≠ 0x00)).
Proof.
  intros c [H1%bool_decide_eq_true H2%bool_decide_eq_true]%andb_true_iff.
  split; [intros (b & ? & ? & Hb); split; [done|]; intros _ | intros [_ Hc]; destruct (Hc H1) as (b & ? & ? & Hb)];
    (exists b; split; [done|]; split; [done|]; intros Hne; apply Hb; tauto).
Qed.
Lemma validate_instruction_ok l i :
  validate_instruction i (pointer <$> l) = Ok tt ↔ lands l i.
Proof.
  pose proof (validate_jump_ok l i (read_i8 i 0) 0 1 (read_i8_ok i 0)) as Hshort.
  pose proof (validate_jump_ok l i (read_i32 i 0) 0 4 (read_i32_ok i 0)) as Hlong.
  pose proof (validate_try_ok l i _ _ 0 1 1 (read_i8_ok i 0) (read_i8_ok i 1)) as Htry.
  pose proof (validate_try_ok l i _ _ 0 4 4 (read_i32_ok i 0) (read_i32_ok i 4)) as Htry_l.
  pose proof (validate_type_ok i) as Htype.
  unfold lands, type_ok, code, validate_instruction, instruction_jump_target, instruction_try_targets in *.
  destruct (opcode i); (etransitivity; [first
    [apply Hshort; reflexivity | apply Hlong; reflexivity | apply Htry; reflexivity | apply Htry_l; reflexivity
    | apply Htype | reflexivity]|]);
  (match goal with |- context [branch_operands ?c] =>
     let ops := eval vm_compute in (branch_operands c) in change (branch_operands c) with ops end);
  rewrite ?Forall_cons, Forall_nil; first [rewrite untyped by (vm_compute; reflexivity); tauto | apply typed; vm_compute; reflexivity].
Qed.

Lemma validate_all_ok offsets l :
  validate_all l offsets = Ok tt ↔ Forall (λ i, validate_instruction i offsets = Ok tt) l.
Proof.
  induction l as [|i l IH]; cbn; [by split; [constructor|]|].
  rewrite Result_bind_ok, Forall_cons, <-IH. split; [intros ([] & ? & ?)|intros [? ?]; exists tt]; done.
Qed.

(** (C37) Strict validation accepts exactly the scripts that are a sequence of whole
    instructions in which the target of every jump, call, pointer and try operand,
    read in two's complement relative to its instruction, is the start of an
    instruction, and every type operand is the code of a stack item type, [Any]
    being allowed for [NEWARRAY_T] only; it returns the starts.  Which operands are
    targets or types is stated on the byte codes ([branch_operands], [typed_codes],
    [type_codes]). *)
Theorem strict_validation_exact script offsets :
  len script ≤ usize_max →
  validate_script script true = Ok offsets ↔
  ∃ l, script = concat (encode <$> l) ∧ laid_out 0 l ∧ offsets = pointer <$> l ∧ Forall (lands l) l.
Proof.
  intros Hmax. unfold validate_script. rewrite Result_bind_ok. split.
  - intros (l & Hl & ([] & Ha & [= <-])%Result_bind_ok). exists l.
    apply parse_exact in Hl as [-> Hlaid]; [|done]. split_and!; [done..|].
    apply validate_all_ok in Ha. eapply Forall_impl; [exact Ha|]. intros i. apply validate_instruction_ok.
  - intros (l & Hs & Hlaid & -> & Ha). exists l. split; [by apply parse_exact|]. apply Result_bind_ok. exists tt. split; [|done].
    apply validate_all_ok. eapply Forall_impl; [exact Ha|]. intros i. apply validate_instruction_ok.
Qed.

(** A script with a conditional jump over a two-byte push. *)
Definition sample_script : bytes :=
  [OpCode.byte OpCode.PUSHT; OpCode.byte OpCode.JMPIF; x05; OpCode.byte OpCode.PUSHDATA1; x01; x22;
   OpCode.byte OpCode.RET].

Lemma script_parse_exact_witness :
  len sample_script ≤ usize_max ∧ ∃ l, parse_script_instructions sample_script = Ok l ∧
    sample_script = concat (encode <$> l).
Proof.
  assert (len sample_script ≤ usize_max) as Hm by (vm_compute; congruence).
  split; [exact Hm|]. eexists. split; [vm_compute; reflexivity|].
  apply script_parse_exact; [exact Hm|]. vm_compute. reflexivity.
Defined.

Lemma strict_validation_exact_witness :
  validate_script sample_script true = Ok [0; 1; 3; 6] ∧
  ∃ l, sample_script = concat (encode <$> l) ∧ laid_out 0 l ∧ [0; 1; 3; 6] = pointer <$> l ∧ Forall (lands l) l.
Proof.
  assert (validate_script sample_script true = Ok [0; 1; 3; 6]) as Hv by (vm_compute; reflexivity).
  split; [exact Hv|]. apply strict_validation_exact; [vm_compute; congruence|exact Hv].
Defined.
