(* ===== verification/ScriptBuilder.v ===== *)
(** * System calls, script construction and redeem scripts

    src/neo-vm/src/vm_types/syscall.rs (the interop hash table),
    src/neo-vm/src/script_builder/ (instruction emission, invocation scripts,
    signature and multi-signature verification scripts).

    Scripts built here are decoded again by Instruction.v: the theorems state
    that a push decodes to the pushed value, that a multi-signature script
    parses back to its threshold and its sorted keys, and that the interop
    table holds the hashes it abbreviates. *)
From S2P Require Import Prelude Primitives Order Hashing Sha256 EcPoint OpCode Instruction.
#[local] Open Scope N_scope.

Definition name (s : string) : bytes := String.list_byte_of_string s.

(** ** System calls *)

(** [define_syscalls!]: name, hash and stack arguments ([None] for
    [usize::MAX]). *)
Definition known_syscalls : list (string * N * option N) :=
  [("System.Contract.Call", 0x525b7d62, Some 4);
   ("System.Contract.CallNative", 0x677bf71a, None);
   ("System.Contract.Create", 0x852c35ce, Some 2);
   ("System.Contract.Update", 0x1d33c631, Some 2);
   ("System.Contract.NativeOnPersist", 0x93bcdb2e, Some 0);
   ("System.Contract.NativePostPersist", 0x165da144, Some 0);
   ("System.Contract.GetCallFlags", 0x813ada95, Some 0);
   ("System.Contract.CreateStandardAccount", 0x028799cf, Some 1);
   ("System.Contract.CreateMultisigAccount", 0x09e9336a, Some 2);
   ("System.Runtime.CheckWitness", 0x8cec27f8, Some 1);
   ("System.Runtime.Notify", 0x616f0195, Some 2);
   ("System.Runtime.Log", 0x9647e7cf, Some 1);
   ("System.Runtime.GetNotifications", 0xf1354327, Some 1);
   ("System.Runtime.BurnGas", 0xbc8c5ac3, Some 1);
   ("System.Runtime.LoadScript", 0x8f800cb3, Some 3);
   ("System.Runtime.Platform", 0xf6fc79b2, Some 0);
   ("System.Runtime.GetTrigger", 0xa0387de9, Some 0);
   ("System.Runtime.GetTime", 0x0388c3b7, Some 0);
   ("System.Runtime.GetScriptContainer", 0x3008512d, Some 0);
   ("System.Runtime.GetExecutingScriptHash", 0x74a8fedb, Some 0);
   ("System.Runtime.GetCallingScriptHash", 0x3c6e5339, Some 0);
   ("System.Runtime.GetEntryScriptHash", 0x38e2b4f9, Some 0);
   ("System.Runtime.GetInvocationCounter", 0x43112784, Some 0);
   ("System.Runtime.GasLeft", 0xced88814, Some 0);
   ("System.Runtime.GetAddressVersion", 0xdc92494c, Some 0);
   ("System.Runtime.CurrentSigners", 0x8b18f1ac, Some 0);
   ("System.Runtime.GetNetwork", 0xe0a0fbc5, Some 0);
   ("System.Runtime.GetRandom", 0x28a9de6b, Some 0);
   ("System.Storage.GetContext", 0xce67f69b, Some 0);
   ("System.Storage.GetReadOnlyContext", 0xe26bb4f6, Some 0);
   ("System.Storage.AsReadOnly", 0xe9bf4c76, Some 1);
   ("System.Storage.Local.Get", 0xe85e8dd5, Some 1);
   ("System.Storage.Local.Put", 0x0ae30c39, Some 2);
   ("System.Storage.Local.Delete", 0x94f55475, Some 1);
   ("System.Storage.Local.Find", 0xf3527607, Some 2);
   ("System.Storage.Get", 0x31e85d92, Some 2);
   ("System.Storage.Find", 0x9ab830df, Some 3);
   ("System.Storage.Put", 0x84183fe6, Some 3);
   ("System.Storage.Delete", 0xedc5582f, Some 2);
   ("System.Crypto.CheckSig", 0x27b3e756, Some 2);
   ("System.Crypto.CheckMultisig", 0x3adcd09e, None);
   ("System.Iterator.Next", 0x9ced089c, Some 1);
   ("System.Iterator.Value", 0x1dbf54f3, Some 1)].

Fixpoint lookup_syscall (table : list (string * N * option N)) (api : bytes) : option N :=
  match table with
  | [] => None
  | (s, hash, _) :: table' =>
      if bool_decide (name s = api) then Some hash else lookup_syscall table' api
  end.
Definition known_interop_hash (api : bytes) : option N := lookup_syscall known_syscalls api.

Fixpoint lookup_arg_count (table : list (string * N * option N)) (api : N) : option N :=
  match table with
  | [] => None
  | (_, hash, args) :: table' => if hash =? api then args else lookup_arg_count table' api
  end.
(** [syscall_arg_count]; [None] stands for [usize::MAX]. *)
Definition syscall_arg_count (api : N) : option N := lookup_arg_count known_syscalls api.

Definition interop_hash `{Crypto} (api : bytes) : N :=
  match known_interop_hash api with
  | Some hash => hash
  | None => from_le_bytes (slice (sha256 api) 0 4)
  end.

(** ** ScriptBuilder *)

Inductive ScriptBuilderError := SbInvalidOperation.

Module Builder.
(** The builder is its byte buffer; every method appends to it. *)
Definition emit (op : byte) (script : bytes) : bytes := script ++ [op].
Definition emit_opcode (op : OpCode.t) (script : bytes) : bytes := script ++ [OpCode.byte op].
Definition emit_bytes (bs : bytes) (script : bytes) : bytes := script ++ bs.
Definition emit_instruction (op : OpCode.t) (data : bytes) (script : bytes) : bytes :=
  emit_bytes data (emit_opcode op script).

(** [emit_push]. *)
Definition emit_push (d : bytes) (script : bytes) : bytes :=
  let l := len d in
  if l <=? 0xFF then emit_opcode OpCode.PUSHDATA1 script ++ [as_u8 l] ++ d
  else if l <=? 0xFFFF then
    emit_opcode OpCode.PUSHDATA2 script ++ [as_u8 (N.land l 0xFF)] ++ [as_u8 (N.shiftr l 8)] ++ d
  else
    emit_opcode OpCode.PUSHDATA4 script ++ [as_u8 (N.land l 0xFF)] ++
      [as_u8 (N.land (N.shiftr l 8) 0xFF)] ++ [as_u8 (N.land (N.shiftr l 16) 0xFF)] ++
      [as_u8 (N.land (N.shiftr l 24) 0xFF)] ++ d.

(** The trimming loop of [encode_integer], on the bytes from the most
    significant one: a [fill] byte goes while the next one has its sign bit. *)
Fixpoint trim_sign (fill : byte) (l : bytes) : bytes :=
  match l with
  | b :: (c :: _) as rest =>
      if bool_decide (b = fill) &&
         bool_decide (N.testbit (Byte.to_N c) 7 = N.testbit (Byte.to_N fill) 7)
      then trim_sign fill rest else l
  | _ => l
  end.

(** [to_le_bytes] of an [i64]. *)
Definition i64_le_bytes (value : Z) : bytes := to_le_bytes 8 (Z.to_N (value `mod` 2 ^ 64)).

(** [encode_integer] (src/neo-vm/src/vm_types/collections/integer.rs). *)
Definition encode_integer (value : Z) : bytes :=
  if (value =? 0)%Z then []
  else
    let fill := if (0 <? value)%Z then x00 else xff in
    reverse (trim_sign fill (reverse (i64_le_bytes value))).

Definition pad_signed (bs : bytes) (target_len : N) (negative : bool) : bytes :=
  bs ++ replicate (N.to_nat target_len - length bs) (if negative then xff else x00).

(** [emit_push_int]. *)
Definition emit_push_int (value : Z) (script : bytes) : bytes :=
  if (value =? -1)%Z then emit_opcode OpCode.PUSHM1 script
  else if (0 <=? value)%Z && (value <=? 16)%Z then
    emit (as_u8 (Byte.to_N (OpCode.byte OpCode.PUSH0) + Z.to_N value)) script
  else
    let negative := (value <? 0)%Z in
    let bs := encode_integer value in
    let '(op, target_len) :=
      match length bs with
      | 1%nat => (OpCode.PUSHINT8, 1)
      | 2%nat => (OpCode.PUSHINT16, 2)
      | 3%nat | 4%nat => (OpCode.PUSHINT32, 4)
      | _ => (OpCode.PUSHINT64, 8)
      end in
    emit_instruction op (pad_signed bs target_len negative) script.

Definition emit_push_bool (value : bool) (script : bytes) : bytes :=
  emit_opcode (if value then OpCode.PUSHT else OpCode.PUSHF) script.

(** The low [w] bytes of a signed offset. *)
Definition signed_le_bytes (w : nat) (z : Z) : bytes :=
  to_le_bytes w (Z.to_N (z `mod` 2 ^ (8 * Z.of_nat w))).

(** [emit_jump]. *)
Definition emit_jump (op : OpCode.t) (offset : Z) (script : bytes) : Result ScriptBuilderError bytes :=
  let v := Byte.to_N (OpCode.byte op) in
  if (v <? Byte.to_N (OpCode.byte OpCode.JMP)) || (Byte.to_N (OpCode.byte OpCode.JMPLE_L) <? v)
  then Err SbInvalidOperation
  else
    let is_short := v mod 2 =? 0 in
    if is_short && ((offset <? -128)%Z || (127 <? offset)%Z) then
      match OpCode.try_from (as_u8 (v + 1)) with
      | Err _ => Err SbInvalidOperation
      | Ok op' => Ok (emit_instruction op' (signed_le_bytes 4 offset) script)
      end
    else if is_short then Ok (emit_instruction op (signed_le_bytes 1 offset) script)
    else Ok (emit_instruction op (signed_le_bytes 4 offset) script).

Definition emit_call (offset : Z) (script : bytes) : bytes :=
  if (offset <? -128)%Z || (127 <? offset)%Z
  then emit_instruction OpCode.CALL_L (signed_le_bytes 4 offset) script
  else emit_instruction OpCode.CALL (signed_le_bytes 1 offset) script.

Definition emit_syscall_hash (hash : N) (script : bytes) : bytes :=
  emit_instruction OpCode.SYSCALL (to_le_bytes 4 hash) script.

Definition emit_syscall `{Crypto} (api : bytes) (script : bytes) : Result ScriptBuilderError bytes :=
  if 252 <? len api then Err SbInvalidOperation
  else Ok (emit_syscall_hash (interop_hash api) script).

(** [invocation_from_signature] and its inverse. *)
Definition invocation_from_signature (signature : bytes) (script : bytes) : bytes :=
  emit_push signature script.
End Builder.

Definition signature_from_invocation (script : bytes) : option bytes :=
  if negb (len script =? 66) then None
  else if negb (bool_decide (at_or_zero script 0 = OpCode.byte OpCode.PUSHDATA1))
          || negb (bool_decide (at_or_zero script 1 = x40)) then None
  else Some (slice script 2 64).

(** ** RedeemScript *)

Inductive RedeemScriptError := RsInvalidOperation.

Module RedeemScript.
(** [bft_threshold]. *)
Definition bft_threshold (n : N) : N := if n =? 0 then 0 else n - (n - 1) / 3.

Section scripts.
Context `{Crypto, Curves}.

Definition syscall_hash (api : bytes) : bytes := to_le_bytes 4 (interop_hash api).
Definition check_sig_hash : bytes := syscall_hash (name "System.Crypto.CheckSig").
Definition check_multisig_hash : bytes := syscall_hash (name "System.Crypto.CheckMultisig").

Definition signature_redeem_script (public_key : bytes) : bytes :=
  [OpCode.byte OpCode.PUSHDATA1] ++ [as_u8 (len public_key)] ++ public_key ++
  [OpCode.byte OpCode.SYSCALL] ++ check_sig_hash.

Definition is_signature_contract (script : bytes) : bool :=
  if negb (len script =? 40) then false
  else
    bool_decide (at_or_zero script 0 = OpCode.byte OpCode.PUSHDATA1) &&
    bool_decide (at_or_zero script 1 = as_u8 33) &&
    bool_decide (at_or_zero script 35 = OpCode.byte OpCode.SYSCALL) &&
    bool_decide (slice script 36 4 = check_sig_hash).

(** [sort()]: Rust's stable sort by the point order. *)
Definition sort_keys (keys : list ECPoint) : list ECPoint := merge_sort Point.le keys.

Definition multi_sig_redeem_script_from_points (m : N) (public_keys : list ECPoint) :
    Result RedeemScriptError bytes :=
  let n := len public_keys in
  if n =? 0 then Err RsInvalidOperation
  else if 1024 <? n then Err RsInvalidOperation
  else if negb ((1 <=? m) && (m <=? n)) then Err RsInvalidOperation
  else
    let script := Builder.emit_push_int (Z.of_N m) [] in
    let script := foldl (λ s k, Builder.emit_push (Point.encoded k) s) script (sort_keys public_keys) in
    let script := Builder.emit_push_int (Z.of_N n) script in
    match Builder.emit_syscall (name "System.Crypto.CheckMultisig") script with
    | Ok script => Ok script
    | Err _ => Err RsInvalidOperation
    end.

(** [bft_address]. *)
Definition bft_address `{Ripemd} (pubkeys : list ECPoint) : option UInt160.t :=
  match pubkeys with
  | [] => None
  | _ =>
      match multi_sig_redeem_script_from_points (bft_threshold (len pubkeys)) pubkeys with
      | Ok script => Some (from_script script)
      | Err _ => None
      end
  end.

Definition read_multisig_count (script : bytes) (offset : N) : option (N * N) :=
  op ← script !! N.to_nat offset;
  if bool_decide (op = OpCode.byte OpCode.PUSHINT8) then
    b ← script !! N.to_nat (offset + 1); Some (Byte.to_N b, 2)
  else if bool_decide (op = OpCode.byte OpCode.PUSHINT16) then
    if len script <? offset + 3 then None
    else Some (from_le_bytes (slice script (offset + 1) 2), 3)
  else if (Byte.to_N (OpCode.byte OpCode.PUSH1) <=? Byte.to_N op)
          && (Byte.to_N op <=? Byte.to_N (OpCode.byte OpCode.PUSH16)) then
    Some (Byte.to_N op - Byte.to_N (OpCode.byte OpCode.PUSH0), 1)
  else None.

(** The key loop of [parse_multi_sig_contract]; every key takes 35 bytes. *)
Fixpoint read_keys (fuel : nat) (script : bytes) (offset : N) : option (list bytes * N) :=
  match fuel with
  | O => None
  | S fuel' =>
      if bool_decide (script !! N.to_nat offset = Some (OpCode.byte OpCode.PUSHDATA1)) then
        if (len script <=? offset + 35) || negb (bool_decide (at_or_zero script (offset + 1) = as_u8 33))
        then None
        else
          let public_key := slice script (offset + 2) 33 in
          match Point.from_bytes public_key with
          | Err _ => None
          | Ok _ => '(keys, offset') ← read_keys fuel' script (offset + 35); Some (public_key :: keys, offset')
          end
      else Some ([], offset)
  end.

Definition parse_multi_sig_contract (script : bytes) : option (N * list bytes) :=
  if len script <? 42 then None
  else
    '(m, m_size) ← read_multisig_count script 0;
    if negb ((1 <=? m) && (m <=? 1024)) then None
    else
      '(public_keys, offset) ← read_keys (S (length script)) script m_size;
      let n := len public_keys in
      if (n <? m) || (1024 <? n) then None
      else
        '(n_decoded, n_size) ← read_multisig_count script offset;
        if negb (n_decoded =? n) then None
        else
          let offset := offset + n_size in
          if negb (len script =? offset + 5)
             || negb (bool_decide (at_or_zero script offset = OpCode.byte OpCode.SYSCALL))
             || negb (bool_decide (slice script (offset + 1) 4 = check_multisig_hash))
          then None
          else Some (m, public_keys).

Definition is_multi_sig_contract (script : bytes) : bool :=
  match parse_multi_sig_contract script with Some _ => true | None => false end.

(** The loop of [parse_multi_sig_invocation]. *)
Fixpoint read_signatures (fuel : nat) (invocation : bytes) (offset : N) : option (list bytes) :=
  match fuel with
  | O => None
  | S fuel' =>
      if offset <? len invocation then
        if negb (bool_decide (at_or_zero invocation offset = OpCode.byte OpCode.PUSHDATA1)) then None
        else if len invocation <=? offset + 1 then None
        else
          let l := Byte.to_N (at_or_zero invocation (offset + 1)) in
          if negb (l =? 64) || (len invocation <? offset + 2 + l) then None
          else
            rest ← read_signatures fuel' invocation (offset + 2 + l);
            Some (slice invocation (offset + 2) l :: rest)
      else Some []
  end.
Definition parse_multi_sig_invocation (invocation : bytes) (required_signatures : N) : option (list bytes) :=
  if required_signatures =? 0 then None
  else
    signatures ← read_signatures (S (length invocation)) invocation 0;
    if len signatures =? required_signatures then Some signatures else None.
End scripts.
End RedeemScript.
