(* ===== verification/ScriptFacts.v ===== *)
(** * Properties of script construction

    Scripts built by ScriptBuilder.v decode, through Instruction.v, to what they
    were built from. *)
From S2P Require Import Prelude Primitives Order Hashing Sha256 EcPoint SampleKeys OpCode Instruction ScriptBuilder.
#[local] Open Scope N_scope.

(** The integer a push instruction leaves on the stack: the push handlers of
    src/neo-vm/src/jump_table/push.rs. *)
Definition pushed_integer (i : Instruction) : option Z :=
  match opcode i with
  | OpCode.PUSHINT8 | OpCode.PUSHINT16 | OpCode.PUSHINT32 | OpCode.PUSHINT64
  | OpCode.PUSHINT128 | OpCode.PUSHINT256 =>
      Some (to_signed (8 * OpCode.operand_size (opcode i)) (from_le_bytes (operand i)))
  | OpCode.PUSHM1 => Some (-1)%Z
  | OpCode.PUSH0 => Some 0%Z | OpCode.PUSH1 => Some 1%Z | OpCode.PUSH2 => Some 2%Z
  | OpCode.PUSH3 => Some 3%Z | OpCode.PUSH4 => Some 4%Z | OpCode.PUSH5 => Some 5%Z
  | OpCode.PUSH6 => Some 6%Z | OpCode.PUSH7 => Some 7%Z | OpCode.PUSH8 => Some 8%Z
  | OpCode.PUSH9 => Some 9%Z | OpCode.PUSH10 => Some 10%Z | OpCode.PUSH11 => Some 11%Z
  | OpCode.PUSH12 => Some 12%Z | OpCode.PUSH13 => Some 13%Z | OpCode.PUSH14 => Some 14%Z
  | OpCode.PUSH15 => Some 15%Z | OpCode.PUSH16 => Some 16%Z
  | _ => None
  end.

(** The bytes an instruction pushes ([push_data]). *)
Definition pushed_data (i : Instruction) : option bytes :=
  match opcode i with
  | OpCode.PUSHDATA1 | OpCode.PUSHDATA2 | OpCode.PUSHDATA4 => Some (operand i)
  | _ => None
  end.

(** ** Two's complement *)

Definition signed_le (l : bytes) : Z := to_signed (8 * len l) (from_le_bytes l).

Lemma pow_256 n : 256 ^ n = 2 ^ (8 * n).
Proof. by rewrite N.pow_mul_r. Qed.

Lemma testbit7 b : N.testbit (Byte.to_N b) 7 = (128 <=? Byte.to_N b).
Proof. by destruct b. Qed.

Lemma half_pow n : 0 < n → 2 ^ (8 * n) = 2 * 2 ^ (8 * n - 1).
Proof.
  intros Hn. rewrite <-N.pow_succ_r' . f_equal. lia.
Qed.

(** The sign bit of the last byte is the sign of the number. *)
Lemma sign_bit l c :
  N.testbit (Byte.to_N c) 7 = (2 ^ (8 * len (l ++ [c]) - 1) <=? from_le_bytes (l ++ [c])).
Proof.
  rewrite testbit7, from_le_bytes_app, len_app. cbn [from_le_bytes].
  pose proof (from_le_bytes_bound l) as Hb. fold (len l) in Hb. rewrite pow_256 in Hb.
  replace (8 * (len l + len [c]) - 1) with (8 * len l + 7) by (change (len [c]) with 1; lia).
  rewrite N.pow_add_r. rewrite ?pow_256. change (2 ^ 7) with 128. fold (len l).
  set (P := 2 ^ (8 * len l)) in *. rewrite N.mul_0_r, N.add_0_r.
  destruct (N.leb_spec 128 (Byte.to_N c)), (N.leb_spec (P * 128) (from_le_bytes l + P * Byte.to_N c)); nia.
Qed.

Definition sign_fill (negative : bool) : byte := if negative then xff else x00.

Lemma signed_le_neg l c :
  (signed_le (l ++ [c]) <? 0)%Z = N.testbit (Byte.to_N c) 7.
Proof.
  rewrite (sign_bit l c). unfold signed_le, to_signed.
  set (L := l ++ [c]). pose proof (from_le_bytes_bound L) as Hb. fold (len L) in Hb. rewrite pow_256 in Hb.
  assert (0 < len L) by (unfold L; rewrite len_app; change (len [c]) with 1; lia).
  destruct (N.ltb_spec (from_le_bytes L) (2 ^ (8 * len L - 1))),
    (N.leb_spec (2 ^ (8 * len L - 1)) (from_le_bytes L)); try lia.
  apply Z.ltb_lt. rewrite <-(N2Z.inj_pow 2). lia.
Qed.

(** Sign extension by a byte does not change the number. *)
Lemma signed_le_extend l c negative :
  N.testbit (Byte.to_N c) 7 = negative →
  signed_le ((l ++ [c]) ++ [sign_fill negative]) = signed_le (l ++ [c]).
Proof.
  intros Hs. pose proof (sign_bit l c) as Hsb. rewrite Hs in Hsb. set (L := l ++ [c]) in *.
  unfold signed_le, to_signed. rewrite from_le_bytes_app, len_app. fold (len L). cbn [from_le_bytes].
  pose proof (from_le_bytes_bound L) as Hb. fold (len L) in Hb. rewrite pow_256 in *.
  assert (0 < len L) as Hpos by (unfold L; rewrite len_app; change (len [c]) with 1; lia).
  change (len [sign_fill negative]) with 1.
  replace (8 * (len L + 1) - 1) with (8 * len L + 7) by lia.
  rewrite N.pow_add_r. change (2 ^ 7) with 128. rewrite (half_pow (len L) Hpos) in *.
  replace (Z.of_N (8 * (len L + 1)))%Z with (Z.of_N (8 * len L) + 8)%Z by lia.
  rewrite Z.pow_add_r by lia. change (2 ^ 8)%Z with 256%Z.
  assert (2 ^ Z.of_N (8 * len L) = Z.of_N (2 * 2 ^ (8 * len L - 1)))%Z as ->.
  { rewrite <-half_pow by done. by rewrite N2Z.inj_pow. }
  set (P := 2 ^ (8 * len L - 1)) in *. rewrite N.mul_0_r, N.add_0_r.
  destruct negative; cbn [sign_fill] in *.
  - change (Byte.to_N xff) with 255. symmetry in Hsb. apply N.leb_le in Hsb.
    destruct (N.ltb_spec (from_le_bytes L + 2 * P * 255) (2 * P * 128)); [nia|].
    destruct (N.ltb_spec (from_le_bytes L) P); [lia|]. nia.
  - change (Byte.to_N x00) with 0. symmetry in Hsb. apply N.leb_gt in Hsb.
    rewrite N.mul_0_r, N.add_0_r.
    destruct (N.ltb_spec (from_le_bytes L) (2 * P * 128)); [|nia].
    destruct (N.ltb_spec (from_le_bytes L) P); [done|lia].
Qed.

Lemma trim_sign_value negative l :
  signed_le (reverse (Builder.trim_sign (sign_fill negative) l)) = signed_le (reverse l) ∧
  (length (Builder.trim_sign (sign_fill negative) l) ≤ length l)%nat ∧
  (l ≠ [] → Builder.trim_sign (sign_fill negative) l ≠ []).
Proof.
  induction l as [|b [|c l] IH]; [done..|].
  change (Builder.trim_sign (sign_fill negative) (b :: c :: l)) with
    (if bool_decide (b = sign_fill negative) &&
        bool_decide (N.testbit (Byte.to_N c) 7 = N.testbit (Byte.to_N (sign_fill negative)) 7)
     then Builder.trim_sign (sign_fill negative) (c :: l) else b :: c :: l).
  case_bool_decide as Hb; [|done]. case_bool_decide as Hc; [|done]. cbn [andb].
  destruct IH as (IH & Hlen & Hne). rewrite IH. split_and!; [|cbn [length] in *; lia|by intros _; apply Hne].
  rewrite (reverse_cons (c :: l)), (reverse_cons l), Hb, signed_le_extend; [done|].
  rewrite Hc. by destruct negative.
Qed.

Lemma signed_le_i64 v :
  (- 2 ^ 63 ≤ v < 2 ^ 63)%Z → signed_le (Builder.i64_le_bytes v) = v.
Proof.
  intros Hv. unfold signed_le, Builder.i64_le_bytes, len. rewrite length_to_le_bytes.
  rewrite from_to_le_bytes_small.
  - unfold to_signed. change (2 ^ (8 * N.of_nat 8 - 1)) with 9223372036854775808.
    change (2 ^ Z.of_N (8 * N.of_nat 8))%Z with 18446744073709551616%Z.
    change (2 ^ 64)%Z with 18446744073709551616%Z. change (2 ^ 63)%Z with 9223372036854775808%Z in Hv.
    destruct (decide (0 ≤ v)%Z).
    + rewrite Z.mod_small by lia. destruct (N.ltb_spec (Z.to_N v) 9223372036854775808); lia.
    + rewrite <-(Z_mod_plus_full v 1), Z.mod_small by lia.
      destruct (N.ltb_spec (Z.to_N (v + 1 * 18446744073709551616)) 9223372036854775808); lia.
  - pose proof (Z.mod_pos_bound v (2 ^ 64)). change (256 ^ N.of_nat 8) with 18446744073709551616.
    change (2 ^ 64)%Z with 18446744073709551616%Z in *. lia.
Qed.

Lemma encode_integer_value v :
  (- 2 ^ 63 ≤ v < 2 ^ 63)%Z → v ≠ 0%Z →
  signed_le (Builder.encode_integer v) = v ∧ (1 ≤ length (Builder.encode_integer v) ≤ 8)%nat.
Proof.
  intros Hv Hne. unfold Builder.encode_integer. destruct (Z.eqb_spec v 0); [done|].
  replace (if (0 <? v)%Z then x00 else xff) with (sign_fill (v <? 0)%Z).
  2:{ unfold sign_fill. destruct (Z.ltb_spec 0 v), (Z.ltb_spec v 0); try done; lia. }
  destruct (trim_sign_value (v <? 0)%Z (reverse (Builder.i64_le_bytes v))) as (-> & Hlen & Hnil).
  rewrite reverse_involutive, length_reverse. split; [by apply signed_le_i64|].
  rewrite length_reverse in Hlen. change (length (Builder.i64_le_bytes v)) with 8%nat in Hlen.
  split; [|done]. destruct (Builder.trim_sign _ _); [|cbn; lia]. exfalso. by apply Hnil.
Qed.

Lemma pad_signed_value bs w negative :
  bs ≠ [] → (signed_le bs <? 0)%Z = negative → (length bs ≤ N.to_nat w)%nat →
  signed_le (Builder.pad_signed bs w negative) = signed_le bs ∧
  len (Builder.pad_signed bs w negative) = w.
Proof.
  intros Hne Hs Hle. unfold Builder.pad_signed. fold (sign_fill negative).
  split; [|rewrite len_app; unfold len; rewrite length_replicate; lia].
  remember (N.to_nat w - length bs)%nat as k eqn:Ek. clear Ek Hle.
  revert bs Hne Hs. induction k as [|k IH]; intros bs Hne Hs; cbn [replicate]; [by rewrite app_nil_r|].
  destruct (exists_last Hne) as (l & c & ->).
  change (sign_fill negative :: replicate k (sign_fill negative)) with
    ([sign_fill negative] ++ replicate k (sign_fill negative)).
  rewrite app_assoc, IH; [apply signed_le_extend|by destruct l|]; rewrite ?signed_le_extend;
    rewrite ?signed_le_neg in Hs; try done. by rewrite signed_le_neg.
Qed.

(** ** Pushes *)

Lemma as_u8_land n : as_u8 (N.land n 0xFF) = as_u8 n.
Proof.
  apply to_N_inj. rewrite !to_N_as_u8. change 0xFF with (N.ones 8).
  rewrite N.land_ones. by rewrite N.Div0.mod_mod.
Qed.

(** The instruction [emit_push] writes. *)
Definition push_instruction (position : N) (d : bytes) : Instruction :=
  let op := if len d <=? 0xFF then OpCode.PUSHDATA1
            else if len d <=? 0xFFFF then OpCode.PUSHDATA2 else OpCode.PUSHDATA4 in
  mkInstruction position op d (compute_size op (len d)).

Lemma emit_push_encode d script :
  Builder.emit_push d script = script ++ encode (push_instruction (len script) d).
Proof.
  unfold Builder.emit_push, push_instruction, encode, Builder.emit_opcode. cbn [opcode operand].
  destruct (len d <=? 0xFF); [by rewrite <-app_assoc|]. destruct (len d <=? 0xFFFF).
  - change (N.to_nat (OpCode.operand_prefix OpCode.PUSHDATA2)) with 2%nat. cbn [to_le_bytes].
    rewrite as_u8_land, N.shiftr_div_pow2. by rewrite <-app_assoc.
  - change (N.to_nat (OpCode.operand_prefix OpCode.PUSHDATA4)) with 4%nat. cbn [to_le_bytes].
    rewrite !as_u8_land, !N.shiftr_div_pow2, !N.Div0.div_div. by rewrite <-app_assoc.
Qed.

Lemma push_instruction_ok position d :
  len d < 2 ^ 32 → instruction_ok (push_instruction position d) ∧
    pushed_data (push_instruction position d) = Some d.
Proof.
  intros Hd. unfold push_instruction, instruction_ok, pushed_data.
  destruct (N.leb_spec (len d) 0xFF); cbn -[N.pow]; [by split; [split; [|lia]|]|].
  destruct (N.leb_spec (len d) 0xFFFF); cbn -[N.pow]; split; try done; split; try done.
  change (256 ^ 2) with 65536. lia.
Qed.

Lemma emit_small_encode v script :
  (v = -1 ∨ 0 ≤ v ≤ 16)%Z →
  ∃ i, Builder.emit_push_int v script = script ++ encode i ∧ pointer i = len script ∧
    instruction_ok i ∧ pushed_integer i = Some v.
Proof.
  intros Hv. unfold Builder.emit_push_int.
  assert (∀ op, OpCode.operand_prefix op = 0 → OpCode.operand_size op = 0 →
    let i := mkInstruction (len script) op [] (compute_size op 0) in
    pointer i = len script ∧ instruction_ok i ∧ script ++ encode i = script ++ [OpCode.byte op]) as Hop.
  { intros op H1 H2. unfold instruction_ok, encode. cbn [opcode operand cached_size pointer]. by rewrite H1, H2. }
  destruct Hv as [->|Hv].
  { destruct (Hop OpCode.PUSHM1) as (? & ? & E); [done..|].
    exists (mkInstruction (len script) OpCode.PUSHM1 [] (compute_size OpCode.PUSHM1 0)). by rewrite E. }
  destruct (Z.eqb_spec v (-1)); [lia|].
  destruct (Z.leb_spec 0 v); [|lia]. destruct (Z.leb_spec v 16); [|lia]. cbn [andb].
  assert (∃ op, OpCode.operand_prefix op = 0 ∧ OpCode.operand_size op = 0 ∧
    pushed_integer (mkInstruction (len script) op [] (compute_size op 0)) = Some v ∧
    as_u8 (Byte.to_N (OpCode.byte OpCode.PUSH0) + Z.to_N v) = OpCode.byte op) as (op & H1 & H2 & H3 & H4).
  { assert (v = 0 ∨ v = 1 ∨ v = 2 ∨ v = 3 ∨ v = 4 ∨ v = 5 ∨ v = 6 ∨ v = 7 ∨ v = 8 ∨ v = 9 ∨ v = 10
      ∨ v = 11 ∨ v = 12 ∨ v = 13 ∨ v = 14 ∨ v = 15 ∨ v = 16)%Z as Hcase by lia.
    repeat (destruct Hcase as [->|Hcase]); subst;
      first [ exists OpCode.PUSH0; by split_and!
            | exists OpCode.PUSH1; by split_and!
            | exists OpCode.PUSH2; by split_and!
            | exists OpCode.PUSH3; by split_and!
            | exists OpCode.PUSH4; by split_and!
            | exists OpCode.PUSH5; by split_and!
            | exists OpCode.PUSH6; by split_and!
            | exists OpCode.PUSH7; by split_and!
            | exists OpCode.PUSH8; by split_and!
            | exists OpCode.PUSH9; by split_and!
            | exists OpCode.PUSH10; by split_and!
            | exists OpCode.PUSH11; by split_and!
            | exists OpCode.PUSH12; by split_and!
            | exists OpCode.PUSH13; by split_and!
            | exists OpCode.PUSH14; by split_and!
            | exists OpCode.PUSH15; by split_and!
            | exists OpCode.PUSH16; by split_and! ]. }
  destruct (Hop op H1 H2) as (? & ? & E). unfold Builder.emit. rewrite H4. eexists. by rewrite <-E.
Qed.

(** Every integer push, however long, decodes to the pushed value. *)
Lemma emit_push_int_encode v script :
  (- 2 ^ 63 ≤ v < 2 ^ 63)%Z →
  ∃ i, Builder.emit_push_int v script = script ++ encode i ∧ pointer i = len script ∧
    instruction_ok i ∧ pushed_integer i = Some v.
Proof.
  intros Hv. destruct (decide (v = -1 ∨ 0 ≤ v ≤ 16)%Z) as [|Hbig]; [by apply emit_small_encode|].
  unfold Builder.emit_push_int. destruct (Z.eqb_spec v (-1)); [lia|].
  replace ((0 <=? v) && (v <=? 16))%Z with false by lia.
  destruct (encode_integer_value v) as [Hval Hlen]; [done|lia|].
  set (bs := Builder.encode_integer v) in *.
  assert (bs ≠ []) as Hne by (intros E; rewrite E in Hlen; cbn in Hlen; lia).
  assert (∀ op w, OpCode.operand_prefix op = 0 → OpCode.operand_size op = w → (length bs ≤ N.to_nat w)%nat →
    (∀ d, pushed_integer (mkInstruction (len script) op d (compute_size op (len d))) =
      Some (to_signed (8 * w) (from_le_bytes d))) →
    ∃ i, Builder.emit_instruction op (Builder.pad_signed bs w (v <? 0)%Z) script = script ++ encode i ∧
      pointer i = len script ∧ instruction_ok i ∧ pushed_integer i = Some v) as Hop.
  { intros op w H1 H2 Hw Hpush. destruct (pad_signed_value bs w (v <? 0)%Z) as [Hpv Hpl]; [done|by rewrite Hval|done|].
    exists (mkInstruction (len script) op (Builder.pad_signed bs w (v <? 0)%Z) (compute_size op w)).
    unfold instruction_ok, encode, Builder.emit_instruction, Builder.emit_bytes, Builder.emit_opcode.
    cbn [opcode operand cached_size pointer]. rewrite H1, H2, Hpl.
    split_and!; [by rewrite <-app_assoc|done..|]. specialize (Hpush (Builder.pad_signed bs w (v <? 0)%Z)).
    rewrite Hpl in Hpush. rewrite Hpush. f_equal.
    transitivity (signed_le (Builder.pad_signed bs w (v <? 0)%Z)); [|by rewrite Hpv].
    unfold signed_le. by rewrite Hpl. }
  destruct (length bs) as [|[|[|[|[|k]]]]] eqn:El; try lia; apply Hop; try done; lia.
Qed.

(** What the builder pushes is what the VM reads: a push of an [i64] or of
    a byte string of any length below 2^32, emitted after any script and before
    any other, decodes to one instruction that covers exactly the emitted bytes
    and carries exactly that value. *)
Theorem pushes_decode v d script rest :
  (- 2 ^ 63 ≤ v < 2 ^ 63)%Z → len d < 2 ^ 32 →
  len (Builder.emit_push_int v script ++ rest) ≤ usize_max →
  len (Builder.emit_push d script ++ rest) ≤ usize_max →
  (∃ i, parse (Builder.emit_push_int v script ++ rest) (len script) = Ok i ∧
     pushed_integer i = Some v ∧ len script + cached_size i = len (Builder.emit_push_int v script)) ∧
  (∃ i, parse (Builder.emit_push d script ++ rest) (len script) = Ok i ∧
     pushed_data i = Some d ∧ len script + cached_size i = len (Builder.emit_push d script)).
Proof.
  intros Hv Hd H1 H2. split.
  - destruct (emit_push_int_encode v script Hv) as (i & E & Hp & Hok & Hval). rewrite E in *. exists i.
    rewrite <-app_assoc in *. rewrite parse_encode, len_app, len_encode by done. done.
  - destruct (push_instruction_ok (len script) d Hd) as [Hok Hval]. rewrite emit_push_encode in *.
    exists (push_instruction (len script) d).
    rewrite <-app_assoc in *. rewrite parse_encode, len_app, len_encode by done. done.
Qed.

Lemma pushes_decode_witness :
  ∃ i, parse (Builder.emit_push_int (-300) [x40] ++ [x40]) 1 = Ok i ∧ pushed_integer i = Some (-300)%Z ∧
    1 + cached_size i = len (Builder.emit_push_int (-300) [x40]).
Proof.
  apply (pushes_decode (-300) [x01; x02] [x40] [x40]); vm_compute; try split; congruence.
Defined.

(** ** Invocation scripts *)

Lemma push_64 signature :
  len signature = 64 → Builder.invocation_from_signature signature [] = [x0c; x40] ++ signature.
Proof. intros Hs. unfold Builder.invocation_from_signature, Builder.emit_push. by rewrite Hs. Qed.

Lemma signature_of_invocation signature :
  len signature = 64 →
  signature_from_invocation (Builder.invocation_from_signature signature []) = Some signature.
Proof.
  intros Hs. rewrite push_64 by done. unfold signature_from_invocation. rewrite len_app, Hs.
  cbn -[slice]. f_equal. rewrite <-(app_nil_r signature) at 1. by apply (slice_mid [x0c; x40]).
Qed.

(** The compact form of a signature in a recovery message is lossless: a
    script yields a signature exactly when it is the invocation script of that
    64-byte signature. *)
Theorem signature_invocation_exact script signature :
  signature_from_invocation script = Some signature ↔
  len signature = 64 ∧ script = Builder.invocation_from_signature signature [].
Proof.
  split; [|intros [? ->]; by apply signature_of_invocation].
  unfold signature_from_invocation. destruct (N.eqb_spec (len script) 66) as [Hl|]; [|done]. cbn [negb].
  destruct (bool_decide_reflect (at_or_zero script 0 = OpCode.byte OpCode.PUSHDATA1)) as [H0|]; [|done].
  destruct (bool_decide_reflect (at_or_zero script 1 = x40)) as [H1|]; [|done]. intros [= <-].
  assert (len (slice script 2 64) = 64) as H64 by (apply length_slice; lia). split; [done|].
  rewrite push_64 by done. destruct script as [|a [|b script]]; [done..|]. change (a = x0c) in H0. change (b = x40) in H1. subst a b.
  cbn [app]. do 2 f_equal. rewrite <-(app_nil_r script) at 2. symmetry. apply (slice_mid [x0c; x40]); [done|].
  rewrite !len_cons in Hl. lia.
Qed.

(** ** The interop table *)

Lemma lookup_syscall_elem table api hash :
  lookup_syscall table api = Some hash → ∃ s args, (s, hash, args) ∈ table ∧ name s = api.
Proof.
  induction table as [|[[s h] args] table IH]; cbn; [done|]. case_bool_decide.
  - intros [= ->]. exists s, args. split; [by left|done].
  - intros (s' & a' & ? & ?)%IH. exists s', a'. split; [by right|done].
Qed.

Definition table_exact (row : string * N * option N) : bool :=
  row.1.2 =? from_le_bytes (slice (sha256 (Crypto:=sha256_crypto) (name row.1.1)) 0 4).

Lemma table_exact_all : forallb table_exact known_syscalls = true.
Proof. vm_compute. reflexivity. Qed.

(** The hard-coded interop table only abbreviates: for every name, known or
    not, the interop hash is the first four bytes of its SHA-256, read
    little-endian. *)
Theorem interop_hash_is_sha256_prefix api :
  interop_hash (H:=sha256_crypto) api = from_le_bytes (slice (sha256 (Crypto:=sha256_crypto) api) 0 4).
Proof.
  unfold interop_hash, known_interop_hash. destruct (lookup_syscall known_syscalls api) as [hash|] eqn:E; [|done].
  apply lookup_syscall_elem in E as (s & args & Hin & <-).
  pose proof table_exact_all as Ht. rewrite forallb_forall in Ht.
  apply list_elem_of_In in Hin. apply Ht, N.eqb_eq in Hin. exact Hin.
Qed.

(** ** Multi-signature scripts *)

Lemma emit_push_int_app v script : Builder.emit_push_int v script = script ++ Builder.emit_push_int v [].
Proof.
  unfold Builder.emit_push_int, Builder.emit_opcode, Builder.emit. destruct (v =? -1)%Z; [done|].
  destruct (_ && _); [done|]. cbv zeta.
  destruct (match length (Builder.encode_integer v) with
            | 1%nat => (OpCode.PUSHINT8, 1) | 2%nat => (OpCode.PUSHINT16, 2)
            | 3%nat | 4%nat => (OpCode.PUSHINT32, 4) | _ => (OpCode.PUSHINT64, 8) end) as [op w].
  unfold Builder.emit_instruction, Builder.emit_bytes, Builder.emit_opcode. by rewrite <-app_assoc.
Qed.

(** The encodings of the counts a multi-signature script may hold. *)
Definition count_bytes (m : N) : bytes :=
  if m <=? 16 then [as_u8 (16 + m)] else if m <=? 127 then [x00; as_u8 m] else x01 :: to_le_bytes 2 m.

Lemma count_bytes_all :
  forallb (λ k, let m := N.of_nat k in
    bool_decide (Builder.emit_push_int (Z.of_N m) [] = count_bytes m)) (seq 1 1024) = true.
Proof. vm_compute. reflexivity. Qed.

Lemma emit_count m : 1 ≤ m ≤ 1024 → Builder.emit_push_int (Z.of_N m) [] = count_bytes m.
Proof.
  intros Hm. pose proof count_bytes_all as Hall. rewrite forallb_forall in Hall.
  specialize (Hall (N.to_nat m)). cbn beta zeta in Hall. rewrite N2Nat.id in Hall.
  apply bool_decide_eq_true in Hall; [done|]. apply in_seq. lia.
Qed.

Lemma lookup_mid {A} (pre : list A) x post i : i = len pre → (pre ++ x :: post) !! N.to_nat i = Some x.
Proof. intros ->. unfold len. rewrite Nat2N.id. by apply list_lookup_middle. Qed.

Lemma read_count pre m post :
  1 ≤ m ≤ 1024 →
  RedeemScript.read_multisig_count (pre ++ count_bytes m ++ post) (len pre) = Some (m, len (count_bytes m)).
Proof.
  intros Hm. unfold RedeemScript.read_multisig_count, count_bytes.
  destruct (N.leb_spec m 16); [|destruct (N.leb_spec m 127)]; cbn [app].
  - rewrite (lookup_mid pre _ _ (len pre) eq_refl). cbn [mbind option_bind].
    assert (Byte.to_N (as_u8 (16 + m)) = 16 + m) as Hb by (rewrite to_N_as_u8; apply N.mod_small; lia).
    rewrite !bool_decide_false by (intros E; rewrite E in Hb; cbn in Hb; lia). rewrite Hb.
    change (Byte.to_N (OpCode.byte OpCode.PUSH1)) with 17. change (Byte.to_N (OpCode.byte OpCode.PUSH16)) with 32.
    change (Byte.to_N (OpCode.byte OpCode.PUSH0)) with 16.
    destruct (N.leb_spec 17 (16 + m)); [|lia]. destruct (N.leb_spec (16 + m) 32); [|lia].
    cbn [andb]. by replace (16 + m - 16) with m by lia.
  - rewrite (lookup_mid pre _ _ (len pre) eq_refl). cbn [mbind option_bind]. rewrite bool_decide_true by done.
    change (x00 :: as_u8 m :: post) with ([x00] ++ as_u8 m :: post). rewrite app_assoc.
    rewrite lookup_mid by (by rewrite len_app). cbn [mbind option_bind].
    rewrite to_N_as_u8, N.mod_small by lia. done.
  - rewrite (lookup_mid pre _ _ (len pre) eq_refl). cbn [mbind option_bind]. rewrite bool_decide_false by done.
    rewrite bool_decide_true by done. change (x01 :: ?l) with ([x01] ++ l). rewrite app_assoc.
    rewrite (slice_mid (pre ++ [x01]) (to_le_bytes 2 m) post); [|by rewrite len_app|done].
    rewrite from_to_le_bytes_small by (change (256 ^ N.of_nat 2) with 65536; lia).
    rewrite !len_app. destruct (N.ltb_spec (len pre + len [x01] + (len (to_le_bytes 2 m) + len post)) (len pre + 3)) as [Hl|_]; [|done].
    change (len [x01]) with 1 in Hl. change (len (to_le_bytes 2 m)) with 2 in Hl. lia.
Qed.

Lemma count_bytes_head m post : 1 ≤ m ≤ 1024 → ∃ b l, count_bytes m ++ post = b :: l ∧ b ≠ OpCode.byte OpCode.PUSHDATA1.
Proof.
  intros Hm. unfold count_bytes. destruct (N.leb_spec m 16); [|destruct (N.leb_spec m 127)]; cbn [app];
    eexists _, _; (split; [reflexivity|]); [|done..].
  intros E. apply (f_equal Byte.to_N) in E. rewrite to_N_as_u8, N.mod_small in E by lia. cbn in E. lia.
Qed.

Section multisig.
Context `{Crypto, Curves}.

(** A key as [from_bytes] accepts it in compressed form. *)
Definition key_ok (k : bytes) : Prop := len k = 33 ∧ ∃ p, Point.from_bytes k = Ok p.

Definition key_push (k : bytes) : bytes := [x0c; as_u8 33] ++ k.

Lemma emit_keys keys script :
  Forall (λ k, len (Point.encoded k) = 33) keys →
  foldl (λ s k, Builder.emit_push (Point.encoded k) s) script keys =
  script ++ concat (key_push <$> (Point.encoded <$> keys)).
Proof.
  intros Hk. revert script. induction Hk as [|k keys Hlen Hk IH]; intros script; cbn [foldl fmap list_fmap concat].
  - by rewrite app_nil_r.
  - rewrite IH, app_assoc. f_equal. unfold Builder.emit_push, key_push, Builder.emit_opcode. rewrite Hlen.
    by rewrite <-app_assoc.
Qed.

Lemma read_keys_exact fuel pre keys b post :
  Forall key_ok keys → b ≠ OpCode.byte OpCode.PUSHDATA1 → (length keys < fuel)%nat →
  RedeemScript.read_keys fuel (pre ++ concat (key_push <$> keys) ++ b :: post) (len pre) =
  Some (keys, len pre + 35 * len keys).
Proof.
  intros Hk Hb. revert fuel pre. induction Hk as [|k keys [Hlen [p Hp]] Hk IH]; intros [|fuel] pre Hf; cbn in Hf; try lia.
  - cbn [fmap list_fmap concat app RedeemScript.read_keys]. rewrite lookup_mid by done.
    rewrite bool_decide_false by congruence. do 2 f_equal. unfold len. cbn. lia.
  - set (tail := concat (key_push <$> keys) ++ b :: post) in *.
    assert (pre ++ concat (key_push <$> k :: keys) ++ b :: post = pre ++ x0c :: as_u8 33 :: k ++ tail) as ->.
    { unfold tail, key_push. cbn [fmap list_fmap concat]. by rewrite <-!app_assoc. }
    cbn [RedeemScript.read_keys]. rewrite lookup_mid, bool_decide_true by done.
    assert (at_or_zero (pre ++ x0c :: as_u8 33 :: k ++ tail) (len pre + 1) = as_u8 33) as ->.
    { change (x0c :: ?l) with ([x0c] ++ l). rewrite app_assoc. replace (len pre + 1) with (len (pre ++ [x0c])) by (by rewrite len_app).
      apply at_or_zero_app. }
    rewrite (bool_decide_true (as_u8 33 = as_u8 33)) by done.
    destruct (N.leb_spec (len (pre ++ x0c :: as_u8 33 :: k ++ tail)) (len pre + 35)) as [Hle|_].
    { exfalso. unfold tail in Hle. rewrite !len_app, !len_cons, !len_app, !len_cons in Hle. lia. }
    cbn [orb negb]. replace (pre ++ x0c :: as_u8 33 :: k ++ tail) with ((pre ++ [x0c; as_u8 33]) ++ k ++ tail)
      by (by rewrite <-app_assoc).
    rewrite (slice_mid (pre ++ [x0c; as_u8 33]) k tail) by (rewrite ?len_app; done). rewrite Hp.
    rewrite app_assoc. replace (len pre + 35) with (len ((pre ++ [x0c; as_u8 33]) ++ k)).
    2:{ rewrite !len_app, Hlen. change (len [x0c; as_u8 33]) with 2. lia. }
    unfold tail. rewrite IH by lia. cbn [mbind option_bind]. f_equal. f_equal.
    change (len [x0c; as_u8 33]) with 2. rewrite (len_cons k keys), !len_app, Hlen.
    change (len [x0c; as_u8 33]) with 2. lia.
Qed.

Lemma len_key_pushes keys : Forall key_ok keys → len (concat (key_push <$> keys)) = 35 * len keys.
Proof.
  induction 1 as [|k keys [Hlen _] Hk IH]; [done|]. cbn [fmap list_fmap concat]. unfold key_push at 1.
  rewrite !len_app, IH, Hlen, (len_cons k keys). change (len [x0c; as_u8 33]) with 2. lia.
Qed.

Lemma multisig_bytes m keys :
  1 ≤ m ≤ len keys → len keys ≤ 1024 → Forall (λ k, len (Point.encoded k) = 33) keys →
  RedeemScript.multi_sig_redeem_script_from_points m keys =
  Ok (count_bytes m ++ concat (key_push <$> (Point.encoded <$> RedeemScript.sort_keys keys)) ++
      count_bytes (len keys) ++ [x41] ++ RedeemScript.check_multisig_hash).
Proof.
  intros Hm Hn Hk. unfold RedeemScript.multi_sig_redeem_script_from_points.
  destruct (N.eqb_spec (len keys) 0); [lia|]. destruct (N.ltb_spec 1024 (len keys)); [lia|].
  destruct (N.leb_spec 1 m); [|lia]. destruct (N.leb_spec m (len keys)); [|lia]. cbn [andb negb].
  rewrite emit_count by lia. rewrite emit_keys.
  2:{ unfold RedeemScript.sort_keys. by rewrite merge_sort_Permutation. }
  rewrite emit_push_int_app, emit_count by lia. unfold Builder.emit_syscall.
  replace (252 <? len (name "System.Crypto.CheckMultisig")) with false by done.
  unfold Builder.emit_syscall_hash, Builder.emit_instruction, Builder.emit_bytes, Builder.emit_opcode.
  f_equal. by rewrite <-!app_assoc.
Qed.

Lemma sort_keys_perm keys : RedeemScript.sort_keys keys ≡ₚ keys.
Proof. apply merge_sort_Permutation. Qed.

Lemma count_bytes_pos k : 1 ≤ len (count_bytes k).
Proof. unfold count_bytes. destruct (k <=? 16); [done|]. by destruct (k <=? 127). Qed.
Lemma multisig_parses m keys :
  1 ≤ m ≤ len keys → len keys ≤ 1024 → Forall (λ k, key_ok (Point.encoded k)) keys →
  ∃ script, RedeemScript.multi_sig_redeem_script_from_points m keys = Ok script ∧
    RedeemScript.parse_multi_sig_contract script =
    Some (m, Point.encoded <$> RedeemScript.sort_keys keys).
Proof.
  intros Hm Hn Hk. eexists. split.
  { apply multisig_bytes; try done. eapply Forall_impl; [exact Hk|]. by intros ? []. }
  set (sorted := Point.encoded <$> RedeemScript.sort_keys keys).
  assert (Forall key_ok sorted) as Hs. { unfold sorted. by rewrite sort_keys_perm, Forall_fmap. }
  assert (len sorted = len keys) as Hlen.
  { unfold sorted, len. by rewrite length_fmap, (Permutation_length (sort_keys_perm keys)). }
  set (tail := [x41] ++ RedeemScript.check_multisig_hash).
  assert (len RedeemScript.check_multisig_hash = 4) as Hhash by (unfold RedeemScript.check_multisig_hash,
    RedeemScript.syscall_hash; by rewrite len_le).
  pose proof (len_key_pushes sorted Hs) as Hpush. rewrite Hlen in Hpush.
  pose proof (count_bytes_pos m). pose proof (count_bytes_pos (len keys)).
  destruct (count_bytes_head (len keys) tail) as (b & l & Eb & Hb); [lia|].
  remember (count_bytes m ++ concat (key_push <$> sorted) ++ count_bytes (len keys) ++ tail) as script eqn:Es.
  assert (len script = len (count_bytes m) + (35 * len keys + (len (count_bytes (len keys)) + 5))) as Hscript.
  { rewrite Es. unfold tail. rewrite !len_app, Hpush, Hhash. done. }
  assert (RedeemScript.read_multisig_count script 0 = Some (m, len (count_bytes m))) as Hm'.
  { rewrite Es. apply (read_count []). lia. }
  assert (RedeemScript.read_keys (S (length script)) script (len (count_bytes m)) =
    Some (sorted, len (count_bytes m) + 35 * len keys)) as Hk'.
  { rewrite <-Hlen. rewrite Es at 2. rewrite Eb. apply read_keys_exact; [done..|]. unfold len in *. lia. }
  assert (RedeemScript.read_multisig_count script (len (count_bytes m) + 35 * len keys) =
    Some (len keys, len (count_bytes (len keys)))) as Hn'.
  { rewrite Es, app_assoc, <-Hpush, <-len_app. apply read_count. lia. }
  set (off := len (count_bytes m) + 35 * len keys + len (count_bytes (len keys))).
  set (pre := (count_bytes m ++ concat (key_push <$> sorted)) ++ count_bytes (len keys)).
  assert (off = len pre) as Eoff by (unfold off, pre; rewrite !len_app, Hpush; done).
  assert (script = pre ++ tail) as Es' by (rewrite Es; unfold pre; by rewrite <-!app_assoc).
  assert (at_or_zero script off = x41) as Hsys by (rewrite Es', Eoff; apply at_or_zero_app).
  assert (slice script (off + 1) 4 = RedeemScript.check_multisig_hash) as Hh'.
  { rewrite Es', Eoff. unfold tail. rewrite app_assoc, <-(app_nil_r RedeemScript.check_multisig_hash) at 1.
    apply slice_mid; [by rewrite len_app|done]. }
  unfold RedeemScript.parse_multi_sig_contract. rewrite Hm'. cbn [mbind option_bind]. rewrite Hk'.
  cbn [mbind option_bind]. rewrite Hn', Hlen. cbn [mbind option_bind]. fold off. rewrite Hsys, Hh'.
  destruct (N.ltb_spec (len script) 42); [lia|]. destruct (N.leb_spec 1 m); [|lia].
  destruct (N.leb_spec m 1024); [|lia]. destruct (N.ltb_spec (len keys) m); [lia|].
  destruct (N.ltb_spec 1024 (len keys)); [lia|]. rewrite N.eqb_refl, !bool_decide_true by done.
  cbn [andb orb negb]. by destruct (N.eqb_spec (len script) (off + 5)); [|lia].
Qed.

(** A multi-signature verification script parses back to what it was built
    from: for 1 <= m <= n <= 1024 and keys in compressed form, the parser
    returns the threshold and the sorted keys. *)
Theorem multisig_script_roundtrip m keys :
  1 ≤ m ≤ len keys → len keys ≤ 1024 → Forall (λ k, key_ok (Point.encoded k)) keys →
  ∃ script, RedeemScript.multi_sig_redeem_script_from_points m keys = Ok script ∧
    RedeemScript.parse_multi_sig_contract script =
    Some (m, Point.encoded <$> RedeemScript.sort_keys keys).
Proof. exact (multisig_parses m keys). Qed.
End multisig.

#[local] Existing Instances sha256_crypto sample_curves.

Lemma multisig_script_roundtrip_witness :
  ∃ script, RedeemScript.multi_sig_redeem_script_from_points 3 (sample_key <$> [4; 2; 9; 7]) = Ok script ∧
    RedeemScript.parse_multi_sig_contract script =
    Some (3, Point.encoded <$> RedeemScript.sort_keys (sample_key <$> [4; 2; 9; 7])).
Proof.
  apply multisig_script_roundtrip; [vm_compute; split; congruence..|vm_compute; congruence|].
  repeat constructor; try (vm_compute; reflexivity); eexists; vm_compute; reflexivity.
Defined.
