(* ===== verification/RecordUpdate.v ===== *)
(** * Field updates

    [r <| f := v |>] is [r] with its field [f] replaced by [v], and
    [r <| f ::= g |>] applies [g] to that field.  A record opts in by giving its
    eta expansion as an [Updatable] instance; [solve_setter] finds the setter of a
    field by abstracting the projection in it. *)
From S2P Require Import Prelude.

(** The identity on [R], written as the constructor applied to the fields. *)
Class Updatable (R : Type) := rebuild : R → R.
(** A setter for the field read by [f]. *)
Class Setter {R T : Type} (f : R → T) := update : (T → T) → R → R.
#[global] Arguments update {R T} f {_} _ _.

Ltac solve_setter :=
  match goal with
  | |- @Setter ?R ?T ?f =>
      let e := constr:(ltac:(typeclasses eauto) : Updatable R) in
      let e := eval hnf in e in
      match eval pattern f in e with
      | ?g _ => exact (λ u r, g (λ r', u (f r')) r)
      end
  end.
Declare Scope update_scope.
Notation "r <| f := v |>" := (update f (λ _, v) r)
  (at level 12, left associativity, f at level 9, v at level 200) : update_scope.
Notation "r <| f ::= g |>" := (update f g r)
  (at level 12, left associativity, f at level 9, g at level 200) : update_scope.
