(* ===== verification/Multisig.v ===== *)
(** * Multi-signature verification

    The two loops of the code that check [m] signatures against [n] public keys:
    the fast path of transaction verification
    (src/neo-mempool/src/admission/verification.rs, [verify_state_independent]) and
    the system call CheckMultisig
    (src/neo-execution/src/interop/application_engine_crypto.rs,
    [crypto_check_multisig]), with the fee meter of the engine it charges
    (src/neo-execution/src/application_engine/fees_events_native.rs).  Both are
    greedy; here they are shown to decide the same specification: the signatures
    belong, in order, to some of the keys. *)
From S2P Require Import Prelude RecordUpdate.
#[local] Open Scope update_scope.

(** ** The fee meter *)

(** The fields of [ApplicationEngine] that charging a fee uses.  [fee_exempt] says
    that the whitelist is enabled and the current context is on it. *)
Record FeeMeter := mkMeter {
  exec_fee_factor : N;
  fee_consumed : Z;
  gas_consumed : Z;
  fee_amount : Z;
  fee_exempt : bool;
}.
#[export] Instance updatable_FeeMeter : Updatable FeeMeter := λ g,
  mkMeter (exec_fee_factor g) (fee_consumed g) (gas_consumed g) (fee_amount g) (fee_exempt g).
#[export] Instance set_fee_consumed : Setter fee_consumed := ltac:(solve_setter).
#[export] Instance set_gas_consumed : Setter gas_consumed := ltac:(solve_setter).

(** How CheckMultisig fails; [E] is the error of a verification. *)
Inductive CheckError (E : Type) :=
| InvalidPublicKeyCount | InvalidSignatureCount | FeeOverflow | NegativeFee | InsufficientGas | VerifyFailed (e : E).
Arguments InvalidPublicKeyCount {E}.
Arguments InvalidSignatureCount {E}.
Arguments FeeOverflow {E}.
Arguments NegativeFee {E}.
Arguments InsufficientGas {E}.
Arguments VerifyFailed {E}.

Definition CHECK_SIG_PRICE : Z := 2 ^ 15.
(** [i64::checked_mul] and [i64::checked_add], by the exact result. *)
Definition checked_i64 (z : Z) : option Z := if ((- 2 ^ 63 <=? z) && (z <? 2 ^ 63))%Z then Some z else None.

Definition add_fee_pico {E} (pico_gas : Z) : M FeeMeter (CheckError E) unit :=
  if (pico_gas <? 0)%Z then fail NegativeFee
  else
    g ← gets id;
    if fee_exempt g then mret tt
    else
      match checked_i64 (fee_consumed g + pico_gas) with
      | None => fail FeeOverflow
      | Some total =>
          _ ← modify (λ g, g <| fee_consumed := total |> <| gas_consumed := total |>);
          if (fee_amount g <? total)%Z then fail InsufficientGas else mret tt
      end.
Definition add_cpu_fee {E} (fee_units : Z) : M FeeMeter (CheckError E) unit :=
  if (fee_units <? 0)%Z then fail NegativeFee
  else if (fee_units =? 0)%Z then mret tt
  else
    g ← gets id;
    match checked_i64 (fee_units * Z.of_N (exec_fee_factor g)) with
    | None => fail FeeOverflow
    | Some pico_gas => add_fee_pico pico_gas
    end.

(** ** The loops *)

Section loops.
Context {K S E : Type} (verify : K → S → Result E bool).
Implicit Types (keys : list K) (sigs : list S).

(** How the fast path ends: the loop is left, or the verdict is known. *)
Inductive FastPath := Passed | InvalidSignature | Invalid.

(** [points[y..]] and [signatures[x..]] are the arguments; both indices are
    below their bounds while the loop runs. *)
Fixpoint fast_path keys sigs {struct keys} : FastPath :=
  match sigs, keys with
  | sig :: sigs', key :: keys' =>
      match verify key sig with
      | Err _ => Invalid
      | Ok ok =>
          let sigs := if ok then sigs' else sigs in
          if (length keys' <? length sigs)%nat then InvalidSignature
          else fast_path keys' sigs
      end
  | _, _ => Passed
  end.

(** The inner loop of CheckMultisig: the keys after the first one that verifies
    [sig], and whether there is one. *)
Fixpoint scan keys (sig : S) : Result E (bool * list K) :=
  match keys with
  | [] => Ok (false, [])
  | key :: keys' =>
      match verify key sig with
      | Ok true => Ok (true, keys')
      | Ok false => scan keys' sig
      | Err e => Err e
      end
  end.

(** [missing] is [m - verified], [keys] what is left from [key_index] on. *)
Fixpoint check_signatures (missing : nat) keys sigs : Result E bool :=
  match sigs with
  | [] => Ok (missing =? 0)%nat
  | sig :: sigs =>
      match scan keys sig with
      | Err e => Err e
      | Ok (found, keys) =>
          let missing := if found then pred missing else missing in
          if (length keys <? missing)%nat then Ok false else check_signatures missing keys sigs
      end
  end.
(** [keys] and [sigs] are the elements popped from the stack. *)
Definition crypto_check_multisig keys sigs : M FeeMeter (CheckError E) bool :=
  let n := length keys in
  if (n =? 0)%nat || (1024 <? n)%nat then fail InvalidPublicKeyCount
  else
    match checked_i64 (CHECK_SIG_PRICE * Z.of_nat n) with
    | None => fail FeeOverflow
    | Some fee_units =>
        _ ← add_cpu_fee fee_units;
        let m := length sigs in
        if (m =? 0)%nat || (n <? m)%nat then fail InvalidSignatureCount
        else
          match check_signatures m keys sigs with
          | Ok b => mret b
          | Err e => fail (VerifyFailed e)
          end
    end.
End loops.

(** ** The specification *)

(** Each signature verifies under its own key, and the keys come in order. *)
Definition signed_by {K S} (ok : K → S → bool) (keys : list K) (sigs : list S) : Prop :=
  ∃ own, own `sublist_of` keys ∧ Forall2 (λ k s, ok k s = true) own sigs.

Lemma sublist_reverse {A} (l k : list A) : l `sublist_of` k → reverse l `sublist_of` reverse k.
Proof.
  induction 1 as [|x l k _ IH|x l k _ IH]; rewrite ?reverse_cons; [done | by apply sublist_app | by apply sublist_inserts_r].
Qed.

(** A verification that may fail: the signatures it accepts. *)
Definition accepts {K S E} (verify : K → S → Result E bool) (k : K) (s : S) : bool :=
  match verify k s with Ok b => b | Err _ => false end.

(** The fee of checking against [n] keys, and whether it can be charged. *)
Definition multisig_fee (g : FeeMeter) (n : nat) : Z := CHECK_SIG_PRICE * Z.of_nat n * Z.of_N (exec_fee_factor g).
Definition affords (g : FeeMeter) (n : nat) : Prop :=
  (multisig_fee g n < 2 ^ 63)%Z ∧
  (fee_exempt g = true ∨
   - 2 ^ 63 ≤ fee_consumed g + multisig_fee g n < 2 ^ 63 ∧ fee_consumed g + multisig_fee g n ≤ fee_amount g)%Z.
(** The counts CheckMultisig accepts. *)
Definition counts_ok (n m : nat) : Prop := 1 ≤ m ∧ m ≤ n ∧ n ≤ 1024.

Lemma checked_i64_Some z z' : checked_i64 z = Some z' ↔ z' = z ∧ (- 2 ^ 63 ≤ z < 2 ^ 63)%Z.
Proof.
  unfold checked_i64. destruct ((- 2 ^ 63 <=? z) && (z <? 2 ^ 63))%Z eqn:E; split; try done.
  - intros [= <-]. lia.
  - by intros [-> _].
  - lia.
Qed.
Lemma add_fee_pico_ok {E} g pico : (0 ≤ pico)%Z →
  (add_fee_pico (E := E) pico g).2 = Ok tt ↔
  (fee_exempt g = true ∨ - 2 ^ 63 ≤ fee_consumed g + pico < 2 ^ 63 ∧ fee_consumed g + pico ≤ fee_amount g)%Z.
Proof.
  intros Hp. unfold add_fee_pico. destruct (Z.ltb_spec pico 0) as [|_]; [lia|].
  unfold gets, mbind, M_bind, id. cbv beta iota. destruct (fee_exempt g); [naive_solver|].
  destruct (checked_i64 (fee_consumed g + pico)) as [total|] eqn:Et.
  - apply checked_i64_Some in Et as [-> Hr]. cbn. destruct (Z.ltb_spec (fee_amount g) (fee_consumed g + pico)); cbn.
    + split; [done|]. intros [?|[? ?]]; [done|lia].
    + split; [|done]. intros _. right. lia.
  - split; [done|]. intros [?|[Hr _]]; [done|]. assert (checked_i64 (fee_consumed g + pico) = Some (fee_consumed g + pico)%Z) by
      (by apply checked_i64_Some). congruence.
Qed.
(** The fee is charged exactly when it can be. *)
Lemma add_cpu_fee_ok {E} g n : 1 ≤ n →
  (add_cpu_fee (E := E) (CHECK_SIG_PRICE * Z.of_nat n) g).2 = Ok tt ↔ affords g n.
Proof.
  intros Hn. unfold affords, add_cpu_fee. assert (0 < CHECK_SIG_PRICE * Z.of_nat n)%Z as Hpos by (unfold CHECK_SIG_PRICE; lia).
  destruct (Z.ltb_spec (CHECK_SIG_PRICE * Z.of_nat n) 0) as [|_]; [lia|].
  destruct (Z.eqb_spec (CHECK_SIG_PRICE * Z.of_nat n) 0) as [|_]; [lia|].
  unfold gets, mbind, M_bind, id. cbv beta iota. fold (multisig_fee g n).
  assert (0 ≤ multisig_fee g n)%Z as H0 by (unfold multisig_fee; lia).
  destruct (checked_i64 (multisig_fee g n)) as [pico|] eqn:E'.
  - apply checked_i64_Some in E' as [-> Hr]. rewrite add_fee_pico_ok by done. naive_solver lia.
  - split; [done|]. intros [Hlt _]. assert (checked_i64 (multisig_fee g n) = Some (multisig_fee g n)) by
      (apply checked_i64_Some; split; [done|lia]). congruence.
Qed.

Section spec.
Context {K S E : Type} (ok : K → S → bool).
Implicit Types (keys : list K) (sigs : list S).
#[local] Abbreviation verify := (λ k s, Ok (ok k s) : Result E bool).

Lemma signed_by_length keys sigs : signed_by ok keys sigs → length sigs ≤ length keys.
Proof. intros (own & Hs & HF). rewrite <- (Forall2_length _ _ _ HF). by apply sublist_length. Qed.
Lemma signed_by_nil keys : signed_by ok keys [].
Proof. exists []. split; [apply sublist_nil_l | constructor]. Qed.
Lemma signed_by_cons k keys s sigs :
  signed_by ok (k :: keys) (s :: sigs) ↔ signed_by ok keys (if ok k s then sigs else s :: sigs).
Proof.
  split.
  - intros (own & Hs & HF). apply Forall2_cons_inv_r in HF as (k' & own' & Hk & HF & ->).
    apply sublist_cons_r in Hs as [Hs|(l & [= -> ->] & Hs)].
    + destruct (ok k s); [|exists (k' :: own'); split; [done | by constructor]].
      exists own'. split; [|done]. etrans; [|exact Hs]. by apply sublist_cons.
    + rewrite Hk. by exists l.
  - destruct (ok k s) eqn:Hk; intros (own & Hs & HF).
    + exists (k :: own). split; [by apply sublist_skip | by constructor].
    + exists own. split; [by apply sublist_cons | done].
Qed.
Lemma signed_by_reverse keys sigs : signed_by ok (reverse keys) (reverse sigs) ↔ signed_by ok keys sigs.
Proof.
  assert (∀ keys sigs, signed_by ok keys sigs → signed_by ok (reverse keys) (reverse sigs)) as Hr.
  { intros ks ss (own & Hs & HF). exists (reverse own). split; [by apply sublist_reverse | by apply Forall2_reverse]. }
  split; [|apply Hr]. intros H%Hr. by rewrite !reverse_involutive in H.
Qed.

Lemma fast_path_exact keys sigs :
  length sigs ≤ length keys → fast_path verify keys sigs = Passed ↔ signed_by ok keys sigs.
Proof.
  revert sigs. induction keys as [|k keys IH]; intros [|s sigs] Hl; cbn [fast_path length] in *;
    try (split; [intros _; apply signed_by_nil | done]); [lia|].
  rewrite signed_by_cons. destruct (Nat.ltb_spec (length keys) (length (if ok k s then sigs else s :: sigs))) as [Hlt|Hge].
  - split; [done|]. intros Hm%signed_by_length. lia.
  - by apply IH.
Qed.
Lemma fast_path_verdict keys sigs : fast_path verify keys sigs ≠ Invalid.
Proof. revert sigs. induction keys as [|k keys IH]; intros [|s sigs]; cbn; try done. case_match; [done|apply IH]. Qed.

Lemma scan_exact keys s :
  ∃ found rest, scan verify keys s = Ok (found, rest) ∧
    (found = false → rest = []) ∧
    ∀ sigs, signed_by ok keys (s :: sigs) ↔ found = true ∧ signed_by ok rest sigs.
Proof.
  induction keys as [|k keys (found & rest & Hsc & Hf & IH)]; cbn.
  - exists false, []. split; [done|]. split; [done|]. intros sigs. split; [|by intros [? _]].
    intros Hm%signed_by_length. cbn in Hm. lia.
  - destruct (ok k s) eqn:Hk.
    + exists true, keys. split; [done|]. split; [done|]. intros sigs. rewrite signed_by_cons, Hk. naive_solver.
    + exists found, rest. split; [done|]. split; [done|]. intros sigs. by rewrite signed_by_cons, Hk.
Qed.
Lemma check_signatures_exact keys sigs :
  ∃ b, check_signatures verify (length sigs) keys sigs = Ok b ∧ (b = true ↔ signed_by ok keys sigs).
Proof.
  revert keys. induction sigs as [|s sigs IH]; intros keys; cbn [check_signatures length].
  { exists true. split; [done|]. split; [intros _; apply signed_by_nil | done]. }
  destruct (scan_exact keys s) as (found & rest & -> & Hf & Hs).
  destruct found; cbn [pred].
  - destruct (Nat.ltb_spec (length rest) (length sigs)) as [Hlt|Hge].
    + exists false. split; [done|]. rewrite Hs. split; [done|]. intros [_ Hm%signed_by_length]. lia.
    + destruct (IH rest) as (b & -> & Hb). exists b. split; [done|]. rewrite Hb, Hs. naive_solver.
  - rewrite Hf by done. exists false. split; [done|]. rewrite Hs. split; [done | by intros []].
Qed.

(** CheckMultisig returns a verdict exactly on acceptable counts that can be paid. *)
Lemma check_multisig_exact g keys sigs b :
  (crypto_check_multisig verify keys sigs g).2 = Ok b ↔
  counts_ok (length keys) (length sigs) ∧ affords g (length keys) ∧ (b = true ↔ signed_by ok keys sigs).
Proof.
  unfold crypto_check_multisig, counts_ok.
  destruct (Nat.eqb_spec (length keys) 0); [split; [done|lia]|].
  destruct (Nat.ltb_spec 1024 (length keys)); [split; [done|lia]|]. cbn [orb].
  assert (checked_i64 (CHECK_SIG_PRICE * Z.of_nat (length keys)) = Some (CHECK_SIG_PRICE * Z.of_nat (length keys))%Z) as ->.
  { apply checked_i64_Some. unfold CHECK_SIG_PRICE. lia. }
  pose proof (add_cpu_fee_ok (E:=E) g (length keys) ltac:(lia)) as Hfee. unfold mbind at 1, M_bind.
  destruct (add_cpu_fee _ g) as [g' [[]|e]]; cbn [snd] in Hfee.
  2:{ split; [done|]. intros (_ & Ha & _). by apply Hfee in Ha. }
  destruct (Nat.eqb_spec (length sigs) 0); [split; [done|lia]|].
  destruct (Nat.ltb_spec (length keys) (length sigs)); [split; [done|lia]|]. cbn [orb].
  destruct (check_signatures_exact keys sigs) as (b' & -> & Hb). cbn.
  split; [intros [= <-]; split; [lia|]; split; [by apply Hfee|done]|].
  intros (_ & _ & Hb'). f_equal. apply eq_true_iff_eq. by rewrite Hb, Hb'.
Qed.

Lemma signed_by_accepted g keys sigs :
  signed_by ok keys sigs → 1 ≤ length sigs → length keys ≤ 1024 → affords g (length keys) →
  fast_path verify keys sigs = Passed ∧ (crypto_check_multisig verify (reverse keys) (reverse sigs) g).2 = Ok true.
Proof.
  intros Hs H1 H2 Hg. pose proof (signed_by_length _ _ Hs). split; [by apply fast_path_exact|].
  apply check_multisig_exact. rewrite !length_reverse, signed_by_reverse. done.
Qed.

(** (C33) Both multi-signature checks of the code are exact, and agree.  On keys and
    signatures whose verification does not fail: CheckMultisig, which gets both
    lists from the stack in reverse, returns true precisely when there are between
    one and as many signatures as keys, at most 1024 keys, the fee can be charged,
    and the signatures belong in order to some of the keys; it returns false
    precisely when only the last of these fails, and otherwise it fails.  With no
    more signatures than keys, the fast path of transaction verification passes
    precisely when the signatures belong in order to some of the keys, and
    otherwise finds an invalid signature. *)
Theorem multisig_loops_exact g keys sigs :
  let fits := counts_ok (length keys) (length sigs) ∧ affords g (length keys) in
  let verdict := (crypto_check_multisig verify (reverse keys) (reverse sigs) g).2 in
  (verdict = Ok true ↔ fits ∧ signed_by ok keys sigs) ∧
  (verdict = Ok false ↔ fits ∧ ¬ signed_by ok keys sigs) ∧
  (length sigs ≤ length keys →
     (fast_path verify keys sigs = Passed ∧ signed_by ok keys sigs) ∨
     (fast_path verify keys sigs = InvalidSignature ∧ ¬ signed_by ok keys sigs)).
Proof.
  intros fits verdict. unfold verdict, fits. rewrite !check_multisig_exact, !length_reverse, !signed_by_reverse.
  split; [naive_solver|]. split; [naive_solver|].
  intros Hl. pose proof (fast_path_exact keys sigs Hl) as Hf. pose proof (fast_path_verdict keys sigs) as Hv.
  destruct (fast_path verify keys sigs); [left; tauto | right; split; [done|] | done].
  intros Hs. by apply Hf in Hs.
Qed.
End spec.

(** A two-of-three contract at the default fee factor. *)
Lemma multisig_loops_exact_witness :
  let ok (k s : nat) := bool_decide (k = s) in
  let g := mkMeter 300000 0 0 (10 ^ 12) false in
  (crypto_check_multisig (E:=unit) (λ k s, Ok (ok k s)) (reverse [1; 2; 3]) (reverse [1; 3]) g).2 = Ok true ∧
  fast_path (E:=unit) (λ k s, Ok (ok k s)) [1; 2; 3] [1; 3] = Passed.
Proof.
  destruct (multisig_loops_exact (E:=unit) (λ k s : nat, bool_decide (k = s))
    (mkMeter 300000 0 0 (10 ^ 12) false) [1; 2; 3] [1; 3]) as (Ht & _ & Hf).
  destruct (Hf ltac:(cbn; lia)) as [[Hp Hs]|[Hi _]]; [|vm_compute in Hi; discriminate Hi].
  split; [|exact Hp]. apply Ht. split; [split; [unfold counts_ok; cbn; lia|]|exact Hs].
  split; [vm_compute; reflexivity|right; vm_compute; intuition discriminate].
Defined.

(** The fast path on keys and signatures that may not parse: passing means signed. *)
Lemma fast_path_sound {K S E} (verify : K → S → Result E bool) keys sigs :
  length sigs ≤ length keys → fast_path verify keys sigs = Passed → signed_by (accepts verify) keys sigs.
Proof.
  revert sigs. induction keys as [|k keys IH]; intros [|s sigs] Hl Hp; cbn [fast_path length] in *;
    try apply signed_by_nil; [lia|].
  rewrite signed_by_cons. unfold accepts at 2. destruct (verify k s) as [b|]; [|done].
  destruct (Nat.ltb_spec (length keys) (length (if b then sigs else s :: sigs))); [done|]. by apply IH.
Qed.
