(* ===== verification/Signing.v ===== *)
(** * Witnesses, witness scopes and signers

    src/neo-primitives/src/protocol/witness/ (scopes, condition and action bytes)
    and src/neo-payloads/src/signing/ and witness_rule/: the conditions under which
    a signature counts, the rules and signers built from them, and the witness
    scripts, with their wire formats. *)
From S2P Require Import Prelude Primitives Order Hashing Io EcPoint.
#[local] Open Scope N_scope.

(** [!x] on a [u8]. *)
Definition u8_not (x : N) : N := N.lxor x 255.

Module WitnessScope.
(** The flags of a scope, a [u8]. *)
Definition t : Type := N.
Definition NONE : t := 0x00.
Definition CALLED_BY_ENTRY : t := 0x01.
Definition CUSTOM_CONTRACTS : t := 0x10.
Definition CUSTOM_GROUPS : t := 0x20.
Definition WITNESS_RULES : t := 0x40.
Definition GLOBAL : t := 0x80.
Definition combine (a b : t) : t := N.lor a b.
Definition VALID_FLAGS : N :=
  combine NONE (combine CALLED_BY_ENTRY (combine CUSTOM_CONTRACTS (combine CUSTOM_GROUPS (combine WITNESS_RULES GLOBAL)))).

Definition has_flag (s flag : t) : bool :=
  if flag =? 0 then s =? 0 else N.land s flag =? flag.
Definition contains (s flag : t) : bool := has_flag s flag.
Definition intersects (a b : t) : bool := negb (N.land a b =? 0).

Definition from_byte (b : byte) : option t :=
  let value := Byte.to_N b in
  if negb (N.land value (u8_not VALID_FLAGS) =? 0) then None
  else if negb (N.land value GLOBAL =? 0) && negb (value =? GLOBAL) then None
  else Some value.
Definition to_byte (s : t) : byte := as_u8 s.

Definition is_valid (s : t) : bool :=
  if has_flag s GLOBAL && negb (s =? GLOBAL) then false else N.land s (u8_not VALID_FLAGS) =? 0.
End WitnessScope.

Module WitnessConditionType.
Inductive t :=
| Boolean | Not | And | Or | ScriptHash | Group | CalledByEntry | CalledByContract | CalledByGroup.
Definition to_byte (c : t) : byte :=
  match c with
  | Boolean => x00 | Not => x01 | And => x02 | Or => x03 | ScriptHash => x18 | Group => x19
  | CalledByEntry => x20 | CalledByContract => x28 | CalledByGroup => x29
  end.
Definition from_byte (b : byte) : option t :=
  match b with
  | x00 => Some Boolean | x01 => Some Not | x02 => Some And | x03 => Some Or | x18 => Some ScriptHash
  | x19 => Some Group | x20 => Some CalledByEntry | x28 => Some CalledByContract | x29 => Some CalledByGroup
  | _ => None
  end.
End WitnessConditionType.

Module WitnessRuleAction.
Inductive t := Deny | Allow.
#[global] Instance eq_dec : EqDecision t.
Proof. solve_decision. Defined.
Definition to_byte (a : t) : byte := match a with Deny => x00 | Allow => x01 end.
Definition from_byte (b : byte) : option t :=
  match b with x00 => Some Deny | x01 => Some Allow | _ => None end.
End WitnessRuleAction.

(** ** Helpers of the wire format *)

(** [ok_or_invalid_data], [ok_or_else]. *)
Definition ok_or_invalid {S A} (o : option A) : M S IoError A :=
  match o with Some a => mret a | None => fail InvalidData end.
(** [validate_max_length]. *)
Definition validate_max_length {S A} (l : list A) (max : N) : M S IoError unit :=
  if max <? len l then fail InvalidData else mret tt.

Definition serialize_array_with {A} (values : list A) (write_item : A → Writer.Wr) : Writer.Wr :=
  _ ← Writer.write_var_int (len values);
  for_each write_item values.
Definition deserialize_array_with {A} (max : N) (read_item : Reader.Rd A) : Reader.Rd (list A) :=
  count ← Reader.read_var_int max;
  if max <? count then fail InvalidData
  else collect read_item (N.to_nat count).
Definition get_var_size_for_slice {A} (values : list A) (item_size : A → N) : N :=
  SerializeHelper.get_var_size (len values) + foldr N.add 0 (item_size <$> values).

Definition ECPOINT_COMPRESSED_SIZE : N := 33.
Definition ECPOINT_UNCOMPRESSED_SIZE : N := 65.
Definition read_group_bytes : Reader.Rd bytes :=
  prefix ← Reader.peek;
  match prefix with
  | x02 | x03 => Reader.read_bytes ECPOINT_COMPRESSED_SIZE
  | x04 => Reader.read_bytes ECPOINT_UNCOMPRESSED_SIZE
  | _ => fail InvalidData
  end.

(** ** Witness conditions *)

Inductive WitnessCondition :=
| Boolean (value : bool)
| Not (condition : WitnessCondition)
| And (conditions : list WitnessCondition)
| Or (conditions : list WitnessCondition)
| ScriptHash (hash : UInt160.t)
| Group (group : bytes)
| CalledByEntry
| CalledByContract (hash : UInt160.t)
| CalledByGroup (group : bytes).

Module Condition.
Definition MAX_SUBITEMS : N := 16.
Definition MAX_NESTING_DEPTH : nat := 3.

Definition condition_type (c : WitnessCondition) : WitnessConditionType.t :=
  match c with
  | Boolean _ => WitnessConditionType.Boolean
  | Not _ => WitnessConditionType.Not
  | And _ => WitnessConditionType.And
  | Or _ => WitnessConditionType.Or
  | ScriptHash _ => WitnessConditionType.ScriptHash
  | Group _ => WitnessConditionType.Group
  | CalledByEntry => WitnessConditionType.CalledByEntry
  | CalledByContract _ => WitnessConditionType.CalledByContract
  | CalledByGroup _ => WitnessConditionType.CalledByGroup
  end.

Fixpoint is_valid (max_depth : nat) (c : WitnessCondition) : bool :=
  match max_depth with
  | O => false
  | S max_depth =>
      match c with
      | Not condition => is_valid max_depth condition
      | And conditions | Or conditions =>
          if bool_decide (conditions = []) || (MAX_SUBITEMS <? len conditions) then false
          else forallb (is_valid max_depth) conditions
      | _ => true
      end
  end.

Fixpoint size (c : WitnessCondition) : N :=
  1 + match c with
      | Boolean _ => 1
      | Not condition => size condition
      | And conditions | Or conditions =>
          SerializeHelper.get_var_size (len conditions) + foldr N.add 0 (map size conditions)
      | ScriptHash _ | CalledByContract _ => N.of_nat ADDRESS_SIZE
      | Group group | CalledByGroup group => len group
      | CalledByEntry => 0
      end.

Fixpoint serialize (c : WitnessCondition) : Writer.Wr :=
  _ ← Writer.write_u8 (WitnessConditionType.to_byte (condition_type c));
  match c with
  | Boolean value => Writer.write_bool value
  | Not condition => serialize condition
  | And conditions | Or conditions =>
      if bool_decide (conditions = []) then fail InvalidData
      else if MAX_SUBITEMS <? len conditions then fail InvalidData
      else _ ← Writer.write_var_int (len conditions); for_each serialize conditions
  | ScriptHash hash | CalledByContract hash => Io.serialize hash
  | Group group | CalledByGroup group =>
      if negb (len group =? ECPOINT_COMPRESSED_SIZE) then fail InvalidData else Writer.write_bytes group
  | CalledByEntry => mret tt
  end.

Section curves.
Context `{Curves}.

Definition deserialize_group_bytes : Reader.Rd bytes :=
  bs ← read_group_bytes;
  match Point.from_bytes_with_curve Secp256r1 bs with
  | Ok p => mret (Point.encoded p)
  | Err _ => fail InvalidData
  end.

Definition deserialize_condition_list (item : Reader.Rd WitnessCondition) : Reader.Rd (list WitnessCondition) :=
  conditions ← deserialize_array_with MAX_SUBITEMS item;
  if bool_decide (conditions = []) then fail InvalidData else mret conditions.

Fixpoint deserialize_with_depth (max_depth : nat) : Reader.Rd WitnessCondition :=
  match max_depth with
  | O => fail InvalidData
  | S max_depth =>
      type_byte ← Reader.read_byte;
      condition_type ← ok_or_invalid (WitnessConditionType.from_byte type_byte);
      match condition_type with
      | WitnessConditionType.Boolean => value ← Reader.read_boolean; mret (Boolean value)
      | WitnessConditionType.Not => inner ← deserialize_with_depth max_depth; mret (Not inner)
      | WitnessConditionType.And =>
          conditions ← deserialize_condition_list (deserialize_with_depth max_depth); mret (And conditions)
      | WitnessConditionType.Or =>
          conditions ← deserialize_condition_list (deserialize_with_depth max_depth); mret (Or conditions)
      | WitnessConditionType.ScriptHash => hash ← Io.deserialize; mret (ScriptHash hash)
      | WitnessConditionType.Group => group ← deserialize_group_bytes; mret (Group group)
      | WitnessConditionType.CalledByEntry => mret CalledByEntry
      | WitnessConditionType.CalledByContract => hash ← Io.deserialize; mret (CalledByContract hash)
      | WitnessConditionType.CalledByGroup => group ← deserialize_group_bytes; mret (CalledByGroup group)
      end
  end.

#[global] Instance serializable : Serializable WitnessCondition := {
  deserialize := deserialize_with_depth MAX_NESTING_DEPTH;
  serialize := serialize;
  ser_size := size;
}.
End curves.
End Condition.

(** ** Rules *)

Record WitnessRule := mkRule { action : WitnessRuleAction.t; condition : WitnessCondition }.

Module Rule.
Definition is_valid (r : WitnessRule) : bool := Condition.is_valid Condition.MAX_NESTING_DEPTH (condition r).
Definition size (r : WitnessRule) : N := 1 + Condition.size (condition r).
Definition serialize (r : WitnessRule) : Writer.Wr :=
  _ ← Writer.write_u8 (WitnessRuleAction.to_byte (action r));
  Condition.serialize (condition r).
Section curves.
Context `{Curves}.
Definition deserialize : Reader.Rd WitnessRule :=
  b ← Reader.read_byte;
  action ← ok_or_invalid (WitnessRuleAction.from_byte b);
  condition ← Condition.deserialize_with_depth Condition.MAX_NESTING_DEPTH;
  mret (mkRule action condition).
#[global] Instance serializable : Serializable WitnessRule := {
  deserialize := deserialize;
  serialize := serialize;
  ser_size := size;
}.
End curves.
End Rule.

(** ** Signers *)

Record Signer := mkSigner {
  account : UInt160.t;
  scopes : WitnessScope.t;
  allowed_contracts : list UInt160.t;
  allowed_groups : list ECPoint;
  rules : list WitnessRule;
}.

Module SignerOps.
Definition MAX_SUBITEMS : N := 16.
Definition new (account : UInt160.t) (scopes : WitnessScope.t) : Signer := mkSigner account scopes [] [] [].

Definition get_all_rules (s : Signer) : list WitnessRule :=
  if scopes s =? WitnessScope.GLOBAL then [mkRule WitnessRuleAction.Allow (Boolean true)]
  else
    (if WitnessScope.contains (scopes s) WitnessScope.CALLED_BY_ENTRY
     then [mkRule WitnessRuleAction.Allow CalledByEntry] else []) ++
    (if WitnessScope.contains (scopes s) WitnessScope.CUSTOM_CONTRACTS
     then (λ hash, mkRule WitnessRuleAction.Allow (ScriptHash hash)) <$> allowed_contracts s else []) ++
    (if WitnessScope.contains (scopes s) WitnessScope.CUSTOM_GROUPS
     then (λ group, mkRule WitnessRuleAction.Allow (Group (Point.encoded group))) <$> allowed_groups s else []) ++
    (if WitnessScope.contains (scopes s) WitnessScope.WITNESS_RULES then rules s else []).

Section curves.
Context `{Curves}.

Definition size (s : Signer) : N :=
  N.of_nat UINT160_SIZE + 1 +
  (if WitnessScope.contains (scopes s) WitnessScope.CUSTOM_CONTRACTS
   then SerializeHelper.get_var_size_serializable_slice (allowed_contracts s) else 0) +
  (if WitnessScope.contains (scopes s) WitnessScope.CUSTOM_GROUPS
   then get_var_size_for_slice (allowed_groups s) (λ group, len (Point.encoded group)) else 0) +
  (if WitnessScope.contains (scopes s) WitnessScope.WITNESS_RULES
   then SerializeHelper.get_var_size_serializable_slice (rules s) else 0).

(** The stored bytes of a point are its compressed encoding, so
    [encode_point(true)] returns them. *)
Definition write_group (group : ECPoint) : Writer.Wr :=
  if negb (len (Point.encoded group) =? 33) then fail InvalidData
  else Writer.write_bytes (Point.encoded group).
Definition serialize (s : Signer) : Writer.Wr :=
  _ ← Io.serialize (account s);
  _ ← Writer.write_u8 (WitnessScope.to_byte (scopes s));
  _ ← (if WitnessScope.contains (scopes s) WitnessScope.CUSTOM_CONTRACTS then
         _ ← validate_max_length (allowed_contracts s) MAX_SUBITEMS;
         SerializeHelper.serialize_array (allowed_contracts s)
       else mret tt);
  _ ← (if WitnessScope.contains (scopes s) WitnessScope.CUSTOM_GROUPS then
         _ ← validate_max_length (allowed_groups s) MAX_SUBITEMS;
         serialize_array_with (allowed_groups s) write_group
       else mret tt);
  if WitnessScope.contains (scopes s) WitnessScope.WITNESS_RULES then
    _ ← validate_max_length (rules s) MAX_SUBITEMS;
    SerializeHelper.serialize_array (rules s)
  else mret tt.

Definition read_group : Reader.Rd ECPoint :=
  encoded ← read_group_bytes;
  match Point.from_bytes_with_curve Secp256r1 encoded with
  | Ok p => mret p
  | Err _ => fail InvalidData
  end.
Definition invalid_flags : WitnessScope.t :=
  u8_not (N.lor (N.lor (N.lor (N.lor WitnessScope.CALLED_BY_ENTRY WitnessScope.CUSTOM_CONTRACTS)
    WitnessScope.CUSTOM_GROUPS) WitnessScope.WITNESS_RULES) WitnessScope.GLOBAL).
Definition deserialize : Reader.Rd Signer :=
  account ← Io.deserialize;
  scopes_byte ← Reader.read_byte;
  scopes ← ok_or_invalid (WitnessScope.from_byte scopes_byte);
  if WitnessScope.intersects scopes invalid_flags then fail InvalidData
  else if WitnessScope.contains scopes WitnessScope.GLOBAL && negb (scopes =? WitnessScope.GLOBAL)
  then fail InvalidData
  else
    allowed_contracts ← (if WitnessScope.contains scopes WitnessScope.CUSTOM_CONTRACTS
                         then SerializeHelper.deserialize_array MAX_SUBITEMS else mret []);
    allowed_groups ← (if WitnessScope.contains scopes WitnessScope.CUSTOM_GROUPS
                      then deserialize_array_with MAX_SUBITEMS read_group else mret []);
    rules ← (if WitnessScope.contains scopes WitnessScope.WITNESS_RULES
             then SerializeHelper.deserialize_array MAX_SUBITEMS else mret []);
    mret (mkSigner account scopes allowed_contracts allowed_groups rules).
#[global] Instance serializable : Serializable Signer := {
  deserialize := deserialize;
  serialize := serialize;
  ser_size := size;
}.
End curves.
End SignerOps.

(** ** Witnesses *)

(** The memoised script hash is a function of the verification script. *)
Record Witness := mkWitness { invocation_script : bytes; verification_script : bytes }.

Module WitnessOps.
Definition MAX_INVOCATION_SCRIPT : N := 1024.
Definition MAX_VERIFICATION_SCRIPT : N := 1024.
Definition empty : Witness := mkWitness [] [].
(** [Crypto::hash160] of the verification script. *)
Definition script_hash `{Crypto, Ripemd} (w : Witness) : UInt160.t := from_script (verification_script w).
Definition size (w : Witness) : N :=
  SerializeHelper.get_var_size_bytes (invocation_script w) +
  SerializeHelper.get_var_size_bytes (verification_script w).
Definition serialize (w : Witness) : Writer.Wr :=
  _ ← Writer.write_var_bytes (invocation_script w);
  Writer.write_var_bytes (verification_script w).
Definition deserialize : Reader.Rd Witness :=
  invocation ← Reader.read_var_bytes MAX_INVOCATION_SCRIPT;
  verification ← Reader.read_var_bytes MAX_VERIFICATION_SCRIPT;
  mret (mkWitness invocation verification).
#[global] Instance serializable : Serializable Witness := {
  deserialize := deserialize;
  serialize := serialize;
  ser_size := size;
}.
End WitnessOps.
