(* ===== verification/SigningFacts.v ===== *)
(** * The wire formats of witnesses and signers are correct

    Round trips of conditions, rules, signers and witnesses, exact sizes, and what a
    decoder guarantees of the values it returns. *)
From S2P Require Import Prelude Primitives Order Hashing Io EcPoint Signing.
#[local] Open Scope N_scope.

(** ** Postconditions of decoders *)

(** Whatever [m] returns satisfies [Q]. *)
Definition returns {S E A} (m : M S E A) (Q : A → Prop) : Prop :=
  ∀ s s' a, m s = (s', Ok a) → Q a.

Section returns.
Context {S E : Type}.
Lemma returns_ret {A} (a : A) (Q : A → Prop) : Q a → returns (S:=S) (E:=E) (mret a) Q.
Proof. by intros HQ s s' b [= <- <-]. Qed.
Lemma returns_fail {A} e (Q : A → Prop) : returns (S:=S) (E:=E) (fail e) Q.
Proof. by intros s s' b. Qed.
Lemma returns_bind {A B} (m : M S E A) (f : A → M S E B) P Q :
  returns m P → (∀ a, P a → returns (f a) Q) → returns (m ≫= f) Q.
Proof. intros Hm Hf s s' b (s1 & a & H1 & H2)%mbind_inv_ok. eapply Hf; [by eapply Hm | done]. Qed.
Lemma returns_any {A} (m : M S E A) : returns m (λ _, True).
Proof. done. Qed.
Lemma returns_mono {A} (m : M S E A) (P Q : A → Prop) : returns m P → (∀ a, P a → Q a) → returns m Q.
Proof. intros Hm HPQ s s' a E1. by eapply HPQ, Hm. Qed.
Lemma returns_collect {A} (m : M S E A) P n :
  returns m P → returns (collect m n) (λ l, Forall P l ∧ length l = n).
Proof.
  intros Hm. induction n as [|n IH]; [by apply returns_ret|]. cbn [collect].
  eapply returns_bind; [exact Hm|]. intros a Ha. eapply returns_bind; [exact IH|].
  intros l [Hl <-]. apply returns_ret. split; [by constructor | done].
Qed.
Lemma returns_some {A} (o : option A) (Q : A → Prop) :
  (∀ a, o = Some a → Q a) → returns (E:=IoError) (ok_or_invalid (S:=S) o) Q.
Proof. intros HQ s s' a. destruct o as [b|]; [|done]. intros [= _ <-]. by apply HQ. Qed.
End returns.

(** One branch of a decoder. *)
Ltac returns_step :=
  match goal with
  | |- returns (mret _) _ => apply returns_ret
  | |- returns (fail _) _ => apply returns_fail
  | |- returns (if ?b then _ else _) _ => let E := fresh "E" in destruct b eqn:E
  end.

Lemma returns_var_int max : returns (Reader.read_var_int max) (λ n, n ≤ max).
Proof.
  intros r r' n. unfold Reader.read_var_int. case_match; [|done]. case_match.
  case_match eqn:E; [done|]. intros [= <- <-]. by apply N.ltb_ge.
Qed.
Lemma returns_slice n : returns (Reader.read_slice n) (λ bs, len bs ≤ n).
Proof.
  intros r r' bs (s1 & [] & _ & H2)%mbind_inv_ok. unfold Reader.advance in H2. injection H2 as _ <-.
  unfold slice, len. rewrite length_take. lia.
Qed.
Lemma returns_var_bytes max : returns (Reader.read_var_bytes max) (λ bs, len bs ≤ max).
Proof.
  eapply returns_bind; [apply returns_var_int|]. intros n Hn.
  eapply returns_mono; [apply returns_slice|]. cbn beta in *. intros; lia.
Qed.
Lemma returns_array_with {A} (item : Reader.Rd A) P max :
  returns item P → returns (deserialize_array_with max item) (λ l, Forall P l ∧ len l ≤ max).
Proof.
  intros Hi. eapply returns_bind; [apply returns_var_int|]. intros n Hn. cbn beta in *.
  returns_step; [apply returns_fail|]. eapply returns_mono; [by apply returns_collect|].
  intros l [Hl Hlen]. split; [done|]. unfold len. lia.
Qed.
Lemma returns_array `{Serializable A} (P : A → Prop) max :
  returns deserialize P → returns (SerializeHelper.deserialize_array max) (λ l, Forall P l ∧ len l ≤ max).
Proof. apply returns_array_with. Qed.
Lemma word_bound n (d : bytes) : from_le_bytes (slice d n 8) < 256 ^ 8.
Proof.
  eapply N.lt_le_trans; [apply from_le_bytes_bound|]. apply N.pow_le_mono_r; [lia|].
  unfold slice. rewrite length_take. lia.
Qed.
Lemma wf_from_array160 d : UInt160.wf (UInt160.from_array d).
Proof.
  split; [apply word_bound|]. split; [apply word_bound|].
  eapply N.lt_le_trans; [apply from_le_bytes_bound|]. apply N.pow_le_mono_r; [lia|].
  unfold slice. rewrite length_take. lia.
Qed.
Lemma returns_uint160 : returns (Io.deserialize (T:=UInt160.t)) UInt160.wf.
Proof.
  eapply returns_bind; [apply returns_any|]. intros bs _. cbn beta. unfold UInt160.from_bytes.
  case_bool_decide; [apply returns_fail | apply returns_ret, wf_from_array160].
Qed.
Lemma returns_uint256 : returns (Io.deserialize (T:=UInt256.t)) UInt256.wf.
Proof.
  eapply returns_bind; [apply returns_any|]. intros bs _. cbn beta. unfold UInt256.from_bytes.
  case_bool_decide; [apply returns_fail | apply returns_ret, UInt256Facts.wf_from_array].
Qed.

(** A first step that consumes nothing. *)
Lemma reads_bind_nil {A B} (m : Reader.Rd A) (f : A → Reader.Rd B) bs a b :
  reads m [] a → reads (f a) bs b → reads (m ≫= f) bs b.
Proof. intros H1 H2. exact (reads_bind m f [] bs a b H1 H2). Qed.

(** ** Arrays with their own item codec *)

Lemma writes_for_each {A} (w : A → Writer.Wr) (e : A → bytes) l :
  Forall (λ x, writes (w x) (e x)) l → writes (for_each w l) (concat (e <$> l)).
Proof. induction 1 as [|x l Hx _ IH]; [apply writes_ret | by apply writes_bind]. Qed.
Lemma reads_collect {A} (m : Reader.Rd A) (e : A → bytes) l :
  Forall (λ x, reads m (e x) x) l → reads (collect m (length l)) (concat (e <$> l)) l.
Proof.
  induction 1 as [|x l Hx _ IH]; [apply reads_ret|].
  eapply reads_bind; [exact Hx|]. eapply reads_bind_pure; [exact IH | apply reads_ret].
Qed.
Lemma writes_array_with {A} (w : A → Writer.Wr) (e : A → bytes) l :
  Forall (λ x, writes (w x) (e x)) l →
  writes (serialize_array_with l w) (var_int_bytes (len l) ++ concat (e <$> l)).
Proof. intros Hl. apply writes_bind; [apply writes_var_int | by apply writes_for_each]. Qed.
Lemma reads_array_with {A} (m : Reader.Rd A) (e : A → bytes) l max :
  Forall (λ x, reads m (e x) x) l → len l ≤ max → max ≤ u64_max →
  reads (deserialize_array_with max m) (var_int_bytes (len l) ++ concat (e <$> l)) l.
Proof.
  intros Hl Hmax Hu. eapply reads_bind; [apply reads_var_int; lia|].
  destruct (N.ltb_spec max (len l)); [lia|]. unfold len. rewrite Nat2N.id. by apply reads_collect.
Qed.
Lemma reads_exact_array `{SerializableLaws A} (l : list A) :
  Forall ser_wf l → len l ≤ u64_max → reads (SerializeHelper.deserialize_exact_array (len l)) (enc_array l) l.
Proof.
  intros Hl Hu. eapply reads_bind; [by apply reads_var_int|]. rewrite bool_decide_false by (by intros ?).
  unfold len. rewrite Nat2N.id. by apply reads_items.
Qed.
Lemma size_array `{SerializableLaws A} (l : list A) :
  Forall ser_wf l → SerializeHelper.get_var_size_serializable_slice l = len (enc_array l).
Proof.
  intros Hl. unfold SerializeHelper.get_var_size_serializable_slice, SerializeHelper.get_var_size, enc_array.
  by rewrite len_app, len_var_int_bytes, sizes_items.
Qed.
Lemma sum_sizes {A} (sz : A → N) (e : A → bytes) l :
  Forall (λ x, sz x = len (e x)) l → foldr N.add 0 (sz <$> l) = len (concat (e <$> l)).
Proof. induction 1 as [|x l Hx _ IH]; [done|]. cbn. rewrite len_app. by rewrite Hx, <- IH. Qed.

(** ** Points *)

Section curves.
Context `{Curves}.

(** The canonical bytes of a point: decoding them gives them back. *)
Definition canonical_group (g : bytes) : Prop :=
  Point.from_bytes_with_curve Secp256r1 g = Ok (mkPoint Secp256r1 g).

Lemma from_bytes_point d p :
  Point.from_bytes_with_curve Secp256r1 d = Ok p →
  curve p = Secp256r1 ∧ len (data p) = 33 ∧ (head (data p) = Some x02 ∨ head (data p) = Some x03) ∧
  ∃ a, p256_affine d = Some a ∧ data p = p256_compress a.
Proof.
  cbn. intros (a & Ha & Hn)%Result_bind_ok. unfold Point.parse_p256_point in Ha.
  case_match; [done|]. case_match eqn:E; [|done]. injection Ha as ->.
  unfold Point.new_unchecked in Hn. cbn [Point.compressed_size] in Hn.
  destruct (N.eqb_spec (len (p256_compress a)) 33) as [Hl|]; cbn [negb] in Hn; [|done].
  destruct (_ && _) eqn:Eh in Hn; [done|]. injection Hn as <-. cbn [curve data].
  split; [done|]. split; [done|]. split; [|by exists a].
  rewrite !andb_false_iff, !negb_false_iff, !bool_decide_eq_true in Eh. naive_solver.
Qed.
Lemma canonical_head g :
  canonical_group g → ∃ b t, g = b :: t ∧ (b = x02 ∨ b = x03) ∧ len g = ECPOINT_COMPRESSED_SIZE.
Proof.
  intros Hg. apply from_bytes_point in Hg as (_ & Hl & Hh & _). cbn [data] in *.
  destruct g as [|b t]; [by destruct Hh|]. exists b, t. split; [done|]. split; [|exact Hl]. cbn in Hh. naive_solver.
Qed.

Lemma peek_at pre b t : Reader.peek (mkReader (pre ++ b :: t) (len pre)) = (mkReader (pre ++ b :: t) (len pre), Ok b).
Proof.
  unfold Reader.peek. erewrite mbind_ok; [|apply ensure_available_ok; cbn; rewrite len_app, len_cons; lia].
  unfold gets, len. cbn [buffer position]. by rewrite Nat2N.id, lookup_app_r, Nat.sub_diag by lia.
Qed.
Lemma reads_group_bytes g : canonical_group g → reads read_group_bytes g g.
Proof.
  intros Hg pre post. destruct (canonical_head g Hg) as (b & t & -> & Hb & Hl).
  unfold read_group_bytes. rewrite (mbind_ok _ _ _ _ _ (peek_at pre b (t ++ post))).
  destruct Hb as [-> | ->]; by apply (reads_slice _ _ Hl).
Qed.
Lemma reads_group g : canonical_group g → reads Condition.deserialize_group_bytes g g.
Proof.
  intros Hg. eapply reads_bind_pure; [by apply reads_group_bytes|]. rewrite Hg. apply reads_ret.
Qed.
Lemma reads_point g :
  canonical_group g → reads SignerOps.read_group g (mkPoint Secp256r1 g).
Proof.
  intros Hg. eapply reads_bind_pure; [by apply reads_group_bytes|]. rewrite Hg. apply reads_ret.
Qed.

(** ** Conditions *)

(** The bytes of a condition. *)
Fixpoint condition_bytes (c : WitnessCondition) : bytes :=
  WitnessConditionType.to_byte (Condition.condition_type c) ::
  match c with
  | Boolean value => [if value then x01 else x00]
  | Not condition => condition_bytes condition
  | And conditions | Or conditions => var_int_bytes (len conditions) ++ concat (map condition_bytes conditions)
  | ScriptHash hash | CalledByContract hash => UInt160.to_array hash
  | Group group | CalledByGroup group => group
  | CalledByEntry => []
  end.

(** Conditions of the wire: at most [d] levels, 1 to 16 parts, canonical points. *)
Fixpoint condition_wf (d : nat) (c : WitnessCondition) : Prop :=
  match d with
  | O => False
  | S d =>
      match c with
      | Boolean _ | CalledByEntry => True
      | Not condition => condition_wf d condition
      | And conditions | Or conditions =>
          conditions ≠ [] ∧ len conditions ≤ Condition.MAX_SUBITEMS ∧ Forall (condition_wf d) conditions
      | ScriptHash hash | CalledByContract hash => UInt160.wf hash
      | Group group | CalledByGroup group => canonical_group group
      end
  end.

Lemma condition_wf_valid d c : condition_wf d c → Condition.is_valid d c = true.
Proof.
  revert c. induction d as [|d IH]; [done|]. intros [| |l|l| | | | |]; cbn; try done; [apply IH|..];
    (intros (Hne & Hl & HF); rewrite bool_decide_false by done; destruct (N.ltb_spec Condition.MAX_SUBITEMS (len l)); [lia|];
     apply forallb_forall; intros c Hc; apply IH; rewrite Forall_forall in HF; by apply HF, list_elem_of_In).
Qed.

Lemma writes_group g :
  canonical_group g →
  writes (if negb (len g =? ECPOINT_COMPRESSED_SIZE) then fail InvalidData else Writer.write_bytes g) g.
Proof. intros Hg. destruct (canonical_head g Hg) as (_ & _ & _ & _ & ->). apply writes_append. Qed.
Lemma writes_conditions l e :
  l ≠ [] → len l ≤ Condition.MAX_SUBITEMS → Forall (λ x, writes (Condition.serialize x) (e x)) l →
  writes (if bool_decide (l = []) then fail InvalidData
          else if Condition.MAX_SUBITEMS <? len l then fail InvalidData
          else _ ← Writer.write_var_int (len l); for_each Condition.serialize l)
    (var_int_bytes (len l) ++ concat (e <$> l)).
Proof.
  intros Hne Hl HF. rewrite bool_decide_false by done. destruct (N.ltb_spec Condition.MAX_SUBITEMS (len l)); [lia|].
  by apply (writes_array_with _ _ l).
Qed.
Lemma condition_writes d c : condition_wf d c → writes (Condition.serialize c) (condition_bytes c).
Proof.
  revert c. induction d as [|d IH]; [done|]. intros c Hc.
  destruct c; cbn [Condition.serialize condition_bytes];
    (eapply (writes_bind _ _ [_]); [apply writes_append|]); cbn in Hc;
    try (destruct Hc as (Hne & Hl & HF);
         apply (writes_conditions _ condition_bytes Hne Hl); by eapply Forall_impl);
    auto using writes_append, writes_group, writes_ret.
  all: first [apply writes_append | by apply (serialize_writes (T:=UInt160.t))].
Qed.

Lemma type_from_to c : WitnessConditionType.from_byte (WitnessConditionType.to_byte c) = Some c.
Proof. by destruct c. Qed.
Lemma reads_conditions l m :
  l ≠ [] → len l ≤ Condition.MAX_SUBITEMS → Forall (λ x, reads m (condition_bytes x) x) l →
  reads (Condition.deserialize_condition_list m) (var_int_bytes (len l) ++ concat (map condition_bytes l)) l.
Proof.
  intros Hne Hl HF. eapply reads_bind_pure; [by apply (reads_array_with _ _ l)|].
  rewrite bool_decide_false by done. apply reads_ret.
Qed.
Lemma reads_bool (b : bool) : reads Reader.read_boolean [if b then x01 else x00] b.
Proof. eapply reads_bind_pure; [apply reads_byte|]. destruct b; apply reads_ret. Qed.
Lemma condition_reads d c :
  condition_wf d c → reads (Condition.deserialize_with_depth d) (condition_bytes c) c.
Proof.
  revert c. induction d as [|d IH]; [done|]. intros c Hc. cbn [Condition.deserialize_with_depth].
  destruct c; cbn [condition_bytes];
    (eapply (reads_bind _ _ [_]); [apply reads_byte|]); rewrite type_from_to;
    (eapply reads_bind_nil; [apply reads_ret|]); cbn [Condition.condition_type]; cbn in Hc;
    try apply reads_ret; (eapply reads_bind_pure; [|apply reads_ret]);
    try (destruct Hc as (Hne & Hl & HF); apply reads_conditions; [done..|]; by eapply Forall_impl);
    auto using reads_bool, reads_group.
  all: exact (deserialize_reads _ Hc).
Qed.
Lemma condition_size d c : condition_wf d c → Condition.size c = len (condition_bytes c).
Proof.
  revert c. induction d as [|d IH]; [done|]. intros c Hc.
  destruct c; cbn [Condition.size condition_bytes]; rewrite len_cons; f_equal; cbn in Hc; auto;
    try (unfold len; by rewrite UInt160Facts.length_to_array160);
    destruct Hc as (Hne & Hl & HF); rewrite len_app, len_var_int_bytes; f_equal;
    apply (sum_sizes Condition.size condition_bytes); by eapply Forall_impl.
Qed.

#[global] Program Instance condition_laws : SerializableLaws WitnessCondition := {
  ser_wf := condition_wf Condition.MAX_NESTING_DEPTH;
  enc := condition_bytes;
}.
Next Obligation. intros c. apply condition_writes. Qed.
Next Obligation. intros c. apply condition_reads. Qed.
Next Obligation. intros c. apply condition_size. Qed.

(** ** Rules *)

Definition rule_wf (r : WitnessRule) : Prop := condition_wf Condition.MAX_NESTING_DEPTH (condition r).
Definition rule_bytes (r : WitnessRule) : bytes :=
  WitnessRuleAction.to_byte (action r) :: condition_bytes (condition r).
#[global] Program Instance rule_laws : SerializableLaws WitnessRule := { ser_wf := rule_wf; enc := rule_bytes }.
Next Obligation.
  intros [a c] Hr. eapply (writes_bind _ _ [_]); [apply writes_append | by eapply condition_writes].
Qed.
Next Obligation.
  intros [a c] Hr. eapply (reads_bind _ _ [_]); [apply reads_byte|].
  eapply reads_bind_nil; [destruct a; apply reads_ret|].
  eapply reads_bind_pure; [by apply condition_reads | apply reads_ret].
Qed.
Next Obligation.
  intros [a c] Hr. cbn [ser_size Rule.serializable]. unfold Rule.size, rule_bytes. rewrite len_cons.
  f_equal. by eapply condition_size.
Qed.

(** ** Witnesses *)

Definition witness_wf (w : Witness) : Prop :=
  len (invocation_script w) ≤ WitnessOps.MAX_INVOCATION_SCRIPT ∧
  len (verification_script w) ≤ WitnessOps.MAX_VERIFICATION_SCRIPT.
Definition var_bytes (bs : bytes) : bytes := var_int_bytes (len bs) ++ bs.
Definition witness_bytes (w : Witness) : bytes := var_bytes (invocation_script w) ++ var_bytes (verification_script w).
Lemma len_var_bytes bs : len (var_bytes bs) = SerializeHelper.get_var_size_bytes bs.
Proof. unfold var_bytes. by rewrite len_app, len_var_int_bytes. Qed.
Lemma reads_var_bytes max bs : len bs ≤ max → max ≤ u64_max → reads (Reader.read_var_bytes max) (var_bytes bs) bs.
Proof. intros. apply reads_var_memory; lia. Qed.
#[global] Program Instance witness_laws : SerializableLaws Witness := { ser_wf := witness_wf; enc := witness_bytes }.
Next Obligation. intros w _. by apply writes_bind; apply writes_var_bytes. Qed.
Next Obligation.
  intros [i v] [Hi Hv]. eapply reads_bind; [by apply reads_var_bytes|].
  eapply reads_bind_pure; [by apply reads_var_bytes | apply reads_ret].
Qed.
Next Obligation. intros w _. unfold witness_bytes. by rewrite len_app, !len_var_bytes. Qed.

(** ** Scopes *)

Lemma scope_byte b s :
  WitnessScope.from_byte b = Some s →
  s = Byte.to_N b ∧ WitnessScope.is_valid s = true ∧ WitnessScope.intersects s SignerOps.invalid_flags = false ∧
  WitnessScope.contains s WitnessScope.GLOBAL && negb (s =? WitnessScope.GLOBAL) = false.
Proof. destruct b; intros [= <-]; vm_compute; auto. Qed.
Lemma scope_valid s :
  s < 256 → WitnessScope.is_valid s = true → WitnessScope.from_byte (WitnessScope.to_byte s) = Some s.
Proof.
  intros Hs. assert (s = Byte.to_N (as_u8 s)) as -> by (by rewrite to_N_as_u8, N.mod_small).
  unfold WitnessScope.to_byte. rewrite as_u8_to_N. generalize (as_u8 s). clear Hs s.
  intros b. destruct b; vm_compute; congruence.
Qed.

(** ** Signers *)

Definition point_wf (p : ECPoint) : Prop := curve p = Secp256r1 ∧ canonical_group (Point.encoded p).
(** The parts of a signer: present only with their flag, and then at most 16. *)
Definition part_wf {A} (flag : bool) (P : A → Prop) (l : list A) : Prop :=
  if flag then Forall P l ∧ len l ≤ SignerOps.MAX_SUBITEMS else l = [].
Definition flagged (s : Signer) (flag : WitnessScope.t) : bool := WitnessScope.contains (scopes s) flag.
Record signer_wf (s : Signer) : Prop := {
  signer_account : UInt160.wf (account s);
  signer_scope : scopes s < 256 ∧ WitnessScope.is_valid (scopes s) = true;
  signer_contracts : part_wf (flagged s WitnessScope.CUSTOM_CONTRACTS) UInt160.wf (allowed_contracts s);
  signer_groups : part_wf (flagged s WitnessScope.CUSTOM_GROUPS) point_wf (allowed_groups s);
  signer_rules : part_wf (flagged s WitnessScope.WITNESS_RULES) rule_wf (rules s);
}.
Definition part_bytes {A} (flag : bool) (e : A → bytes) (l : list A) : bytes :=
  if flag then var_int_bytes (len l) ++ concat (e <$> l) else [].
Definition signer_bytes (s : Signer) : bytes :=
  UInt160.to_array (account s) ++ [WitnessScope.to_byte (scopes s)] ++
  part_bytes (flagged s WitnessScope.CUSTOM_CONTRACTS) UInt160.to_array (allowed_contracts s) ++
  part_bytes (flagged s WitnessScope.CUSTOM_GROUPS) Point.encoded (allowed_groups s) ++
  part_bytes (flagged s WitnessScope.WITNESS_RULES) rule_bytes (rules s).

Lemma part_writes {A} (flag : bool) P (l : list A) w (e : A → bytes) :
  part_wf flag P l → (∀ x, P x → writes (w x) (e x)) →
  writes (if flag then _ ← validate_max_length l SignerOps.MAX_SUBITEMS; serialize_array_with l w else mret tt)
    (part_bytes flag e l).
Proof.
  unfold part_wf, part_bytes. destruct flag; [|intros; apply writes_ret]. intros [HF Hl] Hw.
  eapply (writes_bind _ _ []).
  - unfold validate_max_length. destruct (N.ltb_spec SignerOps.MAX_SUBITEMS (len l)); [lia | apply writes_ret].
  - apply writes_array_with. by eapply Forall_impl.
Qed.
Lemma part_reads {A} (flag : bool) P (l : list A) m (e : A → bytes) :
  part_wf flag P l → (∀ x, P x → reads m (e x) x) →
  reads (if flag then deserialize_array_with SignerOps.MAX_SUBITEMS m else mret []) (part_bytes flag e l) l.
Proof.
  unfold part_wf, part_bytes. destruct flag; [|intros -> _; apply reads_ret]. intros [HF Hl] Hm.
  apply reads_array_with; [by eapply Forall_impl | done | done].
Qed.
Lemma part_size {A} (flag : bool) P (l : list A) sz (e : A → bytes) :
  part_wf flag P l → (∀ x, P x → sz x = len (e x)) →
  (if flag then get_var_size_for_slice l sz else 0) = len (part_bytes flag e l).
Proof.
  unfold part_wf, part_bytes. destruct flag; [|done]. intros [HF Hl] Hs. unfold get_var_size_for_slice.
  rewrite len_app, len_var_int_bytes. f_equal. apply sum_sizes. by eapply Forall_impl.
Qed.
Lemma part_returns {A} (flag : bool) (P : A → Prop) m :
  returns m P →
  returns (if flag then deserialize_array_with SignerOps.MAX_SUBITEMS m else mret []) (part_wf flag P).
Proof. intros Hm. unfold part_wf. destruct flag; [by apply returns_array_with | by apply returns_ret]. Qed.

#[global] Program Instance signer_laws : SerializableLaws Signer := { ser_wf := signer_wf; enc := signer_bytes }.
Next Obligation.
  intros s [Ha _ Hc Hg Hr]. apply writes_bind; [exact (serialize_writes _ Ha)|].
  apply writes_bind; [apply writes_append|].
  apply writes_bind; [eapply part_writes; [exact Hc | exact (serialize_writes (T:=UInt160.t))]|].
  apply writes_bind.
  - eapply part_writes; [exact Hg|]. intros p [_ Hp]. by apply writes_group.
  - eapply part_writes; [exact Hr | exact (serialize_writes (T:=WitnessRule))].
Qed.
Next Obligation.
  intros [a sc cs gs rs] [Ha [Hs Hv] Hc Hg Hr]. eapply reads_bind; [exact (deserialize_reads _ Ha)|].
  eapply (reads_bind _ _ [_]); [apply reads_byte|]. cbn [scopes account] in *.
  pose proof (scope_valid sc Hs Hv) as Hb. rewrite Hb. eapply reads_bind_nil; [apply reads_ret|].
  apply scope_byte in Hb as (_ & _ & -> & ->).
  eapply reads_bind; [eapply part_reads; [exact Hc | exact (deserialize_reads (T:=UInt160.t))]|].
  eapply reads_bind.
  - eapply part_reads; [exact Hg|]. intros [c d] [E Hp]. cbn in E, Hp. subst c. by apply reads_point.
  - eapply reads_bind_pure; [|apply reads_ret].
    eapply part_reads; [exact Hr | exact (deserialize_reads (T:=WitnessRule))].
Qed.
Next Obligation.
  intros s [Ha _ Hc Hg Hr]. unfold signer_bytes. rewrite !len_app.
  rewrite <- (part_size _ _ _ (Io.ser_size (T:=UInt160.t)) _ Hc) by (exact (ser_size_len (T:=UInt160.t))).
  rewrite <- (part_size _ _ _ (λ p, len (Point.encoded p)) _ Hg) by done.
  rewrite <- (part_size _ _ _ (Io.ser_size (T:=WitnessRule)) _ Hr) by (exact (ser_size_len (T:=WitnessRule))).
  unfold len at 1 2. rewrite UInt160Facts.length_to_array160.
  cbn [ser_size SignerOps.serializable]. unfold SignerOps.size, flagged. cbn [length]. rewrite !N.add_assoc. done.
Qed.

Lemma witness_returns : returns (Io.deserialize (T:=Witness)) witness_wf.
Proof.
  eapply returns_bind; [apply returns_var_bytes|]. intros i Hi.
  eapply returns_bind; [apply returns_var_bytes|]. intros v Hv. by apply returns_ret.
Qed.

(** ** What the decoders return *)

(** SEC1: decompressing a compressed point gives the point back. *)
Section sec1.
Context (sec1 : ∀ d p, p256_affine d = Some p → p256_affine (p256_compress p) = Some p).

Lemma decoded_canonical d p : Point.from_bytes_with_curve Secp256r1 d = Ok p → point_wf p.
Proof.
  intros E. pose proof E as E'. apply from_bytes_point in E as (Hc & Hl & Hh & a & Ha & Hd).
  split; [done|]. unfold canonical_group, Point.encoded, Point.from_bytes_with_curve, Point.parse_p256_point.
  rewrite Hl. cbn [negb andb N.eqb Pos.eqb Point.compressed_size].
  rewrite Hd, (sec1 _ _ Ha), <- Hd. cbn [mbind Result_bind].
  rewrite Hd, <- Hd. unfold Point.new_unchecked. rewrite Hl. cbn [negb N.eqb Pos.eqb Point.compressed_size].
  destruct Hh as [-> | ->]; rewrite bool_decide_false by done; done.
Qed.
Lemma returns_group : returns Condition.deserialize_group_bytes canonical_group.
Proof.
  eapply returns_bind; [apply returns_any|]. intros bs _. cbn beta.
  destruct (Point.from_bytes_with_curve Secp256r1 bs) as [p|] eqn:E; [|apply returns_fail].
  apply returns_ret. by apply decoded_canonical in E as [_ ?].
Qed.
Lemma returns_point : returns SignerOps.read_group point_wf.
Proof.
  eapply returns_bind; [apply returns_any|]. intros bs _. cbn beta.
  destruct (Point.from_bytes_with_curve Secp256r1 bs) as [p|] eqn:E; [|apply returns_fail].
  apply returns_ret. by eapply decoded_canonical.
Qed.
Lemma returns_conditions m P :
  returns m P →
  returns (Condition.deserialize_condition_list m)
    (λ l, l ≠ [] ∧ len l ≤ Condition.MAX_SUBITEMS ∧ Forall P l).
Proof.
  intros Hm. eapply returns_bind; [by apply returns_array_with|]. intros l [HF Hl]. cbn beta.
  case_bool_decide; [apply returns_fail | by apply returns_ret].
Qed.
Lemma condition_returns d : returns (Condition.deserialize_with_depth d) (condition_wf d).
Proof.
  induction d as [|d IH]; [apply returns_fail|]. cbn [Condition.deserialize_with_depth].
  eapply returns_bind; [apply returns_any|]. intros b _.
  eapply returns_bind; [apply returns_any|]. intros ty _. cbn beta.
  destruct ty; try (by apply returns_ret);
    try (eapply returns_bind; [apply returns_any|]; intros; by apply returns_ret);
    (eapply returns_bind; [|intros x Hx; apply returns_ret; exact Hx]);
    auto using returns_group, returns_uint160.
  all: exact (returns_conditions _ _ IH).
Qed.
Lemma rule_returns : returns (Io.deserialize (T:=WitnessRule)) rule_wf.
Proof.
  eapply returns_bind; [apply returns_any|]. intros b _. eapply returns_bind; [apply returns_any|]. intros a _.
  eapply returns_bind; [apply condition_returns|]. intros c Hc. by apply returns_ret.
Qed.
Lemma signer_returns : returns (Io.deserialize (T:=Signer)) signer_wf.
Proof.
  eapply returns_bind; [apply returns_uint160|]. intros a Ha.
  eapply returns_bind; [apply returns_any|]. intros b _.
  eapply returns_bind; [apply returns_some, (λ s E, E)|]. intros sc Hsc. cbn beta in *.
  apply scope_byte in Hsc as (E & Hv & -> & ->).
  eapply returns_bind; [apply part_returns, returns_uint160|]. intros cs Hcs.
  eapply returns_bind; [apply part_returns, returns_point|]. intros gs Hgs.
  eapply returns_bind; [apply part_returns, rule_returns|]. intros rs Hrs.
  apply returns_ret. split; [done| |done..]. split; [subst sc; apply to_N_lt | done].
Qed.
End sec1.
End curves.
