(* ===== verification/Transaction.v ===== *)
(** * Transactions

    src/neo-payloads/src/transaction/ and transaction_attribute/: transactions, their
    attributes, wire format, hash and size.  [CachedTransaction] is the struct of
    the code, a transaction with its memoised hash and size; [Transaction] is its
    content. *)
From S2P Require Import Prelude Primitives Order Hashing Io EcPoint OpCode Instruction ScriptBuilder RecordUpdate Signing.
#[local] Open Scope N_scope.
#[local] Open Scope update_scope.

Module AttributeType.
Inductive t := HighPriority | OracleResponse | NotValidBefore | Conflicts | NotaryAssisted.
#[global] Instance eq_dec : EqDecision t.
Proof. solve_decision. Defined.
Definition to_byte (a : t) : byte :=
  match a with
  | HighPriority => x01 | OracleResponse => x11 | NotValidBefore => x20 | Conflicts => x21 | NotaryAssisted => x22
  end.
Definition from_byte (b : byte) : option t :=
  match b with
  | x01 => Some HighPriority | x11 => Some OracleResponse | x20 => Some NotValidBefore
  | x21 => Some Conflicts | x22 => Some NotaryAssisted | _ => None
  end.
Definition allows_multiple (a : t) : bool := match a with Conflicts => true | _ => false end.
End AttributeType.

Module OracleResponseCode.
Inductive t :=
| Success | ProtocolNotSupported | ConsensusUnreachable | NotFound | Timeout | Forbidden | ResponseTooLarge
| InsufficientFunds | ContentTypeNotSupported | Error.
#[global] Instance eq_dec : EqDecision t.
Proof. solve_decision. Defined.
Definition to_byte (c : t) : byte :=
  match c with
  | Success => x00 | ProtocolNotSupported => x10 | ConsensusUnreachable => x12 | NotFound => x14 | Timeout => x16
  | Forbidden => x18 | ResponseTooLarge => x1a | InsufficientFunds => x1c | ContentTypeNotSupported => x1f
  | Error => xff
  end.
Definition from_byte (b : byte) : option t :=
  match b with
  | x00 => Some Success | x10 => Some ProtocolNotSupported | x12 => Some ConsensusUnreachable
  | x14 => Some NotFound | x16 => Some Timeout | x18 => Some Forbidden | x1a => Some ResponseTooLarge
  | x1c => Some InsufficientFunds | x1f => Some ContentTypeNotSupported | xff => Some Error | _ => None
  end.
End OracleResponseCode.

(** ** Attributes *)

Inductive TransactionAttribute :=
| HighPriority
| OracleResponse (id : N) (code : OracleResponseCode.t) (result : bytes)
| NotValidBefore (height : N)
| Conflicts (hash : UInt256.t)
| NotaryAssisted (nkeys : N).

Module Attribute.
Definition MAX_RESULT_SIZE : N := 65535.
Definition type_id (a : TransactionAttribute) : AttributeType.t :=
  match a with
  | HighPriority => AttributeType.HighPriority
  | OracleResponse _ _ _ => AttributeType.OracleResponse
  | NotValidBefore _ => AttributeType.NotValidBefore
  | Conflicts _ => AttributeType.Conflicts
  | NotaryAssisted _ => AttributeType.NotaryAssisted
  end.
Definition allow_multiple (a : TransactionAttribute) : bool := AttributeType.allows_multiple (type_id a).

Definition body_size (a : TransactionAttribute) : N :=
  match a with
  | HighPriority => 0
  | OracleResponse _ _ result => 8 + 1 + SerializeHelper.get_var_size_bytes result
  | NotValidBefore _ => 4
  | Conflicts _ => N.of_nat UINT256_SIZE
  | NotaryAssisted _ => 1
  end.
Definition size (a : TransactionAttribute) : N := 1 + body_size a.

Definition serialize_body (a : TransactionAttribute) : Writer.Wr :=
  match a with
  | HighPriority => mret tt
  | OracleResponse id code result =>
      _ ← Writer.write_u64 id;
      _ ← Writer.write_u8 (OracleResponseCode.to_byte code);
      _ ← validate_max_length result MAX_RESULT_SIZE;
      Writer.write_var_bytes result
  | NotValidBefore height => Writer.write_u32 height
  | Conflicts hash => Io.serialize hash
  | NotaryAssisted nkeys => Writer.write_u8 (as_u8 nkeys)
  end.
Definition serialize (a : TransactionAttribute) : Writer.Wr :=
  _ ← Writer.write_u8 (AttributeType.to_byte (type_id a));
  serialize_body a.

Definition read_oracle_response : Reader.Rd TransactionAttribute :=
  id ← Reader.read_uint64;
  code_byte ← Reader.read_byte;
  code ← ok_or_invalid (OracleResponseCode.from_byte code_byte);
  result ← Reader.read_var_bytes MAX_RESULT_SIZE;
  if bool_decide (code = OracleResponseCode.Success) then mret (OracleResponse id code result)
  else if negb (bool_decide (result = [])) then fail InvalidData
  else mret (OracleResponse id code result).
Definition deserialize_from : Reader.Rd TransactionAttribute :=
  type_byte ← Reader.read_byte;
  attr_type ← ok_or_invalid (AttributeType.from_byte type_byte);
  match attr_type with
  | AttributeType.HighPriority => mret HighPriority
  | AttributeType.OracleResponse => read_oracle_response
  | AttributeType.NotValidBefore => height ← Reader.read_uint32; mret (NotValidBefore height)
  | AttributeType.Conflicts => hash ← Io.deserialize; mret (Conflicts hash)
  | AttributeType.NotaryAssisted => nkeys ← Reader.read_byte; mret (NotaryAssisted (Byte.to_N nkeys))
  end.
#[global] Instance serializable : Serializable TransactionAttribute := {
  deserialize := deserialize_from;
  serialize := serialize;
  ser_size := size;
}.
End Attribute.

(** [for _ in 0..n] reading items whose keys must be distinct; items without a
    key are not constrained. *)
Section distinct.
Context {A K : Type} `{EqDecision K} (read : Reader.Rd A) (key : A → option K).
Fixpoint collect_distinct (n : nat) (seen : list K) : Reader.Rd (list A) :=
  match n with
  | O => mret []
  | S n =>
      x ← read;
      match key x with
      | Some k =>
          if bool_decide (k ∈ seen) then fail InvalidData
          else xs ← collect_distinct n (k :: seen); mret (x :: xs)
      | None => xs ← collect_distinct n seen; mret (x :: xs)
      end
  end.
End distinct.
Definition deserialize_array_distinct {A K} `{EqDecision K} (max : N) (read : Reader.Rd A) (key : A → option K) :
    Reader.Rd (list A) :=
  count ← Reader.read_var_int max;
  if max <? count then fail InvalidData
  else collect_distinct read key (N.to_nat count) [].

(** ** Transactions *)

Record Transaction := mkTransaction {
  tx_version : N;
  tx_nonce : N;
  system_fee : Z;
  network_fee : Z;
  valid_until_block : N;
  signers : list Signer;
  attributes : list TransactionAttribute;
  script : bytes;
  witnesses : list Witness;
}.
#[global] Instance Transaction_updatable : Updatable Transaction := λ t,
  mkTransaction (tx_version t) (tx_nonce t) (system_fee t) (network_fee t) (valid_until_block t)
    (signers t) (attributes t) (script t) (witnesses t).
#[global] Instance set_tx_version : Setter tx_version := ltac:(solve_setter).
#[global] Instance set_tx_nonce : Setter tx_nonce := ltac:(solve_setter).
#[global] Instance set_system_fee : Setter system_fee := ltac:(solve_setter).
#[global] Instance set_network_fee : Setter network_fee := ltac:(solve_setter).
#[global] Instance set_valid_until_block : Setter valid_until_block := ltac:(solve_setter).
#[global] Instance set_signers : Setter signers := ltac:(solve_setter).
#[global] Instance set_attributes : Setter attributes := ltac:(solve_setter).
#[global] Instance set_script : Setter script := ltac:(solve_setter).
#[global] Instance set_witnesses : Setter witnesses := ltac:(solve_setter).

Module Tx.
Definition MAX_TRANSACTION_SIZE : N := 102400.
Definition MAX_TRANSACTION_ATTRIBUTES : N := 16.
Definition HEADER_SIZE : N := 1 + 4 + 8 + 8 + 4.
Definition U16_MAX : N := 65535.
Definition I64_MAX : Z := 2 ^ 63 - 1.

Section curves.
Context `{Curves}.

Definition serialize_unsigned (t : Transaction) : Writer.Wr :=
  _ ← Writer.write_u8 (as_u8 (tx_version t));
  _ ← Writer.write_u32 (tx_nonce t);
  _ ← Writer.write_i64 (system_fee t);
  _ ← Writer.write_i64 (network_fee t);
  _ ← Writer.write_u32 (valid_until_block t);
  _ ← SerializeHelper.serialize_array (signers t);
  _ ← SerializeHelper.serialize_array (attributes t);
  if U16_MAX <? len (script t) then fail InvalidData
  else Writer.write_var_bytes (script t).
Definition serialize (t : Transaction) : Writer.Wr :=
  _ ← serialize_unsigned t;
  SerializeHelper.serialize_array (witnesses t).

Definition deserialize_signers (max_count : N) : Reader.Rd (list Signer) :=
  signers ← deserialize_array_distinct max_count Io.deserialize (λ s, Some (account s));
  if bool_decide (signers = []) then fail InvalidData else mret signers.
Definition deserialize_attributes (max_count : N) : Reader.Rd (list TransactionAttribute) :=
  deserialize_array_distinct max_count Io.deserialize
    (λ a, if Attribute.allow_multiple a then None else Some (Attribute.type_id a)).

Definition deserialize_unsigned : Reader.Rd Transaction :=
  version ← Reader.read_byte;
  if 0 <? Byte.to_N version then fail InvalidData
  else
    nonce ← Reader.read_uint32;
    system_fee ← Reader.read_int64;
    if (system_fee <? 0)%Z then fail InvalidData
    else
      network_fee ← Reader.read_int64;
      if (network_fee <? 0)%Z then fail InvalidData
      else if (I64_MAX <? system_fee + network_fee)%Z then fail InvalidData
      else
        valid_until_block ← Reader.read_uint32;
        signers ← deserialize_signers MAX_TRANSACTION_ATTRIBUTES;
        attributes ← deserialize_attributes (MAX_TRANSACTION_ATTRIBUTES - len signers);
        script ← Reader.read_var_bytes U16_MAX;
        if bool_decide (script = []) then fail InvalidData
        else mret (mkTransaction (Byte.to_N version) nonce system_fee network_fee valid_until_block
                     signers attributes script []).
Definition deserialize : Reader.Rd Transaction :=
  t ← deserialize_unsigned;
  ws ← SerializeHelper.deserialize_exact_array (len (signers t));
  mret (t <| witnesses := ws |>).

Definition size (t : Transaction) : N :=
  HEADER_SIZE + SerializeHelper.get_var_size_serializable_slice (signers t)
  + SerializeHelper.get_var_size_serializable_slice (attributes t)
  + SerializeHelper.get_var_size_bytes (script t)
  + SerializeHelper.get_var_size_serializable_slice (witnesses t).
#[global] Instance serializable : Serializable Transaction := {
  deserialize := deserialize;
  serialize := serialize;
  ser_size := size;
}.

Definition try_get_hash_data (t : Transaction) : Result IoError bytes :=
  match serialize_unsigned t Writer.new with
  | (w, Ok _) => Ok (wbuffer w)
  | (_, Err e) => Err e
  end.
Definition from_bytes (bs : bytes) : Result IoError Transaction := (deserialize (Reader.new bs)).2.
Definition try_to_bytes (t : Transaction) : Result IoError bytes := to_array t.

Section hash.
Context `{Crypto}.
Definition try_hash (t : Transaction) : Result IoError UInt256.t :=
  hash_data ← try_get_hash_data t;
  mret (UInt256.from_array (sha256 hash_data)).
Definition hash (t : Transaction) : UInt256.t :=
  match try_hash t with Ok h => h | Err _ => UInt256.zero end.
End hash.

Definition sender (t : Transaction) : option UInt160.t := account <$> head (signers t).
(** [i64] division truncates towards zero. *)
Definition fee_per_byte (t : Transaction) : Z :=
  if size t =? 0 then 0%Z else Z.quot (network_fee t) (Z.of_N (size t)).
Definition get_attribute (ty : AttributeType.t) (t : Transaction) : option TransactionAttribute :=
  find (λ a, bool_decide (Attribute.type_id a = ty)) (attributes t).
End curves.
End Tx.

(** ** The memoised hash and size *)

(** The struct [Transaction] of the code: the content with two memos, filled
    through a shared reference on first use and dropped by the setters. *)
Record CachedTransaction := mkCached {
  content : Transaction;
  memo_hash : option UInt256.t;
  memo_size : option N;
}.
#[global] Instance CachedTransaction_updatable : Updatable CachedTransaction := λ t,
  mkCached (content t) (memo_hash t) (memo_size t).
#[global] Instance set_content : Setter content := ltac:(solve_setter).
#[global] Instance set_memo_hash : Setter memo_hash := ltac:(solve_setter).
#[global] Instance set_memo_size : Setter memo_size := ltac:(solve_setter).

Module Cached.
Definition invalidate_hash (t : CachedTransaction) : CachedTransaction := t <| memo_hash := None |>.
Definition invalidate_size (t : CachedTransaction) : CachedTransaction := t <| memo_size := None |>.
Definition invalidate_cache (t : CachedTransaction) : CachedTransaction := invalidate_size (invalidate_hash t).

Definition set_version v (t : CachedTransaction) := invalidate_hash (t <| content ::= update tx_version (λ _, v) |>).
Definition set_nonce v (t : CachedTransaction) := invalidate_hash (t <| content ::= update tx_nonce (λ _, v) |>).
Definition set_system_fee v (t : CachedTransaction) := invalidate_hash (t <| content ::= update system_fee (λ _, v) |>).
Definition set_network_fee v (t : CachedTransaction) := invalidate_hash (t <| content ::= update network_fee (λ _, v) |>).
Definition set_valid_until_block v (t : CachedTransaction) :=
  invalidate_hash (t <| content ::= update valid_until_block (λ _, v) |>).
Definition set_signers v (t : CachedTransaction) := invalidate_cache (t <| content ::= update signers (λ _, v) |>).
Definition add_signer v (t : CachedTransaction) := invalidate_cache (t <| content ::= update signers (λ l, l ++ [v]) |>).
Definition set_attributes v (t : CachedTransaction) := invalidate_cache (t <| content ::= update attributes (λ _, v) |>).
Definition add_attribute v (t : CachedTransaction) :=
  invalidate_cache (t <| content ::= update attributes (λ l, l ++ [v]) |>).
Definition set_script v (t : CachedTransaction) := invalidate_cache (t <| content ::= update script (λ _, v) |>).
Definition set_witnesses v (t : CachedTransaction) := invalidate_size (t <| content ::= update witnesses (λ _, v) |>).
Definition add_witness v (t : CachedTransaction) :=
  invalidate_size (t <| content ::= update witnesses (λ l, l ++ [v]) |>).

Section hash.
Context `{Curves} `{Crypto}.
Definition try_hash : M CachedTransaction IoError UInt256.t := λ t,
  match memo_hash t with
  | Some h => (t, Ok h)
  | None =>
      match Tx.try_get_hash_data (content t) with
      | Err e => (t, Err e)
      | Ok d => let h := UInt256.from_array (sha256 d) in (t <| memo_hash := Some h |>, Ok h)
      end
  end.
Definition size : M CachedTransaction IoError N := λ t,
  match memo_size t with
  | Some n => (t, Ok n)
  | None => let n := Tx.size (content t) in (t <| memo_size := Some n |>, Ok n)
  end.
End hash.
Definition clone (t : CachedTransaction) : CachedTransaction := mkCached (content t) (memo_hash t) (memo_size t).
End Cached.
