(* ===== verification/TransactionFacts.v ===== *)
(** * The transaction format is correct

    Encoding and decoding of attributes and transactions are inverse, sizes are
    exact, decoded transactions satisfy the protocol's structural rules, and the
    memoised hash and size of a transaction are never stale. *)
From S2P Require Import Prelude Primitives Order Hashing Io EcPoint OpCode Instruction ScriptBuilder RecordUpdate SampleKeys.
From S2P Require Import Signing SigningFacts Transaction.
#[local] Open Scope N_scope.
#[local] Open Scope update_scope.

(** ** Fixed-width integers *)

Lemma reads_uint32 v : v < 2 ^ 32 → reads Reader.read_uint32 (to_le_bytes 4 v) v.
Proof.
  intros Hv. rewrite <- (from_to_le_bytes_small 4 v Hv) at 2. by apply (reads_with_buf 4 Reader.get_le).
Qed.
Lemma reads_uint64 v : v < 2 ^ 64 → reads Reader.read_uint64 (to_le_bytes 8 v) v.
Proof.
  intros Hv. rewrite <- (from_to_le_bytes_small 8 v Hv) at 2. by apply (reads_with_buf 8 Reader.get_le).
Qed.
Definition i64_bytes (z : Z) : bytes := to_le_bytes 8 (Z.to_N (z mod 2 ^ 64)).
Lemma reads_int64 z : (- 2 ^ 63 ≤ z < 2 ^ 63)%Z → reads Reader.read_int64 (i64_bytes z) z.
Proof.
  intros Hz. assert (Reader.signed 64 (Reader.get_le (i64_bytes z)) = z) as E.
  { unfold Reader.get_le, i64_bytes. pose proof (Z.mod_pos_bound z (2 ^ 64)).
    rewrite from_to_le_bytes_small by (change (256 ^ N.of_nat 8) with (2 ^ 64); lia).
    unfold Reader.signed. rewrite Z2N.id by lia. destruct (decide (0 ≤ z)%Z).
    - rewrite Z.mod_small by lia. case_match; lia.
    - rewrite <- (Z_mod_plus_full z 1), Z.mod_small by lia. case_match; lia. }
  rewrite <- E at 2. by apply (reads_with_buf 8 (λ l, Reader.signed 64 (Reader.get_le l))).
Qed.
Lemma returns_with_buf {T} n (f : bytes → T) (Q : T → Prop) :
  (∀ bs, length bs ≤ N.to_nat n → Q (f bs))%nat → returns (Reader.read_with_buf n f) Q.
Proof.
  intros HQ r r' a (s1 & [] & _ & E)%mbind_inv_ok. apply mbind_inv_ok in E as (s2 & bs & Ea & E).
  injection Ea as _ <-. injection E as _ <-. apply HQ. unfold slice. rewrite length_take. lia.
Qed.
Lemma le_bound (w : nat) bs : (length bs ≤ w)%nat → from_le_bytes bs < 256 ^ N.of_nat w.
Proof.
  intros Hl. eapply N.lt_le_trans; [apply from_le_bytes_bound|]. apply N.pow_le_mono_r; lia.
Qed.
Lemma returns_uint32 : returns Reader.read_uint32 (λ v, v < 2 ^ 32).
Proof. apply returns_with_buf. intros bs Hl. by apply (le_bound 4). Qed.
Lemma returns_uint64 : returns Reader.read_uint64 (λ v, v < 2 ^ 64).
Proof. apply returns_with_buf. intros bs Hl. by apply (le_bound 8). Qed.
Lemma returns_int64 : returns Reader.read_int64 (λ z, - 2 ^ 63 ≤ z < 2 ^ 63)%Z.
Proof.
  apply returns_with_buf. intros bs Hl. pose proof (le_bound 8 bs Hl) as Hb.
  unfold Reader.signed, Reader.get_le. change (256 ^ N.of_nat 8) with (2 ^ 64) in Hb.
  destruct (Z.ltb_spec (Z.of_N (from_le_bytes bs)) (2 ^ (64 - 1))); lia.
Qed.

(** ** Arrays of distinct items *)

Section distinct.
Context {A K : Type} `{EqDecision K} (read : Reader.Rd A) (key : A → option K).

Lemma reads_collect_distinct (e : A → bytes) l seen :
  Forall (λ x, reads read (e x) x) l → NoDup (omap key l) → (∀ k, k ∈ seen → k ∉ omap key l) →
  reads (collect_distinct read key (length l) seen) (concat (e <$> l)) l.
Proof.
  intros HF. revert seen. induction HF as [|x l Hx HF IH]; intros seen Hnd Hseen; [apply reads_ret|].
  cbn [length collect_distinct]. eapply reads_bind; [exact Hx|]. cbn [omap list_omap] in Hnd, Hseen.
  destruct (key x) as [k|].
  - apply NoDup_cons in Hnd as [Hk Hnd]. rewrite bool_decide_false by (intros Hin; apply (Hseen k Hin); by constructor).
    eapply reads_bind_pure; [|apply reads_ret]. apply IH; [done|].
    intros k' [->|Hk']%elem_of_cons; [done|]. intros Hin. apply (Hseen k' Hk'). by constructor.
  - eapply reads_bind_pure; [by apply IH | apply reads_ret].
Qed.
Lemma reads_array_distinct (e : A → bytes) l max :
  Forall (λ x, reads read (e x) x) l → NoDup (omap key l) → len l ≤ max → max ≤ u64_max →
  reads (deserialize_array_distinct max read key) (var_int_bytes (len l) ++ concat (e <$> l)) l.
Proof.
  intros Hl Hnd Hmax Hu. eapply reads_bind; [apply reads_var_int; lia|].
  destruct (N.ltb_spec max (len l)); [lia|]. unfold len. rewrite Nat2N.id.
  apply reads_collect_distinct; [done..|]. by intros k ?%elem_of_nil.
Qed.

Lemma returns_collect_distinct P n seen :
  returns read P →
  returns (collect_distinct read key n seen)
    (λ l, Forall P l ∧ length l = n ∧ NoDup (omap key l) ∧ ∀ k, k ∈ seen → k ∉ omap key l).
Proof.
  intros Hr. revert seen. induction n as [|n IH]; intros seen.
  { apply returns_ret. split; [done|]. split; [done|]. split; [constructor|]. intros k _. apply not_elem_of_nil. }
  cbn [collect_distinct]. eapply returns_bind; [exact Hr|]. intros x Hx. cbn beta. destruct (key x) as [k|] eqn:Ek.
  - case_bool_decide as Hin; [apply returns_fail|]. eapply returns_bind; [apply IH|].
    intros l (HF & <- & Hnd & Hs). apply returns_ret. cbn [omap list_omap]. rewrite Ek.
    split; [by constructor|]. split; [done|]. split.
    + apply NoDup_cons. split; [|done]. apply Hs. by constructor.
    + intros k' Hk' [->|Hin']%elem_of_cons; [done|]. apply (Hs k'); [by constructor | done].
  - eapply returns_bind; [apply IH|]. intros l (HF & <- & Hnd & Hs). apply returns_ret.
    cbn [omap list_omap]. rewrite Ek. split; [by constructor | done].
Qed.
Lemma returns_array_distinct P max :
  returns read P →
  returns (deserialize_array_distinct max read key) (λ l, Forall P l ∧ len l ≤ max ∧ NoDup (omap key l)).
Proof.
  intros Hr. eapply returns_bind; [apply returns_var_int|]. intros n Hn. cbn beta in *.
  returns_step; [apply returns_fail|]. eapply returns_mono; [by apply returns_collect_distinct|].
  intros l (HF & Hl & Hnd & _). split; [done|]. split; [unfold len; lia | done].
Qed.
End distinct.

(** ** Attributes *)

Definition attribute_wf (a : TransactionAttribute) : Prop :=
  match a with
  | HighPriority => True
  | OracleResponse id code result =>
      id < 2 ^ 64 ∧ len result ≤ Attribute.MAX_RESULT_SIZE ∧ (code ≠ OracleResponseCode.Success → result = [])
  | NotValidBefore height => height < 2 ^ 32
  | Conflicts hash => UInt256.wf hash
  | NotaryAssisted nkeys => nkeys < 256
  end.
Definition attribute_bytes (a : TransactionAttribute) : bytes :=
  AttributeType.to_byte (Attribute.type_id a) ::
  match a with
  | HighPriority => []
  | OracleResponse id code result => to_le_bytes 8 id ++ [OracleResponseCode.to_byte code] ++ var_bytes result
  | NotValidBefore height => to_le_bytes 4 height
  | Conflicts hash => UInt256.to_array hash
  | NotaryAssisted nkeys => [as_u8 nkeys]
  end.

Lemma attribute_type_from_to ty : AttributeType.from_byte (AttributeType.to_byte ty) = Some ty.
Proof. by destruct ty. Qed.
Lemma code_from_to c : OracleResponseCode.from_byte (OracleResponseCode.to_byte c) = Some c.
Proof. by destruct c. Qed.
Lemma reads_oracle id code result :
  attribute_wf (OracleResponse id code result) →
  reads Attribute.read_oracle_response (to_le_bytes 8 id ++ [OracleResponseCode.to_byte code] ++ var_bytes result)
    (OracleResponse id code result).
Proof.
  intros (Hid & Hl & Hr). eapply reads_bind; [by apply reads_uint64|].
  eapply reads_bind; [apply reads_byte|]. rewrite code_from_to. eapply reads_bind_nil; [apply reads_ret|].
  eapply reads_bind_pure; [by apply reads_var_bytes|]. case_bool_decide; [apply reads_ret|].
  rewrite Hr by done. apply reads_ret.
Qed.
#[global] Program Instance attribute_laws : SerializableLaws TransactionAttribute := {
  ser_wf := attribute_wf; enc := attribute_bytes }.
Next Obligation.
  intros a Ha. eapply (writes_bind _ _ [_]); [apply writes_append|]. destruct a as [|id c res|h|h|n]; cbn in Ha.
  - apply writes_ret.
  - apply writes_bind; [apply writes_append|]. apply writes_bind; [apply writes_append|].
    apply (writes_bind _ _ []); [|apply writes_var_bytes]. unfold validate_max_length.
    destruct (N.ltb_spec Attribute.MAX_RESULT_SIZE (len res)); [lia | apply writes_ret].
  - apply writes_append.
  - exact (serialize_writes h Ha).
  - apply writes_append.
Qed.
Next Obligation.
  intros a Ha. eapply (reads_bind _ _ [_]); [apply reads_byte|].
  rewrite attribute_type_from_to. eapply reads_bind_nil; [apply reads_ret|]. destruct a as [|id c res|h|h|n]; cbn [Attribute.type_id].
  - apply reads_ret.
  - by apply reads_oracle.
  - eapply reads_bind_pure; [by apply reads_uint32 | apply reads_ret].
  - eapply reads_bind_pure; [exact (deserialize_reads h Ha) | apply reads_ret].
  - eapply reads_bind_pure; [apply reads_byte|]. rewrite to_N_as_u8, N.mod_small by exact Ha. apply reads_ret.
Qed.
Next Obligation.
  intros a _. cbn [ser_size Attribute.serializable]. unfold Attribute.size, attribute_bytes. rewrite len_cons. f_equal.
  destruct a; cbn [Attribute.body_size]; try done.
  rewrite !len_app, len_var_bytes, len_le. unfold len. cbn [length]. lia.
Qed.
Lemma attribute_returns : returns (Io.deserialize (T:=TransactionAttribute)) attribute_wf.
Proof.
  eapply returns_bind; [apply returns_any|]. intros b _. eapply returns_bind; [apply returns_any|]. intros ty _.
  cbn beta. destruct ty.
  - by apply returns_ret.
  - eapply returns_bind; [apply returns_uint64|]. intros id Hid. eapply returns_bind; [apply returns_any|]. intros cb _.
    eapply returns_bind; [apply returns_any|]. intros c _. eapply returns_bind; [apply returns_var_bytes|]. intros r Hr.
    cbn beta. case_bool_decide; [apply returns_ret; by split_and!|]. case_bool_decide; [|apply returns_fail].
    apply returns_ret. by split_and!.
  - eapply returns_bind; [apply returns_uint32|]. intros h Hh. by apply returns_ret.
  - eapply returns_bind; [apply returns_uint256|]. intros h Hh. by apply returns_ret.
  - eapply returns_bind; [apply returns_any|]. intros h _. apply returns_ret. apply to_N_lt.
Qed.

(** ** Transactions *)

Section transactions.
Context `{Curves}.

Definition attribute_key (a : TransactionAttribute) : option AttributeType.t :=
  if Attribute.allow_multiple a then None else Some (Attribute.type_id a).

(** The structural rules of the protocol. *)
Record transaction_wf (t : Transaction) : Prop := {
  wf_version : tx_version t = 0;
  wf_nonce : tx_nonce t < 2 ^ 32;
  wf_fees : (0 ≤ system_fee t ∧ 0 ≤ network_fee t ∧ system_fee t + network_fee t ≤ Tx.I64_MAX)%Z;
  wf_valid_until : valid_until_block t < 2 ^ 32;
  wf_signers : Forall signer_wf (signers t) ∧ signers t ≠ [] ∧ len (signers t) ≤ Tx.MAX_TRANSACTION_ATTRIBUTES ∧
    NoDup (account <$> signers t);
  wf_attributes : Forall attribute_wf (attributes t) ∧
    len (signers t) + len (attributes t) ≤ Tx.MAX_TRANSACTION_ATTRIBUTES ∧
    NoDup (omap attribute_key (attributes t));
  wf_script : script t ≠ [] ∧ len (script t) ≤ Tx.U16_MAX;
  wf_witnesses : Forall witness_wf (witnesses t) ∧ len (witnesses t) = len (signers t);
}.

Definition unsigned_bytes (t : Transaction) : bytes :=
  [as_u8 (tx_version t)] ++ to_le_bytes 4 (tx_nonce t) ++ i64_bytes (system_fee t) ++ i64_bytes (network_fee t) ++
  to_le_bytes 4 (valid_until_block t) ++ enc_array (signers t) ++ enc_array (attributes t) ++ var_bytes (script t).
Definition transaction_bytes (t : Transaction) : bytes := unsigned_bytes t ++ enc_array (witnesses t).

Lemma unsigned_writes t :
  Forall signer_wf (signers t) → Forall attribute_wf (attributes t) → len (script t) ≤ Tx.U16_MAX →
  writes (Tx.serialize_unsigned t) (unsigned_bytes t).
Proof.
  intros Hs Ha Hl. do 5 (apply writes_bind; [apply writes_append|]).
  apply writes_bind; [by apply writes_array|]. apply writes_bind; [by apply writes_array|].
  destruct (N.ltb_spec Tx.U16_MAX (len (script t))); [lia | apply writes_var_bytes].
Qed.
Lemma omap_some {A B} (f : A → B) (l : list A) : omap (λ x, Some (f x)) l = f <$> l.
Proof. induction l as [|x l IH]; [done|]. cbn. by f_equal. Qed.
Lemma reads_signers l :
  Forall signer_wf l → l ≠ [] → len l ≤ Tx.MAX_TRANSACTION_ATTRIBUTES → NoDup (account <$> l) →
  reads (Tx.deserialize_signers Tx.MAX_TRANSACTION_ATTRIBUTES) (enc_array l) l.
Proof.
  intros HF Hne Hl Hnd. eapply reads_bind_pure.
  - apply (reads_array_distinct _ _ signer_bytes); [|by rewrite omap_some|done|done].
    eapply Forall_impl; [exact HF|]. exact (deserialize_reads (T:=Signer)).
  - rewrite bool_decide_false by done. apply reads_ret.
Qed.
Lemma reads_attributes l max :
  Forall attribute_wf l → len l ≤ max → max ≤ Tx.MAX_TRANSACTION_ATTRIBUTES → NoDup (omap attribute_key l) →
  reads (Tx.deserialize_attributes max) (enc_array l) l.
Proof.
  intros HF Hl Hm Hnd. apply (reads_array_distinct _ _ attribute_bytes); [|done|done|].
  - eapply Forall_impl; [exact HF|]. exact (deserialize_reads (T:=TransactionAttribute)).
  - unfold Tx.MAX_TRANSACTION_ATTRIBUTES, u64_max in *. lia.
Qed.
Lemma unsigned_reads t :
  transaction_wf t → reads Tx.deserialize_unsigned (unsigned_bytes t) (t <| witnesses := [] |>).
Proof.
  intros Hwf. destruct t as [v n sf nf vu ss aa sc ws]. destruct Hwf as [Hv Hn Hf Hvu (H1 & H2 & H3 & H4) (H5 & H6 & H7) [H8 H9] _].
  cbn [tx_version tx_nonce system_fee network_fee valid_until_block signers attributes script witnesses] in *. subst v.
  assert (∀ z, (0 ≤ z)%Z → (z ≤ Tx.I64_MAX)%Z → (- 2 ^ 63 ≤ z < 2 ^ 63)%Z) as Hz by (unfold Tx.I64_MAX; lia).
  unfold Tx.deserialize_unsigned, unsigned_bytes.
  cbn [tx_version tx_nonce system_fee network_fee valid_until_block signers attributes script].
  eapply reads_bind; [apply reads_byte|]. eapply reads_bind; [by apply reads_uint32|].
  eapply reads_bind; [apply reads_int64, Hz; lia|].
  destruct (Z.ltb_spec sf 0); [lia|].
  eapply reads_bind; [apply reads_int64, Hz; lia|].
  destruct (Z.ltb_spec nf 0); [lia|]. destruct (Z.ltb_spec Tx.I64_MAX (sf + nf)); [lia|].
  eapply reads_bind; [by apply reads_uint32|]. eapply reads_bind; [by apply reads_signers|].
  eapply reads_bind; [apply reads_attributes; [done|lia|unfold Tx.MAX_TRANSACTION_ATTRIBUTES in *; lia|done]|].
  eapply reads_bind_pure; [by apply reads_var_bytes|]. rewrite bool_decide_false by done. apply reads_ret.
Qed.
#[global] Program Instance transaction_laws : SerializableLaws Transaction := {
  ser_wf := transaction_wf; enc := transaction_bytes }.
Next Obligation.
  intros t [_ _ _ _ [Hs _] [Ha _] [_ Hl] [Hw _]].
  apply writes_bind; [by apply unsigned_writes | by apply writes_array].
Qed.
Next Obligation.
  intros t Ht. eapply reads_bind; [by apply unsigned_reads|]. destruct Ht as [_ _ _ _ (_ & _ & Hs & _) _ _ [Hw Hn]].
  destruct t as [v n sf nf vu ss aa sc ws]. cbn in Hs, Hw, Hn. eapply reads_bind_pure; [|apply reads_ret].
  change (reads (SerializeHelper.deserialize_exact_array (len ss)) (enc_array ws) ws).
  rewrite <- Hn. apply reads_exact_array; [done|].
  unfold Tx.MAX_TRANSACTION_ATTRIBUTES, u64_max in *. lia.
Qed.
Next Obligation.
  intros t [_ _ _ _ [Hs _] [Ha _] [_ Hl] [Hw _]]. unfold transaction_bytes, unsigned_bytes.
  rewrite !len_app, len_var_bytes, <- !size_array by done. unfold i64_bytes. rewrite !len_le.
  cbn [ser_size Tx.serializable]. unfold Tx.size, Tx.HEADER_SIZE, len. cbn [length]. lia.
Qed.

Lemma reads_run {A} (m : Reader.Rd A) bs a : reads m bs a → (m (Reader.new bs)).2 = Ok a.
Proof.
  intros Hr. specialize (Hr [] []). rewrite app_nil_r in Hr. cbn [app] in Hr. unfold Reader.new.
  change (len []) with 0 in Hr. by rewrite Hr.
Qed.
Lemma writes_run m bs : writes m bs → m Writer.new = (mkWriter bs, Ok tt).
Proof. intros Hw. by rewrite (Hw Writer.new). Qed.

Lemma hash_data_unsigned t : transaction_wf t → Tx.try_get_hash_data t = Ok (unsigned_bytes t).
Proof.
  intros [_ _ _ _ [Hs _] [Ha _] [_ Hl] _]. unfold Tx.try_get_hash_data.
  by rewrite (writes_run _ _ (unsigned_writes t Hs Ha Hl)).
Qed.

(** (C31) Transactions round-trip: a transaction that satisfies the structural rules
    is encoded, decoding the bytes gives it back, its size is the number of bytes,
    and its hash is the SHA-256 of the bytes before the witnesses. *)
Theorem transaction_roundtrip `{Crypto} t :
  transaction_wf t →
  ∃ ws, Tx.try_to_bytes t = Ok (unsigned_bytes t ++ ws) ∧
    Tx.from_bytes (unsigned_bytes t ++ ws) = Ok t ∧
    Tx.size t = len (unsigned_bytes t ++ ws) ∧
    Tx.try_hash t = Ok (UInt256.from_array (sha256 (unsigned_bytes t))).
Proof.
  intros Ht. exists (enc_array (witnesses t)). split.
  { unfold Tx.try_to_bytes, to_array. by rewrite (writes_run _ _ (@serialize_writes _ _ transaction_laws t Ht)). }
  split; [exact (reads_run _ _ _ (@deserialize_reads _ _ transaction_laws t Ht))|].
  split; [exact (@ser_size_len _ _ transaction_laws t Ht)|]. unfold Tx.try_hash. by rewrite hash_data_unsigned.
Qed.

(** ** Decoded transactions *)

Section sec1.
Context (sec1 : ∀ d p, p256_affine d = Some p → p256_affine (p256_compress p) = Some p).

Lemma signers_returns max :
  returns (Tx.deserialize_signers max)
    (λ l, Forall signer_wf l ∧ l ≠ [] ∧ len l ≤ max ∧ NoDup (account <$> l)).
Proof.
  eapply returns_bind; [apply returns_array_distinct, (signer_returns sec1)|]. intros l (HF & Hl & Hnd). cbn beta.
  case_bool_decide; [apply returns_fail|]. apply returns_ret. by rewrite omap_some in Hnd.
Qed.
Lemma attributes_returns max :
  returns (Tx.deserialize_attributes max)
    (λ l, Forall attribute_wf l ∧ len l ≤ max ∧ NoDup (omap attribute_key l)).
Proof. apply returns_array_distinct, attribute_returns. Qed.
Lemma unsigned_returns :
  returns Tx.deserialize_unsigned
    (λ t, ∀ ws, Forall witness_wf ws → len ws = len (signers t) → transaction_wf (t <| witnesses := ws |>)).
Proof.
  eapply returns_bind; [apply returns_any|]. intros v _. cbn beta.
  destruct (N.ltb_spec 0 (Byte.to_N v)) as [|Hv]; [apply returns_fail|].
  eapply returns_bind; [apply returns_uint32|]. intros n Hn. eapply returns_bind; [apply returns_int64|]. intros sf Hsf.
  cbn beta in *. destruct (Z.ltb_spec sf 0); [apply returns_fail|].
  eapply returns_bind; [apply returns_int64|]. intros nf Hnf.
  cbn beta in *. destruct (Z.ltb_spec nf 0); [apply returns_fail|].
  destruct (Z.ltb_spec Tx.I64_MAX (sf + nf)); [apply returns_fail|].
  eapply returns_bind; [apply returns_uint32|]. intros vu Hvu.
  eapply returns_bind; [apply signers_returns|]. intros ss (Hs & Hne & Hls & Hds).
  eapply returns_bind; [apply attributes_returns|]. intros aa (Ha & Hla & Hda).
  eapply returns_bind; [apply returns_var_bytes|]. intros sc Hsc. cbn beta in *.
  case_bool_decide; [apply returns_fail|]. apply returns_ret. intros ws Hw Hl.
  split; try done; [cbn; lia|]. split; [done|]. split; [cbn; unfold Tx.MAX_TRANSACTION_ATTRIBUTES in *; lia | done].
Qed.
Lemma transaction_returns : returns (Io.deserialize (T:=Transaction)) transaction_wf.
Proof.
  eapply returns_bind; [apply unsigned_returns|]. intros t Ht.
  eapply (returns_bind _ _ (λ ws, Forall witness_wf ws ∧ len ws = len (signers t))).
  - eapply returns_bind; [apply returns_any|]. intros n _. cbn beta. case_bool_decide as E; [apply returns_fail|].
    eapply returns_mono; [apply returns_collect, witness_returns|]. intros ws [HF Hl]. split; [done|].
    unfold len at 1. rewrite Hl. subst n. by rewrite N2Nat.id.
  - intros ws [HF Hl]. apply returns_ret. by apply Ht.
Qed.

(** (C30) Whatever the transaction decoder accepts satisfies the structural rules of
    the protocol (version 0, fees that are non-negative and do not overflow, 1 to
    16 signers with distinct accounts, no repeated attribute except Conflicts, at
    most 16 signers and attributes, a script of 1 to 65535 bytes, one witness per
    signer, scopes, conditions and points in canonical form), provided that
    decompressing a compressed point gives the point back. *)
Theorem decoded_transaction_wf bs t : Tx.from_bytes bs = Ok t → transaction_wf t.
Proof.
  unfold Tx.from_bytes. destruct (Tx.deserialize (Reader.new bs)) as [r res] eqn:E. cbn. intros ->.
  by eapply transaction_returns.
Qed.
End sec1.
End transactions.

(** ** The memos *)

(** The operations on a transaction. *)
Inductive TxOp :=
| SetVersion (v : N) | SetNonce (v : N) | SetSystemFee (v : Z) | SetNetworkFee (v : Z) | SetValidUntilBlock (v : N)
| SetSigners (v : list Signer) | AddSigner (v : Signer)
| SetAttributes (v : list TransactionAttribute) | AddAttribute (v : TransactionAttribute)
| SetScript (v : bytes) | SetWitnesses (v : list Witness) | AddWitness (v : Witness)
| TryHash | Size | Clone.

Section memo.
Context `{Curves} `{Crypto}.

Definition apply_op (op : TxOp) (t : CachedTransaction) : CachedTransaction :=
  match op with
  | SetVersion v => Cached.set_version v t
  | SetNonce v => Cached.set_nonce v t
  | SetSystemFee v => Cached.set_system_fee v t
  | SetNetworkFee v => Cached.set_network_fee v t
  | SetValidUntilBlock v => Cached.set_valid_until_block v t
  | SetSigners v => Cached.set_signers v t
  | AddSigner v => Cached.add_signer v t
  | SetAttributes v => Cached.set_attributes v t
  | AddAttribute v => Cached.add_attribute v t
  | SetScript v => Cached.set_script v t
  | SetWitnesses v => Cached.set_witnesses v t
  | AddWitness v => Cached.add_witness v t
  | TryHash => (Cached.try_hash t).1
  | Size => (Cached.size t).1
  | Clone => Cached.clone t
  end.

(** The memos agree with the content. *)
Definition coherent (t : CachedTransaction) : Prop :=
  (∀ h, memo_hash t = Some h → Tx.try_hash (content t) = Ok h) ∧
  (∀ n, memo_size t = Some n → Tx.size (content t) = n).

Lemma coherent_hash t : coherent t → (Cached.try_hash t).2 = Tx.try_hash (content t).
Proof.
  intros [Hh _]. unfold Cached.try_hash. destruct (memo_hash t) as [h|]; [by rewrite (Hh h)|].
  unfold Tx.try_hash. by destruct (Tx.try_get_hash_data (content t)).
Qed.
Lemma coherent_size t : coherent t → (Cached.size t).2 = Ok (Tx.size (content t)).
Proof. intros [_ Hs]. unfold Cached.size. destruct (memo_size t) as [n|]; [by rewrite (Hs n)|done]. Qed.
Lemma coherent_op op t : coherent t → coherent (apply_op op t).
Proof.
  intros Ht. pose proof Ht as [Hh Hs].
  destruct op; cbn [apply_op]; try (split; [try done; exact Hh | try done; exact Hs]).
  - unfold Cached.try_hash. destruct (memo_hash t) as [h|] eqn:Em; [exact Ht|].
    destruct (Tx.try_get_hash_data (content t)) as [d|] eqn:Ed; [|exact Ht]. split; [|exact Hs].
    intros h [= <-]. unfold Tx.try_hash. cbn. by rewrite Ed.
  - unfold Cached.size. destruct (memo_size t) as [n|] eqn:Em; [exact Ht|]. split; [exact Hh|]. by intros n [= <-].
Qed.

(** (C34) The memoised hash and size of a transaction are never stale: after any
    sequence of setters, queries and clones of a new transaction, [try_hash] and
    [size] return the hash and the size of its current content. *)
Theorem memos_never_stale ops t :
  let c := foldl (λ c op, apply_op op c) (mkCached t None None) ops in
  (Cached.try_hash c).2 = Tx.try_hash (content c) ∧ (Cached.size c).2 = Ok (Tx.size (content c)).
Proof.
  assert (coherent (foldl (λ c op, apply_op op c) (mkCached t None None) ops)) as Hc.
  { induction ops as [|op ops IH] using rev_ind; [by split|]. rewrite foldl_app. by apply coherent_op. }
  split; [by apply coherent_hash | by apply coherent_size].
Qed.
End memo.

(** ** A sample transaction *)

#[local] Existing Instance checksum_crypto.
#[local] Existing Instance sample_curves.

Definition sample_signer : Signer :=
  mkSigner (UInt160.mk 1 2 3) 0x71 [UInt160.mk 4 5 6] [sample_key 3]
    [mkRule WitnessRuleAction.Deny (And [Boolean true; Not (CalledByGroup (Point.encoded (sample_key 4)))])].
Definition sample_transaction : Transaction :=
  mkTransaction 0 42 1000 2000 77 [sample_signer; SignerOps.new (UInt160.mk 7 8 9) WitnessScope.GLOBAL]
    [HighPriority; Conflicts (UInt256.mk 1 2 3 4); Conflicts (UInt256.mk 1 2 3 5)] [x51; x40]
    [mkWitness [x11] [x12; x13]; mkWitness [] [x14]].
Definition sample_transaction_bytes : bytes := Eval vm_compute in transaction_bytes sample_transaction.

Lemma sample_sec1 d p : p256_affine d = Some p → p256_affine (p256_compress p) = Some p.
Proof.
  cbn. unfold sample_affine. intros E. destruct d as [|b x]; [done|].
  destruct b; try done; (destruct (len x =? 32) eqn:El; [|done]; injection E as <-; cbn; by rewrite El).
Qed.
Lemma sample_decodes : Tx.from_bytes sample_transaction_bytes = Ok sample_transaction.
Proof. vm_compute. reflexivity. Qed.
Lemma sample_transaction_wf : transaction_wf sample_transaction.
Proof.
  eapply (transaction_returns sample_sec1 (Reader.new sample_transaction_bytes)).
  vm_compute. reflexivity.
Qed.

Lemma transaction_roundtrip_witness :
  ∃ ws, Tx.from_bytes (unsigned_bytes sample_transaction ++ ws) = Ok sample_transaction.
Proof.
  destruct (transaction_roundtrip sample_transaction sample_transaction_wf) as (ws & _ & E & _).
  exact (ex_intro _ ws E).
Defined.
Lemma decoded_transaction_wf_witness : transaction_wf sample_transaction.
Proof. exact (decoded_transaction_wf sample_sec1 sample_transaction_bytes sample_transaction sample_decodes). Defined.
