(* ===== verification/Admission.v ===== *)
(** * Transaction verification for admission

    src/neo-mempool/src/admission/verification.rs and verification/attributes.rs:
    the state-independent half (size, script, standard signatures) and the
    state-dependent half (validity window, policy, balance, attributes, fees and
    witnesses) of transaction verification, with the costs of standard witnesses
    (src/neo-execution/src/runtime/helper.rs).  Ledger and native contracts are the
    traits [AdmissionLedgerProvider] and [AdmissionNativeProvider]; the execution of a
    non-standard witness is a parameter. *)
From S2P Require Import Prelude Primitives Order Hashing Io EcPoint OpCode Instruction ScriptBuilder.
From S2P Require Import RecordUpdate Multisig Signing Transaction.
#[local] Open Scope N_scope.

Module VerifyResult.
Inductive t :=
| Succeed | AlreadyExists | AlreadyInPool | OutOfMemory | UnableToVerify | Invalid | InvalidScript
| InvalidAttribute | InvalidSignature | OverSize | Expired | NotYetValid | InsufficientFunds | PolicyFail
| HasConflicts | Unknown.
#[global] Instance eq_dec : EqDecision t.
Proof. solve_decision. Defined.
Definition is_success (r : t) : bool := match r with Succeed => true | _ => false end.
End VerifyResult.

(** ** Machine arithmetic *)

(** Release builds wrap on overflow. *)
Definition wrap_i64 (z : Z) : Z := ((z + 2 ^ 63) mod 2 ^ 64 - 2 ^ 63)%Z.
Definition saturate_i64 (z : Z) : Z := Z.max (- 2 ^ 63) (Z.min (2 ^ 63 - 1) z).
Definition try_i64 (z : Z) : option Z := if ((- 2 ^ 63 <=? z) && (z <? 2 ^ 63))%Z then Some z else None.
(** [u32::saturating_add]. *)
Definition saturating_add_u32 (a b : N) : N := N.min (a + b) (2 ^ 32 - 1).

(** [BigInt::from_signed_bytes_le]. *)
Definition from_signed_bytes_le (bs : bytes) : Z :=
  let n := Z.of_N (from_le_bytes bs) in
  let modulus := (256 ^ Z.of_nat (length bs))%Z in
  if (modulus <=? 2 * n)%Z then (n - modulus)%Z else n.

(** ** ECDSA *)

(** The p256 crate: keys and signatures are parsed, then verified. *)
Class Ecdsa := {
  VerifyingKey : Type;
  P256Signature : Type;
  from_sec1_bytes : bytes → option VerifyingKey;
  from_der : bytes → option P256Signature;
  from_slice : bytes → option P256Signature;
  key_verify : VerifyingKey → bytes → P256Signature → bool;
}.
Inductive EcdsaError := InvalidKey | InvalidSignatureBytes.
Definition verify_signature_secp256r1 `{Ecdsa} (public_key message signature : bytes) : Result EcdsaError bool :=
  match from_sec1_bytes public_key with
  | None => Err InvalidKey
  | Some key =>
      match (match from_der signature with Some s => Some s | None => from_slice signature end) with
      | None => Err InvalidSignatureBytes
      | Some sig => Ok (key_verify key message sig)
      end
  end.

(** ** Settings and providers *)

(** The settings the verification reads; the hardfork schedule maps Echidna to its height. *)
Record ProtocolSettings := mkSettings { s_network : N; s_echidna : option N }.
Definition echidna_enabled (s : ProtocolSettings) (height : N) : bool :=
  match s_echidna s with Some h => h <=? height | None => false end.

(** [CoreResult]: the callers only test for failure. *)
Abbreviation CoreResult := (Result unit).

Class AdmissionLedgerProvider (Snapshot : Type) := {
  current_index : Snapshot → CoreResult N;
  contains_transaction : Snapshot → UInt256.t → CoreResult bool;
  contains_conflict_hash : Snapshot → UInt256.t → list UInt160.t → N → CoreResult bool;
}.
Class AdmissionNativeProvider (Snapshot : Type) := {
  policy_is_blocked : Snapshot → UInt160.t → CoreResult bool;
  max_valid_until_block_increment : Snapshot → ProtocolSettings → CoreResult N;
  max_traceable_blocks : Snapshot → ProtocolSettings → CoreResult N;
  native_fee_per_byte : Snapshot → CoreResult N;
  exec_fee_factor : Snapshot → ProtocolSettings → N → CoreResult N;
  gas_balance : Snapshot → UInt160.t → CoreResult Z;
  notary_balance : Snapshot → UInt160.t → CoreResult Z;
  notary_hash : CoreResult UInt160.t;
  committee_address : Snapshot → CoreResult (option UInt160.t);
  oracle_response_gas : Snapshot → N → CoreResult (option Z);
  designated_oracles : Snapshot → N → CoreResult (list ECPoint);
}.
(** The storage of the snapshot, by contract id and key, and the witness engine. *)
Class AdmissionState (Snapshot : Type) := {
  snapshot_get : Snapshot → Z → bytes → option bytes;
  verify_witness : Transaction → ProtocolSettings → Snapshot → UInt160.t → Witness → Z → CoreResult Z;
}.

(** ** Costs of standard witnesses *)

Module Costs.
Definition MAX_VERIFICATION_GAS : Z := 150000000.
Definition OPCODE_PRICE_TABLE : list Z := [
  1; 1; 1; 1; 4; 4; 0; 0; 1; 1; 4; 1; 8; 512; 4096; 1; 1; 1; 1; 1; 1; 1; 1; 1; 1; 1; 1; 1; 1;
  1; 1; 1; 1; 1; 2; 2; 2; 2; 2; 2; 2; 2; 2; 2; 2; 2; 2; 2; 2; 2; 2; 2; 512; 512; 512; 32768;
  0; 1; 512; 4; 4; 4; 4; 4; 0; 0; 0; 2; 0; 2; 2; 0; 16; 16; 2; 2; 0; 2; 2; 0; 2; 2; 16; 2; 2;
  16; 16; 64; 2; 2; 2; 2; 2; 2; 2; 2; 2; 2; 2; 2; 2; 2; 2; 2; 2; 2; 2; 2; 2; 2; 2; 2; 2; 2;
  2; 2; 2; 2; 2; 2; 2; 2; 2; 2; 2; 2; 2; 2; 2; 2; 2; 2; 2; 2; 2; 2; 256; 2048; 0; 2048; 2048;
  2048; 2048; 0; 4; 8; 8; 8; 0; 0; 0; 32; 32; 4; 4; 4; 4; 4; 8; 8; 8; 8; 8; 64; 64; 32; 2048;
  0; 8; 8; 4; 8; 8; 0; 0; 0; 0; 4; 0; 8; 8; 8; 8; 8; 8; 8; 8; 8; 0; 0; 2048; 2048; 2048;
  2048; 16; 512; 512; 16; 512; 0; 8; 0; 4; 64; 16; 8192; 64; 8192; 8192; 8192; 16; 16; 16; 0;
  0; 0; 2; 2; 0; 8192; 0; 0; 0; 0; 0; 1; 0; 0; 0; 0; 0; 0; 0; 0; 0; 0; 0; 0; 0; 0; 0; 0; 0;
  0; 0; 0; 0; 0; 0; 0; 0; 0; 0; 0; 0; 0]%Z.
Definition get_opcode_price (opcode : byte) : Z := default 0%Z (OPCODE_PRICE_TABLE !! N.to_nat (Byte.to_N opcode)).

Definition signature_contract_cost : Z :=
  (get_opcode_price (OpCode.byte OpCode.PUSHDATA1) * 2 + get_opcode_price (OpCode.byte OpCode.SYSCALL)
   + CHECK_SIG_PRICE)%Z.
Definition push_int_opcode (n : N) : byte :=
  default (OpCode.byte OpCode.PUSH0) (head (Builder.emit_push_int (Z.of_N n) [])).
Definition multi_signature_contract_cost (m n : N) : Z :=
  (get_opcode_price (OpCode.byte OpCode.PUSHDATA1) * (Z.of_N m + Z.of_N n)
   + get_opcode_price (push_int_opcode m) + get_opcode_price (push_int_opcode n)
   + get_opcode_price (OpCode.byte OpCode.SYSCALL) + CHECK_SIG_PRICE * Z.of_N n)%Z.
End Costs.

(** [OracleResponse::get_fixed_script]. *)
Definition oracle_hash : UInt160.t :=
  UInt160.from_array [x58; x87; x17; x11; x7e; x0a; xa8; x10; x72; xaf; xab; x71; xd2; xdd; x89; xfe; x7c; x4b; x92; xfe].
Definition CALL_FLAGS_ALL : Z := 15.
Definition get_fixed_script `{Crypto} : bytes :=
  let script := Builder.emit_opcode OpCode.NEWARRAY0 [] in
  let script := Builder.emit_push_int CALL_FLAGS_ALL script in
  let script := Builder.emit_push (name "finish") script in
  let script := Builder.emit_push (UInt160.to_array oracle_hash) script in
  Builder.emit_syscall_hash (interop_hash (name "System.Contract.Call")) script.

Section verification.
Context {Snapshot : Type} `{Crypto} `{Ripemd} `{Curves} `{Ecdsa}.
Context `{!AdmissionLedgerProvider Snapshot} `{!AdmissionNativeProvider Snapshot} `{!AdmissionState Snapshot}.
Implicit Types (tx : Transaction) (snapshot : Snapshot) (settings : ProtocolSettings).

(** ** The state-independent half *)

Definition accounts tx : list UInt160.t := account <$> signers tx.
Definition sign_data tx (network : N) : option bytes :=
  match Tx.try_hash tx with
  | Ok hash => Some (to_le_bytes 4 network ++ UInt256.to_array hash)
  | Err _ => None
  end.

(** One witness of the loop; [None] goes on with the next. *)
Definition check_standard (message : bytes) (hash : UInt160.t) (witness : Witness) : option VerifyResult.t :=
  let verification := verification_script witness in
  let invocation := invocation_script witness in
  if RedeemScript.is_signature_contract verification then
    match signature_from_invocation invocation with
    | None => None
    | Some signature =>
        if negb (bool_decide (hash = WitnessOps.script_hash witness)) then Some VerifyResult.Invalid
        else
          match verify_signature_secp256r1 (slice verification 2 33) message signature with
          | Ok true => None
          | Ok false => Some VerifyResult.InvalidSignature
          | Err _ => Some VerifyResult.Invalid
          end
    end
  else
    match RedeemScript.parse_multi_sig_contract verification with
    | None => None
    | Some (m, points) =>
        match RedeemScript.parse_multi_sig_invocation invocation m with
        | None => None
        | Some signatures =>
            if negb (bool_decide (hash = WitnessOps.script_hash witness)) then Some VerifyResult.Invalid
            else
              match fast_path (λ point sig, verify_signature_secp256r1 point message sig) points signatures with
              | Passed => None
              | Multisig.InvalidSignature => Some VerifyResult.InvalidSignature
              | Multisig.Invalid => Some VerifyResult.Invalid
              end
        end
    end.
Fixpoint check_witnesses (message : bytes) (pairs : list (UInt160.t * Witness)) : VerifyResult.t :=
  match pairs with
  | [] => VerifyResult.Succeed
  | (hash, witness) :: pairs =>
      match check_standard message hash witness with
      | Some result => result
      | None => check_witnesses message pairs
      end
  end.
Definition verify_state_independent tx settings : VerifyResult.t :=
  if Tx.MAX_TRANSACTION_SIZE <? Tx.size tx then VerifyResult.OverSize
  else
    match validate_script (script tx) true with
    | Err _ => VerifyResult.InvalidScript
    | Ok _ =>
        if len (witnesses tx) <? len (accounts tx) then VerifyResult.Invalid
        else
          match sign_data tx (s_network settings) with
          | None => VerifyResult.Invalid
          | Some message => check_witnesses message (zip (accounts tx) (witnesses tx))
          end
    end.

(** ** Attributes *)

(** The hashes a transaction declares as conflicting. *)
Definition conflict_target_hashes tx : list UInt256.t :=
  omap (λ a, match a with Conflicts hash => Some hash | _ => None end) (attributes tx).

Definition oracle_response_gas_matches tx (gas_for_response : Z) : bool :=
  (wrap_i64 (network_fee tx + system_fee tx) =? gas_for_response)%Z.
Definition has_signer tx (hash : UInt160.t) : bool := existsb (λ s, bool_decide (account s = hash)) (signers tx).
Definition verify_oracle snapshot tx (id height : N) : bool :=
  if existsb (λ s, negb (scopes s =? WitnessScope.NONE)) (signers tx) then false
  else if negb (bool_decide (script tx = get_fixed_script)) then false
  else
    match oracle_response_gas snapshot id with
    | Ok (Some gas_for_response) =>
        if negb (oracle_response_gas_matches tx gas_for_response) then false
        else
          match designated_oracles snapshot ((height + 1) mod 2 ^ 32) with
          | Ok oracles =>
              match RedeemScript.bft_address oracles with
              | Some oracle_account => has_signer tx oracle_account
              | None => false
              end
          | Err _ => false
          end
    | _ => false
    end.
Definition verify_attribute snapshot tx (attribute : TransactionAttribute) (height : N) : bool :=
  match attribute with
  | HighPriority =>
      match committee_address snapshot with
      | Ok (Some committee) => has_signer tx committee
      | _ => false
      end
  | NotValidBefore h => h <=? height
  | Conflicts hash =>
      if bool_decide (¬ NoDup (conflict_target_hashes tx)) then false
      else negb (match contains_transaction snapshot hash with Ok b => b | Err _ => true end)
  | OracleResponse id _ _ => verify_oracle snapshot tx id height
  | NotaryAssisted _ =>
      match notary_hash with
      | Err _ => false
      | Ok notary =>
          if bool_decide (Tx.sender tx = Some notary) then len (signers tx) =? 2 else has_signer tx notary
      end
  end.

Definition POLICY_CONTRACT_ID : Z := -7.
Definition POLICY_PREFIX_ATTRIBUTE_FEE : byte := as_u8 20.
Definition attribute_base_fee snapshot (ty : AttributeType.t) : Z :=
  let key := [POLICY_PREFIX_ATTRIBUTE_FEE; AttributeType.to_byte ty] in
  default 0%Z (value ← snapshot_get snapshot POLICY_CONTRACT_ID key; try_i64 (from_signed_bytes_le value)).
Definition attribute_network_fee snapshot tx (attribute : TransactionAttribute) : Z :=
  let base := attribute_base_fee snapshot (Attribute.type_id attribute) in
  match attribute with
  | Conflicts _ => wrap_i64 (Z.of_N (len (signers tx)) * base)
  | NotaryAssisted nkeys => wrap_i64 (wrap_i64 (Z.of_N nkeys + 1) * base)
  | _ => base
  end.

(** ** The state-dependent half *)

Definition fee_payer_balance snapshot tx : CoreResult (option Z) :=
  match Tx.sender tx with
  | None => Ok None
  | Some sender =>
      notary ← notary_hash;
      match signers tx with
      | _ :: second :: _ =>
          if bool_decide (sender = notary) then balance ← notary_balance snapshot (account second); mret (Some balance)
          else balance ← gas_balance snapshot sender; mret (Some balance)
      | _ => balance ← gas_balance snapshot sender; mret (Some balance)
      end
  end.

(** The loop over the blocked accounts. *)
Fixpoint check_blocked snapshot (hashes : list UInt160.t) : option VerifyResult.t :=
  match hashes with
  | [] => None
  | hash :: hashes =>
      match policy_is_blocked snapshot hash with
      | Ok true => Some VerifyResult.PolicyFail
      | Ok false => check_blocked snapshot hashes
      | Err _ => Some VerifyResult.UnableToVerify
      end
  end.

(** The loop over the attributes, with the fees so far; [None] is InvalidAttribute. *)
Fixpoint check_attributes snapshot settings tx (height : N) (fee : Z) (l : list TransactionAttribute) : option Z :=
  match l with
  | [] => Some fee
  | attribute :: l =>
      let notary := match attribute with NotaryAssisted _ => true | _ => false end in
      if notary && negb (echidna_enabled settings height) then None
      else if negb (verify_attribute snapshot tx attribute height) then None
      else check_attributes snapshot settings tx height
             (saturate_i64 (fee + attribute_network_fee snapshot tx attribute)) l
  end.

(** The signatures and keys of a standard multi-signature witness. *)
Definition multi_signature (witness : Witness) : option (N * N) :=
  match RedeemScript.parse_multi_sig_contract (verification_script witness) with
  | Some (m, points) =>
      match RedeemScript.parse_multi_sig_invocation (invocation_script witness) m with
      | Some _ => Some (m, len points)
      | None => None
      end
  | None => None
  end.
Definition single_signature (witness : Witness) : bool :=
  RedeemScript.is_signature_contract (verification_script witness) &&
  bool_decide (is_Some (signature_from_invocation (invocation_script witness))).

(** What is left of [net_fee] after one witness. *)
Definition charge_witness snapshot settings tx (factor net_fee : Z) (hash : UInt160.t) (witness : Witness) : CoreResult Z :=
  if single_signature witness then Ok (wrap_i64 (net_fee - wrap_i64 (factor * Costs.signature_contract_cost)))
  else
    match multi_signature witness with
    | Some (m, n) => Ok (wrap_i64 (net_fee - wrap_i64 (factor * Costs.multi_signature_contract_cost m n)))
    | None => fee ← verify_witness tx settings snapshot hash witness net_fee; mret (wrap_i64 (net_fee - fee))
    end.
Fixpoint charge_witnesses snapshot settings tx (factor net_fee : Z) (pairs : list (UInt160.t * Witness)) : VerifyResult.t :=
  match pairs with
  | [] => VerifyResult.Succeed
  | (hash, witness) :: pairs =>
      match charge_witness snapshot settings tx factor net_fee hash witness with
      | Err _ => VerifyResult.Invalid
      | Ok net_fee =>
          if (net_fee <? 0)%Z then VerifyResult.InsufficientFunds
          else charge_witnesses snapshot settings tx factor net_fee pairs
      end
  end.

(** Fees: size, attributes, then the witnesses out of what is left. *)
Definition check_fees snapshot settings tx (height : N) (attributes_fee : Z) : VerifyResult.t :=
  match native_fee_per_byte snapshot with
  | Err _ => VerifyResult.UnableToVerify
  | Ok fee_per_byte =>
      let net_fee := wrap_i64 (wrap_i64 (network_fee tx - wrap_i64 (Z.of_N (Tx.size tx) * Z.of_N fee_per_byte))
                               - attributes_fee) in
      if (net_fee <? 0)%Z then VerifyResult.InsufficientFunds
      else
        let net_fee := Z.min net_fee Costs.MAX_VERIFICATION_GAS in
        match exec_fee_factor snapshot settings height with
        | Err _ => VerifyResult.UnableToVerify
        | Ok factor =>
            if len (witnesses tx) <? len (accounts tx) then VerifyResult.Invalid
            else charge_witnesses snapshot settings tx (Z.of_N factor) net_fee (zip (accounts tx) (witnesses tx))
        end
  end.

Definition verify_state_dependent tx snapshot settings (pooled_sender_fee : Z) (oracle_duplicate : bool) : VerifyResult.t :=
  match current_index snapshot with
  | Err _ => VerifyResult.UnableToVerify
  | Ok height =>
      match max_valid_until_block_increment snapshot settings with
      | Err _ => VerifyResult.UnableToVerify
      | Ok max_increment =>
          if valid_until_block tx <=? height then VerifyResult.Expired
          else if saturating_add_u32 height max_increment <? valid_until_block tx then VerifyResult.NotYetValid
          else
            match check_blocked snapshot (accounts tx) with
            | Some result => result
            | None =>
                match fee_payer_balance snapshot tx with
                | Err _ => VerifyResult.UnableToVerify
                | Ok None => VerifyResult.Invalid
                | Ok (Some balance) =>
                    if (balance <? system_fee tx + network_fee tx + pooled_sender_fee)%Z then VerifyResult.InsufficientFunds
                    else if oracle_duplicate then VerifyResult.InsufficientFunds
                    else
                      match check_attributes snapshot settings tx height 0 (attributes tx) with
                      | None => VerifyResult.InvalidAttribute
                      | Some attributes_fee => check_fees snapshot settings tx height attributes_fee
                      end
                end
            end
      end
  end.

Definition verify_transaction tx snapshot settings (pooled_sender_fee : Z) (oracle_duplicate : bool) : VerifyResult.t :=
  let result := verify_state_independent tx settings in
  if negb (bool_decide (result = VerifyResult.Succeed)) then result
  else verify_state_dependent tx snapshot settings pooled_sender_fee oracle_duplicate.
End verification.
