(* ===== verification/SampleChain.v ===== *)
(** * A sample chain for the examples of admission and of the pool

    Executable instances of the providers that transaction verification reads: a
    snapshot with a height and the GAS balances, prices of one per unit, the
    signatures of SampleKeys, and an engine that rejects non-standard witnesses. *)
From S2P Require Import Prelude Primitives Order Hashing Io EcPoint OpCode Instruction ScriptBuilder SampleKeys.
From S2P Require Import RecordUpdate Multisig Signing Transaction Admission.
#[local] Open Scope N_scope.
#[local] Open Scope update_scope.

#[local] Existing Instance checksum_crypto.
#[local] Existing Instance sample_curves.
#[local] Existing Instance sample_ripemd.

Definition sample_ecdsa : Ecdsa := {|
  VerifyingKey := bytes;
  P256Signature := bytes;
  from_sec1_bytes := Some;
  from_der := λ _, None;
  from_slice := λ s, if len s =? 64 then Some s else None;
  key_verify := λ key message sig, secp256r1_verify message sig key;
|}.
#[local] Existing Instance sample_ecdsa.

Record SampleChain := mkChain { sc_height : N; sc_gas : UInt160.t → Z; sc_confirmed : list UInt256.t }.

Definition sample_ledger : AdmissionLedgerProvider SampleChain := {|
  current_index := λ c, Ok (sc_height c);
  contains_transaction := λ c h, Ok (bool_decide (h ∈ sc_confirmed c));
  contains_conflict_hash := λ _ _ _ _, Ok false;
|}.
Definition native_with (notary : UInt160.t) : AdmissionNativeProvider SampleChain := {|
  policy_is_blocked := λ _ _, Ok false;
  max_valid_until_block_increment := λ _ _, Ok 5760;
  max_traceable_blocks := λ _ _, Ok 2102400;
  native_fee_per_byte := λ _, Ok 1;
  exec_fee_factor := λ _ _ _, Ok 1;
  gas_balance := λ c a, Ok (sc_gas c a);
  notary_balance := λ _ _, Ok 0%Z;
  notary_hash := Ok notary;
  committee_address := λ _, Ok None;
  oracle_response_gas := λ _ _, Ok None;
  designated_oracles := λ _ _, Ok [];
|}.
Definition sample_native : AdmissionNativeProvider SampleChain := native_with (UInt160.mk 1 1 1).
Definition sample_state : AdmissionState SampleChain := {|
  snapshot_get := λ _ _ _, None;
  verify_witness := λ _ _ _ _ _ _, Err tt;
|}.
Definition sample_settings : ProtocolSettings := mkSettings 860833102 (Some 0).

(** The transactions of the owner of [sample_key k]. *)
Definition sample_account (k : N) : UInt160.t :=
  from_script (RedeemScript.signature_redeem_script (Point.encoded (sample_key k))).
Definition sample_tx (k nonce : N) (sysfee netfee : Z) (valid_until : N) (attrs : list TransactionAttribute) : Transaction :=
  let tx := mkTransaction 0 nonce sysfee netfee valid_until [SignerOps.new (sample_account k) WitnessScope.CALLED_BY_ENTRY]
              attrs [OpCode.byte OpCode.RET] [] in
  let message := default [] (sign_data tx (s_network sample_settings)) in
  tx <| witnesses := [mkWitness (Builder.invocation_from_signature (sample_sign (Point.encoded (sample_key k)) message) [])
                        (RedeemScript.signature_redeem_script (Point.encoded (sample_key k)))] |>.
