(* ===== verification/AdmissionFacts.v ===== *)
(** * What admitted transactions guarantee

    A transaction that passes the state-independent half has a valid signature for
    every standard witness; one that passes the state-dependent half is within its
    validity window, pays from a sufficient balance and covers its size,
    attribute and witness fees. *)
From S2P Require Import Prelude Primitives Order Hashing Io EcPoint OpCode Instruction ScriptBuilder SampleKeys.
From S2P Require Import RecordUpdate Multisig Signing SigningFacts Transaction TransactionFacts Admission SampleChain.
#[local] Open Scope N_scope.

Section facts.
Context {Snapshot : Type} `{Crypto} `{Ripemd} `{Curves} `{Ecdsa}.
Context `{!AdmissionLedgerProvider Snapshot} `{!AdmissionNativeProvider Snapshot} `{!AdmissionState Snapshot}.
Implicit Types (tx : Transaction) (snapshot : Snapshot) (settings : ProtocolSettings).

(** ** Signatures *)

(** The witness of an account, when it has one of the two standard forms, is signed
    with the keys the account's script hash stands for. *)
Definition standard_signed (message : bytes) (hash : UInt160.t) (w : Witness) : Prop :=
  let accepted key sig := accepts (λ k s, verify_signature_secp256r1 k message s) key sig in
  (∀ sig, RedeemScript.is_signature_contract (verification_script w) = true →
     signature_from_invocation (invocation_script w) = Some sig →
     hash = from_script (verification_script w) ∧ accepted (slice (verification_script w) 2 33) sig = true) ∧
  (∀ m keys sigs, RedeemScript.is_signature_contract (verification_script w) = false →
     RedeemScript.parse_multi_sig_contract (verification_script w) = Some (m, keys) →
     RedeemScript.parse_multi_sig_invocation (invocation_script w) m = Some sigs →
     hash = from_script (verification_script w) ∧ signed_by accepted keys sigs ∧ len sigs = m).

Lemma multisig_counts w m keys sigs :
  RedeemScript.parse_multi_sig_contract (verification_script w) = Some (m, keys) →
  RedeemScript.parse_multi_sig_invocation (invocation_script w) m = Some sigs →
  1 ≤ m ≤ len keys ∧ len keys ≤ 1024 ∧ len sigs = m.
Proof.
  unfold RedeemScript.parse_multi_sig_contract, RedeemScript.parse_multi_sig_invocation. intros Hc Hi.
  destruct (len (verification_script w) <? 42); [done|].
  apply bind_Some in Hc as ([m' sz] & _ & Hc). destruct (_ && _) eqn:Em in Hc; [|done]. cbn [negb] in Hc.
  apply bind_Some in Hc as ([keys' off] & _ & Hc). destruct (_ || _) eqn:En in Hc; [done|].
  apply bind_Some in Hc as ([nd ns] & _ & Hc). destruct (negb (nd =? len keys')); [done|].
  destruct (_ || _ || _) in Hc; [done|]. injection Hc as <- <-.
  destruct (m' =? 0); [done|]. apply bind_Some in Hi as (sigs' & _ & Hi).
  destruct (N.eqb_spec (len sigs') m') as [Hl|]; [|done]. injection Hi as <-.
  rewrite andb_true_iff, !N.leb_le in Em. rewrite orb_false_iff, !N.ltb_ge in En. lia.
Qed.
Lemma check_standard_sound message hash w : check_standard message hash w = None → standard_signed message hash w.
Proof.
  unfold check_standard. intros Hc. split.
  - intros sig Hs Hi. rewrite Hs, Hi in Hc. case_bool_decide as Hh; [|done]. split; [done|]. cbn in Hc. unfold accepts.
    by destruct (verify_signature_secp256r1 _ _ _) as [[]|].
  - intros m keys sigs Hs Hk Hi. rewrite Hs, Hk, Hi in Hc. case_bool_decide as Hh; [|done]. cbn in Hc.
    destruct (multisig_counts _ _ _ _ Hk Hi) as (Hm & _ & Hl). split; [done|]. split; [|done].
    destruct (fast_path _ keys sigs) eqn:Hf; [|done..]. eapply fast_path_sound; [|exact Hf]. unfold len in *. lia.
Qed.
Lemma check_witnesses_sound message pairs :
  check_witnesses message pairs = VerifyResult.Succeed → Forall (λ p, standard_signed message p.1 p.2) pairs.
Proof.
  induction pairs as [|[hash w] pairs IH]; [constructor|]. cbn. destruct (check_standard message hash w) eqn:E.
  - intros ->. exfalso. revert E. unfold check_standard.
    repeat (case_match; try congruence).
  - intros Hr. constructor; [by apply check_standard_sound | by apply IH].
Qed.

(** (C13) A transaction that passes the state-independent checks has at most 102400
    bytes, a script of well-formed instructions, a witness for every signer, and
    every witness of a standard form is the signer's: the account is the hash of
    its verification script, and the signature, or each of the [m] signatures in
    the order of the keys, verifies over the network number and the hash of the
    transaction. *)
Theorem accepted_signatures_verify tx settings :
  verify_state_independent tx settings = VerifyResult.Succeed →
  Tx.size tx ≤ Tx.MAX_TRANSACTION_SIZE ∧ (∃ offsets, validate_script (script tx) true = Ok offsets) ∧
  ∃ hash, Tx.try_hash tx = Ok hash ∧
    ∀ i signer, signers tx !! i = Some signer → ∃ w, witnesses tx !! i = Some w ∧
      standard_signed (to_le_bytes 4 (s_network settings) ++ UInt256.to_array hash) (account signer) w.
Proof.
  unfold verify_state_independent, sign_data. intros Hv.
  destruct (N.ltb_spec Tx.MAX_TRANSACTION_SIZE (Tx.size tx)); [done|]. split; [done|].
  destruct (validate_script (script tx) true) as [offsets|]; [|done]. split; [by exists offsets|].
  destruct (N.ltb_spec (len (witnesses tx)) (len (accounts tx))) as [|Hl]; [done|].
  destruct (Tx.try_hash tx) as [hash|]; [|done]. exists hash. split; [done|]. intros i s Hs.
  assert (accounts tx !! i = Some (account s)) as Ha by (unfold accounts; by rewrite list_lookup_fmap, Hs).
  destruct (lookup_lt_is_Some_2 (witnesses tx) i) as [w Hw].
  { apply lookup_lt_Some in Ha. unfold len in Hl. lia. }
  exists w. split; [done|]. apply check_witnesses_sound in Hv. rewrite Forall_forall in Hv.
  apply (Hv (account s, w)). apply list_elem_of_lookup. exists i. apply lookup_zip_Some. split; [exact Ha | exact Hw].
Qed.

(** ** Fees and state *)

Lemma wrap_i64_small z : (- 2 ^ 63 ≤ z < 2 ^ 63)%Z → wrap_i64 z = z.
Proof. intros Hz. unfold wrap_i64. rewrite Z.mod_small by lia. lia. Qed.
Lemma saturate_i64_small z : (- 2 ^ 63 ≤ z < 2 ^ 63)%Z → saturate_i64 z = z.
Proof. unfold saturate_i64. lia. Qed.

Lemma check_blocked_none snapshot hashes :
  check_blocked snapshot hashes = None ↔ Forall (λ h, policy_is_blocked snapshot h = Ok false) hashes.
Proof.
  induction hashes as [|h hashes IH]; cbn; [by split|]. rewrite Forall_cons, <- IH.
  destruct (policy_is_blocked snapshot h) as [[]|]; split; try done; try (by intros [? _]). by intros [_ ?].
Qed.
Lemma check_blocked_failure snapshot hashes : check_blocked snapshot hashes ≠ Some VerifyResult.Succeed.
Proof. induction hashes as [|h hashes IH]; cbn; [done|]. by destruct (policy_is_blocked snapshot h) as [[]|]. Qed.

(** The fees of the attributes. *)
Definition attribute_fees snapshot tx (l : list TransactionAttribute) : Z :=
  foldr Z.add 0%Z (attribute_network_fee snapshot tx <$> l).
(** The price of a witness of standard form. *)
Definition standard_cost (w : Witness) : Z :=
  if single_signature w then Costs.signature_contract_cost
  else match multi_signature w with Some (m, n) => Costs.multi_signature_contract_cost m n | None => 0%Z end.
Definition standard_costs (pairs : list (UInt160.t * Witness)) : Z := foldr Z.add 0%Z (standard_cost <$> pairs.*2).

Lemma price_bounds b : (0 ≤ Costs.get_opcode_price b ≤ 32768)%Z.
Proof. destruct b; vm_compute; split; congruence. Qed.
Lemma multi_signature_counts w m n : multi_signature w = Some (m, n) → 1 ≤ m ≤ n ∧ n ≤ 1024.
Proof.
  unfold multi_signature. destruct (RedeemScript.parse_multi_sig_contract _) as [[m' keys]|] eqn:Hk; [|done].
  destruct (RedeemScript.parse_multi_sig_invocation _ _) as [sigs|] eqn:Hi; [|done]. intros [= <- <-].
  destruct (multisig_counts _ _ _ _ Hk Hi) as (? & ? & _). lia.
Qed.
Lemma standard_cost_bounds w : (0 ≤ standard_cost w < 2 ^ 28)%Z.
Proof.
  unfold standard_cost. destruct (single_signature w); [vm_compute; split; congruence|].
  destruct (multi_signature w) as [[m n]|] eqn:E; [|done]. apply multi_signature_counts in E.
  unfold Costs.multi_signature_contract_cost. pose proof (price_bounds (Costs.push_int_opcode m)).
  pose proof (price_bounds (Costs.push_int_opcode n)). pose proof (price_bounds (OpCode.byte OpCode.SYSCALL)).
  change (Costs.get_opcode_price (OpCode.byte OpCode.PUSHDATA1)) with 8%Z. unfold CHECK_SIG_PRICE. lia.
Qed.

(** Policy keeps the fee of an attribute between 0 and 10 GAS. *)
Definition attribute_fees_bounded snapshot : Prop := ∀ ty, (0 ≤ attribute_base_fee snapshot ty ≤ 10 ^ 9)%Z.
Lemma attribute_fee_bounds snapshot tx a :
  attribute_fees_bounded snapshot → len (signers tx) ≤ 16 → attribute_wf a →
  (0 ≤ attribute_network_fee snapshot tx a ≤ 256 * 10 ^ 9)%Z.
Proof.
  intros Hb Hs Ha. specialize (Hb (Attribute.type_id a)). unfold attribute_network_fee.
  set (base := attribute_base_fee snapshot (Attribute.type_id a)) in *. clearbody base.
  destruct a as [| |h|h|n]; try lia; cbn in Ha.
  - rewrite wrap_i64_small by nia. nia.
  - rewrite (wrap_i64_small (Z.of_N n + 1)), wrap_i64_small by nia. nia.
Qed.
(** The engine reports the gas it used. *)
Definition engine_metered snapshot settings : Prop :=
  ∀ tx hash w gas fee, verify_witness tx settings snapshot hash w gas = Ok fee → (0 ≤ fee < 2 ^ 62)%Z.

Lemma check_attributes_verified snapshot settings tx height l fee fee' :
  check_attributes snapshot settings tx height fee l = Some fee' →
  Forall (λ a, verify_attribute snapshot tx a height = true) l.
Proof.
  revert fee. induction l as [|a l IH]; intros fee; cbn [check_attributes]; [constructor|].
  case_match; [done|]. destruct (verify_attribute snapshot tx a height) eqn:Hv; [|done]. cbn [negb].
  intros HF%IH. by constructor.
Qed.
(** The Conflicts attributes of a verified transaction name distinct hashes. *)
Lemma verified_targets_distinct snapshot tx height :
  Forall (λ a, verify_attribute snapshot tx a height = true) (attributes tx) → NoDup (conflict_target_hashes tx).
Proof.
  intros HF. destruct (conflict_target_hashes tx) as [|h hs] eqn:E; [constructor|]. rewrite <- E.
  assert (h ∈ conflict_target_hashes tx) as Hin by (rewrite E; by constructor).
  apply list_elem_of_omap in Hin as (a & Ha & Ea). rewrite Forall_forall in HF. specialize (HF a Ha).
  destruct a; try done. cbn in HF. by case_bool_decide.
Qed.
Lemma check_attributes_exact snapshot settings tx height l fee fee' :
  attribute_fees_bounded snapshot → len (signers tx) ≤ 16 → Forall attribute_wf l →
  (0 ≤ fee)%Z → (fee + 256 * 10 ^ 9 * Z.of_nat (length l) < 2 ^ 62)%Z →
  check_attributes snapshot settings tx height fee l = Some fee' →
  fee' = (fee + attribute_fees snapshot tx l)%Z ∧ (0 ≤ fee' < 2 ^ 62)%Z ∧
  Forall (λ a, verify_attribute snapshot tx a height = true) l.
Proof.
  intros Hb Hs HF. revert fee. induction HF as [|a l Ha _ IH]; intros fee Hfee Hl; cbn [check_attributes].
  { intros [= <-]. unfold attribute_fees. cbn in *. split; [lia|]. split; [lia | constructor]. }
  case_match; [done|]. destruct (verify_attribute snapshot tx a height) eqn:Hv; [|done]. cbn [negb].
  pose proof (attribute_fee_bounds snapshot tx a Hb Hs Ha) as Hba. cbn [length] in Hl. rewrite saturate_i64_small by lia.
  intros (-> & Hr & HF')%IH; [|lia..]. split; [unfold attribute_fees; cbn; lia|]. split; [done | by constructor].
Qed.

Lemma charge_witnesses_covers snapshot settings tx factor pairs net :
  engine_metered snapshot settings → (0 ≤ factor < 2 ^ 32)%Z → (0 ≤ net < 2 ^ 62)%Z →
  charge_witnesses snapshot settings tx factor net pairs = VerifyResult.Succeed → (factor * standard_costs pairs ≤ net)%Z.
Proof.
  intros He Hf. revert net. induction pairs as [|[h w] pairs IH]; intros net Hn; cbn [charge_witnesses].
  { intros _. unfold standard_costs. cbn. lia. }
  pose proof (standard_cost_bounds w) as Hw.
  assert (∀ c, charge_witness snapshot settings tx factor net h w = Ok c → (c ≤ net - factor * standard_cost w)%Z) as Hc.
  { intros c. unfold charge_witness, standard_cost in *. destruct (single_signature w).
    - intros [= <-]. rewrite (wrap_i64_small (factor * _)), wrap_i64_small by nia. lia.
    - destruct (multi_signature w) as [[m n]|].
      + intros [= <-]. rewrite (wrap_i64_small (factor * _)), wrap_i64_small by nia. lia.
      + intros (fee & Hfee & [= <-])%Result_bind_ok. apply He in Hfee. rewrite wrap_i64_small by lia. lia. }
  destruct (charge_witness _ _ _ _ _ _ _) as [c|]; [|done]. specialize (Hc c eq_refl).
  destruct (Z.ltb_spec c 0); [done|]. intros Hr%IH; [|nia]. unfold standard_costs in *. cbn. lia.
Qed.

Lemma check_fees_covers snapshot settings tx height attributes_fee :
  engine_metered snapshot settings → (∀ n, native_fee_per_byte snapshot = Ok n → n < 2 ^ 32) →
  (∀ n, exec_fee_factor snapshot settings height = Ok n → n < 2 ^ 32) →
  (0 ≤ network_fee tx < 2 ^ 63)%Z → Tx.size tx ≤ Tx.MAX_TRANSACTION_SIZE → (0 ≤ attributes_fee < 2 ^ 62)%Z →
  check_fees snapshot settings tx height attributes_fee = VerifyResult.Succeed →
  ∃ per_byte factor, native_fee_per_byte snapshot = Ok per_byte ∧ exec_fee_factor snapshot settings height = Ok factor ∧
    (Z.of_N (Tx.size tx) * Z.of_N per_byte + attributes_fee +
     Z.of_N factor * standard_costs (zip (accounts tx) (witnesses tx)) ≤ network_fee tx)%Z.
Proof.
  intros He Hp Hx Hnf Hsize Ha. unfold check_fees, Tx.MAX_TRANSACTION_SIZE in *.
  destruct (native_fee_per_byte snapshot) as [per|]; [|done]. specialize (Hp per eq_refl).
  rewrite (wrap_i64_small (_ * _)), (wrap_i64_small (network_fee tx - _)), wrap_i64_small by nia.
  set (net := (network_fee tx - _ - _)%Z). destruct (Z.ltb_spec net 0); [done|].
  destruct (exec_fee_factor snapshot settings height) as [factor|]; [|done]. specialize (Hx factor eq_refl).
  case_match; [done|]. intros Hc%charge_witnesses_covers; [|done|lia|unfold Costs.MAX_VERIFICATION_GAS; lia].
  exists per, factor. split; [done|]. split; [done|]. unfold net in *. lia.
Qed.

Lemma state_dependent_funds tx snapshot settings pooled duplicate :
  verify_state_dependent tx snapshot settings pooled duplicate = VerifyResult.Succeed →
  duplicate = false ∧ NoDup (conflict_target_hashes tx) ∧
  ∃ balance, fee_payer_balance snapshot tx = Ok (Some balance) ∧ (system_fee tx + network_fee tx + pooled ≤ balance)%Z.
Proof.
  unfold verify_state_dependent. destruct (current_index snapshot) as [height|]; [|done].
  destruct (max_valid_until_block_increment snapshot settings); [|done]. case_match; [done|]. case_match; [done|].
  destruct (check_blocked snapshot (accounts tx)) eqn:Hbl; [intros ->; by apply check_blocked_failure in Hbl|].
  destruct (fee_payer_balance snapshot tx) as [[balance|]|]; [|done..].
  destruct (Z.ltb_spec balance (system_fee tx + network_fee tx + pooled)); [done|]. destruct duplicate; [done|].
  destruct (check_attributes _ _ _ _ _ _) as [fee|] eqn:Hc; [|done]. intros _.
  split; [done|]. split; [by eapply verified_targets_distinct, check_attributes_verified | by exists balance].
Qed.

(** (C14) A transaction that passes the state-dependent checks is in its validity
    window, none of its signers is blocked, its payer's balance covers its fees on
    top of the fees already pooled, it is not a second response to an oracle
    request, all its attributes verify, and its network fee covers its size, its
    attributes and its standard witnesses at the current prices. The code computes with
    wrapping 64-bit integers; the inequality is over the integers under the hypotheses
    that exclude a wrap: the transaction is well formed and within the size limit, the
    policy's base fee of an attribute is between 0 and 10^9, the fee per byte and the
    execution factor are below 2^32, and a verified witness of the engine costs between
    0 and 2^62. *)
Theorem admitted_transaction_pays tx snapshot settings pooled duplicate :
  transaction_wf tx → Tx.size tx ≤ Tx.MAX_TRANSACTION_SIZE →
  attribute_fees_bounded snapshot → engine_metered snapshot settings →
  (∀ n, native_fee_per_byte snapshot = Ok n → n < 2 ^ 32) →
  (∀ h n, exec_fee_factor snapshot settings h = Ok n → n < 2 ^ 32) →
  verify_state_dependent tx snapshot settings pooled duplicate = VerifyResult.Succeed →
  ∃ height increment balance per_byte factor,
    current_index snapshot = Ok height ∧ max_valid_until_block_increment snapshot settings = Ok increment ∧
    height < valid_until_block tx ≤ height + increment ∧
    Forall (λ a, policy_is_blocked snapshot a = Ok false) (accounts tx) ∧
    fee_payer_balance snapshot tx = Ok (Some balance) ∧ (system_fee tx + network_fee tx + pooled ≤ balance)%Z ∧
    duplicate = false ∧ Forall (λ a, verify_attribute snapshot tx a height = true) (attributes tx) ∧
    native_fee_per_byte snapshot = Ok per_byte ∧ exec_fee_factor snapshot settings height = Ok factor ∧
    (Z.of_N (Tx.size tx) * Z.of_N per_byte + attribute_fees snapshot tx (attributes tx) +
     Z.of_N factor * standard_costs (zip (accounts tx) (witnesses tx)) ≤ network_fee tx)%Z.
Proof.
  intros [_ _ Hfees _ (_ & _ & Hs & _) (Hattr & Hcount & _) _ _] Hsize Hb He Hp Hx Hv.
  unfold verify_state_dependent in Hv. unfold Tx.MAX_TRANSACTION_ATTRIBUTES in *.
  destruct (current_index snapshot) as [height|]; [|done].
  destruct (max_valid_until_block_increment snapshot settings) as [inc|]; [|done].
  destruct (N.leb_spec (valid_until_block tx) height); [done|].
  destruct (N.ltb_spec (saturating_add_u32 height inc) (valid_until_block tx)) as [|Hvub]; [done|].
  destruct (check_blocked snapshot (accounts tx)) eqn:Hbl; [subst; by apply check_blocked_failure in Hbl|].
  destruct (fee_payer_balance snapshot tx) as [[balance|]|]; [|done..].
  destruct (Z.ltb_spec balance (system_fee tx + network_fee tx + pooled)); [done|]. destruct duplicate; [done|].
  destruct (check_attributes _ _ _ _ _ _) as [fee|] eqn:Hc; [|done].
  apply check_attributes_exact in Hc as (-> & Hr & Hva); [|done|done|done|done|unfold len in Hcount; lia].
  destruct (check_fees_covers snapshot settings tx height _ He Hp (Hx height) ltac:(unfold Tx.I64_MAX in Hfees; lia) Hsize Hr Hv)
    as (per & factor & Hper & Hfac & Hle).
  exists height, inc, balance, per, factor. unfold saturating_add_u32 in Hvub.
  split_and!; try done; [lia | by apply check_blocked_none].
Qed.
End facts.

(** ** A sample transaction *)

#[local] Existing Instance checksum_crypto.
#[local] Existing Instance sample_curves.
#[local] Existing Instance sample_ripemd.
#[local] Existing Instance sample_ecdsa.
#[local] Existing Instance sample_ledger.
#[local] Existing Instance sample_native.
#[local] Existing Instance sample_state.

Definition sample_admitted : Transaction := Eval vm_compute in sample_tx 1 7 1000 100000 20 [NotValidBefore 3].
Definition sample_chain : SampleChain := mkChain 10 (λ _, 200000%Z) [].

Lemma sample_admitted_wf : transaction_wf sample_admitted.
Proof.
  eapply (transaction_returns sample_sec1 (Reader.new (transaction_bytes sample_admitted))).
  vm_compute. reflexivity.
Qed.
Lemma sample_attribute_fees : attribute_fees_bounded sample_chain.
Proof. intros ty. unfold attribute_base_fee. cbn. lia. Qed.
Lemma sample_accepted : verify_state_independent sample_admitted sample_settings = VerifyResult.Succeed.
Proof. vm_compute. reflexivity. Qed.
Lemma sample_pays : verify_state_dependent sample_admitted sample_chain sample_settings 500 false = VerifyResult.Succeed.
Proof. vm_compute. reflexivity. Qed.
Lemma accepted_signatures_verify_witness :
  ∃ hash, Tx.try_hash sample_admitted = Ok hash ∧ ∃ w, witnesses sample_admitted !! 0%nat = Some w.
Proof.
  destruct (accepted_signatures_verify sample_admitted sample_settings sample_accepted) as (_ & _ & hash & Hh & Hw).
  destruct (Hw 0%nat _ eq_refl) as (w & Hw0 & _).
  exact (ex_intro _ hash (conj Hh (ex_intro _ w Hw0))).
Defined.
Lemma admitted_transaction_pays_witness :
  ∃ height, current_index sample_chain = Ok height ∧ height < valid_until_block sample_admitted.
Proof.
  destruct (admitted_transaction_pays sample_admitted sample_chain sample_settings 500 false sample_admitted_wf
    ltac:(vm_compute; discriminate) sample_attribute_fees ltac:(done) ltac:(by intros n [= <-]) ltac:(by intros h n [= <-])
    sample_pays) as (height & inc & _ & _ & _ & Hh & _ & Hw & _).
  exact (ex_intro _ height (conj Hh (proj1 Hw))).
Defined.
