(* ===== verification/Mempool.v ===== *)
(** * The transaction memory pool

    src/neo-mempool/src/pool/: pool items and their priority (pool_item.rs), the
    indexed priority queue (pool_index.rs), the bookkeeping of fees, oracle
    responses and conflicts (state.rs) and the operations of the pool
    (memory_pool.rs).  Each operation runs under the write lock of the pool, so it is
    a function of the state.  The clock of [PoolItem::new] is an argument. *)
From S2P Require Import Prelude Primitives Order Hashing Io EcPoint OpCode Instruction ScriptBuilder.
From S2P Require Import RecordUpdate Multisig Signing Transaction Admission.
#[local] Open Scope N_scope.
#[local] Open Scope update_scope.

Inductive TransactionOrigin := External | Local | Private.
Definition should_propagate (o : TransactionOrigin) : bool := match o with Private => false | _ => true end.
Inductive TransactionRemovalReason := NoLongerValid | Conflict.

Record PoolItem := mkItem {
  transaction : Transaction;
  origin : TransactionOrigin;
  timestamp : N;
  last_broadcast_timestamp : N;
}.

(** [bool::cmp]. *)
Definition bool_cmp (a b : bool) : comparison :=
  match a, b with false, true => Lt | true, false => Gt | _, _ => Eq end.

Section pool.
Context `{Crypto} `{Curves}.

(** ** Pool items *)

Definition item_hash (i : PoolItem) : UInt256.t := Tx.hash (transaction i).
Definition is_high (tx : Transaction) : bool := bool_decide (is_Some (Tx.get_attribute AttributeType.HighPriority tx)).
Definition compare_to_transaction (i : PoolItem) (other : Transaction) : comparison :=
  cmp_then (bool_cmp (is_high (transaction i)) (is_high other))
    (cmp_then (Tx.fee_per_byte (transaction i) ?= Tx.fee_per_byte other)%Z
       (cmp_then (network_fee (transaction i) ?= network_fee other)%Z
          (UInt256.cmp (Tx.hash other) (item_hash i)))).
Definition compare_to (i j : PoolItem) : comparison := compare_to_transaction i (transaction j).
Definition item_cmp (i j : PoolItem) : comparison :=
  if bool_decide (item_hash i = item_hash j) then Eq else compare_to i j.

(** ** The index *)

(** A [BTreeSet] of items: ascending, searched with [item_cmp]. *)
Fixpoint set_insert (x : PoolItem) (l : list PoolItem) : list PoolItem :=
  match l with
  | [] => [x]
  | y :: l' =>
      match item_cmp x y with
      | Lt => x :: l
      | Eq => l
      | Gt => y :: set_insert x l'
      end
  end.
Fixpoint set_remove (x : PoolItem) (l : list PoolItem) : list PoolItem :=
  match l with
  | [] => []
  | y :: l' =>
      match item_cmp x y with
      | Lt => l
      | Eq => l'
      | Gt => y :: set_remove x l'
      end
  end.

Record PoolIndex := mkIndex { items : list PoolItem; hashes : gmap UInt256.t PoolItem }.
Definition index_empty : PoolIndex := mkIndex [] ∅.
Definition index_len (p : PoolIndex) : nat := length (items p).
Definition index_is_empty (p : PoolIndex) : bool := bool_decide (items p = []).
Definition index_insert (item : PoolItem) (p : PoolIndex) : PoolIndex :=
  let kept := match hashes p !! item_hash item with Some prev => set_remove prev (items p) | None => items p end in
  mkIndex (set_insert item kept) (<[item_hash item := item]> (hashes p)).
Definition index_remove (h : UInt256.t) (p : PoolIndex) : PoolIndex * option PoolItem :=
  match hashes p !! h with
  | None => (p, None)
  | Some item => (mkIndex (set_remove item (items p)) (delete h (hashes p)), Some item)
  end.
Definition index_get (h : UInt256.t) (p : PoolIndex) : option PoolItem := hashes p !! h.
Definition index_contains (h : UInt256.t) (p : PoolIndex) : bool := bool_decide (is_Some (hashes p !! h)).
(** Highest priority first. *)
Definition to_sorted_vec (p : PoolIndex) : list PoolItem := reverse (items p).
End pool.

(** ** The state *)

Definition NOTARY_HASH : UInt160.t :=
  UInt160.from_array [x3b; xec; x35; x31; x11; x9b; xba; xd7; x6d; xd0; x44; x92; x0b; x0d; xe6; xc3; x19; x4f; xe1; xc1].

Record FeePayer := mkPayer { primary : UInt160.t; secondary : option UInt160.t }.
#[global] Instance FeePayer_eq_dec : EqDecision FeePayer.
Proof. solve_decision. Defined.
#[global] Program Instance FeePayer_countable : Countable FeePayer :=
  inj_countable' (λ p, (primary p, secondary p)) (λ '(a, b), mkPayer a b) _.
Next Obligation. by intros []. Qed.

Definition payer_of (tx : Transaction) : option FeePayer :=
  match signers tx with
  | [] => None
  | [first] => Some (mkPayer (account first) None)
  | first :: second :: _ =>
      Some (mkPayer (account first)
              (if bool_decide (account first = NOTARY_HASH) then Some (account second) else None))
  end.
Definition conflict_author (p : FeePayer) : UInt160.t := default (primary p) (secondary p).

Record TransactionVerificationContext := mkContext { confirmed : gset UInt256.t; historic : gset UInt256.t }.
Definition context_new : TransactionVerificationContext := mkContext ∅ ∅.
Definition confirm (h : UInt256.t) (c : TransactionVerificationContext) : TransactionVerificationContext :=
  mkContext ({[h]} ∪ confirmed c) (historic c).
Definition rotate (c : TransactionVerificationContext) : TransactionVerificationContext :=
  mkContext ∅ (historic c ∪ confirmed c).

Record MemoryPoolInner := mkInner {
  verified : PoolIndex;
  unverified : PoolIndex;
  conflicts : gmap UInt256.t (gset UInt256.t);
  verification_context : TransactionVerificationContext;
  sender_fees : gmap FeePayer Z;
  oracle_responses : gmap N UInt256.t;
}.
#[global] Instance updatable_inner : Updatable MemoryPoolInner := λ g,
  mkInner (verified g) (unverified g) (conflicts g) (verification_context g) (sender_fees g) (oracle_responses g).
#[global] Instance set_verified : Setter verified := ltac:(solve_setter).
#[global] Instance set_unverified : Setter unverified := ltac:(solve_setter).
#[global] Instance set_conflicts : Setter conflicts := ltac:(solve_setter).
#[global] Instance set_verification_context : Setter verification_context := ltac:(solve_setter).
#[global] Instance set_sender_fees : Setter sender_fees := ltac:(solve_setter).
#[global] Instance set_oracle_responses : Setter oracle_responses := ltac:(solve_setter).

Definition pool_new : MemoryPoolInner := mkInner index_empty index_empty ∅ context_new ∅ ∅.
Definition total_count (g : MemoryPoolInner) : nat := index_len (verified g) + index_len (unverified g).

Definition oracle_response_id (tx : Transaction) : option N :=
  head (omap (λ a, match a with OracleResponse id _ _ => Some id | _ => None end) (attributes tx)).
Definition total_fee (tx : Transaction) : Z := (system_fee tx + network_fee tx)%Z.

Section state.
Context `{Crypto} `{Curves} `{HashOrder}.

Definition context_add (tx : Transaction) (g : MemoryPoolInner) : MemoryPoolInner :=
  let g := match oracle_response_id tx with
           | Some id => g <| oracle_responses ::= <[id := Tx.hash tx]> |>
           | None => g
           end in
  match payer_of tx with
  | Some payer => g <| sender_fees ::= λ m, <[payer := (default 0 (m !! payer) + total_fee tx)%Z]> m |>
  | None => g
  end.
Definition context_remove (tx : Transaction) (g : MemoryPoolInner) : MemoryPoolInner :=
  let g := match oracle_response_id tx with
           | Some id => g <| oracle_responses ::= delete id |>
           | None => g
           end in
  match payer_of tx with
  | Some payer =>
      match sender_fees g !! payer with
      | Some total =>
          let total := (total - total_fee tx)%Z in
          if (total <=? 0)%Z then g <| sender_fees ::= delete payer |>
          else g <| sender_fees ::= <[payer := total]> |>
      | None => g
      end
  | None => g
  end.

(** [conflicts.retain(|_, set| { set.remove(hash); !set.is_empty() })]. *)
Definition forget_conflicts (h : UInt256.t) (g : MemoryPoolInner) : MemoryPoolInner :=
  g <| conflicts ::= omap (λ set : gset UInt256.t, let set := set ∖ {[h]} in
                             if bool_decide (set = ∅) then None else Some set) |>.
(** Drops a verified transaction with its bookkeeping, as every call site does. *)
Definition drop_verified (h : UInt256.t) (g : MemoryPoolInner) : MemoryPoolInner * option Transaction :=
  match index_remove h (verified g) with
  | (_, None) => (g, None)
  | (index, Some item) =>
      (forget_conflicts h (context_remove (transaction item) (g <| verified := index |>)), Some (transaction item))
  end.

(** Step 1 of [check_conflicts]: pooled transactions that name [tx]. *)
Fixpoint naming (g : MemoryPoolInner) (author : option UInt160.t) (hs : list UInt256.t) (acc : list PoolItem * Z) :
    list PoolItem * Z :=
  match hs with
  | [] => acc
  | h :: hs =>
      match index_get h (verified g) with
      | None => naming g author hs acc
      | Some pooled =>
          let shares := match author with
                        | Some a => existsb (λ s, bool_decide (account s = a)) (signers (transaction pooled))
                        | None => false
                        end in
          let sum := if shares then saturate_i64 (acc.2 + network_fee (transaction pooled)) else acc.2 in
          naming g author hs (acc.1 ++ [pooled], sum)
      end
  end.
(** Step 2: pooled transactions that [tx] names; they must share a signer with it. *)
Fixpoint named (g : MemoryPoolInner) (tx : Transaction) (hs : list UInt256.t) (acc : list PoolItem * Z) :
    option (list PoolItem * Z) :=
  match hs with
  | [] => Some acc
  | h :: hs =>
      match index_get h (verified g) with
      | None => named g tx hs acc
      | Some pooled =>
          if forallb (λ a, bool_decide (a ∉ accounts (transaction pooled))) (accounts tx) then None
          else named g tx hs (acc.1 ++ [pooled], saturate_i64 (acc.2 + network_fee (transaction pooled)))
      end
  end.
Definition check_conflicts (g : MemoryPoolInner) (tx : Transaction) : option (list PoolItem) :=
  let author := conflict_author <$> payer_of tx in
  let acc := naming g author (iter_set (default ∅ (conflicts g !! Tx.hash tx))) ([], 0%Z) in
  match named g tx (conflict_target_hashes tx) acc with
  | None => None
  | Some (list, sum) => if (negb (sum =? 0) && (network_fee tx <=? sum))%Z then None else Some list
  end.

(** Evicts the transaction of lowest priority, an unverified one on a tie. *)
Definition remove_lowest_fee (g : MemoryPoolInner) : MemoryPoolInner * option Transaction :=
  let from_unverified u := (g <| unverified := (index_remove (item_hash u) (unverified g)).1 |>, Some (transaction u)) in
  let from_verified v :=
    let g := g <| verified := (index_remove (item_hash v) (verified g)).1 |> in
    (forget_conflicts (item_hash v) (context_remove (transaction v) g), Some (transaction v)) in
  match head (items (verified g)), head (items (unverified g)) with
  | Some v, Some u => match compare_to v u with Lt => from_verified v | _ => from_unverified u end
  | None, Some u => from_unverified u
  | Some v, None => from_verified v
  | None, None => (g, None)
  end.
(** The loop of [insert_validated]; [fuel] bounds its iterations. *)
Fixpoint remove_over_capacity (fuel capacity : nat) (h : UInt256.t) (retained : bool) (g : MemoryPoolInner) :
    option (MemoryPoolInner * bool) :=
  if (capacity <? total_count g)%nat then
    match fuel with
    | O => None
    | S fuel =>
        match remove_lowest_fee g with
        | (g, None) => Some (g, retained)
        | (g, Some dropped) =>
            remove_over_capacity fuel capacity h (if bool_decide (Tx.hash dropped = h) then false else retained) g
        end
    end
  else Some (g, retained).

(** Drops the conflicts of an admitted transaction. *)
Definition drop_conflicts (l : list PoolItem) (g : MemoryPoolInner) : MemoryPoolInner :=
  foldl (λ g c, (drop_verified (item_hash c) g).1) g l.
(** [conflicts.entry(target).or_default().insert(hash)] for every target. *)
Definition record_conflicts (h : UInt256.t) (targets : list UInt256.t) (g : MemoryPoolInner) : MemoryPoolInner :=
  foldl (λ g target, g <| conflicts ::= λ m, <[target := {[h]} ∪ default ∅ (m !! target)]> m |>) g targets.
(** Inserts a verified transaction in place of its conflicts. *)
Definition insert_verified (item : PoolItem) (h : UInt256.t) (l : list PoolItem) (g : MemoryPoolInner) : MemoryPoolInner :=
  let g := g <| verified ::= index_insert item |> in
  let g := context_add (transaction item) g in
  let g := drop_conflicts l g in
  record_conflicts h (conflict_target_hashes (transaction item)) g.
Definition insert_validated (item : PoolItem) (h : UInt256.t) (l : list PoolItem) (capacity : nat) (g : MemoryPoolInner) :
    option (MemoryPoolInner * bool) :=
  let g := insert_verified item h l g in
  remove_over_capacity (total_count g) capacity h true g.

Definition conflict_rebate (l : list PoolItem) (payer : option FeePayer) : Z :=
  foldr Z.add 0%Z (total_fee ∘ transaction <$>
    filter (λ c, is_Some payer ∧ payer_of (transaction c) = payer) l).

(** ** The operations of the pool *)

Definition contains (h : UInt256.t) (g : MemoryPoolInner) : bool :=
  index_contains h (verified g) || index_contains h (unverified g).
Definition get (h : UInt256.t) (g : MemoryPoolInner) : option PoolItem :=
  match index_get h (verified g) with Some i => Some i | None => index_get h (unverified g) end.
Definition verified_snapshot (g : MemoryPoolInner) : list PoolItem := to_sorted_vec (verified g).
Definition unverified_snapshot (g : MemoryPoolInner) : list PoolItem := to_sorted_vec (unverified g).

(** Part 1 of [update_pool_for_block_persisted], one mined transaction: the pool,
    the signers that named each hash, and the hashes persisted so far. *)
Definition Persisting : Type := MemoryPoolInner * gmap UInt256.t (list UInt160.t) * gset UInt256.t.
Definition remove_mined (h : UInt256.t) (g : MemoryPoolInner) : MemoryPoolInner :=
  match drop_verified h g with
  | (g, Some _) => g
  | (_, None) =>
      match index_remove h (unverified g) with
      | (index, Some item) => context_remove (transaction item) (g <| unverified := index |>)
      | (_, None) => g
      end
  end.
Definition persist_one (st : Persisting) (tx : Transaction) : Persisting :=
  let '(g, named, persisted) := st in
  match Tx.try_hash tx with
  | Err _ => st
  | Ok h =>
      (remove_mined h (g <| verification_context ::= confirm h |>),
       foldl (λ m target, <[target := default [] (m !! target) ++ accounts tx]> m) named (conflict_target_hashes tx),
       {[h]} ∪ persisted)
  end.
(** Part 2: the verified transactions that conflict with the block. *)
Definition conflicts_with_block (named : gmap UInt256.t (list UInt160.t)) (persisted : gset UInt256.t) (h : UInt256.t)
    (tx : Transaction) : bool :=
  existsb (λ a, bool_decide (a ∈ accounts tx)) (default [] (named !! h)) ||
  existsb (λ target, bool_decide (target ∈ persisted)) (conflict_target_hashes tx).
Definition evict_one (named : gmap UInt256.t (list UInt160.t)) (persisted : gset UInt256.t)
    (st : MemoryPoolInner * list (Transaction * TransactionRemovalReason)) (item : PoolItem) :
    MemoryPoolInner * list (Transaction * TransactionRemovalReason) :=
  match Tx.try_hash (transaction item) with
  | Err _ => st
  | Ok h =>
      if conflicts_with_block named persisted h (transaction item) then
        match drop_verified h st.1 with
        | (g, Some tx) => (g, st.2 ++ [(tx, Conflict)])
        | (_, None) => st
        end
      else st
  end.
(** Part 3: what is left goes back to the unverified queue. *)
Definition invalidate_verified (g : MemoryPoolInner) : MemoryPoolInner :=
  mkInner index_empty (foldl (λ index item, index_insert item index) (unverified g) (items (verified g)))
    ∅ context_new ∅ ∅.
Definition update_pool_for_block_persisted (block_txs : list Transaction) (g : MemoryPoolInner) :
    MemoryPoolInner * list (Transaction * TransactionRemovalReason) :=
  if index_is_empty (verified g) && index_is_empty (unverified g) then (g, [])
  else
    let '(g, named, persisted) := foldl persist_one (g, ∅, ∅) block_txs in
    let '(g, removed) := foldl (evict_one named persisted) (g, []) (items (verified g)) in
    (invalidate_verified g, removed).

Definition drop_unverified (h : UInt256.t) (g : MemoryPoolInner) : MemoryPoolInner * option Transaction :=
  match index_remove h (unverified g) with
  | (_, None) => (g, None)
  | (index, Some item) => (context_remove (transaction item) (g <| unverified := index |>), Some (transaction item))
  end.
Definition as_removal (o : option Transaction) : list (Transaction * TransactionRemovalReason) :=
  match o with Some tx => [(tx, NoLongerValid)] | None => [] end.
Definition commit_one (st : MemoryPoolInner * list (Transaction * TransactionRemovalReason)) (h : UInt256.t) :
    MemoryPoolInner * list (Transaction * TransactionRemovalReason) :=
  let g := st.1 <| verification_context ::= confirm h |> in
  let '(g, removed) := drop_verified h g in
  let '(g, removed') := drop_unverified h g in
  (g, st.2 ++ as_removal removed ++ as_removal removed').
Definition commit_block (hs : list UInt256.t) (g : MemoryPoolInner) :
    MemoryPoolInner * list (Transaction * TransactionRemovalReason) := foldl commit_one (g, []) hs.

Definition reverify_one (verifier : Transaction → VerifyResult.t)
    (st : MemoryPoolInner * list (Transaction * TransactionRemovalReason)) (item : PoolItem) :
    MemoryPoolInner * list (Transaction * TransactionRemovalReason) :=
  let g := st.1 <| unverified ::= λ p, (index_remove (item_hash item) p).1 |> in
  if VerifyResult.is_success (verifier (transaction item)) then (g <| verified ::= index_insert item |>, st.2)
  else (context_remove (transaction item) g, st.2 ++ [(transaction item, NoLongerValid)]).
Definition reverify (verifier : Transaction → VerifyResult.t) (g : MemoryPoolInner) :
    MemoryPoolInner * list (Transaction * TransactionRemovalReason) :=
  foldl (reverify_one verifier) (g, []) (items (unverified g)).

Definition remove (h : UInt256.t) (g : MemoryPoolInner) : MemoryPoolInner :=
  let clean tx g := context_remove tx g <| conflicts ::= λ m, (λ set, set ∖ {[h]}) <$> delete h m |> in
  match index_remove h (verified g) with
  | (index, Some item) => clean (transaction item) (g <| verified := index |>)
  | (_, None) =>
      match index_remove h (unverified g) with
      | (index, Some item) => clean (transaction item) (g <| unverified := index |>)
      | (_, None) => g
      end
  end.

(** The fee context a transaction is verified in: the fees pooled for its payer
    without those of the conflicts it replaces, and whether its oracle request is
    answered already. *)
Definition effective_pooled_fee (g : MemoryPoolInner) (tx : Transaction) (l : list PoolItem) : Z :=
  (default 0 (p ← payer_of tx; sender_fees g !! p) - conflict_rebate l (payer_of tx))%Z.
Definition oracle_duplicate (g : MemoryPoolInner) (tx : Transaction) : bool :=
  match oracle_response_id tx with
  | Some id => bool_decide (is_Some (oracle_responses g !! id))
  | None => false
  end.
End state.

Inductive TransactionAdmissionError := InvalidHash | ProviderRead (operation : string).
Inductive TransactionAdmissionOutcome :=
| Accepted (hash : UInt256.t) (origin : TransactionOrigin)
| Rejected (hash : option UInt256.t) (origin : TransactionOrigin) (result : VerifyResult.t)
| Error (hash : option UInt256.t) (origin : TransactionOrigin) (error : TransactionAdmissionError).
Definition verify_result (o : TransactionAdmissionOutcome) : VerifyResult.t :=
  match o with
  | Accepted _ _ => VerifyResult.Succeed
  | Rejected _ _ result => result
  | Error _ _ _ => VerifyResult.UnableToVerify
  end.

Section admission.
Context {Snapshot : Type} `{Crypto} `{Ripemd} `{Curves} `{Ecdsa} `{HashOrder}.
Context `{!AdmissionNativeProvider Snapshot} `{!AdmissionState Snapshot}.
(** The ledger of the native contract, and the one admission is given. *)
Context (native_ledger ledger : AdmissionLedgerProvider Snapshot).
Context (settings : ProtocolSettings) (capacity : nat).

(** One item of [reverify_top_unverified]. *)
Definition reverify_item (snapshot : Snapshot) (g : MemoryPoolInner) (item : PoolItem) : MemoryPoolInner :=
  let h := item_hash item in
  let tx := transaction item in
  if negb (index_contains h (unverified g)) then g
  else
    let reject := context_remove tx (g <| unverified ::= λ p, (index_remove h p).1 |>) in
    match check_conflicts g tx with
    | None => reject
    | Some l =>
        let result := verify_transaction (AdmissionLedgerProvider0 := native_ledger) tx snapshot settings
                        (effective_pooled_fee g tx l) (oracle_duplicate g tx) in
        if negb (bool_decide (result = VerifyResult.Succeed)) then reject
        else insert_verified item h l (g <| unverified ::= λ p, (index_remove h p).1 |>)
    end.
Definition reverify_top_unverified (snapshot : Snapshot) (max_count : nat) (g : MemoryPoolInner) : MemoryPoolInner * bool :=
  let g := foldl (reverify_item snapshot) g (take max_count (unverified_snapshot g)) in
  (g, negb (index_is_empty (unverified g))).

(** What [add_transaction] does under the lock; [None] if the eviction loop does not end. *)
Definition admit_locked (origin : TransactionOrigin) (tx : Transaction) (h : UInt256.t) (now now' : N) (snapshot : Snapshot)
    (g : MemoryPoolInner) : option (MemoryPoolInner * TransactionAdmissionOutcome) :=
  if contains h g then Some (g, Rejected (Some h) origin VerifyResult.AlreadyInPool)
  else
    match check_conflicts g tx with
    | None => Some (g, Rejected (Some h) origin VerifyResult.HasConflicts)
    | Some l =>
        let result := verify_state_dependent (AdmissionLedgerProvider0 := ledger) tx snapshot settings
                        (effective_pooled_fee g tx l) (oracle_duplicate g tx) in
        if negb (bool_decide (result = VerifyResult.Succeed)) then Some (g, Rejected (Some h) origin result)
        else
          '(g, retained) ← insert_validated (mkItem tx origin now now') h l capacity g;
          Some (g, if retained : bool then Accepted h origin else Rejected (Some h) origin VerifyResult.OutOfMemory)
    end.
Definition add_transaction (origin : TransactionOrigin) (tx : Transaction) (now now' : N) (snapshot : Snapshot)
    (g : MemoryPoolInner) : option (MemoryPoolInner * TransactionAdmissionOutcome) :=
  let result := verify_state_independent tx settings in
  if negb (bool_decide (result = VerifyResult.Succeed)) then
    Some (g, Rejected (match Tx.try_hash tx with Ok h => Some h | Err _ => None end) origin result)
  else
    match Tx.try_hash tx with
    | Err _ => Some (g, Error None origin InvalidHash)
    | Ok h =>
        match contains_transaction (AdmissionLedgerProvider := ledger) snapshot h with
        | Err _ => Some (g, Error (Some h) origin (ProviderRead "contains_transaction"))
        | Ok true => Some (g, Rejected (Some h) origin VerifyResult.AlreadyExists)
        | Ok false =>
            match max_traceable_blocks snapshot settings with
            | Err _ => Some (g, Error (Some h) origin (ProviderRead "max_traceable_blocks"))
            | Ok max_traceable =>
                match contains_conflict_hash (AdmissionLedgerProvider := ledger) snapshot h (accounts tx) max_traceable with
                | Err _ => Some (g, Error (Some h) origin (ProviderRead "contains_conflict_hash"))
                | Ok true => Some (g, Rejected (Some h) origin VerifyResult.HasConflicts)
                | Ok false => admit_locked origin tx h now now' snapshot g
                end
            end
        end
    end.
End admission.
