(* ===== verification/MempoolIndex.v ===== *)
(** * The priority order and the indexed queue

    The priority of pool items is a strict total order on transactions with distinct
    hashes, and the index keeps its sorted set and its hash map in agreement. *)
From S2P Require Import Prelude Primitives Order Hashing Io EcPoint Signing Transaction Admission Mempool.

(** ** Lexicographic comparisons *)

Section comparison.
Context {A : Type}.
Record good_cmp (c : A → A → comparison) : Prop := {
  good_opp a b : c b a = CompOpp (c a b);
  good_trans a b d : c a b = Lt → c b d = Lt → c a d = Lt;
  good_eq a b d : c a b = Eq → c a d = c b d;
}.
Lemma good_then c1 c2 : good_cmp c1 → good_cmp c2 → good_cmp (λ a b, cmp_then (c1 a b) (c2 a b)).
Proof.
  intros G1 G2. split.
  - intros a b. by rewrite cmp_then_opp, (good_opp _ G1), (good_opp _ G2).
  - intros a b d. rewrite !cmp_then_Lt. intros [H1|[H1 H2]] [H3|[H3 H4]].
    + left. by eapply good_trans.
    + left. rewrite (good_opp _ G1 d a), (good_eq _ G1 d b a) by (by rewrite (good_opp _ G1 b d), H3).
      by rewrite (good_opp _ G1 a b), H1.
    + left. by rewrite (good_eq _ G1 a b d).
    + right. split; [by rewrite (good_eq _ G1 a b d) | by eapply good_trans].
  - intros a b d. rewrite cmp_then_Eq. intros [H1 H2]. by rewrite (good_eq _ G1 a b d), (good_eq _ G2 a b d).
Qed.
Lemma good_flip c : good_cmp c → good_cmp (λ a b, c b a).
Proof.
  intros G. split.
  - intros a b. apply (good_opp _ G).
  - intros a b d H1 H2. by eapply (good_trans _ G).
  - intros a b d H1. rewrite (good_opp _ G a d), (good_opp _ G b d). f_equal. apply (good_eq _ G).
    by rewrite (good_opp _ G), H1.
Qed.
Lemma good_N (f : A → N) : good_cmp (λ a b, f a ?= f b)%N.
Proof.
  split.
  - intros a b. apply N.compare_antisym.
  - intros a b d. rewrite !N.compare_lt_iff. lia.
  - intros a b d E%N.compare_eq_iff. by rewrite E.
Qed.
Lemma good_Z (f : A → Z) : good_cmp (λ a b, f a ?= f b)%Z.
Proof.
  split.
  - intros a b. apply Z.compare_antisym.
  - intros a b d. rewrite !Z.compare_lt_iff. lia.
  - intros a b d E%Z.compare_eq_iff. by rewrite E.
Qed.
Lemma good_bool (f : A → bool) : good_cmp (λ a b, bool_cmp (f a) (f b)).
Proof. split; [intros a b | intros a b d | intros a b d]; by destruct (f a), (f b); try destruct (f d). Qed.
Lemma good_refl c a : good_cmp c → c a a = Eq.
Proof. intros G. pose proof (good_opp _ G a a) as E. by destruct (c a a). Qed.
End comparison.

Lemma good_uint256 {A} (f : A → UInt256.t) : good_cmp (λ a b, UInt256.cmp (f a) (f b)).
Proof. unfold UInt256.cmp. repeat apply good_then; try apply good_N. split; [done | done | done]. Qed.
Lemma uint256_cmp_eq a b : UInt256.cmp a b = Eq → a = b.
Proof.
  unfold UInt256.cmp. rewrite !cmp_then_Eq, !N.compare_eq_iff. destruct a, b. cbn. intros (-> & -> & -> & -> & _). done.
Qed.

(** ** Priority *)

Section priority.
Context `{Crypto} `{Curves}.
Implicit Types (i j k x y : PoolItem) (l : list PoolItem).

Lemma good_priority : good_cmp compare_to.
Proof.
  unfold compare_to, compare_to_transaction. apply good_then; [apply good_bool|].
  apply good_then; [apply good_Z|]. apply good_then; [apply good_Z|].
  apply (good_flip (λ i j, UInt256.cmp (item_hash i) (item_hash j))), good_uint256.
Qed.
(** Lower priority. *)
Definition below i j : Prop := compare_to i j = Lt.
Lemma below_trans i j k : below i j → below j k → below i k.
Proof. apply (good_trans _ good_priority). Qed.
Lemma below_irrefl i : ¬ below i i.
Proof. unfold below. by rewrite (good_refl _ _ good_priority). Qed.
Lemma compare_eq_hash i j : compare_to i j = Eq → item_hash i = item_hash j.
Proof.
  unfold compare_to, compare_to_transaction. rewrite !cmp_then_Eq. intros (_ & _ & _ & E). symmetry. by apply uint256_cmp_eq.
Qed.
Lemma below_total i j : item_hash i ≠ item_hash j → below i j ∨ below j i.
Proof.
  intros Hne. unfold below. rewrite (good_opp _ good_priority i j). destruct (compare_to i j) eqn:E; [|by left|by right].
  by apply compare_eq_hash in E.
Qed.
Lemma item_cmp_ne i j : item_hash i ≠ item_hash j → item_cmp i j = compare_to i j.
Proof. intros Hne. unfold item_cmp. by rewrite bool_decide_false. Qed.
Lemma item_cmp_above i j : item_hash i ≠ item_hash j → below j i → item_cmp i j = Gt.
Proof. intros Hne Hb. rewrite item_cmp_ne by done. by rewrite (good_opp _ good_priority j i), Hb. Qed.

(** ** The sorted set *)

Lemma set_insert_perm x l : (∀ y, y ∈ l → item_hash x ≠ item_hash y) → set_insert x l ≡ₚ x :: l.
Proof.
  induction l as [|y l IH]; intros Hf; [done|]. cbn. assert (item_hash x ≠ item_hash y) as Hne by (apply Hf; by constructor).
  rewrite item_cmp_ne by done. destruct (compare_to x y) eqn:E; [by apply compare_eq_hash in E|done|].
  rewrite IH; [apply Permutation_swap|]. intros z Hz. apply Hf. by constructor.
Qed.
Lemma set_insert_sorted x l :
  StronglySorted below l → (∀ y, y ∈ l → item_hash x ≠ item_hash y) → StronglySorted below (set_insert x l).
Proof.
  induction l as [|y l IH]; intros Hs Hf; [by repeat constructor|]. cbn. apply StronglySorted_inv in Hs as [Hs Hy].
  assert (item_hash x ≠ item_hash y) as Hne by (apply Hf; by constructor).
  assert (∀ z, z ∈ l → item_hash x ≠ item_hash z) as Hf' by (intros z Hz; apply Hf; by constructor).
  rewrite item_cmp_ne by done. destruct (compare_to x y) eqn:E; [by apply compare_eq_hash in E|..].
  - constructor; [by constructor|]. constructor; [done|]. eapply Forall_impl; [exact Hy|]. intros z. by apply below_trans.
  - constructor; [by apply IH|]. rewrite set_insert_perm by done. constructor; [|done].
    unfold below. by rewrite (good_opp _ good_priority x y), E.
Qed.
Lemma set_remove_perm x l :
  StronglySorted below l → x ∈ l → (∀ y, y ∈ l → item_hash y = item_hash x → y = x) →
  l ≡ₚ x :: set_remove x l ∧ StronglySorted below (set_remove x l).
Proof.
  induction l as [|y l IH]; intros Hs Hx Hk; [by apply elem_of_nil in Hx|]. cbn.
  apply StronglySorted_inv in Hs as [Hs Hy]. destruct (decide (item_hash y = item_hash x)) as [E|Hne].
  - assert (y = x) as -> by (apply Hk; [by constructor | done]). unfold item_cmp. by rewrite bool_decide_true.
  - apply elem_of_cons in Hx as [->|Hx]; [done|]. rewrite Forall_forall in Hy.
    rewrite item_cmp_above by (auto || by apply Hy).
    destruct IH as [Hp Hs']; [done..| |]. { intros z Hz. apply Hk. by constructor. }
    split; [rewrite Hp at 1; apply Permutation_swap|]. constructor; [done|].
    apply Forall_forall. intros z Hz. apply Hy. rewrite Hp. by constructor.
Qed.
End priority.

(** ** The index *)

Section index.
Context `{Crypto} `{Curves}.
Implicit Types (p : PoolIndex) (i : PoolItem) (h : UInt256.t).

Record index_ok p : Prop := {
  ok_sorted : StronglySorted below (items p);
  ok_keyed h i : hashes p !! h = Some i ↔ item_hash i = h ∧ i ∈ items p;
}.
Lemma index_empty_ok : index_ok index_empty.
Proof. split; [constructor|]. intros h i. cbn [hashes items index_empty]. rewrite lookup_empty. split; [done|]. by intros [_ ?%elem_of_nil]. Qed.
Lemma ok_hash p h i : index_ok p → hashes p !! h = Some i → item_hash i = h.
Proof. intros Hp Hi. by apply (ok_keyed _ Hp) in Hi as [? _]. Qed.
Lemma ok_lookup p i : index_ok p → i ∈ items p → hashes p !! item_hash i = Some i.
Proof. intros Hp Hi. by apply (ok_keyed _ Hp). Qed.
Lemma ok_fresh p h : index_ok p → hashes p !! h = None → ∀ i, i ∈ items p → h ≠ item_hash i.
Proof. intros Hp Hn i Hi ->. rewrite (ok_lookup _ _ Hp Hi) in Hn. done. Qed.
Lemma ok_unique p i j : index_ok p → i ∈ items p → j ∈ items p → item_hash i = item_hash j → i = j.
Proof. intros Hp Hi%ok_lookup Hj%ok_lookup E; [|done..]. rewrite E in Hi. congruence. Qed.
Lemma ok_items_nodup p : index_ok p → NoDup (items p).
Proof.
  intros [Hs _]. induction Hs as [|i l Hs IH Hf]; constructor; [|done]. rewrite Forall_forall in Hf.
  intros Hi. by apply Hf, below_irrefl in Hi.
Qed.
Lemma ok_items p : index_ok p → items p ≡ₚ (map_to_list (hashes p)).*2.
Proof.
  intros Hp. apply NoDup_Permutation; [by apply ok_items_nodup| |].
  - apply NoDup_fmap_2_strong; [|apply NoDup_map_to_list]. intros [h i] [h' j]. rewrite !elem_of_map_to_list.
    intros H1%(ok_hash _ _ _ Hp) H2%(ok_hash _ _ _ Hp) E. cbn in E. congruence.
  - intros i. rewrite list_elem_of_fmap. split.
    + intros Hi. exists (item_hash i, i). split; [done|]. by apply elem_of_map_to_list, ok_lookup.
    + intros ([h j] & -> & Hj%elem_of_map_to_list). by apply (ok_keyed _ Hp) in Hj as [_ ?].
Qed.
Lemma ok_len p : index_ok p → index_len p = size (hashes p).
Proof. intros Hp. unfold index_len. by rewrite (ok_items p Hp), length_fmap, length_map_to_list. Qed.

Lemma index_remove_none h p : hashes p !! h = None → index_remove h p = (p, None).
Proof. intros Hn. unfold index_remove. by rewrite Hn. Qed.
Lemma index_remove_ok h p : index_ok p → index_ok (index_remove h p).1.
Proof.
  intros Hp. unfold index_remove. destruct (hashes p !! h) as [i|] eqn:E; [|done].
  apply (ok_keyed _ Hp) in E as [<- Hi].
  destruct (set_remove_perm i (items p)) as [Hperm Hs]; [apply Hp|done|intros y Hy; by apply (ok_unique p)|].
  set (rest := set_remove i (items p)) in *. clearbody rest.
  split; [done|]. intros h j. cbn [hashes items fst]. pose proof (ok_items_nodup _ Hp) as Hnd. rewrite Hperm in Hnd.
  apply NoDup_cons in Hnd as [Hni _]. rewrite lookup_delete_Some, (ok_keyed _ Hp), Hperm, elem_of_cons. split.
  - intros (Hne & <- & [->|Hj]); done.
  - intros [<- Hj]. split; [|by split; [|right]]. intros E. apply Hni. replace i with j; [done|].
    apply (ok_unique p); [done| |done|done]. rewrite Hperm. by right.
Qed.
Lemma index_remove_hashes h p : hashes (index_remove h p).1 = delete h (hashes p).
Proof.
  unfold index_remove. destruct (hashes p !! h) as [i|] eqn:E; [done|]. cbn. symmetry. by apply delete_id.
Qed.
Lemma index_remove_item h p : (index_remove h p).2 = hashes p !! h.
Proof. unfold index_remove. by destruct (hashes p !! h). Qed.
Lemma index_insert_hashes i p : hashes (index_insert i p) = <[item_hash i := i]> (hashes p).
Proof. done. Qed.
Lemma index_insert_ok i p : index_ok p → index_ok (index_insert i p).
Proof.
  intros Hp. pose proof (index_remove_ok (item_hash i) p Hp) as Hr.
  assert (index_insert i p = mkIndex (set_insert i (items (index_remove (item_hash i) p).1)) (<[item_hash i := i]> (hashes p))) as ->.
  { unfold index_insert, index_remove. by destruct (hashes p !! item_hash i). }
  set (q := (index_remove (item_hash i) p).1) in *.
  assert (hashes q !! item_hash i = None) as Hn by (unfold q; rewrite index_remove_hashes; apply lookup_delete_eq).
  pose proof (ok_fresh _ _ Hr Hn) as Hf. split; [apply set_insert_sorted; [apply Hr | done]|].
  intros h j. cbn [hashes items]. rewrite set_insert_perm by done. rewrite elem_of_cons.
  assert (<[item_hash i := i]> (hashes p) = <[item_hash i := i]> (hashes q)) as ->.
  { unfold q. by rewrite index_remove_hashes, insert_delete_eq. }
  rewrite lookup_insert_Some, (ok_keyed _ Hr). split.
  - intros [[<- <-]|(_ & <- & Hj)]; [by split; [|left] | by split; [|right]].
  - intros [<- [->|Hj]]; [by left | right]. split; [by apply Hf | done].
Qed.
Lemma index_insert_len i p : index_ok p → hashes p !! item_hash i = None → index_len (index_insert i p) = S (index_len p).
Proof.
  intros Hp Hn. rewrite !ok_len by (done || by apply index_insert_ok). cbn [index_insert hashes]. by apply map_size_insert_None.
Qed.
Lemma index_remove_len h p i : index_ok p → hashes p !! h = Some i → S (index_len (index_remove h p).1) = index_len p.
Proof.
  intros Hp Hi. rewrite !ok_len by (done || by apply index_remove_ok). rewrite index_remove_hashes, map_size_delete, Hi.
  assert (hashes p ≠ ∅) as Hne by (intros E; by rewrite E in Hi). apply map_size_non_empty_iff in Hne. lia.
Qed.
Lemma index_remove_len_le h p : index_ok p → index_len (index_remove h p).1 ≤ index_len p.
Proof.
  intros Hp. destruct (hashes p !! h) as [i|] eqn:E; [pose proof (index_remove_len _ _ _ Hp E); lia|].
  by rewrite index_remove_none.
Qed.
Lemma snapshot_sorted p : index_ok p → StronglySorted (flip below) (to_sorted_vec p).
Proof.
  intros [Hs _]. unfold to_sorted_vec. induction Hs as [|i l Hs IH Hf]; [constructor|].
  rewrite reverse_cons. apply StronglySorted_app_2; [|done|by repeat constructor].
  intros x y Hx Hy%list_elem_of_singleton. subst y. rewrite elem_of_reverse in Hx. rewrite Forall_forall in Hf. exact (Hf _ Hx).
Qed.
Lemma lowest_head p i : index_ok p → head (items p) = Some i → i ∈ items p ∧ ∀ j, j ∈ items p → j = i ∨ below i j.
Proof.
  intros [Hs _] Hh. destruct (items p) as [|x l]; [done|]. injection Hh as ->. split; [by constructor|].
  apply StronglySorted_inv in Hs as [_ Hf]. rewrite Forall_forall in Hf. intros j [->|Hj]%elem_of_cons; [by left | right; exact (Hf _ Hj)].
Qed.
End index.
