(* ===== verification/MempoolFacts.v ===== *)
(** * The operations of the pool on its queues

    What every operation does to the two queues, and the eviction loop: it ends, and
    it keeps the transactions of highest priority. *)
From S2P Require Import Prelude Primitives Order Hashing Io EcPoint RecordUpdate Signing Transaction Admission Mempool MempoolIndex.
#[local] Open Scope update_scope.

Section queues.
Context {crypto : Crypto} {curves : Curves} {order : HashOrder}.
Implicit Types (g : MemoryPoolInner) (tx : Transaction) (h : UInt256.t) (i j d : PoolItem) (l : list PoolItem).

Abbreviation vmap g := (hashes (verified g)).
Abbreviation umap g := (hashes (unverified g)).

Record queues_ok g : Prop := {
  q_verified : index_ok (verified g);
  q_unverified : index_ok (unverified g);
  q_disjoint : vmap g ##ₘ umap g;
}.
(** [i] is in one of the queues. *)
Definition pooled g i : Prop := vmap g !! item_hash i = Some i ∨ umap g !! item_hash i = Some i.

(** ** Bookkeeping does not touch the queues *)

Lemma context_add_queues tx g : verified (context_add tx g) = verified g ∧ unverified (context_add tx g) = unverified g.
Proof. unfold context_add. by destruct (oracle_response_id tx), (payer_of tx). Qed.
Lemma context_remove_queues tx g :
  verified (context_remove tx g) = verified g ∧ unverified (context_remove tx g) = unverified g.
Proof. unfold context_remove. destruct (oracle_response_id tx), (payer_of tx); cbn; repeat case_match; done. Qed.
Lemma record_conflicts_queues h hs g :
  verified (record_conflicts h hs g) = verified g ∧ unverified (record_conflicts h hs g) = unverified g.
Proof. unfold record_conflicts. revert g. induction hs as [|t hs IH]; intros g; [done|]. cbn. by rewrite !(proj1 (IH _)), !(proj2 (IH _)). Qed.
Lemma context_add_verified tx g : verified (context_add tx g) = verified g. Proof. apply context_add_queues. Qed.
Lemma context_add_unverified tx g : unverified (context_add tx g) = unverified g. Proof. apply context_add_queues. Qed.
Lemma context_remove_verified tx g : verified (context_remove tx g) = verified g. Proof. apply context_remove_queues. Qed.
Lemma context_remove_unverified tx g : unverified (context_remove tx g) = unverified g. Proof. apply context_remove_queues. Qed.
Lemma record_conflicts_verified h hs g : verified (record_conflicts h hs g) = verified g. Proof. apply record_conflicts_queues. Qed.
Lemma record_conflicts_unverified h hs g : unverified (record_conflicts h hs g) = unverified g. Proof. apply record_conflicts_queues. Qed.
Lemma forget_verified h g : verified (forget_conflicts h g) = verified g. Proof. done. Qed.
Lemma forget_unverified h g : unverified (forget_conflicts h g) = unverified g. Proof. done. Qed.
Lemma verified_set_verified p g : verified (g <| verified := p |>) = p. Proof. done. Qed.
Lemma unverified_set_verified p g : unverified (g <| verified := p |>) = unverified g. Proof. done. Qed.
Lemma verified_set_unverified p g : verified (g <| unverified := p |>) = verified g. Proof. done. Qed.
Lemma unverified_set_unverified p g : unverified (g <| unverified := p |>) = p. Proof. done. Qed.
End queues.
#[export] Hint Rewrite @context_add_verified @context_add_unverified @context_remove_verified @context_remove_unverified
  @record_conflicts_verified @record_conflicts_unverified @forget_verified @forget_unverified
  @verified_set_verified @unverified_set_verified @verified_set_unverified @unverified_set_unverified : queues.
Abbreviation vmap g := (hashes (verified g)).
Abbreviation umap g := (hashes (unverified g)).

Section drops.
Context {crypto : Crypto} {curves : Curves} {order : HashOrder}.
Implicit Types (g : MemoryPoolInner) (tx : Transaction) (h : UInt256.t) (i j d : PoolItem) (l : list PoolItem).

Lemma queues_ok_ext g g' : verified g' = verified g → unverified g' = unverified g → queues_ok g → queues_ok g'.
Proof. intros E1 E2 [H1 H2 H3]. split; by rewrite ?E1, ?E2. Qed.

Lemma drop_verified_index h g : verified (drop_verified h g).1 = (index_remove h (verified g)).1.
Proof.
  unfold drop_verified, index_remove. destruct (vmap g !! h); [|done]. cbn [fst]. by autorewrite with queues.
Qed.
Lemma drop_verified_unverified h g : unverified (drop_verified h g).1 = unverified g.
Proof. unfold drop_verified, index_remove. destruct (vmap g !! h); [|done]. cbn [fst]. by autorewrite with queues. Qed.
Lemma drop_verified_result h g : (drop_verified h g).2 = transaction <$> vmap g !! h.
Proof. unfold drop_verified, index_remove. by destruct (vmap g !! h). Qed.
Lemma drop_verified_vmap h g : vmap (drop_verified h g).1 = delete h (vmap g).
Proof. by rewrite drop_verified_index, index_remove_hashes. Qed.
Lemma drop_verified_ok h g : queues_ok g → queues_ok (drop_verified h g).1.
Proof.
  intros [H1 H2 H3]. split; rewrite ?drop_verified_vmap, ?drop_verified_index, ?drop_verified_unverified; [by apply index_remove_ok | done|].
  by apply map_disjoint_delete_l.
Qed.

(** The map without the hashes of [l]. *)
Definition without l (m : gmap UInt256.t PoolItem) : gmap UInt256.t PoolItem := foldl (λ m c, delete (item_hash c) m) m l.
Lemma without_lookup l m h : without l m !! h = if bool_decide (h ∈ item_hash <$> l) then None else m !! h.
Proof.
  unfold without. revert m. induction l as [|c l IH]; intros m; [done|]. cbn [foldl]. rewrite IH, fmap_cons.
  destruct (decide (h = item_hash c)) as [->|Hne].
  - rewrite (bool_decide_true (_ ∈ _ :: _)) by (by constructor). rewrite lookup_delete_eq. by case_match.
  - rewrite lookup_delete_ne by done. by rewrite (bool_decide_ext _ (h ∈ item_hash c :: (item_hash <$> l))) by (rewrite elem_of_cons; naive_solver).
Qed.
Lemma drop_conflicts_spec l g :
  vmap (drop_conflicts l g) = without l (vmap g) ∧ unverified (drop_conflicts l g) = unverified g ∧
  (queues_ok g → queues_ok (drop_conflicts l g)).
Proof.
  unfold drop_conflicts, without. revert g. induction l as [|c l IH]; intros g; [done|]. cbn [foldl].
  destruct (IH (drop_verified (item_hash c) g).1) as (-> & -> & Hq).
  rewrite drop_verified_vmap, drop_verified_unverified. split; [done|]. split; [done|].
  intros Hg. by apply Hq, drop_verified_ok.
Qed.

Lemma insert_verified_ok i l g :
  queues_ok g → umap g !! item_hash i = None →
  queues_ok (insert_verified i (item_hash i) l g) ∧
  vmap (insert_verified i (item_hash i) l g) = without l (<[item_hash i := i]> (vmap g)) ∧
  unverified (insert_verified i (item_hash i) l g) = unverified g.
Proof.
  intros [H1 H2 H3] Hn. unfold insert_verified. set (g1 := context_add _ _).
  assert (verified g1 = index_insert i (verified g)) as Ev by (unfold g1; by autorewrite with queues).
  assert (unverified g1 = unverified g) as Eu by (unfold g1; by autorewrite with queues).
  assert (queues_ok g1) as Hg1.
  { split; rewrite ?Ev, ?Eu; [by apply index_insert_ok | done|]. rewrite index_insert_hashes. by apply map_disjoint_insert_l_2. }
  destruct (drop_conflicts_spec l g1) as (Evm & Eum & Hq). autorewrite with queues. rewrite Evm, Eum, Ev, Eu.
  split; [|done]. eapply queues_ok_ext; [..|exact (Hq Hg1)]; by autorewrite with queues.
Qed.
Lemma total_count_size g : queues_ok g → total_count g = size (vmap g) + size (umap g).
Proof. intros [H1 H2 _]. unfold total_count. by rewrite !ok_len. Qed.

(** ** Eviction *)

Lemma pooled_hash_unique g i j : queues_ok g → pooled g i → pooled g j → item_hash i = item_hash j → i = j.
Proof.
  intros [_ _ Hd] Hi Hj E. unfold pooled in *. rewrite E in Hi. rewrite map_disjoint_spec in Hd.
  destruct Hi as [Hi|Hi], Hj as [Hj|Hj]; try congruence; exfalso; eauto.
Qed.
(** [g'] is [g] without the pooled item [d], which has the lowest priority. *)
Definition evicts d g g' : Prop :=
  queues_ok g' ∧ pooled g d ∧ (∀ i, pooled g' i ↔ pooled g i ∧ i ≠ d) ∧ (∀ i, pooled g i → i ≠ d → below d i) ∧
  S (total_count g') = total_count g ∧ vmap g' ⊆ vmap g ∧ umap g' ⊆ umap g.

Lemma pooled_item g i : queues_ok g → pooled g i ↔ i ∈ items (verified g) ∨ i ∈ items (unverified g).
Proof.
  intros [Hv Hu _]. unfold pooled. rewrite (ok_keyed _ Hv), (ok_keyed _ Hu). naive_solver.
Qed.
Lemma evict_unverified g u :
  queues_ok g → u ∈ items (unverified g) → (∀ i, pooled g i → i ≠ u → below u i) →
  ∀ g', verified g' = verified g → unverified g' = (index_remove (item_hash u) (unverified g)).1 → evicts u g g'.
Proof.
  intros Hg Hu Hlow g' Ev Eu. pose proof Hg as [Hv Hun Hd]. pose proof (ok_lookup _ _ Hun Hu) as Hl.
  assert (vmap g !! item_hash u = None) as Hn by (by eapply map_disjoint_Some_r).
  split; [split; rewrite ?Ev, ?Eu; [done | by apply index_remove_ok | rewrite index_remove_hashes; by apply map_disjoint_delete_r]|].
  split; [by right|]. split; [|split; [done|split]].
  - intros i. unfold pooled. rewrite Ev, Eu, index_remove_hashes, lookup_delete_Some. split.
    + intros [Hi|[Hne Hi]]; [split; [by left | intros ->; congruence] | split; [by right | by intros ->]].
    + intros [[Hi|Hi] Hne]; [by left | right]. split; [|done]. intros E. rewrite E in Hl. congruence.
  - unfold total_count. rewrite Ev, Eu. pose proof (index_remove_len _ _ _ Hun Hl). lia.
  - rewrite Ev, Eu, index_remove_hashes. split; [done | apply delete_subseteq].
Qed.
Lemma evict_verified g v :
  queues_ok g → v ∈ items (verified g) → (∀ i, pooled g i → i ≠ v → below v i) →
  ∀ g', verified g' = (index_remove (item_hash v) (verified g)).1 → unverified g' = unverified g → evicts v g g'.
Proof.
  intros Hg Hv Hlow g' Ev Eu. pose proof Hg as [Hver Hun Hd]. pose proof (ok_lookup _ _ Hver Hv) as Hl.
  assert (umap g !! item_hash v = None) as Hn by (by eapply map_disjoint_Some_l).
  split; [split; rewrite ?Ev, ?Eu; [by apply index_remove_ok | done | rewrite index_remove_hashes; by apply map_disjoint_delete_l]|].
  split; [by left|]. split; [|split; [done|split]].
  - intros i. unfold pooled. rewrite Ev, Eu, index_remove_hashes, lookup_delete_Some. split.
    + intros [[Hne Hi]|Hi]; [split; [by left | by intros ->] | split; [by right | intros ->; congruence]].
    + intros [[Hi|Hi] Hne]; [left | by right]. split; [|done]. intros E. rewrite E in Hl. congruence.
  - unfold total_count. rewrite Ev, Eu. pose proof (index_remove_len _ _ _ Hver Hl). lia.
  - rewrite Ev, Eu, index_remove_hashes. split; [apply delete_subseteq | done].
Qed.
Lemma head_none {A} (l : list A) : head l = None → l = [].
Proof. by destruct l. Qed.
Lemma remove_lowest_fee_spec g :
  queues_ok g → 0 < total_count g →
  ∃ d g', remove_lowest_fee g = (g', Some (transaction d)) ∧ evicts d g g'.
Proof.
  intros Hg Hpos. pose proof Hg as [Hv Hu Hd]. unfold remove_lowest_fee.
  destruct (head (items (verified g))) as [v|] eqn:Ev, (head (items (unverified g))) as [u|] eqn:Eu.
  - destruct (lowest_head _ _ Hv Ev) as [Hvin Hvlow], (lowest_head _ _ Hu Eu) as [Huin Hulow].
    assert (item_hash v ≠ item_hash u) as Hne.
    { pose proof (ok_lookup _ _ Hv Hvin) as L1. pose proof (ok_lookup _ _ Hu Huin) as L2. intros E. rewrite E in L1.
      by eapply map_disjoint_spec in Hd. }
    destruct (decide (compare_to v u = Lt)) as [E|E].
    + rewrite E. exists v. eexists. split; [done|]. apply evict_verified; [done|done| |by autorewrite with queues|by autorewrite with queues].
      intros i [Hi|Hi]%(pooled_item _ _ Hg) Hni; [destruct (Hvlow i Hi); done|].
      destruct (Hulow i Hi) as [->|Hb]; [done | by eapply below_trans].
    + destruct (below_total v u Hne) as [Hb|Hb]; [done|]. exists u. eexists.
      split; [by destruct (compare_to v u)|]. apply evict_unverified; [done|done| |done|done].
      intros i [Hi|Hi]%(pooled_item _ _ Hg) Hni; [|destruct (Hulow i Hi); done].
      destruct (Hvlow i Hi) as [->|Hb']; [done | by eapply below_trans].
  - destruct (lowest_head _ _ Hv Ev) as [Hvin Hvlow]. exists v. eexists. split; [done|].
    apply evict_verified; [done|done| |by autorewrite with queues|by autorewrite with queues].
    intros i [Hi|Hi]%(pooled_item _ _ Hg) Hni; [destruct (Hvlow i Hi); done|]. rewrite (head_none _ Eu) in Hi. by apply elem_of_nil in Hi.
  - destruct (lowest_head _ _ Hu Eu) as [Huin Hulow]. exists u. eexists. split; [done|].
    apply evict_unverified; [done|done| |done|done].
    intros i [Hi|Hi]%(pooled_item _ _ Hg) Hni; [|destruct (Hulow i Hi); done]. rewrite (head_none _ Ev) in Hi. by apply elem_of_nil in Hi.
  - unfold total_count, index_len in Hpos. rewrite (head_none _ Ev), (head_none _ Eu) in Hpos. cbn in Hpos. lia.
Qed.

(** The end of the eviction loop from [g]: the best [capacity] items are left. *)
Record evicted (capacity : nat) h (retained : bool) g g' (retained' : bool) : Prop := {
  ev_queues : queues_ok g';
  ev_count : total_count g' = total_count g `min` capacity;
  ev_subset i : pooled g' i → pooled g i;
  ev_queue : vmap g' ⊆ vmap g ∧ umap g' ⊆ umap g;
  ev_best i j : pooled g i → ¬ pooled g' i → pooled g' j → below i j;
  ev_retained : retained' = true ↔ retained = true ∧ ∀ i, pooled g i → item_hash i = h → pooled g' i;
}.
Lemma remove_over_capacity_spec n capacity h retained g :
  queues_ok g → total_count g - capacity ≤ n →
  ∃ g' retained', remove_over_capacity n capacity h retained g = Some (g', retained') ∧
    evicted capacity h retained g g' retained'.
Proof.
  revert retained g. induction n as [|n IH]; intros retained g Hg Hn; cbn [remove_over_capacity];
    destruct (Nat.ltb_spec capacity (total_count g)) as [Hlt|Hge]; try lia.
  1, 3: exists g, retained; split; [done|]; split; [done | lia | done | done | done | naive_solver].
  destruct (remove_lowest_fee_spec g Hg ltac:(lia)) as (d & g1 & -> & Hg1 & Hd & Hsub & Hlow & Hcount & Hv1 & Hu1).
  set (r1 := if bool_decide (Tx.hash (transaction d) = h) then false else retained).
  destruct (IH r1 g1 Hg1 ltac:(lia)) as (g' & r' & -> & [Hq Hc Hs [Hv Hu] Hb Hr]). exists g', r'. split; [done|]. split.
  - done.
  - lia.
  - intros i Hi%Hs. by apply Hsub in Hi as [? _].
  - split; by etrans.
  - intros i j Hi Hni Hj. destruct (decide (item_hash i = item_hash d)) as [E|E].
    + assert (i = d) as -> by (by apply (pooled_hash_unique g)). apply Hs, Hsub in Hj as [Hj Hjd]. by apply Hlow.
    + apply Hb; [|done|done]. apply Hsub. split; [done | by intros ->].
  - rewrite Hr. unfold r1. case_bool_decide as Ed.
    + split; [by intros []|]. intros [_ Ha]. assert (pooled g' d) as Hd' by (by apply Ha). by apply Hs, Hsub in Hd' as [_ ?].
    + split; intros [Hret Ha]; (split; [done|]); intros i Hi Hh.
      * apply Ha; [|done]. apply Hsub. split; [done|]. intros ->. done.
      * apply Ha; [|done]. by apply Hsub in Hi as [? _].
Qed.
End drops.
