(* ===== verification/MempoolInv.v ===== *)
(** * The invariant of the pool

    Every operation of the pool keeps the queues sorted and indexed, disjoint and
    within the capacity, and the production operations keep the verified queue free of
    conflicts, with an exact conflict index. *)
From S2P Require Import Prelude Primitives Order Hashing Io EcPoint RecordUpdate Multisig Signing Transaction Admission.
From S2P Require Import Mempool MempoolIndex MempoolFacts.
#[local] Open Scope update_scope.

(** The hashes a transaction names. *)
Abbreviation targets tx := (conflict_target_hashes tx).

Section operations.
Context {crypto : Crypto} {curves : Curves} {order : HashOrder}.
Implicit Types (g : MemoryPoolInner) (tx : Transaction) (h : UInt256.t) (i j : PoolItem) (l : list PoolItem).

(** ** The queues under every operation *)

(** Removing from the unverified queue, whatever happens to the bookkeeping. *)
Lemma drop_unverified_ok h g g' :
  queues_ok g → verified g' = verified g → unverified g' = (index_remove h (unverified g)).1 →
  queues_ok g' ∧ total_count g' ≤ total_count g ∧ ∀ i, pooled g' i → pooled g i.
Proof.
  intros [Hv Hu Hd] Ev Eu. split; [|split].
  - split; rewrite ?Ev, ?Eu; [done | by apply index_remove_ok|]. rewrite index_remove_hashes. by apply map_disjoint_delete_r.
  - unfold total_count. rewrite Ev, Eu. pose proof (index_remove_len_le h _ Hu). lia.
  - intros i. unfold pooled. rewrite Ev, Eu, index_remove_hashes, lookup_delete_Some. naive_solver.
Qed.
Lemma drop_verified_shrinks h g :
  queues_ok g → total_count (drop_verified h g).1 ≤ total_count g ∧ ∀ i, pooled (drop_verified h g).1 i → pooled g i.
Proof.
  intros [Hv Hu Hd]. split.
  - unfold total_count. rewrite drop_verified_index, drop_verified_unverified. pose proof (index_remove_len_le h _ Hv). lia.
  - intros i. unfold pooled. rewrite drop_verified_vmap, drop_verified_unverified, lookup_delete_Some. naive_solver.
Qed.

(** The transactions of the pool hash. *)
Definition hashable g : Prop := ∀ i, pooled g i → Tx.try_hash (transaction i) = Ok (item_hash i).

(** The invariant of all operations. *)
Record PoolInv (capacity : nat) g : Prop := {
  inv_queues : queues_ok g;
  inv_capacity : total_count g ≤ capacity;
  inv_hashable : hashable g;
}.
Lemma PoolInv_shrink capacity g g' :
  PoolInv capacity g → queues_ok g' → total_count g' ≤ total_count g → (∀ i, pooled g' i → pooled g i) → PoolInv capacity g'.
Proof. intros [H1 H2 H3] Hq Hc Hp. split; [done | lia|]. intros i Hi. by apply H3, Hp. Qed.

Lemma PoolInv_ext capacity g g' :
  verified g' = verified g → unverified g' = unverified g → PoolInv capacity g → PoolInv capacity g'.
Proof.
  intros Ev Eu Hg. eapply PoolInv_shrink; [exact Hg|..].
  - eapply queues_ok_ext; [exact Ev | exact Eu | apply Hg].
  - unfold total_count. by rewrite Ev, Eu.
  - intros i. unfold pooled. by rewrite Ev, Eu.
Qed.
Lemma PoolInv_drop_unverified capacity h g g' :
  PoolInv capacity g → verified g' = verified g → unverified g' = (index_remove h (unverified g)).1 → PoolInv capacity g'.
Proof.
  intros Hg Ev Eu. destruct (drop_unverified_ok h g g' (inv_queues _ _ Hg) Ev Eu) as (? & ? & ?). by eapply PoolInv_shrink.
Qed.
Lemma PoolInv_drop_verified capacity h g : PoolInv capacity g → PoolInv capacity (drop_verified h g).1.
Proof.
  intros Hg. destruct (drop_verified_shrinks h g (inv_queues _ _ Hg)) as [? ?].
  eapply PoolInv_shrink; [done| |done|done]. apply drop_verified_ok, Hg.
Qed.

Lemma PoolInv_new capacity : PoolInv capacity pool_new.
Proof.
  split; [split; [apply index_empty_ok..|apply map_disjoint_empty_l] | cbn; lia|].
  intros i [Hi|Hi]; cbn in Hi; by rewrite lookup_empty in Hi.
Qed.
Lemma PoolInv_remove_mined capacity h g : PoolInv capacity g → PoolInv capacity (remove_mined h g).
Proof.
  intros Hg. pose proof (PoolInv_drop_verified capacity h g Hg) as Hd. unfold remove_mined.
  destruct (drop_verified h g) as [g1 [tx|]]; [done|].
  destruct (index_remove h (unverified g)) as [p [i|]] eqn:E; [|done].
  eapply PoolInv_drop_unverified; [exact Hg|by autorewrite with queues|]. autorewrite with queues. by rewrite E.
Qed.
Lemma PoolInv_persist capacity txs g m s :
  PoolInv capacity g → PoolInv capacity (foldl persist_one (g, m, s) txs).1.1.
Proof.
  revert g m s. induction txs as [|tx txs IH]; intros g m s Hg; [done|]. cbn [foldl]. unfold persist_one at 2.
  destruct (Tx.try_hash tx) as [h|]; [|by apply IH]. apply IH, PoolInv_remove_mined. by eapply PoolInv_ext; [..|exact Hg].
Qed.
Lemma PoolInv_evict capacity m s l g r :
  PoolInv capacity g → PoolInv capacity (foldl (evict_one m s) (g, r) l).1.
Proof.
  revert g r. induction l as [|i l IH]; intros g r Hg; [done|]. cbn [foldl]. unfold evict_one at 2. cbn [fst snd].
  destruct (Tx.try_hash (transaction i)) as [h|]; [|by apply IH]. destruct (conflicts_with_block m s h (transaction i)); [|by apply IH].
  pose proof (PoolInv_drop_verified capacity h g Hg) as Hd. destruct (drop_verified h g) as [g1 [tx|]]; by apply IH.
Qed.

(** Inserting a list of items. *)
Lemma fold_insert_ok l p : index_ok p → index_ok (foldl (λ p i, index_insert i p) p l).
Proof. revert p. induction l as [|i l IH]; intros p Hp; [done|]. by apply IH, index_insert_ok. Qed.
Definition keyed i : UInt256.t * PoolItem := (item_hash i, i).
Lemma fold_insert_hashes l p :
  hashes (foldl (λ p i, index_insert i p) p l) = list_to_map (reverse (keyed <$> l)) ∪ hashes p.
Proof.
  induction l as [|i l IH] using rev_ind; [symmetry; exact (left_id_L ∅ (∪) _)|].
  rewrite foldl_app, fmap_app, reverse_app. cbn [foldl]. rewrite index_insert_hashes, IH. cbn. by rewrite insert_union_l.
Qed.
Lemma keyed_items p : index_ok p → keyed <$> items p ≡ₚ map_to_list (hashes p).
Proof.
  intros Hp. rewrite (ok_items p Hp). rewrite <- list_fmap_compose. apply Permutation_refl'.
  etrans; [|apply list_fmap_id]. apply list_fmap_ext. intros n [h i] Hn.
  cbn. unfold keyed. f_equal. apply (ok_hash p); [done|]. apply elem_of_map_to_list. by eapply list_elem_of_lookup_2.
Qed.
Lemma invalidate_unverified g :
  queues_ok g → index_ok (unverified (invalidate_verified g)) ∧ umap (invalidate_verified g) = vmap g ∪ umap g.
Proof.
  intros [Hv Hu Hd]. split; [by apply fold_insert_ok|]. cbn. rewrite fold_insert_hashes. f_equal.
  rewrite <- (list_to_map_to_list (vmap g)). apply list_to_map_proper.
  - rewrite reverse_Permutation, (keyed_items _ Hv). apply NoDup_fst_map_to_list.
  - by rewrite reverse_Permutation, (keyed_items _ Hv).
Qed.
Lemma PoolInv_invalidate capacity g : PoolInv capacity g → PoolInv capacity (invalidate_verified g).
Proof.
  intros Hg. pose proof (inv_queues _ _ Hg) as Hq. destruct (invalidate_unverified g Hq) as [Hu Em].
  assert (queues_ok (invalidate_verified g)) as Hq'.
  { split; [apply index_empty_ok | done | apply map_disjoint_empty_l]. }
  eapply PoolInv_shrink; [exact Hg | exact Hq'|..].
  - rewrite !total_count_size, Em by done. rewrite map_size_disj_union by apply Hq.
    change (vmap (invalidate_verified g)) with (∅ : gmap UInt256.t PoolItem). rewrite map_size_empty. lia.
  - intros i. unfold pooled. rewrite Em. cbn [verified invalidate_verified hashes index_empty]. rewrite lookup_empty.
    intros [?|Hi]; [done|]. by apply lookup_union_Some in Hi; [|apply Hq].
Qed.
Lemma PoolInv_persisted capacity txs g : PoolInv capacity g → PoolInv capacity (update_pool_for_block_persisted txs g).1.
Proof.
  intros Hg. unfold update_pool_for_block_persisted. case_match; [done|].
  pose proof (PoolInv_persist capacity txs g ∅ ∅ Hg) as Hp. destruct (foldl persist_one _ _) as [[g1 m] s]. cbn in Hp.
  pose proof (PoolInv_evict capacity m s (items (verified g1)) g1 [] Hp) as He.
  destruct (foldl _ _ _) as [g2 r]. by apply PoolInv_invalidate.
Qed.
Lemma PoolInv_commit capacity hs g : PoolInv capacity g → PoolInv capacity (commit_block hs g).1.
Proof.
  unfold commit_block. generalize (@nil (Transaction * TransactionRemovalReason)) as r.
  revert g. induction hs as [|h hs IH]; intros g r Hg; [done|]. cbn [foldl]. unfold commit_one at 2. cbn [fst snd].
  set (g0 := g <| verification_context ::= confirm h |>).
  assert (PoolInv capacity g0) as Hg0 by (by eapply PoolInv_ext; [..|exact Hg]).
  pose proof (PoolInv_drop_verified capacity h g0 Hg0) as Hd. destruct (drop_verified h g0) as [g1 o1]. cbn in Hd.
  unfold drop_unverified. destruct (index_remove h (unverified g1)) as [p [i|]] eqn:E; [|by apply IH].
  apply IH. eapply PoolInv_drop_unverified; [exact Hd|by autorewrite with queues|]. autorewrite with queues. by rewrite E.
Qed.
Lemma PoolInv_remove capacity h g : PoolInv capacity g → PoolInv capacity (remove h g).
Proof.
  intros Hg. unfold remove. destruct (index_remove h (verified g)) as [p [i|]] eqn:E.
  - eapply PoolInv_ext; [..|exact (PoolInv_drop_verified capacity h g Hg)];
      rewrite ?drop_verified_index, ?drop_verified_unverified, ?E; cbn; by autorewrite with queues.
  - destruct (index_remove h (unverified g)) as [p' [i|]] eqn:E'; [|done].
    eapply PoolInv_drop_unverified; [exact Hg|..]; cbn; autorewrite with queues; [done|]. by rewrite E'.
Qed.

(** ** Conflicts *)

(** The pooled transactions recorded as naming [t]. *)
Definition recorded g h : gset UInt256.t := default ∅ (conflicts g !! h).
Definition in_verified g (hs : list UInt256.t) : list PoolItem := omap (λ h, vmap g !! h) hs.

Lemma naming_items g author hs acc : (naming g author hs acc).1 = acc.1 ++ in_verified g hs.
Proof.
  revert acc. induction hs as [|h hs IH]; intros acc; cbn; [by rewrite app_nil_r|]. unfold index_get.
  destruct (vmap g !! h) as [i|]; [|apply IH]. rewrite IH. cbn. by rewrite <- app_assoc.
Qed.
Lemma named_items g tx hs acc r : named g tx hs acc = Some r → r.1 = acc.1 ++ in_verified g hs.
Proof.
  revert acc. induction hs as [|h hs IH]; intros acc; cbn; [intros [= <-]; by rewrite app_nil_r|]. unfold index_get.
  destruct (vmap g !! h) as [i|]; [|apply IH]. case_match; [done|]. intros ->%IH. cbn. by rewrite <- app_assoc.
Qed.
Lemma check_conflicts_items g tx l :
  check_conflicts g tx = Some l → l = in_verified g (iter_set (recorded g (Tx.hash tx))) ++ in_verified g (targets tx).
Proof.
  unfold check_conflicts. intros Hc. destruct (named _ _ _ _) as [[l' sum]|] eqn:E; [|done]. case_match; [done|].
  injection Hc as <-. apply named_items in E. cbn [fst] in E. by rewrite E, naming_items.
Qed.
Lemma check_conflicts_verified g tx l c :
  queues_ok g → check_conflicts g tx = Some l → c ∈ l → vmap g !! item_hash c = Some c.
Proof.
  intros Hg ->%check_conflicts_items [Hc|Hc]%elem_of_app; apply list_elem_of_omap in Hc as (h & _ & Hc);
    by rewrite (ok_hash _ _ _ (q_verified _ Hg) Hc).
Qed.
Lemma check_conflicts_fresh g tx l h :
  queues_ok g → check_conflicts g tx = Some l → vmap g !! h = None → h ∉ item_hash <$> l.
Proof.
  intros Hg Hl Hn (c & -> & Hc)%list_elem_of_fmap. by rewrite (check_conflicts_verified _ _ _ _ Hg Hl Hc) in Hn.
Qed.

(** ** Insertion *)

Lemma insert_verified_lookup i l g h :
  queues_ok g → umap g !! item_hash i = None →
  vmap (insert_verified i (item_hash i) l g) !! h =
  if bool_decide (h ∈ item_hash <$> l) then None else <[item_hash i := i]> (vmap g) !! h.
Proof. intros Hg Hn. destruct (insert_verified_ok i l g Hg Hn) as (_ & -> & _). apply without_lookup. Qed.
Lemma without_subseteq l m : without l m ⊆ m.
Proof. apply map_subseteq_spec. intros h i. rewrite without_lookup. by case_bool_decide. Qed.
Lemma insert_verified_count i l g :
  queues_ok g → vmap g !! item_hash i = None → umap g !! item_hash i = None →
  total_count (insert_verified i (item_hash i) l g) ≤ S (total_count g).
Proof.
  intros Hg Hv Hu. destruct (insert_verified_ok i l g Hg Hu) as (Hq & Em & Eu).
  rewrite !total_count_size, Em, Eu by done.
  pose proof (map_subseteq_size _ _ (without_subseteq l (<[item_hash i := i]> (vmap g)))) as Hle.
  rewrite map_size_insert_None in Hle by done. lia.
Qed.
Lemma insert_verified_pooled i l g j :
  queues_ok g → umap g !! item_hash i = None → pooled (insert_verified i (item_hash i) l g) j → j = i ∨ pooled g j.
Proof.
  intros Hg Hn. unfold pooled. rewrite insert_verified_lookup by done.
  destruct (insert_verified_ok i l g Hg Hn) as (_ & _ & ->). case_bool_decide; [naive_solver|].
  rewrite lookup_insert_Some. naive_solver.
Qed.
Lemma PoolInv_move capacity i l g :
  PoolInv capacity g → umap g !! item_hash i = Some i →
  PoolInv capacity (insert_verified i (item_hash i) l (g <| unverified ::= λ p, (index_remove (item_hash i) p).1 |>)).
Proof.
  intros Hg Hi. set (g0 := g <| unverified ::= _ |>).
  assert (PoolInv capacity g0) as Hg0 by (eapply (PoolInv_drop_unverified _ (item_hash i)); [exact Hg|done..]).
  assert (umap g0 !! item_hash i = None) as Hn.
  { change (umap g0) with (hashes (index_remove (item_hash i) (unverified g)).1). rewrite index_remove_hashes. apply lookup_delete_eq. }
  assert (vmap g !! item_hash i = None) as Hv by (eapply map_disjoint_Some_r; [apply Hg | done]).
  assert (S (total_count g0) = total_count g) as Hc.
  { pose proof (index_remove_len _ _ _ (q_unverified _ (inv_queues _ _ Hg)) Hi). unfold total_count.
    change (unverified g0) with (index_remove (item_hash i) (unverified g)).1. change (verified g0) with (verified g). lia. }
  split.
  - by apply insert_verified_ok; [apply Hg0|].
  - pose proof (insert_verified_count i l g0 (inv_queues _ _ Hg0) Hv Hn). pose proof (inv_capacity _ _ Hg). lia.
  - intros j [->|Hj]%insert_verified_pooled; [apply (inv_hashable _ _ Hg); by right | by apply (inv_hashable _ _ Hg0) | apply Hg0 | done].
Qed.
Lemma insert_verified_nil i g :
  verified (g <| verified ::= index_insert i |>) = verified (insert_verified i (item_hash i) [] g) ∧
  unverified (g <| verified ::= index_insert i |>) = unverified (insert_verified i (item_hash i) [] g).
Proof. unfold insert_verified, drop_conflicts. cbn [foldl]. by autorewrite with queues. Qed.
Lemma PoolInv_reverify_one capacity verifier g r i :
  PoolInv capacity g → umap g !! item_hash i = Some i → PoolInv capacity (reverify_one verifier (g, r) i).1.
Proof.
  intros Hg Hi. unfold reverify_one. cbn [fst]. case_match; cbn [fst].
  - destruct (insert_verified_nil i (g <| unverified ::= λ p, (index_remove (item_hash i) p).1 |>)) as [Ev Eu].
    eapply PoolInv_ext; [exact Ev | exact Eu|]. by apply PoolInv_move.
  - eapply (PoolInv_drop_unverified _ (item_hash i)); [exact Hg|by autorewrite with queues..].
Qed.
(** The items still to be checked stay in the unverified queue. *)
Lemma PoolInv_reverify capacity verifier g : PoolInv capacity g → PoolInv capacity (reverify verifier g).1.
Proof.
  intros Hg. unfold reverify. generalize (@nil (Transaction * TransactionRemovalReason)) as r.
  assert (∀ i, i ∈ items (unverified g) → umap g !! item_hash i = Some i) as Hl
    by (intros i; apply ok_lookup, Hg).
  assert (NoDup (item_hash <$> items (unverified g))) as Hnd.
  { apply NoDup_fmap_2_strong; [|apply ok_items_nodup, Hg]. intros i j. apply ok_unique, Hg. }
  revert Hl Hnd. generalize (items (unverified g)) as l. intros l. revert g Hg.
  induction l as [|i l IH]; intros g Hg Hl Hnd r; [done|]. cbn [foldl]. rewrite fmap_cons, NoDup_cons in Hnd.
  destruct (reverify_one verifier (g, r) i) as [g1 r1] eqn:E. apply IH; [| |apply Hnd].
  - replace g1 with (reverify_one verifier (g, r) i).1 by (by rewrite E). apply PoolInv_reverify_one; [done|]. apply Hl. by constructor.
  - intros j Hj. assert (umap g1 = delete (item_hash i) (umap g)) as ->.
    { replace g1 with (reverify_one verifier (g, r) i).1 by (by rewrite E). unfold reverify_one. cbn [fst].
      case_match; cbn [fst]; autorewrite with queues; apply index_remove_hashes. }
    rewrite lookup_delete_ne; [apply Hl; by constructor|]. intros Eh. apply Hnd. rewrite Eh. by apply list_elem_of_fmap_2.
Qed.
End operations.

(** ** Runs of the pool *)

(** The operations of the pool; [Persisted], [Reverified] and [Added] are the ones the
    node calls, the others are public as well. *)
Inductive PoolOp (Snapshot : Type) :=
| Added (origin : TransactionOrigin) (tx : Transaction) (now now' : N) (snapshot : Snapshot)
| Persisted (block : list Transaction)
| Reverified (snapshot : Snapshot) (max_count : nat)
| Committed (hs : list UInt256.t)
| ReverifiedAll (verifier : Transaction → VerifyResult.t)
| Removed (h : UInt256.t).
Arguments Added {_}. Arguments Persisted {_}. Arguments Reverified {_}. Arguments Committed {_}.
Arguments ReverifiedAll {_}. Arguments Removed {_}.

Section runs.
Context {Snapshot : Type} {crypto : Crypto} {ripemd : Ripemd} {curves : Curves} {ecdsa : Ecdsa} {order : HashOrder}.
Context {native : AdmissionNativeProvider Snapshot} {state : AdmissionState Snapshot}.
Context (native_ledger ledger : AdmissionLedgerProvider Snapshot) (settings : ProtocolSettings) (capacity : nat).
Implicit Types (g : MemoryPoolInner) (tx : Transaction) (op : PoolOp Snapshot).

(** [None] if the operation does not return. *)
Definition pool_step op g : option MemoryPoolInner :=
  match op with
  | Added origin tx now now' snapshot => fst <$> add_transaction ledger settings capacity origin tx now now' snapshot g
  | Persisted block => Some (update_pool_for_block_persisted block g).1
  | Reverified snapshot max_count => Some (reverify_top_unverified native_ledger settings snapshot max_count g).1
  | Committed hs => Some (commit_block hs g).1
  | ReverifiedAll verifier => Some (reverify verifier g).1
  | Removed h => Some (remove h g)
  end.
Fixpoint pool_run (ops : list (PoolOp Snapshot)) g : option MemoryPoolInner :=
  match ops with
  | [] => Some g
  | op :: ops => g ← pool_step op g; pool_run ops g
  end.

Lemma contains_false h g : contains h g = false → vmap g !! h = None ∧ umap g !! h = None.
Proof.
  unfold contains, index_contains. rewrite orb_false_iff, !bool_decide_eq_false. rewrite <- !eq_None_not_Some. done.
Qed.
Lemma try_hash_hash tx h : Tx.try_hash tx = Ok h → Tx.hash tx = h.
Proof. intros E. unfold Tx.hash. by rewrite E. Qed.

Lemma insert_validated_inv i l g :
  PoolInv capacity g → vmap g !! item_hash i = None → umap g !! item_hash i = None →
  Tx.try_hash (transaction i) = Ok (item_hash i) → 0 < capacity →
  ∃ g' retained, insert_validated i (item_hash i) l capacity g = Some (g', retained) ∧ PoolInv capacity g' ∧
    evicted capacity (item_hash i) true (insert_verified i (item_hash i) l g) g' retained.
Proof.
  intros Hg Hv Hu Hh Hcap. unfold insert_validated. set (g1 := insert_verified i (item_hash i) l g).
  assert (queues_ok g1) as Hq by (by apply insert_verified_ok; [apply Hg|]).
  destruct (remove_over_capacity_spec (total_count g1) capacity (item_hash i) true g1 Hq ltac:(lia))
    as (g' & r & -> & He). exists g', r. split; [done|]. split; [|done]. destruct He as [Hq' Hc Hs _ _ _]. split; [done | lia|].
  intros j [->|Hj]%Hs%insert_verified_pooled; [done | by apply (inv_hashable _ _ Hg) | apply Hg | done].
Qed.
(** The pool is left as it was. *)
Ltac refused := eexists _, _; split; [reflexivity | left; reflexivity].
(** Admission changes nothing, or inserts the transaction. *)
Lemma add_transaction_cases origin tx now now' snapshot g :
  PoolInv capacity g → 0 < capacity →
  ∃ g' outcome, add_transaction ledger settings capacity origin tx now now' snapshot g = Some (g', outcome) ∧
    (g' = g ∨ ∃ h l retained, let i := mkItem tx origin now now' in
       Tx.try_hash tx = Ok h ∧ contains h g = false ∧ check_conflicts g tx = Some l ∧
       verify_state_dependent (AdmissionLedgerProvider0 := ledger) tx snapshot settings
         (effective_pooled_fee g tx l) (oracle_duplicate g tx) = VerifyResult.Succeed ∧
       insert_validated i h l capacity g = Some (g', retained) ∧
       outcome = (if retained : bool then Accepted h origin else Rejected (Some h) origin VerifyResult.OutOfMemory)).
Proof.
  intros Hg Hcap. unfold add_transaction. case_bool_decide; [|refused]. cbn [negb].
  destruct (Tx.try_hash tx) as [h|] eqn:Eh; [|refused].
  destruct (contains_transaction snapshot h) as [[]|]; [refused| |refused].
  destruct (max_traceable_blocks snapshot settings) as [mt|]; [|refused].
  destruct (contains_conflict_hash snapshot h (accounts tx) mt) as [[]|]; [refused| |refused].
  unfold admit_locked. destruct (contains h g) eqn:Ec; [refused|].
  destruct (check_conflicts g tx) as [l|] eqn:El; [|refused].
  case_bool_decide as Ev; [|refused]. cbn [negb]. destruct (contains_false _ _ Ec) as [Hv Hu].
  assert (item_hash (mkItem tx origin now now') = h) as Eih by (by apply try_hash_hash).
  destruct (insert_validated_inv (mkItem tx origin now now') l g) as (g' & r & Ei & _); [done|by rewrite Eih..|done|].
  rewrite Eih in Ei. rewrite Ei. cbn. do 2 eexists. split; [done|]. right. by exists h, l, r.
Qed.
Lemma PoolInv_add origin tx now now' snapshot g :
  PoolInv capacity g → 0 < capacity →
  ∃ g' outcome, add_transaction ledger settings capacity origin tx now now' snapshot g = Some (g', outcome) ∧ PoolInv capacity g'.
Proof.
  intros Hg Hcap. destruct (add_transaction_cases origin tx now now' snapshot g Hg Hcap) as (g' & o & E & Hc).
  exists g', o. split; [done|]. destruct Hc as [->|(h & l & r & Eh & Ec & El & _ & Ei & _)]; [done|].
  destruct (contains_false _ _ Ec) as [Hv Hu]. set (i := mkItem tx origin now now') in *.
  assert (item_hash i = h) as Eih by (by apply try_hash_hash). rewrite <- Eih in *.
  destruct (insert_validated_inv i l g Hg Hv Hu Eh Hcap) as (g2 & r2 & Ei2 & Hinv & _). by simplify_eq.
Qed.

Lemma reverify_item_cases snapshot g i :
  let g0 := g <| unverified ::= λ p, (index_remove (item_hash i) p).1 |> in
  let g' := reverify_item native_ledger settings snapshot g i in
  g' = g ∨ (is_Some (umap g !! item_hash i) ∧ g' = context_remove (transaction i) g0) ∨
  (is_Some (umap g !! item_hash i) ∧ ∃ l, check_conflicts g (transaction i) = Some l ∧ g' = insert_verified i (item_hash i) l g0).
Proof.
  cbn zeta. unfold reverify_item, index_contains. case_bool_decide as Hi; [|by left]. cbn [negb].
  destruct (check_conflicts g (transaction i)) as [l|]; [|right; left; done].
  case_bool_decide; [|right; left; done]. right; right. split; [done|]. by exists l.
Qed.
Lemma insert_verified_unverified i h l g : unverified (insert_verified i h l g) = unverified g.
Proof.
  unfold insert_verified. destruct (drop_conflicts_spec l (context_add (transaction i) (g <| verified ::= index_insert i |>))) as (_ & E & _).
  autorewrite with queues. rewrite E. by autorewrite with queues.
Qed.
(** Rule for [reverify_top_unverified]: each item is dropped or promoted. *)
Lemma reverify_top_rule (P : MemoryPoolInner → Prop) snapshot n g :
  queues_ok g → P g →
  (∀ g i, P g → umap g !! item_hash i = Some i →
     P (context_remove (transaction i) (g <| unverified ::= λ p, (index_remove (item_hash i) p).1 |>))) →
  (∀ g i l, P g → umap g !! item_hash i = Some i → check_conflicts g (transaction i) = Some l →
     P (insert_verified i (item_hash i) l (g <| unverified ::= λ p, (index_remove (item_hash i) p).1 |>))) →
  P (reverify_top_unverified native_ledger settings snapshot n g).1.
Proof.
  intros Hq Hg Hdrop Hmove. unfold reverify_top_unverified. cbn [fst].
  assert (∀ j x, j ∈ take n (unverified_snapshot g) → umap g !! item_hash j = Some x → x = j) as Hl.
  { intros j x Hj Hx. apply (subseteq_take n (unverified_snapshot g)) in Hj. unfold unverified_snapshot, to_sorted_vec in Hj.
    rewrite elem_of_reverse in Hj. rewrite (ok_lookup _ _ (q_unverified _ Hq) Hj) in Hx. by injection Hx. }
  clear Hq. revert Hl. generalize (take n (unverified_snapshot g)) as l. intros l. revert g Hg.
  induction l as [|i l IH]; intros g Hg Hl; [done|]. cbn [foldl].
  destruct (reverify_item_cases snapshot g i) as [E|[[[x Hx] E]|[[x Hx] (cs & Hc & E)]]]; rewrite E;
    [apply IH; [done|]; intros j y Hj; apply Hl; by constructor|..];
    assert (x = i) as -> by (apply Hl; [by constructor | done]); apply IH; auto; intros j y Hj;
    rewrite ?insert_verified_unverified; autorewrite with queues; cbn; rewrite index_remove_hashes, lookup_delete_Some;
    intros [_ Hy]; (apply Hl; [by constructor | done]).
Qed.
Lemma PoolInv_reverify_top snapshot n g :
  PoolInv capacity g → PoolInv capacity (reverify_top_unverified native_ledger settings snapshot n g).1.
Proof.
  intros Hg. apply (reverify_top_rule (PoolInv capacity)); [apply Hg | done|..].
  - intros g' i Hg' Hi. eapply (PoolInv_drop_unverified _ (item_hash i)); [exact Hg'|by autorewrite with queues..].
  - intros g' i l Hg' Hi _. by apply PoolInv_move.
Qed.
Lemma PoolInv_step op g : 0 < capacity → PoolInv capacity g → ∃ g', pool_step op g = Some g' ∧ PoolInv capacity g'.
Proof.
  intros Hcap Hg. destruct op as [o tx n n' s|b|s n|hs|v|h]; cbn [pool_step].
  - destruct (PoolInv_add o tx n n' s g Hg Hcap) as (g' & out & -> & Hinv). by exists g'.
  - eexists. split; [done|]. by apply PoolInv_persisted.
  - eexists. split; [done|]. by apply PoolInv_reverify_top.
  - eexists. split; [done|]. by apply PoolInv_commit.
  - eexists. split; [done|]. by apply PoolInv_reverify.
  - eexists. split; [done|]. by apply PoolInv_remove.
Qed.
Lemma PoolInv_run ops g : 0 < capacity → PoolInv capacity g → ∃ g', pool_run ops g = Some g' ∧ PoolInv capacity g'.
Proof.
  intros Hcap. revert g. induction ops as [|op ops IH]; intros g Hg; [by exists g|]. cbn [pool_run].
  destruct (PoolInv_step op g Hcap Hg) as (g1 & -> & Hg1). by apply IH.
Qed.
End runs.
