(* ===== verification/MempoolConflicts.v ===== *)
(** * The verified transactions do not conflict

    The conflict index records exactly the Conflicts attributes of the verified
    transactions, and no verified transaction names another. *)
From S2P Require Import Prelude Primitives Order Hashing Io EcPoint RecordUpdate Multisig Signing Transaction Admission.
From S2P Require Import Mempool MempoolIndex MempoolFacts MempoolInv.
#[local] Open Scope update_scope.

Section conflicts.
Context {crypto : Crypto} {curves : Curves} {order : HashOrder}.
Implicit Types (g : MemoryPoolInner) (tx : Transaction) (h t : UInt256.t) (i j : PoolItem) (l : list PoolItem).
Implicit Types m : gmap UInt256.t PoolItem.

(** The index records the targets of the transactions of [m]. *)
Definition records g m : Prop :=
  ∀ t h, h ∈ recorded g t ↔ ∃ i, m !! h = Some i ∧ t ∈ targets (transaction i).
Definition conflict_free m : Prop :=
  ∀ h h' i, m !! h = Some i → is_Some (m !! h') → h ≠ h' → h' ∉ targets (transaction i).
Record ConflictInv g : Prop := { ci_records : records g (vmap g); ci_free : conflict_free (vmap g) }.

Lemma conflict_free_sub m m' : m' ⊆ m → conflict_free m → conflict_free m'.
Proof. intros Hs Hf h h' i Hi [j Hj] Hne. eapply Hf; [by eapply lookup_weaken | exists j; by eapply lookup_weaken | done]. Qed.
Lemma records_ext g g' m : conflicts g' = conflicts g → records g m → records g' m.
Proof. intros E Hr t h. unfold recorded. rewrite E. apply Hr. Qed.

(** ** Bookkeeping *)

Lemma context_add_conflicts tx g : conflicts (context_add tx g) = conflicts g.
Proof. unfold context_add. by destruct (oracle_response_id tx), (payer_of tx). Qed.
Lemma context_remove_conflicts tx g : conflicts (context_remove tx g) = conflicts g.
Proof. unfold context_remove. destruct (oracle_response_id tx), (payer_of tx); cbn; repeat case_match; done. Qed.
Lemma recorded_forget h g t : recorded (forget_conflicts h g) t = recorded g t ∖ {[h]}.
Proof.
  unfold recorded. cbn. rewrite lookup_omap. destruct (conflicts g !! t) as [s|]; cbn; [|set_solver].
  case_bool_decide as E; cbn; [by rewrite E | done].
Qed.
Lemma drop_verified_recorded h g t :
  recorded (drop_verified h g).1 t = if vmap g !! h then recorded g t ∖ {[h]} else recorded g t.
Proof.
  unfold drop_verified, index_remove. destruct (vmap g !! h) as [i|]; [|done]. cbn [fst].
  rewrite recorded_forget. unfold recorded. by rewrite context_remove_conflicts.
Qed.
Lemma drop_verified_records h g m : m ⊆ vmap g → records g m → records (drop_verified h g).1 (delete h m).
Proof.
  intros Hs Hr t h'. rewrite drop_verified_recorded. setoid_rewrite lookup_delete_Some. destruct (vmap g !! h) as [x|] eqn:E.
  - rewrite elem_of_difference, not_elem_of_singleton, (Hr t h'). naive_solver.
  - rewrite (Hr t h'). assert (m !! h = None) as Hn by (by eapply lookup_weaken_None). split; [|naive_solver].
    intros (i & Hi & Ht). exists i. split; [split; [by intros ->; rewrite Hn in Hi | done] | done].
Qed.
Lemma drop_conflicts_records l g m : m ⊆ vmap g → records g m → records (drop_conflicts l g) (without l m).
Proof.
  unfold drop_conflicts, without. revert g m. induction l as [|c l IH]; intros g m Hs Hr; [done|]. cbn [foldl].
  apply IH; [|by apply drop_verified_records]. rewrite drop_verified_vmap. by apply delete_mono.
Qed.
Lemma recorded_record h hs g t :
  recorded (record_conflicts h hs g) t = (if bool_decide (t ∈ hs) then {[h]} else ∅) ∪ recorded g t.
Proof.
  unfold record_conflicts. revert g. induction hs as [|x hs IH]; intros g; [set_solver|]. cbn [foldl]. rewrite IH.
  assert (recorded (g <| conflicts ::= λ c, <[x := {[h]} ∪ default ∅ (c !! x)]> c |>) t =
    if decide (x = t) then {[h]} ∪ recorded g t else recorded g t) as ->.
  { unfold recorded. cbn. destruct (decide (x = t)) as [->|Hne]; [by rewrite lookup_insert_eq | by rewrite lookup_insert_ne]. }
  destruct (decide (x = t)) as [->|Hne].
  - rewrite (bool_decide_true (t ∈ t :: hs)) by (by constructor). case_bool_decide; set_solver.
  - by rewrite (bool_decide_ext (t ∈ x :: hs) (t ∈ hs)) by (rewrite elem_of_cons; naive_solver).
Qed.
Lemma without_insert l m h i : h ∉ item_hash <$> l → without l (<[h := i]> m) = <[h := i]> (without l m).
Proof.
  intros Hn. apply map_eq. intros h'. rewrite without_lookup. destruct (decide (h = h')) as [<-|Hne].
  - rewrite !lookup_insert_eq. by rewrite bool_decide_false.
  - by rewrite !lookup_insert_ne, without_lookup.
Qed.

Lemma naming_ext g g' author hs acc : verified g' = verified g → naming g' author hs acc = naming g author hs acc.
Proof. intros E. revert acc. induction hs as [|h hs IH]; intros acc; cbn; [done|]. rewrite E. case_match; apply IH. Qed.
Lemma named_ext g g' tx hs acc : verified g' = verified g → named g' tx hs acc = named g tx hs acc.
Proof.
  intros E. revert acc. induction hs as [|h hs IH]; intros acc; cbn; [done|]. rewrite E. case_match; [|apply IH].
  case_match; [done | apply IH].
Qed.
Lemma check_conflicts_ext g g' tx :
  verified g' = verified g → conflicts g' = conflicts g → check_conflicts g' tx = check_conflicts g tx.
Proof. intros Ev Ec. unfold check_conflicts. by rewrite Ec, (naming_ext g g'), (named_ext g g'). Qed.

(** ** Insertion and removal *)

Lemma ConflictInv_ext g g' : verified g' = verified g → conflicts g' = conflicts g → ConflictInv g → ConflictInv g'.
Proof. intros Ev Ec [Hr Hf]. split; rewrite Ev; [by eapply records_ext | done]. Qed.
Lemma ConflictInv_drop h g : ConflictInv g → ConflictInv (drop_verified h g).1.
Proof.
  intros [Hr Hf]. split; rewrite drop_verified_vmap; [by apply drop_verified_records|].
  eapply conflict_free_sub; [apply delete_subseteq | done].
Qed.
Lemma ConflictInv_insert i l g :
  queues_ok g → ConflictInv g → vmap g !! item_hash i = None → umap g !! item_hash i = None →
  check_conflicts g (transaction i) = Some l → ConflictInv (insert_verified i (item_hash i) l g).
Proof.
  intros Hg [Hr Hf] Hv Hu Hl. pose proof (check_conflicts_fresh _ _ _ _ Hg Hl Hv) as Hn.
  destruct (insert_verified_ok i l g Hg Hu) as (_ & Em & _). rewrite without_insert in Em by done.
  split; rewrite Em.
  - unfold insert_verified. set (g1 := context_add _ _). set (g2 := drop_conflicts l g1).
    assert (records g2 (without l (vmap g))) as Hr2.
    { apply drop_conflicts_records.
      - unfold g1. autorewrite with queues. cbn. by apply insert_subseteq.
      - eapply records_ext; [|exact Hr]. unfold g1. by rewrite context_add_conflicts. }
    intros t h. rewrite recorded_record, elem_of_union, (Hr2 t h). setoid_rewrite lookup_insert_Some.
    case_bool_decide as Ht.
    + rewrite elem_of_singleton. split.
      * intros [->|(j & Hj & Htj)]; [naive_solver|]. exists j. split; [right; split; [|done] | done].
        intros <-. rewrite without_lookup, bool_decide_false, Hv in Hj by done. done.
      * naive_solver.
    + split; [|naive_solver]. intros [?|(j & Hj & Htj)]; [set_solver|]. exists j. split; [right; split; [|done] | done].
      intros <-. rewrite without_lookup, bool_decide_false, Hv in Hj by done. done.
  - assert (l = in_verified g (iter_set (recorded g (Tx.hash (transaction i)))) ++ in_verified g (targets (transaction i))) as El
      by (by apply check_conflicts_items).
    assert (∀ h j, without l (vmap g) !! h = Some j → vmap g !! h = Some j ∧ h ∉ item_hash <$> l) as Hw.
    { intros h j. rewrite without_lookup. by case_bool_decide. }
    assert (∀ hs h j, vmap g !! h = Some j → h ∈ hs → h ∈ item_hash <$> in_verified g hs) as Hin.
    { intros hs h j Hj Hh. apply list_elem_of_fmap. exists j. split; [by rewrite (ok_hash _ _ _ (q_verified _ Hg) Hj)|].
      apply list_elem_of_omap. by exists h. }
    intros h h' j. rewrite lookup_insert_Some. intros [[<- <-]|[Hne Hj]] [j' Hj'] Hhh.
    + rewrite lookup_insert_ne in Hj' by done. apply Hw in Hj' as [Hj' Hnl]. intros Ht. apply Hnl.
      rewrite El, fmap_app, elem_of_app. right. by eapply Hin.
    + apply Hw in Hj as [Hj Hnl]. apply lookup_insert_Some in Hj' as [[<- <-]|[Hne' Hj']].
      * intros Ht. apply Hnl. rewrite El, fmap_app, elem_of_app. left. eapply Hin; [exact Hj|].
        apply elem_of_iter_set, Hr. by exists j.
      * apply Hw in Hj' as [Hj' _]. by eapply Hf.
Qed.

(** ** Eviction *)

Lemma remove_lowest_fee_cases g :
  queues_ok g → (remove_lowest_fee g).1 = g ∨ (∃ p, (remove_lowest_fee g).1 = g <| unverified := p |>) ∨
    (∃ h, (remove_lowest_fee g).1 = (drop_verified h g).1).
Proof.
  intros Hg. unfold remove_lowest_fee.
  assert (∀ v, head (items (verified g)) = Some v →
    forget_conflicts (item_hash v) (context_remove (transaction v)
      (g <| verified := (index_remove (item_hash v) (verified g)).1 |>)) = (drop_verified (item_hash v) g).1) as Hd.
  { intros v Hv. destruct (lowest_head _ _ (q_verified _ Hg) Hv) as [Hin _].
    unfold drop_verified, index_remove. by rewrite (ok_lookup _ _ (q_verified _ Hg) Hin). }
  destruct (head (items (verified g))) as [v|]; destruct (head (items (unverified g))) as [u|]; [destruct (compare_to v u)|..];
    cbn [fst]; try (right; left; eexists; reflexivity); try (right; right; eexists; by apply Hd). by left.
Qed.
Lemma remove_over_capacity_rule (P : MemoryPoolInner → Prop) n capacity h r g g' r' :
  (∀ g p, P g → P (g <| unverified := p |>)) → (∀ g h, P g → P (drop_verified h g).1) →
  queues_ok g → P g → remove_over_capacity n capacity h r g = Some (g', r') → P g'.
Proof.
  intros Hu Hv. revert r g. induction n as [|n IH]; intros r g Hq Hg; cbn [remove_over_capacity];
    destruct (Nat.ltb_spec capacity (total_count g)) as [Hlt|Hge]; [done|by intros [= <- <-]| |by intros [= <- <-]].
  destruct (remove_lowest_fee_spec g Hq ltac:(lia)) as (d & g1 & E & Hq1 & _). pose proof (remove_lowest_fee_cases g Hq) as Hc.
  rewrite E in Hc |- *. cbn [fst] in Hc. apply IH; [done|].
  destruct Hc as [->|[[p ->]|[x ->]]]; [done | by apply Hu | by apply Hv].
Qed.
Lemma ConflictInv_insert_validated i l capacity g g' r :
  queues_ok g → ConflictInv g → vmap g !! item_hash i = None → umap g !! item_hash i = None →
  check_conflicts g (transaction i) = Some l →
  insert_validated i (item_hash i) l capacity g = Some (g', r) → ConflictInv g'.
Proof.
  intros Hq Hg Hv Hu Hl. unfold insert_validated. apply (remove_over_capacity_rule ConflictInv).
  - intros g0 p Hg0. by eapply ConflictInv_ext; [..|exact Hg0].
  - intros g0 x Hg0. by apply ConflictInv_drop.
  - by apply insert_verified_ok.
  - by apply ConflictInv_insert.
Qed.

(** ** The other operations *)

Lemma ConflictInv_empty g : vmap g = ∅ → conflicts g = ∅ → ConflictInv g.
Proof.
  intros Ev Ec. split; rewrite Ev.
  - intros t h. unfold recorded. rewrite Ec, lookup_empty. cbn. split; [set_solver|]. intros (i & Hi & _). by rewrite lookup_empty in Hi.
  - intros h h' i Hi. by rewrite lookup_empty in Hi.
Qed.
Lemma ConflictInv_persisted txs g : ConflictInv g → ConflictInv (update_pool_for_block_persisted txs g).1.
Proof.
  intros Hg. unfold update_pool_for_block_persisted. case_match; [done|].
  destruct (foldl persist_one _ _) as [[g1 m] s]. destruct (foldl _ _ _) as [g2 r]. by apply ConflictInv_empty.
Qed.
Lemma drop_unverified_same h g :
  verified (drop_unverified h g).1 = verified g ∧ conflicts (drop_unverified h g).1 = conflicts g.
Proof.
  unfold drop_unverified, index_remove. destruct (umap g !! h); [|done]. cbn [fst].
  rewrite context_remove_conflicts. by autorewrite with queues.
Qed.
Lemma ConflictInv_commit hs g : ConflictInv g → ConflictInv (commit_block hs g).1.
Proof.
  unfold commit_block. generalize (@nil (Transaction * TransactionRemovalReason)) as r.
  revert g. induction hs as [|h hs IH]; intros g r Hg; [done|]. cbn [foldl]. unfold commit_one at 2. cbn [fst snd].
  set (g0 := g <| verification_context ::= confirm h |>).
  assert (ConflictInv g0) as Hg0 by (by eapply ConflictInv_ext; [..|exact Hg]).
  pose proof (ConflictInv_drop h g0 Hg0) as Hd. destruct (drop_verified h g0) as [g1 o1]. cbn in Hd.
  pose proof (drop_unverified_same h g1) as [Ev Ec]. destruct (drop_unverified h g1) as [g2 o2]. cbn in Ev, Ec.
  apply IH. by eapply ConflictInv_ext.
Qed.
End conflicts.

Section runs.
Context {Snapshot : Type} {crypto : Crypto} {ripemd : Ripemd} {curves : Curves} {ecdsa : Ecdsa} {order : HashOrder}.
Context {native : AdmissionNativeProvider Snapshot} {state : AdmissionState Snapshot}.
Context (native_ledger ledger : AdmissionLedgerProvider Snapshot) (settings : ProtocolSettings) (capacity : nat).
Implicit Types (g : MemoryPoolInner) (tx : Transaction) (op : PoolOp Snapshot).

(** The operations that keep the conflict index. *)
Definition tracked op : bool := match op with ReverifiedAll _ | Removed _ => false | _ => true end.

Lemma ConflictInv_add origin tx now now' snapshot g g' out :
  0 < capacity → PoolInv capacity g → ConflictInv g →
  add_transaction ledger settings capacity origin tx now now' snapshot g = Some (g', out) → ConflictInv g'.
Proof.
  intros Hcap Hg Hc E. destruct (add_transaction_cases ledger settings capacity origin tx now now' snapshot g Hg Hcap)
    as (g1 & o1 & E1 & Hcase). rewrite E1 in E. injection E as -> ->.
  destruct Hcase as [->|(h & l & r & Eh & Ec & El & _ & Ei & _)]; [done|]. destruct (contains_false _ _ Ec) as [Hv Hu].
  set (i := mkItem tx origin now now') in *. assert (item_hash i = h) as Eih by (by apply try_hash_hash). rewrite <- Eih in *.
  eapply ConflictInv_insert_validated; [apply Hg|done..|exact Ei].
Qed.
Lemma ConflictInv_reverify_top snapshot n g :
  PoolInv capacity g → ConflictInv g → ConflictInv (reverify_top_unverified native_ledger settings snapshot n g).1.
Proof.
  intros Hg Hc.
  apply (reverify_top_rule native_ledger settings (λ g, PoolInv capacity g ∧ ConflictInv g)); [apply Hg | done|..].
  - intros g' i [Hg' Hc'] Hi. split.
    + eapply (PoolInv_drop_unverified _ (item_hash i)); [exact Hg'|by autorewrite with queues..].
    + eapply ConflictInv_ext; [..|exact Hc']; [by autorewrite with queues | by rewrite context_remove_conflicts].
  - intros g' i l [Hg' Hc'] Hi Hl. split; [by apply PoolInv_move|].
    set (g0 := g' <| unverified ::= _ |>).
    assert (umap g0 !! item_hash i = None) as Hn.
    { change (umap g0) with (hashes (index_remove (item_hash i) (unverified g')).1). rewrite index_remove_hashes. apply lookup_delete_eq. }
    apply ConflictInv_insert; [| |eapply map_disjoint_Some_r; [apply Hg' | done]|done|by rewrite (check_conflicts_ext g')].
    + eapply (PoolInv_drop_unverified capacity (item_hash i)); [exact Hg'|done..].
    + by eapply ConflictInv_ext; [..|exact Hc'].
Qed.
Lemma ConflictInv_run ops g g' :
  0 < capacity → Forall (λ op, tracked op = true) ops → PoolInv capacity g → ConflictInv g →
  pool_run native_ledger ledger settings capacity ops g = Some g' → ConflictInv g'.
Proof.
  intros Hcap Hops. revert g. induction Hops as [|op ops Hop _ IH]; intros g Hg Hc; [by intros [= <-]|]. cbn [pool_run].
  destruct (PoolInv_step native_ledger ledger settings capacity op g Hcap Hg) as (g1 & E & Hg1). rewrite E. cbn.
  apply IH; [done|]. clear IH. destruct op as [o tx n n' s|b|s n|hs|v|h]; cbn [pool_step] in E; [|simplify_eq..].
  - apply fmap_Some in E as ([g2 out] & E & ->). exact (ConflictInv_add o tx n n' s g g2 out Hcap Hg Hc E).
  - by apply ConflictInv_persisted.
  - by apply ConflictInv_reverify_top.
  - by apply ConflictInv_commit.
Qed.
End runs.
