(* ===== verification/MempoolFees.v ===== *)
(** * Fee accounting

    While transactions are admitted on one snapshot, the pool's record of the fees
    pooled for a payer is the sum of the fees of its verified transactions, every
    oracle request has at most one response, and no payer owes more than its balance. *)
From S2P Require Import Prelude Primitives Order Hashing Io EcPoint RecordUpdate Multisig Signing Transaction Admission AdmissionFacts.
From S2P Require Import Mempool MempoolIndex MempoolFacts MempoolInv MempoolConflicts.
#[local] Open Scope Z_scope.
#[local] Open Scope update_scope.

Section fees.
Context {crypto : Crypto} {curves : Curves} {order : HashOrder}.
Implicit Types (g : MemoryPoolInner) (tx : Transaction) (h t : UInt256.t) (i j : PoolItem) (l : list PoolItem).
Implicit Types (m : gmap UInt256.t PoolItem) (p : FeePayer).

(** What [i] owes on the account of [p]. *)
Definition owes p i : Z := if bool_decide (payer_of (transaction i) = Some p) then total_fee (transaction i) else 0.
(** The fees of the transactions of [m] that [p] pays. *)
Definition fee_sum m p : Z := map_fold (λ _ i sum, owes p i + sum) 0 m.

Lemma fee_sum_empty p : fee_sum ∅ p = 0.
Proof. apply map_fold_empty. Qed.
Lemma fee_sum_insert m p h i : m !! h = None → fee_sum (<[h := i]> m) p = owes p i + fee_sum m p.
Proof. intros Hn. unfold fee_sum. apply (map_fold_insert_L (λ _ i sum, owes p i + sum)); [|done]. intros. lia. Qed.
Lemma fee_sum_delete m p h i : m !! h = Some i → fee_sum (delete h m) p = fee_sum m p - owes p i.
Proof.
  intros Hi. rewrite <- (insert_delete_id m h i Hi) at 2. rewrite fee_sum_insert by apply lookup_delete_eq. lia.
Qed.
Definition nonneg m : Prop := ∀ h i, m !! h = Some i → 0 ≤ total_fee (transaction i).
Lemma nonneg_sub m m' : m' ⊆ m → nonneg m → nonneg m'.
Proof. intros Hs Hn h i Hi. eapply Hn. by eapply lookup_weaken. Qed.
Lemma owes_nonneg m h i p : nonneg m → m !! h = Some i → 0 ≤ owes p i.
Proof. intros Hn Hi. unfold owes. case_bool_decide; [by eapply Hn | done]. Qed.
Lemma fee_sum_mono m m' p : m' ⊆ m → nonneg m → fee_sum m' p ≤ fee_sum m p.
Proof.
  revert m'. induction m as [|h i m Hn IH] using map_ind; intros m' Hs Hnn.
  { replace m' with (∅ : gmap UInt256.t PoolItem); [lia|]. apply (anti_symm (⊆)); [apply map_empty_subseteq | done]. }
  assert (nonneg m) as Hnm by (eapply nonneg_sub; [by apply insert_subseteq | done]).
  assert (0 ≤ owes p i) as Hi by (eapply owes_nonneg; [exact Hnn | apply lookup_insert_eq]).
  rewrite fee_sum_insert by done. destruct (m' !! h) as [j|] eqn:E.
  - assert (j = i) as -> by (pose proof (lookup_weaken _ _ _ _ E Hs) as Hj; rewrite lookup_insert_eq in Hj; congruence).
    assert (fee_sum (delete h m') p ≤ fee_sum m p) as Hle.
    { apply IH; [|done]. etrans; [apply (delete_mono _ _ h Hs)|]. by rewrite delete_insert_id. }
    rewrite (fee_sum_delete m' p h i E) in Hle. lia.
  - assert (m' ⊆ m) as Hs' by (rewrite <- (delete_id m' h E), <- (delete_insert_id m h i Hn); by apply delete_mono).
    specialize (IH m' Hs' Hnm). lia.
Qed.
Lemma fee_sum_nonneg m p : nonneg m → 0 ≤ fee_sum m p.
Proof. intros Hn. rewrite <- (fee_sum_empty p). apply fee_sum_mono; [apply map_empty_subseteq | done]. Qed.

(** ** The bookkeeping is exact *)

Record FeeInv g : Prop := {
  fi_fees p : default 0 (sender_fees g !! p) = fee_sum (vmap g) p;
  fi_nonneg : nonneg (vmap g);
  fi_oracle id h : oracle_responses g !! id = Some h ↔ ∃ i, vmap g !! h = Some i ∧ oracle_response_id (transaction i) = Some id;
}.
Lemma FeeInv_ext g g' :
  verified g' = verified g → sender_fees g' = sender_fees g → oracle_responses g' = oracle_responses g → FeeInv g → FeeInv g'.
Proof. intros Ev Es Eo [H1 H2 H3]. split; rewrite ?Ev, ?Es, ?Eo; done. Qed.

Lemma context_add_fees tx g p :
  default 0 (sender_fees (context_add tx g) !! p) =
  default 0 (sender_fees g !! p) + (if bool_decide (payer_of tx = Some p) then total_fee tx else 0).
Proof.
  unfold context_add. set (g0 := match oracle_response_id tx with Some _ => _ | None => g end).
  assert (sender_fees g0 = sender_fees g) as E by (unfold g0; by destruct (oracle_response_id tx)).
  destruct (payer_of tx) as [q|]; [|rewrite bool_decide_false by done; rewrite E; lia]. cbn. rewrite E.
  destruct (decide (q = p)) as [->|Hne]; [rewrite lookup_insert_eq, bool_decide_true by done; done|].
  rewrite lookup_insert_ne by done. rewrite bool_decide_false by congruence. lia.
Qed.
Lemma context_add_oracle tx g id :
  oracle_responses (context_add tx g) !! id =
  if bool_decide (oracle_response_id tx = Some id) then Some (Tx.hash tx) else oracle_responses g !! id.
Proof.
  unfold context_add. destruct (oracle_response_id tx) as [x|], (payer_of tx); cbn; rewrite ?bool_decide_false by done; try done;
    (destruct (decide (x = id)) as [->|Hne]; [by rewrite lookup_insert_eq, bool_decide_true|]);
    by rewrite lookup_insert_ne, bool_decide_false by congruence.
Qed.
Lemma context_remove_oracle tx g id :
  oracle_responses (context_remove tx g) !! id =
  if bool_decide (oracle_response_id tx = Some id) then None else oracle_responses g !! id.
Proof.
  unfold context_remove. set (g0 := match oracle_response_id tx with Some _ => _ | None => g end).
  assert (oracle_responses g0 !! id = if bool_decide (oracle_response_id tx = Some id) then None else oracle_responses g !! id) as E.
  { unfold g0. destruct (oracle_response_id tx) as [x|]; [|done]. cbn. destruct (decide (x = id)) as [->|Hne].
    - by rewrite lookup_delete_eq, bool_decide_true.
    - by rewrite lookup_delete_ne, bool_decide_false by congruence. }
  rewrite <- E. clearbody g0. repeat case_match; done.
Qed.
Lemma context_remove_fees tx g p :
  total_fee tx ≤ default 0 (sender_fees g !! p) ∨ payer_of tx ≠ Some p → 0 ≤ total_fee tx →
  default 0 (sender_fees (context_remove tx g) !! p) =
  default 0 (sender_fees g !! p) - (if bool_decide (payer_of tx = Some p) then total_fee tx else 0).
Proof.
  intros Hle Hnn. unfold context_remove. set (g0 := match oracle_response_id tx with Some _ => _ | None => g end).
  assert (sender_fees g0 = sender_fees g) as E by (unfold g0; by destruct (oracle_response_id tx)). rewrite E.
  destruct (payer_of tx) as [q|] eqn:Eq; [|rewrite bool_decide_false by done; rewrite E; lia].
  destruct (decide (q = p)) as [->|Hne].
  - rewrite bool_decide_true by done. destruct Hle as [Hle|]; [|done]. destruct (sender_fees g !! p) as [s|] eqn:Es; cbn in *.
    + destruct (Z.leb_spec (s - total_fee tx) 0); cbn; rewrite E; [rewrite lookup_delete_eq; cbn; lia | by rewrite lookup_insert_eq].
    + rewrite E, Es. cbn. lia.
  - rewrite bool_decide_false by congruence. destruct (sender_fees g !! q) as [s|]; [|rewrite E; lia].
    destruct (s - total_fee tx <=? 0); cbn; rewrite E; [rewrite lookup_delete_ne by done | rewrite lookup_insert_ne by done]; lia.
Qed.

Lemma FeeInv_drop h g : FeeInv g → FeeInv (drop_verified h g).1.
Proof.
  intros [Hf Hn Ho]. destruct (vmap g !! h) as [i|] eqn:Ei.
  2:{ unfold drop_verified, index_remove. by rewrite Ei. }
  assert (0 ≤ total_fee (transaction i)) as Hi by (by eapply Hn).
  assert (∀ p, owes p i ≤ fee_sum (vmap g) p) as Hle.
  { intros p. pose proof (fee_sum_nonneg (delete h (vmap g)) p (nonneg_sub _ _ (delete_subseteq _ _) Hn)) as Hd.
    rewrite (fee_sum_delete _ _ _ _ Ei) in Hd. lia. }
  set (g1 := g <| verified := (index_remove h (verified g)).1 |>).
  assert ((drop_verified h g).1 = forget_conflicts h (context_remove (transaction i) g1)) as ->.
  { unfold drop_verified, g1, index_remove. by rewrite Ei. }
  assert (vmap (forget_conflicts h (context_remove (transaction i) g1)) = delete h (vmap g)) as Em.
  { autorewrite with queues. apply index_remove_hashes. }
  split; rewrite ?Em.
  - intros p. change (sender_fees (forget_conflicts h ?x)) with (sender_fees x).
    rewrite (fee_sum_delete _ _ _ _ Ei), <- Hf. unfold owes in *. rewrite context_remove_fees; [done| |done].
    change (sender_fees g1) with (sender_fees g). rewrite Hf. specialize (Hle p). case_bool_decide; [by left | by right].
  - eapply nonneg_sub; [apply delete_subseteq | done].
  - intros id h'. change (oracle_responses (forget_conflicts h ?x)) with (oracle_responses x).
    rewrite context_remove_oracle. change (oracle_responses g1) with (oracle_responses g). setoid_rewrite lookup_delete_Some.
    case_bool_decide as Eid.
    + split; [done|]. intros (j & [Hne Hj] & Hjo). destruct Hne.
      assert (oracle_responses g !! id = Some h) as H1 by (apply Ho; by exists i).
      assert (oracle_responses g !! id = Some h') as H2 by (apply Ho; by exists j). congruence.
    + rewrite Ho. split; [|naive_solver]. intros (j & Hj & Hjo). exists j. split; [split; [|done] | done].
      intros <-. congruence.
Qed.
Lemma FeeInv_drops l g : FeeInv g → FeeInv (drop_conflicts l g).
Proof. unfold drop_conflicts. revert g. induction l as [|c l IH]; intros g Hg; [done|]. by apply IH, FeeInv_drop. Qed.
Lemma record_conflicts_fees h hs g :
  sender_fees (record_conflicts h hs g) = sender_fees g ∧ oracle_responses (record_conflicts h hs g) = oracle_responses g.
Proof. unfold record_conflicts. revert g. induction hs as [|t hs IH]; intros g; [done|]. cbn. by rewrite !(proj1 (IH _)), !(proj2 (IH _)). Qed.
Lemma FeeInv_insert i l g :
  FeeInv g → vmap g !! item_hash i = None → 0 ≤ total_fee (transaction i) → oracle_duplicate g (transaction i) = false →
  FeeInv (insert_verified i (item_hash i) l g).
Proof.
  intros [Hf Hn Ho] Hv Hnn Hd. unfold insert_verified.
  set (g1 := context_add (transaction i) (g <| verified ::= index_insert i |>)).
  assert (FeeInv g1) as Hg1.
  { assert (vmap g1 = <[item_hash i := i]> (vmap g)) as Em by (unfold g1; by autorewrite with queues).
    split; rewrite ?Em.
    - intros p. unfold g1. rewrite context_add_fees, fee_sum_insert by done. cbn. rewrite Hf. unfold owes. lia.
    - intros h j [[<- <-]|[_ Hj]]%lookup_insert_Some; [done | by eapply Hn].
    - intros id h. unfold g1. rewrite context_add_oracle. cbn. setoid_rewrite lookup_insert_Some. case_bool_decide as Eid.
      + unfold oracle_duplicate in Hd. rewrite Eid, bool_decide_eq_false, <- eq_None_not_Some in Hd. split.
        * intros [= <-]. exists i. split; [by left | done].
        * intros (j & [[<- <-]|[Hne Hj]] & Hjo); [done|]. assert (oracle_responses g !! id = Some h) as E by (apply Ho; by exists j).
          congruence.
      + rewrite Ho. split; [|naive_solver]. intros (j & Hj & Hjo). exists j. split; [right; split; [|done] | done].
        intros <-. congruence. }
  destruct (record_conflicts_fees (item_hash i) (targets (transaction i)) (drop_conflicts l g1)) as [Es Eo].
  eapply FeeInv_ext; [by autorewrite with queues | exact Es | exact Eo | by apply FeeInv_drops].
Qed.
End fees.

(** ** Replacing conflicts *)

Section rebate.
Context {crypto : Crypto} {curves : Curves} {order : HashOrder}.
Implicit Types (g : MemoryPoolInner) (tx : Transaction) (h t : UInt256.t) (i j : PoolItem) (l : list PoolItem).
Implicit Types (m : gmap UInt256.t PoolItem) (p : FeePayer).

Lemma rebate_owes l p : conflict_rebate l (Some p) = foldr Z.add 0 (owes p <$> l).
Proof.
  unfold conflict_rebate. induction l as [|c l IH]; [done|]. rewrite filter_cons, fmap_cons. cbn [foldr]. unfold owes at 1.
  case_decide as Hd; case_bool_decide as Hb.
  - exact (f_equal (Z.add _) IH).
  - by destruct Hd.
  - destruct Hd. by split.
  - exact IH.
Qed.
Lemma fee_sum_without l m p :
  NoDup (item_hash <$> l) → (∀ c, c ∈ l → m !! item_hash c = Some c) →
  fee_sum (without l m) p = fee_sum m p - foldr Z.add 0 (owes p <$> l).
Proof.
  unfold without. revert m. induction l as [|c l IH]; intros m Hnd Hl; [cbn; lia|]. cbn [foldl fmap list_fmap foldr].
  rewrite fmap_cons, NoDup_cons in Hnd. rewrite IH; [|apply Hnd|].
  - rewrite (fee_sum_delete m p (item_hash c) c) by (apply Hl; by constructor). lia.
  - intros d Hd. rewrite lookup_delete_ne; [apply Hl; by constructor|]. intros E. apply Hnd. rewrite E.
    by apply list_elem_of_fmap_2.
Qed.
Lemma in_verified_hashes g hs h :
  queues_ok g → h ∈ item_hash <$> in_verified g hs → h ∈ hs ∧ ∃ i, vmap g !! h = Some i.
Proof.
  intros Hg (i & -> & Hi)%list_elem_of_fmap. apply list_elem_of_omap in Hi as (h & Hh & Hi).
  pose proof (ok_hash _ _ _ (q_verified _ Hg) Hi) as E. rewrite E. split; [done | by exists i].
Qed.
Lemma in_verified_nodup g hs : queues_ok g → NoDup hs → NoDup (item_hash <$> in_verified g hs).
Proof.
  intros Hg. induction 1 as [|h hs Hn _ IH]; [constructor|]. unfold in_verified. cbn [omap list_omap].
  destruct (vmap g !! h) as [i|] eqn:E; [|exact IH]. rewrite fmap_cons. constructor; [|exact IH].
  rewrite (ok_hash _ _ _ (q_verified _ Hg) E). intros [? _]%in_verified_hashes; done.
Qed.
(** No two transactions name each other: their hashes would depend on each other. *)
Definition acyclic (txs : list Transaction) : Prop :=
  ∀ a b, a ∈ txs → b ∈ txs → Tx.hash a ∈ targets b → Tx.hash b ∉ targets a.
Lemma conflicts_nodup g tx l txs :
  queues_ok g → ConflictInv g → check_conflicts g tx = Some l → NoDup (targets tx) → acyclic txs → tx ∈ txs →
  (∀ h i, vmap g !! h = Some i → transaction i ∈ txs) → NoDup (item_hash <$> l).
Proof.
  intros Hg Hc ->%check_conflicts_items Hnd Hac Htx Hin. rewrite fmap_app. apply NoDup_app. split; [|split].
  - apply in_verified_nodup; [done | apply NoDup_iter_set].
  - intros h H1 H2. apply in_verified_hashes in H1 as [H1 [i Hi]]; [|done]. apply in_verified_hashes in H2 as [H2 _]; [|done].
    apply elem_of_iter_set, (ci_records _ Hc) in H1 as (j & Hj & Hjt). assert (j = i) as -> by congruence.
    apply (Hac tx (transaction i) Htx (Hin _ _ Hi) Hjt).
    change (Tx.hash (transaction i)) with (item_hash i). by rewrite (ok_hash _ _ _ (q_verified _ Hg) Hi).
  - by apply in_verified_nodup.
Qed.
End rebate.

(** ** Solvency *)

Section solvency.
Context {Snapshot : Type} {crypto : Crypto} {ripemd : Ripemd} {curves : Curves} {ecdsa : Ecdsa} {order : HashOrder}.
Context {native : AdmissionNativeProvider Snapshot} {state : AdmissionState Snapshot}.
Context (native_ledger ledger : AdmissionLedgerProvider Snapshot) (settings : ProtocolSettings) (capacity : nat).
Context (snapshot : Snapshot).
Implicit Types (g : MemoryPoolInner) (tx : Transaction) (m : gmap UInt256.t PoolItem) (p : FeePayer).

(** The account a payer pays from. *)
Definition payer_balance p : CoreResult Z :=
  match secondary p with Some a => notary_balance snapshot a | None => gas_balance snapshot (primary p) end.
Definition solvent m : Prop :=
  ∀ p, fee_sum m p = 0 ∨ ∃ balance, payer_balance p = Ok balance ∧ fee_sum m p ≤ balance.

Lemma solvent_sub m m' : m' ⊆ m → nonneg m → solvent m → solvent m'.
Proof.
  intros Hs Hn Hsol p. pose proof (fee_sum_mono m m' p Hs Hn). pose proof (fee_sum_nonneg m' p (nonneg_sub _ _ Hs Hn)).
  destruct (Hsol p) as [E|(b & Hb & Hle)]; [left; lia | right; exists b; split; [done | lia]].
Qed.
Lemma fee_payer_balance_payer tx balance :
  notary_hash = Ok NOTARY_HASH → fee_payer_balance snapshot tx = Ok (Some balance) →
  ∃ p, payer_of tx = Some p ∧ payer_balance p = Ok balance.
Proof.
  intros Hn. unfold fee_payer_balance, Tx.sender, payer_of. destruct (signers tx) as [|a ss]; [done|]. cbn. rewrite Hn. cbn.
  destruct ss as [|b ss]; [|case_bool_decide]; intros (x & Hx & [= <-])%Result_bind_ok; by eexists.
Qed.
Lemma insert_solvent i l g txs :
  notary_hash = Ok NOTARY_HASH → queues_ok g → ConflictInv g → FeeInv g → solvent (vmap g) →
  vmap g !! item_hash i = None → umap g !! item_hash i = None → 0 ≤ total_fee (transaction i) →
  check_conflicts g (transaction i) = Some l →
  verify_state_dependent (AdmissionLedgerProvider0 := ledger) (transaction i) snapshot settings
    (effective_pooled_fee g (transaction i) l) (oracle_duplicate g (transaction i)) = VerifyResult.Succeed →
  acyclic txs → transaction i ∈ txs → (∀ h j, vmap g !! h = Some j → transaction j ∈ txs) →
  solvent (vmap (insert_verified i (item_hash i) l g)).
Proof.
  intros Hnot Hq Hc Hf Hsol Hv Hu Hnn Hl (_ & Hnd & balance & Hb & Hle)%state_dependent_funds Hac Htx Hin.
  destruct (fee_payer_balance_payer _ _ Hnot Hb) as (p0 & Hp0 & Hb0).
  destruct (insert_verified_ok i l g Hq Hu) as (_ & -> & _).
  pose proof (check_conflicts_fresh _ _ _ _ Hq Hl Hv) as Hfresh. rewrite without_insert by done.
  assert (without l (vmap g) !! item_hash i = None) as Hn by (by rewrite without_lookup, bool_decide_false).
  assert (nonneg (vmap g)) as Hnv by apply Hf.
  pose proof (conflicts_nodup g (transaction i) l txs Hq Hc Hl Hnd Hac Htx Hin) as Hndl.
  intros p. rewrite fee_sum_insert by done. unfold owes. rewrite Hp0. case_bool_decide as E.
  - injection E as <-. right. exists balance. split; [done|].
    rewrite fee_sum_without; [|done|intros c; by apply (check_conflicts_verified g (transaction i))].
    unfold effective_pooled_fee in Hle. rewrite Hp0 in Hle. cbn [mbind option_bind] in Hle.
    rewrite rebate_owes, (fi_fees _ Hf) in Hle. unfold total_fee. lia.
  - destruct (solvent_sub _ _ (without_subseteq l (vmap g)) Hnv Hsol p) as [->|(b & Hbp & Hle')]; [by left | right].
    exists b. split; [done | lia].
Qed.

(** The state between two blocks. *)
Record Admitting (txs : list Transaction) g : Prop := {
  ad_pool : PoolInv capacity g;
  ad_conflicts : ConflictInv g;
  ad_fees : FeeInv g;
  ad_solvent : solvent (vmap g);
  ad_submitted h i : vmap g !! h = Some i → transaction i ∈ txs;
}.
Lemma evicted_fees i l g g' r :
  queues_ok (insert_verified i (item_hash i) l g) → FeeInv (insert_verified i (item_hash i) l g) →
  insert_validated i (item_hash i) l capacity g = Some (g', r) →
  FeeInv g' ∧ vmap g' ⊆ vmap (insert_verified i (item_hash i) l g).
Proof.
  intros Hq Hf. unfold insert_validated. set (g1 := insert_verified i (item_hash i) l g) in *.
  apply (remove_over_capacity_rule (λ g, FeeInv g ∧ vmap g ⊆ vmap g1)); [| |done|done].
  - intros g0 p [H1 H2]. split; [|done]. by eapply FeeInv_ext; [..|exact H1].
  - intros g0 h [H1 H2]. split; [by apply FeeInv_drop|]. rewrite drop_verified_vmap. etrans; [apply delete_subseteq | done].
Qed.
Lemma Admitting_add txs origin tx now now' g g' out :
  (0 < capacity)%nat → notary_hash = Ok NOTARY_HASH → acyclic txs → tx ∈ txs → 0 ≤ total_fee tx →
  Admitting txs g → add_transaction ledger settings capacity origin tx now now' snapshot g = Some (g', out) → Admitting txs g'.
Proof.
  intros Hcap Hnot Hac Htx Hnn [Hp Hc Hf Hs Hin] E.
  pose proof (ConflictInv_add ledger settings capacity _ _ _ _ _ _ _ _ Hcap Hp Hc E) as Hc'.
  destruct (PoolInv_add ledger settings capacity origin tx now now' snapshot g Hp Hcap) as (g1 & o1 & E1 & Hp').
  rewrite E in E1. injection E1 as <- <-.
  destruct (add_transaction_cases ledger settings capacity origin tx now now' snapshot g Hp Hcap) as (g1 & o1 & E1 & Hcase).
  rewrite E in E1. injection E1 as <- <-.
  destruct Hcase as [->|(h & l & r & Eh & Ec & El & Ev & Ei & _)]; [done|]. destruct (contains_false _ _ Ec) as [Hv Hu].
  set (i := mkItem tx origin now now') in *. assert (item_hash i = h) as Eih by (by apply try_hash_hash). rewrite <- Eih in *.
  destruct (insert_verified_ok i l g (inv_queues _ _ Hp) Hu) as (Hq1 & Em & _).
  assert (oracle_duplicate g tx = false) as Hdup by (by apply state_dependent_funds in Ev as [? _]).
  destruct (evicted_fees i l g g' r Hq1 (FeeInv_insert i l g Hf Hv Hnn Hdup) Ei) as [Hf' Hsub].
  split; [done..| |].
  - eapply solvent_sub; [exact Hsub | by apply FeeInv_insert | by eapply (insert_solvent i l g txs); [|apply Hp|..]].
  - intros h' j Hj. eapply lookup_weaken in Hj; [|exact Hsub].
    rewrite insert_verified_lookup in Hj; [|apply Hp|done]. case_bool_decide; [done|].
    apply lookup_insert_Some in Hj as [[_ <-]|[_ Hj]]; [done | by eapply Hin].
Qed.

(** A new pool, or the pool right after a block was persisted. *)
Definition round_start g : Prop :=
  g = pool_new ∨ ∃ block g0, PoolInv capacity g0 ∧ (0 < total_count g0)%nat ∧ g = (update_pool_for_block_persisted block g0).1.
Lemma round_start_empty g :
  round_start g → PoolInv capacity g ∧ vmap g = ∅ ∧ conflicts g = ∅ ∧ sender_fees g = ∅ ∧ oracle_responses g = ∅.
Proof.
  intros [->|(block & g0 & Hg0 & Hpos & ->)]; [split; [apply PoolInv_new | done]|]. split; [by apply PoolInv_persisted|].
  unfold update_pool_for_block_persisted. assert (index_is_empty (verified g0) && index_is_empty (unverified g0) = false) as ->.
  { unfold index_is_empty. apply andb_false_iff. unfold total_count, index_len in Hpos. rewrite !bool_decide_eq_false.
    destruct (items (verified g0)); [right | by left]. intros E. rewrite E in Hpos. cbn in Hpos. lia. }
  destruct (foldl persist_one _ _) as [[g1 m] s]. by destruct (foldl _ _ _).
Qed.
Lemma Admitting_start txs g : round_start g → Admitting txs g.
Proof.
  intros (Hp & Ev & Ec & Ef & Eo)%round_start_empty. split.
  - done.
  - by apply ConflictInv_empty.
  - split; rewrite Ev, ?Ef, ?Eo.
    + intros p. by rewrite lookup_empty, fee_sum_empty.
    + intros h i Hi. by rewrite lookup_empty in Hi.
    + intros id h. rewrite lookup_empty. split; [done|]. intros (i & Hi & _). by rewrite lookup_empty in Hi.
  - intros p. left. by rewrite Ev, fee_sum_empty.
  - intros h i Hi. by rewrite Ev, lookup_empty in Hi.
Qed.

(** A submission: origin, transaction and the two clock readings. *)
Definition Submission : Type := TransactionOrigin * Transaction * N * N.
Definition submit (s : Submission) : PoolOp Snapshot := let '(origin, tx, now, now') := s in Added origin tx now now' snapshot.
Definition submitted (s : Submission) : Transaction := s.1.1.2.
Lemma Admitting_run txs subs g g' :
  (0 < capacity)%nat → notary_hash = Ok NOTARY_HASH → acyclic txs →
  (∀ s, s ∈ subs → submitted s ∈ txs ∧ 0 ≤ total_fee (submitted s)) → Admitting txs g →
  pool_run native_ledger ledger settings capacity (submit <$> subs) g = Some g' → Admitting txs g'.
Proof.
  intros Hcap Hnot Hac. revert g. induction subs as [|[[[o tx] n] n'] subs IH]; intros g Hs Hg; [by intros [= <-]|].
  cbn [pool_run fmap list_fmap submit pool_step]. intros (g1 & E & Hr)%bind_Some. apply fmap_Some in E as ([g2 out] & E & ->).
  destruct (Hs (o, tx, n, n') ltac:(by constructor)) as [Htx Hnn].
  eapply (IH g2); [intros s Hin; apply Hs; by constructor | by eapply Admitting_add | exact Hr].
Qed.
End solvency.
