(* ===== verification/MempoolPersist.v ===== *)
(** * The pool after a block

    What [update_pool_for_block_persisted] keeps and what it removes. *)
From S2P Require Import Prelude Primitives Order Hashing Io EcPoint RecordUpdate Multisig Signing Transaction Admission.
From S2P Require Import Mempool MempoolIndex MempoolFacts MempoolInv MempoolConflicts.
#[local] Open Scope update_scope.

Section persist.
Context {crypto : Crypto} {curves : Curves} {order : HashOrder}.
Implicit Types (g : MemoryPoolInner) (tx b : Transaction) (h t : UInt256.t) (i j : PoolItem) (l : list PoolItem).
Implicit Types (m : gmap UInt256.t (list UInt160.t)) (s : gset UInt256.t).

(** [h] is the hash of a transaction of the block. *)
Definition mined (block : list Transaction) h : Prop := ∃ b, b ∈ block ∧ Tx.try_hash b = Ok h.
(** A transaction of the block names [i], and they share a signer, or [i] names one. *)
Definition block_conflict (block : list Transaction) i : Prop :=
  (∃ b a, b ∈ block ∧ item_hash i ∈ targets b ∧ a ∈ accounts b ∧ a ∈ accounts (transaction i)) ∨
  (∃ h, mined block h ∧ h ∈ targets (transaction i)).

(** ** Mined transactions *)

Lemma remove_mined_queues h g :
  queues_ok g → vmap (remove_mined h g) = delete h (vmap g) ∧ umap (remove_mined h g) = delete h (umap g).
Proof.
  intros Hg. unfold remove_mined. pose proof (drop_verified_result h g) as Er.
  pose proof (drop_verified_vmap h g) as Ev. pose proof (drop_verified_unverified h g) as Eu.
  destruct (drop_verified h g) as [g1 [tx|]]; cbn [fst snd] in *.
  - split; [done|]. rewrite Eu. symmetry. apply delete_id. destruct (vmap g !! h) as [i|] eqn:E; [|done].
    eapply map_disjoint_Some_l; [apply Hg | done].
  - assert (vmap g !! h = None) as Hn by (by destruct (vmap g !! h)). rewrite (delete_id (vmap g)) by done.
    pose proof (index_remove_hashes h (unverified g)) as Eh. destruct (index_remove h (unverified g)) as [p [i|]] eqn:E; cbn [fst] in Eh.
    + autorewrite with queues. done.
    + split; [done|]. rewrite <- Eh. unfold index_remove in E. by destruct (umap g !! h); simplify_eq.
Qed.
Definition add_named tx m : gmap UInt256.t (list UInt160.t) :=
  foldl (λ m target, <[target := default [] (m !! target) ++ accounts tx]> m) m (targets tx).
Lemma add_named_elem tx m t a :
  a ∈ default [] (add_named tx m !! t) ↔ a ∈ default [] (m !! t) ∨ (t ∈ targets tx ∧ a ∈ accounts tx).
Proof.
  unfold add_named. generalize (targets tx) as hs. intros hs. revert m.
  induction hs as [|x hs IH]; intros m; cbn [foldl]; [set_solver|]. rewrite IH, elem_of_cons.
  destruct (decide (x = t)) as [->|Hne].
  - rewrite lookup_insert_eq. cbn. rewrite elem_of_app. naive_solver.
  - rewrite lookup_insert_ne by done. naive_solver.
Qed.
Record persisted_from (block : list Transaction) g m s g' m' s' : Prop := {
  pf_verified h : vmap g' !! h = if bool_decide (h ∈ s') then None else vmap g !! h;
  pf_unverified h : umap g' !! h = if bool_decide (h ∈ s') then None else umap g !! h;
  pf_named t a : a ∈ default [] (m' !! t) ↔ a ∈ default [] (m !! t) ∨ ∃ b, b ∈ block ∧ t ∈ targets b ∧ a ∈ accounts b;
  pf_mined h : h ∈ s' ↔ h ∈ s ∨ mined block h;
}.
Lemma persist_spec capacity block g m s :
  PoolInv capacity g → Forall (λ b, ∃ h, Tx.try_hash b = Ok h) block → (∀ h, h ∈ s → vmap g !! h = None ∧ umap g !! h = None) →
  let r := foldl persist_one (g, m, s) block in persisted_from block g m s r.1.1 r.1.2 r.2.
Proof.
  intros Hg HF. revert g m s Hg. induction HF as [|b block [h Hh] HF IH]; intros g m s Hg Hs; cbn [foldl].
  { split; cbn.
    - intros x. case_bool_decide as Hx; [|done]. by apply Hs.
    - intros x. case_bool_decide as Hx; [|done]. by apply Hs.
    - intros t a. split; [by left|]. intros [?|(b & Hb & _)]; [done | by apply elem_of_nil in Hb].
    - intros x. split; [by left|]. intros [?|(b & Hb & _)]; [done | by apply elem_of_nil in Hb]. }
  set (g0 := g <| verification_context ::= confirm h |>).
  assert (persist_one (g, m, s) b = (remove_mined h g0, add_named b m, {[h]} ∪ s)) as -> by (unfold persist_one; by rewrite Hh).
  assert (PoolInv capacity g0) as Hg0 by (by eapply PoolInv_ext; [..|exact Hg]).
  destruct (remove_mined_queues h g0 (inv_queues _ _ Hg0)) as [Ev Eu].
  change (vmap g0) with (vmap g) in Ev. change (umap g0) with (umap g) in Eu.
  destruct (IH (remove_mined h g0) (add_named b m) ({[h]} ∪ s)) as [H1 H2 H3 H4].
  - by apply PoolInv_remove_mined.
  - intros x. rewrite elem_of_union, elem_of_singleton, Ev, Eu. intros [->|Hx]; [by rewrite !lookup_delete_eq|].
    destruct (decide (h = x)) as [->|Hne]; [by rewrite !lookup_delete_eq|]. rewrite !lookup_delete_ne by done. by apply Hs.
  - set (r := foldl persist_one _ _) in *. assert (h ∈ r.2) as Hin by (apply H4; left; set_solver). split.
    + intros x. rewrite H1, Ev. case_bool_decide; [done|]. by rewrite lookup_delete_ne by (by intros ->).
    + intros x. rewrite H2, Eu. case_bool_decide; [done|]. by rewrite lookup_delete_ne by (by intros ->).
    + intros t a. rewrite H3, add_named_elem. setoid_rewrite elem_of_cons. naive_solver.
    + intros x. rewrite H4, elem_of_union, elem_of_singleton. unfold mined. setoid_rewrite elem_of_cons. split.
      * intros [[->|?]|(b' & ? & ?)]; [right; by exists b; split; [left|] | by left | right; by exists b'; split; [right|]].
      * intros [?|(b' & [->|?] & E)]; [by left; right | left; left; congruence | right; by exists b'].
Qed.

(** ** Evicted transactions *)

Definition evicts_item m s i : bool := conflicts_with_block m s (item_hash i) (transaction i).
Lemma evicts_item_spec block m s i :
  (∀ t a, a ∈ default [] (m !! t) ↔ ∃ b, b ∈ block ∧ t ∈ targets b ∧ a ∈ accounts b) → (∀ h, h ∈ s ↔ mined block h) →
  evicts_item m s i = true ↔ block_conflict block i.
Proof.
  intros Hm Hs. unfold evicts_item, conflicts_with_block, block_conflict. rewrite orb_true_iff, !existsb_exists. split.
  - intros [(a & Ha & Hb)|(h & Hh & Hb)]; apply bool_decide_eq_true in Hb.
    + apply list_elem_of_In, Hm in Ha as (b & H1 & H2 & H3). left. by exists b, a.
    + right. exists h. split; [by apply Hs | by apply list_elem_of_In].
  - intros [(b & a & H1 & H2 & H3 & H4)|(h & H1 & H2)].
    + left. exists a. split; [apply list_elem_of_In, Hm; by exists b | by apply bool_decide_eq_true].
    + right. exists h. split; [by apply list_elem_of_In | by apply bool_decide_eq_true, Hs].
Qed.
Definition as_conflict i : Transaction * TransactionRemovalReason := (transaction i, Conflict).
Lemma evict_spec m s l g r :
  (∀ i, i ∈ l → vmap g !! item_hash i = Some i ∧ Tx.try_hash (transaction i) = Ok (item_hash i)) → NoDup (item_hash <$> l) →
  let out := foldl (evict_one m s) (g, r) l in let gone := filter (λ i, evicts_item m s i = true) l in
  vmap out.1 = without gone (vmap g) ∧ unverified out.1 = unverified g ∧ out.2 = r ++ (as_conflict <$> gone).
Proof.
  revert g r. induction l as [|i l IH]; intros g r Hl Hnd; [cbn; by rewrite app_nil_r|]. cbn [foldl].
  rewrite fmap_cons, NoDup_cons in Hnd. destruct (Hl i ltac:(by constructor)) as [Hi Hh].
  assert (evict_one m s (g, r) i = if evicts_item m s i then ((drop_verified (item_hash i) g).1, r ++ [as_conflict i]) else (g, r)) as ->.
  { unfold evict_one, evicts_item. rewrite Hh. cbn [fst snd]. destruct (conflicts_with_block m s (item_hash i) (transaction i)); [|done].
    pose proof (drop_verified_result (item_hash i) g) as Er. rewrite Hi in Er. by destruct (drop_verified (item_hash i) g) as [g1 o]; cbn in Er; subst o. }
  rewrite filter_cons. destruct (evicts_item m s i) eqn:E.
  - rewrite decide_True by done. destruct (IH (drop_verified (item_hash i) g).1 (r ++ [as_conflict i])) as (H1 & H2 & H3); [|apply Hnd|].
    + intros j Hj. destruct (Hl j ltac:(by constructor)) as [Hj1 Hj2]. split; [|done]. rewrite drop_verified_vmap, lookup_delete_ne; [done|].
      intros Eh. apply Hnd. rewrite Eh. by apply list_elem_of_fmap_2.
    + rewrite H1, H2, H3, drop_verified_vmap, drop_verified_unverified. split; [done|]. split; [done|].
      by rewrite fmap_cons, <- app_assoc.
  - rewrite decide_False by done. apply IH; [|apply Hnd]. intros j Hj. apply Hl. by constructor.
Qed.
(** What the pool holds after a block and what was evicted. *)
Lemma persisted_spec capacity block g :
  PoolInv capacity g → 0 < total_count g → Forall (λ b, ∃ h, Tx.try_hash b = Ok h) block →
  ∃ m s gone, let out := update_pool_for_block_persisted block g in
    (∀ i, evicts_item m s i = true ↔ block_conflict block i) ∧ (∀ h, h ∈ s ↔ mined block h) ∧
    out.2 = as_conflict <$> gone ∧ NoDup gone ∧
    (∀ i, i ∈ gone ↔ vmap g !! item_hash i = Some i ∧ ¬ mined block (item_hash i) ∧ block_conflict block i) ∧
    vmap out.1 = ∅ ∧
    ∀ h i, umap out.1 !! h = Some i ↔
      ¬ mined block h ∧ (umap g !! h = Some i ∨ vmap g !! h = Some i ∧ ¬ block_conflict block i).
Proof.
  intros Hg Hpos HF. unfold update_pool_for_block_persisted.
  assert (index_is_empty (verified g) && index_is_empty (unverified g) = false) as ->.
  { unfold index_is_empty. apply andb_false_iff. unfold total_count, index_len in Hpos. rewrite !bool_decide_eq_false.
    destruct (items (verified g)); [right | by left]. intros E. rewrite E in Hpos. cbn in Hpos. lia. }
  pose proof (PoolInv_persist capacity block g ∅ ∅ Hg) as Hp1.
  destruct (persist_spec capacity block g ∅ ∅ Hg HF ltac:(set_solver)) as [Hv Hu Hm Hs].
  destruct (foldl persist_one (g, ∅, ∅) block) as [[g1 m] s]. cbn [fst snd] in *.
  assert (∀ h, h ∈ s ↔ mined block h) as Hs' by (intros h; rewrite Hs; set_solver).
  assert (∀ i, evicts_item m s i = true ↔ block_conflict block i) as Hev.
  { intros i. apply evicts_item_spec; [|done]. intros t a. rewrite Hm, lookup_empty. cbn. set_solver. }
  pose proof (inv_queues _ _ Hp1) as Hq1.
  assert (NoDup (item_hash <$> items (verified g1))) as Hnd.
  { apply NoDup_fmap_2_strong; [|apply ok_items_nodup, Hq1]. intros i j. apply ok_unique, Hq1. }
  destruct (evict_spec m s (items (verified g1)) g1 []) as (H1 & H2 & H3); [|done|].
  { intros i Hi. pose proof (ok_lookup _ _ (q_verified _ Hq1) Hi) as Hl. split; [done|]. apply (inv_hashable _ _ Hp1). by left. }
  pose proof (PoolInv_evict capacity m s (items (verified g1)) g1 [] Hp1) as Hp2.
  destruct (foldl (evict_one m s) (g1, []) (items (verified g1))) as [g2 r]. cbn [fst snd app] in *.
  set (gone := filter (λ i, evicts_item m s i = true) (items (verified g1))) in *.
  destruct (invalidate_unverified g2 (inv_queues _ _ Hp2)) as [_ Em].
  assert (∀ i, i ∈ gone ↔ vmap g !! item_hash i = Some i ∧ ¬ mined block (item_hash i) ∧ block_conflict block i) as Hgone.
  { intros i. unfold gone. rewrite list_elem_of_filter, Hev. rewrite <- Hs'. pose proof (ok_keyed _ (q_verified _ Hq1) (item_hash i) i) as Hk.
    rewrite Hv in Hk. case_bool_decide; naive_solver. }
  exists m, s, gone. split; [done|]. split; [done|]. split; [done|]. split; [apply NoDup_filter, ok_items_nodup, Hq1|].
  split; [done|]. split; [done|]. intros h i. rewrite Em, lookup_union_Some by apply Hp2.
  rewrite H1, H2, without_lookup, Hu, Hv, <- Hs'. destruct (decide (h ∈ s)) as [Hin|Hin].
  - rewrite !(bool_decide_true (h ∈ s)) by done. case_bool_decide; naive_solver.
  - rewrite !(bool_decide_false (h ∈ s)) by done.
    assert (vmap g !! h = Some i → h ∈ item_hash <$> gone ↔ block_conflict block i) as Hgh.
    { intros Hi. pose proof (ok_hash _ _ _ (q_verified _ (inv_queues _ _ Hg)) Hi) as Eh. split.
      - intros (j & Ej & Hj)%list_elem_of_fmap. apply Hgone in Hj as (Hj & _ & Hc). rewrite <- Ej, Hi in Hj. by injection Hj as ->.
      - intros Hc. rewrite <- Eh. apply list_elem_of_fmap_2, Hgone. rewrite Eh, <- Hs'. done. }
    case_bool_decide; naive_solver.
Qed.
End persist.
