(* ===== verification/MempoolThms.v ===== *)
(** * The guarantees of the memory pool

    Eviction, the invariant of runs, conflicts, the exact effect of a persisted block,
    solvency between blocks, and a run in which a failed re-verification releases
    fees that were never reserved; with a sample pool for the examples. *)
From S2P Require Import Prelude Primitives Order Hashing Io EcPoint SampleKeys RecordUpdate Multisig Signing Transaction Admission AdmissionFacts.
From S2P Require Import SampleChain Mempool MempoolIndex MempoolFacts MempoolInv MempoolConflicts MempoolFees MempoolPersist.
#[local] Open Scope update_scope.

Section pool.
Context {crypto : Crypto} {curves : Curves} {order : HashOrder}.
Implicit Types (g : MemoryPoolInner) (h : UInt256.t) (i j : PoolItem) (l : list PoolItem).

(** (C9) Making room ends and drops the right transactions: inserting a new
    transaction in place of its conflicts into a pool over its capacity returns
    with exactly the capacity used, every transaction dropped on the way has a lower
    priority than every one kept, in either queue, and the caller is told that the
    new transaction was retained precisely when it was. *)
Theorem eviction_keeps_best i l capacity g :
  queues_ok g → contains (item_hash i) g = false → check_conflicts g (transaction i) = Some l →
  let inserted := insert_verified i (item_hash i) l g in
  ∃ g' retained, insert_validated i (item_hash i) l capacity g = Some (g', retained) ∧
    total_count g' = total_count inserted `min` capacity ∧
    (∀ j, pooled g' j → pooled inserted j) ∧
    (∀ j k, pooled inserted j → ¬ pooled g' j → pooled g' k → below j k) ∧
    (retained = true ↔ index_get (item_hash i) (verified g') = Some i).
Proof.
  intros Hq [Hv Hu]%contains_false Hl inserted. destruct (insert_verified_ok i l g Hq Hu) as (Hq1 & Em & Eu).
  fold inserted in Hq1, Em, Eu.
  destruct (remove_over_capacity_spec (total_count inserted) capacity (item_hash i) true inserted Hq1 ltac:(lia))
    as (g' & r & E & [Hq' Hc Hs [_ Hsu] Hb Hr]).
  exists g', r. split; [done|]. split; [done|]. split; [done|]. split; [done|]. rewrite Hr. unfold index_get.
  assert (vmap inserted !! item_hash i = Some i) as Hi.
  { rewrite Em, without_lookup, bool_decide_false, lookup_insert_eq; [done|].
    exact (check_conflicts_fresh g _ l _ Hq Hl Hv). }
  split.
  - intros [_ Ha]. destruct (Ha i) as [?|Hx]; [by left|done|done|]. exfalso.
    eapply lookup_weaken in Hx; [|exact Hsu]. by rewrite Eu, Hu in Hx.
  - intros Hg'. split; [done|]. intros j Hj Ej. assert (j = i) as -> by (eapply pooled_hash_unique; [exact Hq1|done|by left|done]).
    by left.
Qed.
End pool.

Section runs.
Context {Snapshot : Type} {crypto : Crypto} {ripemd : Ripemd} {curves : Curves} {ecdsa : Ecdsa} {order : HashOrder}.
Context {native : AdmissionNativeProvider Snapshot} {state : AdmissionState Snapshot}.
Context (native_ledger ledger : AdmissionLedgerProvider Snapshot) (settings : ProtocolSettings) (capacity : nat).
Implicit Types (g : MemoryPoolInner) (ops : list (PoolOp Snapshot)).
#[local] Abbreviation run := (pool_run native_ledger ledger settings capacity).

Lemma snapshot_elem p (i : PoolItem) : index_ok p → i ∈ to_sorted_vec p ↔ index_get (item_hash i) p = Some i.
Proof. intros Hp. unfold to_sorted_vec. rewrite elem_of_reverse. unfold index_get. rewrite (ok_keyed _ Hp). naive_solver. Qed.

(** (C8) The pool keeps its shape under any sequence of its operations: every
    operation returns, the pool never holds more than its capacity, both snapshots
    list their queue from the highest to the lowest priority and agree with the hash
    lookup, and no transaction is in both queues. *)
Theorem pool_invariant ops :
  0 < capacity →
  ∃ g, run ops pool_new = Some g ∧ total_count g ≤ capacity ∧
    StronglySorted (flip below) (verified_snapshot g) ∧ StronglySorted (flip below) (unverified_snapshot g) ∧
    (∀ i, i ∈ verified_snapshot g ↔ index_get (item_hash i) (verified g) = Some i) ∧
    (∀ i, i ∈ unverified_snapshot g ↔ index_get (item_hash i) (unverified g) = Some i) ∧
    (∀ h, ¬ (index_contains h (verified g) = true ∧ index_contains h (unverified g) = true)).
Proof.
  intros Hcap. destruct (PoolInv_run native_ledger ledger settings capacity ops pool_new Hcap (PoolInv_new capacity)) as (g & E & Hg).
  destruct Hg as [[Hv Hu Hd] Hc _]. exists g. split; [done|]. split; [done|].
  split; [by apply snapshot_sorted|]. split; [by apply snapshot_sorted|].
  split; [intros i; by apply snapshot_elem|]. split; [intros i; by apply snapshot_elem|].
  intros h. unfold index_contains. rewrite !bool_decide_eq_true. intros [[i Hi] [j Hj]]. by eapply map_disjoint_spec.
Qed.

(** (C7) No two verified transactions conflict: after any sequence of the operations
    the node calls (admissions, persisted blocks, bounded re-verifications) and of
    committed blocks, no transaction of the verified queue names another one in a
    Conflicts attribute, and the conflict index lists precisely who names whom. The
    sequence is [tracked]: the public operations [reverify] of the whole pool and
    [remove] of one hash, which the node does not call, are excluded, because they do
    not keep the conflict index. *)
Theorem pool_conflict_free ops g :
  0 < capacity → Forall (λ op, tracked op = true) ops → run ops pool_new = Some g →
  (∀ i j, i ∈ verified_snapshot g → j ∈ verified_snapshot g → i ≠ j → item_hash j ∉ targets (transaction i)) ∧
  (∀ t h, h ∈ default ∅ (conflicts g !! t) ↔
     ∃ i, i ∈ verified_snapshot g ∧ item_hash i = h ∧ t ∈ targets (transaction i)).
Proof.
  intros Hcap Hops E.
  destruct (PoolInv_run native_ledger ledger settings capacity ops pool_new Hcap (PoolInv_new capacity)) as (g' & E' & [[Hv _ _] _ _]).
  assert (g' = g) as -> by congruence.
  destruct (ConflictInv_run native_ledger ledger settings capacity ops pool_new g Hcap Hops (PoolInv_new capacity)
    (ConflictInv_empty pool_new eq_refl eq_refl) E) as [Hr Hf]. split.
  - intros i j Hi%snapshot_elem Hj%snapshot_elem Hne; [|done..]. eapply Hf; [exact Hi | by exists j|].
    intros Eh. unfold index_get in *. rewrite Eh in Hi. congruence.
  - intros t h. unfold verified_snapshot. setoid_rewrite snapshot_elem; [|done]. unfold index_get. rewrite (Hr t h).
    split; [|intros (i & Hi & <- & Ht); by exists i].
    intros (i & Hi & Ht). exists i. by rewrite (ok_hash _ _ _ Hv Hi).
Qed.

(** (C10) A persisted block updates the pool exactly: its transactions leave both
    queues; a verified transaction that a transaction of the block names while
    sharing a signer with it, or that names a transaction of the block, is reported
    as removed for a conflict, once; everything else is unverified afterwards, with
    the same origin and times, and nothing is verified. *)
Theorem persisted_block_exact ops g block :
  0 < capacity → run ops pool_new = Some g → 0 < total_count g → Forall (λ b, ∃ h, Tx.try_hash b = Ok h) block →
  let '(g', removed) := update_pool_for_block_persisted block g in
  verified_snapshot g' = [] ∧
  (∀ h i, index_get h (unverified g') = Some i ↔
     ¬ mined block h ∧ (index_get h (unverified g) = Some i ∨ index_get h (verified g) = Some i ∧ ¬ block_conflict block i)) ∧
  ∃ gone, removed = (λ i, (transaction i, Conflict)) <$> gone ∧ NoDup gone ∧
    ∀ i, i ∈ gone ↔ index_get (item_hash i) (verified g) = Some i ∧ ¬ mined block (item_hash i) ∧ block_conflict block i.
Proof.
  intros Hcap E Hpos HF.
  destruct (PoolInv_run native_ledger ledger settings capacity ops pool_new Hcap (PoolInv_new capacity)) as (g0 & E' & Hg).
  assert (g0 = g) as -> by congruence. destruct (persisted_spec capacity block g Hg Hpos HF) as (m & s & gone & _ & _ & Hr & Hnd & Hgone & Hv & Hu).
  pose proof (PoolInv_persisted capacity block g Hg) as Hg'.
  destruct (update_pool_for_block_persisted block g) as [g' removed]. cbn [fst snd] in *. split; [|split].
  - pose proof (ok_items _ (q_verified _ (inv_queues _ _ Hg'))) as Hi. rewrite Hv, map_to_list_empty in Hi.
    unfold verified_snapshot, to_sorted_vec. apply Permutation_nil_r in Hi. by rewrite Hi.
  - exact Hu.
  - by exists gone.
Qed.
End runs.

Section admissions.
Context {Snapshot : Type} {crypto : Crypto} {ripemd : Ripemd} {curves : Curves} {ecdsa : Ecdsa} {order : HashOrder}.
Context {native : AdmissionNativeProvider Snapshot} {state : AdmissionState Snapshot}.
Context (native_ledger ledger : AdmissionLedgerProvider Snapshot) (settings : ProtocolSettings) (capacity : nat).
Context (snapshot : Snapshot).
Implicit Types g : MemoryPoolInner.

(** (C6) Between two blocks no payer is over-committed: starting from a new pool or
    right after a block, whatever transactions are submitted on the same snapshot,
    the pool's record of the fees pooled for a payer is the sum of the fees of its
    verified transactions, that sum is covered by the payer's balance, and at most
    one verified transaction answers an oracle request; provided that fees are not
    negative and no two transactions contain each other's hash. *)
Theorem pool_solvent subs g g' :
  0 < capacity → notary_hash = Ok NOTARY_HASH → round_start capacity g →
  Forall (λ s, 0 ≤ total_fee (submitted s))%Z subs → acyclic (submitted <$> subs) →
  pool_run native_ledger ledger settings capacity (submit snapshot <$> subs) g = Some g' →
  (∀ p, default 0%Z (sender_fees g' !! p) = fee_sum (vmap g') p) ∧
  (∀ p, fee_sum (vmap g') p = 0%Z ∨ ∃ balance, payer_balance snapshot p = Ok balance ∧ (fee_sum (vmap g') p ≤ balance)%Z) ∧
  (∀ i j id, i ∈ verified_snapshot g' → j ∈ verified_snapshot g' →
     oracle_response_id (transaction i) = Some id → oracle_response_id (transaction j) = Some id → i = j).
Proof.
  intros Hcap Hnot Hstart Hfees Hac E. rewrite Forall_forall in Hfees.
  destruct (Admitting_run native_ledger ledger settings capacity snapshot (submitted <$> subs) subs g g' Hcap Hnot Hac)
    as [Hp _ [Hf _ Ho] Hsol _]; [|by apply Admitting_start|exact E|].
  { intros s Hs. split; [by apply list_elem_of_fmap_2 | by apply Hfees]. }
  split; [done|]. split; [exact Hsol|]. pose proof (q_verified _ (inv_queues _ _ Hp)) as Hv.
  intros i j id Hi%snapshot_elem Hj%snapshot_elem Ei Ej; [|done..].
  assert (oracle_responses g' !! id = Some (item_hash i)) as H1 by (apply Ho; by exists i).
  assert (oracle_responses g' !! id = Some (item_hash j)) as H2 by (apply Ho; by exists j).
  unfold index_get in *. assert (item_hash i = item_hash j) as Eh by congruence. rewrite Eh in Hi. congruence.
Qed.
End admissions.

(** ** A sample pool *)

#[local] Existing Instance checksum_crypto.
#[local] Existing Instance sample_curves.
#[local] Existing Instance sample_ripemd.
#[local] Existing Instance sample_ecdsa.
#[local] Existing Instance sample_ledger.
#[local] Existing Instance sample_state.
#[local] Program Instance sorted_order : HashOrder := {| iter _ _ _ _ m := map_to_list m |}.
Next Obligation. done. Qed.
Definition pool_native : AdmissionNativeProvider SampleChain := native_with NOTARY_HASH.
#[local] Existing Instance pool_native.

Definition gas (balance : Z) (height : N) : SampleChain := mkChain height (λ _, balance) [].
Definition tx_a : Transaction := Eval vm_compute in sample_tx 1 1 1000 100000 20 [].
Definition tx_b : Transaction := Eval vm_compute in sample_tx 1 2 1000 90000 11 [].
Definition tx_c : Transaction := Eval vm_compute in sample_tx 2 3 1000 95000 20 [Conflicts (Tx.hash tx_b)].
Definition tx_d : Transaction := Eval vm_compute in sample_tx 1 4 100000 99000 20 [].
Definition sample_run (capacity : nat) (ops : list (PoolOp SampleChain)) : option MemoryPoolInner :=
  pool_run sample_ledger sample_ledger sample_settings capacity ops pool_new.

(** Two transactions of one account are pooled, a block with neither is persisted,
    and at its height one of them is promoted and the other one has expired; then a
    third one is submitted. *)
Definition expiring : list (PoolOp SampleChain) :=
  [Added External tx_a 1 1 (gas 250000 10); Added External tx_b 2 2 (gas 250000 10); Persisted [tx_c];
   Reverified (gas 250000 11) 10; Added External tx_d 3 3 (gas 250000 11)]%N.

(** A failed re-verification releases fees that were never reserved: dropping
    an expired transaction after a block subtracts its fees from what the pool has
    recorded for its sender, although the record was reset by the block, and the
    next transaction of the sender is accepted beyond its balance. *)
Example failed_reverification_overspends :
  ∃ g, sample_run 50 expiring = Some g ∧
    fee_sum (vmap g) (mkPayer (sample_account 1) None) = 300000%Z ∧
    sc_gas (gas 250000 11) (sample_account 1) = 250000%Z ∧
    sender_fees g !! mkPayer (sample_account 1) None = Some 209000%Z.
Proof. eexists. split; [vm_compute; reflexivity|]. vm_compute. done. Qed.

Definition adding (txs : list Transaction) : list (PoolOp SampleChain) :=
  (λ tx, Added External tx 1%N 1%N (gas 250000 10)) <$> txs.
Definition pool_b : MemoryPoolInner := default pool_new (sample_run 1 (adding [tx_b])).
Lemma sample_run_inv capacity ops g : 0 < capacity → sample_run capacity ops = Some g → PoolInv capacity g.
Proof.
  intros Hcap E. destruct (PoolInv_run sample_ledger sample_ledger sample_settings capacity ops pool_new Hcap (PoolInv_new capacity))
    as (g' & E' & Hg). unfold sample_run in E. by assert (g' = g) as <- by congruence.
Qed.
Lemma pool_b_run : sample_run 1 (adding [tx_b]) = Some pool_b.
Proof. vm_compute. reflexivity. Qed.
Lemma pool_b_ok : queues_ok pool_b.
Proof. exact (inv_queues _ _ (sample_run_inv 1 _ _ ltac:(lia) pool_b_run)). Qed.
Lemma pool_b_fresh : contains (Tx.hash tx_a) pool_b = false ∧ check_conflicts pool_b tx_a = Some [].
Proof. vm_compute. done. Qed.
Lemma eviction_keeps_best_witness :
  ∃ g' retained, insert_validated (mkItem tx_a External 2%N 2%N) (Tx.hash tx_a) [] 1 pool_b = Some (g', retained).
Proof.
  destruct (eviction_keeps_best (mkItem tx_a External 2%N 2%N) [] 1 pool_b pool_b_ok (proj1 pool_b_fresh) (proj2 pool_b_fresh))
    as (g' & r & E & _). exact (ex_intro _ g' (ex_intro _ r E)).
Defined.
Lemma pool_invariant_witness : ∃ g, sample_run 50 expiring = Some g ∧ total_count g ≤ 50.
Proof.
  destruct (pool_invariant sample_ledger sample_ledger sample_settings 50 expiring ltac:(lia)) as (g & E & Hc & _).
  exact (ex_intro _ g (conj E Hc)).
Defined.

(** [tx_c] is submitted by a signer of neither, and [tx_b] is not displaced. *)
Definition pool_ab : MemoryPoolInner := default pool_new (sample_run 50 (adding [tx_b; tx_c; tx_a])).
Lemma pool_ab_run : sample_run 50 (adding [tx_b; tx_c; tx_a]) = Some pool_ab.
Proof. vm_compute. reflexivity. Qed.
Lemma pool_ab_count : total_count pool_ab = 2.
Proof. vm_compute. reflexivity. Qed.
Lemma pool_conflict_free_witness :
  total_count pool_ab = 2 ∧
  (∀ i j, i ∈ verified_snapshot pool_ab → j ∈ verified_snapshot pool_ab → i ≠ j → item_hash j ∉ targets (transaction i)).
Proof.
  split; [exact pool_ab_count|].
  exact (proj1 (pool_conflict_free sample_ledger sample_ledger sample_settings 50 (adding [tx_b; tx_c; tx_a]) pool_ab
    ltac:(lia) ltac:(by repeat constructor) pool_ab_run)).
Defined.
Lemma tx_c_hashed : Forall (λ b, ∃ h, Tx.try_hash b = Ok h) [tx_c].
Proof. repeat constructor. eexists. vm_compute. reflexivity. Qed.
Lemma persisted_block_exact_witness : verified_snapshot (update_pool_for_block_persisted [tx_c] pool_ab).1 = [].
Proof.
  pose proof (persisted_block_exact sample_ledger sample_ledger sample_settings 50 (adding [tx_b; tx_c; tx_a]) pool_ab [tx_c]
    ltac:(lia) pool_ab_run ltac:(rewrite pool_ab_count; lia) tx_c_hashed) as H.
  destruct (update_pool_for_block_persisted [tx_c] pool_ab) as [g' removed]. exact (proj1 H).
Defined.

Definition sample_subs : list (TransactionOrigin * Transaction * N * N) := (λ tx, (External, tx, 1%N, 1%N)) <$> [tx_b; tx_c; tx_a].
Lemma sample_acyclic : acyclic (submitted <$> sample_subs).
Proof.
  enough (Forall (λ a, Forall (λ b, Tx.hash a ∈ targets b → Tx.hash b ∉ targets a) (submitted <$> sample_subs)) (submitted <$> sample_subs))
    as HF. { intros a b Ha Hb. rewrite !Forall_forall in HF. specialize (HF a Ha). rewrite Forall_forall in HF. by apply HF. }
  apply (bool_decide_eq_true_1 _). vm_compute. reflexivity.
Qed.
Lemma sample_round : sample_run 50 (submit (gas 250000 10) <$> sample_subs) = Some pool_ab.
Proof. exact pool_ab_run. Qed.
Lemma pool_solvent_witness :
  default 0%Z (sender_fees pool_ab !! mkPayer (sample_account 1) None) = fee_sum (vmap pool_ab) (mkPayer (sample_account 1) None).
Proof.
  exact (proj1 (pool_solvent sample_ledger sample_ledger sample_settings 50 (gas 250000 10) sample_subs pool_new pool_ab
    ltac:(lia) eq_refl (or_introl eq_refl) ltac:(by repeat constructor) sample_acyclic sample_round) _).
Defined.
