(* ===== verification/Storage.v ===== *)
(** * Contract storage: keys, items and the data cache

    src/neo-storage/src/types/: storage keys and items.
    src/neo-storage/src/persistence/data_cache/: the cache through which every
    contract and native contract reads and writes storage, and its overlays.

    A cache with its ancestors is a list, the cache itself first: [clone_cache]
    pushes an overlay whose backing is the rest of the list, and an operation
    returns the list with every state it wrote, the ancestors included, which are
    shared with the other overlays on them.  The empty list stands for the source
    under the root.  Each operation is one step: the lock that [get] and
    [apply_delete] release between reading and writing, and what a concurrent caller
    may do there, are not modelled.  Nor is what read observers are told; that one
    is active decides how an overlay is merged ([merge_tracked_items_from]), and is
    an argument of a commit. *)
From S2P Require Import Prelude Primitives Order Io RecordUpdate.
#[local] Open Scope update_scope.

(** ** Keys *)

(** An [i32], by its little-endian bytes. *)
Record I32 := mkI32 { i32_0 : byte; i32_1 : byte; i32_2 : byte; i32_3 : byte }.
#[export] Instance I32_eq_dec : EqDecision I32.
Proof. solve_decision. Defined.
#[export] Program Instance I32_countable : Countable I32 :=
  inj_countable' (λ i, (i32_0 i, i32_1 i, i32_2 i, i32_3 i)) (λ '(a, b, c, d), mkI32 a b c d) _.
Next Obligation. by intros []. Qed.
Definition i32_to_le_bytes (i : I32) : bytes := [i32_0 i; i32_1 i; i32_2 i; i32_3 i].
Definition i32_zero : I32 := mkI32 x00 x00 x00 x00.

(** [u32::from_be_bytes]. *)
Definition u32_from_be_bytes (i : I32) : N :=
  (Byte.to_N (i32_0 i) * 2 ^ 24 + Byte.to_N (i32_1 i) * 2 ^ 16 + Byte.to_N (i32_2 i) * 2 ^ 8 + Byte.to_N (i32_3 i))%N.

(** The memo of the built bytes is left out: it is what [build] returns, but for keys
    made from fewer than four bytes, which no store has. *)
Record StorageKey := mkKey { sk_id : I32; sk_key : bytes }.
#[export] Instance StorageKey_eq_dec : EqDecision StorageKey.
Proof. solve_decision. Defined.
#[export] Program Instance StorageKey_countable : Countable StorageKey :=
  inj_countable' (λ k, (sk_id k, sk_key k)) (λ '(a, b), mkKey a b) _.
Next Obligation. by intros []. Qed.

Module Key.
Definition build (k : StorageKey) : bytes := i32_to_le_bytes (sk_id k) ++ sk_key k.
Definition from_bytes (bs : bytes) : StorageKey :=
  match bs with
  | a :: b :: c :: d :: key => mkKey (mkI32 a b c d) key
  | _ => mkKey i32_zero bs
  end.
Definition length (k : StorageKey) : N := (4 + len (sk_key k))%N.
Definition storage_key (prefix : byte) (suffix : bytes) : bytes := prefix :: suffix.
Definition create (id : I32) (prefix : byte) : StorageKey := mkKey id (storage_key prefix []).
Definition create_with_bytes (id : I32) (prefix : byte) (content : bytes) : StorageKey := mkKey id (storage_key prefix content).
Definition create_search_prefix (id : I32) (prefix : bytes) : bytes := i32_to_le_bytes id ++ prefix.
Definition cmp (a b : StorageKey) : comparison :=
  cmp_then (u32_from_be_bytes (sk_id a) ?= u32_from_be_bytes (sk_id b))%N (bytes_cmp (sk_key a) (sk_key b)).

(** A [BTreeSet] and a [BTreeMap] iterate in the order of [cmp], which is the order
    of the built bytes ([Key.cmp_bytes], StorageFacts.v). *)
Definition sorted {A} (m : gmap StorageKey A) : list (StorageKey * A) := sort_by_key (build ∘ fst) (map_to_list m).
Definition sorted_set (s : gset StorageKey) : list StorageKey := sort_by_key build (elements s).
End Key.

(** ** Items *)

(** [BigInt::to_signed_bytes_le] of the num-bigint crate. *)
Class BigIntBytes := { to_signed_bytes_le : Z → bytes }.

Inductive StorageItemCache := Bytes (value : bytes) | BigInteger (value : Z).
Record StorageItem := mkStorageItem { si_value : bytes; si_cache : option StorageItemCache }.

Module Item.
Definition new : StorageItem := mkStorageItem [] None.
Definition from_bytes (value : bytes) : StorageItem := mkStorageItem value None.
Definition set_value (value : bytes) (i : StorageItem) : StorageItem := mkStorageItem value None.
Definition set_cache (c : StorageItemCache) (i : StorageItem) : StorageItem := mkStorageItem (si_value i) (Some c).
Definition clear_cache (i : StorageItem) : StorageItem := mkStorageItem (si_value i) None.
Definition clear_value (i : StorageItem) : StorageItem := mkStorageItem [] (si_cache i).
Section bytes.
Context `{BigIntBytes}.
Definition cache_to_bytes (c : StorageItemCache) : bytes :=
  match c with
  | Bytes value => value
  | BigInteger value => if (value =? 0)%Z then [] else to_signed_bytes_le value
  end.
Definition value_bytes (i : StorageItem) : bytes :=
  match si_cache i with
  | Some cache => if bool_decide (si_value i = []) then cache_to_bytes cache else si_value i
  | None => si_value i
  end.
Definition size (i : StorageItem) : N := SerializeHelper.get_var_size_bytes (value_bytes i).
Definition seal (i : StorageItem) : StorageItem :=
  if bool_decide (si_value i = []) then mkStorageItem (value_bytes i) (si_cache i) else i.
End bytes.
End Item.

(** ** The state of a cache *)

Module TrackState.
Inductive t := Unmodified | Added | Changed | Deleted | NotFound.
#[export] Instance eq_dec : EqDecision t.
Proof. solve_decision. Defined.
End TrackState.
Import TrackState.

Inductive SeekDirection := Forward | Backward.

Record Trackable := mkTrackable { t_item : StorageItem; t_state : TrackState.t }.
Record InnerState := mkInnerState {
  dictionary : gmap StorageKey Trackable;
  change_set : gset StorageKey;
  revision : N;
}.
#[export] Instance updatable_InnerState : Updatable InnerState := λ s, mkInnerState (dictionary s) (change_set s) (revision s).
#[export] Instance set_dictionary : Setter dictionary := ltac:(solve_setter).
#[export] Instance set_change_set : Setter change_set := ltac:(solve_setter).
#[export] Instance set_revision : Setter revision := ltac:(solve_setter).

Record DataCacheConfig := mkConfig { max_entries : N; track_reads_in_write_cache : bool }.
Definition default_config : DataCacheConfig := mkConfig 100000 true.

(** [address] stands for the identity of the shared state, [detached] for a
    [DetachedParent] backing. *)
Record DataCache := mkDataCache {
  address : N;
  state : InnerState;
  read_only : bool;
  detached : bool;
  config : DataCacheConfig;
}.
#[export] Instance updatable_DataCache : Updatable DataCache := λ c,
  mkDataCache (address c) (state c) (read_only c) (detached c) (config c).
#[export] Instance set_address : Setter address := ltac:(solve_setter).
#[export] Instance set_state : Setter state := ltac:(solve_setter).
#[export] Instance set_read_only : Setter read_only := ltac:(solve_setter).
#[export] Instance set_detached : Setter detached := ltac:(solve_setter).
#[export] Instance set_config : Setter config := ltac:(solve_setter).

Inductive DataCacheError :=
| ReadOnly | InvalidState (s : TrackState.t)
| InvalidMergeState (key : StorageKey) (incoming current : TrackState.t)
| DuplicateMergeKey (key : StorageKey) | CommitFailed | DetachedCommit.

(** The trait [CacheRead]; [None] of [cr_find] is a source without rows of its own. *)
Record CacheRead := mkRead {
  cr_get : StorageKey → option StorageItem;
  cr_find : option StorageKey → SeekDirection → option (list (StorageKey * StorageItem));
}.
Definition EmptyCacheBacking : CacheRead := mkRead (λ _, None) (λ _ _, None).

(** ** Pieces of the state *)

Definition inner_new : InnerState := mkInnerState ∅ ∅ 0.
Definition bump_revision (s : InnerState) : InnerState := s <| revision ::= λ r, ((r + 1) mod 2 ^ 64)%N |>.
(** The state of [key], [NotFound] when the dictionary has no entry. *)
Definition state_of (s : InnerState) (k : StorageKey) : TrackState.t :=
  match dictionary s !! k with Some t => t_state t | None => NotFound end.
(** Inserts an entry and records the change. *)
Definition upsert (k : StorageKey) (t : Trackable) (s : InnerState) : InnerState :=
  s <| dictionary ::= <[k := t]> |> <| change_set ::= λ cs, {[k]} ∪ cs |>.
(** Forgets an entry and its change. *)
Definition forget (k : StorageKey) (s : InnerState) : InnerState :=
  s <| dictionary ::= delete k |> <| change_set ::= λ cs, cs ∖ {[k]} |>.
Definition tombstone : Trackable := mkTrackable Item.new Deleted.

Definition visible_trackable_item (t : Trackable) : option StorageItem :=
  match t_state t with Deleted | NotFound => None | _ => Some (t_item t) end.
Definition overlay_item (t : Trackable) : option (option StorageItem) :=
  match t_state t with
  | Added | Changed => Some (Some (t_item t))
  | Deleted | NotFound => Some None
  | Unmodified => None
  end.
Definition key_matches_prefix (k : StorageKey) (prefix : option bytes) : bool :=
  match prefix with Some p => starts_with (Key.build k) p | None => true end.

(** The changes of a state under a prefix, in key order: from the first key that is
    not before the prefix to the first one that does not match it. *)
Fixpoint take_matching (prefix : bytes) (ks : list StorageKey) : list StorageKey :=
  match ks with
  | k :: ks => if key_matches_prefix k (Some prefix) then k :: take_matching prefix ks else []
  | [] => []
  end.
Definition changed_keys (s : InnerState) (prefix : option StorageKey) : list StorageKey :=
  match prefix with
  | Some p =>
      take_matching (Key.build p)
        (filter (λ k, bytes_leb (Key.build p) (Key.build k) = true) (Key.sorted_set (change_set s)))
  | None => Key.sorted_set (change_set s)
  end.
Definition collect_change_overlays (s : InnerState) (prefix : option StorageKey) : gmap StorageKey (option StorageItem) :=
  foldl (λ m k, match t ← dictionary s !! k; overlay_item t with Some item => <[k := item]> m | None => m end)
    ∅ (changed_keys s prefix).

Definition in_direction {A} (d : SeekDirection) (l : list A) : list A :=
  match d with Forward => l | Backward => reverse l end.

(** How a write of each kind changes the state of an entry. *)
Definition added_state (prev : TrackState.t) : Result DataCacheError TrackState.t :=
  match prev with
  | Deleted => Ok Changed
  | NotFound => Ok Added
  | Added | Changed | Unmodified => Err (InvalidState prev)
  end.
Definition updated_state (prev : TrackState.t) : TrackState.t :=
  match prev with Added => Added | Changed | Unmodified | Deleted | NotFound => Changed end.

Module Dc.
Section ops.
Context (source : CacheRead).
#[local] Abbreviation Chain := (list DataCache).

Definition track_in_write_cache (k : StorageKey) (item : StorageItem) (c : DataCache) : DataCache :=
  if negb (track_reads_in_write_cache (config c)) then c
  else if (N.of_nat (size (dictionary (state c))) <? max_entries (config c))%N then
    match dictionary (state c) !! k with
    | Some _ => c
    | None => c <| state ::= λ s, bump_revision (s <| dictionary ::= <[k := mkTrackable item Unmodified]> |>) |>
    end
  else c.

(** [get] of a cache, and of a backing: [get_unobserved] of the parent or [get] of
    the source. *)
Fixpoint get (k : StorageKey) (chain : Chain) : Chain * option StorageItem :=
  match chain with
  | [] => ([], cr_get source k)
  | c :: rest =>
      match dictionary (state c) !! k with
      | Some t => (chain, visible_trackable_item t)
      | None =>
          match get k rest with
          | (rest, Some item) => (track_in_write_cache k item c :: rest, Some item)
          | (rest, None) => (c :: rest, None)
          end
      end
  end.

(** What the dictionary itself shows, the backing left aside. *)
Definition get_ref (k : StorageKey) (c : DataCache) : option StorageItem :=
  t ← dictionary (state c) !! k; visible_trackable_item t.

(** [find] of a cache, with its overlay on the rows of the backing. *)
Definition find_over (s : InnerState) (prefix : option StorageKey) (d : SeekDirection)
    (rows : list (StorageKey * StorageItem)) : list (StorageKey * StorageItem) :=
  let matches := filter (λ r : StorageKey * StorageItem, key_matches_prefix r.1 (Key.build <$> prefix) = true) rows in
  let overlays := collect_change_overlays s prefix in
  if bool_decide (overlays = ∅) then matches
  else
    let merged := foldl (λ m r, <[r.1 := r.2]> m) ∅ matches in
    let merged := foldl (λ (m : gmap StorageKey StorageItem) o, match o.2 with Some item => <[o.1 := item]> m | None => delete o.1 m end)
                    merged (Key.sorted overlays) in
    in_direction d (Key.sorted merged).
Definition find_own (s : InnerState) (prefix : option StorageKey) (d : SeekDirection) : list (StorageKey * StorageItem) :=
  in_direction d (Key.sorted (filter (λ r : StorageKey * StorageItem, key_matches_prefix r.1 (Key.build <$> prefix) = true)
                                (omap visible_trackable_item (dictionary s)))).
Fixpoint find (prefix : option StorageKey) (d : SeekDirection) (chain : Chain) : option (list (StorageKey * StorageItem)) :=
  match chain with
  | [] => cr_find source prefix d
  | c :: rest =>
      Some (match find prefix d rest with
            | Some rows => find_over (state c) prefix d rows
            | None => find_own (state c) prefix d
            end)
  end.

(** ** Writes *)

Definition apply_add (k : StorageKey) (value : StorageItem) (c : DataCache) : DataCache * Result DataCacheError unit :=
  match added_state (state_of (state c) k) with
  | Err e => (c, Err e)
  | Ok new => (c <| state ::= λ s, bump_revision (upsert k (mkTrackable value new) s) |>, Ok tt)
  end.
Definition apply_update (k : StorageKey) (value : StorageItem) (c : DataCache) : DataCache :=
  c <| state ::= λ s, bump_revision (upsert k (mkTrackable value (updated_state (state_of s k))) s) |>.
(** [rest] is the backing, which is asked for a key the dictionary does not know. *)
Definition apply_delete (k : StorageKey) (c : DataCache) (rest : Chain) : DataCache * Chain :=
  match state_of (state c) k with
  | Added => (c <| state ::= λ s, bump_revision (forget k s) |>, rest)
  | Changed | Unmodified => (c <| state ::= λ s, bump_revision (upsert k tombstone s) |>, rest)
  | Deleted => (c, rest)
  | NotFound =>
      match get k rest with
      | (rest, None) => (c, rest)
      | (rest, Some _) => (c <| state ::= λ s, bump_revision (upsert k tombstone s) |>, rest)
      end
  end.

Definition try_add (k : StorageKey) (value : StorageItem) (chain : Chain) : Chain * Result DataCacheError unit :=
  match chain with
  | [] => ([], Err ReadOnly)
  | c :: rest =>
      if read_only c then (chain, Err ReadOnly)
      else let '(c, r) := apply_add k value c in (c :: rest, r)
  end.
Definition try_update (k : StorageKey) (value : StorageItem) (chain : Chain) : Chain * Result DataCacheError unit :=
  match chain with
  | [] => ([], Err ReadOnly)
  | c :: rest => if read_only c then (chain, Err ReadOnly) else (apply_update k value c :: rest, Ok tt)
  end.
Definition try_delete (k : StorageKey) (chain : Chain) : Chain * Result DataCacheError unit :=
  match chain with
  | [] => ([], Err ReadOnly)
  | c :: rest =>
      if read_only c then (chain, Err ReadOnly)
      else let '(c, rest) := apply_delete k c rest in (c :: rest, Ok tt)
  end.

(** ** Overlays and commit *)

Definition clone_overlay_with_config (fresh : N) (cfg : DataCacheConfig) (is_detached : bool) (chain : Chain) : Chain :=
  mkDataCache fresh inner_new false is_detached cfg :: chain.

(** One change of an overlay, merged into the cache under it by
    [merge_tracked_items_without_update_callbacks]; the flag is [modified]. *)
Definition merge_one (st : DataCache * Chain * bool) (change : StorageKey * Trackable) : DataCache * Chain * bool :=
  let '(c, rest, modified) := st in
  let '(k, t) := change in
  match t_state t with
  | Added =>
      match added_state (state_of (state c) k) with
      | Ok new => (c <| state ::= upsert k (mkTrackable (t_item t) new) |>, rest, true)
      | Err _ => st
      end
  | Changed => (c <| state ::= λ s, upsert k (mkTrackable (t_item t) (updated_state (state_of s k))) s |>, rest, true)
  | Deleted =>
      match state_of (state c) k with
      | Added => (c <| state ::= forget k |>, rest, true)
      | Changed | Unmodified => (c <| state ::= upsert k tombstone |>, rest, true)
      | NotFound =>
          match get k rest with
          | (rest, Some _) => (c <| state ::= upsert k tombstone |>, rest, true)
          | (rest, None) => (c, rest, modified)
          end
      | Deleted => st
      end
  | Unmodified | NotFound => st
  end.
(** The tracked changes, in key order. *)
Definition tracked_items (c : DataCache) : list (StorageKey * Trackable) :=
  omap (λ k, t ← dictionary (state c) !! k; Some (k, t)) (Key.sorted_set (change_set (state c))).
Definition merge_tracked_items_fast (items : list (StorageKey * Trackable)) (c : DataCache) (rest : Chain) : DataCache * Chain :=
  let '(c, rest, modified) := foldl merge_one (c, rest, false) items in
  (if modified then c <| state ::= bump_revision |> else c, rest).

(** [merge_tracked_items]: one write per item, dropped by a read-only cache. *)
Definition merge_tracked_item (st : Chain) (change : StorageKey * Trackable) : Chain :=
  let '(k, t) := change in
  match t_state t with
  | Added => (try_add k (t_item t) st).1
  | Changed => (try_update k (t_item t) st).1
  | Deleted => match st with [] => [] | c :: rest => let '(c, rest) := apply_delete k c rest in c :: rest end
  | Unmodified | NotFound => st
  end.
Definition merge_tracked_items (items : list (StorageKey * Trackable)) (chain : Chain) : Chain :=
  foldl merge_tracked_item chain items.

Definition settle_one (d : gmap StorageKey Trackable) (k : StorageKey) : gmap StorageKey Trackable :=
  match d !! k with
  | Some t =>
      match t_state t with
      | Added | Changed => <[k := mkTrackable (t_item t) Unmodified]> d
      | Deleted => delete k d
      | Unmodified | NotFound => d
      end
  | None => d
  end.
Definition settle (s : InnerState) : InnerState :=
  let settled := mkInnerState (foldl settle_one (dictionary s) (Key.sorted_set (change_set s))) ∅ (revision s) in
  if bool_decide (change_set s = ∅) then settled else bump_revision settled.
(** [merge_tracked_items_from]: [observed] says that a read observer of the overlay
    [c] or of the cache under it is active. *)
Definition merge_tracked_items_from (observed : bool) (c parent : DataCache) (below : Chain) : Chain :=
  if observed then merge_tracked_items (tracked_items c) (parent :: below)
  else let '(parent, below) := merge_tracked_items_fast (tracked_items c) parent below in parent :: below.
Definition commit_writable (observed : bool) (chain : Chain) : Chain :=
  match chain with
  | [] => []
  | c :: rest =>
      let rest :=
        match rest with
        | parent :: below =>
            if detached c || bool_decide (change_set (state c) = ∅) then rest
            else merge_tracked_items_from observed c parent below
        | [] => []
        end in
      c <| state ::= settle |> :: rest
  end.
Definition try_commit (observed : bool) (chain : Chain) : Chain * Result DataCacheError unit :=
  match chain with
  | [] => ([], Err ReadOnly)
  | c :: _ =>
      if read_only c then (chain, Err ReadOnly)
      else if detached c then (chain, Err DetachedCommit)
      else (commit_writable observed chain, Ok tt)
  end.
(** [commit]: as [try_commit], without the error. *)
Definition commit (observed : bool) (chain : Chain) : Chain := (try_commit observed chain).1.
Definition reset (chain : Chain) : Chain :=
  match chain with
  | [] => []
  | c :: rest =>
      let s := state c in
      let modified := negb (bool_decide (dictionary s = ∅)) || negb (bool_decide (change_set s = ∅)) in
      let s' := mkInnerState ∅ ∅ (revision s) in
      c <| state := if modified then bump_revision s' else s' |> :: rest
  end.

(** A copy of the state on the same backing. *)
Definition fork_isolated (fresh : N) (chain : Chain) : Chain :=
  match chain with [] => [] | c :: rest => c <| address := fresh |> :: rest end.

(** ** Atomic validation and merge *)

(** What a validation callback does: it reads through the locked view, then answers. *)
Inductive Validation (E T : Type) :=
| Answer (r : Result E T)
| ReadKey (k : StorageKey) (next : option StorageItem → Validation E T).
#[global] Arguments Answer {E T}.
#[global] Arguments ReadKey {E T}.

(** [LockedDataCacheView::get]: the reads of the callback are not tracked in the
    locked cache, those of its ancestors are. *)
Definition view_get (c : DataCache) (k : StorageKey) (rest : Chain) : Chain * option StorageItem :=
  match dictionary (state c) !! k with
  | Some t => (rest, visible_trackable_item t)
  | None => get k rest
  end.
Fixpoint run_validation {E T} (v : Validation E T) (c : DataCache) (rest : Chain) : Chain * Result E T :=
  match v with
  | Answer r => (rest, r)
  | ReadKey k next => let '(rest, item) := view_get c k rest in run_validation (next item) c rest
  end.

Inductive PreparedMerge := Upsert (k : StorageKey) (t : Trackable) | Remove (k : StorageKey) | Noop.

(** The effect of one incoming change on a cache in state [current]. *)
Definition prepare_one (c : DataCache) (rest : Chain) (k : StorageKey) (incoming : Trackable) :
    Chain * Result DataCacheError PreparedMerge :=
  let current := state_of (state c) k in
  match t_state incoming with
  | Added =>
      match current with
      | Deleted => (rest, Ok (Upsert k (mkTrackable (t_item incoming) Changed)))
      | NotFound => (rest, Ok (Upsert k (mkTrackable (t_item incoming) Added)))
      | Added | Changed | Unmodified => (rest, Err (InvalidMergeState k (t_state incoming) current))
      end
  | Changed =>
      let merged := if bool_decide (current = Added) then Added else Changed in
      (rest, Ok (Upsert k (mkTrackable (t_item incoming) merged)))
  | Deleted =>
      match current with
      | Added => (rest, Ok (Remove k))
      | Changed | Unmodified => (rest, Ok (Upsert k tombstone))
      | NotFound =>
          match get k rest with
          | (rest, Some _) => (rest, Ok (Upsert k tombstone))
          | (rest, None) => (rest, Ok Noop)
          end
      | Deleted => (rest, Ok Noop)
      end
  | Unmodified | NotFound => (rest, Err (InvalidMergeState k (t_state incoming) current))
  end.
Fixpoint prepare_merge_locked (c : DataCache) (rest : Chain) (seen : list StorageKey) (items : list (StorageKey * Trackable)) :
    Chain * Result DataCacheError (list PreparedMerge) :=
  match items with
  | [] => (rest, Ok [])
  | (k, incoming) :: items =>
      if bool_decide (k ∈ seen) then (rest, Err (DuplicateMergeKey k))
      else
        match prepare_one c rest k incoming with
        | (rest, Err e) => (rest, Err e)
        | (rest, Ok effect) =>
            match prepare_merge_locked c rest (k :: seen) items with
            | (rest, Ok effects) => (rest, Ok (effect :: effects))
            | (rest, Err e) => (rest, Err e)
            end
        end
  end.
Definition publish_one (st : InnerState * bool) (effect : PreparedMerge) : InnerState * bool :=
  match effect with
  | Upsert k t => (upsert k t st.1, true)
  | Remove k => (forget k st.1, true)
  | Noop => st
  end.
Definition publish (effects : list PreparedMerge) (s : InnerState) : InnerState :=
  let '(s, modified) := foldl publish_one (s, false) effects in
  if modified then bump_revision s else s.

Record DataCacheVersion := mkVersion { v_state : N; v_revision : N }.
Definition version (c : DataCache) : DataCacheVersion := mkVersion (address c) (revision (state c)).

Inductive AtomicMergeError (E : Type) :=
| ForeignVersion | StaleVersion (expected actual : N) | ValidationRejected (e : E) | MergeFailed (e : DataCacheError).
Arguments ForeignVersion {E}.
Arguments StaleVersion {E}.
Arguments ValidationRejected {E}.
Arguments MergeFailed {E}.

Definition try_validate_and_merge_tracked_items {E T} (expected : DataCacheVersion) (items : list (StorageKey * Trackable))
    (validate : Validation E T) (c : DataCache) (rest : Chain) : DataCache * Chain * Result (AtomicMergeError E) T :=
  if negb (v_state expected =? address c)%N then (c, rest, Err ForeignVersion)
  else if negb (v_revision expected =? revision (state c))%N then
    (c, rest, Err (StaleVersion (v_revision expected) (revision (state c))))
  else if negb (bool_decide (items = [])) && read_only c then (c, rest, Err (MergeFailed ReadOnly))
  else
    match prepare_merge_locked c rest [] items with
    | (rest, Err e) => (c, rest, Err (MergeFailed e))
    | (rest, Ok effects) =>
        match run_validation validate c rest with
        | (rest, Err e) => (c, rest, Err (ValidationRejected e))
        | (rest, Ok answer) => (c <| state ::= publish effects |>, rest, Ok answer)
        end
    end.
End ops.

(** ** What a commit hands to a store *)

Section raw.
Context `{BigIntBytes}.
Definition raw_change (change : StorageKey * Trackable) : option (bytes * option bytes) :=
  match t_state change.2 with
  | Added | Changed => Some (Key.build change.1, Some (Item.value_bytes (t_item change.2)))
  | Deleted => Some (Key.build change.1, None)
  | Unmodified | NotFound => None
  end.
Definition extract_raw_changes (c : DataCache) : list (bytes * option bytes) := omap raw_change (tracked_items c).
End raw.
End Dc.
