(* ===== verification/StoreCache.v ===== *)
(** * The store under the cache

    src/neo-storage/src/persistence/: the traits of a store with what [StoreCache]
    relies on, the in-memory store and its snapshots (providers/), and [StoreCache]
    (cache/store_cache.rs), the root cache that writes its changes to a store. *)
From S2P Require Import Prelude Primitives Order Io RecordUpdate Storage.
Import TrackState.
#[local] Open Scope update_scope.

Definition Overlay : Type := list (bytes * option bytes).
Inductive StorageError := StorageFailed.
Definition write_row (m : gmap bytes bytes) (change : bytes * option bytes) : gmap bytes bytes :=
  match change.2 with Some v => <[change.1 := v]> m | None => delete change.1 m end.
Definition apply_overlay (o : Overlay) (m : gmap bytes bytes) : gmap bytes bytes := foldl write_row m o.
Definition sorted_rows (prefix : option bytes) (d : SeekDirection) (m : gmap bytes bytes) : list (bytes * bytes) :=
  in_direction d (filter (λ r : bytes * bytes, starts_with r.1 (default [] prefix) = true) (sort_by_key fst (map_to_list m))).

(** ** Stores *)

(** The traits [Store] and [TransactionalStore].  [commit_snapshot] is
    [snapshot()], the writes, and [try_commit] of the snapshot. *)
Class TransactionalStore (S : Type) := {
  store_get : bytes → S → option bytes;
  store_find : option bytes → SeekDirection → S → list (bytes * bytes);
  flush : S → Result StorageError unit;
  try_commit_borrowed_raw_overlay : Overlay → S → S * Result StorageError bool;
  try_commit_raw_overlay : Overlay → S → S * Result StorageError bool;
  commit_snapshot : Overlay → S → S * Result StorageError unit;
  commit_canonical_overlay : Overlay → S → S * Result StorageError unit;
}.

(** What is documented of them: reads are those of a map, a commit that succeeds
    applies the whole overlay, a direct commit that is not supported changes nothing,
    and the canonical commit applies everything or nothing. *)
Definition commits (m m' : gmap bytes bytes) (o : Overlay) (done : bool) : Prop :=
  m' = if done then apply_overlay o m else m.
Class StoreLaws (S : Type) `{TransactionalStore S} := {
  rows : S → gmap bytes bytes;
  store_get_rows : ∀ k s, store_get k s = rows s !! k;
  store_find_rows : ∀ p d s, store_find p d s = sorted_rows p d (rows s);
  borrowed_law : ∀ o s s' b, try_commit_borrowed_raw_overlay o s = (s', Ok b) → commits (rows s) (rows s') o b;
  raw_law : ∀ o s s' b, try_commit_raw_overlay o s = (s', Ok b) → commits (rows s) (rows s') o b;
  snapshot_law : ∀ o s s', commit_snapshot o s = (s', Ok tt) → commits (rows s) (rows s') o true;
  canonical_law : ∀ o s, let '(s', r) := commit_canonical_overlay o s in
    commits (rows s) (rows s') o (match r with Ok _ => true | Err _ => false end);
}.

(** Not documented of the other commits: one that fails leaves the rows alone. *)
Definition failures_atomic (S : Type) `{StoreLaws S} : Prop :=
  (∀ o (s s' : S) e, try_commit_borrowed_raw_overlay o s = (s', Err e) → rows s' = rows s) ∧
  (∀ o (s s' : S) e, try_commit_raw_overlay o s = (s', Err e) → rows s' = rows s) ∧
  (∀ o (s s' : S) e, commit_snapshot o s = (s', Err e) → rows s' = rows s).

(** ** The in-memory store *)

Record MemoryStore := mkMemory { data : gmap bytes bytes; metadata : gmap bytes bytes }.
Module Memory.
Definition new : MemoryStore := mkMemory ∅ ∅.
Definition reset (s : MemoryStore) : MemoryStore := new.
Definition try_get (k : bytes) (s : MemoryStore) : option bytes := data s !! k.
(** [BTreeMap] iterates in byte order. *)
Definition find (prefix : option bytes) (d : SeekDirection) (s : MemoryStore) : list (bytes * bytes) :=
  in_direction d (filter (λ r : bytes * bytes, match prefix with Some p => starts_with r.1 p | None => true end = true)
                    (sort_by_key fst (map_to_list (data s)))).
Definition put (k v : bytes) (s : MemoryStore) : MemoryStore := mkMemory (<[k := v]> (data s)) (metadata s).
Definition delete_row (k : bytes) (s : MemoryStore) : MemoryStore := mkMemory (delete k (data s)) (metadata s).
Definition commit_borrowed_overlay (o : Overlay) (s : MemoryStore) : MemoryStore := mkMemory (apply_overlay o (data s)) (metadata s).
(** A [BTreeMap] of writes, the last one of a key. *)
Definition apply_batch (batch : gmap bytes (option bytes)) (s : MemoryStore) : MemoryStore :=
  mkMemory (apply_overlay (sort_by_key fst (map_to_list batch)) (data s)) (metadata s).
Definition commit_maintenance (data_operations metadata_operations : Overlay) (s : MemoryStore) : MemoryStore :=
  mkMemory (apply_overlay data_operations (data s)) (apply_overlay metadata_operations (metadata s)).
End Memory.

Record MemorySnapshot := mkSnapshot { immutable_data : gmap bytes bytes; write_batch : gmap bytes (option bytes) }.
Module Snapshot.
Definition new (s : MemoryStore) : MemorySnapshot := mkSnapshot (data s) ∅.
Definition write (change : bytes * option bytes) (n : MemorySnapshot) : MemorySnapshot :=
  mkSnapshot (immutable_data n) (<[change.1 := change.2]> (write_batch n)).
Definition try_commit (n : MemorySnapshot) (s : MemoryStore) : MemorySnapshot * MemoryStore :=
  (mkSnapshot (immutable_data n) ∅, Memory.apply_batch (write_batch n) s).
End Snapshot.

#[export] Instance memory_store : TransactionalStore MemoryStore := {|
  store_get := Memory.try_get;
  store_find := Memory.find;
  flush := λ _, Ok tt;
  try_commit_borrowed_raw_overlay := λ o s, (Memory.commit_borrowed_overlay o s, Ok true);
  try_commit_raw_overlay := λ o s, (mkMemory (apply_overlay o (data s)) (metadata s), Ok true);
  commit_snapshot := λ o s,
    let n := foldl (λ n change, Snapshot.write change n) (Snapshot.new s) o in
    ((Snapshot.try_commit n s).2, Ok tt);
  commit_canonical_overlay := λ o s, (Memory.commit_borrowed_overlay o s, Ok tt);
|}.

(** ** The root cache *)

(** [pinned] is the snapshot a cache over a snapshot reads from. *)
Record StoreCache (S : Type) := mkStoreCache { sc_cache : DataCache; sc_store : S; pinned : option S }.
Arguments mkStoreCache {S}.
Arguments sc_cache {S}.
Arguments sc_store {S}.
Arguments pinned {S}.

Module Sc.
Section store_cache.
Context {S : Type} `{!TransactionalStore S} `{BigIntBytes}.

(** [StoreCacheBacking] as a source. *)
Definition reads (s : S) : CacheRead := {|
  cr_get := λ k, Item.from_bytes <$> store_get (Key.build k) s;
  cr_find := λ prefix d, Some (prod_map Key.from_bytes Item.from_bytes <$> store_find (Key.build <$> prefix) d s);
|}.
Definition source (sc : StoreCache S) : CacheRead := reads (default (sc_store sc) (pinned sc)).
Definition new_from_store (address : N) (s : S) (ro : bool) (cfg : DataCacheConfig) : StoreCache S :=
  mkStoreCache (mkDataCache address inner_new ro false cfg) s None.
Definition new_from_snapshot (address : N) (s : S) (cfg : DataCacheConfig) : StoreCache S :=
  mkStoreCache (mkDataCache address inner_new false false cfg) s (Some s).

(** The root has no parent: [commit] and [reset] only touch its own state. *)
Definition settled (s : S) (sc : StoreCache S) : StoreCache S :=
  mkStoreCache (if read_only (sc_cache sc) then sc_cache sc else sc_cache sc <| state ::= Dc.settle |>) s (pinned sc).
Definition discard_pending_changes (sc : StoreCache S) : StoreCache S :=
  mkStoreCache (default (sc_cache sc) (head (Dc.reset [sc_cache sc]))) (sc_store sc) (pinned sc).
Definition with_store (s : S) (sc : StoreCache S) : StoreCache S := mkStoreCache (sc_cache sc) s (pinned sc).

(** Tracked changes of another cache, refused ones ignored. *)
Definition apply_tracked (sc : StoreCache S) (change : StorageKey * Trackable) : StoreCache S :=
  let '(k, t) := change in
  let cache := [sc_cache sc] in
  let cache :=
    match t_state t with
    | Added => (Dc.try_add k (t_item t) cache).1
    | Changed => (Dc.try_update k (t_item t) cache).1
    | Deleted => (Dc.try_delete (source sc) k cache).1
    | Unmodified | NotFound => cache
    end in
  mkStoreCache (default (sc_cache sc) (head cache)) (sc_store sc) (pinned sc).
Definition apply_tracked_items (tracked : list (StorageKey * Trackable)) (sc : StoreCache S) : StoreCache S :=
  foldl apply_tracked sc tracked.

Definition commit_by_snapshot (s : S) (sc : StoreCache S) : StoreCache S * Result DataCacheError unit :=
  match commit_snapshot (Dc.extract_raw_changes (sc_cache sc)) s with
  | (s, Ok _) => (settled s sc, Ok tt)
  | (s, Err _) => (with_store s sc, Err CommitFailed)
  end.
Definition try_commit_store_overlay (sc : StoreCache S) : StoreCache S * Result DataCacheError bool :=
  match pinned sc with
  | Some _ => (sc, Ok false)
  | None =>
      let overlay := Dc.extract_raw_changes (sc_cache sc) in
      match try_commit_borrowed_raw_overlay overlay (sc_store sc) with
      | (s, Err _) => (with_store s sc, Err CommitFailed)
      | (s, Ok true) => (settled s sc, Ok true)
      | (s, Ok false) =>
          match try_commit_raw_overlay overlay s with
          | (s, Err _) => (with_store s sc, Err CommitFailed)
          | (s, Ok true) => (settled s sc, Ok true)
          | (s, Ok false) => (with_store s sc, Ok false)
          end
      end
  end.
Definition try_commit (sc : StoreCache S) : StoreCache S * Result DataCacheError unit :=
  if read_only (sc_cache sc) then (sc, Err ReadOnly)
  else if bool_decide (change_set (state (sc_cache sc)) = ∅) then (settled (sc_store sc) sc, Ok tt)
  else
    match try_commit_store_overlay sc with
    | (sc, Err e) => (sc, Err e)
    | (sc, Ok true) => (sc, Ok tt)
    | (sc, Ok false) => commit_by_snapshot (sc_store sc) sc
    end.

Definition commit_canonical_store_overlay (sc : StoreCache S) : StoreCache S * Result DataCacheError unit :=
  match pinned sc with
  | Some _ => (sc, Err CommitFailed)
  | None =>
      match commit_canonical_overlay (Dc.extract_raw_changes (sc_cache sc)) (sc_store sc) with
      | (s, Ok _) => (settled s sc, Ok tt)
      | (s, Err _) => (with_store s sc, Err CommitFailed)
      end
  end.
Definition try_commit_durable (sc : StoreCache S) : StoreCache S * Result DataCacheError unit :=
  if read_only (sc_cache sc) then (sc, Err ReadOnly)
  else if negb (bool_decide (change_set (state (sc_cache sc)) = ∅)) then
    match commit_canonical_store_overlay sc with
    | (sc, Ok _) => (sc, Ok tt)
    | (sc, Err e) => (discard_pending_changes sc, Err e)
    end
  else
    match flush (sc_store sc) with
    | Ok _ => (sc, Ok tt)
    | Err _ => (discard_pending_changes sc, Err CommitFailed)
    end.
(** [commit] is the transaction of the caller. *)
Definition try_commit_durable_with (commit : S → Overlay → S * Result StorageError unit) (sc : StoreCache S) :
    StoreCache S * Result DataCacheError unit :=
  if read_only (sc_cache sc) then (sc, Err ReadOnly)
  else
    match pinned sc with
    | Some _ => (discard_pending_changes sc, Err CommitFailed)
    | None =>
        match commit (sc_store sc) (Dc.extract_raw_changes (sc_cache sc)) with
        | (s, Ok _) => (settled s sc, Ok tt)
        | (s, Err _) => (discard_pending_changes (with_store s sc), Err CommitFailed)
        end
    end.
End store_cache.
End Sc.
