(* ===== verification/StorageFacts.v ===== *)
(** * The data cache is a map

    The order of keys and prefix ranges, what a chain of caches shows ([look]), the
    invariant of a chain, and what every operation does to both. *)
From S2P Require Import Prelude Primitives Order Io RecordUpdate Storage.
Import TrackState.
#[local] Open Scope update_scope.

(** ** Keys *)

Lemma build_inj k k' : Key.build k = Key.build k' → k = k'.
Proof. destruct k as [[a b c d] k], k' as [[a' b' c' d'] k']. cbn. congruence. Qed.
#[export] Instance build_Inj : Inj (=) (=) Key.build := build_inj.
Lemma from_build k : Key.from_bytes (Key.build k) = k.
Proof. by destruct k as [[] k]. Qed.
Lemma build_from bs : 4 ≤ length bs → Key.build (Key.from_bytes bs) = bs.
Proof. destruct bs as [|a [|b [|c [|d bs]]]]; cbn; intros; try lia. done. Qed.
Lemma build_length k : 4 ≤ length (Key.build k).
Proof. destruct k as [[] k]. cbn. lia. Qed.

Lemma be_compare a b :
  (u32_from_be_bytes a ?= u32_from_be_bytes b)%N = bytes_cmp (i32_to_le_bytes a) (i32_to_le_bytes b).
Proof.
  destruct a as [a0 a1 a2 a3], b as [b0 b1 b2 b3]. unfold u32_from_be_bytes. cbn [i32_to_le_bytes bytes_cmp i32_0 i32_1 i32_2 i32_3].
  pose proof (to_N_lt a1). pose proof (to_N_lt a2). pose proof (to_N_lt a3).
  pose proof (to_N_lt b1). pose proof (to_N_lt b2). pose proof (to_N_lt b3).
  assert (∀ x y x' y' B : N, (x' < B → y' < B → (x * B + x' ?= y * B + y') = cmp_then (x ?= y) (x' ?= y'))%N) as Hstep.
  { intros x y x' y' B Hx Hy. destruct (N.compare_spec x y) as [->|Hl|Hl]; cbn [cmp_then].
    - destruct (N.compare_spec x' y'); [apply N.compare_eq_iff | apply N.compare_lt_iff | apply N.compare_gt_iff]; nia.
    - apply N.compare_lt_iff. nia.
    - apply N.compare_gt_iff. nia. }
  rewrite <- !N.add_assoc. rewrite Hstep by lia. f_equal. rewrite Hstep by lia. f_equal. rewrite Hstep by lia. f_equal.
  by destruct (_ ?= _)%N.
Qed.
Lemma bytes_cmp_app_then a b x y : length a = length b → bytes_cmp (a ++ x) (b ++ y) = cmp_then (bytes_cmp a b) (bytes_cmp x y).
Proof.
  revert b. induction a as [|c a IH]; intros [|d b] E; try done. cbn. injection E as E.
  rewrite (IH b E). by destruct (_ ?= _)%N.
Qed.
(** The order of keys is the order of their bytes. *)
Lemma cmp_bytes a b : Key.cmp a b = bytes_cmp (Key.build a) (Key.build b).
Proof. unfold Key.cmp, Key.build. by rewrite bytes_cmp_app_then, be_compare. Qed.

(** ** Prefix ranges *)

(** Past the prefix, nothing starts with it. *)
Lemma past_prefix p a b : bytes_leb p a = true → starts_with a p = false → bytes_lt a b → starts_with b p = false.
Proof.
  intros Hle Hn Hab. destruct (starts_with b p) eqn:E; [|done]. exfalso. apply starts_with_spec in E as [s ->].
  apply bytes_leb_cases in Hle as [Hle|<-].
  - revert a s Hn Hab Hle. induction p as [|x p IH]; intros [|y a] s Hn Hab Hle; try done.
    unfold bytes_lt in Hab, Hle. cbn in Hab, Hle, Hn. rewrite cmp_then_Lt in Hab, Hle.
    rewrite N.compare_antisym in Hab.
    destruct (Byte.to_N x ?= Byte.to_N y)%N eqn:E; cbn in Hab; [|naive_solver..].
    apply N.compare_eq_iff, to_N_inj in E as ->. rewrite bool_decide_true in Hn by done. cbn in Hn.
    destruct Hle as [|[_ Hle]]; [done|]. destruct Hab as [|[_ Hab]]; [done|]. by eapply IH.
  - assert (starts_with p p = true) by (apply starts_with_spec; exists []; by rewrite app_nil_r). congruence.
Qed.

Section sets.
Implicit Types (k : StorageKey).
Lemma sorted_set_elem k s : k ∈ Key.sorted_set s ↔ k ∈ s.
Proof. unfold Key.sorted_set. rewrite (sort_by_key_perm Key.build). apply elem_of_elements. Qed.
Lemma sorted_set_NoDup s : NoDup (Key.sorted_set s).
Proof. unfold Key.sorted_set. rewrite (sort_by_key_perm Key.build). apply NoDup_elements. Qed.
Lemma sorted_set_sorted s : StronglySorted (lt_by Key.build) (Key.sorted_set s).
Proof. apply sort_by_key_sorted, NoDup_fmap_2; [apply _ | apply NoDup_elements]. Qed.

Lemma take_matching_filter p ks :
  StronglySorted (lt_by Key.build) ks → Forall (λ k, bytes_leb p (Key.build k) = true) ks →
  take_matching p ks = filter (λ k, starts_with (Key.build k) p = true) ks.
Proof.
  induction 1 as [|k ks Hs IH Hk]; intros Hp; [done|]. apply Forall_cons in Hp as [Hpk Hp]. cbn [take_matching key_matches_prefix].
  destruct (starts_with (Key.build k) p) eqn:E; [rewrite filter_cons_True by done; by rewrite IH|].
  rewrite filter_cons_False by congruence. symmetry. apply filter_none. intros k' Hk'.
  rewrite Forall_forall in Hk. rewrite (past_prefix p _ _ Hpk E (Hk k' Hk')). done.
Qed.
Lemma StronglySorted_filter {A} (R : A → A → Prop) (P : A → Prop) `{∀ x, Decision (P x)} l :
  StronglySorted R l → StronglySorted R (filter P l).
Proof.
  induction 1 as [|x l Hs IH Hx]; [constructor|]. rewrite filter_cons. destruct (decide (P x)); [|done].
  constructor; [done|]. rewrite Forall_forall in Hx |- *. intros y [_ Hy]%list_elem_of_filter. by apply Hx.
Qed.
Lemma changed_keys_elem st prefix k :
  k ∈ changed_keys st prefix ↔ k ∈ change_set st ∧ key_matches_prefix k (Key.build <$> prefix) = true.
Proof.
  destruct prefix as [p|]; cbn [changed_keys fmap option_fmap option_map key_matches_prefix]; [|rewrite sorted_set_elem; naive_solver].
  rewrite take_matching_filter; [|apply StronglySorted_filter, sorted_set_sorted|].
  - rewrite !list_elem_of_filter, sorted_set_elem. split; [naive_solver|]. intros [Hk Hp]. split; [done|]. split; [|done].
    apply starts_with_spec in Hp as [s ->]. apply bytes_leb_cases. destruct s as [|x s]; [right; by rewrite app_nil_r|].
    left. by apply bytes_lt_prefix.
  - apply Forall_forall. by intros x [Hx _]%list_elem_of_filter.
Qed.
End sets.

(** ** What a chain shows, and its invariant *)

Definition fn_set (k : StorageKey) (o : option bytes) (f : StorageKey → option bytes) : StorageKey → option bytes :=
  λ k', if bool_decide (k' = k) then o else f k'.

(** ** The two ways to merge an overlay *)

Definition unrevised (c : DataCache) : DataCache := c <| state ::= λ s, s <| revision := 0%N |> |>.
Lemma unrevised_eq c c' :
  unrevised c = unrevised c' ↔ address c = address c' ∧ dictionary (state c) = dictionary (state c') ∧
    change_set (state c) = change_set (state c') ∧ read_only c = read_only c' ∧ detached c = detached c' ∧ config c = config c'.
Proof.
  destruct c as [? [] ? ? ?], c' as [? [] ? ? ?]. unfold unrevised. cbn. split; [intros [= -> -> -> -> -> ->]; done|].
  by intros (-> & -> & -> & -> & -> & ->).
Qed.
Lemma merge_step_agrees source k t c c' rest m :
  read_only c = false → unrevised c = unrevised c' →
  let '(c1, rest1, _) := Dc.merge_one source (c, rest, m) (k, t) in
  ∃ c2, Dc.merge_tracked_item source (c' :: rest) (k, t) = c2 :: rest1 ∧ unrevised c1 = unrevised c2.
Proof.
  rewrite unrevised_eq. intros Hro (Ea & Ed & Ec & Er & Edet & Ecfg). unfold Dc.merge_tracked_item, Dc.merge_one, Dc.try_add, Dc.try_update,
    Dc.apply_add, Dc.apply_delete. assert (state_of (state c) k = state_of (state c') k) as Es by (unfold state_of; by rewrite Ed).
  rewrite <- Er, Hro, <- Es. destruct (t_state t).
  - by exists c'; rewrite unrevised_eq.
  - destruct (added_state (state_of (state c) k)); eexists; (split; [done|]); rewrite unrevised_eq; cbn; split_and!; congruence.
  - eexists. split; [done|]. rewrite unrevised_eq. cbn. rewrite <- Es. split_and!; congruence.
  - destruct (state_of (state c) k); try (eexists; split; [done|]; rewrite unrevised_eq; cbn; split_and!; congruence).
    destruct (Dc.get source k rest) as [rest' [item|]]; eexists; (split; [done|]); rewrite unrevised_eq; cbn; split_and!; congruence.
  - by exists c'; rewrite unrevised_eq.
Qed.
(** The merge under one lock is the merge item by item, when the cache is writable. *)
Lemma merge_paths_agree source items c rest :
  read_only c = false →
  let '(c1, rest1) := Dc.merge_tracked_items_fast source items c rest in
  ∃ c2, Dc.merge_tracked_items source items (c :: rest) = c2 :: rest1 ∧ unrevised c1 = unrevised c2.
Proof.
  intros Hro. unfold Dc.merge_tracked_items_fast, Dc.merge_tracked_items.
  assert (∀ c c' rest m, read_only c = false → unrevised c = unrevised c' →
    let '(c1, rest1, _) := foldl (Dc.merge_one source) (c, rest, m) items in
    ∃ c2, foldl (Dc.merge_tracked_item source) (c' :: rest) items = c2 :: rest1 ∧ unrevised c1 = unrevised c2) as Hfold.
  { clear c rest Hro. induction items as [|[k t] items IH]; intros c c' rest m Hro E; [by exists c'|].
    pose proof (merge_step_agrees source k t c c' rest m Hro E) as Hs. cbn [foldl].
    destruct (Dc.merge_one source (c, rest, m) (k, t)) as [[c1 rest1] m1] eqn:E1. destruct Hs as (c2 & -> & E2). apply IH; [|done].
    apply unrevised_eq in E2 as (_ & _ & _ & Er & _). apply unrevised_eq in E as (_ & _ & _ & Er' & _).
    assert (read_only c1 = read_only c) as ->; [|done].
    unfold Dc.merge_one in E1. by repeat case_match; simplify_eq. }
  specialize (Hfold c c rest false Hro eq_refl). destruct (foldl _ _ items) as [[c1 rest1] m]. destruct Hfold as (c2 & E & Eu).
  exists c2. split; [done|]. rewrite <- Eu. by destruct m, c1 as [? [] ? ? ?].
Qed.

Section chain.
Context `{BigIntBytes} (source : CacheRead) (backed : bool).
Implicit Types (k : StorageKey) (t : Trackable) (s : InnerState) (c : DataCache) (below f : StorageKey → option bytes).
#[local] Abbreviation val := Item.value_bytes.
#[local] Abbreviation Chain := (list DataCache).

Definition show s below k : option bytes :=
  match dictionary s !! k with Some t => val <$> visible_trackable_item t | None => below k end.
Fixpoint look (chain : Chain) : StorageKey → option bytes :=
  match chain with
  | [] => λ k, val <$> cr_get source k
  | c :: rest => show (state c) (look rest)
  end.

Definition entry_ok below (b : bool) k t : Prop :=
  match t_state t with
  | Unmodified => b = true → below k = Some (val (t_item t))
  | Added => below k = None
  | Changed | Deleted => True
  | NotFound => False
  end.
Record cache_ok below (b : bool) s := {
  ok_entries : ∀ k t, dictionary s !! k = Some t → entry_ok below b k t;
  ok_changes : ∀ k, k ∈ change_set s ↔ ∃ t, dictionary s !! k = Some t ∧ t_state t ≠ Unmodified;
}.
Definition over (rest : Chain) : bool := backed || negb (bool_decide (rest = [])).
Fixpoint coherent (chain : Chain) : Prop :=
  match chain with
  | [] => True
  | c :: rest => cache_ok (look rest) (over rest) (state c) ∧ coherent rest
  end.

Lemma cache_ok_ext below below' b s : (∀ k, below k = below' k) → cache_ok below b s → cache_ok below' b s.
Proof.
  intros E [He Hc]. split; [|done]. intros k t Ht. specialize (He k t Ht). unfold entry_ok in *. by rewrite <- E.
Qed.
Lemma show_ext s below below' k : (∀ k, below k = below' k) → show s below k = show s below' k.
Proof. intros E. unfold show. by destruct (dictionary s !! k). Qed.

Lemma show_upsert k t s below k' : show (upsert k t s) below k' = fn_set k (val <$> visible_trackable_item t) (show s below) k'.
Proof.
  unfold show, fn_set, upsert. cbn. case_bool_decide as E; [subst; by rewrite lookup_insert_eq|by rewrite lookup_insert_ne].
Qed.
Lemma show_forget k s below k' : show (forget k s) below k' = fn_set k (below k) (show s below) k'.
Proof.
  unfold show, fn_set, forget. cbn. case_bool_decide as E; [subst; by rewrite lookup_delete_eq|by rewrite lookup_delete_ne].
Qed.
Lemma upsert_ok below b k t s : cache_ok below b s → entry_ok below b k t → t_state t ≠ Unmodified → cache_ok below b (upsert k t s).
Proof.
  intros [He Hc] Ht Hm. split; unfold upsert; cbn.
  - intros k' t'. destruct (decide (k' = k)) as [->|]; [rewrite lookup_insert_eq; by intros [= <-]|].
    rewrite lookup_insert_ne by done. apply He.
  - intros k'. rewrite elem_of_union, elem_of_singleton, Hc. destruct (decide (k' = k)) as [->|].
    + rewrite lookup_insert_eq. split; [|by left]. intros _. by exists t.
    + rewrite lookup_insert_ne by done. naive_solver.
Qed.
Lemma forget_ok below b k s : cache_ok below b s → cache_ok below b (forget k s).
Proof.
  intros [He Hc]. split; unfold forget; cbn.
  - intros k' t' [_ Ht]%lookup_delete_Some. by apply He.
  - intros k'. rewrite elem_of_difference, elem_of_singleton, Hc. split.
    + intros [(t & Ht & Hm) Hne]. exists t. by rewrite lookup_delete_ne.
    + intros (t & [Hne Ht]%lookup_delete_Some & Hm). split; [by exists t | done].
Qed.
Lemma bump_ok below b s : cache_ok below b (bump_revision s) ↔ cache_ok below b s.
Proof. split; intros [He Hc]; split; [exact He | exact Hc | exact He | exact Hc]. Qed.

Lemma state_of_cases s k below b :
  cache_ok below b s →
  match state_of s k with
  | Unmodified | Changed => is_Some (show s below k)
  | Added => is_Some (show s below k) ∧ below k = None
  | Deleted => show s below k = None
  | NotFound => show s below k = below k
  end.
Proof.
  intros [He _]. unfold state_of, show. destruct (dictionary s !! k) as [t|] eqn:E; [|done].
  specialize (He k t E). unfold entry_ok in He. unfold visible_trackable_item. destruct (t_state t); cbn; try done; try (by eexists).
Qed.

(** ** Reads *)

Lemma track_look k item c rest k' :
  look rest k = Some (val item) → look (Dc.track_in_write_cache k item c :: rest) k' = look (c :: rest) k'.
Proof.
  intros Hk. unfold Dc.track_in_write_cache. destruct (negb _); [done|]. destruct (_ <? _)%N; [|done].
  destruct (dictionary (state c) !! k) eqn:E; [done|]. cbn. unfold show. cbn.
  destruct (decide (k' = k)) as [->|]; [by rewrite lookup_insert_eq, E | by rewrite lookup_insert_ne].
Qed.
Lemma track_ok k item c below b :
  below k = Some (val item) → cache_ok below b (state c) → cache_ok below b (state (Dc.track_in_write_cache k item c)).
Proof.
  intros Hk Hok. unfold Dc.track_in_write_cache. destruct (negb _); [done|]. destruct (_ <? _)%N; [|done].
  destruct (dictionary (state c) !! k) eqn:E; [done|]. destruct Hok as [He Hc]. split; cbn.
  - intros k' t. destruct (decide (k' = k)) as [->|]; [rewrite lookup_insert_eq; intros [= <-]; by intros _|].
    rewrite lookup_insert_ne by done. apply He.
  - intros k'. rewrite Hc. destruct (decide (k' = k)) as [->|]; [|by rewrite lookup_insert_ne].
    rewrite lookup_insert_eq, E. split; [by intros (t & ? & _) | by intros (t & [= <-] & ?)].
Qed.

(** The flags of the caches of a chain, which reads do not touch. *)
Definition flags (chain : Chain) : list (N * bool * bool * DataCacheConfig) :=
  (λ c, (address c, read_only c, detached c, config c)) <$> chain.
Lemma track_flags k item c rest : flags (Dc.track_in_write_cache k item c :: rest) = flags (c :: rest).
Proof. unfold Dc.track_in_write_cache. by repeat case_match. Qed.
Lemma flags_over rest rest' : flags rest = flags rest' → over rest = over rest'.
Proof. unfold over. by destruct rest, rest'. Qed.

(** Chains that show the same at every level. *)
Fixpoint alike (a b : Chain) : Prop :=
  match a, b with
  | [], [] => True
  | c :: a', c' :: b' => (∀ k, look a k = look b k) ∧ flags [c] = flags [c'] ∧ alike a' b'
  | _, _ => False
  end.
Lemma alike_refl a : alike a a.
Proof. by induction a. Qed.
Lemma alike_trans a b d : alike a b → alike b d → alike a d.
Proof.
  revert b d. induction a as [|c a IH]; intros [|c' b] [|c'' d]; try done. intros (H1 & H2 & H3) (H4 & H5 & H6).
  split; [intros k; by rewrite H1|]. split; [congruence|]. by eapply IH.
Qed.
Lemma alike_look a b k : alike a b → look a k = look b k.
Proof. destruct a, b; try done. by intros [? _]. Qed.
Lemma alike_flags a b : alike a b → flags a = flags b.
Proof.
  revert b. induction a as [|c a IH]; intros [|c' b]; try done. intros (_ & H2 & H3).
  change (flags [c] ++ flags a = flags [c'] ++ flags b). by rewrite H2, (IH b).
Qed.
Lemma alike_cons c c' a b : (∀ k, look (c :: a) k = look (c' :: b) k) → flags [c] = flags [c'] → alike a b → alike (c :: a) (c' :: b).
Proof. done. Qed.
Lemma alike_ok a b s : alike a b → cache_ok (look a) (over a) s → cache_ok (look b) (over b) s.
Proof. intros Hab Hc. rewrite <- (flags_over a b) by by apply alike_flags. eapply cache_ok_ext; [|exact Hc]. intros k. by apply alike_look. Qed.

Lemma look_get k chain :
  coherent chain →
  let '(chain', r) := Dc.get source k chain in
  val <$> r = look chain k ∧ alike chain chain' ∧ coherent chain'.
Proof.
  induction chain as [|c rest IH]; [done|]. intros [Hc Hrest]. specialize (IH Hrest). cbn [Dc.get].
  destruct (dictionary (state c) !! k) as [t|] eqn:E.
  { split; [cbn [look]; unfold show at 1; by rewrite E|]. split; [apply alike_refl | done]. }
  destruct (Dc.get source k rest) as [rest' [item|]]; destruct IH as (Hr & Hl & Hco).
  - cbn [fmap option_fmap option_map] in Hr. split; [cbn [look]; unfold show; by rewrite E|]. split.
    + apply alike_cons; [|symmetry; apply track_flags|done]. intros k'. rewrite track_look by (by rewrite <- (alike_look _ _ _ Hl)).
      cbn [look]. apply show_ext. intros k1. by apply alike_look.
    + split; [|done]. apply track_ok; [by rewrite <- (alike_look _ _ _ Hl) | by eapply alike_ok].
  - split; [cbn [look]; unfold show; by rewrite E|]. split.
    + apply alike_cons; [|done|done]. intros k'. cbn [look]. apply show_ext. intros k1. by apply alike_look.
    + split; [|done]. by eapply alike_ok.
Qed.

(** ** Writes *)

(** The chain that an operation leaves shows [f] and keeps the flags. *)
Record leaves (chain chain' : Chain) f : Prop := {
  lv_coherent : coherent chain';
  lv_look : ∀ k, look chain' k = f k;
  lv_flags : flags chain' = flags chain;
  lv_tail : alike (tail chain) (tail chain');
}.
Lemma leaves_head c c' rest rest' f :
  alike rest rest' → coherent rest' → flags [c'] = flags [c] →
  cache_ok (look rest) (over rest) (state c') → (∀ k, show (state c') (look rest) k = f k) →
  leaves (c :: rest) (c' :: rest') f.
Proof.
  intros Hl Hco Hfc Hok Hs. split; [| | |exact Hl].
  - split; [by eapply alike_ok|done].
  - intros k. cbn [look]. rewrite <- Hs. apply show_ext. intros k1. symmetry. by apply alike_look.
  - change (flags (c' :: rest')) with (flags [c'] ++ flags rest'). by rewrite Hfc, <- (alike_flags _ _ Hl).
Qed.

Lemma added_entry k v s below b :
  cache_ok below b s → show s below k = None →
  ∃ new, added_state (state_of s k) = Ok new ∧ visible_trackable_item (mkTrackable v new) = Some v ∧
    cache_ok below b (upsert k (mkTrackable v new) s).
Proof.
  intros Hok Hs. pose proof (state_of_cases s k below b Hok) as Hc. destruct (state_of s k); cbn [added_state].
  - rewrite Hs in Hc. by destruct Hc.
  - rewrite Hs in Hc. by destruct Hc as [[] _].
  - rewrite Hs in Hc. by destruct Hc.
  - exists Changed. split; [done|]. split; [done|]. by apply upsert_ok.
  - exists Added. split; [done|]. split; [done|]. apply upsert_ok; [done| |done]. unfold entry_ok. cbn. congruence.
Qed.
Lemma updated_entry k v s below b :
  cache_ok below b s →
  visible_trackable_item (mkTrackable v (updated_state (state_of s k))) = Some v ∧
  cache_ok below b (upsert k (mkTrackable v (updated_state (state_of s k))) s).
Proof.
  intros Hok. pose proof (state_of_cases s k below b Hok) as Hc. destruct (state_of s k); cbn [updated_state]; split; try done;
    apply upsert_ok; try done. by destruct Hc.
Qed.

Lemma try_add_leaves k v c rest :
  coherent (c :: rest) → read_only c = false → look (c :: rest) k = None →
  ∃ chain', Dc.try_add k v (c :: rest) = (chain', Ok tt) ∧
    leaves (c :: rest) chain' (fn_set k (Some (val v)) (look (c :: rest))).
Proof.
  intros [Hc Hrest] Hro Hk. destruct (added_entry k v _ _ _ Hc Hk) as (new & E & Hv & Hok).
  cbn [Dc.try_add]. rewrite Hro. unfold Dc.apply_add. rewrite E. eexists. split; [done|].
  apply leaves_head; [apply alike_refl|done..| |].
  - by apply bump_ok.
  - intros k'. transitivity (show (upsert k (mkTrackable v new) (state c)) (look rest) k'); [done|]. by rewrite show_upsert, Hv.
Qed.
Lemma try_update_leaves k v c rest :
  coherent (c :: rest) → read_only c = false →
  ∃ chain', Dc.try_update k v (c :: rest) = (chain', Ok tt) ∧
    leaves (c :: rest) chain' (fn_set k (Some (val v)) (look (c :: rest))).
Proof.
  intros [Hc Hrest] Hro. destruct (updated_entry k v _ _ _ Hc) as [Hv Hok].
  cbn [Dc.try_update]. rewrite Hro. eexists. split; [done|]. apply leaves_head; [apply alike_refl|done..| |].
  - by apply bump_ok.
  - intros k'. transitivity (show (upsert k (mkTrackable v (updated_state (state_of (state c) k))) (state c)) (look rest) k'); [done|].
    by rewrite show_upsert, Hv.
Qed.

(** A tombstone, or the removal of an entry that was only in this cache. *)
Lemma tombstone_shows k s below k' : show (upsert k tombstone s) below k' = fn_set k None (show s below) k'.
Proof. by rewrite show_upsert. Qed.
Lemma fn_set_same k f o k' : f k = o → fn_set k o f k' = f k'.
Proof. intros E. unfold fn_set. case_bool_decide; [by subst|done]. Qed.

Lemma apply_delete_leaves k c rest :
  coherent (c :: rest) →
  let '(c', rest') := Dc.apply_delete source k c rest in
  leaves (c :: rest) (c' :: rest') (fn_set k None (look (c :: rest))).
Proof.
  intros [Hc Hrest]. pose proof (state_of_cases _ k _ _ Hc) as Hk. unfold Dc.apply_delete.
  assert (∀ rest', alike rest rest' → coherent rest' →
    leaves (c :: rest) ((c <| state ::= λ s, bump_revision (upsert k tombstone s) |>) :: rest') (fn_set k None (look (c :: rest)))) as Ht.
  { intros rest' Hl Hco. apply leaves_head; [done..| |].
    - apply bump_ok. by apply upsert_ok.
    - intros k'. transitivity (show (upsert k tombstone (state c)) (look rest) k'); [done|]. by rewrite tombstone_shows. }
  assert (∀ rest', alike rest rest' → coherent rest' → look (c :: rest) k = None →
    leaves (c :: rest) (c :: rest') (fn_set k None (look (c :: rest)))) as Hid.
  { intros rest' Hl Hco Hn. apply leaves_head; [done..|]. intros k'. by rewrite fn_set_same. }
  destruct (state_of (state c) k).
  - apply Ht; [apply alike_refl|done].
  - apply leaves_head; [apply alike_refl|done..| |].
    + apply bump_ok. by apply forget_ok.
    + intros k'. transitivity (show (forget k (state c)) (look rest) k'); [done|]. rewrite show_forget. by rewrite (proj2 Hk).
  - apply Ht; [apply alike_refl|done].
  - apply Hid; [apply alike_refl|done..].
  - pose proof (look_get k rest Hrest) as Hg. destruct (Dc.get source k rest) as [rest' [item|]]; destruct Hg as (Hr & Hl & Hco).
    + by apply Ht.
    + apply Hid; [done..|]. change (show (state c) (look rest) k = None). by rewrite Hk, <- Hr.
Qed.

(** ** Merging an overlay *)

Lemma leaves_trans a b d f g : leaves a b f → leaves b d g → leaves a d g.
Proof. intros [H1 _ H2 Ht] [H3 H4 H5 Ht']. split; [done..|congruence|by eapply alike_trans]. Qed.
Lemma leaves_ext a b f g : (∀ k, f k = g k) → leaves a b f → leaves a b g.
Proof. intros E [H1 H2 H3 H4]. split; [done| |done..]. intros k. by rewrite H2. Qed.
Lemma leaves_bump a c rest f : leaves a (c :: rest) f → leaves a ((c <| state ::= bump_revision |>) :: rest) f.
Proof. intros [[H1 H2] H3 H4 H5]. split; [|exact H3|exact H4|exact H5]. split; [|done]. by apply bump_ok. Qed.
Lemma leaves_unbump a c rest f : leaves a ((c <| state ::= bump_revision |>) :: rest) f → leaves a (c :: rest) f.
Proof. intros [[H1 H2] H3 H4 H5]. split; [|exact H3|exact H4|exact H5]. split; [|done]. by apply bump_ok. Qed.

(** The single writes of the two merge paths differ in the revision only. *)
Lemma merge_one_deletes k t c rest m :
  t_state t = Deleted →
  let '(c', rest') := Dc.apply_delete source k c rest in
  let '(c'', rest'', _) := Dc.merge_one source (c, rest, m) (k, t) in
  rest'' = rest' ∧ (c' = c'' ∨ c' = c'' <| state ::= bump_revision |>).
Proof.
  intros Et. unfold Dc.apply_delete. cbn [Dc.merge_one]. rewrite Et. destruct (state_of (state c) k); try (split; [done|by (left + right)]).
  destruct (Dc.get source k rest) as [rest' [item|]]; split; [done|by right|done|by left].
Qed.

Definition modified t : Prop := match t_state t with Added | Changed | Deleted => True | _ => False end.
Lemma merge_one_leaves k t c rest m :
  coherent (c :: rest) → modified t → (t_state t = Added → look (c :: rest) k = None) →
  let '(c', rest', _) := Dc.merge_one source (c, rest, m) (k, t) in
  leaves (c :: rest) (c' :: rest') (fn_set k (val <$> visible_trackable_item t) (look (c :: rest))).
Proof.
  intros Hco Hm Ha. destruct Hco as [Hc Hrest]. unfold modified in Hm. destruct t as [v []]; try done; cbn in Ha.
  - destruct (added_entry k v _ _ _ Hc (Ha eq_refl)) as (new & E & Hv & Hok). cbn. rewrite E.
    apply leaves_head; [apply alike_refl|done..|]. intros k'. transitivity (show (upsert k (mkTrackable v new) (state c)) (look rest) k'); [done|].
    by rewrite show_upsert, Hv.
  - destruct (updated_entry k v _ _ _ Hc) as [Hv Hok]. cbn. apply leaves_head; [apply alike_refl|done..|]. intros k'.
    transitivity (show (upsert k (mkTrackable v (updated_state (state_of (state c) k))) (state c)) (look rest) k'); [done|].
    by rewrite show_upsert, Hv.
  - pose proof (apply_delete_leaves k c rest (conj Hc Hrest)) as Hd.
    pose proof (merge_one_deletes k (mkTrackable v Deleted) c rest m eq_refl) as He.
    destruct (Dc.apply_delete source k c rest) as [c' rest'], (Dc.merge_one source (c, rest, m) _) as [[c'' rest''] m'].
    destruct He as [-> [->| ->]]; [done|]. by apply leaves_unbump.
Qed.

(** The effect of a list of changes. *)
Definition written (items : list (StorageKey * Trackable)) f : StorageKey → option bytes :=
  foldl (λ f change, fn_set change.1 (val <$> visible_trackable_item change.2) f) f items.
Lemma written_ext items f g k : (∀ k, f k = g k) → written items f k = written items g k.
Proof.
  revert f g. induction items as [|[k' t] items IH]; intros f g E; [apply E|]. apply IH. intros k1. unfold fn_set. by rewrite E.
Qed.
Lemma written_other items f k : k ∉ items.*1 → written items f k = f k.
Proof.
  revert f. induction items as [|[k' t] items IH]; intros f Hk; [done|]. cbn in Hk. apply not_elem_of_cons in Hk as [Hne Hk].
  cbn [written foldl]. change (written items (fn_set k' (val <$> visible_trackable_item t) f) k = f k). rewrite IH by done.
  unfold fn_set. by rewrite bool_decide_false.
Qed.
Lemma written_elem items f k t : NoDup items.*1 → (k, t) ∈ items → written items f k = val <$> visible_trackable_item t.
Proof.
  revert f. induction items as [|[k' t'] items IH]; intros f Hnd Hin; [by apply elem_of_nil in Hin|].
  apply NoDup_cons in Hnd as [Hn Hnd]. change (written ((k', t') :: items) f) with (written items (fn_set k' (val <$> visible_trackable_item t') f)).
  apply elem_of_cons in Hin as [[= -> ->]|Hin]; [|by apply IH]. rewrite written_other by done. unfold fn_set. by rewrite bool_decide_true.
Qed.

Lemma merge_fold_leaves items c rest m :
  coherent (c :: rest) → NoDup items.*1 → Forall (λ i, modified i.2 ∧ (t_state i.2 = Added → look (c :: rest) i.1 = None)) items →
  let '(c', rest', _) := foldl (Dc.merge_one source) (c, rest, m) items in
  leaves (c :: rest) (c' :: rest') (written items (look (c :: rest))).
Proof.
  revert c rest m. induction items as [|[k t] items IH]; intros c rest m Hco Hnd HF; [split; [done..|apply alike_refl]|].
  apply NoDup_cons in Hnd as [Hn Hnd]. apply Forall_cons in HF as [[Hm Ha] HF].
  pose proof (merge_one_leaves k t c rest m Hco Hm Ha) as H1. cbn [foldl].
  destruct (Dc.merge_one source (c, rest, m) (k, t)) as [[c1 rest1] m1]. specialize (IH c1 rest1 m1 (lv_coherent _ _ _ H1) Hnd).
  destruct (foldl _ _ _) as [[c2 rest2] m2]. eapply leaves_trans; [exact H1|]. eapply leaves_ext; [|apply IH].
  - intros k'. exact (written_ext items _ _ k' (lv_look _ _ _ H1)).
  - rewrite Forall_forall in HF |- *. intros i Hi. destruct (HF i Hi) as [Hmi Hai]. split; [done|]. intros Ei.
    rewrite (lv_look _ _ _ H1). unfold fn_set. rewrite bool_decide_false; [by apply Hai|].
    intros E. apply Hn. cbn. rewrite <- E. exact (list_elem_of_fmap_2 fst _ _ Hi).
Qed.

(** ** Commit *)

Lemma tracked_items_elem c k t :
  (k, t) ∈ Dc.tracked_items c ↔ k ∈ change_set (state c) ∧ dictionary (state c) !! k = Some t.
Proof.
  unfold Dc.tracked_items. rewrite list_elem_of_omap. setoid_rewrite sorted_set_elem. split.
  - intros (k' & Hk' & E). destruct (dictionary (state c) !! k') eqn:Ed; [|done]. by injection E as -> ->.
  - intros [Hk E]. exists k. by rewrite E.
Qed.
Lemma tracked_items_NoDup c : NoDup (Dc.tracked_items c).*1.
Proof.
  unfold Dc.tracked_items. pose proof (sorted_set_NoDup (change_set (state c))) as Hnd.
  induction Hnd as [|k ks Hk Hnd IH]; [constructor|]. cbn. destruct (dictionary (state c) !! k) as [t|]; cbn; [|done].
  constructor; [|done]. intros ([k' t'] & E & Hin)%list_elem_of_fmap. cbn in E. subst k'.
  apply list_elem_of_omap in Hin as (k1 & Hk1 & E1). destruct (dictionary (state c) !! k1); [|done]. by injection E1 as -> ->.
Qed.
Lemma tracked_modified c rest :
  coherent (c :: rest) → Forall (λ i, modified i.2 ∧ (t_state i.2 = Added → look rest i.1 = None)) (Dc.tracked_items c).
Proof.
  intros [[He Hc] _]. apply Forall_forall. intros [k t] [Hk Ht]%tracked_items_elem. specialize (He k t Ht).
  apply Hc in Hk as (t' & Ht' & Hm). assert (t' = t) as -> by congruence.
  unfold entry_ok in He. unfold modified. cbn. by destruct (t_state t).
Qed.
(** The changes of an overlay, on what is under it, are what it shows. *)
Lemma written_tracked c rest k : coherent (c :: rest) → over rest = true → written (Dc.tracked_items c) (look rest) k = look (c :: rest) k.
Proof.
  intros [[He Hc] _] Hov. cbn [look]. unfold show. destruct (dictionary (state c) !! k) as [t|] eqn:E.
  - destruct (decide (k ∈ change_set (state c))) as [Hk|Hk].
    + apply (written_elem _ _ _ t); [apply tracked_items_NoDup | by apply tracked_items_elem].
    + rewrite written_other; [|intros ([k' t'] & -> & Hin)%list_elem_of_fmap; by apply tracked_items_elem in Hin as [? _]].
      rewrite Hc in Hk. specialize (He k t E). unfold entry_ok in He. unfold visible_trackable_item.
      destruct (t_state t) eqn:Es; [by apply He|exfalso; apply Hk; exists t; by rewrite Es..].
  - apply written_other. intros ([k' t'] & -> & Hin)%list_elem_of_fmap. apply tracked_items_elem in Hin as [_ Hd]. cbn in E. congruence.
Qed.

Definition settled (o : option Trackable) : option Trackable :=
  t ← o; match t_state t with
         | Added | Changed => Some (mkTrackable (t_item t) Unmodified)
         | Deleted => None
         | Unmodified | NotFound => Some t
         end.
Lemma settle_one_lookup d k k' : Dc.settle_one d k !! k' = if bool_decide (k' = k) then settled (d !! k) else d !! k'.
Proof.
  unfold Dc.settle_one, settled. case_bool_decide as E; [subst k'|]; destruct (d !! k) as [t|] eqn:Ed; cbn; try done;
    destruct (t_state t); by simplify_map_eq.
Qed.
Lemma settle_fold_lookup ks d k :
  NoDup ks → foldl Dc.settle_one d ks !! k = if bool_decide (k ∈ ks) then settled (d !! k) else d !! k.
Proof.
  intros Hnd. revert d. induction Hnd as [|k' ks Hk Hnd IH]; intros d; [done|]. cbn [foldl]. rewrite IH, settle_one_lookup.
  destruct (decide (k = k')) as [->|Hne].
  - rewrite (bool_decide_false (k' ∈ ks)), (bool_decide_true (k' = k')), (bool_decide_true (k' ∈ k' :: ks)); [done| |done|done]. by left.
  - rewrite (bool_decide_false (k = k')) by done.
    rewrite (bool_decide_ext (k ∈ k' :: ks) (k ∈ ks)); [done|]. rewrite elem_of_cons. naive_solver.
Qed.
Lemma settle_lookup s k :
  dictionary (Dc.settle s) !! k = if bool_decide (k ∈ change_set s) then settled (dictionary s !! k) else dictionary s !! k.
Proof.
  assert (dictionary (Dc.settle s) = foldl Dc.settle_one (dictionary s) (Key.sorted_set (change_set s))) as ->.
  { unfold Dc.settle. by case_bool_decide. }
  rewrite settle_fold_lookup by apply sorted_set_NoDup. by rewrite (bool_decide_ext _ _ (sorted_set_elem k (change_set s))).
Qed.
Lemma settle_change_set s : change_set (Dc.settle s) = ∅.
Proof. unfold Dc.settle. by case_bool_decide. Qed.

(** After a commit, [below'] being what the changes were written to. *)
Lemma settle_ok below below' b s :
  cache_ok below b s →
  (∀ k, k ∈ change_set s → (b = true → below' k = show s below k) ∧ (show s below k = None → below' k = None)) →
  (∀ k, k ∉ change_set s → below' k = below k) →
  cache_ok below' b (Dc.settle s) ∧ ∀ k, show (Dc.settle s) below' k = show s below k.
Proof.
  intros [He Hc] Hin Hout. split; [split|].
  - intros k t. rewrite settle_lookup. case_bool_decide as Hk.
    + intros (t' & Ht' & E)%bind_Some. destruct (Hin k Hk) as [Hb _]. unfold show in Hb. rewrite Ht' in Hb.
      specialize (He k t' Ht'). unfold entry_ok in He |- *. unfold visible_trackable_item in Hb.
      destruct (t_state t') eqn:Es; simplify_eq; cbn; try done.
      apply Hc in Hk as (t' & ? & ?). congruence.
    + intros Ht. specialize (He k t Ht). unfold entry_ok in He |- *. by rewrite (Hout k Hk).
  - intros k. rewrite settle_change_set. split; [set_solver|]. intros (t & Ht & Hm). exfalso. rewrite settle_lookup in Ht.
    case_bool_decide as Hk; [|apply Hk, Hc; by exists t]. apply bind_Some in Ht as (t' & Ht' & E).
    specialize (He k t' Ht'). unfold entry_ok in He. destruct (t_state t') eqn:Es; simplify_eq; by cbn in Hm.
  - intros k. unfold show. rewrite settle_lookup. case_bool_decide as Hk.
    + destruct (Hin k Hk) as [_ Hn]. pose proof Hk as (t & Ht & Hm)%Hc. unfold show in Hn. rewrite Ht in Hn |- *.
      specialize (He k t Ht). unfold entry_ok in He. unfold settled, visible_trackable_item in *. cbn.
      destruct (t_state t) eqn:Es; cbn; try done. by apply Hn.
    + by rewrite (Hout k Hk).
Qed.

Lemma leaves_unrevised a c c' rest f : unrevised c = unrevised c' → leaves a (c :: rest) f → leaves a (c' :: rest) f.
Proof.
  rewrite unrevised_eq. intros (Ea & Ed & Ec & Er & Edet & Ecfg) [[[He Hc] Hrest] Hl Hf Ht]. split.
  - split; [|done]. split; [intros k t; rewrite <- Ed; apply He | intros k; rewrite <- Ec, <- Ed; apply Hc].
  - intros k. rewrite <- Hl. cbn. unfold show. by rewrite Ed.
  - rewrite <- Hf. cbn. congruence.
  - exact Ht.
Qed.
(** The merge of an overlay, by either path, leaves its view in the cache under it. *)
Lemma merge_from_leaves observed c p rest :
  coherent (c :: p :: rest) → (observed = true → read_only p = false) →
  ∃ p' rest', Dc.merge_tracked_items_from source observed c p rest = p' :: rest' ∧
    leaves (p :: rest) (p' :: rest') (look (c :: p :: rest)).
Proof.
  intros Hco Hobs. pose proof Hco as [_ Hp].
  assert (over (p :: rest) = true) as Hov by (unfold over; rewrite bool_decide_false by done; apply orb_true_r).
  assert (let '(p1, rest1) := Dc.merge_tracked_items_fast source (Dc.tracked_items c) p rest in
    leaves (p :: rest) (p1 :: rest1) (look (c :: p :: rest))) as Hfast.
  { unfold Dc.merge_tracked_items_fast.
    pose proof (merge_fold_leaves (Dc.tracked_items c) p rest false Hp (tracked_items_NoDup c) (tracked_modified c _ Hco)) as Hm.
    destruct (foldl _ _ _) as [[p1 rest1] m].
    assert (leaves (p :: rest) (p1 :: rest1) (look (c :: p :: rest))) as Hl
      by (eapply leaves_ext; [|exact Hm]; intros k; by apply written_tracked).
    destruct m; [by apply leaves_bump | done]. }
  unfold Dc.merge_tracked_items_from. destruct observed.
  - pose proof (merge_paths_agree source (Dc.tracked_items c) p rest (Hobs eq_refl)) as Hag.
    destruct (Dc.merge_tracked_items_fast _ _ _ _) as [p1 rest1]. destruct Hag as (p2 & -> & E).
    exists p2, rest1. split; [done|]. by eapply leaves_unrevised.
  - destruct (Dc.merge_tracked_items_fast _ _ _ _) as [p1 rest1]. by exists p1, rest1.
Qed.
(** An overlay that commits leaves its view in the cache under it. *)
Lemma commit_leaves observed c p rest :
  coherent (c :: p :: rest) → detached c = false → (observed = true → read_only p = false) →
  ∃ c' p' rest', Dc.commit_writable source observed (c :: p :: rest) = c' :: p' :: rest' ∧
    coherent (c' :: p' :: rest') ∧ (∀ k, look (c' :: p' :: rest') k = look (c :: p :: rest) k) ∧
    flags [c'] = flags [c] ∧ leaves (p :: rest) (p' :: rest') (look (c :: p :: rest)).
Proof.
  intros Hco Hd Hobs. pose proof Hco as [Hc Hp].
  assert (over (p :: rest) = true) as Hov by (unfold over; rewrite bool_decide_false by done; apply orb_true_r).
  assert (∃ p' rest', (if detached c || bool_decide (change_set (state c) = ∅) then p :: rest
      else Dc.merge_tracked_items_from source observed c p rest) = p' :: rest' ∧
    leaves (p :: rest) (p' :: rest') (look (c :: p :: rest))) as (p' & rest' & E & Hl).
  { rewrite Hd. cbn [orb]. case_bool_decide as He.
    - exists p, rest. split; [done|]. split; [done| |done|apply alike_refl]. intros k. rewrite <- (written_tracked c (p :: rest)) by done.
      symmetry. apply written_other. intros ([k' t] & -> & [Hk _]%tracked_items_elem)%list_elem_of_fmap. rewrite He in Hk. set_solver.
    - by apply merge_from_leaves. }
  exists (c <| state ::= Dc.settle |>), p', rest'. split; [cbn [Dc.commit_writable]; by rewrite E|].
  pose proof Hl as [Hlc Hll Hlf _].
  destruct (settle_ok (look (p :: rest)) (look (p' :: rest')) (over (p :: rest)) (state c) Hc) as [Hok Hs].
  - intros k Hk. rewrite Hll. done.
  - intros k Hk. rewrite Hll, <- (written_tracked c (p :: rest)) by done.
    apply written_other. by intros ([k' t] & -> & [? _]%tracked_items_elem)%list_elem_of_fmap.
  - split; [split; [|done]; rewrite (flags_over _ _ Hlf); exact Hok|]. split; [exact Hs|]. by split.
Qed.
End chain.
