(* ===== verification/StorageFind.v ===== *)
(** * Prefix scans of the data cache

    [find] lists exactly what [look] shows under the prefix, in the order of the
    keys. *)
From S2P Require Import Prelude Primitives Order Io RecordUpdate Storage StorageFacts.
Import TrackState.
#[local] Open Scope update_scope.

(** ** Folds over keyed lists *)

Section folds.
Context `{Countable K} {X V : Type} (step : gmap K V → K * X → gmap K V) (effect : X → option V).
Context (step_lookup : ∀ m k x k', step m (k, x) !! k' = if bool_decide (k' = k) then effect x else m !! k').
Lemma fold_other m l k : k ∉ l.*1 → foldl step m l !! k = m !! k.
Proof.
  revert m. induction l as [|[k' x] l IH]; intros m Hk; [done|]. cbn in Hk. apply not_elem_of_cons in Hk as [Hne Hk]. cbn [foldl].
  rewrite IH by done. rewrite step_lookup. by rewrite bool_decide_false.
Qed.
Lemma fold_elem m l k x : NoDup l.*1 → (k, x) ∈ l → foldl step m l !! k = effect x.
Proof.
  revert m. induction l as [|[k' y] l IH]; intros m Hnd Hin; [by apply elem_of_nil in Hin|]. apply NoDup_cons in Hnd as [Hn Hnd].
  cbn [foldl]. apply elem_of_cons in Hin as [[= -> ->]|Hin]; [|by apply IH]. rewrite fold_other by done. rewrite step_lookup.
  by rewrite bool_decide_true.
Qed.
End folds.

Section sorted.
Context {A : Type}.
Implicit Types m : gmap StorageKey A.
Lemma sorted_elem m k a : (k, a) ∈ Key.sorted m ↔ m !! k = Some a.
Proof. unfold Key.sorted. rewrite (sort_by_key_perm (Key.build ∘ fst)). apply elem_of_map_to_list. Qed.
Lemma sorted_sorted m : StronglySorted (lt_by (Key.build ∘ fst)) (Key.sorted m).
Proof.
  apply sort_by_key_sorted. rewrite list_fmap_compose. apply NoDup_fmap_2; [apply _ | apply NoDup_fst_map_to_list].
Qed.
Lemma sorted_NoDup_keys (l : list (StorageKey * A)) : StronglySorted (lt_by (Key.build ∘ fst)) l → NoDup l.*1.
Proof.
  induction 1 as [|[k a] l _ IH Hk]; [constructor|]. constructor; [|done]. intros ([k' a'] & E & Hin)%list_elem_of_fmap. cbn in E. subst.
  rewrite Forall_forall in Hk. by apply (irreflexivity bytes_lt (Key.build k')), (Hk _ Hin).
Qed.
End sorted.
Lemma in_direction_twice {A} d (l : list A) : in_direction d (in_direction d l) = l.
Proof. destruct d; [done|]. apply reverse_involutive. Qed.
Lemma in_direction_elem {A} d (l : list A) x : x ∈ in_direction d l ↔ x ∈ l.
Proof. destruct d; [done|]. apply elem_of_reverse. Qed.
Lemma in_direction_filter {A} d (P : A → Prop) `{∀ x, Decision (P x)} (l : list A) :
  in_direction d (filter P l) = filter P (in_direction d l).
Proof.
  destruct d; [done|]. cbn [in_direction]. induction l as [|x l IH]; [done|]. rewrite reverse_cons, filter_app, <- IH, !filter_cons.
  destruct (decide (P x)); [by rewrite reverse_cons|]. cbn. by rewrite app_nil_r.
Qed.

Lemma overlays_lookup st prefix k :
  collect_change_overlays st prefix !! k =
    if bool_decide (k ∈ changed_keys st prefix) then t ← dictionary st !! k; overlay_item t else None.
Proof.
  unfold collect_change_overlays. set (step := λ m k, _).
  assert (∀ ks m, foldl step m ks !! k =
    if bool_decide (k ∈ ks) then match t ← dictionary st !! k; overlay_item t with Some o => Some o | None => m !! k end else m !! k) as Hf.
  { induction ks as [|k' ks IH]; intros m; [done|]. cbn [foldl]. rewrite IH.
    assert (step m k' !! k = if bool_decide (k = k') then match t ← dictionary st !! k; overlay_item t with Some o => Some o | None => m !! k end
      else m !! k) as ->.
    { unfold step. destruct (decide (k = k')) as [->|Hne].
      - rewrite bool_decide_true by done. by destruct (_ ≫= _); simplify_map_eq.
      - rewrite bool_decide_false by done. by destruct (dictionary st !! k' ≫= _); simplify_map_eq. }
    destruct (decide (k = k')) as [->|Hne].
    - rewrite (bool_decide_true (k' = k')), (bool_decide_true (k' ∈ k' :: ks)) by (done || by left). by repeat case_match.
    - rewrite (bool_decide_false (k = k')) by done. rewrite (bool_decide_ext (k ∈ k' :: ks) (k ∈ ks)); [done|].
      rewrite elem_of_cons. naive_solver. }
  rewrite Hf. rewrite lookup_empty. by repeat case_match.
Qed.

Section find.
Context `{BigIntBytes} (source : CacheRead) (backed : bool).
Implicit Types (k : StorageKey) (s : InnerState) (f below : StorageKey → option bytes) (rows : list (StorageKey * StorageItem)).
#[local] Abbreviation val := Item.value_bytes.

(** The rows are what [f] has under the prefix, in the direction of the scan. *)
Record enumerates (d : SeekDirection) (prefix : option StorageKey) f rows : Prop := {
  en_sorted : StronglySorted (lt_by (Key.build ∘ fst)) (in_direction d rows);
  en_rows : ∀ k v, (∃ item, (k, item) ∈ rows ∧ val item = v) ↔
    key_matches_prefix k (Key.build <$> prefix) = true ∧ f k = Some v;
}.
Lemma enumerates_ext d prefix f g rows : (∀ k, f k = g k) → enumerates d prefix f rows → enumerates d prefix g rows.
Proof. intros E [H1 H2]. split; [done|]. intros k v. by rewrite <- E. Qed.

(** The overlay of a cache and what it shows. *)
Lemma overlay_shows s below prefix k :
  cache_ok below true s → key_matches_prefix k (Key.build <$> prefix) = true →
  show s below k = match collect_change_overlays s prefix !! k with Some o => val <$> o | None => below k end.
Proof.
  intros [He Hc] Hk. rewrite overlays_lookup. unfold show.
  rewrite (bool_decide_ext (k ∈ changed_keys s prefix) (k ∈ change_set s)) by (rewrite changed_keys_elem; naive_solver).
  case_bool_decide as Hin.
  - apply Hc in Hin as (t & Ht & Hm). rewrite Ht. cbn. specialize (He k t Ht). unfold entry_ok in He.
    unfold visible_trackable_item, overlay_item. by destruct (t_state t).
  - destruct (dictionary s !! k) as [t|] eqn:Ht; [|done]. specialize (He k t Ht). unfold entry_ok in He. unfold visible_trackable_item.
    destruct (t_state t) eqn:Es; [symmetry; by apply He|exfalso; apply Hin, Hc; exists t; by rewrite Es..].
Qed.
Lemma overlays_match s prefix k o :
  collect_change_overlays s prefix !! k = Some o → key_matches_prefix k (Key.build <$> prefix) = true.
Proof. rewrite overlays_lookup. case_bool_decide as Hk; [|done]. by apply changed_keys_elem in Hk as [_ ?]. Qed.

Lemma merged_lookup rows (overlays : gmap StorageKey (option StorageItem)) k item :
  NoDup rows.*1 →
  foldl (λ (m : gmap StorageKey StorageItem) o, match o.2 with Some i => <[o.1 := i]> m | None => delete o.1 m end)
    (foldl (λ m r, <[r.1 := r.2]> m) ∅ rows) (Key.sorted overlays) !! k = Some item ↔
  match overlays !! k with Some o => o = Some item | None => (k, item) ∈ rows end.
Proof.
  intros Hnd. destruct (overlays !! k) as [o|] eqn:Eo.
  - rewrite (fold_elem _ id) with (x := o); [done| |apply sorted_NoDup_keys, sorted_sorted|by apply sorted_elem].
    intros m k1 [i|] k2; cbn; case_bool_decide; by simplify_map_eq.
  - rewrite (fold_other _ id); [|intros m k1 [i|] k2; cbn; case_bool_decide; by simplify_map_eq|].
    2: { intros ([k' o] & -> & Hin%sorted_elem)%list_elem_of_fmap. cbn in Eo. congruence. }
    assert (∀ (m : gmap StorageKey StorageItem) (k1 : StorageKey) (i : StorageItem) (k2 : StorageKey),
      <[(k1, i).1 := (k1, i).2]> m !! k2 = if bool_decide (k2 = k1) then Some i else m !! k2) as Hstep
      by (intros; cbn; case_bool_decide; by simplify_map_eq).
    split; [|by intros Hin; eapply (fold_elem _ Some)]. intros E.
    destruct (decide (k ∈ rows.*1)) as [([k' i] & -> & Hi)%list_elem_of_fmap|Hn].
    + cbn in *. erewrite (fold_elem _ Some) in E by done. by injection E as ->.
    + erewrite (fold_other _ Some) in E by done. by rewrite lookup_empty in E.
Qed.

Lemma find_over_enumerates s below prefix d rows :
  cache_ok below true s → enumerates d prefix below rows → enumerates d prefix (show s below) (Dc.find_over s prefix d rows).
Proof.
  intros Hok [Hs Hr]. unfold Dc.find_over. set (matches := filter _ rows).
  assert (StronglySorted (lt_by (Key.build ∘ fst)) (in_direction d matches)) as Hms
    by (unfold matches; rewrite in_direction_filter; by apply StronglySorted_filter).
  assert (∀ k v, (∃ item, match collect_change_overlays s prefix !! k with Some o => o = Some item | None => (k, item) ∈ matches end ∧ val item = v)
    ↔ key_matches_prefix k (Key.build <$> prefix) = true ∧ show s below k = Some v) as Hshow.
  { intros k v. unfold matches.
    destruct (collect_change_overlays s prefix !! k) as [o|] eqn:Eo.
    - pose proof (overlays_match _ _ _ _ Eo) as Hk. rewrite (overlay_shows s below prefix k Hok Hk), Eo, fmap_Some. naive_solver.
    - setoid_rewrite list_elem_of_filter. cbn. split.
      + intros (item & [Hk Hin] & <-). split; [done|]. rewrite (overlay_shows s below prefix k Hok Hk), Eo. apply (Hr k (val item)).
        by exists item.
      + intros [Hk Hv]. rewrite (overlay_shows s below prefix k Hok Hk), Eo in Hv.
        destruct (proj2 (Hr k v) (conj Hk Hv)) as (item & Hin & Ev). by exists item. }
  case_bool_decide as He.
  - split; [done|]. intros k v. rewrite <- Hshow, He. by rewrite lookup_empty.
  - split; [rewrite in_direction_twice; apply sorted_sorted|]. intros k v. rewrite <- Hshow.
    setoid_rewrite in_direction_elem. setoid_rewrite sorted_elem. setoid_rewrite merged_lookup; [done|].
    apply sorted_NoDup_keys in Hms. destruct d; [done|]. cbn [in_direction] in Hms. by rewrite (reverse_Permutation matches) in Hms.
Qed.

Lemma find_own_enumerates s below prefix d b :
  cache_ok below b s → (∀ k, below k = None) → enumerates d prefix (show s below) (Dc.find_own s prefix d).
Proof.
  intros _ Hb. unfold Dc.find_own. split; [rewrite in_direction_twice; apply sorted_sorted|]. intros k v.
  setoid_rewrite in_direction_elem. setoid_rewrite sorted_elem. setoid_rewrite map_lookup_filter_Some. setoid_rewrite lookup_omap. cbn.
  unfold show. destruct (dictionary s !! k) as [t|]; cbn; [|rewrite Hb; naive_solver].
  rewrite fmap_Some. naive_solver.
Qed.

(** The source is a map: one that can be scanned, or none. *)
Record source_ok (m : gmap StorageKey bytes) : Prop := {
  so_get : ∀ k, val <$> cr_get source k = m !! k;
  so_find : if backed then ∀ prefix d, ∃ rows, cr_find source prefix d = Some rows ∧ enumerates d prefix (λ k, m !! k) rows
            else (∀ prefix d, cr_find source prefix d = None) ∧ m = ∅;
}.
Lemma find_enumerates m prefix d c rest :
  source_ok m → coherent source backed (c :: rest) →
  ∃ rows, Dc.find source prefix d (c :: rest) = Some rows ∧ enumerates d prefix (look source (c :: rest)) rows.
Proof.
  intros [Hg Hf]. revert c. induction rest as [|p rest IH]; intros c [Hc Hrest].
  - cbn [Dc.find]. unfold over in Hc. rewrite bool_decide_true, orb_false_r in Hc by done. destruct backed.
    + destruct (Hf prefix d) as (rows & -> & Hr). eexists. split; [done|]. apply find_over_enumerates; [done|].
      by eapply enumerates_ext; [|exact Hr].
    + destruct Hf as [-> ->]. eexists. split; [done|]. eapply find_own_enumerates; [exact Hc|].
      intros k. cbn [look]. by rewrite Hg, lookup_empty.
  - destruct (IH p Hrest) as (rows & E & Hr).
    change (Dc.find source prefix d (c :: p :: rest)) with
      (Some (match Dc.find source prefix d (p :: rest) with
             | Some rows => Dc.find_over (state c) prefix d rows | None => Dc.find_own (state c) prefix d end)).
    rewrite E. eexists. split; [done|].
    apply find_over_enumerates; [|done]. unfold over in Hc. by rewrite bool_decide_false, orb_true_r in Hc.
Qed.
End find.

(** A scan of a map. *)
Definition scan_map (m : gmap StorageKey bytes) (prefix : option StorageKey) (d : SeekDirection) : list (StorageKey * bytes) :=
  in_direction d (Key.sorted (filter (λ r : StorageKey * bytes, key_matches_prefix r.1 (Key.build <$> prefix) = true) m)).
Lemma enumerates_scan `{BigIntBytes} m f prefix d rows :
  (∀ k, f k = m !! k) → enumerates d prefix f rows → prod_map id Item.value_bytes <$> rows = scan_map m prefix d.
Proof.
  intros E [Hs Hr]. unfold scan_map. rewrite <- (in_direction_twice d (_ <$> rows)). f_equal.
  assert (in_direction d (prod_map id Item.value_bytes <$> rows) = prod_map id Item.value_bytes <$> in_direction d rows) as ->
    by (destruct d; [done | symmetry; apply fmap_reverse]).
  apply (lt_by_sorted_unique (Key.build ∘ fst)); [|apply sorted_sorted|].
  - induction Hs as [|[k i] l Hs IH Hk]; [constructor|]. cbn. constructor; [done|]. apply Forall_fmap.
    eapply Forall_impl; [exact Hk|]. by intros [].
  - intros [k v]. rewrite sorted_elem, map_lookup_filter_Some, <- E. cbn. transitivity (∃ item, (k, item) ∈ rows ∧ Item.value_bytes item = v).
    + rewrite list_elem_of_fmap. setoid_rewrite in_direction_elem. split; [intros ([k' i] & [= -> ->] & Hin); by exists i|].
      intros (i & Hin & <-). by exists (k, i).
    + rewrite Hr. naive_solver.
Qed.
