(* ===== verification/StorageThms.v ===== *)
(** * The data cache and the store cache are correct

    Sessions of nested overlays behave as a stack of maps; an atomic merge applies
    all changes or none; a durable commit leaves in the store what the cache shows. *)
From S2P Require Import Prelude Primitives Order Io RecordUpdate Storage StoreCache StorageFacts StorageFind.
Import TrackState.
#[local] Open Scope update_scope.
#[local] Arguments Key.build : simpl never.
#[local] Arguments Key.from_bytes : simpl never.

(** ** Sessions *)

Inductive CacheOp :=
| Get (k : StorageKey) | Add (k : StorageKey) (v : StorageItem) | Update (k : StorageKey) (v : StorageItem) | Delete (k : StorageKey)
| Find (prefix : option StorageKey) (d : SeekDirection)
| Clone (cfg : DataCacheConfig) (is_detached : bool) | Commit (observed : bool) | Reset | Drop.
Inductive Reply :=
| RValue (v : option bytes) | RRows (rows : option (list (StorageKey * bytes))) | RDone (r : Result DataCacheError unit) | RNone.

(** An operation on the innermost overlay of a chain; [Drop] discards it. *)
Definition cache_step `{BigIntBytes} (source : CacheRead) (op : CacheOp) (chain : list DataCache) : list DataCache * Reply :=
  match op with
  | Get k => let '(chain, r) := Dc.get source k chain in (chain, RValue (Item.value_bytes <$> r))
  | Add k v => let '(chain, r) := Dc.try_add k v chain in (chain, RDone r)
  | Update k v => let '(chain, r) := Dc.try_update k v chain in (chain, RDone r)
  | Delete k => let '(chain, r) := Dc.try_delete source k chain in (chain, RDone r)
  | Find p d => (chain, RRows ((λ rows : list (StorageKey * StorageItem), prod_map id Item.value_bytes <$> rows) <$> Dc.find source p d chain))
  | Clone cfg det => (Dc.clone_overlay_with_config (N.of_nat (length chain)) cfg det chain, RNone)
  | Commit observed => let '(chain, r) := Dc.try_commit source observed chain in (chain, RDone r)
  | Reset => (Dc.reset chain, RNone)
  | Drop => (tail chain, RNone)
  end.

(** The specification: a stack of maps over the map of the source. *)
Record Level := mkLevel { l_map : gmap StorageKey bytes; l_read_only : bool; l_detached : bool }.
Definition write_level (m : gmap StorageKey bytes) (l : Level) : Level := mkLevel m (l_read_only l) (l_detached l).
Definition write_top (g : gmap StorageKey bytes → gmap StorageKey bytes) (stack : list Level) : list Level * Reply :=
  match stack with
  | [] => ([], RDone (Err ReadOnly))
  | l :: ls => if l_read_only l then (stack, RDone (Err ReadOnly)) else (write_level (g (l_map l)) l :: ls, RDone (Ok tt))
  end.
Definition top_map (base : gmap StorageKey bytes) (stack : list Level) : gmap StorageKey bytes :=
  match stack with [] => base | l :: _ => l_map l end.
Definition commit_level (stack : list Level) : list Level * Reply :=
  match stack with
  | [] => ([], RDone (Err ReadOnly))
  | l :: ls =>
      if l_read_only l then (stack, RDone (Err ReadOnly))
      else if l_detached l then (stack, RDone (Err DetachedCommit))
      else (l :: match ls with [] => [] | p :: ls => write_level (l_map l) p :: ls end, RDone (Ok tt))
  end.
Definition map_step `{BigIntBytes} (base : gmap StorageKey bytes) (op : CacheOp) (stack : list Level) : list Level * Reply :=
  match op with
  | Get k => (stack, RValue (top_map base stack !! k))
  | Add k v | Update k v => write_top (<[k := Item.value_bytes v]>) stack
  | Delete k => write_top (delete k) stack
  | Find p d => (stack, RRows (Some (scan_map (top_map base stack) p d)))
  | Clone _ det => (mkLevel (top_map base stack) false det :: stack, RNone)
  | Commit _ => commit_level stack
  | Reset => (match stack with [] => [] | l :: ls => write_level (top_map base ls) l :: ls end, RNone)
  | Drop => (tail stack, RNone)
  end.

(** What a caller respects: it adds only keys it does not see, a root over a store is
    committed by its store cache, an overlay of a read-only cache is not committed
    while a read observer is active ([read_only_cache_is_written] below), and the root
    is not dropped. *)
Definition permitted (backed : bool) (base : gmap StorageKey bytes) (op : CacheOp) (stack : list Level) : bool :=
  match op with
  | Add k _ => bool_decide (top_map base stack !! k = None)
  | Commit observed =>
      (negb backed || (1 <? length stack)%nat) &&
      match stack with _ :: p :: _ => negb (observed && l_read_only p) | _ => true end
  | Drop => (1 <? length stack)%nat
  | _ => true
  end.

Fixpoint run {S} (step : CacheOp → S → S * Reply) (ops : list CacheOp) (s : S) : S * list Reply :=
  match ops with
  | [] => (s, [])
  | op :: ops => let '(s, r) := step op s in let '(s, rs) := run step ops s in (s, r :: rs)
  end.
Fixpoint permitted_run `{BigIntBytes} (backed : bool) (base : gmap StorageKey bytes) (ops : list CacheOp) (stack : list Level) : bool :=
  match ops with
  | [] => true
  | op :: ops => permitted backed base op stack && permitted_run backed base ops (map_step base op stack).1
  end.

Lemma empty_ok `{BigIntBytes} below b r : cache_ok below b (mkInnerState ∅ ∅ r).
Proof. split; [done|]. intros k. cbn. split; [by intros ?%elem_of_empty|]. by intros (t & ? & _). Qed.

Section sessions.
Context `{BigIntBytes} (source : CacheRead) (backed : bool) (base : gmap StorageKey bytes).
Context (source_base : source_ok source backed base).
#[local] Abbreviation Chain := (list DataCache).
#[local] Abbreviation look := (look source).

Fixpoint shows (chain : Chain) (stack : list Level) : Prop :=
  match chain, stack with
  | [], [] => True
  | c :: rest, l :: ls =>
      (∀ k, look chain k = l_map l !! k) ∧ read_only c = l_read_only l ∧ detached c = l_detached l ∧ shows rest ls
  | _, _ => False
  end.
Definition represents (chain : Chain) (stack : list Level) : Prop :=
  shows chain stack ∧ coherent source backed chain ∧ chain ≠ [].

Lemma shows_alike chain chain' stack : alike source chain chain' → shows chain stack → shows chain' stack.
Proof.
  revert chain' stack. induction chain as [|c rest IH]; intros [|c' rest'] [|l ls]; try done.
  intros (H1 & H2 & H3) (H4 & H5 & H6 & H7). injection H2 as _ ? ? _. split; [intros k; by rewrite <- H1|].
  split; [congruence|]. split; [congruence|]. by apply IH.
Qed.
Lemma shows_leaves chain chain' f g l ls :
  leaves source backed chain chain' f → shows chain (l :: ls) → chain ≠ [] → (∀ k, f k = g (l_map l) !! k) →
  represents chain' (write_level (g (l_map l)) l :: ls).
Proof.
  intros [Hco Hl Hf Ht] Hs Hne Hg. destruct chain as [|c rest]; [done|]. destruct chain' as [|c' rest']; [done|].
  destruct Hs as (_ & H5 & H6 & H7). injection Hf as _ ? ? _ _. split; [|done]. split; [intros k; by rewrite Hl, Hg|].
  split; [cbn; congruence|]. split; [cbn; congruence|]. by eapply shows_alike.
Qed.
Lemma top_shows chain stack k : shows chain stack → look chain k = top_map base stack !! k.
Proof. destruct chain, stack; try done; [intros _; apply (so_get _ _ _ source_base) | by intros [? _]]. Qed.

Lemma fn_set_insert k v f (m : gmap StorageKey bytes) k' : (∀ k, f k = m !! k) → fn_set k (Some v) f k' = <[k := v]> m !! k'.
Proof. intros E. unfold fn_set. case_bool_decide; [subst; by rewrite lookup_insert_eq|by rewrite lookup_insert_ne]. Qed.
Lemma fn_set_delete k f (m : gmap StorageKey bytes) k' : (∀ k, f k = m !! k) → fn_set k None f k' = delete k m !! k'.
Proof. intros E. unfold fn_set. case_bool_decide; [subst; by rewrite lookup_delete_eq|by rewrite lookup_delete_ne]. Qed.

(** One operation in step with its specification. *)
Definition in_step (op : CacheOp) : Prop :=
  ∀ chain stack, represents chain stack → permitted backed base op stack = true →
  let '(chain', r) := cache_step source op chain in
  let '(stack', r') := map_step base op stack in
  r = r' ∧ represents chain' stack'.

Lemma get_in_step k : in_step (Get k).
Proof.
  intros chain stack (Hs & Hco & Hne) _. cbn. pose proof (look_get source backed k chain Hco) as Hg.
  destruct (Dc.get source k chain) as [chain' r]. destruct Hg as (Hr & Ha & Hco'). split.
  - by rewrite Hr, (top_shows chain stack).
  - split; [by eapply shows_alike|]. split; [done|]. by destruct chain, chain'.
Qed.
Lemma add_in_step k v : in_step (Add k v).
Proof.
  intros [|c rest] [|l ls] (Hs & Hco & Hne) Hp; try done. cbn in Hp. rewrite bool_decide_eq_true in Hp.
  pose proof Hs as (Hl & Hro & _). cbn [cache_step map_step write_top].
  destruct (l_read_only l) eqn:El; [cbn [Dc.try_add]; by rewrite Hro|].
  destruct (try_add_leaves source backed k v c rest Hco Hro) as (chain' & -> & Hlv); [by rewrite Hl|]. split; [done|].
  eapply (shows_leaves _ _ _ (<[k := Item.value_bytes v]>)); [exact Hlv|done..|]. intros k'. by apply fn_set_insert.
Qed.
Lemma update_in_step k v : in_step (Update k v).
Proof.
  intros [|c rest] [|l ls] (Hs & Hco & Hne) _; try done.
  pose proof Hs as (Hl & Hro & _). cbn [cache_step map_step write_top].
  destruct (l_read_only l) eqn:El; [cbn [Dc.try_update]; by rewrite Hro|].
  destruct (try_update_leaves source backed k v c rest Hco Hro) as (chain' & -> & Hlv). split; [done|].
  eapply (shows_leaves _ _ _ (<[k := Item.value_bytes v]>)); [exact Hlv|done..|]. intros k'. by apply fn_set_insert.
Qed.
Lemma delete_in_step k : in_step (Delete k).
Proof.
  intros [|c rest] [|l ls] (Hs & Hco & Hne) _; try done.
  pose proof Hs as (Hl & Hro & _). cbn [cache_step map_step write_top Dc.try_delete]. rewrite Hro.
  destruct (l_read_only l) eqn:El; [done|].
  pose proof (apply_delete_leaves source backed k c rest Hco) as Hlv. destruct (Dc.apply_delete source k c rest) as [c' rest']. split; [done|].
  eapply (shows_leaves _ _ _ (delete k)); [exact Hlv|done..|]. intros k'. by apply fn_set_delete.
Qed.
Lemma find_in_step p d : in_step (Find p d).
Proof.
  intros chain stack (Hs & Hco & Hne) _. cbn [cache_step map_step]. destruct chain as [|c rest]; [done|].
  destruct (find_enumerates source backed base p d c rest source_base Hco) as (rows & E & Hr). split; [|done].
  rewrite E. cbn. do 2 f_equal. eapply enumerates_scan; [|exact Hr]. intros k. by apply top_shows.
Qed.

Lemma clone_in_step cfg det : in_step (Clone cfg det).
Proof.
  intros chain stack (Hs & Hco & Hne) _. cbn. split; [done|]. split; [|split; [split; [apply empty_ok | done]|done]].
  split; [|done]. intros k. cbn [l_map]. rewrite <- (top_shows chain stack) by done. done.
Qed.
Lemma reset_in_step : in_step Reset.
Proof.
  intros [|c rest] [|l ls] (Hs & Hco & Hne) _; try done. cbn. split; [done|]. destruct Hs as (_ & Hro & Hdet & Hs). destruct Hco as [_ Hco].
  split; [|split; [split; [|done]|done]].
  - split; [|done]. intros k. rewrite <- (top_shows rest ls) by done. cbn. unfold show. by destruct (_ || _).
  - cbn. destruct (_ || _); [apply bump_ok|]; apply empty_ok.
Qed.
Lemma drop_in_step : in_step Drop.
Proof.
  intros [|c [|p rest]] [|l [|l' ls]] (Hs & Hco & Hne) Hp; try done; [by destruct Hs as (_ & _ & _ & [])..|].
  destruct Hs as (_ & _ & _ & Hs), Hco as [_ Hco]. by split.
Qed.
Lemma commit_in_step observed : in_step (Commit observed).
Proof.
  intros [|c rest] [|l ls] (Hs & Hco & Hne) Hp; try done. pose proof Hs as (Hl & Hro & Hdet & Hs').
  cbn [cache_step map_step commit_level Dc.try_commit]. rewrite Hro, Hdet.
  destruct (l_read_only l) eqn:Ero; [done|]. destruct (l_detached l) eqn:Ed; [done|]. split; [done|].
  destruct rest as [|p rest], ls as [|lp ls]; try done.
  - cbn in Hp. rewrite orb_false_r, andb_true_r, negb_true_iff in Hp. destruct Hco as [Hc _]. cbn [Dc.commit_writable].
    destruct (settle_ok (look []) (look []) (over backed []) (state c) Hc) as [Hok Hsh]; [|done|].
    { pose proof (so_find _ _ _ source_base) as Hf. unfold over in *. rewrite Hp in *. destruct Hf as [_ Hb]. intros k _. split; [done|].
      intros _. cbn. by rewrite (so_get _ _ _ source_base), Hb. }
    split; [|split; [by split|done]]. split; [|split; [cbn; congruence|split; [cbn; congruence|done]]]. intros k. etrans; [exact (Hsh k)|]. exact (Hl k).
  - cbn in Hp. apply andb_true_iff in Hp as [_ Hobs].
    destruct (commit_leaves source backed observed c p rest Hco Hdet) as (c' & p' & rest' & -> & Hco' & Hl' & Hf & Hlv).
    { intros ->. destruct Hs' as (_ & -> & _). by destruct (l_read_only lp). }
    injection Hf as _ Hr1 Hd1 _.
    destruct (shows_leaves _ _ _ (λ _, l_map l) lp ls Hlv Hs' ltac:(done) Hl) as (Hs2 & _ & _).
    split; [|done]. split; [intros k; by rewrite Hl'|]. split; [congruence|]. by split; [congruence|].
Qed.
Lemma step_in_step op : in_step op.
Proof.
  destruct op; [apply get_in_step | apply add_in_step | apply update_in_step | apply delete_in_step | apply find_in_step
    | apply clone_in_step | apply commit_in_step | apply reset_in_step | apply drop_in_step].
Qed.

Lemma run_represents ops chain stack :
  represents chain stack → permitted_run backed base ops stack = true →
  (run (cache_step source) ops chain).2 = (run (map_step base) ops stack).2 ∧
  represents (run (cache_step source) ops chain).1 (run (map_step base) ops stack).1.
Proof.
  revert chain stack. induction ops as [|op ops IH]; intros chain stack Hr Hp; [done|].
  cbn [permitted_run] in Hp. apply andb_true_iff in Hp as [Hp Hps]. pose proof (step_in_step op chain stack Hr Hp) as Hs. cbn [run].
  destruct (cache_step source op chain) as [chain' r], (map_step base op stack) as [stack' r']. destruct Hs as [-> Hr'].
  destruct (IH chain' stack' Hr' Hps) as [E Hf]. destruct (run _ ops chain'), (run _ ops stack'). cbn in *. split; [by f_equal | done].
Qed.
Lemma root_represents ro cfg a : represents [mkDataCache a inner_new ro false cfg] [mkLevel base ro false].
Proof.
  split; [|split; [split; [apply empty_ok | done]|done]]. split; [|done]. intros k. exact (so_get _ _ _ source_base k).
Qed.

(** (C11) Nested caches behave as a stack of maps: whatever sequence of reads, writes,
    scans, overlays, commits, resets and discards a caller makes, every reply,
    errors included, is the one of the maps; scans list the rows under the prefix in
    key order.  The session is [permitted]: keys are added only when they are not
    visible, an overlay of a read-only cache is not committed under an active read
    observer, a root over a store is left to the store's commit, and the root is not
    dropped. *)
Theorem overlay_session_refines_maps ops ro cfg :
  permitted_run backed base ops [mkLevel base ro false] = true →
  (run (cache_step source) ops [mkDataCache 0 inner_new ro false cfg]).2 = (run (map_step base) ops [mkLevel base ro false]).2.
Proof. intros Hp. exact (proj1 (run_represents ops _ _ (root_represents ro cfg 0) Hp)). Qed.
End sessions.

(** ** Atomic merges *)

Section atomic.
Context `{BigIntBytes} (source : CacheRead) (backed : bool).
Implicit Types (c : DataCache) (rest : list DataCache) (s : InnerState) (k : StorageKey) (t : Trackable).
#[local] Abbreviation look := (look source).
#[local] Abbreviation val := Item.value_bytes.

(** Publishing an effect that was prepared for a change writes the change. *)
Definition publishes below s k t e : Prop :=
  ∀ s' b, dictionary s' !! k = dictionary s !! k →
    (∀ k', show (Dc.publish_one (s', b) e).1 below k' = fn_set k (val <$> visible_trackable_item t) (show s' below) k') ∧
    (∀ k', k' ≠ k → dictionary (Dc.publish_one (s', b) e).1 !! k' = dictionary s' !! k').
Lemma upsert_publishes below s k t t' :
  visible_trackable_item t' = visible_trackable_item t → publishes below s k t (Dc.Upsert k t').
Proof.
  intros E s' b _. split; cbn [Dc.publish_one fst].
  - intros k'. by rewrite show_upsert, E.
  - intros k' Hne. unfold upsert. cbn. by rewrite lookup_insert_ne.
Qed.
Lemma noop_publishes below s k t :
  show s below k = val <$> visible_trackable_item t → publishes below s k t Dc.Noop.
Proof.
  intros E s' b Ek. split; [|done]. intros k'. cbn. symmetry. apply fn_set_same. rewrite <- E. unfold show. by rewrite Ek.
Qed.
Lemma prepare_one_publishes c rest k t rest' r :
  coherent source backed (c :: rest) → Dc.prepare_one source c rest k t = (rest', r) →
  alike source rest rest' ∧ coherent source backed rest' ∧
  match r with Ok e => publishes (look rest) (state c) k t e | Err _ => True end.
Proof.
  intros [Hc Hrest] E. pose proof (state_of_cases _ k _ _ Hc) as Hk.
  assert (alike source rest rest) by apply alike_refl.
  destruct t as [v st]. unfold Dc.prepare_one in E. cbn [t_state t_item] in E. destruct st.
  - by injection E as <- <-.
  - destruct (state_of (state c) k); injection E as <- <-; split_and!; try done; by apply upsert_publishes.
  - injection E as <- <-. split_and!; try done. apply upsert_publishes. by case_bool_decide.
  - destruct (state_of (state c) k).
    + injection E as <- <-. split_and!; try done. by apply upsert_publishes.
    + injection E as <- <-. split_and!; try done. intros s' b Ek. split; cbn [Dc.publish_one fst].
      * intros k'. rewrite show_forget. by rewrite (proj2 Hk).
      * intros k' Hne. unfold forget. cbn. by rewrite lookup_delete_ne.
    + injection E as <- <-. split_and!; try done. by apply upsert_publishes.
    + injection E as <- <-. split_and!; try done. by apply noop_publishes.
    + pose proof (look_get source backed k rest Hrest) as Hg. destruct (Dc.get source k rest) as [rest1 [item|]];
        destruct Hg as (Hr & Ha & Hco); injection E as <- <-; split_and!; try done; [by apply upsert_publishes|].
      apply noop_publishes. by rewrite Hk, <- Hr.
  - by injection E as <- <-.
Qed.
Lemma prepare_merge_publishes items c rest seen rest' r :
  coherent source backed (c :: rest) → Dc.prepare_merge_locked source c rest seen items = (rest', r) →
  alike source rest rest' ∧ coherent source backed rest' ∧
  match r with
  | Ok effects =>
      NoDup items.*1 ∧ (∀ k, k ∈ items.*1 → k ∉ seen) ∧
      ∀ s' b, (∀ k, k ∈ items.*1 → dictionary s' !! k = dictionary (state c) !! k) →
        ∀ k', show (foldl Dc.publish_one (s', b) effects).1 (look rest) k' = written items (show s' (look rest)) k'
  | Err _ => True
  end.
Proof.
  revert rest seen rest' r. induction items as [|[k t] items IH]; intros rest seen rest' r Hco E.
  { injection E as <- <-. split_and!; [apply alike_refl|by destruct Hco|constructor|by intros k Hk%elem_of_nil|done]. }
  cbn [Dc.prepare_merge_locked] in E. case_bool_decide as Hseen; [injection E as <- <-; split_and!; [apply alike_refl|by destruct Hco|done]|].
  destruct (Dc.prepare_one source c rest k t) as [rest1 [e|e]] eqn:E1; destruct (prepare_one_publishes c rest k t _ _ Hco E1) as (Ha1 & Hco1 & Hp);
    [|by injection E as <- <-].
  assert (coherent source backed (c :: rest1)) as Hco1' by (split; [destruct Hco as [Hc _]; by eapply alike_ok | done]).
  destruct (Dc.prepare_merge_locked source c rest1 (k :: seen) items) as [rest2 [effects|e2]] eqn:E2;
    destruct (IH rest1 (k :: seen) _ _ Hco1' E2) as (Ha2 & Hco2 & Hr); injection E as <- <-;
    (split; [by eapply alike_trans|]); (split; [done|]); [|done].
  destruct Hr as (Hnd & Hns & Hpub). split; [|split].
  - constructor; [|done]. intros Hin. destruct (Hns k Hin). by left.
  - intros k' [->|Hin]%elem_of_cons; [done|]. intros Hs. destruct (Hns k' Hin). by right.
  - intros s' b Hs' k'. destruct (Hp s' b (Hs' k ltac:(by left))) as [Hsh Hd]. cbn [foldl].
    destruct (Dc.publish_one (s', b) e) as [s1 b1]. cbn [fst] in *.
    rewrite (show_ext _ _ _ _ (λ k, alike_look _ _ _ k Ha1)), Hpub.
    + change (written ((k, t) :: items) (show s' (look rest)) k') with (written items (fn_set k (val <$> visible_trackable_item t) (show s' (look rest))) k').
      apply written_ext. intros k1. rewrite <- Hsh. apply show_ext. intros k2. symmetry. by apply alike_look.
    + intros k1 Hk1. rewrite Hd; [apply Hs'; by right|]. intros ->. destruct (Hns k Hk1). by left.
Qed.
Lemma publish_show effects s below k : show (Dc.publish effects s) below k = show (foldl Dc.publish_one (s, false) effects).1 below k.
Proof. unfold Dc.publish. by destruct (foldl _ _ _) as [s' []]. Qed.
Lemma run_validation_alike {E T} (v : Dc.Validation E T) c rest :
  coherent source backed rest →
  let '(rest', _) := Dc.run_validation source v c rest in alike source rest rest' ∧ coherent source backed rest'.
Proof.
  revert rest. induction v as [r|k next IH]; intros rest Hco; [split; [apply alike_refl|done]|]. cbn [Dc.run_validation]. unfold Dc.view_get.
  destruct (dictionary (state c) !! k); [by apply IH|]. pose proof (look_get source backed k rest Hco) as Hg.
  destruct (Dc.get source k rest) as [rest1 item]. destruct Hg as (_ & Ha & Hco1). specialize (IH item rest1 Hco1).
  destruct (Dc.run_validation source (next item) c rest1) as [rest2 r]. destruct IH as [Ha2 Hco2]. split; [by eapply alike_trans | done].
Qed.

(** (C21) An atomic merge applies all changes or none, in a coherent cache, that is one
    whose entries fit what is under it, as after any session that adds keys only
    where they are not visible ([run_represents]): it succeeds only when the cache
    is still the one and at the revision of the token, no key is repeated and the
    cache is writable or there is nothing to write, and then the cache shows exactly
    the changes on top of what it showed; any failure, the callback's included,
    leaves it exactly as it was; what its ancestors show never changes. *)
Theorem atomic_merge_all_or_nothing {E T} expected items (validate : Dc.Validation E T) c rest :
  coherent source backed (c :: rest) →
  let '(c', rest', r) := Dc.try_validate_and_merge_tracked_items source expected items validate c rest in
  alike source rest rest' ∧
  match r with
  | Ok _ => expected = Dc.version c ∧ NoDup items.*1 ∧ (items = [] ∨ read_only c = false) ∧
      (∀ k, look (c' :: rest') k = written items (look (c :: rest)) k)
  | Err _ => c' = c
  end.
Proof.
  intros Hco. unfold Dc.try_validate_and_merge_tracked_items. pose proof (alike_refl source rest).
  destruct (N.eqb_spec (Dc.v_state expected) (address c)) as [E1|]; [|done]. destruct (N.eqb_spec (Dc.v_revision expected) (revision (state c))) as [E2|]; [|done].
  cbn [negb]. destruct (negb (bool_decide (items = [])) && read_only c) eqn:Ero; [done|].
  destruct (Dc.prepare_merge_locked source c rest [] items) as [rest1 [effects|e]] eqn:Ep;
    destruct (prepare_merge_publishes items c rest [] _ _ Hco Ep) as (Ha & Hco1 & Hr); [|done].
  pose proof (run_validation_alike validate c rest1 Hco1) as Hv. destruct (Dc.run_validation source validate c rest1) as [rest2 [answer|e]];
    destruct Hv as [Ha2 Hco2]; (split; [by eapply alike_trans|]); [|done].
  destruct Hr as (Hnd & _ & Hpub). split; [destruct expected; cbn in *; by rewrite E1, E2|]. split; [done|]. split.
  { apply andb_false_iff in Ero as [Ero|]; [left; by apply negb_false_iff, bool_decide_eq_true in Ero | by right]. }
  intros k. transitivity (show (Dc.publish effects (state c)) (look rest) k).
  - cbn. apply show_ext. intros k'. symmetry. apply alike_look. by eapply alike_trans.
  - rewrite publish_show. by apply Hpub.
Qed.
End atomic.

(** ** Durable commits *)

Definition key_map (m : gmap bytes bytes) : gmap StorageKey bytes := list_to_map (prod_map Key.from_bytes id <$> map_to_list m).
(** Every row has at least the four bytes of a contract id. *)
Definition long (m : gmap bytes bytes) : Prop := ∀ k v, m !! k = Some v → 4 ≤ length k.

Lemma key_map_lookup m k : long m → key_map m !! k = m !! Key.build k.
Proof.
  intros Hm. apply option_eq. intros v. unfold key_map.
  assert (NoDup (prod_map Key.from_bytes (id : bytes → bytes) <$> map_to_list m).*1) as Hnd.
  { rewrite <- list_fmap_compose. apply NoDup_fmap_2_strong; [|apply NoDup_map_to_list].
    intros [k1 v1] [k2 v2] H1%elem_of_map_to_list H2%elem_of_map_to_list. cbn. intros E%(f_equal Key.build).
    rewrite !build_from in E by eauto. subst. by assert (v1 = v2) as -> by congruence. }
  rewrite <- elem_of_list_to_map by done. rewrite list_elem_of_fmap. split.
  - intros ([k' v'] & [= -> ->] & Hin%elem_of_map_to_list). by rewrite build_from by eauto.
  - intros Hv. exists (Key.build k, v). unfold prod_map. cbn [fst snd]. rewrite from_build. split; [done | by apply elem_of_map_to_list].
Qed.

Section store.
Context {S : Type} {ops : TransactionalStore S} {laws : StoreLaws S} `{BigIntBytes}.
Implicit Types (st : S) (sc : StoreCache S) (k : StorageKey).
#[local] Abbreviation val := Item.value_bytes.

Lemma reads_look st k : look (Sc.reads st) [] k = rows st !! Key.build k.
Proof.
  change (val <$> (Item.from_bytes <$> store_get (Key.build k) st) = rows st !! Key.build k). rewrite store_get_rows.
  by destruct (rows st !! Key.build k).
Qed.
Lemma reads_find st prefix d :
  long (rows st) → ∃ l, cr_find (Sc.reads st) prefix d = Some l ∧ enumerates d prefix (λ k, key_map (rows st) !! k) l.
Proof.
  intros Hl. eexists. split; [done|]. rewrite store_find_rows. unfold sorted_rows. set (sorted := sort_by_key fst _).
  assert (∀ r : bytes * bytes, r ∈ sorted ↔ rows st !! r.1 = Some r.2) as Hin
    by (intros [k v]; unfold sorted; rewrite (sort_by_key_perm fst); apply elem_of_map_to_list).
  assert (StronglySorted (lt_by fst) sorted) as Hs by (apply sort_by_key_sorted, NoDup_fst_map_to_list).
  set (found := filter _ sorted). assert (∀ r, r ∈ found → 4 ≤ length r.1) as H4
    by (intros r [_ Hr%Hin]%list_elem_of_filter; by eapply Hl).
  split.
  - assert (in_direction d (prod_map Key.from_bytes Item.from_bytes <$> in_direction d found) = prod_map Key.from_bytes Item.from_bytes <$> found)
      as -> by (destruct d; [done | cbn [in_direction]; by rewrite fmap_reverse, reverse_involutive]).
    assert (StronglySorted (lt_by fst) found) as Hf by by apply StronglySorted_filter.
    clearbody found. clear -Hf H4. induction Hf as [|r l Hf IH Hr]; [constructor|]. cbn. constructor; [apply IH; intros; apply H4; by right|].
    apply Forall_fmap. rewrite Forall_forall in Hr |- *. intros r' Hr'.
    change (bytes_lt (Key.build (Key.from_bytes r.1)) (Key.build (Key.from_bytes r'.1))).
    rewrite !build_from by (apply H4; (by left) || by right). by apply Hr.
  - intros k v. rewrite key_map_lookup by done. setoid_rewrite list_elem_of_fmap. setoid_rewrite in_direction_elem. split.
    + intros (item & ([kb vb] & [= -> ->] & Hr) & <-). pose proof (H4 _ Hr) as H4r. apply list_elem_of_filter in Hr as [Hp Hr%Hin]. cbn in *.
      rewrite build_from by done. split; [|done]. destruct prefix; cbn in *; [|done]. by rewrite build_from.
    + intros [Hp Hv]. exists (Item.from_bytes v). split; [|done]. exists (Key.build k, v). cbn. rewrite from_build. split; [done|].
      apply list_elem_of_filter. split; [by destruct prefix; cbn in * | by apply Hin].
Qed.
Lemma reads_ok st : long (rows st) → source_ok (Sc.reads st) true (key_map (rows st)).
Proof.
  intros Hl. split; [|intros prefix d; by apply reads_find]. intros k. rewrite key_map_lookup by done. exact (reads_look st k).
Qed.

(** The raw changes of a cache, applied to rows. *)
Lemma raw_changes_fmap (l : list (StorageKey * Trackable)) :
  Forall (λ i, modified i.2) l → omap Dc.raw_change l = (λ i, (Key.build i.1, val <$> visible_trackable_item i.2)) <$> l.
Proof.
  induction 1 as [|[k [v []]] l Hm _ IH]; [done|destruct Hm|..|destruct Hm]; cbn; by rewrite IH.
Qed.
Lemma write_row_lookup (m : gmap bytes bytes) (k : bytes) (o : option bytes) (k' : bytes) :
  write_row m (k, o) !! k' = if bool_decide (k' = k) then id o else m !! k'.
Proof. unfold write_row. cbn. destruct o; case_bool_decide; by simplify_map_eq. Qed.
Lemma overlay_written c m k :
  Forall (λ i, modified i.2) (Dc.tracked_items c) →
  apply_overlay (Dc.extract_raw_changes c) m !! Key.build k = written (Dc.tracked_items c) (λ k, m !! Key.build k) k.
Proof.
  intros HF. unfold Dc.extract_raw_changes. rewrite raw_changes_fmap by done. unfold apply_overlay.
  pose proof (tracked_items_NoDup c) as Hnd. set (l := Dc.tracked_items c) in *.
  assert (((λ i, (Key.build i.1, val <$> visible_trackable_item i.2)) <$> l).*1 = Key.build <$> l.*1) as Ek
    by (rewrite <- !list_fmap_compose; by apply list_fmap_ext).
  destruct (decide (k ∈ l.*1)) as [([k' t] & -> & Hin)%list_elem_of_fmap|Hk].
  - cbn [fst]. rewrite (written_elem _ _ _ t) by done. apply (fold_elem _ id write_row_lookup).
    + rewrite Ek. by apply NoDup_fmap_2; [apply _|].
    + apply list_elem_of_fmap. by exists (k', t).
  - rewrite written_other by done. apply (fold_other _ id write_row_lookup). rewrite Ek.
    intros (k' & E%build_inj & Hk')%list_elem_of_fmap. by subst.
Qed.
Lemma overlay_long c m : Forall (λ i, modified i.2) (Dc.tracked_items c) → long m → long (apply_overlay (Dc.extract_raw_changes c) m).
Proof.
  intros HF Hm k v. unfold Dc.extract_raw_changes. rewrite raw_changes_fmap by done. set (l := _ <$> _).
  destruct (decide (k ∈ l.*1)) as [Hk|Hk].
  - intros _. unfold l in Hk. rewrite <- list_fmap_compose in Hk. apply list_elem_of_fmap in Hk as (i & -> & _). apply build_length.
  - unfold apply_overlay. rewrite (fold_other _ id write_row_lookup) by done. apply Hm.
Qed.

(** The cache is coherent with the store and shows [m]. *)
Record store_shows sc (m : gmap StorageKey bytes) : Prop := {
  ss_long : long (rows (sc_store sc));
  ss_live : pinned sc = None;
  ss_coherent : coherent (Sc.source sc) true [sc_cache sc];
  ss_look : ∀ k, look (Sc.source sc) [sc_cache sc] k = m !! k;
}.
Lemma source_live sc : pinned sc = None → Sc.source sc = Sc.reads (sc_store sc).
Proof. intros E. unfold Sc.source. by rewrite E. Qed.
Lemma settled_shows sc m st :
  store_shows sc m → read_only (sc_cache sc) = false → rows st = apply_overlay (Dc.extract_raw_changes (sc_cache sc)) (rows (sc_store sc)) →
  store_shows (Sc.settled st sc) m ∧ ∀ k, rows st !! Key.build k = m !! k.
Proof.
  intros [Hlong Hlive Hco Hm] Hro Er. rewrite (source_live sc Hlive) in *.
  assert (Forall (λ i, modified i.2) (Dc.tracked_items (sc_cache sc))) as HF.
  { pose proof (tracked_modified _ _ _ _ Hco) as HF. eapply Forall_impl; [exact HF|]. by intros i [? _]. }
  assert (∀ k, rows st !! Key.build k = look (Sc.reads (sc_store sc)) [sc_cache sc] k) as Hrows.
  { intros k. rewrite Er, overlay_written by done. rewrite <- (written_tracked (Sc.reads (sc_store sc)) true (sc_cache sc) [] k Hco eq_refl).
    apply written_ext. intros k'. by rewrite reads_look. }
  split; [|intros k; by rewrite Hrows]. destruct Hco as [Hc _].
  destruct (settle_ok (look (Sc.reads (sc_store sc)) []) (look (Sc.reads st) []) (over true []) (state (sc_cache sc)) Hc) as [Hok Hs].
  - intros k Hk. rewrite reads_look, Hrows. done.
  - intros k Hk. rewrite !reads_look, Er, overlay_written by done. apply written_other.
    by intros ([k' t] & -> & [? _]%tracked_items_elem)%list_elem_of_fmap.
  - unfold Sc.settled. rewrite Hro. split; cbn [sc_store pinned sc_cache]; [rewrite Er; by apply overlay_long | done | |];
      unfold Sc.source; cbn [sc_store pinned sc_cache]; rewrite Hlive; cbn [default from_option].
    + split; [exact Hok | done].
    + intros k. rewrite <- Hm. exact (Hs k).
Qed.
Lemma unchanged_rows sc m k : store_shows sc m → change_set (state (sc_cache sc)) = ∅ → rows (sc_store sc) !! Key.build k = m !! k.
Proof.
  intros [Hlong Hlive Hco Hm] He. rewrite (source_live sc Hlive) in *. rewrite <- Hm, <- reads_look.
  rewrite <- (written_tracked (Sc.reads (sc_store sc)) true (sc_cache sc) [] k Hco eq_refl). symmetry. apply written_other.
  intros ([k' t] & -> & [Hk _]%tracked_items_elem)%list_elem_of_fmap. rewrite He in Hk. set_solver.
Qed.
Lemma discarded_shows sc st :
  pinned sc = None → long (rows st) → store_shows (Sc.discard_pending_changes (Sc.with_store st sc)) (key_map (rows st)).
Proof.
  intros Hlive Hl. split; cbn [sc_store pinned sc_cache Sc.discard_pending_changes Sc.with_store]; [done|done| |];
    unfold Sc.source; cbn [sc_store pinned sc_cache Sc.discard_pending_changes Sc.with_store]; rewrite Hlive; cbn [default from_option].
  - split; [|done]. cbn. destruct (_ || _); [apply bump_ok|]; apply empty_ok.
  - intros k. rewrite key_map_lookup, <- reads_look by done. cbn. unfold show. by destruct (_ || _).
Qed.
Lemma same_rows_shows sc m st : store_shows sc m → rows st = rows (sc_store sc) → store_shows (Sc.with_store st sc) m.
Proof.
  intros [Hlong Hlive Hco Hm] Er. rewrite (source_live sc Hlive) in *.
  assert (∀ k, look (Sc.reads (sc_store sc)) [] k = look (Sc.reads st) [] k) as Hl by (intros k; by rewrite !reads_look, Er).
  split; cbn [sc_store pinned sc_cache Sc.with_store]; [by rewrite Er | done | |];
    unfold Sc.source; cbn [sc_store pinned sc_cache Sc.with_store]; rewrite Hlive; cbn [default from_option].
  - destruct Hco as [Hc _]. split; [|done]. by eapply cache_ok_ext; [|exact Hc].
  - intros k. rewrite <- Hm. symmetry. by apply show_ext.
Qed.
Lemma with_store_same sc : Sc.with_store (sc_store sc) sc = sc.
Proof. by destruct sc. Qed.

Lemma durable_commit_shows sc m :
  store_shows sc m → read_only (sc_cache sc) = false →
  match Sc.try_commit_durable sc with
  | (sc', Ok _) => store_shows sc' m ∧ ∀ k, rows (sc_store sc') !! Key.build k = m !! k
  | (sc', Err _) => rows (sc_store sc') = rows (sc_store sc) ∧ store_shows sc' (key_map (rows (sc_store sc)))
  end.
Proof.
  intros Hs Ero. pose proof Hs as [Hlong Hlive _ _]. unfold Sc.try_commit_durable. rewrite Ero.
  case_bool_decide as He; cbn [negb].
  - destruct (flush (sc_store sc)); [split; [done|]; intros k; by apply unchanged_rows|].
    split; [done|]. rewrite <- (with_store_same sc) at 1. by apply discarded_shows.
  - unfold Sc.commit_canonical_store_overlay. rewrite Hlive.
    pose proof (canonical_law (Dc.extract_raw_changes (sc_cache sc)) (sc_store sc)) as Hlaw.
    destruct (commit_canonical_overlay _ _) as [st [[]|e]]; unfold commits in Hlaw; [by apply settled_shows|].
    split; [done|]. rewrite <- Hlaw. apply discarded_shows; [done|]. by rewrite Hlaw.
Qed.
(** A commit that succeeds, and one that fails with the rows untouched. *)
Definition committed (sc : StoreCache S) (m : gmap StorageKey bytes) (res : StoreCache S * Result DataCacheError unit) : Prop :=
  match res with
  | (sc', Ok _) => store_shows sc' m ∧ ∀ k, rows (sc_store sc') !! Key.build k = m !! k
  | (sc', Err _) => sc_cache sc' = sc_cache sc ∧
      (failures_atomic S → rows (sc_store sc') = rows (sc_store sc) ∧ store_shows sc' m)
  end.
Lemma failed_commits sc m st e :
  store_shows sc m → (failures_atomic S → rows st = rows (sc_store sc)) → committed sc m (Sc.with_store st sc, Err e).
Proof. intros Hs Hf. split; [done|]. intros Ha. split; [by apply Hf|]. by apply same_rows_shows; [|apply Hf]. Qed.
Lemma snapshot_commits sc m st :
  store_shows sc m → read_only (sc_cache sc) = false → rows st = rows (sc_store sc) →
  committed sc m (Sc.commit_by_snapshot st (Sc.with_store st sc)).
Proof.
  intros Hs Ero Er. unfold Sc.commit_by_snapshot. cbn [sc_store sc_cache Sc.with_store].
  destruct (commit_snapshot _ st) as [st' [[]|e]] eqn:E.
  - apply (settled_shows (Sc.with_store st sc)); [by apply same_rows_shows|done|exact (snapshot_law _ _ _ E)].
  - apply (failed_commits sc m st'); [done|]. intros (_ & _ & Hf). by rewrite (Hf _ _ _ _ E).
Qed.
Lemma commit_shows sc m : store_shows sc m → read_only (sc_cache sc) = false → committed sc m (Sc.try_commit sc).
Proof.
  intros Hs Ero. pose proof Hs as [Hlong Hlive _ _]. unfold Sc.try_commit. rewrite Ero.
  set (overlay := Dc.extract_raw_changes (sc_cache sc)). case_bool_decide as He.
  - apply settled_shows; [done..|]. assert (Dc.extract_raw_changes (sc_cache sc) = []) as ->; [|done].
    unfold Dc.extract_raw_changes, Dc.tracked_items. by rewrite He.
  - unfold Sc.try_commit_store_overlay. rewrite Hlive. fold overlay.
    destruct (try_commit_borrowed_raw_overlay overlay (sc_store sc)) as [st1 [[]|e]] eqn:E1;
      [apply settled_shows; [done..|exact (borrowed_law _ _ _ _ E1)] | |
       apply failed_commits; [done|]; intros (Hf & _); exact (Hf _ _ _ _ E1)].
    pose proof (borrowed_law _ _ _ _ E1 : rows st1 = rows (sc_store sc)) as H1.
    destruct (try_commit_raw_overlay overlay st1) as [st2 [[]|e]] eqn:E2;
      [apply settled_shows; [done..|by rewrite (raw_law _ _ _ _ E2 : rows st2 = apply_overlay overlay (rows st1)), H1] | |
       apply failed_commits; [done|]; intros (_ & Hf & _); by rewrite (Hf _ _ _ _ E2)].
    pose proof (raw_law _ _ _ _ E2 : rows st2 = rows st1) as H2. apply snapshot_commits; [done|done|congruence].
Qed.

(** (C12) A durable commit leaves in the store what the session wrote: after any
    permitted session on a cache over a store, whose overlays are closed,
    [try_commit_durable] either makes the rows of the store the map of the session,
    which the cache goes on showing, or fails with the rows untouched and the cache
    showing them again.  [try_commit], which need not be atomic, also makes the rows
    the map of the session when it succeeds; when it fails it keeps the pending
    changes, and leaves the rows untouched if the store's failed commits do.  Both
    refuse a read-only cache and change nothing. *)
Theorem store_commit_exact st session ro cfg c :
  let base := key_map (rows st) in
  long (rows st) →
  permitted_run true base session [mkLevel base ro false] = true →
  (run (cache_step (Sc.reads st)) session [mkDataCache 0 inner_new ro false cfg]).1 = [c] →
  let m := top_map base (run (map_step base) session [mkLevel base ro false]).1 in
  let sc := mkStoreCache c st None in
  if read_only c then Sc.try_commit_durable sc = (sc, Err ReadOnly) ∧ Sc.try_commit sc = (sc, Err ReadOnly)
  else
    match Sc.try_commit_durable sc with
    | (sc', Ok _) => store_shows sc' m ∧ ∀ k, rows (sc_store sc') !! Key.build k = m !! k
    | (sc', Err _) => rows (sc_store sc') = rows st ∧ store_shows sc' base
    end ∧ committed sc m (Sc.try_commit sc).
Proof.
  intros base Hl Hp Er m sc. pose proof (reads_ok st Hl) as Hok.
  destruct (run_represents (Sc.reads st) true base Hok session _ _ (root_represents _ _ _ Hok ro cfg 0) Hp) as [_ (Hs & Hco & _)].
  rewrite Er in Hs, Hco. assert (store_shows sc m) as Hsh.
  { split; [done..|]. intros k. exact (top_shows _ _ _ Hok _ _ k Hs). }
  destruct (read_only c) eqn:Hro.
  - unfold Sc.try_commit_durable, Sc.try_commit. cbn [sc_cache sc]. by rewrite Hro.
  - split; [exact (durable_commit_shows _ _ Hsh Hro) | exact (commit_shows _ _ Hsh Hro)].
Qed.
End store.

(** ** Overlays of a read-only cache *)

Lemma tracked_single a k t ro det cfg r :
  Dc.tracked_items (mkDataCache a (mkInnerState {[k := t]} {[k]} r) ro det cfg) = [(k, t)].
Proof.
  unfold Dc.tracked_items, Key.sorted_set. cbn [state change_set dictionary]. rewrite elements_singleton. cbn.
  by rewrite lookup_singleton_eq.
Qed.
(** (C40) A read-only cache is written through its overlays, unless a read observer is
    active.  Whatever the cache, an update of it is refused, but an update of an
    overlay of it succeeds and so does the commit of the overlay; afterwards the
    read-only cache returns the new value when no observer was active, and is
    untouched, the update being lost, when one was. *)
Theorem read_only_cache_is_written source fresh cfg c rest k v :
  read_only c = true →
  (Dc.try_update k v (c :: rest)).2 = Err ReadOnly ∧
  let '(overlay, r) := Dc.try_update k v (Dc.clone_overlay_with_config fresh cfg false (c :: rest)) in
  r = Ok tt ∧
  (let '(chain, r) := Dc.try_commit source false overlay in
   r = Ok tt ∧ (Dc.get source k (tail chain)).2 = Some v) ∧
  (let '(chain, r) := Dc.try_commit source true overlay in
   r = Ok tt ∧ tail chain = c :: rest).
Proof.
  intros Hro. cbn [Dc.try_update Dc.clone_overlay_with_config read_only]. rewrite Hro. split; [done|]. split; [done|].
  unfold Dc.apply_update. set (top := mkDataCache fresh inner_new false false cfg <| state ::= _ |>).
  assert (Dc.tracked_items top = [(k, mkTrackable v Changed)]) as Ht.
  { transitivity (Dc.tracked_items (mkDataCache fresh (mkInnerState {[k := mkTrackable v Changed]} ({[k]} ∪ ∅) 1) false false cfg));
      [reflexivity|]. rewrite union_empty_r_L. apply tracked_single. }
  assert (bool_decide (change_set (state top) = ∅) = false) as Hne by (apply bool_decide_false; unfold top; cbn; set_solver).
  assert (detached top = false ∧ read_only top = false) as [Hd Hr] by done.
  unfold Dc.try_commit, Dc.commit_writable, Dc.merge_tracked_items_from. rewrite Hr, Hd, Hne, Ht. cbn [orb].
  split; [|split; [done|]].
  - cbn. split; [done|]. rewrite lookup_insert_eq. cbn. unfold visible_trackable_item. cbn. by destruct (state_of (state c) k).
  - cbn [Dc.merge_tracked_items foldl tail]. unfold Dc.merge_tracked_items. cbn. by rewrite Hro.
Qed.

(** ** The in-memory store *)

Lemma apply_overlay_app o o' m : apply_overlay (o ++ o') m = apply_overlay o' (apply_overlay o m).
Proof. apply foldl_app. Qed.
Lemma batch_lookup o m k s :
  apply_overlay o m !! k =
    match write_batch (foldl (λ n change, Snapshot.write change n) (Snapshot.new s) o) !! k with Some x => x | None => m !! k end.
Proof.
  induction o as [|[k' x] o IH] using rev_ind; [by cbn; rewrite lookup_empty|].
  rewrite apply_overlay_app, foldl_app. cbn [foldl apply_overlay]. rewrite write_row_lookup, IH. cbn.
  case_bool_decide; by simplify_map_eq.
Qed.
#[export] Program Instance memory_laws : StoreLaws MemoryStore := {| rows := data |}.
Next Obligation. done. Qed.
Next Obligation.
  intros p d s. cbn. unfold Memory.find, sorted_rows. f_equal. apply list_filter_iff. intros r. by destruct p.
Qed.
Next Obligation. by intros o s s' b [= <- <-]. Qed.
Next Obligation. by intros o s s' b [= <- <-]. Qed.
Next Obligation.
  intros o s s' [= <-]. unfold commits. apply map_eq. intros k. rewrite (batch_lookup o (data s) k s). unfold Memory.apply_batch. cbn.
  set (batch := write_batch _). unfold apply_overlay. destruct (batch !! k) as [x|] eqn:E.
  - apply (fold_elem _ id write_row_lookup); [|rewrite (sort_by_key_perm fst); by apply elem_of_map_to_list].
    rewrite (sort_by_key_perm fst). apply NoDup_fst_map_to_list.
  - apply (fold_other _ id write_row_lookup). rewrite (sort_by_key_perm fst).
    intros ([k' x] & -> & Hin%elem_of_map_to_list)%list_elem_of_fmap. cbn in E. congruence.
Qed.
Next Obligation. done. Qed.
Lemma memory_failures_atomic : failures_atomic MemoryStore.
Proof. by split_and!. Qed.

(** ** A sample store *)

Definition byte_integers : BigIntBytes := {| to_signed_bytes_le := λ z, [as_u8 (Z.to_N (z mod 256))] |}.
#[local] Existing Instance byte_integers.
Definition sample_row (n : N) : StorageKey := Key.create_with_bytes (mkI32 x05 x00 x00 x00) x14 [as_u8 n].
Definition sample_store : MemoryStore :=
  mkMemory (list_to_map [(Key.build (sample_row 1), [x0a]); (Key.build (sample_row 2), [x0b]); (Key.build (sample_row 3), [x0c])]) ∅.
Definition sample_prefix : StorageKey := Key.create (mkI32 x05 x00 x00 x00) x14.
Definition sample_session : list CacheOp :=
  [Get (sample_row 1); Clone default_config false; Update (sample_row 1) (mkStorageItem [] (Some (BigInteger 7)));
   Add (sample_row 4) (Item.from_bytes [x0d]); Delete (sample_row 2); Find (Some sample_prefix) Backward; Commit true; Drop;
   Clone default_config true; Delete (sample_row 3); Commit false; Drop; Find None Forward].
Definition sample_base : gmap StorageKey bytes := key_map (rows sample_store).
Lemma sample_long : long (rows sample_store).
Proof. apply (bool_decide_eq_true_1 (map_Forall (λ k _, 4 ≤ length k) (rows sample_store))). vm_compute. reflexivity. Qed.
Lemma sample_permitted : permitted_run true sample_base sample_session [mkLevel sample_base false false] = true.
Proof. vm_compute. reflexivity. Qed.
Lemma overlay_session_refines_maps_witness :
  (run (cache_step (Sc.reads sample_store)) sample_session [mkDataCache 0 inner_new false false default_config]).2 =
  (run (map_step sample_base) sample_session [mkLevel sample_base false false]).2.
Proof.
  exact (overlay_session_refines_maps (Sc.reads sample_store) true sample_base (reads_ok sample_store sample_long) sample_session false
    default_config sample_permitted).
Defined.

Definition sample_root : DataCache :=
  default (mkDataCache 0 inner_new false false default_config)
    (head (run (cache_step (Sc.reads sample_store)) sample_session [mkDataCache 0 inner_new false false default_config]).1).
Lemma one_element {A} (d : A) l : length l = 1 → l = [default d (head l)].
Proof. by destruct l as [|x []]. Qed.
Lemma sample_root_run :
  (run (cache_step (Sc.reads sample_store)) sample_session [mkDataCache 0 inner_new false false default_config]).1 = [sample_root].
Proof. apply one_element. vm_compute. reflexivity. Qed.
Lemma sample_store_commits : (Sc.try_commit (mkStoreCache sample_root sample_store None)).2 = Ok tt.
Proof. vm_compute. reflexivity. Qed.
Lemma sample_root_writable : read_only sample_root = false.
Proof. vm_compute. reflexivity. Qed.
Lemma store_commit_exact_witness :
  ∃ m, store_shows (Sc.try_commit (mkStoreCache sample_root sample_store None)).1 m ∧
    ∀ k, rows (sc_store (Sc.try_commit (mkStoreCache sample_root sample_store None)).1) !! Key.build k = m !! k.
Proof.
  pose proof (store_commit_exact sample_store sample_session false default_config sample_root sample_long sample_permitted sample_root_run) as Hc.
  pose proof sample_store_commits as Hok. cbv zeta in Hc. rewrite sample_root_writable in Hc. destruct Hc as [_ Hc]. unfold committed in Hc.
  destruct (Sc.try_commit (mkStoreCache sample_root sample_store None)) as [sc r]. cbn in Hok |- *. subst r. exact (ex_intro _ _ Hc).
Defined.
(** A change of one key, validated on what another key shows. *)
Definition sample_change : list (StorageKey * Trackable) := [(sample_row 3, mkTrackable (Item.from_bytes [x0e]) Changed)].
Definition sample_validation : Dc.Validation unit (option StorageItem) := Dc.ReadKey (sample_row 4) (λ v, Dc.Answer (Ok v)).
Lemma sample_merge_succeeds :
  (Dc.try_validate_and_merge_tracked_items (Sc.reads sample_store) (Dc.version sample_root) sample_change sample_validation
     sample_root []).2 = Ok (Some (Item.from_bytes [x0d])).
Proof. vm_compute. reflexivity. Qed.
Lemma atomic_merge_all_or_nothing_witness :
  let '(c', rest', r) := Dc.try_validate_and_merge_tracked_items (Sc.reads sample_store) (Dc.version sample_root) sample_change
    sample_validation sample_root [] in
  r = Ok (Some (Item.from_bytes [x0d])) ∧ look (Sc.reads sample_store) (c' :: rest') (sample_row 3) = Some [x0e].
Proof.
  destruct (run_represents (Sc.reads sample_store) true sample_base (reads_ok _ sample_long) sample_session _ _
    (root_represents _ _ _ (reads_ok _ sample_long) false default_config 0) sample_permitted) as [_ (_ & Hco & _)].
  rewrite sample_root_run in Hco. pose proof sample_merge_succeeds as Hr.
  pose proof (atomic_merge_all_or_nothing (Sc.reads sample_store) true (Dc.version sample_root) sample_change
    sample_validation sample_root [] Hco) as H.
  destruct (Dc.try_validate_and_merge_tracked_items _ _ _ _ _ _) as [[c' rest'] r]. cbn [snd] in Hr. subst r.
  destruct H as (_ & _ & _ & _ & H). split; [reflexivity|]. rewrite H. unfold written, sample_change. cbn [foldl]. unfold fn_set.
  rewrite bool_decide_true by reflexivity. reflexivity.
Defined.

Definition read_only_root : DataCache := mkDataCache 0 inner_new true false default_config.
Lemma read_only_cache_is_written_witness :
  (Dc.get (Sc.reads sample_store) (sample_row 1)
     (tail (Dc.try_commit (Sc.reads sample_store) false
       (Dc.try_update (sample_row 1) (Item.from_bytes [xff])
          (Dc.clone_overlay_with_config 1 default_config false [read_only_root])).1).1)).2 = Some (Item.from_bytes [xff]).
Proof.
  pose proof (read_only_cache_is_written (Sc.reads sample_store) 1 default_config read_only_root [] (sample_row 1)
    (Item.from_bytes [xff]) eq_refl) as [_ Hw].
  destruct (Dc.try_update _ _ _) as [overlay r]. destruct Hw as (_ & Hw & _). cbn [fst].
  destruct (Dc.try_commit _ _ overlay) as [chain r']. exact (proj2 Hw).
Defined.
