(* ===== verification/Hoare.v ===== *)
(** * Program logic for the state-and-error monad

    [triple P m Q]: run from a state satisfying [P], [m] ends with a result and a
    state satisfying [Q]; the monad is total, so this is total correctness.
    [keeps I m]: [m] preserves [I], whether it returns or fails. *)
From S2P Require Import Prelude.

Section triple.
Context {S E : Type}.

Definition triple {A} (P : S → Prop) (m : M S E A) (Q : Result E A → S → Prop) : Prop :=
  ∀ s, P s → Q (m s).2 (m s).1.
Definition keeps {A} (I : S → Prop) (m : M S E A) : Prop := triple I m (λ _, I).

(** The postcondition of a step followed by another: errors go straight out. *)
Definition seqpost {A B} (Q : A → S → Prop) (R : Result E B → S → Prop) : Result E A → S → Prop :=
  λ r s, match r with Ok a => Q a s | Err e => R (Err e) s end.

Lemma triple_bind {A B} P (Q : A → S → Prop) (R : Result E B → S → Prop) (m : M S E A) (k : A → M S E B) :
  triple P m (seqpost Q R) → (∀ a, triple (Q a) (k a) R) → triple P (m ≫= k) R.
Proof.
  intros Hm Hk s HP. specialize (Hm s HP). unfold mbind, M_bind.
  destruct (m s) as [s' [a|e]]; cbn in *; [by apply Hk | done].
Qed.
Lemma triple_mono {A} (P P' : S → Prop) (Q Q' : Result E A → S → Prop) m :
  triple P' m Q' → (∀ s, P s → P' s) → (∀ r s, Q' r s → Q r s) → triple P m Q.
Proof. intros Hm HP HQ s Hs. apply HQ, Hm, HP, Hs. Qed.
Lemma triple_pre {A} (P P' : S → Prop) (Q : Result E A → S → Prop) m :
  triple P' m Q → (∀ s, P s → P' s) → triple P m Q.
Proof. intros. by eapply triple_mono. Qed.
Lemma triple_conj {A} (P P' : S → Prop) (Q Q' : Result E A → S → Prop) m :
  triple P m Q → triple P' m Q' → triple (λ s, P s ∧ P' s) m (λ r s, Q r s ∧ Q' r s).
Proof. intros H1 H2 s [HP HP']. split; [by apply H1 | by apply H2]. Qed.

Lemma triple_ret {A} (Q : Result E A → S → Prop) a : triple (Q (Ok a)) (mret a) Q.
Proof. by intros s. Qed.
Lemma triple_fail {A} (Q : Result E A → S → Prop) e : triple (Q (Err e)) (fail e) Q.
Proof. by intros s. Qed.
Lemma triple_lift {A} (Q : Result E A → S → Prop) r : triple (Q r) (lift r) Q.
Proof. by intros s. Qed.
Lemma triple_modify (Q : Result E unit → S → Prop) g : triple (λ s, Q (Ok tt) (g s)) (modify g) Q.
Proof. by intros s. Qed.
(** Reading the state gives the value read. *)
Lemma triple_gets {A B} P (R : Result E B → S → Prop) (g : S → A) (k : A → M S E B) :
  (∀ a, triple (λ s, P s ∧ a = g s) (k a) R) → triple P (gets g ≫= k) R.
Proof. intros Hk s HP. by apply (Hk (g s)). Qed.

Lemma triple_lift_bind {A B} P (R : Result E B → S → Prop) (r : Result E A) (k : A → M S E B) :
  (∀ a, r = Ok a → triple P (k a) R) → (∀ e s, r = Err e → P s → R (Err e) s) → triple P (lift r ≫= k) R.
Proof. intros Hk He s HP. destruct r as [a|e]; [by apply (Hk a) | by apply He]. Qed.
(** A step whose postcondition does not depend on its result. *)
Lemma triple_seq {A B} P (I : S → Prop) (R : Result E B → S → Prop) (m : M S E A) (k : A → M S E B) :
  triple P m (λ _, I) → (∀ a, triple I (k a) R) → (∀ e s, I s → R (Err e) s) → triple P (m ≫= k) R.
Proof.
  intros Hm Hk He. apply (triple_bind _ (λ _, I)); [|done]. intros s Hs. specialize (Hm s Hs).
  destruct ((m s).2); [done | by apply He].
Qed.

Lemma keeps_bind {A B} I (m : M S E A) (k : A → M S E B) :
  keeps I m → (∀ a, keeps I (k a)) → keeps I (m ≫= k).
Proof. intros Hm Hk. eapply (triple_bind _ (λ _, I)); [|done]. intros s HI. specialize (Hm s HI). by destruct (m s).2. Qed.
Lemma keeps_ret {A} I (a : A) : keeps I (mret a).
Proof. by intros s. Qed.
Lemma keeps_fail {A} I e : keeps I (@fail S E A e).
Proof. by intros s. Qed.
Lemma keeps_lift {A} I (r : Result E A) : keeps I (lift r).
Proof. by intros s. Qed.
Lemma keeps_gets {A} I (g : S → A) : keeps I (gets g).
Proof. by intros s. Qed.
Lemma keeps_modify (I : S → Prop) g : (∀ s, I s → I (g s)) → keeps I (modify g).
Proof. intros Hg s. apply Hg. Qed.
Lemma keeps_for_each {A} I (body : A → M S E unit) l :
  (∀ x, x ∈ l → keeps I (body x)) → keeps I (for_each body l).
Proof.
  induction l as [|x l IH]; intros Hb; [apply keeps_ret|].
  apply keeps_bind; [apply Hb; by constructor | intros _; apply IH; intros; apply Hb; by constructor].
Qed.
Lemma keeps_conj {A} I J (m : M S E A) : keeps I m → keeps J m → keeps (λ s, I s ∧ J s) m.
Proof. apply triple_conj. Qed.
End triple.

Create HintDb keeps.
#[export] Hint Resolve keeps_ret keeps_fail keeps_lift keeps_gets : keeps.

(** Going through the structure of a computation: binds, tests and matches. *)
Ltac keeps_step :=
  match goal with
  | |- keeps _ (_ ≫= _) => apply keeps_bind; [|intros ?]
  | |- keeps _ (if ?b then _ else _) => destruct b
  | |- keeps _ (match ?x with _ => _ end) => destruct x
  | |- keeps _ (let _ := _ in _) => cbv zeta
  end.
Ltac keeps_auto := repeat first [ solve [auto 3 with keeps nocore] | keeps_step ].
