(* ===== verification/DbftMessages.v ===== *)
(** * dBFT messages

    The consensus messages of neo-consensus and their wire formats
    (src/neo-consensus/src/messages/, protocol/, errors/error.rs).  A [u8] is an
    [N] below 256, written and read as one byte. *)
From S2P Require Import Prelude Primitives Order Io.
#[local] Open Scope N_scope.

(** [ChangeViewReason]. *)
Module ChangeViewReason.
Inductive t :=
| Timeout | ChangeAgreement | TxNotFound | TxRejectedByPolicy | TxInvalid | BlockRejectedByPolicy.
#[global] Instance eq_dec : EqDecision t.
Proof. solve_decision. Defined.

Definition to_byte (r : t) : byte :=
  match r with
  | Timeout => x00 | ChangeAgreement => x01 | TxNotFound => x02 | TxRejectedByPolicy => x03
  | TxInvalid => x04 | BlockRejectedByPolicy => x05
  end.
Definition from_byte (b : byte) : option t :=
  match b with
  | x00 => Some Timeout | x01 => Some ChangeAgreement | x02 => Some TxNotFound
  | x03 => Some TxRejectedByPolicy | x04 => Some TxInvalid | x05 => Some BlockRejectedByPolicy
  | _ => None
  end.
End ChangeViewReason.

(** [ConsensusMessageType]. *)
Module MessageType.
Inductive t := ChangeView | PrepareRequest | PrepareResponse | Commit | RecoveryRequest | RecoveryMessage.
#[global] Instance eq_dec : EqDecision t.
Proof. solve_decision. Defined.

Definition to_byte (m : t) : byte :=
  match m with
  | ChangeView => x00 | PrepareRequest => x20 | PrepareResponse => x21 | Commit => x30
  | RecoveryRequest => x40 | RecoveryMessage => x41
  end.
Definition from_byte (b : byte) : option t :=
  match b with
  | x00 => Some ChangeView | x20 => Some PrepareRequest | x21 => Some PrepareResponse
  | x30 => Some Commit | x40 => Some RecoveryRequest | x41 => Some RecoveryMessage
  | _ => None
  end.
End MessageType.

(** [ConsensusError]; messages dropped, variants the crate never raises left
    out. *)
Inductive ConsensusError :=
| InvalidProposal
| SignatureVerificationFailed
| InvalidSignatureLength (expected got : N)
| HashMismatch (expected got : UInt256.t)
| InvalidPrimary (expected got : N)
| InvalidValidatorIndex (i : N)
| DuplicateValidator (i : N)
| NotValidator
| StateError
| WrongBlock (expected got : N)
| AlreadyReceived (i : N)
| ChannelSendError
| IoFailure
| SerializationError
| BincodeError
| InsufficientSignatures (required got : N).

Abbreviation CResult := (Result ConsensusError).

(** [wire.rs]. *)
Definition append_uint256_array (dst : bytes) (hashes : list UInt256.t) : bytes :=
  foldl (λ d h, d ++ UInt256.to_array h) (VarInt.write_var_int (len hashes) dst) hashes.

(** The duplicate check shared by the decoders and validators: [HashSet::insert]
    reports an element seen before. *)
Fixpoint has_duplicate (seen : list UInt256.t) (hashes : list UInt256.t) : bool :=
  match hashes with
  | [] => false
  | h :: rest => if bool_decide (h ∈ seen) then true else has_duplicate (h :: seen) rest
  end.

Definition u16_max : N := 65535.

(** A reader step whose failure becomes [invalid_proposal]. *)
Definition proposal {A} (m : Reader.Rd A) : M MemoryReader ConsensusError A :=
  map_err (λ _, InvalidProposal) m.
Definition read_u8 : M MemoryReader ConsensusError N :=
  b ← proposal Reader.read_byte; mret (Byte.to_N b).

(** Running a reader over a whole buffer, as [MemoryReader::new(data)] does. *)
Definition run_reader {A} (m : M MemoryReader ConsensusError A) (d : bytes) : CResult A :=
  (m (Reader.new d)).2.

(** ** PrepareRequest *)

Record PrepareRequestMessage := mkPrepareRequest {
  pr_block_index : N;
  pr_view_number : N;
  pr_validator_index : N;
  pr_version : N;
  pr_prev_hash : UInt256.t;
  pr_timestamp : N;
  pr_nonce : N;
  pr_transaction_hashes : list UInt256.t;
}.

Module PrepareRequest.
Definition serialize (m : PrepareRequestMessage) : bytes :=
  append_uint256_array
    (to_le_bytes 4 (pr_version m) ++ UInt256.to_array (pr_prev_hash m) ++
     to_le_bytes 8 (pr_timestamp m) ++ to_le_bytes 8 (pr_nonce m))
    (pr_transaction_hashes m).

(** The body fields, read in order. *)
Definition read_body (block_index view_number validator_index : N) :
    M MemoryReader ConsensusError PrepareRequestMessage :=
  version ← proposal Reader.read_uint32;
  if negb (version =? 0) then fail InvalidProposal
  else
    prev_hash ← proposal (deserialize (T:=UInt256.t));
    timestamp ← proposal Reader.read_uint64;
    nonce ← proposal Reader.read_uint64;
    transaction_hashes ← proposal (SerializeHelper.deserialize_array (T:=UInt256.t) u16_max);
    if has_duplicate [] transaction_hashes then fail InvalidProposal
    else mret (mkPrepareRequest block_index view_number validator_index version prev_hash timestamp
                 nonce transaction_hashes).

Definition deserialize_body (d : bytes) (block_index view_number validator_index : N) :
    CResult PrepareRequestMessage :=
  run_reader (read_body block_index view_number validator_index) d.

(** With the common header, as embedded in a recovery message. *)
Definition deserialize_from_reader : M MemoryReader ConsensusError PrepareRequestMessage :=
  ty ← proposal Reader.read_byte;
  if negb (bool_decide (ty = MessageType.to_byte MessageType.PrepareRequest)) then fail InvalidProposal
  else
    block_index ← proposal Reader.read_uint32;
    validator_index ← read_u8;
    view_number ← read_u8;
    read_body block_index view_number validator_index.

Definition validate (m : PrepareRequestMessage) (expected_primary max_transactions_per_block : N) :
    CResult unit :=
  if negb (pr_validator_index m =? expected_primary)
  then Err (InvalidPrimary expected_primary (pr_validator_index m))
  else if negb (pr_version m =? 0) then Err InvalidProposal
  else if max_transactions_per_block <? len (pr_transaction_hashes m) then Err InvalidProposal
  else if has_duplicate [] (pr_transaction_hashes m) then Err InvalidProposal
  else Ok tt.
End PrepareRequest.

(** ** PrepareResponse *)

Record PrepareResponseMessage := mkPrepareResponse {
  ps_block_index : N;
  ps_view_number : N;
  ps_validator_index : N;
  ps_preparation_hash : UInt256.t;
}.

Module PrepareResponse.
Definition serialize (m : PrepareResponseMessage) : bytes := UInt256.to_array (ps_preparation_hash m).

Definition deserialize_body (d : bytes) (block_index view_number validator_index : N) :
    CResult PrepareResponseMessage :=
  if len d <? 32 then Err InvalidProposal
  else match UInt256.from_bytes (slice d 0 32) with
       | Ok h => Ok (mkPrepareResponse block_index view_number validator_index h)
       | Err _ => Err InvalidProposal
       end.

Definition validate (m : PrepareResponseMessage) (expected_hash : UInt256.t) : CResult unit :=
  if bool_decide (ps_preparation_hash m = expected_hash) then Ok tt
  else Err (HashMismatch expected_hash (ps_preparation_hash m)).
End PrepareResponse.

(** ** Commit *)

Record CommitMessage := mkCommit {
  cm_block_index : N;
  cm_view_number : N;
  cm_validator_index : N;
  cm_signature : bytes;
}.

Module Commit.
Definition serialize (m : CommitMessage) : bytes := cm_signature m.

Definition validate (m : CommitMessage) : CResult unit :=
  if negb (len (cm_signature m) =? 64) then Err (InvalidSignatureLength 64 (len (cm_signature m)))
  else Ok tt.
End Commit.

(** ** ChangeView *)

Record ChangeViewMessage := mkChangeView {
  cv_block_index : N;
  cv_view_number : N;
  cv_validator_index : N;
  cv_timestamp : N;
  cv_reason : ChangeViewReason.t;
  cv_rejected_hashes : list UInt256.t;
}.

Definition reason_carries_rejected_hashes (reason : ChangeViewReason.t) : bool :=
  match reason with
  | ChangeViewReason.TxRejectedByPolicy | ChangeViewReason.TxInvalid => true
  | _ => false
  end.

Module ChangeView.
(** [view_number.checked_add(1)]. *)
Definition new_view_number (m : ChangeViewMessage) : CResult N :=
  if 255 <? cv_view_number m + 1 then Err InvalidProposal else Ok (cv_view_number m + 1).

Definition serialize (m : ChangeViewMessage) : bytes :=
  let bs := to_le_bytes 8 (cv_timestamp m) ++ [ChangeViewReason.to_byte (cv_reason m)] in
  if reason_carries_rejected_hashes (cv_reason m) then append_uint256_array bs (cv_rejected_hashes m)
  else bs.

Definition read_body (block_index view_number validator_index : N) :
    M MemoryReader ConsensusError ChangeViewMessage :=
  timestamp ← proposal Reader.read_uint64;
  reason_byte ← proposal Reader.read_byte;
  let reason := default ChangeViewReason.Timeout (ChangeViewReason.from_byte reason_byte) in
  rejected_hashes ←
    (if reason_carries_rejected_hashes reason
     then proposal (SerializeHelper.deserialize_array (T:=UInt256.t) u16_max) else mret []);
  mret (mkChangeView block_index view_number validator_index timestamp reason rejected_hashes).

Definition deserialize (d : bytes) (block_index view_number validator_index : N) :
    CResult ChangeViewMessage :=
  run_reader (read_body block_index view_number validator_index) d.

Definition validate (m : ChangeViewMessage) : CResult unit :=
  new_view ← new_view_number m;
  if new_view <=? cv_view_number m then Err InvalidProposal else Ok tt.
End ChangeView.

(** ** Recovery *)

Definition MAX_INVOCATION_SCRIPT : N := 1024.

Record RecoveryRequestMessage := mkRecoveryRequest {
  rr_block_index : N;
  rr_view_number : N;
  rr_validator_index : N;
  rr_timestamp : N;
}.
Definition RecoveryRequest_serialize (m : RecoveryRequestMessage) : bytes :=
  to_le_bytes 8 (rr_timestamp m).

Record ChangeViewPayloadCompact := mkChangeViewCompact {
  cvc_validator_index : N;
  cvc_original_view_number : N;
  cvc_timestamp : N;
  cvc_invocation_script : bytes;
}.
Record PreparationPayloadCompact := mkPreparationCompact {
  pc_validator_index : N;
  pc_invocation_script : bytes;
}.
Record CommitPayloadCompact := mkCommitCompact {
  cc_view_number : N;
  cc_validator_index : N;
  cc_signature : bytes;
  cc_invocation_script : bytes;
}.

Definition io_u8 : Reader.Rd N := b ← Reader.read_byte; mret (Byte.to_N b).

#[export] Instance ChangeViewCompact_serializable : Serializable ChangeViewPayloadCompact := {
  deserialize :=
    validator_index ← io_u8;
    original_view_number ← io_u8;
    timestamp ← Reader.read_uint64;
    invocation_script ← Reader.read_var_bytes MAX_INVOCATION_SCRIPT;
    mret (mkChangeViewCompact validator_index original_view_number timestamp invocation_script);
  serialize p :=
    _ ← Writer.write_u8 (as_u8 (cvc_validator_index p));
    _ ← Writer.write_u8 (as_u8 (cvc_original_view_number p));
    _ ← Writer.write_u64 (cvc_timestamp p);
    Writer.write_var_bytes (cvc_invocation_script p);
  ser_size p := 1 + 1 + 8 + SerializeHelper.get_var_size_bytes (cvc_invocation_script p);
}.

#[export] Instance PreparationCompact_serializable : Serializable PreparationPayloadCompact := {
  deserialize :=
    validator_index ← io_u8;
    invocation_script ← Reader.read_var_bytes MAX_INVOCATION_SCRIPT;
    mret (mkPreparationCompact validator_index invocation_script);
  serialize p :=
    _ ← Writer.write_u8 (as_u8 (pc_validator_index p));
    Writer.write_var_bytes (pc_invocation_script p);
  ser_size p := 1 + SerializeHelper.get_var_size_bytes (pc_invocation_script p);
}.

#[export] Instance CommitCompact_serializable : Serializable CommitPayloadCompact := {
  deserialize :=
    view_number ← io_u8;
    validator_index ← io_u8;
    signature ← Reader.read_bytes 64;
    invocation_script ← Reader.read_var_bytes MAX_INVOCATION_SCRIPT;
    mret (mkCommitCompact view_number validator_index signature invocation_script);
  serialize p :=
    _ ← Writer.write_u8 (as_u8 (cc_view_number p));
    _ ← Writer.write_u8 (as_u8 (cc_validator_index p));
    if negb (len (cc_signature p) =? 64) then fail InvalidData
    else
      _ ← Writer.write_bytes (cc_signature p);
      Writer.write_var_bytes (cc_invocation_script p);
  ser_size p := 1 + 1 + 64 + SerializeHelper.get_var_size_bytes (cc_invocation_script p);
}.

Record RecoveryMessage := mkRecovery {
  rm_block_index : N;
  rm_view_number : N;
  rm_validator_index : N;
  rm_change_view_messages : list ChangeViewPayloadCompact;
  rm_prepare_request_message : option PrepareRequestMessage;
  rm_preparation_hash : option UInt256.t;
  rm_preparation_messages : list PreparationPayloadCompact;
  rm_commit_messages : list CommitPayloadCompact;
}.

(** ** The envelope *)

Record ConsensusPayload := mkPayload {
  cp_network : N;
  cp_block_index : N;
  cp_validator_index : N;
  cp_view_number : N;
  cp_message_type : MessageType.t;
  cp_data : bytes;
  cp_witness : bytes;
}.

Module Payload.
Definition consensus_message_bytes (message_type : MessageType.t) (block_index validator_index view_number : N)
    (body : bytes) : bytes :=
  [MessageType.to_byte message_type] ++ to_le_bytes 4 block_index ++ [as_u8 validator_index] ++
  [as_u8 view_number] ++ body.

Definition new (network block_index validator_index view_number : N) (message_type : MessageType.t)
    (d : bytes) : ConsensusPayload :=
  mkPayload network block_index validator_index view_number message_type d [].

Definition to_message_bytes (p : ConsensusPayload) : bytes :=
  consensus_message_bytes (cp_message_type p) (cp_block_index p) (cp_validator_index p)
    (cp_view_number p) (cp_data p).

Definition from_message_bytes (network : N) (bs witness : bytes) : CResult ConsensusPayload :=
  if len bs <? 1 + 4 + 1 + 1 then Err InvalidProposal
  else
    match MessageType.from_byte (default x00 (bs !! 0%nat)) with
    | None => Err InvalidProposal
    | Some message_type =>
        Ok (mkPayload network (from_le_bytes (slice bs 1 4)) (Byte.to_N (default x00 (bs !! 5%nat)))
              (Byte.to_N (default x00 (bs !! 6%nat))) message_type (drop 7 bs) witness)
    end.

Definition set_witness (w : bytes) (p : ConsensusPayload) : ConsensusPayload :=
  mkPayload (cp_network p) (cp_block_index p) (cp_validator_index p) (cp_view_number p)
    (cp_message_type p) (cp_data p) w.
End Payload.

Module Recovery.
(** [sort_by_key(|p| p.validator_index)], stable. *)
Definition by_index {A} (index : A → N) (x y : A) : Prop := index x ≤ index y.
#[global] Instance by_index_dec {A} (index : A → N) : RelDecision (by_index index).
Proof. intros x y. unfold by_index. apply _. Defined.
Definition sort_by_index {A} (index : A → N) (l : list A) : list A := merge_sort (by_index index) l.

Definition new (block_index view_number validator_index : N) : RecoveryMessage :=
  mkRecovery block_index view_number validator_index [] None None [] [].

Definition write (m : RecoveryMessage) : Writer.Wr :=
  _ ← SerializeHelper.serialize_array (sort_by_index cvc_validator_index (rm_change_view_messages m));
  _ ← Writer.write_bool (bool_decide (is_Some (rm_prepare_request_message m)));
  _ ← match rm_prepare_request_message m with
      | Some req =>
          Writer.write_bytes
            (Payload.consensus_message_bytes MessageType.PrepareRequest (pr_block_index req)
               (pr_validator_index req) (pr_view_number req) (PrepareRequest.serialize req))
      | None =>
          match rm_preparation_hash m with
          | Some hash => Writer.write_var_bytes (UInt256.to_array hash)
          | None => Writer.write_var_int 0
          end
      end;
  _ ← SerializeHelper.serialize_array (sort_by_index pc_validator_index (rm_preparation_messages m));
  SerializeHelper.serialize_array (sort_by_index cc_validator_index (rm_commit_messages m)).

Definition serialize (m : RecoveryMessage) : CResult bytes :=
  match write m Writer.new with
  | (w, Ok _) => Ok (wbuffer w)
  | (_, Err _) => Err SerializationError
  end.

Definition u8_max : N := 255.

(** The embedded PrepareRequest, or the hash standing for it. *)
Definition read_preparation (has_prepare_request : bool) :
    M MemoryReader ConsensusError (option PrepareRequestMessage * option UInt256.t) :=
  if has_prepare_request then
    req ← PrepareRequest.deserialize_from_reader; mret (Some req, None)
  else
    length ← proposal (Reader.read_var_int 32);
    if length =? 0 then mret (None, None)
    else if length =? 32 then
      hash ← proposal (deserialize (T:=UInt256.t)); mret (None, Some hash)
    else fail InvalidProposal.

Definition read (block_index view_number validator_index : N) : M MemoryReader ConsensusError RecoveryMessage :=
  change_views ← proposal (SerializeHelper.deserialize_array (T:=ChangeViewPayloadCompact) u8_max);
  has_prepare_request ← proposal Reader.read_boolean;
  '(prepare_request, preparation_hash) ← read_preparation has_prepare_request;
  preparations ← proposal (SerializeHelper.deserialize_array (T:=PreparationPayloadCompact) u8_max);
  commits ← proposal (SerializeHelper.deserialize_array (T:=CommitPayloadCompact) u8_max);
  mret (mkRecovery block_index view_number validator_index change_views prepare_request
          preparation_hash preparations commits).

Definition deserialize (d : bytes) (block_index view_number validator_index : N) : CResult RecoveryMessage :=
  run_reader (read block_index view_number validator_index) d.

(** [validate_compact_validators]. *)
Fixpoint validate_indices (seen : list N) (indices : list N) (validator_count : N) : CResult unit :=
  match indices with
  | [] => Ok tt
  | i :: rest =>
      if validator_count <=? i then Err (InvalidValidatorIndex i)
      else if bool_decide (i ∈ seen) then Err (DuplicateValidator i)
      else validate_indices (i :: seen) rest validator_count
  end.
Definition validate_compact_validators (indices : list N) (validator_count : N) : CResult unit :=
  validate_indices [] indices validator_count.

Definition validate (m : RecoveryMessage) (validator_count max_transactions_per_block : N) : CResult unit :=
  _ ← validate_compact_validators (cvc_validator_index <$> rm_change_view_messages m) validator_count;
  _ ← validate_compact_validators (pc_validator_index <$> rm_preparation_messages m) validator_count;
  _ ← validate_compact_validators (cc_validator_index <$> rm_commit_messages m) validator_count;
  match rm_prepare_request_message m with
  | None => Ok tt
  | Some request =>
      if validator_count <=? pr_validator_index request
      then Err (InvalidValidatorIndex (pr_validator_index request))
      else if max_transactions_per_block <? len (pr_transaction_hashes request) then Err InvalidProposal
      else if has_duplicate [] (pr_transaction_hashes request) then Err InvalidProposal
      else Ok tt
  end.
End Recovery.
