(* ===== verification/DbftContext.v ===== *)
(** * The dBFT context

    The consensus state of one block round, [ConsensusContext], and the
    operations of src/neo-consensus/src/context/: quorums and roles, view and
    block resets, liveness accounting, timers, recorded payloads, proposal
    transactions and block policy, replay protection and persistence.

    Hash maps are [gmap]s.  Where the code walks one and the order can be seen,
    the order is that of [iter] ([HashOrder]): some permutation of the entries,
    as Rust promises. *)
From S2P Require Import Prelude Primitives Order Hashing Io EcPoint OpCode Instruction ScriptBuilder.
From S2P Require Import RecordUpdate DbftMessages.
#[local] Open Scope N_scope.
#[local] Open Scope update_scope.

(** The bounded cache of seen message hashes is the lru crate's [LruCache]:
    what the code relies on. *)
Class MessageCache := {
  cache : Type;
  cache_new : N → cache;
  cache_contains : UInt256.t → cache → bool;
  cache_put : UInt256.t → cache → cache;
  cache_clear : cache → cache;
  cache_new_empty : ∀ capacity h, cache_contains h (cache_new capacity) = false;
  cache_clear_empty : ∀ c h, cache_contains h (cache_clear c) = false;
  cache_put_in : ∀ c h, cache_contains h (cache_put h c) = true;
  cache_put_only : ∀ c h h', cache_contains h' (cache_put h c) = true → h' = h ∨ cache_contains h' c = true;
}.

(** [policy.rs]. *)
Definition DEFAULT_BLOCK_TIME_MS : N := 15000.
Definition MAX_VALIDATORS : N := 21.
Definition DEFAULT_MAX_BLOCK_SIZE : N := 2097152.
Definition DEFAULT_MAX_BLOCK_SYSTEM_FEE : Z := 150000000000.
Definition MAX_MESSAGE_CACHE_SIZE : N := 10000.
Definition effective_block_time (block_time_ms : option N) : N :=
  match block_time_ms with
  | Some t => if 0 <? t then t else DEFAULT_BLOCK_TIME_MS
  | None => DEFAULT_BLOCK_TIME_MS
  end.

Inductive ConsensusState := Initial | Primary | Backup | ViewChanging | Committed.
#[export] Instance ConsensusState_eq_dec : EqDecision ConsensusState.
Proof. solve_decision. Defined.

Record ValidatorInfo := mkValidator {
  v_index : N;
  v_public_key : ECPoint;
  v_script_hash : UInt160.t;
}.
#[export] Instance ValidatorInfo_eq_dec : EqDecision ValidatorInfo.
Proof. solve_decision. Defined.

Record TxMetrics := mkMetrics { tm_size : N; tm_system_fee : Z }.

(** Machine arithmetic of the release profile. *)
Definition u8_add (a b : N) : N := (a + b) mod 256.
Definition u8_saturating_add (a b : N) : N := N.min (a + b) 255.
Definition u64_add (a b : N) : N := (a + b) mod 2 ^ 64.
Definition u64_shl (a b : N) : N := N.shiftl a b mod 2 ^ 64.
Definition u64_saturating_add (a b : N) : N := N.min (a + b) u64_max.
Definition u64_saturating_mul (a b : N) : N := N.min (a * b) u64_max.
Definition i64_saturating_add (a b : Z) : Z := Z.max (- 2 ^ 63) (Z.min (2 ^ 63 - 1) (a + b)).

Section context.
Context `{MessageCache}.

Record ConsensusContext := mkContext {
  block_index : N;
  view_number : N;
  validators : list ValidatorInfo;
  my_index : option N;
  state : ConsensusState;
  view_start_time : N;
  timer_extension : N;
  expected_block_time : N;
  version : N;
  prev_hash : UInt256.t;
  previous_block_timestamp : N;
  next_consensus : UInt160.t;
  proposed_block_hash : option UInt256.t;
  preparation_hash : option UInt256.t;
  proposed_timestamp : N;
  proposed_tx_hashes : list UInt256.t;
  available_tx_hashes : gset UInt256.t;
  available_tx_metrics : gmap UInt256.t TxMetrics;
  max_block_size : N;
  max_block_system_fee : Z;
  nonce : N;
  prepare_request_received : bool;
  transaction_request_sent : bool;
  transaction_request_sent_at : option N;
  commit_recovery_sent_at : option N;
  change_view_retry_at : option N;
  prepare_responses : gmap N bytes;
  prepare_response_hashes : gmap N UInt256.t;
  commits : gmap N bytes;
  commit_view_numbers : gmap N N;
  change_views : gmap N (N * ChangeViewReason.t);
  invalid_transactions : gmap UInt256.t (gset N);
  prepare_request_invocation : option bytes;
  change_view_invocations : gmap N bytes;
  commit_invocations : gmap N bytes;
  last_change_view_timestamps : gmap N N;
  last_seen_messages : gmap N N;
  seen_message_hashes : cache;
}.

#[export] Instance ConsensusContext_updatable : Updatable ConsensusContext := λ c,
  mkContext
    (block_index c) (view_number c) (validators c) (my_index c) (state c) (view_start_time
    c) (timer_extension c) (expected_block_time c) (version c) (prev_hash c)
    (previous_block_timestamp c) (next_consensus c) (proposed_block_hash c)
    (preparation_hash c) (proposed_timestamp c) (proposed_tx_hashes c) (available_tx_hashes
    c) (available_tx_metrics c) (max_block_size c) (max_block_system_fee c) (nonce c)
    (prepare_request_received c) (transaction_request_sent c) (transaction_request_sent_at
    c) (commit_recovery_sent_at c) (change_view_retry_at c) (prepare_responses c)
    (prepare_response_hashes c) (commits c) (commit_view_numbers c) (change_views c)
    (invalid_transactions c) (prepare_request_invocation c) (change_view_invocations c)
    (commit_invocations c) (last_change_view_timestamps c) (last_seen_messages c)
    (seen_message_hashes c).
#[export] Instance set_block_index : Setter block_index := ltac:(solve_setter).
#[export] Instance set_view_number : Setter view_number := ltac:(solve_setter).
#[export] Instance set_validators : Setter validators := ltac:(solve_setter).
#[export] Instance set_my_index : Setter my_index := ltac:(solve_setter).
#[export] Instance set_state : Setter state := ltac:(solve_setter).
#[export] Instance set_view_start_time : Setter view_start_time := ltac:(solve_setter).
#[export] Instance set_timer_extension : Setter timer_extension := ltac:(solve_setter).
#[export] Instance set_expected_block_time : Setter expected_block_time := ltac:(solve_setter).
#[export] Instance set_version : Setter version := ltac:(solve_setter).
#[export] Instance set_prev_hash : Setter prev_hash := ltac:(solve_setter).
#[export] Instance set_previous_block_timestamp : Setter previous_block_timestamp := ltac:(solve_setter).
#[export] Instance set_next_consensus : Setter next_consensus := ltac:(solve_setter).
#[export] Instance set_proposed_block_hash : Setter proposed_block_hash := ltac:(solve_setter).
#[export] Instance set_preparation_hash : Setter preparation_hash := ltac:(solve_setter).
#[export] Instance set_proposed_timestamp : Setter proposed_timestamp := ltac:(solve_setter).
#[export] Instance set_proposed_tx_hashes : Setter proposed_tx_hashes := ltac:(solve_setter).
#[export] Instance set_available_tx_hashes : Setter available_tx_hashes := ltac:(solve_setter).
#[export] Instance set_available_tx_metrics : Setter available_tx_metrics := ltac:(solve_setter).
#[export] Instance set_max_block_size : Setter max_block_size := ltac:(solve_setter).
#[export] Instance set_max_block_system_fee : Setter max_block_system_fee := ltac:(solve_setter).
#[export] Instance set_nonce : Setter nonce := ltac:(solve_setter).
#[export] Instance set_prepare_request_received : Setter prepare_request_received := ltac:(solve_setter).
#[export] Instance set_transaction_request_sent : Setter transaction_request_sent := ltac:(solve_setter).
#[export] Instance set_transaction_request_sent_at : Setter transaction_request_sent_at := ltac:(solve_setter).
#[export] Instance set_commit_recovery_sent_at : Setter commit_recovery_sent_at := ltac:(solve_setter).
#[export] Instance set_change_view_retry_at : Setter change_view_retry_at := ltac:(solve_setter).
#[export] Instance set_prepare_responses : Setter prepare_responses := ltac:(solve_setter).
#[export] Instance set_prepare_response_hashes : Setter prepare_response_hashes := ltac:(solve_setter).
#[export] Instance set_commits : Setter commits := ltac:(solve_setter).
#[export] Instance set_commit_view_numbers : Setter commit_view_numbers := ltac:(solve_setter).
#[export] Instance set_change_views : Setter change_views := ltac:(solve_setter).
#[export] Instance set_invalid_transactions : Setter invalid_transactions := ltac:(solve_setter).
#[export] Instance set_prepare_request_invocation : Setter prepare_request_invocation := ltac:(solve_setter).
#[export] Instance set_change_view_invocations : Setter change_view_invocations := ltac:(solve_setter).
#[export] Instance set_commit_invocations : Setter commit_invocations := ltac:(solve_setter).
#[export] Instance set_last_change_view_timestamps : Setter last_change_view_timestamps := ltac:(solve_setter).
#[export] Instance set_last_seen_messages : Setter last_seen_messages := ltac:(solve_setter).
#[export] Instance set_seen_message_hashes : Setter seen_message_hashes := ltac:(solve_setter).

Implicit Types c : ConsensusContext.

(** ** Quorums and roles (quorum.rs) *)

Definition validator_count c : N := len (validators c).
Definition f c : N := (validator_count c - 1) / 3.
Definition m c : N := validator_count c - f c.

Definition record_invalid_transactions (validator_index : N) (hashes : list UInt256.t) c : ConsensusContext :=
  c <| invalid_transactions ::= λ reports,
    foldl (λ r h, <[h := {[validator_index]} ∪ default ∅ (r !! h)]> r) reports hashes |>.

Definition invalid_tx_hashes_over_f `{HashOrder} c : list UInt256.t :=
  sort_by_key UInt256.to_array
    (fst <$> filter (λ e, f c < N.of_nat (size e.2)) (iter (invalid_transactions c))).

Definition primary_index c : N :=
  if validator_count c =? 0 then 0
  else Z.to_N ((Z.of_N (block_index c) - Z.of_N (view_number c)) `mod` Z.of_N (validator_count c)) mod 256.

Definition is_primary c : bool := bool_decide (my_index c = Some (primary_index c)).
Definition is_backup c : bool :=
  match my_index c with Some idx => negb (idx =? primary_index c) | None => false end.

Definition has_enough_prepare_responses c : bool :=
  let count := (if prepare_request_received c then 1 else 0) + N.of_nat (size (prepare_responses c)) in
  m c <=? count.

(** The commits that count for the current view. *)
Definition in_current_view c (idx : N) : bool :=
  default (view_number c) (commit_view_numbers c !! idx) =? view_number c.
Definition has_enough_commits c : bool :=
  m c <=? N.of_nat (size (filter (λ e, in_current_view c e.1 = true) (commits c))).

Definition has_enough_change_views (new_view : N) c : bool :=
  m c <=? N.of_nat (size (filter (λ e, new_view ≤ e.2.1) (change_views c))).

(** ** Liveness (lifecycle/liveness.rs) *)

Definition update_last_seen_message (validator_index index : N) c : ConsensusContext :=
  c <| last_seen_messages ::= <[validator_index := index]> |>.

Definition count_committed c : N := N.of_nat (size (commits c)).

(** No message seen from the validator, or none recent enough. *)
Definition lost c (v : ValidatorInfo) : bool :=
  match last_seen_messages c !! v_index v with
  | None => true
  | Some last_block => last_block <? block_index c - 1
  end.
Definition count_failed c : N :=
  if decide (last_seen_messages c = ∅) then 0
  else len (filter (λ v, lost c v = true) (validators c)).

Definition more_than_f_nodes_committed_or_lost c : bool := f c <? count_committed c + count_failed c.

Definition view_changing c : bool :=
  match my_index c with
  | None => false
  | Some idx =>
      match change_views c !! idx with
      | Some (new_view, _) => view_number c <? new_view
      | None => false
      end
  end.

Definition not_accepting_payloads_due_to_view_changing c : bool :=
  view_changing c && negb (more_than_f_nodes_committed_or_lost c).

(** ** Timers (lifecycle/timer.rs) *)

Definition base_block_time c : N :=
  if 0 <? expected_block_time c then expected_block_time c else DEFAULT_BLOCK_TIME_MS.
Definition get_timeout c : N :=
  let shift := N.land (u8_add (view_number c) 1) 0x1F in
  u64_shl (base_block_time c) shift.
Definition prepare_request_delay c : N := base_block_time c.
Definition prepare_request_follow_up_delay c : N :=
  if view_number c =? 0 then get_timeout c - base_block_time c else get_timeout c.
Definition primary_timeout_delay c : N :=
  u64_saturating_add (prepare_request_delay c) (prepare_request_follow_up_delay c).
Definition commit_recovery_resend_delay c : N := u64_shl (base_block_time c) 1.
Definition change_view_retry_delay c : N :=
  let expected_view := u8_saturating_add (view_number c) 1 in
  let shift := N.land (u8_add expected_view 1) 0x1F in
  u64_shl (base_block_time c) shift.
Definition is_timed_out (current_time : N) c : bool :=
  u64_add (u64_add (view_start_time c) (get_timeout c)) (timer_extension c) <=? current_time.
Definition commit_sent c : bool :=
  match my_index c with
  | Some index =>
      bool_decide (is_Some (commits c !! index)) &&
      bool_decide (commit_view_numbers c !! index = Some (view_number c))
  | None => false
  end.
Definition extend_timer_by_factor (max_delay_in_block_times : N) c : ConsensusContext :=
  if bool_decide (my_index c = None) || view_changing c || commit_sent c then c
  else
    let m := N.max (m c) 1 in
    let extension := u64_saturating_mul max_delay_in_block_times (base_block_time c) / m in
    c <| timer_extension := N.max (timer_extension c) extension |>.

(** ** Construction and resets (lifecycle/construction.rs, round.rs) *)

Definition new_seen_message_cache : cache := cache_new MAX_MESSAGE_CACHE_SIZE.

Definition new (block_index : N) (validators : list ValidatorInfo) (my_index : option N)
    (block_time_ms : option N) : ConsensusContext :=
  {| block_index := block_index; view_number := 0; validators := validators; my_index := my_index;
     state := Initial; view_start_time := 0; timer_extension := 0;
     expected_block_time := effective_block_time block_time_ms; version := 0;
     prev_hash := UInt256.zero; previous_block_timestamp := 0; next_consensus := UInt160.zero;
     proposed_block_hash := None; preparation_hash := None; proposed_timestamp := 0;
     proposed_tx_hashes := []; available_tx_hashes := ∅; available_tx_metrics := ∅;
     max_block_size := DEFAULT_MAX_BLOCK_SIZE; max_block_system_fee := DEFAULT_MAX_BLOCK_SYSTEM_FEE;
     nonce := 0; prepare_request_received := false; transaction_request_sent := false;
     transaction_request_sent_at := None; commit_recovery_sent_at := None;
     change_view_retry_at := None; prepare_responses := ∅; prepare_response_hashes := ∅;
     commits := ∅; commit_view_numbers := ∅; change_views := ∅; invalid_transactions := ∅;
     prepare_request_invocation := None; change_view_invocations := ∅; commit_invocations := ∅;
     last_change_view_timestamps := ∅; last_seen_messages := ∅;
     seen_message_hashes := new_seen_message_cache |}.

(** The role a reset assigns. *)
Definition set_role c : ConsensusContext :=
  c <| state := if is_primary c then Primary else Backup |>.

(** The proposal fields both resets clear. *)
Definition clear_proposal c : ConsensusContext :=
  c <| proposed_block_hash := None |> <| preparation_hash := None |> <| proposed_timestamp := 0 |>
    <| proposed_tx_hashes := [] |> <| available_tx_hashes := ∅ |> <| available_tx_metrics := ∅ |>
    <| nonce := 0 |> <| prepare_request_received := false |> <| transaction_request_sent := false |>
    <| transaction_request_sent_at := None |> <| commit_recovery_sent_at := None |>
    <| change_view_retry_at := None |> <| prepare_responses := ∅ |>
    <| prepare_response_hashes := ∅ |> <| prepare_request_invocation := None |>.

Definition reset_for_new_view (new_view timestamp : N) c : ConsensusContext :=
  clear_proposal
    (set_role (c <| view_number := new_view |> <| view_start_time := timestamp |> <| timer_extension := 0 |>)).

(** Liveness records carried into a new height. *)
Definition reseed_last_seen (index : N) c : gmap N N :=
  let previous := last_seen_messages c in
  let seeded := foldl (λ seen v, <[v_index v := default (index - 1) (previous !! v_index v)]> seen)
                  ∅ (validators c) in
  match my_index c with Some i => <[i := index]> seeded | None => seeded end.

Definition reset_for_new_block (index timestamp : N) c : ConsensusContext :=
  let c := clear_proposal
    (set_role (c <| block_index := index |> <| view_number := 0 |> <| view_start_time := timestamp |>
                 <| timer_extension := 0 |>)) in
  c <| version := 0 |> <| prev_hash := UInt256.zero |> <| previous_block_timestamp := 0 |>
    <| next_consensus := UInt160.zero |> <| commits := ∅ |> <| commit_view_numbers := ∅ |>
    <| change_views := ∅ |> <| invalid_transactions := ∅ |> <| change_view_invocations := ∅ |>
    <| commit_invocations := ∅ |> <| last_change_view_timestamps := ∅ |>
    <| last_seen_messages := reseed_last_seen index c |>
    <| seen_message_hashes ::= cache_clear |>.

(** ** Recorded payloads (signatures.rs) *)

Definition add_prepare_response (validator_index : N) (invocation_script : bytes)
    (hash : option UInt256.t) : M ConsensusContext ConsensusError unit := λ c,
  if validator_count c <=? validator_index then (c, Err (InvalidValidatorIndex validator_index))
  else
    let c := c <| prepare_responses ::= <[validator_index := invocation_script]> |> in
    (match hash with
     | Some h => c <| prepare_response_hashes ::= <[validator_index := h]> |>
     | None => c
     end, Ok tt).

Definition add_commit (validator_index view : N) (signature : bytes) :
    M ConsensusContext ConsensusError unit := λ c,
  if validator_count c <=? validator_index then (c, Err (InvalidValidatorIndex validator_index))
  else (c <| commits ::= <[validator_index := signature]> |>
          <| commit_view_numbers ::= <[validator_index := view]> |>, Ok tt).

Definition add_change_view (validator_index new_view : N) (reason : ChangeViewReason.t) (timestamp : N) :
    M ConsensusContext ConsensusError unit := λ c,
  if validator_count c <=? validator_index then (c, Err (InvalidValidatorIndex validator_index))
  else (c <| change_views ::= <[validator_index := (new_view, reason)]> |>
          <| last_change_view_timestamps ::= <[validator_index := timestamp]> |>, Ok tt).

Definition collect_commit_signatures `{HashOrder} c : list (N * bytes) :=
  filter (λ e, in_current_view c e.1 = true) (iter (commits c)).

(** ** Proposal transactions and block policy (transactions.rs) *)

Definition mark_available_transactions (tx_hashes : list UInt256.t) c : ConsensusContext :=
  c <| available_tx_hashes :=
    foldl (λ s h, if bool_decide (h ∈ proposed_tx_hashes c) then {[h]} ∪ s else s) ∅ tx_hashes |>.

Definition mark_transaction_available (hash : UInt256.t) c : ConsensusContext * bool :=
  if negb (bool_decide (hash ∈ proposed_tx_hashes c)) then (c, false)
  else (c <| available_tx_hashes ::= union {[hash]} |>, negb (bool_decide (hash ∈ available_tx_hashes c))).

Definition is_proposed_transaction (hash : UInt256.t) c : bool :=
  bool_decide (hash ∈ proposed_tx_hashes c).
Definition has_available_transaction (hash : UInt256.t) c : bool :=
  bool_decide (hash ∈ available_tx_hashes c).
Definition has_missing_proposed_transactions c : bool :=
  negb (bool_decide (proposed_tx_hashes c = [])) &&
  (N.of_nat (size (available_tx_hashes c)) <? len (proposed_tx_hashes c)).

Definition set_max_block_policy (size : N) (fee : Z) c : ConsensusContext :=
  c <| max_block_size := size |> <| max_block_system_fee := fee |>.
Definition record_transaction_metrics (hash : UInt256.t) (metrics : TxMetrics) c : ConsensusContext :=
  if bool_decide (hash ∈ proposed_tx_hashes c) then c <| available_tx_metrics ::= <[hash := metrics]> |>
  else c.

Section policy.
Context `{Crypto, Curves, HashOrder}.

(** [Witness::size] (src/neo-payloads/src/signing/witness.rs). *)
Definition witness_size (invocation verification : bytes) : N :=
  SerializeHelper.get_var_size_bytes invocation + SerializeHelper.get_var_size_bytes verification.

Definition unchecked_multisig_verification_script (required : N) (keys : list ECPoint) : bytes :=
  let script := Builder.emit_push_int (Z.of_N required) [] in
  let script := foldl (λ s k, Builder.emit_push (data k) s) script (RedeemScript.sort_keys keys) in
  let script := Builder.emit_push_int (Z.of_N (len keys)) script in
  match Builder.emit_syscall (name "System.Crypto.CheckMultisig") script with
  | Ok script => script
  | Err _ => []
  end.

(** [multisig_verification_script] (service/helpers/block.rs) and
    [expected_witness_verification_script]: the same code over the keys. *)
Definition multisig_verification_script (keys : list ECPoint) : bytes :=
  let required := RedeemScript.bft_threshold (len keys) in
  match RedeemScript.multi_sig_redeem_script_from_points required keys with
  | Ok script => script
  | Err _ => unchecked_multisig_verification_script required keys
  end.
Definition expected_witness_verification_script (vs : list ValidatorInfo) : bytes :=
  multisig_verification_script (v_public_key <$> vs).

Definition expected_block_size_without_transactions (expected_transactions : N) c : N :=
  let required := RedeemScript.bft_threshold (validator_count c) in
  let verification := expected_witness_verification_script (validators c) in
  let invocation := Nat.iter (N.to_nat required) (Builder.emit_push (replicate 64 x00)) [] in
  4 + 32 + 32 + 8 + 8 + 4 + 1 + 20 + 1 + witness_size invocation verification +
  SerializeHelper.get_var_size expected_transactions.

Definition expected_block_size c : N :=
  let tx_count := N.of_nat (size (available_tx_metrics c)) in
  let base := expected_block_size_without_transactions tx_count c in
  let tx_bytes := foldr N.add 0 (tm_size ∘ snd <$> iter (available_tx_metrics c)) mod 2 ^ 64 in
  usize_saturating_add base tx_bytes.

Definition expected_block_system_fee c : Z :=
  foldl i64_saturating_add 0%Z (tm_system_fee ∘ snd <$> iter (available_tx_metrics c)).
End policy.

(** ** Replay protection (replay.rs) *)

Definition has_seen_message (hash : UInt256.t) c : bool := cache_contains hash (seen_message_hashes c).
Definition mark_message_seen (hash : UInt256.t) c : ConsensusContext :=
  if cache_contains hash (seen_message_hashes c) then c
  else c <| seen_message_hashes ::= cache_put hash |>.

(** ** Persistence (persistence.rs) *)

Record PersistedConsensusState := mkPersisted {
  ps_block : N;
  ps_view : N;
  ps_proposed_block_hash : option UInt256.t;
  ps_prep_hash : option UInt256.t;
  ps_proposed_timestamp : N;
  ps_proposed_tx_hashes : list UInt256.t;
  ps_nonce : N;
  ps_prepare_request_received : bool;
  ps_prepare_responses : gmap N bytes;
  ps_prepare_response_hashes : gmap N UInt256.t;
  ps_commits : gmap N bytes;
  ps_commit_view_numbers : gmap N N;
  ps_change_views : gmap N (N * ChangeViewReason.t);
  ps_prepare_request_invocation : option bytes;
  ps_change_view_invocations : gmap N bytes;
  ps_change_view_timestamps : gmap N N;
  ps_commit_invocations : gmap N bytes;
}.

(** The snapshot [save] and [to_bytes] take. *)
Definition persisted c : PersistedConsensusState := {|
  ps_block := block_index c; ps_view := view_number c;
  ps_proposed_block_hash := proposed_block_hash c; ps_prep_hash := preparation_hash c;
  ps_proposed_timestamp := proposed_timestamp c; ps_proposed_tx_hashes := proposed_tx_hashes c;
  ps_nonce := nonce c; ps_prepare_request_received := prepare_request_received c;
  ps_prepare_responses := prepare_responses c; ps_prepare_response_hashes := prepare_response_hashes c;
  ps_commits := commits c; ps_commit_view_numbers := commit_view_numbers c;
  ps_change_views := change_views c; ps_prepare_request_invocation := prepare_request_invocation c;
  ps_change_view_invocations := change_view_invocations c;
  ps_change_view_timestamps := last_change_view_timestamps c;
  ps_commit_invocations := commit_invocations c |}.

(** [from_bytes], after decoding. *)
Definition restored (s : PersistedConsensusState) (vs : list ValidatorInfo) (idx : option N) :
    ConsensusContext := {|
  block_index := ps_block s; view_number := ps_view s; validators := vs; my_index := idx;
  state := Initial; view_start_time := 0; timer_extension := 0; expected_block_time := 0;
  version := 0; prev_hash := UInt256.zero; previous_block_timestamp := 0;
  next_consensus := UInt160.zero; proposed_block_hash := ps_proposed_block_hash s;
  preparation_hash := ps_prep_hash s; proposed_timestamp := ps_proposed_timestamp s;
  proposed_tx_hashes := ps_proposed_tx_hashes s; available_tx_hashes := ∅;
  available_tx_metrics := ∅; max_block_size := DEFAULT_MAX_BLOCK_SIZE;
  max_block_system_fee := DEFAULT_MAX_BLOCK_SYSTEM_FEE; nonce := ps_nonce s;
  prepare_request_received := ps_prepare_request_received s; transaction_request_sent := false;
  transaction_request_sent_at := None; commit_recovery_sent_at := None;
  change_view_retry_at := None; prepare_responses := ps_prepare_responses s;
  prepare_response_hashes := ps_prepare_response_hashes s; commits := ps_commits s;
  commit_view_numbers := ps_commit_view_numbers s; change_views := ps_change_views s;
  invalid_transactions := ∅; prepare_request_invocation := ps_prepare_request_invocation s;
  change_view_invocations := ps_change_view_invocations s;
  commit_invocations := ps_commit_invocations s;
  last_change_view_timestamps := ps_change_view_timestamps s; last_seen_messages := ∅;
  seen_message_hashes := new_seen_message_cache |}.
End context.
