(* ===== verification/DbftService.v ===== *)
(** * The dBFT service

    The consensus service of neo-consensus (src/neo-consensus/src/service/): one
    node's state machine, fed with messages, timer ticks and transactions, and
    producing signatures, recovery-log writes and events.

    [Service] is the struct [ConsensusService] together with what it talks to.
    The clock, the random nonces, the external signer, the event channel and the
    disk are answers of a [World], asked one at a time ([tick] counts the
    questions), so that every theorem holds whatever they answer.  [disk] is the
    recovery-log file.  [trace] records, newest first, what happened: signatures
    made and checked, files saved, events delivered to the channel. *)
From S2P Require Import Prelude Primitives Order Hashing Io MerkleTree EcPoint OpCode Instruction.
From S2P Require Import ScriptBuilder RecordUpdate DbftMessages DbftContext.
#[local] Open Scope N_scope.
#[local] Open Scope update_scope.

(** ** State *)

(** The answers of the environment, by question number: [now_millis], the
    random nonce, the external [ConsensusSigner], whether [try_send] finds room in
    the channel, whether a file operation succeeds. *)
Record World := mkWorld {
  w_now : N → N;
  w_nonce : N → N;
  w_signer : N → bytes → UInt160.t → CResult bytes;
  w_channel : N → bool;
  w_file : N → bool;
}.

(** [BlockData]. *)
Record BlockData := mkBlockData {
  bd_block_index : N;
  bd_version : N;
  bd_prev_hash : UInt256.t;
  bd_timestamp : N;
  bd_nonce : N;
  bd_primary_index : N;
  bd_transaction_hashes : list UInt256.t;
  bd_signatures : list (N * bytes);
  bd_validator_pubkeys : list ECPoint;
  bd_required_signatures : N;
  bd_next_consensus : UInt160.t;
}.

Inductive ConsensusEvent :=
| BlockCommitted (block_index : N) (block_hash : UInt256.t) (block_data : BlockData)
| ViewChanged (block_index old_view new_view : N)
| BroadcastMessage (p : ConsensusPayload)
| RequestTransactions (block_index max_count : N) (invalid_tx_hashes : list UInt256.t)
| RequestProposalTransactions (block_index : N) (transaction_hashes : list UInt256.t).

(** What a node did.  [Signed d sig]: its key signed [d].  [SignedBlock h v pre]
    and [SignedPayload pre]: what the signature was for, a block of height [h] in
    view [v] or a consensus payload, with the bytes whose hash is signed.
    [Verified k d sig]: it checked a signature of [d] under the key [k]. *)
Inductive Action :=
| Signed (d sig : bytes)
| SignedBlock (height view : N) (unsigned : bytes)
| SignedPayload (unsigned : bytes)
| Verified (key : ECPoint) (d sig : bytes)
| Saved (file : bytes)
| Emitted (e : ConsensusEvent).

(** The bincode crate's serialization of the recovery log. *)
Class Bincode := {
  bincode_serialize : PersistedConsensusState → option bytes;
  bincode_deserialize : bytes → option PersistedConsensusState;
  bincode_round_trip : ∀ s b, bincode_serialize s = Some b → bincode_deserialize b = Some s;
}.

Section service.
Context `{!Crypto, !Ripemd, !Curves, !HashOrder, !MessageCache, !Bincode}.

Record Service := mkService {
  context : ConsensusContext;
  network : N;
  private_key : bytes;
  signer : bool;
  max_transactions_per_block : N;
  running : bool;
  state_path : bool;
  world : World;
  tick : N;
  disk : option bytes;
  trace : list Action;
}.

#[export] Instance Service_updatable : Updatable Service := λ s,
  mkService (context s) (network s) (private_key s) (signer s) (max_transactions_per_block s)
    (running s) (state_path s) (world s) (tick s) (disk s) (trace s).
#[export] Instance set_context : Setter context := ltac:(solve_setter).
#[export] Instance set_private_key' : Setter private_key := ltac:(solve_setter).
#[export] Instance set_signer' : Setter signer := ltac:(solve_setter).
#[export] Instance set_max_transactions : Setter max_transactions_per_block := ltac:(solve_setter).
#[export] Instance set_running : Setter running := ltac:(solve_setter).
#[export] Instance set_state_path' : Setter state_path := ltac:(solve_setter).
#[export] Instance set_tick : Setter tick := ltac:(solve_setter).
#[export] Instance set_disk : Setter disk := ltac:(solve_setter).
#[export] Instance set_trace : Setter trace := ltac:(solve_setter).

Definition St (A : Type) : Type := M Service ConsensusError A.

(** Asking the world, and recording an action. *)
Definition ask {A} (q : World → N → A) : St A := λ s,
  (s <| tick ::= N.succ |>, Ok (q (world s) (tick s))).
Definition log (a : Action) : St unit := modify (λ s, s <| trace ::= cons a |>).
(** A call whose error the caller inspects instead of returning it. *)
Definition attempt {A} (m : St A) : St (CResult A) := λ s, let '(s', r) := m s in (s', Ok r).

(** Reading and updating the context. *)
Definition ctx {A} (g : ConsensusContext → A) : St A := λ s, (s, Ok (g (context s))).
Definition set_ctx (g : ConsensusContext → ConsensusContext) : St unit :=
  modify (λ s, s <| context ::= g |>).
Definition in_context {A} (m : M ConsensusContext ConsensusError A) : St A := λ s,
  let '(c, r) := m (context s) in (s <| context := c |>, r).

Definition current_timestamp : St N := ask w_now.
Definition generate_nonce : St N := ask w_nonce.

(** ** Block fields (helpers/block.rs) *)

Definition compute_merkle_root (hashes : list UInt256.t) : UInt256.t :=
  default UInt256.zero (MerkleTree.compute_root hashes).

Definition compute_next_consensus_address (vs : list ValidatorInfo) : UInt160.t :=
  if bool_decide (vs = []) then UInt160.zero
  else from_script (multisig_verification_script (v_public_key <$> vs)).

(** The bytes [compute_header_hash] hashes. *)
Definition unsigned_header (version : N) (prev_hash merkle_root : UInt256.t) (timestamp nonce index
    primary_index : N) (next_consensus : UInt160.t) : bytes :=
  to_le_bytes 4 version ++ UInt256.to_array prev_hash ++ UInt256.to_array merkle_root ++
  to_le_bytes 8 timestamp ++ to_le_bytes 8 nonce ++ to_le_bytes 4 index ++ [as_u8 primary_index] ++
  UInt160.to_array next_consensus.

Definition compute_header_hash (version : N) (prev_hash merkle_root : UInt256.t) (timestamp nonce index
    primary_index : N) (next_consensus : UInt160.t) : UInt256.t :=
  UInt256.from_array
    (sha256 (unsigned_header version prev_hash merkle_root timestamp nonce index primary_index
               next_consensus)).

(** The header of the current proposal. *)
Definition proposal_header (c : ConsensusContext) : bytes :=
  unsigned_header (version c) (prev_hash c) (compute_merkle_root (proposed_tx_hashes c))
    (proposed_timestamp c) (nonce c) (block_index c) (primary_index c) (next_consensus c).

(** ** Payload hashes (helpers/dbft.rs) *)

Definition dbft_sender (c : ConsensusContext) (validator_index : N) : CResult UInt160.t :=
  match validators c !! N.to_nat validator_index with
  | Some v => Ok (v_script_hash v)
  | None => Err (InvalidValidatorIndex validator_index)
  end.

Definition write_unsigned (height : N) (sender : UInt160.t) (message : bytes) : Writer.Wr :=
  _ ← Writer.write_var_string (name "dBFT");
  _ ← Writer.write_u32 0;
  _ ← Writer.write_u32 height;
  _ ← Writer.write_bytes (UInt160.to_array sender);
  Writer.write_var_bytes message.

Definition dbft_unsigned_extensible_bytes (c : ConsensusContext) (p : ConsensusPayload) : CResult bytes :=
  sender ← dbft_sender c (cp_validator_index p);
  match write_unsigned (cp_block_index p) sender (Payload.to_message_bytes p) Writer.new with
  | (w, Ok _) => Ok (wbuffer w)
  | (_, Err _) => Err StateError
  end.

Definition dbft_payload_hash (c : ConsensusContext) (p : ConsensusPayload) : CResult UInt256.t :=
  unsigned ← dbft_unsigned_extensible_bytes c p;
  match UInt256.from_bytes (sha256 unsigned) with
  | Ok h => Ok h
  | Err _ => Err StateError
  end.

(** [[network:4][hash:32]], what signatures cover. *)
Definition sign_data (net : N) (hash : UInt256.t) : bytes := to_le_bytes 4 net ++ UInt256.to_array hash.

Definition dbft_sign_data (net : N) (c : ConsensusContext) (p : ConsensusPayload) : CResult bytes :=
  hash ← dbft_payload_hash c p; Ok (sign_data net hash).

(** ** Signatures (helpers/signatures.rs) *)

Definition invocation_script_from_signature (signature : bytes) : bytes :=
  Builder.invocation_from_signature signature [].

Definition svc_my_index : St N := λ s,
  (s, match my_index (context s) with Some i => Ok i | None => Err NotValidator end).

Definition my_script_hash : St UInt160.t :=
  idx ← svc_my_index;
  vs ← ctx validators;
  match vs !! N.to_nat idx with
  | Some v => mret (v_script_hash v)
  | None => fail (InvalidValidatorIndex idx)
  end.

(** The signer when there is one, the private key otherwise. *)
Definition sign_with_signer (d : bytes) : St bytes :=
  script_hash ← my_script_hash;
  r ← ask (λ w t, w_signer w t d script_hash);
  signature ← lift r;
  if negb (len signature =? 64) then fail (InvalidSignatureLength 64 (len signature))
  else mret signature.

Definition sign_with_key (d : bytes) : St bytes :=
  key ← gets private_key;
  if negb (len key =? 32) then fail StateError
  else match secp256r1_sign d key with
       | Some signature => mret signature
       | None => fail StateError
       end.

Definition sign (d : bytes) : St bytes :=
  external ← gets signer;
  signature ← (if external : bool then sign_with_signer d else sign_with_key d);
  _ ← log (Signed d signature);
  mret signature.

Definition sign_block_hash (hash : UInt256.t) : St bytes :=
  net ← gets network;
  signature ← sign (sign_data net hash);
  c ← ctx id;
  _ ← log (SignedBlock (block_index c) (view_number c) (proposal_header c));
  mret signature.

Definition verify_signature (d signature : bytes) (validator_index : N) : St bool :=
  vs ← ctx validators;
  match vs !! N.to_nat validator_index with
  | None => mret false
  | Some v =>
      if negb (len signature =? 64) then mret false
      else if secp256r1_verify d signature (Point.encoded (v_public_key v))
      then _ ← log (Verified (v_public_key v) d signature); mret true
      else mret false
  end.

(** ** Payloads and events (helpers/payload.rs) *)

Definition create_payload (msg_type : MessageType.t) (d : bytes) : St ConsensusPayload :=
  net ← gets network;
  c ← ctx id;
  idx ← svc_my_index;
  let p := Payload.new net (block_index c) idx (view_number c) msg_type d in
  match dbft_sign_data net c p with
  | Err _ => mret p
  | Ok sdata =>
      r ← attempt (sign sdata);
      match r with
      | Err _ => mret p
      | Ok signature =>
          _ ← (match dbft_unsigned_extensible_bytes c p with
               | Ok unsigned => log (SignedPayload unsigned)
               | Err _ => mret tt
               end);
          mret (Payload.set_witness signature p)
      end
  end.

Definition send_event (e : ConsensusEvent) : St unit :=
  ok ← ask w_channel;
  if ok : bool then log (Emitted e) else fail ChannelSendError.
Definition broadcast (p : ConsensusPayload) : St unit := send_event (BroadcastMessage p).

Definition prepare_request_timestamp (now_ms previous : N) : N :=
  N.max now_ms (u64_saturating_add previous 1).

(** ** Recovery log (context/persistence.rs, accessors.rs) *)

(** Writing the temporary file, then renaming it over the old one: a failure of
    either leaves the file as it was. *)
Definition save : St unit :=
  c ← ctx id;
  match bincode_serialize (persisted c) with
  | None => fail BincodeError
  | Some encoded =>
      written ← ask w_file;
      if negb written then fail IoFailure
      else
        renamed ← ask w_file;
        if negb renamed then fail IoFailure
        else modify (λ s, s <| disk := Some encoded |> <| trace ::= cons (Saved encoded) |>)
  end.

Definition save_context_if_configured : St unit :=
  configured ← gets state_path;
  if configured : bool then save else mret tt.

Definition from_bytes (encoded : bytes) (vs : list ValidatorInfo) (idx : option N) :
    CResult ConsensusContext :=
  match bincode_deserialize encoded with
  | Some st => Ok (restored st vs idx)
  | None => Err BincodeError
  end.

Definition load (encoded : bytes) (vs : list ValidatorInfo) (idx : option N) : St ConsensusContext :=
  readable ← ask w_file;
  if negb readable then fail IoFailure else lift (from_bytes encoded vs idx).

(** ** Commits (handlers/commit.rs) *)

(** Our own commit is recorded. *)
Definition own_commit (c : ConsensusContext) : bool :=
  match my_index c with
  | Some idx => bool_decide (is_Some (commits c !! idx))
  | None => false
  end.

Definition cache_commit_invocation (p : ConsensusPayload) : St unit :=
  if bool_decide (cp_witness p = []) then mret tt
  else set_ctx (λ c, c <| commit_invocations ::=
                  <[cp_validator_index p := invocation_script_from_signature (cp_witness p)]> |>).

Definition remove_commit (idx : N) (c : ConsensusContext) : ConsensusContext :=
  c <| commits ::= delete idx |> <| commit_view_numbers ::= delete idx |>
    <| commit_invocations ::= delete idx |>.

Definition revalidate_commit (d : bytes) (validator_index : N) : St unit :=
  cs ← ctx commits;
  valid ← (match cs !! validator_index with
           | Some signature => verify_signature d signature validator_index
           | None => mret false
           end);
  if valid : bool then mret tt else set_ctx (remove_commit validator_index).

Definition revalidate_current_view_commits : St unit :=
  c ← ctx id;
  net ← gets network;
  match proposed_block_hash c with
  | None => mret tt
  | Some block_hash =>
      for_each (revalidate_commit (sign_data net block_hash))
        (filter (λ idx, commit_view_numbers c !! idx = Some (view_number c)) (fst <$> iter (commits c)))
  end.

Definition prepare_block_data (c : ConsensusContext) : CResult BlockData :=
  let signatures := Recovery.sort_by_index fst (collect_commit_signatures c) in
  if len signatures <? m c then Err (InsufficientSignatures (m c) (len signatures))
  else Ok {| bd_block_index := block_index c; bd_version := version c; bd_prev_hash := prev_hash c;
             bd_timestamp := proposed_timestamp c; bd_nonce := nonce c;
             bd_primary_index := primary_index c; bd_transaction_hashes := proposed_tx_hashes c;
             bd_signatures := signatures; bd_validator_pubkeys := v_public_key <$> validators c;
             bd_required_signatures := m c; bd_next_consensus := next_consensus c |}.

Definition check_commits : St unit :=
  c ← ctx id;
  if negb (has_enough_commits c) then mret tt
  else if has_missing_proposed_transactions c then mret tt
  else if bool_decide (state c = Committed) then mret tt
  else
    _ ← set_ctx (λ c, c <| state := Committed |>);
    c ← ctx id;
    block_data ← lift (prepare_block_data c);
    _ ← send_event (BlockCommitted (block_index c) (default UInt256.zero (proposed_block_hash c)) block_data);
    modify (λ s, s <| running := false |>).

(** The witness check every handler starts with. *)
Definition check_witness (p : ConsensusPayload) : St unit :=
  if bool_decide (cp_witness p = []) then fail SignatureVerificationFailed
  else
    net ← gets network;
    c ← ctx id;
    d ← lift (dbft_sign_data net c p);
    valid ← verify_signature d (cp_witness p) (cp_validator_index p);
    if valid : bool then mret tt else fail SignatureVerificationFailed.

(** Recording a commit, with its invocation script. *)
Definition record_commit (p : ConsensusPayload) : St unit :=
  _ ← in_context (add_commit (cp_validator_index p) (cp_view_number p) (take 64 (cp_data p)));
  cache_commit_invocation p.

Definition on_commit (p : ConsensusPayload) : St unit :=
  if len (cp_data p) <? 64 then fail (InvalidSignatureLength 64 (len (cp_data p)))
  else
    let commit_signature := take 64 (cp_data p) in
    _ ← check_witness p;
    c ← ctx id;
    if bool_decide (is_Some (commits c !! cp_validator_index p))
    then fail (AlreadyReceived (cp_validator_index p))
    else if negb (cp_view_number p =? view_number c) then record_commit p
    else
      match proposed_block_hash c with
      | None => record_commit p
      | Some block_hash =>
          net ← gets network;
          valid ← verify_signature (sign_data net block_hash) commit_signature (cp_validator_index p);
          if negb valid then fail SignatureVerificationFailed
          else
            _ ← record_commit p;
            c ← ctx id;
            _ ← (if cp_view_number p =? view_number c then set_ctx (extend_timer_by_factor 4) else mret tt);
            check_commits
      end.

(** ** Recovery messages (handlers/recovery.rs) *)

(** [max_by_key]: the last entry with the largest count. *)
Definition max_by_count (l : list (UInt256.t * N)) : option (UInt256.t * N) :=
  foldl (λ best e, match best with
                   | Some b => if e.2 <? b.2 then Some b else Some e
                   | None => Some e
                   end) None l.
Definition hash_counts (hashes : list UInt256.t) : gmap UInt256.t N :=
  foldl (λ counts h, <[h := default 0 (counts !! h) + 1]> counts) ∅ hashes.

Definition recovery_change_views (c : ConsensusContext) : list ChangeViewPayloadCompact :=
  let compact (e : N * (N * ChangeViewReason.t)) :=
    let '(validator_index, (new_view, _)) := e in
    mkChangeViewCompact validator_index (new_view - 1)
      (default 0 (last_change_view_timestamps c !! validator_index))
      (default [] (change_view_invocations c !! validator_index)) in
  take (N.to_nat (m c))
    (Recovery.sort_by_index cvc_validator_index
       (compact <$> filter (λ e, view_number c ≤ e.2.1) (iter (change_views c)))).

Definition recovery_preparations (include_prepare_request : bool) (c : ConsensusContext) :
    list PreparationPayloadCompact :=
  (λ e, mkPreparationCompact e.1 e.2) <$>
    filter (λ e, e.1 ≠ primary_index c ∨ include_prepare_request = false) (iter (prepare_responses c)).

Definition recovery_commits (c : ConsensusContext) : list CommitPayloadCompact :=
  if own_commit c then
    (λ e, mkCommitCompact (default (view_number c) (commit_view_numbers c !! e.1)) e.1 e.2
            (default [] (commit_invocations c !! e.1))) <$> iter (commits c)
  else [].

Definition build_recovery_message (c : ConsensusContext) : CResult RecoveryMessage :=
  match my_index c with
  | None => Err NotValidator
  | Some idx =>
      let invocation := default [] (prepare_request_invocation c) in
      let include_prepare_request := prepare_request_received c && negb (bool_decide (invocation = [])) in
      let majority := fst <$> max_by_count (iter (hash_counts (snd <$> iter (prepare_response_hashes c)))) in
      Ok (mkRecovery (block_index c) (view_number c) idx
            (recovery_change_views c)
            (if include_prepare_request
             then Some (mkPrepareRequest (block_index c) (view_number c) (primary_index c) (version c)
                          (prev_hash c) (proposed_timestamp c) (nonce c) (proposed_tx_hashes c))
             else None)
            (if include_prepare_request then None
             else match majority with Some h => Some h | None => preparation_hash c end)
            ((if include_prepare_request then [mkPreparationCompact (primary_index c) invocation] else []) ++
             recovery_preparations include_prepare_request c)
            (recovery_commits c))
  end.

Definition should_send_recovery_response (requester_index : N) (c : ConsensusContext) : CResult bool :=
  match my_index c with
  | None => Err NotValidator
  | Some idx =>
      if bool_decide (is_Some (commits c !! idx)) then Ok true
      else if validator_count c =? 0 then Ok false
      else
        let chosen offset := ((requester_index + offset) mod validator_count c) mod 256 in
        Ok (existsb (λ offset, chosen (N.of_nat offset) =? idx) (seq 1 (N.to_nat (f c + 1))))
  end.

Definition resend_recovery_message : St unit :=
  c ← ctx id;
  recovery ← lift (build_recovery_message c);
  d ← lift (Recovery.serialize recovery);
  p ← create_payload MessageType.RecoveryMessage d;
  broadcast p.

Definition maybe_send_recovery_response (requester_index : N) : St unit :=
  c ← ctx id;
  respond ← lift (should_send_recovery_response requester_index c);
  if respond : bool then resend_recovery_message else mret tt.

Definition on_recovery_request (p : ConsensusPayload) : St unit :=
  _ ← check_witness p;
  maybe_send_recovery_response (cp_validator_index p).

(** ** View changes (handlers/change_view.rs) *)

(** Remembering the invocation script of a ChangeView we sent or received. *)
Definition cache_change_view_invocation (idx : N) (witness : bytes) : St unit :=
  if bool_decide (witness = []) then mret tt
  else set_ctx (λ c, c <| change_view_invocations ::= <[idx := invocation_script_from_signature witness]> |>).

Definition request_recovery : St unit :=
  timestamp ← current_timestamp;
  c ← ctx id;
  idx ← svc_my_index;
  p ← create_payload MessageType.RecoveryRequest
        (RecoveryRequest_serialize (mkRecoveryRequest (block_index c) (view_number c) idx timestamp));
  broadcast p.

(** Signing and broadcasting our ChangeView for the current view. *)
Definition broadcast_change_view (idx timestamp : N) (reason : ChangeViewReason.t)
    (rejected_hashes : list UInt256.t) : St unit :=
  c ← ctx id;
  p ← create_payload MessageType.ChangeView
        (ChangeView.serialize
           (mkChangeView (block_index c) (view_number c) idx timestamp reason rejected_hashes));
  _ ← cache_change_view_invocation idx (cp_witness p);
  broadcast p.

Definition broadcast_change_agreement (timestamp : N) : St unit :=
  idx ← svc_my_index;
  c ← ctx id;
  let new_view := u8_saturating_add (view_number c) 1 in
  _ ← in_context (add_change_view idx new_view ChangeViewReason.ChangeAgreement timestamp);
  broadcast_change_view idx timestamp ChangeViewReason.ChangeAgreement [].

(** A ChangeView of ours for [new_view] or beyond is recorded. *)
Definition already_agreed (idx new_view : N) (c : ConsensusContext) : bool :=
  match change_views c !! idx with
  | Some (agreed_view, _) => new_view <=? agreed_view
  | None => false
  end.

Definition change_view (new_view timestamp : N) : St unit :=
  c ← ctx id;
  let old_view := view_number c in
  if new_view <=? old_view then mret tt
  else
    _ ← (match my_index c with
         | Some idx => if already_agreed idx new_view c then mret tt else broadcast_change_agreement timestamp
         | None => mret tt
         end);
    _ ← set_ctx (reset_for_new_view new_view timestamp);
    send_event (ViewChanged (block_index c) old_view new_view).

Definition rejected_hashes_for_change_view (reason : ChangeViewReason.t) (c : ConsensusContext) :
    list UInt256.t :=
  if reason_carries_rejected_hashes reason then invalid_tx_hashes_over_f c else [].

Definition change_view_if_enough (new_view timestamp : N) : St unit :=
  enough ← ctx (has_enough_change_views new_view);
  if enough : bool then change_view new_view timestamp else mret tt.

Definition request_change_view (reason : ChangeViewReason.t) (timestamp : N) : St unit :=
  c ← ctx id;
  let new_view := u8_add (view_number c) 1 in
  _ ← set_ctx (λ c, c <| change_view_retry_at :=
                 Some (u64_saturating_add timestamp (change_view_retry_delay c)) |>);
  c ← ctx id;
  if more_than_f_nodes_committed_or_lost c then request_recovery
  else
    idx ← svc_my_index;
    _ ← in_context (add_change_view idx new_view reason timestamp);
    c ← ctx id;
    _ ← broadcast_change_view idx timestamp reason (rejected_hashes_for_change_view reason c);
    change_view_if_enough new_view timestamp.

(** A ChangeView that says nothing new. *)
Definition stale_change_view (idx new_view : N) (c : ConsensusContext) : bool :=
  match change_views c !! idx with
  | Some (expected_view, _) => new_view <=? expected_view
  | None => false
  end.

Definition on_change_view (p : ConsensusPayload) : St unit :=
  _ ← check_witness p;
  msg ← lift (ChangeView.deserialize (cp_data p) (cp_block_index p) (cp_view_number p) (cp_validator_index p));
  _ ← lift (ChangeView.validate msg);
  new_view ← lift (ChangeView.new_view_number msg);
  _ ← (if reason_carries_rejected_hashes (cv_reason msg) && negb (bool_decide (cv_rejected_hashes msg = []))
       then set_ctx (record_invalid_transactions (cp_validator_index p) (cv_rejected_hashes msg))
       else mret tt);
  c ← ctx id;
  _ ← (if new_view <=? view_number c then maybe_send_recovery_response (cp_validator_index p) else mret tt);
  c ← ctx id;
  if own_commit c then mret tt
  else if stale_change_view (cp_validator_index p) new_view c then mret tt
  else
    _ ← in_context (add_change_view (cp_validator_index p) new_view (cv_reason msg) (cv_timestamp msg));
    _ ← cache_change_view_invocation (cp_validator_index p) (cp_witness p);
    change_view_if_enough new_view (cv_timestamp msg).

(** ** Preparations (handlers/prepare.rs) *)

(** Signing our Commit, recording and saving it, then sending it. *)
Definition send_commit : St unit :=
  c ← ctx id;
  signature ← sign_block_hash (default UInt256.zero (proposed_block_hash c));
  idx ← svc_my_index;
  c ← ctx id;
  p ← create_payload MessageType.Commit
        (Commit.serialize (mkCommit (block_index c) (view_number c) idx signature));
  _ ← (if bool_decide (cp_witness p = []) then mret tt
       else set_ctx (λ c, c <| commit_invocations ::=
                       <[idx := invocation_script_from_signature (cp_witness p)]> |>));
  _ ← in_context (λ c, add_commit idx (view_number c) signature c);
  _ ← save_context_if_configured;
  _ ← broadcast p;
  check_commits.

Definition check_prepare_responses : St unit :=
  c ← ctx id;
  if negb (prepare_request_received c) then mret tt
  else if negb (has_enough_prepare_responses c) then mret tt
  else if has_missing_proposed_transactions c then mret tt
  else if bool_decide (state c = Committed) then mret tt
  else if own_commit c then mret tt
  else send_commit.

(** The block fits the size and system-fee policy. *)
Definition within_policy (c : ConsensusContext) : bool :=
  has_missing_proposed_transactions c ||
  ((expected_block_size c <=? max_block_size c) &&
   (expected_block_system_fee c <=? max_block_system_fee c)%Z).

Definition reject_block : St unit :=
  timestamp ← current_timestamp;
  request_change_view ChangeViewReason.BlockRejectedByPolicy timestamp.

Definition respond (idx : N) : St unit :=
  _ ← set_ctx (extend_timer_by_factor 2);
  c ← ctx id;
  let hash := default UInt256.zero (preparation_hash c) in
  p ← create_payload MessageType.PrepareResponse
        (PrepareResponse.serialize (mkPrepareResponse (block_index c) (view_number c) idx hash));
  _ ← broadcast p;
  _ ← in_context (add_prepare_response idx (invocation_script_from_signature (cp_witness p)) (Some hash));
  check_prepare_responses.

Definition send_prepare_response : St unit :=
  c ← ctx id;
  if is_primary c then mret tt
  else
    match my_index c with
    | None => mret tt
    | Some idx =>
        if bool_decide (is_Some (prepare_responses c !! idx)) then mret tt
        else if negb (within_policy c) then reject_block
        else respond idx
    end.

Definition on_prepare_response (p : ConsensusPayload) : St unit :=
  c ← ctx id;
  if not_accepting_payloads_due_to_view_changing c then mret tt
  else if cp_validator_index p =? primary_index c then mret tt
  else if bool_decide (is_Some (prepare_responses c !! cp_validator_index p))
  then fail (AlreadyReceived (cp_validator_index p))
  else
    _ ← check_witness p;
    msg ← lift (PrepareResponse.deserialize_body (cp_data p) (cp_block_index p) (cp_view_number p)
                  (cp_validator_index p));
    c ← ctx id;
    _ ← lift (match preparation_hash c with
              | Some expected => PrepareResponse.validate msg expected
              | None => Ok tt
              end);
    _ ← in_context (add_prepare_response (cp_validator_index p)
                      (invocation_script_from_signature (cp_witness p)) (Some (ps_preparation_hash msg)));
    _ ← set_ctx (extend_timer_by_factor 2);
    check_prepare_responses.

(** The checks of a proposal against the round. *)
Definition check_proposal (req : PrepareRequestMessage) : St unit :=
  c ← ctx id;
  limit ← gets max_transactions_per_block;
  _ ← lift (PrepareRequest.validate req (primary_index c) limit);
  if negb (pr_version req =? version c) then fail InvalidProposal
  else if negb (bool_decide (pr_prev_hash req = prev_hash c)) then fail InvalidProposal
  else if pr_timestamp req <=? previous_block_timestamp c then fail InvalidProposal
  else
    now ← current_timestamp;
    if u64_saturating_add now (u64_saturating_mul (prepare_request_delay c) 8) <? pr_timestamp req
    then fail InvalidProposal else mret tt.

(** Storing an accepted proposal. *)
Definition store_proposal (p : ConsensusPayload) (req : PrepareRequestMessage) (c : ConsensusContext) :
    ConsensusContext :=
  c <| prepare_request_received := true |>
    <| prepare_request_invocation :=
         if bool_decide (cp_witness p = []) then None
         else Some (invocation_script_from_signature (cp_witness p)) |>
    <| version := pr_version req |> <| prev_hash := pr_prev_hash req |>
    <| proposed_timestamp := pr_timestamp req |> <| nonce := pr_nonce req |>
    <| proposed_tx_hashes := pr_transaction_hashes req |> <| available_tx_hashes := ∅ |>.

(** Dropping the responses to another proposal. *)
Definition keep_responses (expected : UInt256.t) (c : ConsensusContext) : ConsensusContext :=
  c <| prepare_responses ::=
         filter (λ e, prepare_response_hashes c !! e.1 = Some expected) |>
    <| prepare_response_hashes ::= filter (λ e, e.2 = expected) |>.

Definition hash_proposal (c : ConsensusContext) : ConsensusContext :=
  c <| proposed_block_hash :=
    Some (compute_header_hash (version c) (prev_hash c) (compute_merkle_root (proposed_tx_hashes c))
            (proposed_timestamp c) (nonce c) (block_index c) (primary_index c) (next_consensus c)) |>.
Definition set_proposed_block_hash : St unit := set_ctx hash_proposal.

Definition request_proposal_transactions : St unit :=
  c ← ctx id;
  if bool_decide (proposed_tx_hashes c = []) then send_prepare_response
  else if is_backup c then send_event (RequestProposalTransactions (block_index c) (proposed_tx_hashes c))
  else mret tt.

Definition on_prepare_request (p : ConsensusPayload) : St unit :=
  c ← ctx id;
  if not_accepting_payloads_due_to_view_changing c then mret tt
  else if negb (cp_validator_index p =? primary_index c)
  then fail (InvalidPrimary (primary_index c) (cp_validator_index p))
  else
    _ ← check_witness p;
    c ← ctx id;
    if prepare_request_received c then fail (AlreadyReceived (cp_validator_index p))
    else
      req ← lift (PrepareRequest.deserialize_body (cp_data p) (cp_block_index p) (cp_view_number p)
                    (cp_validator_index p));
      _ ← check_proposal req;
      _ ← set_ctx (store_proposal p req);
      c ← ctx id;
      hash ← lift (dbft_payload_hash c p);
      _ ← set_ctx (λ c, keep_responses hash (c <| preparation_hash := Some hash |>));
      _ ← set_proposed_block_hash;
      _ ← revalidate_current_view_commits;
      _ ← set_ctx (extend_timer_by_factor 2);
      request_proposal_transactions.

(** ** Applying a recovery message (handlers/recovery.rs) *)

Definition reprocess_recovery_payload (p : ConsensusPayload) : St unit :=
  _ ← attempt (match cp_message_type p with
               | MessageType.ChangeView => on_change_view p
               | MessageType.PrepareRequest => on_prepare_request p
               | MessageType.PrepareResponse => on_prepare_response p
               | MessageType.Commit => on_commit p
               | _ => mret tt
               end);
  mret tt.

(** A payload rebuilt from a compact entry, when its invocation script carries a
    signature. *)
Definition reprocess_compact (height idx view : N) (ty : MessageType.t) (body invocation : bytes) : St unit :=
  net ← gets network;
  match signature_from_invocation invocation with
  | None => mret tt
  | Some signature => reprocess_recovery_payload (mkPayload net height idx view ty body signature)
  end.

Definition recover_change_view (height : N) (cv : ChangeViewPayloadCompact) : St unit :=
  c ← ctx id;
  if validator_count c <=? cvc_validator_index cv then mret tt
  else
    let reason := default ChangeViewReason.Timeout (snd <$> change_views c !! cvc_validator_index cv) in
    reprocess_compact height (cvc_validator_index cv) (cvc_original_view_number cv) MessageType.ChangeView
      (ChangeView.serialize (mkChangeView height (cvc_original_view_number cv) (cvc_validator_index cv)
                               (cvc_timestamp cv) reason []))
      (cvc_invocation_script cv).

Definition recover_prepare_request (recovery : RecoveryMessage) : St unit :=
  c ← ctx id;
  if prepare_request_received c then mret tt
  else
    match rm_prepare_request_message recovery,
          find (λ p, pc_validator_index p =? primary_index c) (rm_preparation_messages recovery) with
    | Some req, Some primary_prep =>
        reprocess_compact (pr_block_index req) (pr_validator_index req) (pr_view_number req)
          MessageType.PrepareRequest (PrepareRequest.serialize req) (pc_invocation_script primary_prep)
    | _, _ => mret tt
    end.

Definition recover_preparation (height view primary : N) (prep_hash : UInt256.t)
    (prep : PreparationPayloadCompact) : St unit :=
  c ← ctx id;
  if validator_count c <=? pc_validator_index prep then mret tt
  else if pc_validator_index prep =? primary then mret tt
  else
    reprocess_compact height (pc_validator_index prep) view MessageType.PrepareResponse
      (PrepareResponse.serialize (mkPrepareResponse height view (pc_validator_index prep) prep_hash))
      (pc_invocation_script prep).

Definition recover_preparations (height view : N) (recovery : RecoveryMessage) : St unit :=
  _ ← recover_prepare_request recovery;
  _ ← set_ctx (λ c, match preparation_hash c, rm_preparation_hash recovery with
                    | None, Some hash => c <| preparation_hash := Some hash |>
                    | _, _ => c
                    end);
  c ← ctx id;
  match (match rm_preparation_hash recovery with Some h => Some h | None => preparation_hash c end) with
  | Some prep_hash =>
      for_each (recover_preparation height view (primary_index c) prep_hash) (rm_preparation_messages recovery)
  | None => mret tt
  end.

Definition recover_commit (height : N) (cm : CommitPayloadCompact) : St unit :=
  c ← ctx id;
  if validator_count c <=? cc_validator_index cm then mret tt
  else
    reprocess_compact height (cc_validator_index cm) (cc_view_number cm) MessageType.Commit
      (Commit.serialize (mkCommit height (cc_view_number cm) (cc_validator_index cm) (cc_signature cm)))
      (cc_invocation_script cm).

(** The part of the message for the view it was sent in. *)
Definition apply_recovery (height message_view : N) (recovery : RecoveryMessage) : St unit :=
  c ← ctx id;
  let commit_sent := own_commit c in
  if view_number c <? message_view then
    if commit_sent then mret tt
    else for_each (recover_change_view height) (rm_change_view_messages recovery)
  else
    _ ← (if (message_view =? view_number c) && negb commit_sent
            && negb (not_accepting_payloads_due_to_view_changing c)
         then recover_preparations height message_view recovery else mret tt);
    c ← ctx id;
    if message_view <=? view_number c then for_each (recover_commit height) (rm_commit_messages recovery)
    else mret tt.

Definition on_recovery_message (p : ConsensusPayload) : St unit :=
  _ ← check_witness p;
  c ← ctx id;
  if negb (cp_block_index p =? block_index c) then mret tt
  else
    recovery ← lift (Recovery.deserialize (cp_data p) (cp_block_index p) (cp_view_number p)
                       (cp_validator_index p));
    limit ← gets max_transactions_per_block;
    _ ← lift (Recovery.validate recovery (validator_count c) limit);
    apply_recovery (cp_block_index p) (cp_view_number p) recovery.

(** ** Rounds, messages and the timer (lifecycle.rs) *)

Definition start_with_block_context (index timestamp : N) (prev : UInt256.t) (prev_timestamp : N)
    (next : UInt160.t) (ver : N) : St unit :=
  _ ← svc_my_index;
  _ ← set_ctx (λ c, reset_for_new_block index timestamp c <| prev_hash := prev |>
                      <| previous_block_timestamp := prev_timestamp |> <| next_consensus := next |>
                      <| version := ver |>);
  modify (λ s, s <| running := true |>).

Definition start_with_previous_timestamp (index timestamp : N) (prev : UInt256.t) (prev_timestamp ver : N) :
    St unit :=
  vs ← ctx validators;
  start_with_block_context index timestamp prev prev_timestamp (compute_next_consensus_address vs) ver.

Definition start (index timestamp : N) (prev : UInt256.t) (ver : N) : St unit :=
  start_with_previous_timestamp index timestamp prev 0 ver.

Definition resume_with_next_consensus (timestamp : N) (prev : UInt256.t) (next : UInt160.t) (ver : N) :
    St unit :=
  _ ← svc_my_index;
  _ ← set_ctx (λ c, set_role (c <| prev_hash := prev |> <| next_consensus := next |> <| version := ver |>
                                <| view_start_time := timestamp |>));
  _ ← modify (λ s, s <| running := true |>);
  _ ← check_prepare_responses;
  check_commits.

Definition resume (timestamp : N) (prev : UInt256.t) (ver : N) : St unit :=
  vs ← ctx validators;
  resume_with_next_consensus timestamp prev (compute_next_consensus_address vs) ver.

Definition try_load_and_resume (index timestamp : N) (prev : UInt256.t) (next : UInt160.t) (ver : N) :
    St bool :=
  configured ← gets state_path;
  file ← gets disk;
  match configured, file with
  | true, Some encoded =>
      c ← ctx id;
      r ← attempt (load encoded (validators c) (my_index c));
      match r with
      | Err _ => mret false
      | Ok loaded =>
          if negb (block_index loaded =? index) then mret false
          else
            _ ← set_ctx (λ _, loaded <| expected_block_time := expected_block_time c |>);
            _ ← resume_with_next_consensus timestamp prev next ver;
            mret true
      end
  | _, _ => mret false
  end.

(** A message for another view that the view filter drops. *)
Definition wrong_view (p : ConsensusPayload) (c : ConsensusContext) : bool :=
  match cp_message_type p with
  | MessageType.ChangeView | MessageType.RecoveryRequest | MessageType.RecoveryMessage
  | MessageType.Commit => false
  | _ => negb (cp_view_number p =? view_number c)
  end.

Definition dispatch (p : ConsensusPayload) : St unit :=
  match cp_message_type p with
  | MessageType.PrepareRequest => on_prepare_request p
  | MessageType.PrepareResponse => on_prepare_response p
  | MessageType.Commit => on_commit p
  | MessageType.ChangeView => on_change_view p
  | MessageType.RecoveryRequest => on_recovery_request p
  | MessageType.RecoveryMessage => on_recovery_message p
  end.

(** A new message of the current block, whose hash is [msg_hash]. *)
Definition process_new_message (p : ConsensusPayload) (msg_hash : UInt256.t) : St unit :=
  if bool_decide (cp_witness p = []) then fail SignatureVerificationFailed
  else
    net ← gets network;
    valid ← verify_signature (sign_data net msg_hash) (cp_witness p) (cp_validator_index p);
    if negb valid then fail SignatureVerificationFailed
    else
      _ ← set_ctx (update_last_seen_message (cp_validator_index p) (cp_block_index p));
      c ← ctx id;
      if wrong_view p c then mret tt
      else
        _ ← dispatch p;
        set_ctx (mark_message_seen msg_hash).

Definition process_message (p : ConsensusPayload) : St unit :=
  on ← gets running;
  if negb on then mret tt
  else
    c ← ctx id;
    msg_hash ← lift (dbft_payload_hash c p);
    if has_seen_message msg_hash c then mret tt
    else if negb (cp_block_index p =? block_index c) then
      if block_index c <? cp_block_index p then mret tt
      else fail (WrongBlock (block_index c) (cp_block_index p))
    else process_new_message p msg_hash.

Definition initiate_proposal (timestamp : N) : St unit :=
  c ← ctx id;
  if transaction_request_sent c then mret tt
  else
    _ ← set_ctx (λ c, c <| transaction_request_sent := true |>
                        <| transaction_request_sent_at := Some timestamp |>);
    limit ← gets max_transactions_per_block;
    send_event (RequestTransactions (block_index c) limit (invalid_tx_hashes_over_f c)).

Definition on_timeout (timestamp : N) : St unit :=
  c ← ctx id;
  if negb (is_timed_out timestamp c) then mret tt
  else if (match change_view_retry_at c with Some retry_at => timestamp <? retry_at | None => false end)
  then mret tt
  else
    request_change_view
      (if has_missing_proposed_transactions c then ChangeViewReason.TxNotFound
       else ChangeViewReason.Timeout) timestamp.

Definition resend_due (timestamp : N) (c : ConsensusContext) : bool :=
  match commit_recovery_sent_at c with
  | Some sent_at => u64_saturating_add sent_at (commit_recovery_resend_delay c) <=? timestamp
  | None => is_timed_out timestamp c
  end.

Definition on_timer_tick (timestamp : N) : St unit :=
  on ← gets running;
  if negb on then mret tt
  else
    c ← ctx id;
    if own_commit c then
      if resend_due timestamp c then
        _ ← resend_recovery_message;
        set_ctx (λ c, c <| commit_recovery_sent_at := Some timestamp |>)
      else mret tt
    else if is_primary c then
      let prepare_deadline := u64_saturating_add (view_start_time c) (prepare_request_delay c) in
      let primary_timeout :=
        u64_saturating_add (default prepare_deadline (transaction_request_sent_at c))
          (prepare_request_follow_up_delay c) in
      if negb (prepare_request_received c) && (prepare_deadline <=? timestamp)
         && negb (transaction_request_sent c)
      then initiate_proposal timestamp
      else if timestamp <? primary_timeout then mret tt
      else on_timeout timestamp
    else on_timeout timestamp.

(** ** Proposals and transactions (proposal.rs) *)

(** Storing our own proposal. *)
Definition set_proposal (timestamp nc : N) (tx_hashes : list UInt256.t) (c : ConsensusContext) :
    ConsensusContext :=
  mark_available_transactions tx_hashes
    (c <| proposed_timestamp := timestamp |> <| proposed_tx_hashes := tx_hashes |>) <| nonce := nc |>.

Definition propose (tx_hashes : list UInt256.t) : St unit :=
  now ← current_timestamp;
  _ ← set_ctx (λ c, c <| transaction_request_sent := true |>
                      <| transaction_request_sent_at := Some (default now (transaction_request_sent_at c)) |>);
  c ← ctx id;
  let timestamp := prepare_request_timestamp now (previous_block_timestamp c) in
  nc ← generate_nonce;
  limit ← gets max_transactions_per_block;
  let tx_hashes := take (N.to_nat limit) tx_hashes in
  _ ← set_ctx (set_proposal timestamp nc tx_hashes);
  idx ← svc_my_index;
  p ← create_payload MessageType.PrepareRequest
        (PrepareRequest.serialize
           (mkPrepareRequest (block_index c) (view_number c) idx (version c) (prev_hash c) timestamp nc
              tx_hashes));
  _ ← set_ctx (λ c, match dbft_payload_hash c p with
                    | Ok hash => c <| preparation_hash := Some hash |>
                    | Err _ => c
                    end <| prepare_request_invocation :=
                            if bool_decide (cp_witness p = []) then None
                            else Some (invocation_script_from_signature (cp_witness p)) |>);
  _ ← set_proposed_block_hash;
  _ ← revalidate_current_view_commits;
  _ ← broadcast p;
  set_ctx (λ c, c <| prepare_request_received := true |>).

Definition on_transactions_received (tx_hashes : list UInt256.t) : St unit :=
  on ← gets running;
  c ← ctx id;
  if negb on then mret tt
  else if not_accepting_payloads_due_to_view_changing c then mret tt
  else if is_primary c then propose tx_hashes
  else if negb (prepare_request_received c) then mret tt
  else if bool_decide (proposed_tx_hashes c = []) then send_prepare_response
  else
    _ ← set_ctx (mark_available_transactions tx_hashes);
    if forallb (λ h, bool_decide (h ∈ tx_hashes)) (proposed_tx_hashes c) then send_prepare_response
    else mret tt.

Definition on_transaction (tx_hash : UInt256.t) : St unit :=
  on ← gets running;
  c ← ctx id;
  if negb on then mret tt
  else if negb (is_backup c) || negb (prepare_request_received c) then mret tt
  else if not_accepting_payloads_due_to_view_changing c then mret tt
  else if bool_decide (state c = Committed) then mret tt
  else if has_available_transaction tx_hash c then mret tt
  else if negb (is_proposed_transaction tx_hash c) then mret tt
  else
    _ ← set_ctx (λ c, (mark_transaction_available tx_hash c).1);
    if negb (mark_transaction_available tx_hash c).2 then mret tt
    else
      c ← ctx id;
      if has_missing_proposed_transactions c then mret tt
      else _ ← send_prepare_response; check_prepare_responses.

(** ** Configuration (core.rs, accessors.rs) *)

Definition DEFAULT_MAX_TRANSACTIONS_PER_BLOCK : N := 512.

Definition with_context_and_signer (net : N) (c : ConsensusContext) (key : bytes) (external : bool)
    (w : World) (file : option bytes) : Service :=
  {| context := c; network := net; private_key := key; signer := external;
     max_transactions_per_block := DEFAULT_MAX_TRANSACTIONS_PER_BLOCK; running := false;
     state_path := false; world := w; tick := 0; disk := file; trace := [] |}.

Definition new_with_signer (net : N) (vs : list ValidatorInfo) (idx : option N) (key : bytes)
    (external : bool) (w : World) (file : option bytes) : Service :=
  with_context_and_signer net (new 0 vs idx None) key external w file.

Definition update_validators (vs : list ValidatorInfo) (idx : option N) : St unit :=
  set_ctx (λ c, c <| validators := vs |> <| my_index := idx |>).
Definition set_expected_block_time_ms (t : N) : St unit := set_ctx (λ c, c <| expected_block_time := t |>).
Definition set_max_transactions_per_block (n : N) : St unit :=
  modify (λ s, s <| max_transactions_per_block := n |>).
Definition set_private_key (key : bytes) : St unit := modify (λ s, s <| private_key := key |>).
Definition set_signer (external : bool) : St unit := modify (λ s, s <| signer := external |>).
Definition set_state_path (configured : bool) : St unit := modify (λ s, s <| state_path := configured |>).
End service.

(** Hashes and bytes stay folded in proofs. *)
#[global] Arguments sign_data : simpl never.
#[global] Arguments unsigned_header : simpl never.
#[global] Arguments compute_header_hash : simpl never.
#[global] Arguments proposal_header : simpl never.
#[global] Arguments dbft_unsigned_extensible_bytes : simpl never.
#[global] Arguments dbft_payload_hash : simpl never.
#[global] Arguments dbft_sign_data : simpl never.
