(* ===== verification/Block.v ===== *)
(** * Blocks

    src/neo-payloads/src/ledger/header.rs and block.rs: headers and blocks, their wire
    format, hashes and integrity checks; and the assembly of a block from the
    outcome of a consensus round (src/neo-consensus/src/service/block_data.rs). *)
From S2P Require Import Prelude Primitives Order Hashing Io EcPoint MerkleTree OpCode Instruction ScriptBuilder RecordUpdate.
From S2P Require Import Signing Transaction DbftMessages DbftContext DbftService.
#[local] Open Scope N_scope.
#[local] Open Scope update_scope.

(** ** Headers *)

Record Header := mkHeader {
  h_version : N;
  h_prev_hash : UInt256.t;
  h_merkle_root : UInt256.t;
  h_timestamp : N;
  h_nonce : N;
  h_index : N;
  h_primary_index : N;
  h_next_consensus : UInt160.t;
  h_witness : Witness;
}.

Module HeaderOps.
Definition serialize_unsigned (h : Header) : Writer.Wr :=
  _ ← Writer.write_u32 (h_version h);
  _ ← Io.serialize (h_prev_hash h);
  _ ← Io.serialize (h_merkle_root h);
  _ ← Writer.write_u64 (h_timestamp h);
  _ ← Writer.write_u64 (h_nonce h);
  _ ← Writer.write_u32 (h_index h);
  _ ← Writer.write_u8 (as_u8 (h_primary_index h));
  Io.serialize (h_next_consensus h).
Definition serialize (h : Header) : Writer.Wr :=
  _ ← Writer.write_u32 (h_version h);
  _ ← Io.serialize (h_prev_hash h);
  _ ← Io.serialize (h_merkle_root h);
  _ ← Writer.write_u64 (h_timestamp h);
  _ ← Writer.write_u64 (h_nonce h);
  _ ← Writer.write_u32 (h_index h);
  _ ← Writer.write_u8 (as_u8 (h_primary_index h));
  _ ← Io.serialize (h_next_consensus h);
  _ ← Writer.write_var_int 1;
  Io.serialize (h_witness h).
Definition deserialize : Reader.Rd Header :=
  version ← Reader.read_uint32;
  if 0 <? version then fail InvalidData
  else
    prev_hash ← Io.deserialize;
    merkle_root ← Io.deserialize;
    timestamp ← Reader.read_uint64;
    nonce ← Reader.read_uint64;
    index ← Reader.read_uint32;
    primary_index ← Reader.read_byte;
    next_consensus ← Io.deserialize;
    witness_count ← Reader.read_var_int 1;
    if negb (witness_count =? 1) then fail InvalidData
    else
      witness ← Io.deserialize;
      mret (mkHeader version prev_hash merkle_root timestamp nonce index (Byte.to_N primary_index)
              next_consensus witness).
Definition size (h : Header) : N :=
  4 + 32 + 32 + 8 + 8 + 4 + 1 + 20 + 1 + WitnessOps.size (h_witness h).
#[global] Instance serializable : Serializable Header := {
  deserialize := deserialize;
  serialize := serialize;
  ser_size := size;
}.
Definition try_to_bytes (h : Header) : Result IoError bytes := to_array h.
Definition from_bytes (bs : bytes) : Result IoError Header :=
  match deserialize (Reader.new bs) with
  | (r, Ok h) => if negb (Reader.remaining r =? 0) then Err InvalidData else Ok h
  | (_, Err e) => Err e
  end.
Definition try_get_hash_data (h : Header) : Result IoError bytes :=
  match serialize_unsigned h Writer.new with
  | (w, Ok _) => Ok (wbuffer w)
  | (_, Err e) => Err e
  end.
(** The memo of the hash is dropped by every setter of a hashed field. *)
Definition try_hash `{Crypto} (h : Header) : Result IoError UInt256.t :=
  hash_data ← try_get_hash_data h;
  mret (UInt256.from_array (sha256 hash_data)).
End HeaderOps.

(** ** Blocks *)

Record Block := mkBlock { header : Header; transactions : list Transaction }.

Module BlockOps.
Definition BLOCK_MAX_TX_WIRE_LIMIT : N := 65535.

Section block.
Context `{Curves} `{Crypto}.

Fixpoint try_hashes (txs : list Transaction) : Result IoError (list UInt256.t) :=
  match txs with
  | [] => Ok []
  | t :: txs => h ← Tx.try_hash t; hs ← try_hashes txs; mret (h :: hs)
  end.
Definition transaction_hashes (b : Block) : Result IoError (list UInt256.t) := try_hashes (transactions b).

Definition verify_merkle_root (b : Block) : bool :=
  if bool_decide (transactions b = []) then bool_decide (h_merkle_root (header b) = UInt256.zero)
  else match transaction_hashes b with
       | Err _ => false
       | Ok hashes =>
           match MerkleTree.compute_root hashes with
           | Some root => bool_decide (h_merkle_root (header b) = root)
           | None => false
           end
       end.
Fixpoint distinct_hashes (seen : list UInt256.t) (txs : list Transaction) : bool :=
  match txs with
  | [] => true
  | t :: txs =>
      match Tx.try_hash t with
      | Err _ => false
      | Ok h => if bool_decide (h ∈ seen) then false else distinct_hashes (h :: seen) txs
      end
  end.
Definition verify_no_duplicate_transactions (b : Block) : bool := distinct_hashes [] (transactions b).

Definition set_merkle_root (root : UInt256.t) (h : Header) : Header :=
  mkHeader (h_version h) (h_prev_hash h) root (h_timestamp h) (h_nonce h) (h_index h) (h_primary_index h)
    (h_next_consensus h) (h_witness h).
Definition try_rebuild_merkle_root (b : Block) : Result IoError Block :=
  if bool_decide (transactions b = []) then Ok (mkBlock (set_merkle_root UInt256.zero (header b)) [])
  else
    hashes ← transaction_hashes b;
    match MerkleTree.compute_root hashes with
    | Some root => mret (mkBlock (set_merkle_root root (header b)) (transactions b))
    | None => mret b
    end.

Definition size (b : Block) : N :=
  HeaderOps.size (header b) + VarInt.encoded_len (len (transactions b)) +
  foldr N.add 0 (Tx.size <$> transactions b).
Definition serialize (b : Block) : Writer.Wr :=
  _ ← Io.serialize (header b);
  _ ← Writer.write_var_int (len (transactions b));
  for_each Tx.serialize (transactions b).

(** The transactions of a block with their hashes, which must be distinct. *)
Fixpoint read_transactions (n : nat) (seen : list UInt256.t) : Reader.Rd (list (Transaction * UInt256.t)) :=
  match n with
  | O => mret []
  | S n =>
      t ← Tx.deserialize;
      match Tx.try_hash t with
      | Err _ => fail InvalidData
      | Ok h =>
          if bool_decide (h ∈ seen) then fail InvalidData
          else rest ← read_transactions n (h :: seen); mret ((t, h) :: rest)
      end
  end.
Definition deserialize : Reader.Rd Block :=
  header ← Io.deserialize;
  tx_count ← Reader.read_var_int usize_max;
  if BLOCK_MAX_TX_WIRE_LIMIT <? tx_count then fail InvalidData
  else
    txs ← read_transactions (N.to_nat tx_count) [];
    merkle_root ← (if bool_decide (txs.*2 = []) then mret UInt256.zero
                   else ok_or_invalid (MerkleTree.compute_root txs.*2));
    if negb (bool_decide (merkle_root = h_merkle_root header)) then fail InvalidData
    else mret (mkBlock header txs.*1).
#[global] Instance serializable : Serializable Block := {
  deserialize := deserialize;
  serialize := serialize;
  ser_size := size;
}.
Definition try_hash (b : Block) : Result IoError UInt256.t := HeaderOps.try_hash (header b).
End block.
End BlockOps.

(** ** Assembly of the committed block *)

Module BlockDataOps.
Section assemble.
Context `{Curves} `{Crypto}.

(** [enumerate] and [sort_by] the key; [sort_by] is stable. *)
Definition enumerate (keys : list ECPoint) : list (N * ECPoint) := imap (λ i k, (N.of_nat i, k)) keys.
Definition by_key (a b : N * ECPoint) : Prop := Point.le a.2 b.2.
#[local] Instance by_key_dec : RelDecision by_key := λ a b, Point.le_dec a.2 b.2.
Definition sorted_validators (keys : list ECPoint) : list (N * ECPoint) := merge_sort by_key (enumerate keys).

(** The signatures in the order of the sorted keys, at most [required]; a
    [HashMap] collected from pairs keeps the last of those with one index. *)
Fixpoint pick_signatures (required : nat) (sigs : gmap N bytes) (sorted : list (N * ECPoint)) : list bytes :=
  match required, sorted with
  | O, _ | _, [] => []
  | S required', (i, _) :: rest =>
      match sigs !! (i mod 256) with
      | Some sig => sig :: pick_signatures required' sigs rest
      | None => pick_signatures required sigs rest
      end
  end.
Definition signature_by_validator (l : list (N * bytes)) : gmap N bytes :=
  foldl (λ m e, <[e.1 := e.2]> m) ∅ l.

Definition assemble_block (d : BlockData) (txs : list Transaction) : Result ConsensusError Block :=
  let merkle_root := compute_merkle_root (bd_transaction_hashes d) in
  let verification := multisig_verification_script (bd_validator_pubkeys d) in
  let picked := pick_signatures (N.to_nat (bd_required_signatures d)) (signature_by_validator (bd_signatures d))
                  (sorted_validators (bd_validator_pubkeys d)) in
  if len picked <? bd_required_signatures d then Err InvalidProposal
  else
    let invocation := foldl (λ script sig, Builder.emit_push sig script) [] picked in
    Ok (mkBlock (mkHeader (bd_version d) (bd_prev_hash d) merkle_root (bd_timestamp d) (bd_nonce d)
                   (bd_block_index d) (bd_primary_index d) (bd_next_consensus d) (mkWitness invocation verification))
          txs).
End assemble.
End BlockDataOps.
