(* ===== verification/BlockFacts.v ===== *)
(** * The block format is correct

    Headers and blocks round-trip, decoded blocks have distinct transactions whose
    Merkle root is the header's, and the header hash is the one the consensus
    signs. *)
From S2P Require Import Prelude Primitives Order Hashing Io EcPoint MerkleTree OpCode Instruction ScriptBuilder RecordUpdate SampleKeys.
From S2P Require Import Signing SigningFacts Transaction TransactionFacts DbftMessages DbftContext DbftService Block.
#[local] Open Scope N_scope.
#[local] Open Scope update_scope.

(** ** Headers *)

Record header_wf (h : Header) : Prop := {
  hwf_version : h_version h = 0;
  hwf_prev : UInt256.wf (h_prev_hash h);
  hwf_root : UInt256.wf (h_merkle_root h);
  hwf_time : h_timestamp h < 2 ^ 64;
  hwf_nonce : h_nonce h < 2 ^ 64;
  hwf_index : h_index h < 2 ^ 32;
  hwf_primary : h_primary_index h < 256;
  hwf_next : UInt160.wf (h_next_consensus h);
  hwf_witness : witness_wf (h_witness h);
}.
Definition header_unsigned (h : Header) : bytes :=
  unsigned_header (h_version h) (h_prev_hash h) (h_merkle_root h) (h_timestamp h) (h_nonce h) (h_index h)
    (h_primary_index h) (h_next_consensus h).
Definition header_bytes (h : Header) : bytes := header_unsigned h ++ [x01] ++ witness_bytes (h_witness h).

Lemma writes_uint256 h : writes (Io.serialize h) (UInt256.to_array h).
Proof. apply writes_append. Qed.
Lemma writes_uint160 h : writes (Io.serialize h) (UInt160.to_array h).
Proof. apply writes_append. Qed.
Lemma len_uint256 h : len (UInt256.to_array h) = 32.
Proof. unfold len. by rewrite UInt256Facts.length_to_array. Qed.
Lemma len_uint160 h : len (UInt160.to_array h) = 20.
Proof. unfold len. by rewrite UInt160Facts.length_to_array160. Qed.
Ltac field := first [apply writes_append | apply writes_uint256 | apply writes_uint160].

Lemma header_unsigned_writes h : writes (HeaderOps.serialize_unsigned h) (header_unsigned h).
Proof. do 7 (apply writes_bind; [field|]). field. Qed.
Lemma reads_uint256 h : UInt256.wf h → reads Io.deserialize (UInt256.to_array h) h.
Proof. exact (deserialize_reads (T:=UInt256.t) h). Qed.
Lemma reads_uint160 h : UInt160.wf h → reads Io.deserialize (UInt160.to_array h) h.
Proof. exact (deserialize_reads (T:=UInt160.t) h). Qed.

#[global] Program Instance header_laws : SerializableLaws Header := { ser_wf := header_wf; enc := header_bytes }.
Next Obligation.
  intros h Hh. unfold header_bytes, header_unsigned, unsigned_header. rewrite <- !app_assoc.
  do 8 (apply writes_bind; [field|]). apply (writes_bind _ _ [x01]); [apply writes_var_int|].
  exact (@serialize_writes _ _ witness_laws _ (hwf_witness _ Hh)).
Qed.
Next Obligation.
  intros [v p r t n i pi nc w] [Hv Hp Hr Ht Hn Hi Hpi Hnc Hw]. cbn [h_version h_prev_hash h_merkle_root h_timestamp
    h_nonce h_index h_primary_index h_next_consensus h_witness] in *. subst v.
  unfold header_bytes, header_unsigned, unsigned_header. rewrite <- !app_assoc. cbn [h_version h_prev_hash h_merkle_root
    h_timestamp h_nonce h_index h_primary_index h_next_consensus h_witness].
  eapply reads_bind; [by apply reads_uint32|]. eapply reads_bind; [by apply reads_uint256|].
  eapply reads_bind; [by apply reads_uint256|]. eapply reads_bind; [by apply reads_uint64|].
  eapply reads_bind; [by apply reads_uint64|]. eapply reads_bind; [by apply reads_uint32|].
  eapply reads_bind; [apply reads_byte|]. eapply reads_bind; [by apply reads_uint160|].
  eapply (reads_bind _ _ [x01]); [by apply (reads_var_int 1 1)|]. cbn [negb N.eqb Pos.eqb].
  eapply reads_bind_pure; [exact (@deserialize_reads _ _ witness_laws w Hw)|].
  rewrite to_N_as_u8, N.mod_small by done. apply reads_ret.
Qed.
Next Obligation.
  intros h Hh. unfold header_bytes, header_unsigned, unsigned_header. cbn [ser_size HeaderOps.serializable].
  unfold HeaderOps.size. change (WitnessOps.size (h_witness h)) with (ser_size (h_witness h)).
  rewrite (@ser_size_len _ _ witness_laws _ (hwf_witness _ Hh)).
  change (@enc _ _ witness_laws (h_witness h)) with (witness_bytes (h_witness h)).
  rewrite !len_app, !len_le, !len_uint256, len_uint160, !len_cons, len_nil. lia.
Qed.
Lemma header_returns : returns (Io.deserialize (T:=Header)) header_wf.
Proof.
  eapply returns_bind; [apply returns_any|]. intros v _. cbn beta.
  destruct (N.ltb_spec 0 v) as [|Hv]; [apply returns_fail|].
  eapply returns_bind; [apply returns_uint256|]. intros p Hp. eapply returns_bind; [apply returns_uint256|]. intros r Hr.
  eapply returns_bind; [apply returns_uint64|]. intros t Ht. eapply returns_bind; [apply returns_uint64|]. intros n Hn.
  eapply returns_bind; [apply returns_uint32|]. intros i Hi. eapply returns_bind; [apply returns_any|]. intros pi _.
  eapply returns_bind; [apply returns_uint160|]. intros nc Hnc. eapply returns_bind; [apply returns_any|]. intros k _.
  cbn beta in *. case_match; [apply returns_fail|]. eapply returns_bind; [apply witness_returns|]. intros w Hw.
  apply returns_ret. split; try done; [cbn; lia | apply to_N_lt].
Qed.

(** ** Transactions of a block *)

Section blocks.
Context `{Curves} `{Crypto}.

Definition tx_hash (t : Transaction) : UInt256.t := UInt256.from_array (sha256 (unsigned_bytes t)).
Lemma try_hash_wf t : transaction_wf t → Tx.try_hash t = Ok (tx_hash t).
Proof. intros Ht. unfold Tx.try_hash. by rewrite hash_data_unsigned. Qed.
Lemma try_hashes_wf l : Forall transaction_wf l → BlockOps.try_hashes l = Ok (tx_hash <$> l).
Proof.
  induction 1 as [|t l Ht _ IH]; [done|]. cbn [BlockOps.try_hashes]. by rewrite (try_hash_wf t Ht), IH.
Qed.
Lemma distinct_hashes_wf seen l :
  Forall transaction_wf l →
  BlockOps.distinct_hashes seen l = true ↔ NoDup (tx_hash <$> l) ∧ ∀ h, h ∈ seen → h ∉ tx_hash <$> l.
Proof.
  intros HF. revert seen. induction HF as [|t l Ht _ IH]; intros seen; cbn [BlockOps.distinct_hashes].
  { split; [|done]. intros _. split; [constructor|]. intros h _. apply not_elem_of_nil. }
  rewrite (try_hash_wf t Ht), fmap_cons, NoDup_cons. case_bool_decide as Hin.
  - split; [done|]. intros [_ Hs]. destruct (Hs _ Hin). by constructor.
  - rewrite IH. setoid_rewrite elem_of_cons. naive_solver.
Qed.

Definition with_hash (t : Transaction) : Transaction * UInt256.t := (t, tx_hash t).
Lemma with_hash_fst l : (with_hash <$> l).*1 = l.
Proof. induction l as [|t l IH]; [done|]. cbn. by f_equal. Qed.
Lemma with_hash_snd l : (with_hash <$> l).*2 = tx_hash <$> l.
Proof. by rewrite <- list_fmap_compose. Qed.
Lemma reads_transactions seen l :
  Forall transaction_wf l → NoDup (tx_hash <$> l) → (∀ h, h ∈ seen → h ∉ tx_hash <$> l) →
  reads (BlockOps.read_transactions (length l) seen) (concat (transaction_bytes <$> l)) (with_hash <$> l).
Proof.
  intros HF. revert seen. induction HF as [|t l Ht _ IH]; intros seen Hnd Hs; [apply reads_ret|].
  cbn [length BlockOps.read_transactions]. eapply reads_bind; [exact (@deserialize_reads _ _ transaction_laws t Ht)|].
  rewrite fmap_cons, NoDup_cons in Hnd. rewrite (try_hash_wf t Ht).
  rewrite bool_decide_false by (intros Hin; apply (Hs _ Hin); by constructor).
  eapply reads_bind_pure; [|apply reads_ret]. apply IH; [apply Hnd|].
  intros h [->|Hh]%elem_of_cons; [apply Hnd|]. intros Hin. apply (Hs h Hh). by constructor.
Qed.
Lemma returns_transactions (P : Transaction → Prop) n seen :
  returns (Tx.deserialize) P → (∀ t, P t → transaction_wf t) →
  returns (BlockOps.read_transactions n seen)
    (λ l, ∃ ts, l = with_hash <$> ts ∧ length ts = n ∧ Forall transaction_wf ts ∧ NoDup (tx_hash <$> ts) ∧
       ∀ h, h ∈ seen → h ∉ tx_hash <$> ts).
Proof.
  intros Hd HP. revert seen. induction n as [|n IH]; intros seen; cbn [BlockOps.read_transactions].
  { apply returns_ret. exists []. repeat split; [constructor|constructor|]. intros h _. apply not_elem_of_nil. }
  eapply returns_bind; [exact Hd|]. intros t Ht%HP. rewrite (try_hash_wf t Ht).
  case_bool_decide as Hin; [apply returns_fail|]. eapply returns_bind; [apply IH|].
  intros l (ts & -> & <- & HF & Hnd & Hs). apply returns_ret. exists (t :: ts).
  split; [done|]. split; [done|]. split; [by constructor|]. rewrite fmap_cons, NoDup_cons.
  split; [split; [apply Hs; by constructor | done]|].
  intros h Hh [->|Hx]%elem_of_cons; [done|]. apply (Hs h); [by constructor | done].
Qed.

(** ** Blocks *)

(** The rules of a block of the wire. *)
Record block_wf (b : Block) : Prop := {
  bwf_header : header_wf (header b);
  bwf_transactions : Forall transaction_wf (transactions b);
  bwf_limit : len (transactions b) ≤ BlockOps.BLOCK_MAX_TX_WIRE_LIMIT;
  bwf_distinct : BlockOps.verify_no_duplicate_transactions b = true;
  bwf_root : BlockOps.verify_merkle_root b = true;
}.
Definition block_bytes (b : Block) : bytes := header_bytes (header b) ++ enc_array (transactions b).

(** The Merkle root of a list of hashes as the header stores it. *)
Definition root_of (hashes : list UInt256.t) : option UInt256.t :=
  if bool_decide (hashes = []) then Some UInt256.zero else MerkleTree.compute_root hashes.
Lemma verify_merkle_root_wf b :
  Forall transaction_wf (transactions b) →
  BlockOps.verify_merkle_root b = true ↔ root_of (tx_hash <$> transactions b) = Some (h_merkle_root (header b)).
Proof.
  intros HF. unfold BlockOps.verify_merkle_root, BlockOps.transaction_hashes, root_of. rewrite (try_hashes_wf _ HF).
  destruct (transactions b) as [|t l]; cbn [fmap list_fmap].
  - rewrite !bool_decide_true by done. rewrite bool_decide_eq_true. split; [by intros -> | by intros [= ->]].
  - rewrite !(bool_decide_false (_ :: _ = [])) by done. destruct (MerkleTree.compute_root _) as [root|]; [|by split].
    rewrite bool_decide_eq_true. split; [by intros -> | by intros [= ->]].
Qed.
#[global] Program Instance block_laws : SerializableLaws Block := { ser_wf := block_wf; enc := block_bytes }.
Next Obligation.
  intros b [Hh Ht _ _ _]. apply writes_bind; [exact (@serialize_writes _ _ header_laws _ Hh)|].
  apply writes_bind; [apply writes_var_int|]. apply (writes_for_each Tx.serialize transaction_bytes).
  eapply Forall_impl; [exact Ht|]. exact (@serialize_writes _ _ transaction_laws).
Qed.
Next Obligation.
  intros b [Hh Ht Hl [Hd _]%distinct_hashes_wf Hr%verify_merkle_root_wf]; [|done..].
  eapply reads_bind; [exact (@deserialize_reads _ _ header_laws _ Hh)|].
  eapply reads_bind; [apply reads_var_int; unfold BlockOps.BLOCK_MAX_TX_WIRE_LIMIT, usize_max, u64_max in *; lia|].
  destruct (N.ltb_spec BlockOps.BLOCK_MAX_TX_WIRE_LIMIT (len (transactions b))); [lia|].
  eapply reads_bind_pure.
  { unfold len at 1. rewrite Nat2N.id. apply reads_transactions; [done..|]. intros h Hn. by apply not_elem_of_nil in Hn. }
  rewrite with_hash_fst, with_hash_snd.
  apply (reads_bind_nil _ _ _ (h_merkle_root (header b))).
  - unfold root_of in Hr. case_bool_decide; [injection Hr as ->; apply reads_ret|]. rewrite Hr. apply reads_ret.
  - rewrite bool_decide_true by done. cbn [negb]. destruct b. apply reads_ret.
Qed.
Next Obligation.
  intros b [Hh Ht _ _ _]. unfold block_bytes, enc_array. cbn [ser_size BlockOps.serializable]. unfold BlockOps.size.
  change (HeaderOps.size (header b)) with (ser_size (header b)). rewrite (@ser_size_len _ _ header_laws _ Hh).
  rewrite !len_app, len_var_int_bytes, <- N.add_assoc. rewrite (sum_sizes Tx.size transaction_bytes); [reflexivity|].
  eapply Forall_impl; [exact Ht|]. exact (@ser_size_len _ _ transaction_laws).
Qed.

(** The hash the consensus signs is the hash of the header. *)
Lemma header_hash h :
  HeaderOps.try_hash h =
  Ok (compute_header_hash (h_version h) (h_prev_hash h) (h_merkle_root h) (h_timestamp h) (h_nonce h) (h_index h)
        (h_primary_index h) (h_next_consensus h)).
Proof.
  unfold HeaderOps.try_hash, HeaderOps.try_get_hash_data.
  by rewrite (writes_run _ _ (header_unsigned_writes h)).
Qed.
Lemma block_encodes b : block_wf b → to_array b = Ok (block_bytes b).
Proof. intros Hb. unfold to_array. by rewrite (writes_run _ _ (@serialize_writes _ _ block_laws b Hb)). Qed.
Lemma block_decodes b : block_wf b → (BlockOps.deserialize (Reader.new (block_bytes b))).2 = Ok b.
Proof. intros Hb. exact (reads_run _ _ _ (@deserialize_reads _ _ block_laws b Hb)). Qed.

Section sec1.
Context (sec1 : ∀ d p, p256_affine d = Some p → p256_affine (p256_compress p) = Some p).

Lemma block_returns : returns BlockOps.deserialize block_wf.
Proof.
  eapply returns_bind; [apply header_returns|]. intros h Hh.
  eapply returns_bind; [apply returns_any|]. intros n _. cbn beta.
  destruct (N.ltb_spec BlockOps.BLOCK_MAX_TX_WIRE_LIMIT n) as [|Hn]; [apply returns_fail|].
  eapply returns_bind; [apply (returns_transactions transaction_wf); [exact (transaction_returns sec1) | done]|].
  intros l (ts & -> & Hts & HF & Hnd & _). cbn beta. rewrite with_hash_fst, with_hash_snd.
  eapply (returns_bind _ _ (λ root, root_of (tx_hash <$> ts) = Some root)).
  { unfold root_of. case_bool_decide; [by apply returns_ret | by apply returns_some]. }
  intros root Hroot. case_bool_decide as Er; [|apply returns_fail]. apply returns_ret. subst root. split; cbn.
  - done.
  - done.
  - unfold len in *. lia.
  - apply distinct_hashes_wf; [done|]. split; [done|]. intros ? Hin. by apply not_elem_of_nil in Hin.
  - by apply verify_merkle_root_wf.
Qed.

(** (C32) Whatever the block decoder accepts is well formed and intact: its header
    and every transaction satisfy the structural rules, at most 65535 transactions
    with distinct hashes, and the header's Merkle root is the root of those
    hashes; it re-encodes to bytes that decode to the same block, and its size is
    their number. *)
Theorem decoded_block_intact bs r b :
  BlockOps.deserialize (Reader.new bs) = (r, Ok b) →
  block_wf b ∧
  ∃ bs', to_array b = Ok bs' ∧ (BlockOps.deserialize (Reader.new bs')).2 = Ok b ∧ BlockOps.size b = len bs'.
Proof.
  intros E. assert (block_wf b) as Hb by (by eapply block_returns). split; [done|]. exists (block_bytes b).
  split; [by apply block_encodes|]. split; [by apply block_decodes|]. exact (@ser_size_len _ _ block_laws b Hb).
Qed.
End sec1.
End blocks.

(** ** A sample block *)

#[local] Existing Instance checksum_crypto.
#[local] Existing Instance sample_curves.

Definition sample_root : UInt256.t :=
  Eval vm_compute in default UInt256.zero (root_of (tx_hash <$> [sample_transaction])).
Definition sample_header : Header :=
  mkHeader 0 (UInt256.mk 1 2 3 4) sample_root 1000 7 12 3 (UInt160.mk 4 5 6) (mkWitness [x11] [x12]).
Definition sample_block : Block := mkBlock sample_header [sample_transaction].
Definition sample_block_bytes : bytes := Eval vm_compute in block_bytes sample_block.
Lemma sample_block_decodes :
  BlockOps.deserialize (Reader.new sample_block_bytes) =
  (mkReader sample_block_bytes (len sample_block_bytes), Ok sample_block).
Proof. vm_compute. reflexivity. Qed.

Lemma decoded_block_intact_witness : block_wf sample_block.
Proof. exact (proj1 (decoded_block_intact sample_sec1 _ _ _ sample_block_decodes)). Defined.
