(* ===== verification/Quorum.v ===== *)
(** * Quorums

    Two sets of [M = N - (N-1)/3] validators out of [N] share an honest one when
    at most [(N-1)/3] are faulty. *)
From S2P Require Import Prelude EcPoint ScriptBuilder.

(** A list of distinct indices below [n] has at most [n] elements. *)
Lemma bounded_length (n : nat) (l : list nat) : NoDup l → (∀ i, i ∈ l → i < n) → length l ≤ n.
Proof.
  intros Hnd Hb. replace n with (length (seq 0 n)) by apply length_seq. apply submseteq_length, NoDup_submseteq; [done|].
  intros i Hi. apply elem_of_seq. specialize (Hb i Hi). lia.
Qed.

(** Distinct positions of a list that satisfy [P] are at most as many as its elements that do. *)
Lemma positions_length {A} `{EqDecision A} (P : A → Prop) `{∀ x, Decision (P x)} (l : list A) (I : list nat) :
  NoDup l → NoDup I → (∀ i, i ∈ I → ∃ x, l !! i = Some x ∧ P x) → length I ≤ length (filter P l).
Proof.
  intros Hl HI Hp. set (xs := omap (λ i, l !! i) I).
  assert (length xs = length I) as <-.
  { subst xs. clear HI. induction I as [|i I IH]; [done|].
    destruct (Hp i ltac:(by constructor)) as (x & Hx & _). cbn. rewrite Hx. cbn. f_equal. apply IH.
    intros j Hj. apply Hp. by constructor. }
  apply submseteq_length, NoDup_submseteq.
  - subst xs. clear Hp. induction HI as [|i I Hi HI IH]; [constructor|]. cbn.
    destruct (l !! i) as [x|] eqn:Hx; [|done]. constructor; [|done].
    rewrite list_elem_of_omap. intros (j & Hj & Hjx). by rewrite (NoDup_lookup _ _ _ _ Hl Hx Hjx) in Hi.
  - intros x (i & Hi & Hx)%list_elem_of_omap. destruct (Hp i Hi) as (y & Hy & HPy).
    rewrite Hx in Hy. simplify_eq. apply list_elem_of_filter. split; [done|].
    by eapply list_elem_of_lookup_2.
Qed.

Lemma intersection_length (n : nat) (a b : list nat) :
  NoDup a → NoDup b → (∀ i, i ∈ a → i < n) → (∀ i, i ∈ b → i < n) →
  length a + length b ≤ n + length (filter (λ i, i ∈ b) a).
Proof.
  intros Ha Hb Hna Hnb.
  assert (length (filter (λ i, i ∉ b) a ++ b) ≤ n) as Hle.
  { apply bounded_length.
    - apply NoDup_app. split; [by apply NoDup_filter|]. split; [|done].
      intros i [Hi _]%list_elem_of_filter. done.
    - intros i [[_ Hi]%list_elem_of_filter|Hi]%elem_of_app; auto. }
  rewrite length_app in Hle.
  assert (length a = length (filter (λ i, i ∈ b) a) + length (filter (λ i, i ∉ b) a)) as ->; [|lia].
  clear. induction a as [|i a IH]; [done|]. rewrite !filter_cons.
  destruct (decide (i ∈ b)), (decide (i ∉ b)); cbn; [done|lia|lia|done].
Qed.

Lemma some_or_all {A} (P : A → Prop) `{∀ x, Decision (P x)} (l : list A) (I : list nat) :
  (∀ i, i ∈ I → i < length l) →
  (∃ i x, i ∈ I ∧ l !! i = Some x ∧ ¬ P x) ∨ (∀ i, i ∈ I → ∃ x, l !! i = Some x ∧ P x).
Proof.
  induction I as [|i I IH]; intros Hb; [right; by intros i ?%elem_of_nil|].
  destruct (lookup_lt_is_Some_2 l i (Hb i ltac:(by constructor))) as [x Hx].
  destruct (decide (P x)); [|left; exists i, x; split; [by constructor | done]].
  destruct IH as [(j & y & Hj & ?)|Hall]; [intros j Hj; apply Hb; by constructor | |].
  - left. exists j, y. split; [by constructor | done].
  - right. intros j [->|Hj]%elem_of_cons; [by exists x | auto].
Qed.

Lemma quorum_intersection {A} `{EqDecision A} (P : A → Prop) `{∀ x, Decision (P x)} (l : list A) (a b : list nat) :
  l ≠ [] → NoDup l → NoDup a → NoDup b →
  (∀ i, i ∈ a → i < length l) → (∀ i, i ∈ b → i < length l) →
  (RedeemScript.bft_threshold (len l) ≤ len a)%N → (RedeemScript.bft_threshold (len l) ≤ len b)%N →
  (len (filter P l) ≤ (len l - 1) / 3)%N →
  ∃ i x, i ∈ a ∧ i ∈ b ∧ l !! i = Some x ∧ ¬ P x.
Proof.
  intros Hne Hl Ha Hb Hna Hnb Hqa Hqb Hf.
  pose proof (intersection_length (length l) a b Ha Hb Hna Hnb) as Hi.
  set (common := filter (λ i, i ∈ b) a) in *.
  destruct (some_or_all P l common) as [(i & x & Hin & Hx & Hnp)|Hall].
  - intros i [_ Hi']%list_elem_of_filter. auto.
  - apply list_elem_of_filter in Hin as [? ?]. by exists i, x.
  - assert (length common ≤ length (filter P l)) as Hc
      by (apply positions_length; [done | by apply NoDup_filter | done]).
    assert (length l ≠ 0) by (by destruct l).
    unfold RedeemScript.bft_threshold, len in *.
    destruct (N.eqb_spec (N.of_nat (length l)) 0) as [|_]; [lia|].
    pose proof (N.Div0.mul_div_le (N.of_nat (length l) - 1) 3). lia.
Qed.
