(* ===== verification/DbftQuiet.v ===== *)
(** * Quiet steps of the dBFT service

    Traces and what is in them, and the steps of the service that change neither
    the proposal nor the commits and only add harmless actions to the trace: most
    of the service is quiet, and a quiet step keeps the invariant of DbftInv.v. *)
From S2P Require Import Prelude Primitives Order Hashing Io EcPoint MerkleTree OpCode Instruction.
From S2P Require Import ScriptBuilder RecordUpdate DbftMessages DbftContext DbftService Hoare.
#[local] Open Scope N_scope.
#[local] Open Scope update_scope.

Section quiet.
Context {crypto : Crypto} {ripemd : Ripemd} {curves : Curves} {order : HashOrder} {mcache : MessageCache} {bincode : Bincode}.
Implicit Types (s : Service) (c : ConsensusContext) (tr : list Action).

(** ** Running the context operations *)

Lemma bind_set_ctx {A} g (k : unit → St A) s : (set_ctx g ≫= k) s = k tt (s <| context := g (context s) |>).
Proof. reflexivity. Qed.
Lemma bind_ctx_id {A} (k : ConsensusContext → St A) s : (ctx id ≫= k) s = k (context s) s.
Proof. reflexivity. Qed.
Lemma bind_gets {A B} (g : Service → A) (k : A → St B) s : (gets g ≫= k) s = k (g s) s.
Proof. reflexivity. Qed.
Lemma bind_lift_ok {A B} (a : A) (k : A → St B) s : (lift (Ok a) ≫= k) s = k a s.
Proof. reflexivity. Qed.
Lemma bind_run {A B} (m : St A) (k : A → St B) s :
  (m ≫= k) s = match m s with (s', Ok a) => k a s' | (s', Err e) => (s', Err e) end.
Proof. reflexivity. Qed.
Lemma context_with s c : context (s <| context := c |>) = c.
Proof. reflexivity. Qed.
Lemma with_context_twice s c c' : s <| context := c |> <| context := c' |> = s <| context := c' |>.
Proof. reflexivity. Qed.

Lemma with_own_context s : s <| context := context s |> = s.
Proof. by destruct s. Qed.

(** ** Traces *)

Definition hash_of (pre : bytes) : UInt256.t := UInt256.from_array (sha256 pre).

#[local] Arguments hash_of : simpl never.

Definition signed_heights tr : list N :=
  omap (λ a, match a with SignedBlock h _ _ => Some h | _ => None end) tr.
(** The bytes whose hashes a node signed. *)
Definition preimages tr : list bytes :=
  omap (λ a, match a with SignedBlock _ _ pre | SignedPayload pre => Some pre | _ => None end) tr.

(** The header of a committed block. *)
Definition block_header (bd : BlockData) : bytes :=
  unsigned_header (bd_version bd) (bd_prev_hash bd) (compute_merkle_root (bd_transaction_hashes bd))
    (bd_timestamp bd) (bd_nonce bd) (bd_block_index bd) (bd_primary_index bd) (bd_next_consensus bd).

Lemma elem_of_signed_heights tr h : h ∈ signed_heights tr ↔ ∃ v pre, SignedBlock h v pre ∈ tr.
Proof.
  unfold signed_heights. rewrite list_elem_of_omap. split.
  - intros (a & Ha & E). destruct a; simplify_eq. eauto.
  - intros (v & pre & Ha). by exists (SignedBlock h v pre).
Qed.
Lemma elem_of_preimages tr pre :
  pre ∈ preimages tr ↔ (∃ h v, SignedBlock h v pre ∈ tr) ∨ SignedPayload pre ∈ tr.
Proof.
  unfold preimages. rewrite list_elem_of_omap. split.
  - intros (a & Ha & E). destruct a; simplify_eq; eauto.
  - intros [(h & v & Ha)|Ha]; by eexists.
Qed.
Lemma signed_heights_app l tr : signed_heights (l ++ tr) = signed_heights l ++ signed_heights tr.
Proof. apply omap_app. Qed.

(** Actions that neither sign, save nor commit a block, and sign only payloads. *)
Record harmless (net : N) (l : list Action) : Prop := {
  harmless_blocks h v pre : SignedBlock h v pre ∉ l;
  harmless_commits h bh bd : Emitted (BlockCommitted h bh bd) ∉ l;
  harmless_signed d sig : Signed d sig ∈ l → ∃ pre, SignedPayload pre ∈ l ∧ d = sign_data net (hash_of pre);
  harmless_payloads pre : SignedPayload pre ∈ l → head pre = Some x04;
  harmless_saved file : Saved file ∉ l;
}.

Lemma harmless_nil net : harmless net [].
Proof. split; intros; try inv select (_ ∈ []); apply not_elem_of_nil. Qed.
Lemma harmless_app net l k : harmless net l → harmless net k → harmless net (l ++ k).
Proof.
  intros [B C S P F] [B' C' S' P' F']. split.
  - intros h v pre [?|?]%elem_of_app; [by eapply B | by eapply B'].
  - intros h bh bd [?|?]%elem_of_app; [by eapply C | by eapply C'].
  - intros d sig [Hd|Hd]%elem_of_app; [destruct (S _ _ Hd) as (pre & ? & ?) | destruct (S' _ _ Hd) as (pre & ? & ?)];
      exists pre; rewrite elem_of_app; auto.
  - intros pre [?|?]%elem_of_app; auto.
  - intros file [?|?]%elem_of_app; [by eapply F | by eapply F'].
Qed.
(** One action that is no signature, no snapshot and no committed block. *)
Definition plain (a : Action) : bool :=
  match a with
  | Signed _ _ | SignedBlock _ _ _ | SignedPayload _ | Saved _ | Emitted (BlockCommitted _ _ _) => false
  | _ => true
  end.
Lemma harmless_plain net a : plain a = true → harmless net [a].
Proof.
  intros Ha. split; intros *; rewrite list_elem_of_singleton; intros <-; done.
Qed.
Lemma harmless_payload net pre sig :
  head pre = Some x04 → harmless net [SignedPayload pre; Signed (sign_data net (hash_of pre)) sig].
Proof.
  intros Hp. split; intros *; rewrite ?elem_of_cons, elem_of_nil; [by intros [?|[?|[]]] | by intros [?|[?|[]]] | | |].
  - intros [?|[?|[]]]; simplify_eq. exists pre. split; [by constructor|done].
  - intros [?|[?|[]]]; by simplify_eq.
  - by intros [?|[?|[]]].
Qed.

(** ** Quiet steps *)

(** The fields the invariant speaks of agree. *)
Record same_core c c' : Prop := {
  core_index : block_index c' = block_index c;
  core_view : view_number c' = view_number c;
  core_validators : validators c' = validators c;
  core_me : my_index c' = my_index c;
  core_version : version c' = version c;
  core_prev : prev_hash c' = prev_hash c;
  core_next : next_consensus c' = next_consensus c;
  core_hash : proposed_block_hash c' = proposed_block_hash c;
  core_time : proposed_timestamp c' = proposed_timestamp c;
  core_txs : proposed_tx_hashes c' = proposed_tx_hashes c;
  core_nonce : nonce c' = nonce c;
  core_request : prepare_request_received c' = prepare_request_received c;
  core_commits : commits c' = commits c;
  core_views : commit_view_numbers c' = commit_view_numbers c;
}.

Lemma same_core_refl c : same_core c c.
Proof. by split. Qed.
Lemma same_core_trans c1 c2 c3 : same_core c1 c2 → same_core c2 c3 → same_core c1 c3.
Proof. intros [] []. split; congruence. Qed.

Lemma primary_index_core c c' : same_core c c' → primary_index c' = primary_index c.
Proof. intros [Ei Ev Evs]. unfold primary_index, validator_count. by rewrite Ei, Ev, Evs. Qed.
Lemma proposal_header_core c c' : same_core c c' → proposal_header c' = proposal_header c.
Proof.
  intros Hc. unfold proposal_header. rewrite (primary_index_core _ _ Hc).
  destruct Hc. congruence.
Qed.

Record Quiet s s' : Prop := {
  quiet_core : same_core (context s) (context s');
  quiet_network : network s' = network s;
  quiet_trace : ∃ l, trace s' = l ++ trace s ∧ harmless (network s) l;
}.

Lemma Quiet_refl s : Quiet s s.
Proof. split; [apply same_core_refl | done | exists []; split; [done | apply harmless_nil]]. Qed.
Lemma Quiet_trans s1 s2 s3 : Quiet s1 s2 → Quiet s2 s3 → Quiet s1 s3.
Proof.
  intros [C N (l & T & L)] [C' N' (k & T' & K)]. split.
  - by eapply same_core_trans.
  - congruence.
  - exists (k ++ l). rewrite T', T, app_assoc. split; [done|]. rewrite N in K. by apply harmless_app.
Qed.

Definition quiet {A} (m : St A) : Prop := ∀ s0, keeps (Quiet s0) m.

(** A step that is quiet from every state is quiet after quiet steps. *)
Lemma quiet_intro {A} (m : St A) : (∀ s, Quiet s (m s).1) → quiet m.
Proof. intros Hm s0 s Hs. eapply Quiet_trans; [exact Hs | apply Hm]. Qed.
Lemma quiet_run {A} (m : St A) s : quiet m → Quiet s (m s).1.
Proof. intros Hm. apply Hm, Quiet_refl. Qed.

Lemma quiet_bind {A B} (m : St A) (k : A → St B) : quiet m → (∀ a, quiet (k a)) → quiet (m ≫= k).
Proof. intros Hm Hk s0. apply keeps_bind; [apply Hm | intros a; apply Hk]. Qed.
Lemma quiet_ret {A} (a : A) : quiet (mret a).
Proof. intros s0. apply keeps_ret. Qed.
Lemma quiet_fail {A} e : quiet (@fail _ _ A e).
Proof. intros s0. apply keeps_fail. Qed.
Lemma quiet_lift {A} (r : CResult A) : quiet (lift r).
Proof. intros s0. apply keeps_lift. Qed.
Lemma quiet_gets {A} (g : Service → A) : quiet (gets g).
Proof. intros s0. apply keeps_gets. Qed.
Lemma quiet_ctx {A} (g : ConsensusContext → A) : quiet (ctx g).
Proof. by intros s0 s. Qed.
Lemma quiet_attempt {A} (m : St A) : quiet m → quiet (attempt m).
Proof. intros Hm s0 s Hs. specialize (Hm s0 s Hs). unfold attempt. by destruct (m s). Qed.
Lemma quiet_ask {A} (q : World → N → A) : quiet (ask q).
Proof. apply quiet_intro. intros s. split; [by split | done | exists []; split; [done | apply harmless_nil]]. Qed.
Lemma quiet_log a : plain a = true → quiet (log a).
Proof.
  intros Ha. apply quiet_intro. intros s. split; [by split | done |].
  exists [a]. split; [done | by apply harmless_plain].
Qed.
Lemma quiet_set_ctx g : (∀ c, same_core c (g c)) → quiet (set_ctx g).
Proof.
  intros Hg. apply quiet_intro. intros s. split; [apply Hg | done | exists []; split; [done | apply harmless_nil]].
Qed.
Lemma quiet_in_context {A} (m : M ConsensusContext ConsensusError A) :
  (∀ c, same_core c (m c).1) → quiet (in_context m).
Proof.
  intros Hm. apply quiet_intro. intros s. specialize (Hm (context s)). unfold in_context.
  destruct (m (context s)) as [c r]. split; [done | done | exists []; split; [done | apply harmless_nil]].
Qed.
Lemma quiet_modify g :
  (∀ s, context (g s) = context s ∧ network (g s) = network s ∧ trace (g s) = trace s) → quiet (modify g).
Proof.
  intros Hg. apply quiet_intro. intros s. destruct (Hg s) as (C & N & T). cbn. split.
  - rewrite C. apply same_core_refl.
  - done.
  - exists []. split; [done | apply harmless_nil].
Qed.
Lemma quiet_for_each {A} (body : A → St unit) l : (∀ x, quiet (body x)) → quiet (for_each body l).
Proof. intros Hb s0. apply keeps_for_each. intros x _. apply Hb. Qed.

Lemma payload_hash_of c p h :
  dbft_payload_hash c p = Ok h → ∃ pre, dbft_unsigned_extensible_bytes c p = Ok pre ∧ h = hash_of pre.
Proof.
  unfold dbft_payload_hash. intros (pre & E & Hh)%Result_bind_ok. exists pre. split; [done|].
  assert (UInt256.from_bytes (sha256 pre) = Ok (hash_of pre)) as Eh
    by (unfold UInt256.from_bytes; by rewrite sha256_length).
  rewrite Eh in Hh. congruence.
Qed.

Lemma write_unsigned_bytes height sender message :
  ∃ tail, writes (write_unsigned height sender message) (x04 :: tail).
Proof.
  eexists. unfold write_unsigned. eapply (writes_bind _ _ (x04 :: name "dBFT") _).
  - apply (writes_var_bytes (name "dBFT")).
  - repeat eapply writes_bind; try apply writes_append. apply writes_var_bytes.
Qed.

(** A dBFT payload starts with the length of its category. *)
Lemma unsigned_head c p pre : dbft_unsigned_extensible_bytes c p = Ok pre → head pre = Some x04.
Proof.
  unfold dbft_unsigned_extensible_bytes. intros (sender & _ & E)%Result_bind_ok.
  destruct (write_unsigned_bytes (cp_block_index p) sender (Payload.to_message_bytes p)) as [tail Hw].
  rewrite (Hw Writer.new) in E. by simplify_eq/=.
Qed.

Lemma quiet_my_index : quiet svc_my_index.
Proof. by intros s0 s. Qed.
Lemma quiet_send_event e : plain (Emitted e) = true → quiet (send_event e).
Proof.
  intros He. apply quiet_bind; [apply quiet_ask|]. intros []; [by apply quiet_log | apply quiet_fail].
Qed.
Lemma quiet_verify_signature d sig i : quiet (verify_signature d sig i).
Proof.
  apply quiet_bind; [apply quiet_ctx|]. intros vs. repeat case_match; try apply quiet_ret.
  apply quiet_bind; [by apply quiet_log | intros _; apply quiet_ret].
Qed.

(** Signing logs one signature and leaves the rest alone. *)
Lemma sign_run d s :
  ∃ s1, Quiet s s1 ∧ trace s1 = trace s ∧
    match (sign d s).2 with
    | Ok sig => (sign d s).1 = s1 <| trace ::= cons (Signed d sig) |>
    | Err _ => (sign d s).1 = s1
    end.
Proof.
  unfold sign.
  assert (∃ s1, Quiet s s1 ∧ trace s1 = trace s ∧
    ((if signer s then sign_with_signer d else sign_with_key d) s).1 = s1) as (s1 & HQ & HT & E).
  { destruct (signer s).
    - unfold sign_with_signer, my_script_hash, svc_my_index, ctx, lift, ask, mbind, M_bind.
      destruct (my_index (context s)) as [idx|]; cbn;
        [|exists s; auto using Quiet_refl].
      destruct (validators (context s) !! N.to_nat idx) as [v|]; cbn; [|exists s; auto using Quiet_refl].
      exists (s <| tick ::= N.succ |>). split; [|split; [done|]].
      + apply (quiet_run (ask (λ _ _, tt))). apply quiet_ask.
      + destruct (w_signer _ _ _ _); cbn; [by case_match | done].
    - exists s. split; [apply Quiet_refl|]. split; [done|].
      unfold sign_with_key, gets, mbind, M_bind. cbn. by repeat case_match. }
  exists s1. split; [done|]. split; [done|]. unfold mbind, M_bind, gets. cbn.
  destruct ((if signer s then sign_with_signer d else sign_with_key d) s) as [s2 [sig|e]]; cbn in *; by subst.
Qed.

Lemma sign_data_of net c p d :
  dbft_sign_data net c p = Ok d →
  ∃ pre, dbft_unsigned_extensible_bytes c p = Ok pre ∧ d = sign_data net (hash_of pre).
Proof.
  unfold dbft_sign_data. intros (h & (pre & Hpre & ->)%payload_hash_of & E)%Result_bind_ok.
  exists pre. split; [done | congruence].
Qed.

Lemma Quiet_log_payload s pre sig :
  head pre = Some x04 →
  Quiet s (s <| trace ::= cons (Signed (sign_data (network s) (hash_of pre)) sig) |>
             <| trace ::= cons (SignedPayload pre) |>).
Proof.
  intros Hp. split; [by split | done |].
  exists [SignedPayload pre; Signed (sign_data (network s) (hash_of pre)) sig].
  split; [done | by apply harmless_payload].
Qed.

(** A payload is created, signed or not, without touching the round. *)
Lemma create_payload_run ty d s :
  Quiet s (create_payload ty d s).1 ∧
  match my_index (context s) with
  | None => (create_payload ty d s).2 = Err NotValidator
  | Some idx =>
      ∃ w, (create_payload ty d s).2 =
        Ok (mkPayload (network s) (block_index (context s)) idx (view_number (context s)) ty d w)
  end.
Proof.
  unfold create_payload, gets, ctx, svc_my_index, mbind, M_bind. cbn -[sign dbft_sign_data].
  destruct (my_index (context s)) as [idx|] eqn:Em; cbn -[sign dbft_sign_data];
    [|split; [apply Quiet_refl | done]].
  set (p := Payload.new _ _ _ _ _ _).
  destruct (dbft_sign_data (network s) (context s) p) as [sd|e] eqn:Ed; cbn -[sign];
    [|split; [apply Quiet_refl | by eexists]].
  destruct (sign_data_of _ _ _ _ Ed) as (pre & Hpre & ->). rewrite Hpre.
  destruct (sign_run (sign_data (network s) (hash_of pre)) s) as (s1 & HQ & _ & Hs).
  unfold attempt. destruct (sign _ s) as [s2 [sig|e]]; cbn in *; subst s2.
  - split; [|by eexists]. eapply Quiet_trans; [exact HQ|].
    rewrite <- (quiet_network _ _ HQ). apply Quiet_log_payload. by eapply unsigned_head.
  - split; [done | by eexists].
Qed.
Lemma quiet_create_payload ty d : quiet (create_payload ty d).
Proof. apply quiet_intro. intros s. apply create_payload_run. Qed.
End quiet.

#[global] Arguments hash_of : simpl never.
#[global] Arguments block_header : simpl never.

Create HintDb quiet.
#[export] Hint Resolve quiet_ret quiet_fail quiet_lift quiet_gets quiet_ctx quiet_ask quiet_my_index
  quiet_verify_signature quiet_create_payload : quiet.
#[export] Hint Extern 1 (quiet (send_event _)) => apply quiet_send_event; reflexivity : quiet.
#[export] Hint Extern 1 (quiet (broadcast _)) => apply quiet_send_event; reflexivity : quiet.

(** Through the structure of a computation, down to quiet steps. *)
Ltac quiet_step :=
  match goal with
  | |- quiet (_ ≫= _) => apply quiet_bind; [|intros ?]
  | |- quiet (attempt _) => apply quiet_attempt
  | |- quiet (for_each _ _) => apply quiet_for_each; intros ?
  | |- quiet (set_ctx _) => apply quiet_set_ctx; intros ?
  | |- quiet (in_context _) => apply quiet_in_context; intros ?
  | |- quiet (modify _) => apply quiet_modify; intros ?; done
  | |- quiet (if ?b then _ else _) => destruct b
  | |- quiet (match ?x with _ => _ end) => destruct x
  | |- same_core _ _ => by split
  end.
Ltac quiet_auto := cbv zeta; repeat first [ solve [auto 2 with quiet nocore] | quiet_step ].

Section quiet_service.
Context {crypto : Crypto} {ripemd : Ripemd} {curves : Curves} {order : HashOrder} {mcache : MessageCache} {bincode : Bincode}.
Implicit Types (s : Service) (c : ConsensusContext) (tr : list Action).

Lemma same_core_add_prepare_response i inv h c : same_core c (add_prepare_response i inv h c).1.
Proof. unfold add_prepare_response. case_match; [by split|]. destruct h; by split. Qed.
Lemma same_core_add_change_view i v r t c : same_core c (add_change_view i v r t c).1.
Proof. unfold add_change_view. case_match; by split. Qed.
Lemma same_core_extend_timer k c : same_core c (extend_timer_by_factor k c).
Proof. unfold extend_timer_by_factor. case_match; by split. Qed.
Lemma same_core_mark_seen h c : same_core c (mark_message_seen h c).
Proof. unfold mark_message_seen. case_match; by split. Qed.
Lemma same_core_record_metrics h x c : same_core c (record_transaction_metrics h x c).
Proof. unfold record_transaction_metrics. case_match; by split. Qed.
Lemma same_core_mark_transaction h c : same_core c (mark_transaction_available h c).1.
Proof. unfold mark_transaction_available. case_match; by split. Qed.
#[local] Hint Resolve same_core_mark_transaction same_core_add_prepare_response same_core_add_change_view same_core_extend_timer
  same_core_mark_seen same_core_record_metrics : quiet.

Lemma quiet_check_witness p : quiet (check_witness p).
Proof. unfold check_witness. quiet_auto. Qed.
Lemma quiet_cache_commit p : quiet (cache_commit_invocation p).
Proof. unfold cache_commit_invocation. quiet_auto. Qed.
Lemma quiet_cache_change_view i w : quiet (cache_change_view_invocation i w).
Proof. unfold cache_change_view_invocation. quiet_auto. Qed.
Lemma quiet_resend : quiet resend_recovery_message.
Proof. unfold resend_recovery_message. quiet_auto. Qed.
#[local] Hint Resolve quiet_check_witness quiet_cache_commit quiet_cache_change_view
  quiet_resend : quiet.
Lemma quiet_maybe_send i : quiet (maybe_send_recovery_response i).
Proof. unfold maybe_send_recovery_response. quiet_auto. Qed.
Lemma quiet_request_recovery : quiet request_recovery.
Proof. unfold request_recovery, current_timestamp. quiet_auto. Qed.
Lemma quiet_broadcast_change_view i t r l : quiet (broadcast_change_view i t r l).
Proof. unfold broadcast_change_view. quiet_auto. Qed.
#[local] Hint Resolve quiet_maybe_send quiet_request_recovery quiet_broadcast_change_view : quiet.
Lemma quiet_agreement t : quiet (broadcast_change_agreement t).
Proof. unfold broadcast_change_agreement. quiet_auto. Qed.
Lemma quiet_on_recovery_request p : quiet (on_recovery_request p).
Proof. unfold on_recovery_request. quiet_auto. Qed.
Lemma quiet_check_proposal req : quiet (check_proposal req).
Proof. unfold check_proposal, current_timestamp. quiet_auto. Qed.
Lemma quiet_initiate t : quiet (initiate_proposal t).
Proof. unfold initiate_proposal. quiet_auto. Qed.
#[local] Hint Resolve quiet_agreement quiet_on_recovery_request quiet_check_proposal quiet_initiate : quiet.
End quiet_service.

#[export] Hint Resolve same_core_mark_transaction same_core_add_prepare_response same_core_add_change_view same_core_extend_timer
  same_core_mark_seen same_core_record_metrics quiet_check_witness quiet_cache_commit
  quiet_cache_change_view quiet_resend quiet_maybe_send quiet_request_recovery quiet_broadcast_change_view
  quiet_agreement quiet_on_recovery_request quiet_check_proposal quiet_initiate : quiet.
