(* ===== verification/DbftInv.v ===== *)
(** * What a dBFT node keeps true

    The invariant behind the safety theorems: what a node's context and its
    trace say of each other, and how commits, proposals and blocks keep it. *)
From S2P Require Import Prelude Primitives Order Hashing Io EcPoint MerkleTree OpCode Instruction.
From S2P Require Import ScriptBuilder RecordUpdate DbftMessages DbftContext DbftService Hoare DbftQuiet.
#[local] Open Scope N_scope.
#[local] Open Scope update_scope.

Section invariant.
Context {crypto : Crypto} {ripemd : Ripemd} {curves : Curves} {order : HashOrder} {mcache : MessageCache} {bincode : Bincode}.
Implicit Types (s : Service) (c : ConsensusContext) (tr : list Action).
(** The node's public key, and the validators of each height. *)
Context (me : ECPoint) (committee : N → list ValidatorInfo).

(** A signature of [d] that is the validator's: checked under its key, or our own. *)
Definition attested tr (v : ValidatorInfo) (d sig : bytes) : Prop :=
  Verified (v_public_key v) d sig ∈ tr ∨ (v_public_key v = me ∧ Signed d sig ∈ tr).

(** A committed block: its hash is that of its header, and at least [M] distinct
    validators of its height signed that hash. *)
Record certified (net : N) tr (h : N) (hash : UInt256.t) (bd : BlockData) : Prop := {
  cert_height : bd_block_index bd = h ∧ h < 2 ^ 32;
  cert_version : bd_version bd = 0;
  cert_hash : hash = hash_of (block_header bd);
  cert_keys : bd_validator_pubkeys bd = v_public_key <$> committee h;
  cert_members : committee h ≠ [];
  cert_quorum : bd_required_signatures bd = RedeemScript.bft_threshold (len (committee h)) ∧
                bd_required_signatures bd ≤ len (bd_signatures bd);
  cert_distinct : StronglySorted N.lt (fst <$> bd_signatures bd);
  cert_attested i sig : (i, sig) ∈ bd_signatures bd →
    ∃ v, committee h !! N.to_nat i = Some v ∧ attested tr v (sign_data net hash) sig;
}.

(** What the context says of the trace, with the commits of [todo] still to be
    checked against the current proposal. *)
Record RoundInv (todo : list N) c (net : N) tr : Prop := {
  inv_me : ∃ idx v, my_index c = Some idx ∧ validators c !! N.to_nat idx = Some v ∧ v_public_key v = me;
  inv_committee : validators c = committee (block_index c);
  inv_height : block_index c < 2 ^ 32;
  inv_version : version c = 0;
  inv_hash hash : proposed_block_hash c = Some hash → hash = hash_of (proposal_header c);
  inv_request : prepare_request_received c = true → is_Some (proposed_block_hash c);
  inv_views i sig : commits c !! i = Some sig → is_Some (commit_view_numbers c !! i);
  inv_commits i sig hash : i ∉ todo → commits c !! i = Some sig →
    commit_view_numbers c !! i = Some (view_number c) → proposed_block_hash c = Some hash →
    ∃ v, validators c !! N.to_nat i = Some v ∧ attested tr v (sign_data net hash) sig;
  inv_once v pre : SignedBlock (block_index c) v pre ∈ tr →
    ∃ idx, my_index c = Some idx ∧ is_Some (commits c !! idx) ∧
      commit_view_numbers c !! idx = Some v ∧ v ≤ view_number c ∧
      (v = view_number c → prepare_request_received c = true);
}.

(** What the trace says by itself; no block above height [top] is signed, and every
    snapshot was taken after signing the block of its view. *)
Record TraceInv (top : N) (net : N) tr : Prop := {
  inv_past h : h ∈ signed_heights tr → h ≤ top;
  inv_unique : NoDup (signed_heights tr);
  inv_signed d sig : Signed d sig ∈ tr → ∃ pre, pre ∈ preimages tr ∧ d = sign_data net (hash_of pre);
  inv_blocks h v pre : SignedBlock h v pre ∈ tr →
    h < 2 ^ 32 ∧ ∃ prev root time nc primary next, pre = unsigned_header 0 prev root time nc h primary next;
  inv_payloads pre : SignedPayload pre ∈ tr → head pre = Some x04;
  inv_certs h hash bd : Emitted (BlockCommitted h hash bd) ∈ tr → certified net tr h hash bd;
  inv_saved file : Saved file ∈ tr → ∃ c, bincode_deserialize file = Some (persisted c) ∧ RoundInv [] c net tr ∧
    SignedBlock (block_index c) (view_number c) (proposal_header c) ∈ tr;
}.

Record Inv (todo : list N) s : Prop := {
  inv_round : RoundInv todo (context s) (network s) (trace s);
  inv_trace : TraceInv (block_index (context s)) (network s) (trace s);
}.

Lemma attested_mono tr tr' v d sig :
  (∀ a, a ∈ tr → a ∈ tr') → attested tr v d sig → attested tr' v d sig.
Proof. intros Hm [?|[? ?]]; [left | right]; auto. Qed.
Lemma certified_mono net tr tr' h hash bd :
  (∀ a, a ∈ tr → a ∈ tr') → certified net tr h hash bd → certified net tr' h hash bd.
Proof.
  intros Hm [? ? ? ? ? ? ? Ha]. split; [done..|]. intros i sig Hin.
  destruct (Ha i sig Hin) as (v & ? & ?). exists v. eauto using attested_mono.
Qed.

Lemma RoundInv_ext todo c c' net l tr :
  same_core c c' → harmless net l → RoundInv todo c net tr → RoundInv todo c' net (l ++ tr).
Proof.
  intros Hc Hl [Im Ic Ih Iv If Ir Iw Is Io].
  pose proof (proposal_header_core _ _ Hc) as Eh.
  destruct Hc as [E1 E2 E3 E4 E5 E6 E7 E8 E9 E10 E11 E12 E13 E14].
  split; rewrite ?E1, ?E2, ?E3, ?E4, ?E5, ?E8, ?E12, ?E13, ?E14, ?Eh; try done.
  - intros i sig hash Hi H1 H2 H3. destruct (Is i sig hash Hi H1 H2 H3) as (v & ? & ?).
    exists v. split; [done|]. eapply attested_mono; [|done]. intros a. rewrite elem_of_app. auto.
  - intros v pre [Hin|Hin]%elem_of_app; [by destruct (harmless_blocks _ _ Hl _ _ _ Hin) | eauto].
Qed.

Lemma TraceInv_ext top net l tr : harmless net l → TraceInv top net tr → TraceInv top net (l ++ tr).
Proof.
  intros Hl [Ip Iu Is Ib Iy Ic Iw]. pose proof Hl as [B C S P F].
  assert (signed_heights (l ++ tr) = signed_heights tr) as Eh.
  { rewrite signed_heights_app. replace (signed_heights l) with (@nil N); [done|].
    destruct (signed_heights l) as [|h k] eqn:E; [done|].
    destruct (proj1 (elem_of_signed_heights l h)) as (v & pre & Hin); [rewrite E; by constructor|].
    by destruct (B h v pre). }
  split; rewrite ?Eh; [done | done | ..].
  - intros d sig [Hd|Hd]%elem_of_app.
    + destruct (S _ _ Hd) as (pre & ? & ->). exists pre. rewrite elem_of_preimages, !elem_of_app. auto.
    + destruct (Is _ _ Hd) as (pre & Hp & ->). exists pre. unfold preimages. rewrite omap_app, elem_of_app. auto.
  - intros h v pre [Hin|?]%elem_of_app; [by destruct (B h v pre) | eauto].
  - intros pre [?|?]%elem_of_app; auto.
  - intros h hash bd [Hin|Hin]%elem_of_app; [by destruct (C h hash bd)|].
    eapply certified_mono, Ic, Hin. intros a. rewrite elem_of_app. auto.
  - intros file [Hin|Hin]%elem_of_app; [by destruct (F file)|].
    destruct (Iw _ Hin) as (c & ? & ? & ?). exists c. split; [done|]. rewrite elem_of_app.
    split; [|by right]. apply (RoundInv_ext [] c c); [apply same_core_refl | done | done].
Qed.

Lemma Inv_quiet todo s s' : Quiet s s' → Inv todo s → Inv todo s'.
Proof.
  intros [Hc Hn (l & Ht & Hl)] [Hr Hi]. split; rewrite Hn, Ht.
  - by eapply RoundInv_ext.
  - rewrite (core_index _ _ Hc). by apply TraceInv_ext.
Qed.
Lemma quiet_keeps {A} todo (m : St A) : quiet m → keeps (Inv todo) m.
Proof. intros Hm s HI. eapply Inv_quiet; [apply (quiet_run m s Hm) | done]. Qed.

(** ** Committed blocks *)

Lemma len_sort_by_index {A} (index : A → N) l : len (Recovery.sort_by_index index l) = len l.
Proof. unfold len, Recovery.sort_by_index. by rewrite merge_sort_Permutation. Qed.

Lemma sort_by_index_strict {A} (index : A → N) l :
  NoDup (index <$> l) → StronglySorted N.lt (index <$> Recovery.sort_by_index index l).
Proof.
  intros Hnd.
  assert (StronglySorted (Recovery.by_index index) (Recovery.sort_by_index index l)) as Hs.
  { apply Sorted_StronglySorted; [intros x y z; unfold Recovery.by_index; lia|].
    apply Sorted_merge_sort. intros x y. unfold Recovery.by_index. lia. }
  assert (NoDup (index <$> Recovery.sort_by_index index l)) as Hn
    by (unfold Recovery.sort_by_index; by rewrite merge_sort_Permutation).
  revert Hs Hn. generalize (Recovery.sort_by_index index l). clear.
  induction l as [|x l IH]; intros Hs Hn; [constructor|].
  apply StronglySorted_inv in Hs as [Hs Hx]. rewrite fmap_cons in *. apply NoDup_cons in Hn as [Hnx Hn].
  constructor; [by apply IH|]. rewrite Forall_fmap. rewrite Forall_forall in Hx |- *. intros y Hy. cbn.
  specialize (Hx y Hy). unfold Recovery.by_index in Hx.
  assert (index x ≠ index y) by (intros E; apply Hnx; rewrite E; by apply list_elem_of_fmap_2). lia.
Qed.

Lemma elem_of_collected c i sig :
  (i, sig) ∈ collect_commit_signatures c ↔ commits c !! i = Some sig ∧ in_current_view c i = true.
Proof.
  unfold collect_commit_signatures. rewrite list_elem_of_filter, iter_perm, elem_of_map_to_list. naive_solver.
Qed.
Lemma collected_nodup c : NoDup (fst <$> collect_commit_signatures c).
Proof.
  unfold collect_commit_signatures.
  assert (NoDup (fst <$> iter (commits c))) as Hn by (rewrite iter_perm; apply NoDup_fst_map_to_list).
  eapply sublist_NoDup; [exact Hn|]. apply fmap_sublist, sublist_filter.
Qed.

Lemma m_threshold c : m c = RedeemScript.bft_threshold (len (validators c)).
Proof.
  unfold m, f, RedeemScript.bft_threshold, validator_count. destruct (N.eqb_spec (len (validators c)) 0) as [->|]; [done|].
  done.
Qed.

Lemma prepare_block_data_certified c net tr hash bd :
  RoundInv [] c net tr → proposed_block_hash c = Some hash → prepare_block_data c = Ok bd →
  certified net tr (block_index c) hash bd.
Proof.
  intros HI Hh Hbd. unfold prepare_block_data in Hbd. rewrite len_sort_by_index in Hbd.
  destruct (N.ltb_spec (len (collect_commit_signatures c)) (m c)) as [|Hlen]; [done|].
  apply (f_equal (λ r, match r with Ok b => b | Err _ => bd end)) in Hbd. cbn in Hbd. subst bd. split; cbn.
  - split; [done | apply HI].
  - apply HI.
  - by apply (inv_hash _ _ _ _ HI) in Hh.
  - by rewrite (inv_committee _ _ _ _ HI).
  - destruct (inv_me _ _ _ _ HI) as (idx & v & _ & Hv & _). rewrite (inv_committee _ _ _ _ HI) in Hv.
    intros E. by rewrite E in Hv.
  - rewrite <- (inv_committee _ _ _ _ HI), len_sort_by_index, m_threshold in *. done.
  - apply sort_by_index_strict, collected_nodup.
  - intros i sig Hin. unfold Recovery.sort_by_index in Hin.
    rewrite merge_sort_Permutation, elem_of_collected in Hin. destruct Hin as [Hc Hv].
    destruct (inv_views _ _ _ _ HI i sig Hc) as [w Hw].
    unfold in_current_view in Hv. rewrite Hw in Hv. cbn in Hv. apply N.eqb_eq in Hv. subst w.
    rewrite <- (inv_committee _ _ _ _ HI). eapply inv_commits; [done | apply not_elem_of_nil | done..].
Qed.

Lemma RoundInv_log todo c net tr a :
  (∀ h v pre, a ≠ SignedBlock h v pre) → RoundInv todo c net tr → RoundInv todo c net (a :: tr).
Proof.
  intros Ha [Im Ic Ih Iv If Ir Iw Is Io]. split; try done.
  - intros i sig hash Hi E1 E2 E3. destruct (Is i sig hash Hi E1 E2 E3) as (v & ? & ?).
    exists v. split; [done|]. eapply attested_mono; [|done]. intros b Hb. rewrite elem_of_cons. by right.
  - intros v pre [<-|Hin]%elem_of_cons; [by destruct (Ha (block_index c) v pre) | eauto].
Qed.
(** Signing the block of another height. *)
Lemma RoundInv_signed todo c net tr h v pre sig d :
  h ≠ block_index c → RoundInv todo c net tr → RoundInv todo c net (SignedBlock h v pre :: Signed d sig :: tr).
Proof.
  intros Hh HR. apply (RoundInv_log _ _ _ _ (Signed d sig)) in HR; [|done].
  destruct HR as [Im Ic Ih Iv If Ir Iw Is Io]. split; try done.
  - intros i sg hash Hi E1 E2 E3. destruct (Is i sg hash Hi E1 E2 E3) as (w & ? & ?).
    exists w. split; [done|]. eapply attested_mono; [|done]. intros b Hb. rewrite elem_of_cons. by right.
  - intros w pre' [E|Hin]%elem_of_cons; [congruence | eauto].
Qed.

(** Logging a certified block keeps the trace invariant. *)
Lemma TraceInv_certified top net tr h hash bd :
  certified net tr h hash bd → TraceInv top net tr →
  TraceInv top net (Emitted (BlockCommitted h hash bd) :: tr).
Proof.
  intros Hb [Ip Iu Is Ib Iy Ic Iw]. split; [done | done | | | | |].
  - intros d sig [?|?]%elem_of_cons; [done | by apply (Is d sig)].
  - intros h' v pre [?|?]%elem_of_cons; [done | eauto].
  - intros pre [?|?]%elem_of_cons; [done | eauto].
  - intros h' hash' bd' Hin. eapply certified_mono; [intros a Ha; rewrite elem_of_cons; by right|].
    apply elem_of_cons in Hin as [?|?]; simplify_eq; auto.
  - intros file [?|Hin]%elem_of_cons; [done|]. destruct (Iw _ Hin) as (c & ? & ? & ?). exists c.
    split; [done|]. split; [by apply RoundInv_log | by constructor].
Qed.

(** Reading the context, and stepping over quiet computations. *)
Lemma triple_ctx {A} P (R : CResult A → Service → Prop) (k : ConsensusContext → St A) :
  (∀ c, triple (λ s, P s ∧ context s = c) (k c) R) → triple P (ctx id ≫= k) R.
Proof. intros Hk s HP. by apply (Hk (context s)). Qed.
Lemma triple_quiet {A B} P (R : CResult B → Service → Prop) (m : St A) (k : A → St B) :
  quiet m → (∀ s s', Quiet s s' → P s → P s') → (∀ e s, P s → R (Err e) s) →
  (∀ a, triple P (k a) R) → triple P (m ≫= k) R.
Proof.
  intros Hm HP HR Hk. apply (triple_bind _ (λ _, P)); [|done].
  intros s Hs. pose proof (HP _ _ (quiet_run m s Hm) Hs) as Hs'. destruct ((m s).2); [done | by apply HR].
Qed.

Lemma triple_done {A} (P : Service → Prop) (R : CResult A → Service → Prop) (a : A) :
  (∀ s, P s → R (Ok a) s) → triple P (mret a) R.
Proof. intros HP s. apply HP. Qed.

(** The state after a quiet step, with the proposal in place. *)
Definition Proposed s : Prop := Inv [] s ∧ is_Some (proposed_block_hash (context s)).
Lemma Proposed_quiet s s' : Quiet s s' → Proposed s → Proposed s'.
Proof.
  intros HQ [HI Hh]. split; [by eapply Inv_quiet|]. by rewrite (core_hash _ _ (quiet_core _ _ HQ)).
Qed.

Lemma keeps_emit_block bd c :
  prepare_block_data c = Ok bd →
  triple (λ s, Proposed s ∧ context s = c)
    (send_event (BlockCommitted (block_index c) (default UInt256.zero (proposed_block_hash c)) bd))
    (λ _, Inv []).
Proof.
  intros Hbd s [[[Hr Ht] [hash Hh]] <-].
  pose proof (prepare_block_data_certified _ _ _ _ _ Hr Hh Hbd) as Hcert.
  unfold send_event, ask, mbind, M_bind. cbn. destruct (w_channel (world s) (tick s)); cbn.
  - split; cbn; rewrite Hh; [by apply RoundInv_log | by apply TraceInv_certified].
  - by split.
Qed.

Lemma keeps_check_commits : triple Proposed check_commits (λ _, Inv []).
Proof.
  assert (∀ s, Proposed s → Inv [] s) as HPI by (by intros s []).
  unfold check_commits. apply triple_ctx. intros c.
  do 3 (case_match; [apply triple_done; intros s [? _]; auto|]).
  apply (triple_pre _ Proposed); [|by intros s []].
  apply triple_quiet; [quiet_auto | apply Proposed_quiet | auto |]. intros _.
  apply triple_ctx. intros c'. apply triple_lift_bind; [|intros e s _ [? _]; auto]. intros bd Hbd.
  eapply triple_seq; [by apply keeps_emit_block | | done].
  intros _. apply quiet_keeps. quiet_auto.
Qed.

(** ** Received commits *)

Lemma verify_signature_run d sig i s :
  let '(s', r) := verify_signature d sig i s in
  Quiet s s' ∧ context s' = context s ∧ ∃ b, r = Ok b ∧
    (b = true → ∃ v, validators (context s) !! N.to_nat i = Some v ∧
       Verified (v_public_key v) d sig ∈ trace s').
Proof.
  pose proof (quiet_run _ s (quiet_verify_signature d sig i)) as HQ. revert HQ.
  unfold verify_signature, ctx, mbind, M_bind. cbn.
  destruct (validators (context s) !! N.to_nat i) as [v|] eqn:Ev; cbn; [|by intros; do 2 (split; [done|]); exists false].
  destruct (negb (len sig =? 64)); cbn; [by intros; do 2 (split; [done|]); exists false|].
  destruct (secp256r1_verify d sig (Point.encoded (v_public_key v))); cbn;
    [|by intros; do 2 (split; [done|]); exists false].
  intros HQ. split; [done|]. split; [done|]. exists true. split; [done|]. intros _. exists v.
  split; [done|]. by constructor.
Qed.

(** After its check, the signature of the validator is in the trace. *)
Lemma triple_verify {A} P (R : CResult A → Service → Prop) d sig i (k : bool → St A) :
  (∀ s s', Quiet s s' → context s' = context s → P s → P s') →
  triple (λ s, P s ∧ ∃ v, validators (context s) !! N.to_nat i = Some v ∧
                          Verified (v_public_key v) d sig ∈ trace s) (k true) R →
  triple P (k false) R →
  triple P (verify_signature d sig i ≫= k) R.
Proof.
  intros HP Ht Hf s Hs. pose proof (verify_signature_run d sig i s) as Hv. unfold mbind, M_bind.
  destruct (verify_signature d sig i s) as [s' r]. destruct Hv as (HQ & Hc & b & -> & Hb).
  pose proof (HP _ _ HQ Hc Hs) as Hs'. destruct b; [|by apply Hf]. apply Ht. split; [done|].
  rewrite Hc. by apply Hb.
Qed.

Lemma add_commit_inv i v sig c net tr :
  commits c !! i = None → RoundInv [] c net tr →
  (v = view_number c → ∀ hash, proposed_block_hash c = Some hash →
     ∃ w, validators c !! N.to_nat i = Some w ∧ attested tr w (sign_data net hash) sig) →
  RoundInv [] (add_commit i v sig c).1 net tr.
Proof.
  intros Hi HI Hsig. unfold add_commit. case_match; [done|].
  destruct HI as [Im Ic Ih Iv If Ir Iw Is Io]. split; cbn; [done..| | |].
  - intros j sj. rewrite !lookup_insert_Some. rewrite lookup_insert_is_Some. naive_solver.
  - intros j sj hash Hj. rewrite !lookup_insert_Some.
    intros [[<- <-]|[Hne Hcj]] [[? Hv]|[? Hvj]] Hh; [|done|done|by eapply Is].
    by apply Hsig.
  - intros w pre Hin. destruct (Io w pre Hin) as (idx & Hm & Hci & Hvi & Hle & Hr).
    exists idx. assert (idx ≠ i) by (intros ->; rewrite Hi in Hci; by destruct Hci).
    rewrite !lookup_insert_ne by done. done.
Qed.

Lemma add_commit_frame i v sig c :
  block_index (add_commit i v sig c).1 = block_index c ∧
  proposed_block_hash (add_commit i v sig c).1 = proposed_block_hash c.
Proof. unfold add_commit. by case_match. Qed.

Definition recordable p s : Prop :=
  Inv [] s ∧ commits (context s) !! cp_validator_index p = None ∧
  (cp_view_number p = view_number (context s) → ∀ hash, proposed_block_hash (context s) = Some hash →
     ∃ w, validators (context s) !! N.to_nat (cp_validator_index p) = Some w ∧
       attested (trace s) w (sign_data (network s) hash) (take 64 (cp_data p))).

Lemma keeps_record_commit p h :
  triple (λ s, recordable p s ∧ proposed_block_hash (context s) = h) (record_commit p)
    (λ _ s, Inv [] s ∧ proposed_block_hash (context s) = h).
Proof.
  unfold record_commit.
  apply (triple_seq _ (λ s, Inv [] s ∧ proposed_block_hash (context s) = h)); [| |done].
  - intros s (([HR HT] & Hn & Hsig) & Hh). unfold in_context.
    pose proof (add_commit_inv _ (cp_view_number p) (take 64 (cp_data p)) _ _ _ Hn HR Hsig) as HR'.
    destruct (add_commit_frame (cp_validator_index p) (cp_view_number p) (take 64 (cp_data p)) (context s)) as [Eb Eh].
    destruct (add_commit _ _ _ _) as [c' r]. cbn in *.
    split; [split; cbn; [done | by rewrite Eb] | by rewrite Eh].
  - intros _ s [HI Hh]. assert (quiet (cache_commit_invocation p)) as Hq by quiet_auto.
    apply (quiet_run _ s) in Hq. split; [by eapply Inv_quiet|].
    by rewrite (core_hash _ _ (quiet_core _ _ Hq)).
Qed.

Lemma keeps_record_commit_plain p : triple (recordable p) (record_commit p) (λ _, Inv []).
Proof.
  intros s Hs. by apply (keeps_record_commit p (proposed_block_hash (context s)) s).
Qed.

Lemma keeps_on_commit p : keeps (Inv []) (on_commit p).
Proof.
  unfold on_commit, keeps. case_match; [apply keeps_fail|].
  apply (triple_quiet (Inv [])); [quiet_auto | apply Inv_quiet | done |]. intros _.
  apply triple_ctx. intros c. case_match; [intros s [? _]; done|].
  assert (commits c !! cp_validator_index p = None) as Hn
    by (apply eq_None_not_Some; by apply bool_decide_eq_false in H0).
  destruct (N.eqb_spec (cp_view_number p) (view_number c)) as [Ev|Ev]; cbn [negb].
  2: { eapply triple_pre; [apply keeps_record_commit_plain|]. intros s [HI <-].
       split; [done|]. split; [done|]. by intros E. }
  destruct (proposed_block_hash c) as [hash|] eqn:Eh.
  2: { eapply triple_pre; [apply keeps_record_commit_plain|]. intros s [HI <-].
       split; [done|]. split; [done|]. intros _ h'. congruence. }
  apply triple_gets. intros net.
  apply triple_verify; [| |intros s [[? _] _]; done].
  { intros s s' HQ Ec [[HI E] ->]. rewrite Ec, (quiet_network _ _ HQ). split; [|done].
    split; [by eapply Inv_quiet | done]. }
  cbn [negb].
  apply (triple_seq _ (λ s, Inv [] s ∧ proposed_block_hash (context s) = Some hash)); [| |by intros e s []].
  - eapply triple_pre; [apply keeps_record_commit|]. intros s [[[HI <-] ->] (v & Hv & Hver)].
    split; [|done]. split; [done|]. split; [done|]. intros _ h' Eh'.
    exists v. split; [done|]. left. congruence.
  - intros _. apply (triple_pre _ Proposed); [|intros s [? Hh]; split; [done|]; by rewrite Hh].
    apply triple_ctx. intros c'. apply (triple_pre _ Proposed); [|by intros s []].
    apply triple_quiet; [quiet_auto | apply Proposed_quiet | by intros e s [] |].
    intros _. apply keeps_check_commits.
Qed.

(** ** A new proposal *)

(** The commits a new proposal has to be checked against. *)
Definition current_keys c : list N :=
  filter (λ idx, commit_view_numbers c !! idx = Some (view_number c)) (fst <$> iter (commits c)).
Lemma elem_of_current_keys c i :
  i ∈ current_keys c ↔ commit_view_numbers c !! i = Some (view_number c) ∧ is_Some (commits c !! i).
Proof.
  unfold current_keys. rewrite list_elem_of_filter. f_equiv. rewrite iter_perm, list_elem_of_fmap. split.
  - intros ([j sig] & -> & Hin). apply elem_of_map_to_list in Hin. by exists sig.
  - intros [sig Hs]. exists (i, sig). by rewrite elem_of_map_to_list.
Qed.

(** The node has not signed a block in the current view. *)
Definition unsigned_view c tr : Prop :=
  ∀ v pre, SignedBlock (block_index c) v pre ∈ tr → v ≠ view_number c.

(** [c'] is [c] with another proposal in the same view. *)
Record reproposed c c' : Prop := {
  rep_index : block_index c' = block_index c;
  rep_view : view_number c' = view_number c;
  rep_validators : validators c' = validators c;
  rep_me : my_index c' = my_index c;
  rep_version : version c' = version c;
  rep_commits : commits c' = commits c;
  rep_views : commit_view_numbers c' = commit_view_numbers c;
}.

Lemma RoundInv_reproposed c c' net tr :
  reproposed c c' → proposed_block_hash c' = Some (hash_of (proposal_header c')) →
  unsigned_view c tr → RoundInv [] c net tr → RoundInv (current_keys c') c' net tr.
Proof.
  intros [E1 E2 E3 E4 E5 E6 E7] Hh Hu [Im Ic Ih Iv If Ir Iw Is Io]. split.
  - by rewrite E4, E3.
  - by rewrite E3, E1.
  - by rewrite E1.
  - by rewrite E5.
  - rewrite Hh. by intros ? [= <-].
  - by rewrite Hh.
  - rewrite E6, E7. done.
  - intros i sig hash Hi Hci Hvi. destruct Hi. apply elem_of_current_keys. by rewrite Hci.
  - rewrite E1, E2, E4, E6, E7. intros v pre Hin. destruct (Io v pre Hin) as (idx & ? & ? & ? & ? & _).
    exists idx. split; [done|]. split; [done|]. split; [done|]. split; [done|].
    intros Ev. by destruct (Hu v pre Hin).
Qed.

(** Mid-way through a revalidation. *)
Record Revalidating (hash : UInt256.t) (net : N) (todo : list N) s : Prop := {
  rev_inv : Inv todo s;
  rev_hash : proposed_block_hash (context s) = Some hash;
  rev_net : network s = net;
  rev_own i v pre : i ∈ todo → SignedBlock (block_index (context s)) v pre ∈ trace s →
    my_index (context s) ≠ Some i;
}.

Lemma RoundInv_checked hash i todo c net tr :
  RoundInv (i :: todo) c net tr → proposed_block_hash c = Some hash →
  (∀ sig, commits c !! i = Some sig →
    ∃ v, validators c !! N.to_nat i = Some v ∧ attested tr v (sign_data net hash) sig) →
  RoundInv todo c net tr.
Proof.
  intros [Im Ic Ih Iv If Ir Iw Is Io] Hh Hi. split; try done.
  intros j sig h' Hj Hcj Hvj Hh'. assert (h' = hash) as -> by congruence.
  destruct (decide (j = i)) as [->|]; [by apply Hi|]. by eapply (Is j); [rewrite elem_of_cons; intros []|..].
Qed.

Lemma RoundInv_removed i todo c net tr :
  RoundInv (i :: todo) c net tr →
  (∀ v pre, SignedBlock (block_index c) v pre ∈ tr → my_index c ≠ Some i) →
  RoundInv todo (remove_commit i c) net tr.
Proof.
  intros [Im Ic Ih Iv If Ir Iw Is Io] Hi. split; cbn; try done.
  - intros j sig. rewrite lookup_delete_Some. intros [? Hj]. rewrite lookup_delete_ne by done. by eapply Iw.
  - intros j sig hash Hj. rewrite lookup_delete_Some. intros [? Hcj]. rewrite lookup_delete_ne by done.
    eapply Is; [|done]. rewrite elem_of_cons. by intros [->|?].
  - intros v pre Hin. destruct (Io v pre Hin) as (idx & Hm & ? & ? & ? & ?).
    assert (i ≠ idx) by (intros ->; by destruct (Hi v pre Hin)).
    exists idx. by rewrite !lookup_delete_ne by done.
Qed.

Lemma triple_revalidate_commit hash net i todo :
  triple (Revalidating hash net (i :: todo)) (revalidate_commit (sign_data net hash) i)
    (λ _, Revalidating hash net todo).
Proof.
  unfold revalidate_commit.
  assert (triple (Revalidating hash net (i :: todo)) (set_ctx (remove_commit i))
            (λ _, Revalidating hash net todo)) as Hrm.
  { intros s [[HR HT] Hh Hn Ho]. split; cbn; [|done|done|].
    - split; cbn; [|done]. apply RoundInv_removed; [done|]. intros v pre. apply Ho. by constructor.
    - intros j v pre Hj. apply Ho. by constructor. }
  intros s Hs. unfold ctx, mbind at 1, M_bind. cbn.
  destruct (commits (context s) !! i) as [sig|] eqn:Hi; [|by apply Hrm].
  pose proof (verify_signature_run (sign_data net hash) sig i s) as Hv. unfold mbind, M_bind.
  destruct (verify_signature _ _ _ s) as [s' r]. destruct Hv as (HQ & Hc & b & -> & Hb).
  destruct Hs as [HI Hh Hn Ho]. assert (Revalidating hash net (i :: todo) s') as Hs'.
  { split; [by eapply Inv_quiet | by rewrite Hc | by rewrite (quiet_network _ _ HQ) |].
    rewrite Hc. intros j v pre Hj Hin. apply (Ho j v pre Hj).
    destruct (quiet_trace _ _ HQ) as (l & Et & Hl). rewrite Et, elem_of_app in Hin.
    destruct Hin as [Hin|]; [by destruct (harmless_blocks _ _ Hl _ _ _ Hin) | done]. }
  destruct b; [|by apply Hrm]. cbn. destruct Hs' as [[HR HT] Hh' Hn' Ho'].
  split; [|done|done|intros j v pre Hj; apply Ho'; by constructor].
  split; [|done]. eapply RoundInv_checked; [done | done |]. intros sig' Hsig.
  destruct (Hb eq_refl) as (v & Hv & Hver). rewrite Hc in *. exists v. split; [done|]. left.
  rewrite Hn'. congruence.
Qed.

(** The revalidation never fails. *)
Lemma revalidate_commit_ok d i s : (revalidate_commit d i s).2 = Ok tt.
Proof.
  unfold revalidate_commit, ctx, mbind, M_bind. cbn.
  destruct (commits (context s) !! i) as [sig|]; [|done].
  pose proof (verify_signature_run d sig i s) as Hv. destruct (verify_signature d sig i s) as [s' r].
  destruct Hv as (_ & _ & b & -> & _). by destruct b.
Qed.

Lemma triple_revalidate_all hash net l :
  triple (Revalidating hash net l) (for_each (revalidate_commit (sign_data net hash)) l)
    (λ r s, r = Ok tt ∧ Revalidating hash net [] s).
Proof.
  induction l as [|i l IH]; [by intros s|]. cbn.
  apply (triple_bind _ (λ _, Revalidating hash net l)); [|intros _; apply IH].
  intros s Hs. rewrite (revalidate_commit_ok _ i s). by apply triple_revalidate_commit.
Qed.

(** Installing a proposal: the hash is set, and the commits are checked against it. *)
Lemma triple_revalidate hash :
  triple (λ s, ∃ net, Revalidating hash net (current_keys (context s)) s) revalidate_current_view_commits
    (λ r s, r = Ok tt ∧ Inv [] s ∧ proposed_block_hash (context s) = Some hash).
Proof.
  intros s (net & HR). pose proof (rev_hash _ _ _ _ HR) as Hh. pose proof (rev_net _ _ _ _ HR) as Hn.
  unfold revalidate_current_view_commits, ctx, gets, mbind, M_bind, id. cbn. rewrite Hh.
  rewrite Hn. destruct (triple_revalidate_all hash net _ s HR) as [Hr [HI Hh' _ _]].
  split; [exact Hr|]. split; [exact HI | exact Hh'].
Qed.
Lemma keeps_quiet_step {A B} todo (m : St A) (k : A → St B) :
  quiet m → (∀ a, keeps (Inv todo) (k a)) → keeps (Inv todo) (m ≫= k).
Proof. intros Hm Hk. apply keeps_bind; [by apply quiet_keeps | done]. Qed.
End invariant.
