(* ===== verification/DbftSteps.v ===== *)
(** * The steps of a dBFT node keep its invariant

    View changes, signing, preparations, recovery, messages and the timer. *)
From S2P Require Import Prelude Primitives Order Hashing Io EcPoint MerkleTree OpCode Instruction.
From S2P Require Import ScriptBuilder RecordUpdate DbftMessages DbftContext DbftService Hoare DbftQuiet DbftInv.
#[local] Open Scope N_scope.
#[local] Open Scope update_scope.

(** Quiet steps first, then a step already known to keep the invariant. *)
Ltac keeps_quiet := repeat first
  [ solve [apply quiet_keeps; quiet_auto]
  | match goal with
    | |- keeps _ (_ ≫= _) => apply keeps_quiet_step; [solve [quiet_auto]|intros ?]
    | |- keeps _ (if ?b then _ else _) => destruct b
    | |- keeps _ (match ?x with _ => _ end) => destruct x
    end ].

Section steps.
Context {crypto : Crypto} {ripemd : Ripemd} {curves : Curves} {order : HashOrder} {mcache : MessageCache} {bincode : Bincode}.
Implicit Types (s : Service) (c : ConsensusContext) (tr : list Action).
(** The node's public key, and the validators of each height. *)
Context (me : ECPoint) (committee : N → list ValidatorInfo).
#[local] Abbreviation Inv := (Inv me committee).
#[local] Abbreviation RoundInv := (RoundInv me committee).
#[local] Abbreviation TraceInv := (TraceInv me committee).
#[local] Abbreviation Proposed := (Proposed me committee).
#[local] Abbreviation Revalidating := (Revalidating me committee).

(** ** Views *)

Lemma Inv_new_view new_view t s :
  view_number (context s) < new_view → Inv [] s → Inv [] (s <| context ::= reset_for_new_view new_view t |>).
Proof.
  intros Hv [[Im Ic Ih Iv If Ir Iw Is Io] HT]. split; [|done]. split; cbn; try done.
  intros v pre Hin. destruct (Io v pre Hin) as (idx & ? & ? & ? & ? & _). exists idx.
  split; [done|]. split; [done|]. split; [done|]. split; [lia|]. lia.
Qed.

Lemma keeps_change_view new_view t : keeps (Inv []) (change_view new_view t).
Proof.
  unfold change_view, keeps. apply triple_ctx. intros c.
  destruct (N.leb_spec new_view (view_number c)) as [|Hlt]; [by intros s [? _]|].
  set (P := λ s, Inv [] s ∧ view_number (context s) = view_number c).
  apply (triple_pre _ P); [|intros s [? E]; split; [done | by rewrite E]].
  apply triple_quiet; [| |by intros e s []|].
  - destruct (my_index c); quiet_auto.
  - intros s s' HQ [HI Hv]. split; [by eapply Inv_quiet|]. by rewrite (core_view _ _ (quiet_core _ _ HQ)).
  - intros _. apply (triple_seq _ (Inv [])); [|intros _; apply quiet_keeps; quiet_auto | done].
    intros s [HI Hv]. apply Inv_new_view; [by rewrite Hv | done].
Qed.
Lemma keeps_change_view_if_enough v t : keeps (Inv []) (change_view_if_enough v t).
Proof.
  unfold change_view_if_enough. apply keeps_quiet_step; [quiet_auto|]. intros b.
  destruct b; [apply keeps_change_view | apply keeps_ret].
Qed.

Lemma keeps_request_change_view r t : keeps (Inv []) (request_change_view r t).
Proof.
  unfold request_change_view. keeps_quiet; apply keeps_change_view_if_enough.
Qed.
Lemma keeps_on_change_view p : keeps (Inv []) (on_change_view p).
Proof.
  unfold on_change_view. keeps_quiet; apply keeps_change_view_if_enough.
Qed.

(** ** Signing a commit *)

Lemma TraceInv_signed c net tr sig :
  RoundInv [] c net tr → TraceInv (block_index c) net tr → block_index c ∉ signed_heights tr →
  TraceInv (block_index c) net
    (SignedBlock (block_index c) (view_number c) (proposal_header c) ::
     Signed (sign_data net (hash_of (proposal_header c))) sig :: tr).
Proof.
  intros HR [Ip Iu Is Ib Iy Ic Iw] Hn. split.
  - cbn. intros h [->|?]%elem_of_cons; [done | auto].
  - cbn. by constructor.
  - intros d sig' Hin. setoid_rewrite elem_of_preimages. rewrite !elem_of_cons in Hin.
    destruct Hin as [?|[[= -> ->]|Hin]]; [done| |].
    + exists (proposal_header c). split; [|done]. left. do 2 eexists. by constructor.
    + destruct (Is _ _ Hin) as (pre & Hp & ->). exists pre. split; [|done].
      apply elem_of_preimages in Hp as [(h & v & ?)|?]; [left; exists h, v | right]; by do 2 constructor.
  - intros h v pre. rewrite !elem_of_cons. intros [[= -> -> ->]|[?|?]]; [|done|eauto].
    split; [apply HR|]. unfold proposal_header. rewrite (inv_version _ _ _ _ _ _ HR). by repeat eexists.
  - intros pre. rewrite !elem_of_cons. intros [?|[?|?]]; [done|done|auto].
  - intros h hash bd. rewrite !elem_of_cons. intros [?|[?|?]]; [done|done|].
    eapply certified_mono; [|by apply Ic]. intros a ?. by do 2 constructor.
  - intros file. rewrite !elem_of_cons. intros [?|[?|Hin]]; [done|done|].
    destruct (Iw _ Hin) as (c' & ? & ? & Hin'). exists c'. split; [done|]. rewrite !elem_of_cons. split; [|auto].
    apply RoundInv_signed; [|done]. intros E. apply Hn, elem_of_signed_heights. rewrite E. eauto.
Qed.

(** Between signing a commit and recording it: [old] is the trace before. *)
Record SigningFrom (old l : list Action) (idx : N) (sig : bytes) s : Prop := {
  sgn_trace : trace s = l ++
    SignedBlock (block_index (context s)) (view_number (context s)) (proposal_header (context s)) ::
    Signed (sign_data (network s) (hash_of (proposal_header (context s)))) sig :: old;
  sgn_harmless : harmless (network s) l;
  sgn_round : RoundInv [] (context s) (network s) old;
  sgn_inv : TraceInv (block_index (context s)) (network s) (trace s);
  sgn_request : prepare_request_received (context s) = true;
  sgn_me : my_index (context s) = Some idx;
  sgn_none : commits (context s) !! idx = None;
}.
Definition Signing (idx : N) (sig : bytes) s : Prop := ∃ old l, SigningFrom old l idx sig s.

Lemma Signing_quiet idx sig s s' : Quiet s s' → Signing idx sig s → Signing idx sig s'.
Proof.
  intros [Hc Hn (k & Hk & Hh)] (old & l & [St Sh Sr Si Sq Sm Sc]). exists old, (k ++ l).
  assert (proposal_header (context s') = proposal_header (context s)) as Ep by by apply proposal_header_core.
  split; rewrite ?Hn, ?Ep, ?(core_index _ _ Hc), ?(core_view _ _ Hc).
  - by rewrite Hk, St, app_assoc.
  - by apply harmless_app.
  - apply (RoundInv_ext _ _ _ (context s) _ _ []); [done | apply harmless_nil | done].
  - rewrite Hk. by apply TraceInv_ext.
  - by rewrite (core_request _ _ Hc).
  - by rewrite (core_me _ _ Hc).
  - by rewrite (core_commits _ _ Hc).
Qed.

(** The proposal of the view is signed, and the commit recorded. *)
Definition Committing s : Prop :=
  Proposed s ∧ SignedBlock (block_index (context s)) (view_number (context s)) (proposal_header (context s)) ∈ trace s.

(** Once recorded, the commit is in place. *)
Lemma Signing_recorded idx sig s :
  Signing idx sig s →
  ∃ c', add_commit idx (view_number (context s)) sig (context s) = (c', Ok tt) ∧ Committing (s <| context := c' |>).
Proof.
  intros (old & l & [St Sh Sr Si Sq Sm Sc]). destruct Sr as [Im Ic Ih Iv If Ir Iw Is Io].
  destruct Im as (idx' & v & Hm & Hv & Hme). assert (idx' = idx) as -> by congruence.
  pose proof (lookup_lt_Some _ _ _ Hv) as Hlt.
  unfold add_commit. destruct (N.leb_spec (validator_count (context s)) idx) as [Hge|_];
    [unfold validator_count, len in Hge; lia|].
  eexists. split; [done|].
  split; [|cbn; rewrite St, elem_of_app, !elem_of_cons; by right; left].
  split; [|by apply Ir]. split; [|done].
  assert (∀ a, a ∈ old → a ∈ trace s) as Hsub.
  { intros a Ha. rewrite St, elem_of_app, !elem_of_cons. auto. }
  split; cbn; [by exists idx, v | done.. | | |].
  - intros j sj. rewrite lookup_insert_Some, lookup_insert_is_Some. naive_solver.
  - intros j sj hash _. rewrite !lookup_insert_Some.
    intros [[<- <-]|[Hne Hcj]] [[? ?]|[? Hvj]] Hh; [|done|done|].
    + exists v. split; [done|]. right. split; [done|]. rewrite St, (If _ Hh), elem_of_app, !elem_of_cons. auto.
    + destruct (Is j sj hash) as (w & ? & ?); [apply not_elem_of_nil | done..|].
      exists w. eauto using attested_mono.
  - intros w pre Hin. rewrite St, elem_of_app, !elem_of_cons in Hin.
    destruct Hin as [Hin|[[= -> ->]|[?|Hin]]]; [by destruct (harmless_blocks _ _ Sh _ _ _ Hin) | | done |].
    + exists idx. by rewrite !lookup_insert_eq.
    + destruct (Io w pre Hin) as (i & Hi & [? Hc] & _). simplify_eq.
Qed.

Lemma sign_block_hash_signing idx hash s :
  Inv [] s → proposed_block_hash (context s) = Some hash → prepare_request_received (context s) = true →
  my_index (context s) = Some idx → commits (context s) !! idx = None →
  match (sign_block_hash hash s).2 with
  | Ok sig => Signing idx sig (sign_block_hash hash s).1
  | Err _ => Inv [] (sign_block_hash hash s).1
  end.
Proof.
  intros HI Hh Hr Hm Hc. unfold sign_block_hash, gets, ctx, mbind, M_bind. cbn -[sign].
  destruct (sign_run (sign_data (network s) hash) s) as (s1 & HQ & Ht & Hs).
  destruct (sign _ s) as [s2 [sig|e]]; cbn in *; subst s2; [|by eapply Inv_quiet].
  pose proof (Inv_quiet _ _ _ _ _ HQ HI) as [HR1 HT1]. destruct HQ as [Hcore Hn _].
  exists (trace s), []. rewrite <- Hn, <- Ht.
  assert (hash = hash_of (proposal_header (context s1))) as ->.
  { rewrite (proposal_header_core _ _ Hcore). apply (inv_hash _ _ _ _ _ _ (inv_round _ _ _ _ HI)), Hh. }
  split; cbn; [done | apply harmless_nil | done | | |
               by rewrite (core_me _ _ Hcore) | by rewrite (core_commits _ _ Hcore)].
  - apply TraceInv_signed; [done | done |]. intros (v & pre & Hin)%elem_of_signed_heights.
    destruct (inv_once _ _ _ _ _ _ HR1 v pre Hin) as (i & Hi & [? Hci] & _).
    rewrite (core_me _ _ Hcore) in Hi. rewrite (core_commits _ _ Hcore) in Hci. simplify_eq.
  - by rewrite (core_request _ _ Hcore).
Qed.

(** The snapshot shows the recorded commit. *)
Lemma keeps_save : triple Committing save (λ _, Proposed).
Proof.
  intros s [HP Hin]. unfold save, ctx, ask, modify, mbind, M_bind. cbn.
  assert (∀ s', Quiet s s' → Proposed s') as Hq by (intros s' HQ; by eapply Proposed_quiet).
  destruct (bincode_serialize (persisted (context s))) as [file|] eqn:Ef; [|exact HP]. cbn.
  destruct (w_file (world s) (tick s)); cbn; [|apply Hq; split; [by split | done | by exists []; split; [|apply harmless_nil]]].
  destruct (w_file (world s) _); cbn; [|apply Hq; split; [by split | done | by exists []; split; [|apply harmless_nil]]].
  destruct HP as [[HR [Ip Iu Is Ib Iy Ic Iw]] Hh]. split; [|exact Hh].
  split; cbn; [by apply RoundInv_log|]. split; [done | done | | | | |].
  - intros d sig [?|?]%elem_of_cons; [done | by apply (Is d sig)].
  - intros h' v pre [?|?]%elem_of_cons; [done | eauto].
  - intros pre [?|?]%elem_of_cons; [done | eauto].
  - intros h' hash' bd' [?|?]%elem_of_cons; [done|]. eapply certified_mono; [|eauto]. by constructor.
  - intros file' [[= ->]|Hin']%elem_of_cons.
    + exists (context s). split; [by apply bincode_round_trip|]. split; [by apply RoundInv_log | by constructor].
    + destruct (Iw _ Hin') as (c & ? & ? & ?). exists c.
      split; [done|]. split; [by apply RoundInv_log | by constructor].
Qed.
Lemma keeps_save_context : triple Committing save_context_if_configured (λ _, Proposed).
Proof.
  unfold save_context_if_configured. intros s Hs. rewrite bind_gets.
  destruct (state_path s); [by apply keeps_save | apply Hs].
Qed.

Lemma keeps_send_commit idx :
  triple (λ s, Inv [] s ∧ prepare_request_received (context s) = true ∧ my_index (context s) = Some idx ∧
               commits (context s) !! idx = None) send_commit (λ _, Inv []).
Proof.
  unfold send_commit. apply triple_ctx. intros c.
  apply (triple_bind _ (λ sig, Signing idx sig)).
  { intros s [(HI & Hr & Hm & Hc) <-]. destruct (inv_request _ _ _ _ _ _ (inv_round _ _ _ _ HI) Hr) as [hash Hh].
    rewrite Hh. pose proof (sign_block_hash_signing idx hash s HI Hh Hr Hm Hc) as Hs. cbn.
    by destruct ((sign_block_hash hash s).2). }
  intros sig. apply (triple_bind _ (λ i s, Signing idx sig s ∧ i = idx)).
  { intros s Hs. assert (my_index (context s) = Some idx) as Hm by (by destruct Hs as (? & ? & [])).
    unfold svc_my_index. cbn. by rewrite Hm. }
  intros i. apply triple_ctx. intros c'.
  apply (triple_pre _ (λ s, Signing idx sig s ∧ i = idx)); [|by intros s []].
  apply (triple_bind _ (λ _ s, Signing idx sig s ∧ i = idx)).
  { intros s [Hs ->]. destruct (create_payload_run MessageType.Commit (Commit.serialize (mkCommit (block_index c') (view_number c') idx sig)) s) as [HQ Hp].
    assert (my_index (context s) = Some idx) as Hm by (by destruct Hs as (? & ? & [])).
    rewrite Hm in Hp. destruct Hp as [w ->]. split; [by eapply Signing_quiet | done]. }
  intros p. apply (triple_bind _ (λ _ s, Signing idx sig s ∧ i = idx)).
  { intros s [Hs ->]. case_match; [done|]. split; [|done].
    eapply Signing_quiet; [|exact Hs]. apply (quiet_run (set_ctx _)). quiet_auto. }
  intros _. apply (triple_bind _ (λ _, Committing)).
  { intros s [Hs ->]. destruct (Signing_recorded _ _ _ Hs) as (c'' & E & HP).
    unfold in_context. rewrite E. done. }
  intros _. apply (triple_seq _ Proposed); [apply keeps_save_context | | by intros e s []]. intros _.
  apply triple_quiet; [quiet_auto | apply Proposed_quiet | by intros e s [] |]. intros _.
  apply keeps_check_commits.
Qed.

Lemma keeps_check_prepare_responses : keeps (Inv []) check_prepare_responses.
Proof.
  unfold check_prepare_responses, keeps. apply triple_ctx. intros c.
  destruct (prepare_request_received c) eqn:Hr; cbn [negb]; [|by intros s []].
  do 3 (case_match; [by intros s []|]).
  destruct (own_commit c) eqn:Ho; [by intros s []|].
  intros s [HI Hs]. destruct (inv_me _ _ _ _ _ _ (inv_round _ _ _ _ HI)) as (idx & v & Hm & _ & _).
  apply (keeps_send_commit idx). split; [done|]. rewrite Hs in *. split; [done|]. split; [done|].
  unfold own_commit in Ho. rewrite Hm in Ho. by apply bool_decide_eq_false, eq_None_not_Some in Ho.
Qed.

(** ** Preparations *)

Lemma keeps_reject_block : keeps (Inv []) reject_block.
Proof.
  unfold reject_block, current_timestamp. keeps_quiet. apply keeps_request_change_view.
Qed.
Lemma keeps_respond i : keeps (Inv []) (respond i).
Proof. unfold respond. keeps_quiet. apply keeps_check_prepare_responses. Qed.
Lemma keeps_send_prepare_response : keeps (Inv []) send_prepare_response.
Proof. unfold send_prepare_response. keeps_quiet; [apply keeps_reject_block | apply keeps_respond]. Qed.
Lemma keeps_on_prepare_response p : keeps (Inv []) (on_prepare_response p).
Proof. unfold on_prepare_response. keeps_quiet; apply keeps_check_prepare_responses. Qed.
Lemma keeps_request_proposal_transactions : keeps (Inv []) request_proposal_transactions.
Proof. unfold request_proposal_transactions. keeps_quiet. apply keeps_send_prepare_response. Qed.

(** Between reading the request and installing it: the payload hashes, and no
    block is signed in this view. *)
Record Accepting p s : Prop := {
  acc_inv : Inv [] s;
  acc_request : prepare_request_received (context s) = false;
  acc_sender : is_Some (validators (context s) !! N.to_nat (cp_validator_index p));
}.
Lemma Accepting_quiet p s s' : Quiet s s' → Accepting p s → Accepting p s'.
Proof.
  intros HQ [HI Hr Hs]. destruct (quiet_core _ _ HQ) as [_ _ E3 _ _ _ _ _ _ _ _ E12 _ _].
  split; [by eapply Inv_quiet | by rewrite E12 | by rewrite E3].
Qed.

Lemma unsigned_view_fresh c net tr :
  RoundInv [] c net tr → prepare_request_received c = false → unsigned_view c tr.
Proof.
  intros HR Hr v pre Hin ->. destruct (inv_once _ _ _ _ _ _ HR _ _ Hin) as (? & _ & _ & _ & _ & Hreq).
  rewrite Hreq in Hr; done.
Qed.

(** The hash of a proposal is that of its header. *)
Lemma hash_proposal_header c :
  proposed_block_hash (hash_proposal c) = Some (hash_of (proposal_header (hash_proposal c))).
Proof. reflexivity. Qed.

(** Installing a proposal. *)
Lemma Revalidating_reproposed s c' :
  Inv [] s → unsigned_view (context s) (trace s) → reproposed (context s) c' →
  proposed_block_hash c' = Some (hash_of (proposal_header c')) →
  Revalidating (hash_of (proposal_header c')) (network s) (current_keys c') (s <| context := c' |>).
Proof.
  intros [HR HT] Hu Hrep Hh.
  assert (RoundInv (current_keys c') c' (network s) (trace s)) as HR' by by eapply RoundInv_reproposed.
  split; cbn; [split; cbn; [done|] | done | done |].
  - by rewrite (rep_index _ _ Hrep).
  - rewrite (rep_index _ _ Hrep), (rep_me _ _ Hrep). intros i v pre [Hv Hc]%elem_of_current_keys Hin Hi.
    destruct (inv_once _ _ _ _ _ _ HR v pre Hin) as (idx & Hm & _ & Hvi & _).
    assert (idx = i) as -> by congruence.
    rewrite (rep_views _ _ Hrep), (rep_view _ _ Hrep) in Hv. apply (Hu v pre Hin). congruence.
Qed.

Lemma payload_hash_ok c p :
  is_Some (validators c !! N.to_nat (cp_validator_index p)) → ∃ h, dbft_payload_hash c p = Ok h.
Proof.
  intros [v Hv]. unfold dbft_payload_hash, dbft_unsigned_extensible_bytes, dbft_sender. rewrite Hv.
  destruct (write_unsigned_bytes (cp_block_index p) (v_script_hash v) (Payload.to_message_bytes p)) as [tail Hw].
  exists (hash_of (x04 :: tail)). unfold mbind, Result_bind. rewrite (Hw Writer.new). cbn.
  unfold UInt256.from_bytes. by rewrite sha256_length.
Qed.

(** A payload whose witness checks comes from a validator. *)
Lemma check_witness_run p s :
  Quiet s (check_witness p s).1 ∧ context (check_witness p s).1 = context s ∧
  ((check_witness p s).2 = Ok tt → is_Some (validators (context s) !! N.to_nat (cp_validator_index p))).
Proof.
  split; [apply quiet_run; quiet_auto|].
  unfold check_witness, gets, ctx, lift, mbind, M_bind. case_match; [done|]. cbn.
  destruct (dbft_sign_data _ _ p) as [d|e]; cbn; [|done].
  pose proof (verify_signature_run d (cp_witness p) (cp_validator_index p) s) as Hv.
  destruct (verify_signature d _ _ s) as [s' r]. destruct Hv as (_ & Hc & b & -> & Hb).
  destruct b; cbn; [|done]. split; [done|]. intros _. destruct (Hb eq_refl) as (v & -> & _). done.
Qed.

Lemma keeps_install_proposal p req :
  triple (λ s, Accepting p s ∧ pr_version req = version (context s))
    (_ ← set_ctx (store_proposal p req);
     c ← ctx id;
     hash ← lift (dbft_payload_hash c p);
     _ ← set_ctx (λ c, keep_responses hash (c <| preparation_hash := Some hash |>));
     _ ← set_proposed_block_hash;
     revalidate_current_view_commits) (λ _, Inv []).
Proof.
  intros s [[HI Hr Hs] Hver].
  destruct (payload_hash_ok (store_proposal p req (context s)) p Hs) as [h Hh].
  unfold set_proposed_block_hash.
  rewrite bind_set_ctx, bind_ctx_id, context_with, Hh, bind_lift_ok, !bind_set_ctx, !context_with,
    !with_context_twice.
  set (c1 := keep_responses h _).
  destruct (triple_revalidate me committee (hash_of (proposal_header (hash_proposal c1)))
              (s <| context := hash_proposal c1 |>)) as (_ & HI1 & _); [|exact HI1].
  eexists. apply Revalidating_reproposed; [done | | by split | apply hash_proposal_header].
  eapply unsigned_view_fresh; [apply HI | done].
Qed.

Lemma check_proposal_run req s :
  Quiet s (check_proposal req s).1 ∧
  ((check_proposal req s).2 = Ok tt → pr_version req = version (context s)).
Proof.
  split; [apply quiet_run; quiet_auto|].
  unfold check_proposal, ctx, gets, lift, mbind, M_bind. cbn.
  destruct (PrepareRequest.validate req _ _); cbn; [|done].
  destruct (N.eqb_spec (pr_version req) (version (context s))); cbn; [done|done].
Qed.

Lemma keeps_on_prepare_request p : keeps (Inv []) (on_prepare_request p).
Proof.
  unfold on_prepare_request, keeps. apply triple_ctx. intros c.
  do 2 (case_match; [by intros s []|]).
  apply (triple_bind _ (λ _ s, Inv [] s ∧ is_Some (validators (context s) !! N.to_nat (cp_validator_index p)))).
  { intros s [HI _]. destruct (check_witness_run p s) as (HQ & Hc & Hs).
    destruct ((check_witness p s).2) as [[]|e]; cbn; [|by eapply Inv_quiet].
    split; [by eapply Inv_quiet|]. rewrite Hc. by apply Hs. }
  intros _. apply triple_ctx. intros c'. destruct (prepare_request_received c') eqn:Hr; [by intros s [[] _]|].
  apply triple_lift_bind; [|by intros e s _ [[] _]]. intros req _.
  apply (triple_bind _ (λ _ s, Accepting p s ∧ pr_version req = version (context s))).
  { intros s [[HI Hs] <-]. destruct (check_proposal_run req s) as [HQ Hv].
    assert (Accepting p (check_proposal req s).1) as HA by (eapply Accepting_quiet; [exact HQ | by split]).
    destruct ((check_proposal req s).2) as [[]|e]; cbn; [|apply HA].
    split; [done|]. rewrite (core_version _ _ (quiet_core _ _ HQ)). by apply Hv. }
  intros _. pose proof (keeps_install_proposal p req) as Hin.
  intros s Hs. specialize (Hin s Hs). revert Hin. unfold ctx, set_ctx, modify, lift, mbind, M_bind. cbn.
  destruct (dbft_payload_hash _ p) as [h|e]; cbn; [|done].
  destruct (revalidate_current_view_commits _) as [s2 [[]|e]]; cbn; [|done]. intros HI2.
  apply keeps_request_proposal_transactions. eapply Inv_quiet; [|exact HI2].
  apply (quiet_run (set_ctx (extend_timer_by_factor 2))). quiet_auto.
Qed.

(** ** Recovery, messages and the timer *)

Lemma keeps_attempt {A} I (m : St A) : keeps I m → keeps I (attempt m).
Proof. intros Hm s Hs. specialize (Hm s Hs). unfold attempt. by destruct (m s). Qed.

Lemma keeps_reprocess p : keeps (Inv []) (reprocess_recovery_payload p).
Proof.
  unfold reprocess_recovery_payload. apply keeps_bind; [|intros ?; apply keeps_ret]. apply keeps_attempt.
  case_match; auto using keeps_on_change_view, keeps_on_prepare_request, keeps_on_prepare_response,
    keeps_on_commit, keeps_ret.
Qed.
Lemma keeps_reprocess_compact h i v ty d inv : keeps (Inv []) (reprocess_compact h i v ty d inv).
Proof. unfold reprocess_compact. keeps_quiet. apply keeps_reprocess. Qed.
Lemma keeps_recover_preparations h v r : keeps (Inv []) (recover_preparations h v r).
Proof.
  unfold recover_preparations. apply keeps_bind.
  { unfold recover_prepare_request. keeps_quiet; apply keeps_reprocess_compact. }
  intros _. apply keeps_quiet_step.
  { quiet_auto. case_match; [by split|]. case_match; by split. }
  intros _. keeps_quiet; apply keeps_for_each; intros x _; unfold recover_preparation; keeps_quiet;
    apply keeps_reprocess_compact.
Qed.
Lemma keeps_apply_recovery h v r : keeps (Inv []) (apply_recovery h v r).
Proof.
  unfold apply_recovery. apply keeps_quiet_step; [quiet_auto|]. intros c. cbv zeta. repeat case_match.
  - apply keeps_ret.
  - apply keeps_for_each. intros x _. unfold recover_change_view. keeps_quiet. apply keeps_reprocess_compact.
  - apply keeps_bind; [apply keeps_recover_preparations|]. intros _. keeps_quiet.
    apply keeps_for_each. intros x _. unfold recover_commit. keeps_quiet. apply keeps_reprocess_compact.
  - keeps_quiet.
    apply keeps_for_each. intros x _. unfold recover_commit. keeps_quiet. apply keeps_reprocess_compact.
Qed.
Lemma keeps_on_recovery_message p : keeps (Inv []) (on_recovery_message p).
Proof. unfold on_recovery_message. keeps_quiet; apply keeps_apply_recovery. Qed.

Lemma keeps_process_message p : keeps (Inv []) (process_message p).
Proof.
  unfold process_message, process_new_message. keeps_quiet; (apply keeps_bind; [|intros _; keeps_quiet]);
    unfold dispatch; case_match; auto using keeps_on_change_view, keeps_on_prepare_request,
    keeps_on_prepare_response, keeps_on_commit, keeps_on_recovery_message, quiet_keeps, quiet_on_recovery_request.
Qed.

Lemma keeps_on_timer_tick t : keeps (Inv []) (on_timer_tick t).
Proof.
  unfold on_timer_tick, on_timeout. cbv zeta. keeps_quiet; apply keeps_request_change_view.
Qed.

Lemma keeps_on_transaction h : keeps (Inv []) (on_transaction h).
Proof.
  unfold on_transaction. keeps_quiet; try (apply keeps_bind; [apply keeps_send_prepare_response |
    intros _; apply keeps_check_prepare_responses]).
Qed.

(** ** Our own proposal *)

Lemma reproposed_refl c : reproposed c c.
Proof. by split. Qed.
Lemma reproposed_trans c1 c2 c3 : reproposed c1 c2 → reproposed c2 c3 → reproposed c1 c3.
Proof. intros [] []. split; congruence. Qed.
Lemma reproposed_core c c' : same_core c c' → reproposed c c'.
Proof. intros []. by split. Qed.

Lemma unsigned_view_not_sent c net tr :
  RoundInv [] c net tr → commit_sent c = false → unsigned_view c tr.
Proof.
  intros HR Hs v pre Hin ->. destruct (inv_once _ _ _ _ _ _ HR _ _ Hin) as (idx & Hm & Hc & Hv & _).
  unfold commit_sent in Hs. rewrite Hm, !bool_decide_true in Hs by done. done.
Qed.

(** The proposal is being written: the state but for the proposal satisfies the
    invariant. *)
Definition Proposing s : Prop :=
  ∃ c, Inv [] (s <| context := c |>) ∧ unsigned_view c (trace s) ∧ reproposed c (context s).

Lemma Proposing_quiet s s' : Quiet s s' → Proposing s → Proposing s'.
Proof.
  intros [Hc Hn (l & Ht & Hl)] (c & HI & Hu & Hr). exists c. split_and!.
  - eapply Inv_quiet; [|exact HI]. split; [by split | exact Hn | by exists l].
  - intros v pre. rewrite Ht. intros [Hin|Hin]%elem_of_app; [by destruct (harmless_blocks _ _ Hl _ _ _ Hin)|].
    by eapply Hu.
  - eapply reproposed_trans; [exact Hr | by apply reproposed_core].
Qed.
Lemma Proposing_set_ctx g s :
  reproposed (context s) (g (context s)) → Proposing s → Proposing (s <| context := g (context s) |>).
Proof. intros Hg (c & HI & Hu & Hr). exists c. split_and!; [done | done | by eapply reproposed_trans]. Qed.

Lemma triple_proposing_quiet {A B} (m : St A) (k : A → St B) :
  quiet m → (∀ e s, (m s).2 ≠ Err e ∨ ¬ Proposing s) →
  (∀ a, triple Proposing (k a) (λ _, Inv [])) → triple Proposing (m ≫= k) (λ _, Inv []).
Proof.
  intros Hm He Hk. apply (triple_bind _ (λ _, Proposing)); [|done]. intros s Hs.
  pose proof (Proposing_quiet _ _ (quiet_run m s Hm) Hs) as Hs'.
  destruct ((m s).2) as [a|e] eqn:E; [done|]. by destruct (He e s).
Qed.
Lemma triple_proposing_set {A} g (k : unit → St A) :
  (∀ c, reproposed c (g c)) → triple Proposing (k tt) (λ _, Inv []) →
  triple Proposing (set_ctx g ≫= k) (λ _, Inv []).
Proof. intros Hg Hk s Hs. rewrite bind_set_ctx. by apply Hk, Proposing_set_ctx. Qed.

Lemma proposing_me s : Proposing s → ∃ idx, my_index (context s) = Some idx.
Proof.
  intros (c & [HR _] & _ & Hr). destruct (inv_me _ _ _ _ _ _ HR) as (idx & _ & Hm & _).
  exists idx. by rewrite (rep_me _ _ Hr).
Qed.

Lemma Inv_request_sent s :
  Proposed s → Inv [] (s <| context ::= λ c, c <| prepare_request_received := true |> |>).
Proof.
  intros [[[Im Ic Ih Iv If Ir Iw Is Io] HT] Hh]. split; [|done]. split; try done.
  intros v pre Hin. destruct (Io v pre Hin) as (idx & ? & ? & ? & ? & _). by exists idx.
Qed.

Lemma keeps_broadcast_proposal p :
  triple Proposed (_ ← broadcast p; set_ctx (λ c, c <| prepare_request_received := true |>)) (λ _, Inv []).
Proof.
  apply triple_quiet; [quiet_auto | apply Proposed_quiet | by intros e s [] |].
  intros _ s. apply Inv_request_sent.
Qed.

(** Hashing the proposal, checking the commits and sending it. *)
Lemma keeps_send_proposal p :
  triple Proposing
    (_ ← set_proposed_block_hash;
     _ ← revalidate_current_view_commits;
     _ ← broadcast p;
     set_ctx (λ c, c <| prepare_request_received := true |>)) (λ _, Inv []).
Proof.
  unfold set_proposed_block_hash. intros s (c & HI & Hu & Hr). rewrite bind_set_ctx.
  set (c1 := hash_proposal (context s)).
  assert (reproposed c c1) as Hr1 by (eapply reproposed_trans; [exact Hr | by split]).
  pose proof (Revalidating_reproposed _ c1 HI Hu Hr1 (hash_proposal_header _)) as HR.
  rewrite with_context_twice in HR.
  destruct (triple_revalidate me committee (hash_of (proposal_header c1)) (s <| context := c1 |>))
    as (Hok & HI1 & Hh1); [by eexists|].
  unfold mbind at 1, M_bind.
  destruct (revalidate_current_view_commits _) as [s1 r]. cbn in Hok, HI1, Hh1. subst r.
  apply keeps_broadcast_proposal. split; [done | by rewrite Hh1].
Qed.

Lemma keeps_propose hs :
  triple (λ s, Inv [] s ∧ commit_sent (context s) = false) (propose hs) (λ _, Inv []).
Proof.
  apply (triple_pre _ Proposing).
  2: { intros s [HI Hs]. exists (context s). rewrite with_own_context. split; [exact HI|].
       split; [|apply reproposed_refl].
       eapply unsigned_view_not_sent; [apply HI | done]. }
  unfold propose, current_timestamp, generate_nonce. cbv zeta.
  apply triple_proposing_quiet; [quiet_auto | by left |]. intros now.
  apply triple_proposing_set; [by intros c; split|].
  apply triple_proposing_quiet; [quiet_auto | by left |]. intros c.
  apply triple_proposing_quiet; [quiet_auto | by left |]. intros nc.
  apply triple_proposing_quiet; [quiet_auto | by left |]. intros limit.
  apply triple_proposing_set; [by intros c'; split|].
  apply triple_proposing_quiet; [quiet_auto | |].
  { intros e s. destruct (my_index (context s)) as [idx|] eqn:E; [left|right].
    - unfold svc_my_index. cbn. by rewrite E.
    - intros (i & Hi)%proposing_me. congruence. }
  intros idx. apply triple_proposing_quiet; [quiet_auto | |].
  { intros e s. destruct (create_payload_run MessageType.PrepareRequest (PrepareRequest.serialize
      (mkPrepareRequest (block_index c) (view_number c) idx (version c) (prev_hash c)
         (prepare_request_timestamp now (previous_block_timestamp c)) nc (take (N.to_nat limit) hs))) s) as [_ Hp].
    destruct (my_index (context s)) as [i|] eqn:E; [left|right].
    - destruct Hp as [w ->]. done.
    - intros (i & Hi)%proposing_me. congruence. }
  intros p. apply triple_proposing_set; [|apply keeps_send_proposal].
  intros c'. destruct (dbft_payload_hash c' p); by split.
Qed.

Lemma same_core_mark_available hs c : same_core c (mark_available_transactions hs c).
Proof. by split. Qed.

Lemma keeps_on_transactions_received hs :
  triple (λ s, Inv [] s ∧ (is_primary (context s) = true → commit_sent (context s) = false))
    (on_transactions_received hs) (λ _, Inv []).
Proof.
  intros s [HI Hs]. unfold on_transactions_received. rewrite bind_gets, bind_ctx_id.
  do 2 (case_match; [done|]). destruct (is_primary (context s)).
  { apply keeps_propose. auto. }
  assert (keeps (Inv []) send_prepare_response) as Hk by apply keeps_send_prepare_response.
  do 2 (case_match; [by try apply Hk|]).
  apply (keeps_quiet_step me committee []); [|intros _; case_match; [apply Hk | apply keeps_ret] | done].
  apply quiet_set_ctx. apply same_core_mark_available.
Qed.
End steps.
