(* ===== verification/DbftFrame.v ===== *)
(** * Properties every step of the service keeps

    A property kept by the primitive steps of the service (asking the world,
    updating the context within a view, moving to a later view, signing, checking
    a signature, logging) is kept by every handler. *)
From S2P Require Import Prelude Primitives Order Hashing Io EcPoint MerkleTree OpCode Instruction.
From S2P Require Import ScriptBuilder RecordUpdate DbftMessages DbftContext DbftService Hoare DbftQuiet.
#[local] Open Scope N_scope.
#[local] Open Scope update_scope.

(** The height, the view and the validators agree. *)
Record same_round `{MessageCache} (c c' : ConsensusContext) : Prop := {
  round_index : block_index c' = block_index c;
  round_view : view_number c' = view_number c;
  round_validators : validators c' = validators c;
  round_me : my_index c' = my_index c;
}.

Create HintDb frame.

Section frame.
Context {crypto : Crypto} {ripemd : Ripemd} {curves : Curves} {order : HashOrder} {mcache : MessageCache} {bincode : Bincode}.
Context (J : Service → Prop).
Hypothesis J_ask : ∀ s, J s → J (s <| tick ::= N.succ |>).
Hypothesis J_running : ∀ s, J s → J (s <| running := false |>).
Hypothesis J_saved : ∀ s file, bincode_serialize (persisted (context s)) = Some file → J s →
  J (s <| disk := Some file |> <| trace ::= cons (Saved file) |>).
Hypothesis J_ctx : ∀ s c, same_round (context s) c → J s → J (s <| context := c |>).
Hypothesis J_view : ∀ s v t, view_number (context s) < v → J s →
  J (s <| context := reset_for_new_view v t (context s) |>).
Hypothesis J_log : ∀ s a, (∀ d sig, a ≠ Signed d sig) → (∀ k d sig, a ≠ Verified k d sig) →
  (∀ h v pre, a ≠ SignedBlock h v pre) → (∀ file, a ≠ Saved file) → J s → J (s <| trace ::= cons a |>).
Hypothesis J_signed : ∀ d, keeps J (sign d).
Hypothesis J_verified : ∀ d sig i, keeps J (verify_signature d sig i).

Lemma J_ask_keeps {A} (q : World → N → A) : keeps J (ask q).
Proof. intros s. apply J_ask. Qed.
Lemma J_log_keeps a :
  (∀ d sig, a ≠ Signed d sig) → (∀ k d sig, a ≠ Verified k d sig) → (∀ h v pre, a ≠ SignedBlock h v pre) →
  (∀ file, a ≠ Saved file) → keeps J (log a).
Proof. intros H1 H2 H3 H4 s. by apply J_log. Qed.
Lemma J_ctx_read {A} (g : ConsensusContext → A) : keeps J (ctx g).
Proof. by intros s. Qed.
Lemma J_my_index : keeps J svc_my_index.
Proof. by intros s. Qed.
Lemma J_set_ctx g : (∀ c, same_round c (g c)) → keeps J (set_ctx g).
Proof. intros Hg s HJ. apply (J_ctx s (g (context s))); auto. Qed.
Lemma J_in_context {A} (m : M ConsensusContext ConsensusError A) :
  (∀ c, same_round c (m c).1) → keeps J (in_context m).
Proof.
  intros Hm s HJ. specialize (Hm (context s)). unfold in_context. destruct (m (context s)) as [c r].
  by apply J_ctx.
Qed.
Lemma J_attempt {A} (m : St A) : keeps J m → keeps J (attempt m).
Proof. intros Hm s HJ. specialize (Hm s HJ). unfold attempt. by destruct (m s). Qed.
Lemma J_for_each {A} (body : A → St unit) l : (∀ x, keeps J (body x)) → keeps J (for_each body l).
Proof. intros Hb. apply keeps_for_each. auto. Qed.

Lemma round_add_commit i v sig c : same_round c (add_commit i v sig c).1.
Proof. unfold add_commit. case_match; by split. Qed.
Lemma round_add_response i x h c : same_round c (add_prepare_response i x h c).1.
Proof. unfold add_prepare_response. case_match; [by split|]. destruct h; by split. Qed.
Lemma round_add_change_view i v r t c : same_round c (add_change_view i v r t c).1.
Proof. unfold add_change_view. case_match; by split. Qed.
Lemma round_extend k c : same_round c (extend_timer_by_factor k c).
Proof. unfold extend_timer_by_factor. case_match; by split. Qed.
Lemma round_seen h c : same_round c (mark_message_seen h c).
Proof. unfold mark_message_seen. case_match; by split. Qed.
Lemma round_metrics h x c : same_round c (record_transaction_metrics h x c).
Proof. unfold record_transaction_metrics. case_match; by split. Qed.
Lemma round_mark h c : same_round c (mark_transaction_available h c).1.
Proof. unfold mark_transaction_available. case_match; by split. Qed.
#[local] Hint Resolve round_add_commit round_add_response round_add_change_view round_extend round_seen
  round_metrics round_mark : frame.
#[local] Hint Resolve keeps_ret keeps_fail keeps_lift keeps_gets J_ask_keeps J_ctx_read J_my_index J_signed
  J_verified : frame.

Ltac frame_step :=
  match goal with
  | |- keeps _ (_ ≫= _) => apply keeps_bind; [|intros ?]
  | |- keeps _ (attempt _) => apply J_attempt
  | |- keeps _ (for_each _ _) => apply J_for_each; intros ?
  | |- keeps _ (set_ctx _) => apply J_set_ctx; intros ?
  | |- keeps _ (in_context _) => apply J_in_context; intros ?
  | |- keeps _ (log _) => apply J_log_keeps; by intros *
  | |- keeps _ (if ?b then _ else _) => destruct b
  | |- keeps _ (match ?x with _ => _ end) => destruct x
  | |- same_round _ (match ?x with _ => _ end) => destruct x
  | |- same_round _ _ => by split
  end.
Ltac frame_auto := cbv zeta; repeat first [ solve [auto 2 with frame nocore] | frame_step ].

Lemma J_send_event e : keeps J (send_event e).
Proof. unfold send_event. frame_auto. Qed.
Lemma J_create_payload ty d : keeps J (create_payload ty d).
Proof. unfold create_payload. frame_auto. Qed.
Lemma J_save : keeps J save.
Proof.
  intros s HJ. unfold save, ctx, ask, modify, mbind, M_bind. cbn.
  destruct (bincode_serialize (persisted (context s))) as [file|] eqn:Ef; [|exact HJ]. cbn.
  destruct (w_file (world s) (tick s)); cbn; [|by apply J_ask].
  destruct (w_file (world s) _); cbn; [|by apply (J_ask (s <| tick ::= N.succ |>)), J_ask].
  apply (J_saved (s <| tick ::= N.succ |> <| tick ::= N.succ |>)); [done | by apply J_ask, J_ask].
Qed.
#[local] Hint Resolve J_send_event J_create_payload J_save : frame.
#[local] Hint Extern 1 (keeps _ (broadcast _)) => apply J_send_event : frame.
Lemma J_save_context : keeps J save_context_if_configured.
Proof. unfold save_context_if_configured. frame_auto. Qed.
Lemma J_check_witness p : keeps J (check_witness p).
Proof. unfold check_witness. frame_auto. Qed.
Lemma J_record_commit p : keeps J (record_commit p).
Proof. unfold record_commit, cache_commit_invocation. frame_auto. Qed.
Lemma J_revalidate : keeps J revalidate_current_view_commits.
Proof. unfold revalidate_current_view_commits, revalidate_commit. frame_auto. Qed.
Lemma J_check_commits : keeps J check_commits.
Proof. unfold check_commits. frame_auto. Qed.
Lemma J_resend : keeps J resend_recovery_message.
Proof. unfold resend_recovery_message. frame_auto. Qed.
#[local] Hint Resolve J_save_context J_check_witness J_record_commit J_revalidate
  J_check_commits J_resend : frame.

Lemma J_maybe_send i : keeps J (maybe_send_recovery_response i).
Proof. unfold maybe_send_recovery_response. frame_auto. Qed.
Lemma J_request_recovery : keeps J request_recovery.
Proof. unfold request_recovery, current_timestamp. frame_auto. Qed.
Lemma J_broadcast_change_view i t r l : keeps J (broadcast_change_view i t r l).
Proof. unfold broadcast_change_view, cache_change_view_invocation. frame_auto. Qed.
#[local] Hint Resolve J_maybe_send J_request_recovery J_broadcast_change_view : frame.

Lemma J_agreement t : keeps J (broadcast_change_agreement t).
Proof. unfold broadcast_change_agreement. frame_auto. Qed.

(** A view change is the only step that leaves the view, and it goes forward. *)
Lemma J_change_view v t : keeps J (change_view v t).
Proof.
  intros s HJ. unfold change_view. rewrite bind_ctx_id. cbv zeta.
  destruct (N.leb_spec v (view_number (context s))) as [|Hlt]; [done|].
  set (agree := match my_index (context s) with Some idx => _ | None => _ end).
  assert (keeps J agree) as HJa by (unfold agree; frame_auto; apply J_agreement).
  assert (quiet agree) as Hq by (unfold agree; quiet_auto).
  specialize (HJa s HJ). apply (quiet_run _ s) in Hq. clearbody agree. rewrite (bind_run agree).
  destruct (agree s) as [s1 [[]|e]]; [|done]. rewrite bind_set_ctx. apply J_send_event, J_view; [|done].
  cbn in Hq. by rewrite (core_view _ _ (quiet_core _ _ Hq)).
Qed.
#[local] Hint Resolve J_agreement J_change_view : frame.
Lemma J_request_change_view r t : keeps J (request_change_view r t).
Proof. unfold request_change_view, change_view_if_enough. frame_auto. Qed.
Lemma J_on_change_view p : keeps J (on_change_view p).
Proof. unfold on_change_view, cache_change_view_invocation, change_view_if_enough. frame_auto. Qed.
Lemma J_on_commit p : keeps J (on_commit p).
Proof. unfold on_commit. frame_auto. Qed.
#[local] Hint Resolve J_request_change_view J_on_change_view J_on_commit : frame.

(** *** The handlers, given the steps that can sign a block *)

Section handlers.
Hypothesis J_response : keeps J send_prepare_response.
Hypothesis J_on_response : ∀ p, keeps J (on_prepare_response p).
#[local] Hint Resolve J_response J_on_response : frame.

Lemma K_on_prepare_request p : keeps J (on_prepare_request p).
Proof.
  unfold on_prepare_request, check_proposal, set_proposed_block_hash, request_proposal_transactions,
    current_timestamp. frame_auto.
Qed.
#[local] Hint Resolve K_on_prepare_request : frame.
Lemma K_reprocess h i v ty d x : keeps J (reprocess_compact h i v ty d x).
Proof. unfold reprocess_compact, reprocess_recovery_payload. frame_auto. Qed.
#[local] Hint Resolve K_reprocess : frame.
Lemma K_on_recovery_message p : keeps J (on_recovery_message p).
Proof.
  unfold on_recovery_message, apply_recovery, recover_change_view, recover_preparations,
    recover_prepare_request, recover_preparation, recover_commit. frame_auto.
Qed.
Lemma K_on_recovery_request p : keeps J (on_recovery_request p).
Proof. unfold on_recovery_request. frame_auto. Qed.
#[local] Hint Resolve K_on_recovery_message K_on_recovery_request : frame.
Lemma K_process_message p : keeps J (process_message p).
Proof. unfold process_message, process_new_message, dispatch. frame_auto. Qed.
Lemma K_on_timer_tick t : keeps J (on_timer_tick t).
Proof. unfold on_timer_tick, on_timeout, initiate_proposal. frame_auto. Qed.
Lemma K_on_transactions_received hs : keeps J (on_transactions_received hs).
Proof.
  unfold on_transactions_received, propose, set_proposed_block_hash, current_timestamp, generate_nonce.
  frame_auto. destruct (dbft_payload_hash _ _); by split.
Qed.
End handlers.

(** *** The handlers, given the step that can sign a block *)

Section checked.
Hypothesis J_check : keeps J check_prepare_responses.
#[local] Hint Resolve J_check : frame.

Lemma L_send_prepare_response : keeps J send_prepare_response.
Proof. unfold send_prepare_response, reject_block, respond, current_timestamp. frame_auto. Qed.
#[local] Hint Resolve L_send_prepare_response : frame.
Lemma L_on_prepare_response p : keeps J (on_prepare_response p).
Proof. unfold on_prepare_response. frame_auto. Qed.
Lemma L_process_message p : keeps J (process_message p).
Proof. apply K_process_message; [apply L_send_prepare_response | apply L_on_prepare_response]. Qed.
Lemma L_on_transactions_received hs : keeps J (on_transactions_received hs).
Proof. apply K_on_transactions_received, L_send_prepare_response. Qed.
Lemma L_on_transaction h : keeps J (on_transaction h).
Proof. unfold on_transaction. frame_auto. Qed.
End checked.

(** *** All steps *)

Hypothesis J_block : ∀ h v pre, keeps J (log (SignedBlock h v pre)).
#[local] Hint Resolve J_block : frame.

Lemma J_sign_block_hash h : keeps J (sign_block_hash h).
Proof. unfold sign_block_hash. frame_auto. Qed.
#[local] Hint Resolve J_sign_block_hash : frame.
Lemma J_check_prepare_responses : keeps J check_prepare_responses.
Proof. unfold check_prepare_responses, send_commit. frame_auto. Qed.
End frame.
