(* ===== verification/DbftLog.v ===== *)
(** * The recovery log

    A node whose storage works has, whenever it signed the block of its current
    height, a recovery log of that height on disk.  Every handler keeps this: the
    only step that signs a block saves the context before the commit leaves. *)
From S2P Require Import Prelude Primitives Order Hashing Io EcPoint MerkleTree OpCode Instruction.
From S2P Require Import ScriptBuilder RecordUpdate DbftMessages DbftContext DbftService Hoare DbftQuiet DbftFrame.
#[local] Open Scope N_scope.
#[local] Open Scope update_scope.

Section log.
Context {crypto : Crypto} {ripemd : Ripemd} {curves : Curves} {order : HashOrder} {mcache : MessageCache} {bincode : Bincode}.
Implicit Types (s : Service) (c : ConsensusContext) (tr : list Action).

(** The recovery log is configured, files and the event channel work, and the
    state can be encoded. *)
Record durable s : Prop := {
  durable_path : state_path s = true;
  durable_file t : w_file (world s) t = true;
  durable_channel t : w_channel (world s) t = true;
  durable_encode st : is_Some (bincode_serialize st);
}.

(** We are one of the validators. *)
Definition seated c : Prop := ∃ idx, my_index c = Some idx ∧ idx < validator_count c.

Record Logging s : Prop := {
  logging_durable : durable s;
  logging_seated : seated (context s);
  logging_disk file : disk s = Some file → Saved file ∈ trace s;
}.
Record Logged s : Prop := {
  logged_logging : Logging s;
  logged_signed : block_index (context s) ∈ signed_heights (trace s) →
    ∃ file st, disk s = Some file ∧ bincode_deserialize file = Some st ∧ ps_block st = block_index (context s);
}.

Lemma seated_round c c' : same_round c c' → seated c → seated c'.
Proof.
  intros [E1 E2 E3 E4] (idx & Hm & Hlt). exists idx. unfold validator_count. by rewrite E4, E3.
Qed.
Lemma seated_view c v t : seated c → seated (reset_for_new_view v t c).
Proof. intros (idx & Hm & Hlt). by exists idx. Qed.

Lemma Logging_log s a : Logging s → Logging (s <| trace ::= cons a |>).
Proof. intros [[] Hs Hd]. split; [by split | done |]. intros file Hf. right. by apply Hd. Qed.
Lemma Logging_ctx s c : seated c → Logging s → Logging (s <| context := c |>).
Proof. intros Hc [[] _ Hd]. by split. Qed.
Lemma Logging_saved s file : Logging s → Logging (s <| disk := Some file |> <| trace ::= cons (Saved file) |>).
Proof. intros [[] Hs Hd]. split; [by split | done |]. cbn. intros f [= ->]. by constructor. Qed.

Lemma Logged_log s a : (∀ h v pre, a ≠ SignedBlock h v pre) → Logged s → Logged (s <| trace ::= cons a |>).
Proof.
  intros Ha [Hl Hs]. split; [by apply Logging_log|]. cbn. destruct a; try done. by destruct (Ha height view unsigned).
Qed.
Lemma Logged_ctx s c :
  block_index c = block_index (context s) → seated c → Logged s → Logged (s <| context := c |>).
Proof. intros E Hc [Hl Hs]. split; [by apply Logging_ctx|]. cbn. by rewrite E. Qed.
Lemma Logged_saved s file :
  bincode_serialize (persisted (context s)) = Some file → Logging s →
  Logged (s <| disk := Some file |> <| trace ::= cons (Saved file) |>).
Proof.
  intros Hf Hl. split; [by apply Logging_saved|]. intros _. exists file, (persisted (context s)).
  split; [done|]. split; [by apply bincode_round_trip | done].
Qed.

(** Signing and checking only log. *)
Lemma keeps_sign (J : Service → Prop) d :
  (∀ s, J s → J (s <| tick ::= N.succ |>)) → (∀ s sig, J s → J (s <| trace ::= cons (Signed d sig) |>)) →
  keeps J (sign d).
Proof.
  intros Ja Jl s HJ. unfold sign. rewrite bind_gets. destruct (signer s).
  - unfold sign_with_signer, my_script_hash, svc_my_index, ctx, ask, lift, mbind, M_bind. cbn.
    destruct (my_index (context s)) as [idx|]; cbn; [|done].
    destruct (validators (context s) !! N.to_nat idx) as [v|]; cbn; [|done].
    destruct (w_signer (world s) (tick s) d (v_script_hash v)) as [sig|e]; cbn; [|by apply Ja].
    destruct (len sig =? 64); cbn; [by apply Jl, Ja | by apply Ja].
  - unfold sign_with_key, gets, mbind, M_bind. cbn. destruct (len (private_key s) =? 32); cbn; [|done].
    destruct (secp256r1_sign d (private_key s)) as [sig|]; cbn; [by apply Jl | done].
Qed.
Lemma keeps_verify (J : Service → Prop) d sig i :
  (∀ s k, J s → J (s <| trace ::= cons (Verified k d sig) |>)) → keeps J (verify_signature d sig i).
Proof.
  intros Jl s HJ. unfold verify_signature, ctx, log, modify, mbind, M_bind. cbn.
  repeat (case_match; cbn; simplify_eq; auto).
Qed.

Lemma Logging_tick s : Logging s → Logging (s <| tick ::= N.succ |>).
Proof. intros [[] ? ?]. by split. Qed.
Lemma Logged_tick s : Logged s → Logged (s <| tick ::= N.succ |>).
Proof. intros [[[] ? ?] ?]. by split. Qed.
Lemma Logging_running s b : Logging s → Logging (s <| running := b |>).
Proof. intros [[] ? ?]. by split. Qed.
Lemma Logged_running s b : Logged s → Logged (s <| running := b |>).
Proof. intros [[[] ? ?] ?]. by split. Qed.
#[local] Hint Resolve Logging_log Logging_ctx Logging_saved Logging_tick Logging_running Logged_log Logged_ctx
  Logged_saved Logged_tick Logged_running seated_round seated_view logged_logging logging_seated : core.

(** *** The steps that do not sign a block *)

Lemma Logged_round s c : same_round (context s) c → Logged s → Logged (s <| context := c |>).
Proof. intros Hr HL. apply Logged_ctx; [apply Hr | eauto | done]. Qed.
Lemma Logged_view s v t :
  view_number (context s) < v → Logged s → Logged (s <| context := reset_for_new_view v t (context s) |>).
Proof. intros _ HL. apply Logged_ctx; [done | eauto | done]. Qed.
Lemma Logging_round s c : same_round (context s) c → Logging s → Logging (s <| context := c |>).
Proof. intros Hr HL. apply Logging_ctx; [eauto | done]. Qed.
Lemma Logging_view s v t :
  view_number (context s) < v → Logging s → Logging (s <| context := reset_for_new_view v t (context s) |>).
Proof. intros _ HL. apply Logging_ctx; [eauto | done]. Qed.
Lemma Logged_sign d : keeps Logged (sign d).
Proof. apply keeps_sign; [auto|]. intros s sig. by apply Logged_log. Qed.
Lemma Logged_verify d sig i : keeps Logged (verify_signature d sig i).
Proof. apply keeps_verify. intros s k. by apply Logged_log. Qed.
Lemma Logging_sign d : keeps Logging (sign d).
Proof. apply keeps_sign; auto. Qed.
Lemma Logging_verify d sig i : keeps Logging (verify_signature d sig i).
Proof. apply keeps_verify. auto. Qed.
#[local] Hint Resolve Logged_round Logged_view Logging_round Logging_view Logged_sign Logged_verify Logging_sign
  Logging_verify : core.

(** *** Signing a block *)

Lemma save_logged s :
  Logging s → (save_context_if_configured s).2 = Ok tt ∧ Logged (save_context_if_configured s).1.
Proof.
  intros HL. destruct (logging_durable _ HL) as [Hp Hf _ He].
  unfold save_context_if_configured, save, gets, ctx, ask, modify, mbind, M_bind. cbn. rewrite Hp. cbn.
  destruct (He (persisted (context s))) as [file Ef]. rewrite Ef. cbn. rewrite Hf. cbn. rewrite Hf. cbn.
  split; [done|]. apply (Logged_saved (s <| tick ::= N.succ |> <| tick ::= N.succ |>)); auto.
Qed.

Lemma sign_block_logging h s :
  Logged s → match sign_block_hash h s with (s', Ok _) => Logging s' | (s', Err _) => Logged s' end.
Proof.
  intros HL. unfold sign_block_hash, gets, ctx, log, modify, mbind, M_bind. cbn.
  pose proof (Logged_sign (sign_data (network s) h) s HL) as Hs.
  destruct (sign (sign_data (network s) h) s) as [s1 [sig|e]]; cbn in *; auto.
Qed.

(** Sending the commit of a seated validator reaches the snapshot. *)
Lemma record_logging idx v sig s :
  my_index (context s) = Some idx → Logging s →
  ∃ c, add_commit idx v sig (context s) = (c, Ok tt) ∧ Logging (s <| context := c |>).
Proof.
  intros Hm HL. destruct (logging_seated _ HL) as (i & Hi & Hlt). assert (i = idx) as -> by congruence.
  pose proof (round_add_commit idx v sig (context s)) as Hr. revert Hr. unfold add_commit.
  destruct (N.leb_spec (validator_count (context s)) idx) as [|_]; [lia|]. cbn. intros Hr.
  eexists. split; [done|]. auto.
Qed.

Lemma Logged_check_commits : keeps Logged check_commits.
Proof. apply J_check_commits; auto using Logged_log. Qed.
Lemma Logged_broadcast p : keeps Logged (broadcast p).
Proof. apply J_send_event; auto using Logged_log. Qed.

(** From the recorded commit on. *)
Lemma Logged_record idx sig p s :
  my_index (context s) = Some idx → Logging s →
  Logged ((_ ← in_context (λ c, add_commit idx (view_number c) sig c);
           _ ← save_context_if_configured;
           _ ← broadcast p;
           check_commits) s).1.
Proof.
  intros Hm HL. destruct (record_logging idx (view_number (context s)) sig s Hm HL) as (c & E & HL').
  unfold in_context, mbind at 1, M_bind at 1. cbv beta. rewrite E.
  unfold mbind at 1, M_bind at 1. destruct (save_logged _ HL') as [Eok HLd].
  destruct (save_context_if_configured _) as [s1 r]. cbn in Eok, HLd. subst r.
  revert s1 HLd. apply keeps_bind; [apply Logged_broadcast|]. intros _. apply Logged_check_commits.
Qed.

Lemma Logged_send_commit : keeps Logged send_commit.
Proof.
  intros s HL. unfold send_commit. rewrite bind_ctx_id.
  unfold mbind at 1, M_bind at 1.
  pose proof (sign_block_logging (default UInt256.zero (proposed_block_hash (context s))) s HL) as H1.
  destruct (sign_block_hash _ s) as [s1 [sig|e]]; [clear s HL|done].
  destruct (logging_seated _ H1) as (idx & Hidx & Hlt).
  unfold svc_my_index, mbind at 1, M_bind at 1. cbn beta iota. rewrite Hidx. cbn beta iota.
  rewrite bind_ctx_id. unfold mbind at 1, M_bind at 1. set (d := Commit.serialize _).
  destruct (create_payload_run MessageType.Commit d s1) as [HQ Hp].
  pose proof (J_create_payload Logging ltac:(auto) ltac:(auto) MessageType.Commit d s1 H1) as H2.
  rewrite Hidx in Hp. destruct Hp as [w Hp]. pose proof (core_me _ _ (quiet_core _ _ HQ)) as Hme.
  destruct (create_payload MessageType.Commit d s1) as [s2 r]. cbn in *. subst r.
  rewrite Hidx in Hme. case_match.
  - by apply Logged_record.
  - rewrite bind_set_ctx. apply Logged_record; [done|]. apply Logging_round; [by split | exact H2].
Qed.

(** *** The handlers *)

Lemma Logged_check_prepare_responses : keeps Logged check_prepare_responses.
Proof.
  unfold check_prepare_responses. apply keeps_bind; [by intros s|]. intros c.
  repeat (case_match; [apply keeps_ret|]). apply Logged_send_commit.
Qed.
Lemma Logged_process_message p : keeps Logged (process_message p).
Proof. apply L_process_message; auto using Logged_log, Logged_check_prepare_responses. Qed.
Lemma Logged_on_timer_tick t : keeps Logged (on_timer_tick t).
Proof. apply K_on_timer_tick; auto using Logged_log. Qed.
Lemma Logged_on_transactions_received hs : keeps Logged (on_transactions_received hs).
Proof. apply L_on_transactions_received; auto using Logged_log, Logged_check_prepare_responses. Qed.
Lemma Logged_on_transaction h : keeps Logged (on_transaction h).
Proof. apply L_on_transaction; auto using Logged_log, Logged_check_prepare_responses. Qed.
Lemma Logged_request_change_view r t : keeps Logged (request_change_view r t).
Proof. apply J_request_change_view; auto using Logged_log. Qed.
Lemma Logged_set_ctx g : (∀ c, same_round c (g c)) → keeps Logged (set_ctx g).
Proof. intros Hg s HL. by apply (Logged_round s (g (context s))). Qed.
End log.
