(* ===== verification/DbftRun.v ===== *)
(** * Runs of a dBFT node

    What the node's driver feeds the service (src/neo-node/src/consensus/driver.rs,
    [run] and [on_consensus_event]): a round for each imported block, inbound
    payloads, the timer, the transactions of a proposal, and restarts of the
    process, which resume from the recovery log.  A run is a list of such inputs;
    [disciplined] is what a run must respect for the safety theorems: the rounds go
    up, the node is a validator of each, the node does not propose again in a view
    whose block it has already signed, and it restarts only over working storage. *)
From S2P Require Import Prelude Primitives Order Hashing Io EcPoint MerkleTree OpCode Instruction.
From S2P Require Import ScriptBuilder RecordUpdate DbftMessages DbftContext DbftService Hoare DbftQuiet DbftInv.
From S2P Require Import DbftSteps DbftFrame DbftLog.
#[local] Open Scope N_scope.
#[local] Open Scope update_scope.

Definition BLOCK_VERSION : N := 0.

(** What [configure_round] and the imported block provide. *)
Record Round := mkRound {
  rd_validators : list ValidatorInfo;
  rd_me : option N;
  rd_block_time : N;
  rd_max_block_size : N;
  rd_max_block_system_fee : Z;
  rd_index : N;
  rd_timestamp : N;
  rd_prev_hash : UInt256.t;
  rd_prev_timestamp : N;
  rd_next_consensus : UInt160.t;
}.

Inductive Input :=
| Restarted (vs : list ValidatorInfo) (idx : option N) (r : Round) (t : N)
| Imported (r : Round)
| Inbound (p : ConsensusPayload)
| TransactionFeed (h : UInt256.t) (metrics : option TxMetrics)
| TimerTick (timestamp : N)
| PrimaryTransactions (hashes : list UInt256.t)
| ProposalTransactions (available : list (UInt256.t * TxMetrics)) (rejection : option ChangeViewReason.t)
    (timestamp : N).

Section run.
Context {crypto : Crypto} {ripemd : Ripemd} {curves : Curves} {order : HashOrder} {mcache : MessageCache} {bincode : Bincode}.
Implicit Types (s : Service) (c : ConsensusContext).

Definition configure_round (r : Round) : St unit :=
  _ ← update_validators (rd_validators r) (rd_me r);
  _ ← set_expected_block_time_ms (rd_block_time r);
  set_ctx (set_max_block_policy (rd_max_block_size r) (rd_max_block_system_fee r)).

Definition start_round (r : Round) : St unit :=
  start_with_block_context (rd_index r) (rd_timestamp r) (rd_prev_hash r) (rd_prev_timestamp r)
    (rd_next_consensus r) BLOCK_VERSION.

Definition new_round (r : Round) : St unit := _ ← configure_round r; start_round r.

(** A new process over the same disk: the configuration gives the validators
    [vs] and our index [idx], the ledger the round [r]; at time [t] the recovery
    log is read, and the round starts afresh unless it is resumed. *)
Definition restart (vs : list ValidatorInfo) (idx : option N) (r : Round) (t : N) : St unit :=
  _ ← modify (λ s, s <| context := new 0 vs idx None |> <| running := false |>);
  _ ← configure_round r;
  resumed ← attempt (try_load_and_resume (rd_index r) t (rd_prev_hash r) (rd_next_consensus r) BLOCK_VERSION);
  match resumed with
  | Ok true => mret tt
  | _ => start_round r
  end.

Definition feed_transaction (h : UInt256.t) (metrics : option TxMetrics) : St unit :=
  c ← ctx id;
  _ ← (match metrics with
       | Some x => if is_proposed_transaction h c then set_ctx (record_transaction_metrics h x) else mret tt
       | None => mret tt
       end);
  on_transaction h.

Definition proposal_transactions (available : list (UInt256.t * TxMetrics))
    (rejection : option ChangeViewReason.t) (timestamp : N) : St unit :=
  _ ← for_each (λ e, set_ctx (record_transaction_metrics e.1 e.2)) available;
  _ ← attempt (on_transactions_received (fst <$> available));
  match rejection with
  | Some reason => request_change_view reason timestamp
  | None => mret tt
  end.

(** The driver logs the errors of the service and goes on. *)
Definition handle (i : Input) : St unit :=
  match i with
  | Restarted vs idx r t => restart vs idx r t
  | Imported r => new_round r
  | Inbound p => process_message p
  | TransactionFeed h metrics => feed_transaction h metrics
  | TimerTick timestamp => on_timer_tick timestamp
  | PrimaryTransactions hashes => on_transactions_received hashes
  | ProposalTransactions available rejection timestamp => proposal_transactions available rejection timestamp
  end.

Fixpoint exec (inputs : list Input) s : Service :=
  match inputs with
  | [] => s
  | i :: rest => exec rest (handle i s).1
  end.

(** A service that has done nothing yet. *)
Definition fresh s : Prop := trace s = [] ∧ disk s = None.

(** A header over the parent of the round [r]. *)
Definition extends (r : Round) (pre : bytes) : Prop :=
  ∃ root time nc primary,
    pre = unsigned_header 0 (rd_prev_hash r) root time nc (rd_index r) primary (rd_next_consensus r).

Section discipline.
Context (me : ECPoint) (committee : N → list ValidatorInfo).

(** The round is one of ours. *)
Definition ours (r : Round) : Prop :=
  rd_index r < 2 ^ 32 ∧ rd_validators r = committee (rd_index r) ∧
  match rd_me r with
  | Some idx => v_public_key <$> rd_validators r !! N.to_nat idx = Some me
  | None => False
  end.

(** A restart goes on at the height the node was at, or above, over the parent it
    had; no two validators of that height share a key. *)
Definition admissible (i : Input) s : Prop :=
  match i with
  | Restarted vs idx r t =>
      durable s ∧ block_index (context s) ≤ rd_index r ∧ ours r ∧
      NoDup (v_public_key <$> committee (rd_index r)) ∧
      ∀ v pre, SignedBlock (rd_index r) v pre ∈ trace s → extends r pre
  | Imported r => block_index (context s) < rd_index r ∧ ours r
  | PrimaryTransactions _ | ProposalTransactions _ _ _ =>
      is_primary (context s) = true → commit_sent (context s) = false
  | _ => True
  end.

Fixpoint admissible_all (inputs : list Input) s : Prop :=
  match inputs with
  | [] => True
  | i :: rest => admissible i s ∧ admissible_all rest (handle i s).1
  end.

(** A run starts with a round. *)
Definition disciplined (inputs : list Input) s : Prop :=
  fresh s ∧ admissible_all inputs s ∧ match inputs with Imported _ :: _ | Restarted _ _ _ _ :: _ => True | _ => False end.
End discipline.

(** ** Frames along a run *)

Section frame.
Context (J : Service → Prop).
Hypothesis J_ask : ∀ s, J s → J (s <| tick ::= N.succ |>).
Hypothesis J_running : ∀ s b, J s → J (s <| running := b |>).
Hypothesis J_saved : ∀ s file, J s → J (s <| disk := Some file |> <| trace ::= cons (Saved file) |>).
Hypothesis J_context : ∀ s c, J s → J (s <| context := c |>).
Hypothesis J_log : ∀ s a, (∀ d sig, a ≠ Signed d sig) → (∀ k d sig, a ≠ Verified k d sig) →
  J s → J (s <| trace ::= cons a |>).
Hypothesis J_signed : ∀ d, keeps J (sign d).
Hypothesis J_verified : ∀ d sig i, keeps J (verify_signature d sig i).

Lemma frame_set_ctx g : keeps J (set_ctx g).
Proof. intros s. apply J_context. Qed.
Lemma frame_block h v pre : keeps J (log (SignedBlock h v pre)).
Proof. intros s. by apply J_log. Qed.
Lemma frame_check : keeps J check_prepare_responses.
Proof. apply J_check_prepare_responses; auto using frame_block. Qed.
Lemma frame_configure r : keeps J (configure_round r).
Proof. unfold configure_round, update_validators. repeat (apply keeps_bind; [apply frame_set_ctx|intros _]). apply frame_set_ctx. Qed.
Lemma frame_start r : keeps J (start_round r).
Proof.
  unfold start_round, start_with_block_context. apply keeps_bind; [by intros s|intros _].
  apply keeps_bind; [apply frame_set_ctx|intros _]. apply keeps_modify. auto.
Qed.
Lemma frame_resume t prev next ver : keeps J (resume_with_next_consensus t prev next ver).
Proof.
  unfold resume_with_next_consensus. apply keeps_bind; [by intros s|intros _].
  apply keeps_bind; [apply frame_set_ctx|intros _]. apply keeps_bind; [apply keeps_modify; auto|intros _].
  apply keeps_bind; [apply frame_check|intros _]. apply J_check_commits; auto.
Qed.
Lemma frame_try_load h t prev next ver : keeps J (try_load_and_resume h t prev next ver).
Proof.
  unfold try_load_and_resume. apply keeps_bind; [by intros s|intros configured].
  apply keeps_bind; [by intros s|intros file]. destruct configured, file as [enc|]; try apply keeps_ret.
  apply keeps_bind; [by intros s|intros c]. apply keeps_bind.
  - apply J_attempt. unfold load. apply keeps_bind; [intros s; apply J_ask|intros b].
    case_match; [apply keeps_fail | apply keeps_lift].
  - intros [c'|e]; [|apply keeps_ret]. case_match; [apply keeps_ret|].
    apply keeps_bind; [apply frame_set_ctx|intros _]. apply keeps_bind; [apply frame_resume | intros _; apply keeps_ret].
Qed.

Lemma handle_frame i : keeps J (handle i).
Proof.
  destruct i as [vs idx r t|r|p|h x|t|hs|l rej t]; cbn [handle].
  - unfold restart. apply keeps_bind; [apply keeps_modify; auto|intros _].
    apply keeps_bind; [apply frame_configure|intros _].
    apply keeps_bind; [apply J_attempt, frame_try_load|intros [[]|e]]; [apply keeps_ret | apply frame_start..].
  - apply keeps_bind; [apply frame_configure | intros _; apply frame_start].
  - apply L_process_message; auto using frame_check.
  - unfold feed_transaction. apply keeps_bind; [by intros s|intros c]. apply keeps_bind.
    + destruct x; [|apply keeps_ret]. case_match; [apply frame_set_ctx | apply keeps_ret].
    + intros _. apply L_on_transaction; auto using frame_check.
  - apply K_on_timer_tick; auto.
  - apply L_on_transactions_received; auto using frame_check.
  - unfold proposal_transactions.
    apply keeps_bind; [apply keeps_for_each; intros; apply frame_set_ctx | intros _]. apply keeps_bind.
    + apply J_attempt, L_on_transactions_received; auto using frame_check.
    + intros _. destruct rej; [apply J_request_change_view; auto | apply keeps_ret].
Qed.

(** A property the primitive steps keep holds all along a run. *)
Lemma exec_frame inputs s : J s → J (exec inputs s).
Proof.
  revert s. induction inputs as [|i rest IH]; intros s HJ; [done|]. by apply IH, handle_frame.
Qed.
End frame.

(** The environment and the configuration never change. *)
Lemma handle_environment i s :
  world (handle i s).1 = world s ∧ state_path (handle i s).1 = state_path s.
Proof.
  apply (handle_frame (λ s', world s' = world s ∧ state_path s' = state_path s)); try done.
  - intros d. by apply keeps_sign.
  - intros d sig j. by apply keeps_verify.
Qed.
Lemma handle_durable i s : durable (handle i s).1 → durable s.
Proof.
  destruct (handle_environment i s) as [Ew Ep].
  intros [Hp Hf Hc He]. split; rewrite <- ?Ep, <- ?Ew; done.
Qed.

(** ** The invariant along a run *)

Section invariant.
Context (me : ECPoint) (committee : N → list ValidatorInfo).
#[local] Abbreviation Inv := (Inv me committee []).
#[local] Abbreviation RoundInv := (RoundInv me committee []).
#[local] Abbreviation TraceInv := (TraceInv me committee).

(** *** Rounds *)

Definition configured_context (r : Round) c : ConsensusContext :=
  set_max_block_policy (rd_max_block_size r) (rd_max_block_system_fee r)
    (c <| validators := rd_validators r |> <| my_index := rd_me r |> <| expected_block_time := rd_block_time r |>).
Definition started_context (r : Round) c : ConsensusContext :=
  reset_for_new_block (rd_index r) (rd_timestamp r) c <| prev_hash := rd_prev_hash r |>
    <| previous_block_timestamp := rd_prev_timestamp r |> <| next_consensus := rd_next_consensus r |>
    <| version := BLOCK_VERSION |>.

Lemma configure_round_run r s :
  configure_round r s = (s <| context := configured_context r (context s) |>, Ok tt).
Proof.
  unfold configure_round, update_validators, set_expected_block_time_ms. rewrite !bind_set_ctx. cbv beta.
  rewrite !context_with, !with_context_twice. reflexivity.
Qed.
Lemma start_round_run r s :
  my_index (context s) ≠ None →
  start_round r s = (s <| context := started_context r (context s) |> <| running := true |>, Ok tt).
Proof.
  intros [idx Hidx]%not_eq_None_Some. unfold start_round, start_with_block_context, svc_my_index, mbind, M_bind.
  rewrite Hidx. reflexivity.
Qed.

(** A round of a height that was not signed forgets the proposal and the commits. *)
Lemma Inv_start_round r s :
  TraceInv (rd_index r) (network s) (trace s) → ours me committee r →
  validators (context s) = rd_validators r → my_index (context s) = rd_me r →
  rd_index r ∉ signed_heights (trace s) → Inv (start_round r s).1.
Proof.
  intros HT (H32 & Hvs & Hme) Ev Em Hno. destruct (rd_me r) as [idx|] eqn:Er; [|done].
  rewrite start_round_run by (by rewrite Em). split; [|done]. split; cbn; try done.
  - destruct (rd_validators r !! N.to_nat idx) as [v|] eqn:Evi; [|done]. cbn in Hme.
    exists idx, v. rewrite Ev, Em. simplify_eq. auto.
  - by rewrite Ev.
  - intros v pre Hin. destruct Hno. apply elem_of_signed_heights. eauto.
Qed.
Lemma TraceInv_top top top' net tr : top ≤ top' → TraceInv top net tr → TraceInv top' net tr.
Proof. intros Ht [Ip]. split; try done. intros h Hh. specialize (Ip h Hh). lia. Qed.
Lemma TraceInv_above top net tr h : TraceInv top net tr → top < h → h ∉ signed_heights tr.
Proof. intros [Ip] Hlt Hin. specialize (Ip h Hin). lia. Qed.

Lemma Inv_new_round r s :
  TraceInv (block_index (context s)) (network s) (trace s) → admissible me committee (Imported r) s →
  Inv (new_round r s).1.
Proof.
  intros HT [Hlt Ho]. unfold new_round, mbind, M_bind. rewrite configure_round_run.
  apply Inv_start_round; [|done|done|done|].
  - eapply TraceInv_top; [|exact HT]. lia.
  - by eapply TraceInv_above.
Qed.

(** *** Restarts *)

(** The context a resumed round goes on with. *)
Definition resumed_context (r : Round) (t : N) (st : PersistedConsensusState) c : ConsensusContext :=
  set_role (restored st (validators c) (my_index c) <| expected_block_time := expected_block_time c |>
    <| prev_hash := rd_prev_hash r |> <| next_consensus := rd_next_consensus r |> <| version := BLOCK_VERSION |>
    <| view_start_time := t |>).

Lemma unsigned_header_parent v p root time nc h i x v' p' root' time' nc' h' i' x' :
  unsigned_header v p root time nc h i x = unsigned_header v' p' root' time' nc' h' i' x' →
  UInt256.to_array p = UInt256.to_array p' ∧ UInt160.to_array x = UInt160.to_array x'.
Proof.
  unfold unsigned_header. intros E.
  apply app_inj_1 in E as [_ E]; [|by rewrite !length_to_le_bytes].
  apply app_inj_1 in E as [E1 E]; [|by rewrite !UInt256Facts.length_to_array]. split; [done|].
  do 5 (apply app_inj_1 in E as [_ E]; [|by rewrite ?UInt256Facts.length_to_array, ?length_to_le_bytes]).
  done.
Qed.

(** A validator with our key is us. *)
Lemma same_seat (vs : list ValidatorInfo) i j v :
  NoDup (v_public_key <$> vs) → vs !! N.to_nat i = Some v → v_public_key v = me →
  v_public_key <$> vs !! N.to_nat j = Some me → i = j.
Proof.
  intros Hnd Hi <- Hj. apply (inj N.to_nat). eapply (NoDup_lookup _ _ _ _ Hnd).
  - rewrite list_lookup_fmap, Hi. done.
  - by rewrite list_lookup_fmap.
Qed.

Section resume.
Context (r : Round) (t : N) (c0 c : ConsensusContext) (net : N) (tr : list Action).
Hypothesis Hours : ours me committee r.
Hypothesis Hkeys : NoDup (v_public_key <$> committee (rd_index r)).
Hypothesis Hround : RoundInv c0 net tr.
Hypothesis Hindex : block_index c0 = rd_index r.
Hypothesis Hvalidators : validators c = rd_validators r.
Hypothesis Hme : my_index c = rd_me r.
Hypothesis Hsigned : SignedBlock (block_index c0) (view_number c0) (proposal_header c0) ∈ tr.
Hypothesis Hparent : ∀ v pre, SignedBlock (rd_index r) v pre ∈ tr → extends r pre.
#[local] Abbreviation c1 := (resumed_context r t (persisted c0) c).

Lemma resumed_validators : validators c = validators c0.
Proof.
  destruct Hours as (_ & Hv & _). by rewrite Hvalidators, Hv, (inv_committee _ _ _ _ _ _ Hround), Hindex.
Qed.
Lemma resumed_me : my_index c = my_index c0.
Proof.
  destruct (inv_me _ _ _ _ _ _ Hround) as (i & v & Hi & Hv & Hk). rewrite Hme, Hi.
  destruct Hours as (_ & Hvs & Ho). destruct (rd_me r) as [j|]; [|done]. f_equal. symmetry.
  rewrite (inv_committee _ _ _ _ _ _ Hround), Hindex in Hv. rewrite Hvs in Ho. by eapply same_seat.
Qed.
Lemma resumed_header : proposal_header c1 = proposal_header c0.
Proof.
  rewrite Hindex in Hsigned. destruct (Hparent _ _ Hsigned) as (root & time & nc & primary & E).
  unfold proposal_header in E. apply unsigned_header_parent in E as [E1 E2].
  unfold proposal_header. replace (primary_index c1) with (primary_index c0).
  - rewrite (inv_version _ _ _ _ _ _ Hround). unfold unsigned_header. by rewrite E1, E2.
  - unfold primary_index, validator_count. cbn. by rewrite resumed_validators.
Qed.
Lemma RoundInv_resumed : RoundInv c1 net tr.
Proof.
  pose proof resumed_validators as Ev. pose proof resumed_me as Em. pose proof resumed_header as Eh.
  destruct Hround as [Im Ic Ih Iv If Ir Iw Is Io].
  split; rewrite ?Eh; cbn; rewrite ?Ev, ?Em; done.
Qed.
Lemma resumed_committed :
  own_commit c1 = true ∧ is_Some (proposed_block_hash c1).
Proof.
  destruct (inv_once _ _ _ _ _ _ Hround _ _ Hsigned) as (i & Hi & Hc & _ & _ & Hr). split.
  - unfold own_commit. cbn. rewrite resumed_me, Hi. by apply bool_decide_eq_true_2.
  - apply (inv_request _ _ _ _ _ _ Hround). by apply Hr.
Qed.
End resume.

Lemma len_collected c :
  len (collect_commit_signatures c) = N.of_nat (size (filter (λ e, in_current_view c e.1 = true) (commits c))).
Proof.
  unfold len, collect_commit_signatures. rewrite iter_perm, map_filter_alt, map_size_list_to_map; [done|].
  eapply sublist_NoDup; [apply (NoDup_fst_map_to_list (commits c)) | apply fmap_sublist, sublist_filter].
Qed.
(** With enough commits and room in the channel, the block is announced. *)
Lemma check_commits_ok s : (∀ t, w_channel (world s) t = true) → (check_commits s).2 = Ok tt.
Proof.
  intros Hc. unfold check_commits, send_event, ask, lift, ctx, set_ctx, log, modify, mbind, M_bind.
  cbn -[prepare_block_data]. destruct (has_enough_commits (context s)) eqn:He; [|done].
  cbn [negb]. do 2 (case_match; [done|]). cbn -[prepare_block_data].
  assert (∃ bd, prepare_block_data (context s <| state := Committed |>) = Ok bd) as [bd Hbd].
  { unfold prepare_block_data. rewrite len_sort_by_index, len_collected.
    unfold has_enough_commits in He. apply N.leb_le, N.ltb_ge in He. cbn.
    change (m (context s <| state := Committed |>)) with (m (context s)).
    change (in_current_view (context s <| state := Committed |>)) with (in_current_view (context s)).
    rewrite He. by eexists. }
  rewrite Hbd. cbn. by rewrite Hc.
Qed.

Lemma try_load_fresh h t prev next s :
  durable s → (∀ file st, disk s = Some file → bincode_deserialize file = Some st → ps_block st ≠ h) →
  ∃ s', try_load_and_resume h t prev next BLOCK_VERSION s = (s', Ok false) ∧ ∃ n, s' = s <| tick := n |>.
Proof.
  intros [Hp Hf _ _] Hd. unfold try_load_and_resume, load, attempt, gets, ctx, ask, lift, mbind, M_bind. cbn.
  rewrite Hp. destruct (disk s) as [file|] eqn:Ed; [|exists s; split; [done|]; exists (tick s); by destruct s].
  rewrite Hf. cbn. unfold from_bytes. destruct (bincode_deserialize file) as [st|] eqn:Es; cbn.
  - destruct (N.eqb_spec (ps_block st) h) as [E|_]; [by destruct (Hd file st)|].
    eexists. split; [done|]. by exists (N.succ (tick s)).
  - eexists. split; [done|]. by exists (N.succ (tick s)).
Qed.
Lemma try_load_found r t file st s :
  durable s → disk s = Some file → bincode_deserialize file = Some st → ps_block st = rd_index r →
  my_index (context s) ≠ None →
  try_load_and_resume (rd_index r) t (rd_prev_hash r) (rd_next_consensus r) BLOCK_VERSION s =
  (_ ← check_prepare_responses; _ ← check_commits; mret true : St bool)
    (s <| tick ::= N.succ |> <| context := resumed_context r t st (context s) |> <| running := true |>).
Proof.
  intros [Hp Hf _ _] Hd Hs Hb [idx Hidx]%not_eq_None_Some.
  unfold try_load_and_resume, load, attempt, gets, ctx, ask, lift, resume_with_next_consensus, svc_my_index, set_ctx,
    modify, mbind, M_bind. cbn -[check_prepare_responses check_commits].
  rewrite Hp, Hd, Hf. cbn -[check_prepare_responses check_commits]. unfold from_bytes. rewrite Hs.
  cbn -[check_prepare_responses check_commits]. rewrite Hb, N.eqb_refl. cbn -[check_prepare_responses check_commits].
  rewrite Hidx. cbn -[check_prepare_responses check_commits].
  set (s1 := s <| tick ::= N.succ |> <| context := resumed_context r t st (context s) |> <| running := true |>).
  match goal with |- context [check_prepare_responses ?a] => replace a with s1 end;
    [|unfold s1, resumed_context; by rewrite Hidx].
  destruct (check_prepare_responses s1) as [s2 [[]|e]]; [|done].
  destruct (check_commits s2) as [s3 [[]|e]]; done.
Qed.

(** What the disk of a working node holds. *)
Record Archived s : Prop := {
  archived_disk file : disk s = Some file → Saved file ∈ trace s;
  archived_signed : block_index (context s) ∈ signed_heights (trace s) →
    ∃ file st, disk s = Some file ∧ bincode_deserialize file = Some st ∧ ps_block st = block_index (context s);
}.
Lemma Logged_archived s : Logged s → Archived s.
Proof. intros [[_ _ Hd] Hs]. by split. Qed.
Lemma ours_seated r c :
  ours me committee r → validators c = rd_validators r → my_index c = rd_me r → seated c.
Proof.
  intros (_ & _ & Ho) Ev Em. destruct (rd_me r) as [idx|]; [|done]. exists idx. split; [done|].
  destruct (rd_validators r !! N.to_nat idx) as [v|] eqn:E; [|done]. apply lookup_lt_Some in E.
  unfold validator_count, len. rewrite Ev. lia.
Qed.
Lemma check_own s : own_commit (context s) = true → check_prepare_responses s = (s, Ok tt).
Proof.
  intros Ho. unfold check_prepare_responses, ctx, mbind, M_bind. cbn. do 4 (case_match; [done|]). by rewrite Ho.
Qed.

(** A round started at a height that was not signed. *)
Lemma start_logged r s :
  durable s → (∀ file, disk s = Some file → Saved file ∈ trace s) → ours me committee r →
  validators (context s) = rd_validators r → my_index (context s) = rd_me r → rd_index r ∉ signed_heights (trace s) → Logged (start_round r s).1.
Proof.
  intros [? ? ? ?] Hd Ho Ev Em Hno. rewrite start_round_run.
  - split; [split|]; [by split | by apply (ours_seated r) | done | done].
  - rewrite Em. destruct Ho as (_ & _ & Ho). by destruct (rd_me r).
Qed.

(** A round resumed from the log of its height. *)
Lemma resume_inv r t file st s :
  TraceInv (rd_index r) (network s) (trace s) → (∀ file, disk s = Some file → Saved file ∈ trace s) → durable s →
  ours me committee r → NoDup (v_public_key <$> committee (rd_index r)) →
  (∀ v pre, SignedBlock (rd_index r) v pre ∈ trace s → extends r pre) →
  validators (context s) = rd_validators r → my_index (context s) = rd_me r →
  disk s = Some file → bincode_deserialize file = Some st → ps_block st = rd_index r →
  ∃ s', try_load_and_resume (rd_index r) t (rd_prev_hash r) (rd_next_consensus r) BLOCK_VERSION s = (s', Ok true) ∧
    Inv s' ∧ Logged s'.
Proof.
  intros HT Ha Hdur Ho Hnd Hp Ev Em Hd Hst Hb.
  destruct (inv_saved _ _ _ _ _ HT file (Ha _ Hd)) as (c0 & Ec & HR & Hs).
  assert (st = persisted c0) as -> by congruence.
  rewrite (try_load_found _ _ _ _ _ Hdur Hd Hst Hb) by (rewrite Em; destruct Ho as (_ & _ & Ho); by destruct (rd_me r)).
  set (s1 := _ <| running := true |>).
  destruct (resumed_committed r t c0 (context s) (network s) (trace s) Ho Hnd HR Hb Em Hs) as [Hown Hhash].
  assert (Proposed me committee s1) as HP1.
  { split; [|exact Hhash]. split; [by apply RoundInv_resumed|].
    assert (block_index (context s1) = rd_index r) as -> by exact Hb. exact HT. }
  assert (Logged s1) as HL1.
  { destruct Hdur as [? ? ? ?]. split; [split; [by split | by apply (ours_seated r) | apply Ha]|].
    intros _. by exists file, (persisted c0). }
  unfold mbind, M_bind. rewrite (check_own s1 Hown).
  pose proof (keeps_check_commits me committee s1 HP1) as HI2. pose proof (Logged_check_commits s1 HL1) as HL2.
  pose proof (check_commits_ok s1 (durable_channel _ Hdur)) as Hok.
  destruct (check_commits s1) as [s2 r2]. cbn in Hok, HI2, HL2. subst r2. by exists s2.
Qed.

(** The log is for height [h], or there is none. *)
Lemma log_for h s :
  (∃ file st, disk s = Some file ∧ bincode_deserialize file = Some st ∧ ps_block st = h) ∨
  (∀ file st, disk s = Some file → bincode_deserialize file = Some st → ps_block st ≠ h).
Proof.
  destruct (disk s) as [file|]; [|by right]. destruct (bincode_deserialize file) as [st|] eqn:E.
  - destruct (decide (ps_block st = h)); [left; by exists file, st | right; intros ? ? [= <-]; congruence].
  - right. intros ? ? [= <-]. congruence.
Qed.

Lemma restart_run vs idx r t s :
  restart vs idx r t s =
  let s0 := s <| context := new 0 vs idx None |> <| running := false |> in
  match try_load_and_resume (rd_index r) t (rd_prev_hash r) (rd_next_consensus r) BLOCK_VERSION
          (s0 <| context := configured_context r (context s0) |>) with
  | (s', Ok true) => (s', Ok tt)
  | (s', _) => start_round r s'
  end.
Proof.
  unfold restart, mbind at 1, M_bind at 1, modify. cbv beta iota.
  unfold mbind at 1, M_bind at 1. rewrite configure_round_run. cbv iota zeta.
  unfold mbind, M_bind, attempt. by destruct (try_load_and_resume _ _ _ _ _ _) as [s' [[]|e]].
Qed.

Lemma restart_inv vs idx r t s :
  TraceInv (block_index (context s)) (network s) (trace s) → Archived s →
  admissible me committee (Restarted vs idx r t) s → Inv (restart vs idx r t s).1 ∧ Logged (restart vs idx r t s).1.
Proof.
  intros HT [Ha Hs] (Hdur & Hle & Ho & Hnd & Hp). rewrite restart_run. cbv zeta.
  set (s0 := _ <| context := configured_context r _ |>).
  assert (durable s0) as Hdur0 by (by destruct Hdur).
  assert (TraceInv (rd_index r) (network s0) (trace s0)) as HT0 by (by eapply TraceInv_top).
  destruct (log_for (rd_index r) s) as [(file & st & Hd & Hst & Hb)|Hno].
  - destruct (resume_inv r t file st s0) as (s' & -> & HI & HL); done.
  - destruct (try_load_fresh (rd_index r) t (rd_prev_hash r) (rd_next_consensus r) s0) as (s' & -> & n & ->); [done|done|].
    assert (rd_index r ∉ signed_heights (trace s)) as Hn.
    { intros Hin. pose proof (inv_past _ _ _ _ _ HT _ Hin). assert (block_index (context s) = rd_index r) as E by lia.
      rewrite E in Hs. destruct (Hs Hin) as (file & st & ? & ? & ?). by destruct (Hno file st). }
    split; [by apply Inv_start_round | apply start_logged; [by destruct Hdur0 | done..]].
Qed.

(** *** All inputs *)

Lemma is_primary_core c c' : same_core c c' → is_primary c' = is_primary c.
Proof. intros Hc. unfold is_primary. by rewrite (core_me _ _ Hc), (primary_index_core _ _ Hc). Qed.
Lemma commit_sent_core c c' : same_core c c' → commit_sent c' = commit_sent c.
Proof.
  intros Hc. unfold commit_sent.
  by rewrite (core_me _ _ Hc), (core_commits _ _ Hc), (core_views _ _ Hc), (core_view _ _ Hc).
Qed.

Lemma keeps_proposal_transactions available rejection t :
  triple (λ s, Inv s ∧ (is_primary (context s) = true → commit_sent (context s) = false))
    (proposal_transactions available rejection t) (λ _, Inv).
Proof.
  unfold proposal_transactions. apply triple_quiet; [quiet_auto | | by intros e s [] |].
  { intros s s' HQ [HI Hp]. split; [by eapply Inv_quiet|].
    rewrite (is_primary_core _ _ (quiet_core _ _ HQ)), (commit_sent_core _ _ (quiet_core _ _ HQ)). done. }
  intros _. apply (triple_seq _ Inv).
  - intros s Hs. pose proof (keeps_on_transactions_received me committee (fst <$> available) s Hs) as HI.
    unfold attempt. by destruct (on_transactions_received _ s).
  - intros _. destruct rejection; [apply keeps_request_change_view | apply keeps_ret].
  - done.
Qed.

Definition Full s : Prop := Inv s ∧ (durable s → Logged s).

Lemma handle_inv i s : Inv s → admissible me committee i s → (∀ vs idx r t, i ≠ Restarted vs idx r t) → Inv (handle i s).1.
Proof.
  intros HI Ha Hi. destruct i; cbn [handle].
  - by destruct (Hi vs idx r t).
  - apply Inv_new_round; [apply HI | done].
  - by apply keeps_process_message.
  - revert s HI Ha. unfold feed_transaction. intros s HI _.
    apply (keeps_quiet_step me committee []); [quiet_auto | | done]. intros c.
    apply (keeps_quiet_step me committee []); [quiet_auto|]. intros _. apply keeps_on_transaction.
  - by apply keeps_on_timer_tick.
  - by apply keeps_on_transactions_received.
  - by apply keeps_proposal_transactions.
Qed.

(** Within a round, the log is kept. *)
Lemma handle_logged i s :
  Logged s → admissible me committee i s → match i with Restarted _ _ _ _ | Imported _ => False | _ => True end →
  Logged (handle i s).1.
Proof.
  intros HL Ha Hi. destruct i; cbn [handle]; try done.
  - by apply Logged_process_message.
  - revert s HL Ha. change (∀ s, Logged s → True → Logged (feed_transaction h metrics s).1). intros s HL _.
    revert s HL. change (keeps Logged (feed_transaction h metrics)). unfold feed_transaction.
    apply keeps_bind; [by intros s|intros c]. apply keeps_bind; [|intros _; apply Logged_on_transaction].
    destruct metrics; [|apply keeps_ret]. case_match; [|apply keeps_ret].
    apply Logged_set_ctx. intros c'. apply round_metrics.
  - by apply Logged_on_timer_tick.
  - by apply Logged_on_transactions_received.
  - revert s HL Ha. unfold proposal_transactions. intros s HL _. revert s HL.
    apply keeps_bind; [apply keeps_for_each; intros; apply Logged_set_ctx; intros; apply round_metrics | intros _].
    apply keeps_bind; [apply keeps_attempt, Logged_on_transactions_received | intros _].
    destruct rejection; [apply Logged_request_change_view | apply keeps_ret].
Qed.

Lemma new_round_full r s :
  TraceInv (block_index (context s)) (network s) (trace s) → (durable s → Archived s) →
  admissible me committee (Imported r) s → Full (new_round r s).1.
Proof.
  intros HT Ha Hadm. split; [by apply Inv_new_round|].
  unfold new_round, mbind, M_bind. rewrite configure_round_run. destruct Hadm as [Hlt Ho].
  intros Hd'. assert (durable s) as Hd by (by apply (handle_durable (Imported r)); cbn [handle];
    unfold new_round, mbind, M_bind; rewrite configure_round_run).
  destruct (Ha Hd) as [Hdisk _]. apply start_logged; [by destruct Hd | done | done | done | done |].
  by eapply TraceInv_above.
Qed.

Lemma handle_full i s : Full s → admissible me committee i s → Full (handle i s).1.
Proof.
  intros [HI HL] Ha. destruct i eqn:Ei;
    [ cbn [handle]; destruct (restart_inv vs idx r t s) as [HI' HL']; [apply HI | apply Logged_archived, HL, Ha | done |]; by split
    | cbn [handle]; apply new_round_full; [apply HI | intros Hd; by apply Logged_archived, HL | done]
    | rewrite <- Ei in *; split; [apply handle_inv; [done|done|by subst i]|];
      intros Hd; apply handle_logged; [by apply HL, (handle_durable i) | done | by subst i].. ].
Qed.

Lemma exec_full inputs s : Full s → admissible_all me committee inputs s → Full (exec inputs s).
Proof.
  revert s. induction inputs as [|i rest IH]; intros s HI; [done|]. intros [Ha Hr].
  apply IH; [by apply handle_full | done].
Qed.

Lemma TraceInv_nil top net : TraceInv top net [].
Proof. split; cbn; [| apply NoDup_nil_2 |..]; intros *; by intros ?%elem_of_nil. Qed.

Lemma disciplined_inv inputs s : disciplined me committee inputs s → Inv (exec inputs s).
Proof.
  intros ([Hf Hd] & Ha & Hi).
  assert (TraceInv (block_index (context s)) (network s) (trace s)) as HT by (rewrite Hf; apply TraceInv_nil).
  assert (Archived s) as HA.
  { split; [by rewrite Hd|]. rewrite Hf. cbn. by intros ?%elem_of_nil. }
  destruct inputs as [|i rest]; [done|]. destruct Ha as [Ha Hr]. cbn [exec]. apply exec_full; [|done].
  destruct i; try done; cbn [handle].
  - destruct (restart_inv vs idx r t s HT HA Ha) as [HI HL]. by split.
  - by apply new_round_full.
Qed.
End invariant.
End run.
