(* ===== verification/DbftInput.v ===== *)
(** * What an input can do to a dBFT node

    Messages that are not authentic change nothing, messages that were processed
    are not processed again, and no input takes a node back to an earlier view. *)
From S2P Require Import Prelude Primitives Order Hashing Io EcPoint MerkleTree OpCode Instruction.
From S2P Require Import ScriptBuilder RecordUpdate DbftMessages DbftContext DbftService Hoare DbftQuiet DbftInv.
From S2P Require Import DbftSteps DbftFrame DbftLog DbftRun.
#[local] Open Scope N_scope.
#[local] Open Scope update_scope.

Section input.
Context {crypto : Crypto} {ripemd : Ripemd} {curves : Curves} {order : HashOrder} {mcache : MessageCache} {bincode : Bincode}.
Implicit Types (s : Service) (c : ConsensusContext) (p : ConsensusPayload).

(** ** Forged messages *)

(** The witness is not a signature of the payload by the validator it names. *)
Definition forged p s : Prop :=
  ∀ v hash, validators (context s) !! N.to_nat (cp_validator_index p) = Some v →
    dbft_payload_hash (context s) p = Ok hash →
    len (cp_witness p) = 64 → secp256r1_verify (sign_data (network s) hash) (cp_witness p) (Point.encoded (v_public_key v)) = false.

(** What the service answers to a forged message. *)
Definition verdict p s : CResult unit :=
  let c := context s in
  if negb (running s) then Ok tt
  else match dbft_payload_hash c p with
       | Err e => Err e
       | Ok hash =>
           if has_seen_message hash c then Ok tt
           else match cp_block_index p ?= block_index c with
                | Gt => Ok tt
                | Lt => Err (WrongBlock (block_index c) (cp_block_index p))
                | Eq => Err SignatureVerificationFailed
                end
       end.

Lemma verify_forged hash p s :
  dbft_payload_hash (context s) p = Ok hash → forged p s →
  verify_signature (sign_data (network s) hash) (cp_witness p) (cp_validator_index p) s = (s, Ok false).
Proof.
  intros Hh Hf. unfold verify_signature, ctx, mbind, M_bind. cbn.
  destruct (validators (context s) !! N.to_nat (cp_validator_index p)) as [v|] eqn:Ev; [|done].
  destruct (N.eqb_spec (len (cp_witness p)) 64) as [E|]; cbn [negb]; [|done]. by rewrite (Hf v hash Ev Hh E).
Qed.

(** (C15) A message whose witness is not its validator's signature has no effect:
    the service is left exactly as it was, whatever the message says, and the answer
    is an error unless the service is stopped, has processed the payload before, or
    the message is for a later block. *)
Theorem forged_message_inert p s : forged p s → process_message p s = (s, verdict p s).
Proof.
  intros Hf. unfold process_message, process_new_message, verdict, gets, ctx, lift, mbind, M_bind. cbn.
  destruct (running s); cbn [negb]; [|done].
  destruct (dbft_payload_hash (context s) p) as [hash|e] eqn:Hh; cbn; [|done].
  destruct (has_seen_message hash (context s)); [done|].
  destruct (N.eqb_spec (cp_block_index p) (block_index (context s))) as [->|Hne]; cbn [negb].
  - rewrite N.compare_refl. case_match; [done|].
    by rewrite (verify_forged hash p s Hh Hf).
  - destruct (N.ltb_spec (block_index (context s)) (cp_block_index p)) as [Hlt|Hge].
    + by apply N.compare_gt_iff in Hlt as ->.
    + assert (cp_block_index p < block_index (context s)) as Hlt%N.compare_lt_iff by lia. by rewrite Hlt.
Qed.

(** ** Replayed messages *)

(** The hash of a payload only depends on the validators. *)
Lemma payload_hash_validators c c' p :
  validators c' = validators c → dbft_payload_hash c' p = dbft_payload_hash c p.
Proof.
  intros E. unfold dbft_payload_hash, dbft_unsigned_extensible_bytes, dbft_sender. by rewrite E.
Qed.
Lemma mark_seen c hash : has_seen_message hash (mark_message_seen hash c) = true.
Proof.
  unfold has_seen_message, mark_message_seen. destruct (cache_contains hash (seen_message_hashes c)) eqn:E; [done|].
  apply cache_put_in.
Qed.

(** ** Steps within a round *)

(** A property of the height, the view, the validators and our index. *)
Section round.
Context (P : ConsensusContext → Prop).
Hypothesis P_round : ∀ c c', same_round c c' → P c → P c'.
Hypothesis P_view : ∀ c v t, view_number c < v → P c → P (reset_for_new_view v t c).
#[local] Abbreviation J := (λ s, P (context s)).

Lemma round_ctx s c : same_round (context s) c → J s → J (s <| context := c |>).
Proof. exact (P_round (context s) c). Qed.
Lemma round_view' s v t : view_number (context s) < v → J s → J (s <| context := reset_for_new_view v t (context s) |>).
Proof. exact (P_view (context s) v t). Qed.
Lemma round_sign d : keeps J (sign d).
Proof. by apply keeps_sign. Qed.
Lemma round_verify d sig i : keeps J (verify_signature d sig i).
Proof. by apply keeps_verify. Qed.
#[local] Hint Resolve round_ctx round_view' round_sign round_verify : core.

Lemma round_block h v pre : keeps J (log (SignedBlock h v pre)).
Proof. by intros s. Qed.
#[local] Hint Resolve round_block : core.
Lemma round_check : keeps J check_prepare_responses.
Proof. apply J_check_prepare_responses; auto; by intros. Qed.
#[local] Hint Resolve round_check : core.
Lemma round_dispatch p : keeps J (dispatch p).
Proof.
  unfold dispatch. case_match.
  - apply J_on_change_view; auto; by intros.
  - apply K_on_prepare_request; auto; [by intros..|]. apply L_send_prepare_response; auto; by intros.
  - apply L_on_prepare_response; auto; by intros.
  - apply J_on_commit; auto; by intros.
  - apply K_on_recovery_request; auto; by intros.
  - apply K_on_recovery_message; auto; [by intros..| |].
    + apply L_send_prepare_response; auto; by intros.
    + intros q. apply L_on_prepare_response; auto; by intros.
Qed.
Lemma round_set_ctx g : (∀ c, same_round c (g c)) → keeps J (set_ctx g).
Proof. intros Hg s HJ. by eapply round_ctx. Qed.
Lemma round_handle i : match i with Imported _ | Restarted _ _ _ _ => False | _ => True end → keeps J (handle i).
Proof.
  intros Hi. assert (∀ hs, keeps J (on_transactions_received hs)) as Ht
    by (intros hs; apply L_on_transactions_received; auto; by intros).
  destruct i as [| |p|h x|t|hs|l rej t]; try done; cbn [handle].
  - apply L_process_message; auto; by intros.
  - unfold feed_transaction. apply keeps_bind; [by intros s|intros c]. apply keeps_bind.
    + destruct x; [|apply keeps_ret]. case_match; [apply round_set_ctx, round_metrics | apply keeps_ret].
    + intros _. apply L_on_transaction; auto; by intros.
  - apply K_on_timer_tick; auto; by intros.
  - apply Ht.
  - unfold proposal_transactions.
    apply keeps_bind; [apply keeps_for_each; intros; apply round_set_ctx; intros; apply round_metrics | intros _].
    apply keeps_bind; [apply keeps_attempt, Ht | intros _].
    destruct rej; [apply J_request_change_view; auto; by intros | apply keeps_ret].
Qed.
End round.

(** (C16) A message is processed at most once: after a message for the current view
    was accepted, receiving it again changes nothing at all, whatever handler it
    went through and whatever that did, up to committing the block. *)
Theorem replayed_message_inert p s s' :
  process_message p s = (s', Ok tt) → wrong_view p (context s) = false → process_message p s' = (s', Ok tt).
Proof.
  unfold process_message at 1, gets, ctx, lift, mbind, M_bind. cbn. intros E Hw.
  assert (process_message p s = (s', Ok tt)) as E0 by exact E. revert E.
  destruct (running s) eqn:Hr; cbn [negb]; [|intros [= <-]; exact E0].
  destruct (dbft_payload_hash (context s) p) as [hash|e] eqn:Hh; cbn; [|done].
  destruct (has_seen_message hash (context s)) eqn:Hseen; [intros [= <-]; exact E0|].
  destruct (cp_block_index p =? block_index (context s)); cbn [negb].
  2: { case_match; [intros [= <-]; exact E0 | done]. }
  clear E0. unfold process_new_message, gets, ctx, set_ctx, modify, mbind, M_bind. cbn. case_match; [done|].
  pose proof (verify_signature_run (sign_data (network s) hash) (cp_witness p) (cp_validator_index p) s) as Hv.
  destruct (verify_signature _ _ _ s) as [s1 r1]. destruct Hv as (_ & Hc & b & -> & _). destruct b; cbn [negb]; [|done].
  set (s2 := s1 <| context ::= _ |>).
  assert (wrong_view p (update_last_seen_message (cp_validator_index p) (cp_block_index p) (context s1)) = false) as ->
    by (rewrite Hc; exact Hw).
  assert (validators (context s2) = validators (context s)) as H2 by (cbn; by rewrite Hc).
  pose proof (round_dispatch (λ c, validators c = validators (context s)) ltac:(by intros ? ? [_ _ -> _])
                ltac:(done) p s2 H2) as H3. destruct (dispatch p s2) as [s3 [[]|e]]; [|done].
  cbn in H3. intros [= <-]. unfold process_message, gets, ctx, lift, mbind, M_bind. cbn.
  destruct (negb (running s3)); [done|].
  rewrite (payload_hash_validators (context s)), Hh; [cbn; by rewrite mark_seen|].
  cbn. unfold mark_message_seen. by case_match.
Qed.

(** ** Views *)

(** (C17) Outside the start of a round, no input takes a node back: it stays at its
    height, and its view never decreases, whatever messages, transactions and
    timeouts it is fed. *)
Theorem view_never_goes_back i s :
  match i with Imported _ | Restarted _ _ _ _ => False | _ => True end →
  block_index (context (handle i s).1) = block_index (context s) ∧
  view_number (context s) ≤ view_number (context (handle i s).1).
Proof.
  intros Hi. set (P := λ c, block_index c = block_index (context s) ∧ view_number (context s) ≤ view_number c).
  assert (∀ c c', same_round c c' → P c → P c') as P_round by (by intros c c' [E1 E2 _ _]; unfold P; rewrite E1, E2).
  assert (∀ c v t, view_number c < v → P c → P (reset_for_new_view v t c)) as P_view.
  { intros c v t Hv [? ?]. split; [done|]. cbn. lia. }
  apply (round_handle P P_round P_view i Hi s). by split.
Qed.
End input.
