(* ===== verification/DbftSafety.v ===== *)
(** * Safety of dBFT

    What a run guarantees: committed blocks carry a quorum of valid signatures
    over their hash, a node signs at most one block per height, honest nodes
    agree, views and heights only grow. *)
From S2P Require Import Prelude Primitives Order Hashing Io EcPoint MerkleTree OpCode Instruction.
From S2P Require Import ScriptBuilder RecordUpdate DbftMessages DbftContext DbftService Hoare DbftQuiet DbftInv.
From S2P Require Import Quorum DbftSteps DbftFrame DbftLog DbftRun.
#[local] Open Scope N_scope.
#[local] Open Scope update_scope.

Section safety.
Context {crypto : Crypto} {ripemd : Ripemd} {curves : Curves} {order : HashOrder} {mcache : MessageCache} {bincode : Bincode}.
Implicit Types (s : Service) (c : ConsensusContext) (tr : list Action).

(** The node's signer signs for its public key. *)
Definition key_pair (me : ECPoint) s : Prop :=
  ∀ d sig,
    if signer s then ∀ t script_hash, w_signer (world s) t d script_hash = Ok sig →
                       secp256r1_verify d sig (Point.encoded me) = true
    else secp256r1_sign d (private_key s) = Some sig → secp256r1_verify d sig (Point.encoded me) = true.

(** A 64-byte signature of [d] under [k]. *)
Definition signature_of (k : ECPoint) (d sig : bytes) : Prop :=
  secp256r1_verify d sig (Point.encoded k) = true ∧ len sig = 64.

(** The signatures of a trace verify. *)
Definition sound (me : ECPoint) tr : Prop :=
  (∀ k d sig, Verified k d sig ∈ tr → signature_of k d sig) ∧
  (∀ d sig, Signed d sig ∈ tr → signature_of me d sig).

(** What no step changes, and the soundness of the trace. *)
Definition configured (me : ECPoint) (net : N) s : Prop :=
  network s = net ∧ key_pair me s ∧ sound me (trace s).

Lemma sound_cons me a tr :
  match a with
  | Verified k d sig => signature_of k d sig
  | Signed d sig => signature_of me d sig
  | _ => True
  end → sound me tr → sound me (a :: tr).
Proof.
  intros Ha [Hv Hs]. split.
  - intros k d sig [<-|?]%elem_of_cons; [done | by eapply Hv].
  - intros d sig [<-|?]%elem_of_cons; [done | by eapply Hs].
Qed.

Lemma configured_sign me net d : keeps (configured me net) (sign d).
Proof.
  intros s (Hn & Hk & Hs). specialize (Hk d) as Hd. unfold sign. rewrite bind_gets.
  destruct (signer s) eqn:Es.
  - unfold sign_with_signer, my_script_hash, svc_my_index, ctx, ask, lift, mbind, M_bind. cbn.
    destruct (my_index (context s)) as [idx|]; cbn; [|done].
    destruct (validators (context s) !! N.to_nat idx) as [v|]; cbn; [|done].
    destruct (w_signer (world s) (tick s) d (v_script_hash v)) as [sig|e] eqn:Ew; cbn; [|done].
    destruct (N.eqb_spec (len sig) 64); cbn; [|done].
    split; [done|]. split; [done|]. apply sound_cons; [split; [by eapply Hd | done] | done].
  - unfold sign_with_key, gets, mbind, M_bind. cbn. destruct (len (private_key s) =? 32); cbn; [|done].
    destruct (secp256r1_sign d (private_key s)) as [sig|] eqn:Ek; cbn; [|done].
    split; [done|]. split; [done|]. apply sound_cons; [split; [by apply Hd|] | done].
    unfold len. by rewrite (secp256r1_sign_length _ _ _ Ek).
Qed.
Lemma configured_verify me net d sig i : keeps (configured me net) (verify_signature d sig i).
Proof.
  intros s (Hn & Hk & Hs). unfold verify_signature, ctx, mbind, M_bind. cbn.
  destruct (validators (context s) !! N.to_nat i) as [v|]; cbn; [|done].
  destruct (N.eqb_spec (len sig) 64); cbn; [|done].
  destruct (secp256r1_verify d sig (Point.encoded (v_public_key v))) eqn:Ev; cbn; [|done].
  split; [done|]. split; [done|]. by apply sound_cons.
Qed.

Lemma exec_configured me inputs s :
  fresh s → key_pair me s → configured me (network s) (exec inputs s).
Proof.
  intros [Hf _] Hk. apply exec_frame; try done.
  - intros s' file (? & ? & ?). split; [done|]. split; [done|]. by apply sound_cons.
  - intros s' a H1 H2 (? & ? & ?). split; [done|]. split; [done|]. apply sound_cons; [|done].
    destruct a; try done; [by edestruct H1 | by edestruct H2].
  - apply configured_sign.
  - apply configured_verify.
  - split; [done|]. split; [done|]. rewrite Hf. split; intros *; by intros ?%elem_of_nil.
Qed.

Lemma exec_network inputs s : network (exec inputs s) = network s.
Proof.
  apply (exec_frame (λ s', network s' = network s)); try done.
  - intros d. by apply keeps_sign.
  - intros d sig i. by apply keeps_verify.
Qed.

(** ** Committed blocks *)

(** The signatures of a certificate are the validators'. *)
Lemma certificate_signature me committee inputs s h hash bd i sig :
  disciplined me committee inputs s → key_pair me s →
  certified me committee (network (exec inputs s)) (trace (exec inputs s)) h hash bd → (i, sig) ∈ bd_signatures bd →
  ∃ v, committee h !! N.to_nat i = Some v ∧ signature_of (v_public_key v) (sign_data (network s) hash) sig.
Proof.
  intros Hd Hk Hc Hi. destruct (exec_configured me inputs s ltac:(apply Hd) Hk) as (Hn & _ & Hv & Hs).
  destruct (cert_attested _ _ _ _ _ _ _ Hc i sig Hi) as (v & Hvi & Ha). exists v. split; [done|].
  rewrite Hn in Ha. destruct Ha as [Ha|[-> Ha]]; [by apply Hv | by apply Hs].
Qed.

(** (C2) Every block a node commits in a [disciplined] run is certified, provided its
    signer signs for its key ([key_pair]): its hash is the hash of its
    header, which carries the height and the validators of that height; at least
    [M = N - (N-1)/3] distinct validators, listed in increasing order, signed
    that hash, and each signature verifies under its validator's key. A disciplined
    run is one in which rounds go up and the node is a validator of each, restarts
    load a durable recovery log, and a primary that has sent its commit is not handed
    transactions again in that view, which the code itself does not check. *)
Theorem committed_block_certified me committee inputs s h hash bd :
  disciplined me committee inputs s → key_pair me s →
  Emitted (BlockCommitted h hash bd) ∈ trace (exec inputs s) →
  bd_block_index bd = h ∧
  hash = compute_header_hash (bd_version bd) (bd_prev_hash bd)
           (compute_merkle_root (bd_transaction_hashes bd)) (bd_timestamp bd) (bd_nonce bd)
           (bd_block_index bd) (bd_primary_index bd) (bd_next_consensus bd) ∧
  bd_validator_pubkeys bd = v_public_key <$> committee h ∧
  RedeemScript.bft_threshold (len (committee h)) ≤ len (bd_signatures bd) ∧
  StronglySorted N.lt (fst <$> bd_signatures bd) ∧
  (∀ i sig, (i, sig) ∈ bd_signatures bd → ∃ key,
     bd_validator_pubkeys bd !! N.to_nat i = Some key ∧
     secp256r1_verify (sign_data (network s) hash) sig (Point.encoded key) = true).
Proof.
  intros Hd Hk Hin. pose proof (disciplined_inv _ _ _ _ Hd) as HI.
  pose proof (inv_certs _ _ _ _ _ (inv_trace _ _ _ _ HI) _ _ _ Hin) as Hc.
  pose proof Hc as [[Hh _] _ Hhash Hkeys _ [Hq1 Hq2] Hdist _].
  split; [done|]. split; [exact Hhash|]. split; [done|]. split; [by rewrite <- Hq1|]. split; [done|].
  intros i sig Hi. destruct (certificate_signature _ _ _ _ _ _ _ _ _ Hd Hk Hc Hi) as (v & Hvi & [Hs _]).
  exists (v_public_key v). by rewrite Hkeys, list_lookup_fmap, Hvi.
Qed.

(** ** One block per height *)

(** [pre] is the header of a block of height [h]. *)
Definition header_at (h : N) (pre : bytes) : Prop :=
  ∃ prev root time nc primary next, pre = unsigned_header 0 prev root time nc h primary next.

Lemma header_at_inj h h' pre : h < 2 ^ 32 → h' < 2 ^ 32 → header_at h pre → header_at h' pre → h = h'.
Proof.
  intros Hh Hh' (p1 & r1 & t1 & n1 & i1 & x1 & ->) (p2 & r2 & t2 & n2 & i2 & x2 & E).
  unfold unsigned_header in E.
  do 5 (apply app_inj_1 in E as [_ E]; [|by rewrite ?UInt256Facts.length_to_array, ?length_to_le_bytes]).
  apply app_inj_1 in E as [E _]; [|by rewrite !length_to_le_bytes].
  apply (f_equal from_le_bytes) in E. by rewrite !from_to_le_bytes_small in E.
Qed.
Lemma header_at_head h pre : header_at h pre → head pre = Some x00.
Proof. by intros (p & r & t & n & i & x & ->). Qed.

Lemma sign_data_inj net pre pre' :
  sign_data net (hash_of pre) = sign_data net (hash_of pre') → sha256 pre = sha256 pre'.
Proof.
  unfold sign_data, hash_of. intros E. apply app_inj_1 in E as [_ E]; [|done].
  by rewrite !UInt256Facts.to_array_from_array in E by apply sha256_length.
Qed.

(** A node that signed the hash of a header signed that block. *)
Lemma signed_header me committee top net tr h pre sig :
  TraceInv me committee top net tr → h < 2 ^ 32 → header_at h pre →
  Signed (sign_data net (hash_of pre)) sig ∈ tr → collision_free sha256 (pre :: preimages tr) →
  ∃ v, SignedBlock h v pre ∈ tr.
Proof.
  intros HT Hh Hpre Hin Hcf. destruct (inv_signed _ _ _ _ _ HT _ _ Hin) as (pre' & Hp & E).
  apply sign_data_inj in E. apply Hcf in E; [subst pre'|by constructor|by constructor].
  apply elem_of_preimages in Hp as [(h' & v & Hb)|Hy].
  - destruct (inv_blocks _ _ _ _ _ HT _ _ _ Hb) as [Hh' Hpre']. exists v.
    by rewrite (header_at_inj _ _ _ Hh Hh' Hpre Hpre').
  - pose proof (inv_payloads _ _ _ _ _ HT _ Hy) as E. rewrite (header_at_head _ _ Hpre) in E. done.
Qed.

Lemma signed_heights_unique tr h v v' pre pre' :
  NoDup (signed_heights tr) → SignedBlock h v pre ∈ tr → SignedBlock h v' pre' ∈ tr → pre = pre'.
Proof.
  induction tr as [|a tr IH]; [by intros _ ?%elem_of_nil|].
  intros Hnd [<-|H1]%elem_of_cons [E|H2]%elem_of_cons.
  - by simplify_eq.
  - cbn in Hnd. apply NoDup_cons in Hnd as [Hn _]. destruct Hn. apply elem_of_signed_heights. eauto.
  - subst a. cbn in Hnd. apply NoDup_cons in Hnd as [Hn _]. destruct Hn. apply elem_of_signed_heights. eauto.
  - apply IH; [|done..]. destruct a; cbn in Hnd; try done. by apply NoDup_cons in Hnd as [_ ?].
Qed.

(** (C3) In a [disciplined] run a node signs at most one block per height, in whatever
    views it goes through, across crashes and restarts from its recovery log, and
    whatever messages it receives: two headers of the same height (below [2^32]) whose
    hashes it signed are the same header, unless SHA-256 collides on what the
    node signed. The discipline is needed: rounds go up and the node is a validator of
    each; a restart finds a durable recovery log and goes on over the same parent at the
    same height or above, with distinct keys in the committee; and a primary that has
    sent its commit is not handed transactions again in that view. The code does not
    enforce the last condition, and signs twice without it. *)
Theorem signs_one_block_per_height me committee inputs s h pre pre' sig sig' :
  disciplined me committee inputs s → h < 2 ^ 32 → header_at h pre → header_at h pre' →
  Signed (sign_data (network s) (hash_of pre)) sig ∈ trace (exec inputs s) →
  Signed (sign_data (network s) (hash_of pre')) sig' ∈ trace (exec inputs s) →
  collision_free sha256 (pre :: pre' :: preimages (trace (exec inputs s))) →
  pre = pre'.
Proof.
  intros Hd Hh H1 H2 S1 S2 Hcf. destruct (disciplined_inv _ _ _ _ Hd) as [_ HT].
  rewrite exec_network in HT.
  destruct (signed_header _ _ _ _ _ _ _ _ HT Hh H1 S1) as [v Hv].
  { eapply collision_free_mono; [|exact Hcf]. intros p. rewrite !elem_of_cons. tauto. }
  destruct (signed_header _ _ _ _ _ _ _ _ HT Hh H2 S2) as [v' Hv'].
  { eapply collision_free_mono; [|exact Hcf]. intros p. rewrite !elem_of_cons. tauto. }
  eapply signed_heights_unique; [apply HT | exact Hv | exact Hv'].
Qed.

(** ** Agreement *)

(** An honest node: its key, its service and what it was fed. *)
Record Node := mkNode {
  n_key : ECPoint;
  n_start : Service;
  n_inputs : list Input;
}.
Definition final (n : Node) : Service := exec (n_inputs n) (n_start n).

(** Honest keys are not forged: what a node verified under an honest key, the
    owner of that key signed. *)
Definition unforged (honest : list Node) : Prop :=
  ∀ n n' d sig, n ∈ honest → n' ∈ honest → Verified (n_key n') d sig ∈ trace (final n) →
    ∃ sig', Signed d sig' ∈ trace (final n').

(** Everything the honest nodes hashed to sign it. *)
Definition signed_preimages (honest : list Node) : list bytes :=
  honest ≫= λ n, preimages (trace (final n)).

Section agreement.
Context (net : N) (committee : N → list ValidatorInfo) (honest : list Node).
Hypothesis honest_runs : ∀ n, n ∈ honest →
  disciplined (n_key n) committee (n_inputs n) (n_start n) ∧ network (n_start n) = net.
Hypothesis honest_keys : NoDup (n_key <$> honest).
Hypothesis honest_unforged : unforged honest.

Lemma honest_trace n : n ∈ honest → TraceInv (n_key n) committee (block_index (context (final n))) net (trace (final n)).
Proof.
  intros [Hd <-]%honest_runs. destruct (disciplined_inv _ _ _ _ Hd) as [_ HT].
  unfold final. by rewrite exec_network in HT.
Qed.

Lemma same_node n n' : n ∈ honest → n' ∈ honest → n_key n = n_key n' → n = n'.
Proof.
  intros [i Hi]%list_elem_of_lookup_1 [j Hj]%list_elem_of_lookup_1 E.
  assert (i = j) as ->; [|by simplify_eq].
  eapply NoDup_lookup; [exact honest_keys | by rewrite list_lookup_fmap, Hi | by rewrite list_lookup_fmap, Hj, E].
Qed.

(** An honest validator in a certificate signed the block. *)
Lemma certificate_signer n h hash bd i sig v :
  n ∈ honest → certified (n_key n) committee net (trace (final n)) h hash bd →
  (i, sig) ∈ bd_signatures bd → committee h !! N.to_nat i = Some v → v_public_key v ∈ n_key <$> honest →
  ∃ n' sig', n' ∈ honest ∧ n_key n' = v_public_key v ∧ Signed (sign_data net hash) sig' ∈ trace (final n').
Proof.
  intros Hn Hc Hin Hv (n' & E & Hn')%list_elem_of_fmap.
  destruct (cert_attested _ _ _ _ _ _ _ Hc i sig Hin) as (w & Hw & Ha). simplify_eq.
  destruct Ha as [Ha|[E' Ha]].
  - rewrite E in Ha. destruct (honest_unforged _ _ _ _ Hn Hn' Ha) as [sig' Hs]. by exists n', sig'.
  - by exists n, sig.
Qed.

Lemma certified_header n h hash bd :
  certified (n_key n) committee net (trace (final n)) h hash bd →
  header_at h (block_header bd) ∧ h < 2 ^ 32 ∧ hash = hash_of (block_header bd).
Proof.
  intros [[<- Hlt] Hv Hh _ _ _ _ _]. split; [|done]. unfold header_at, block_header. rewrite Hv. by repeat eexists.
Qed.

Lemma sorted_distinct (l : list N) : StronglySorted N.lt l → NoDup l.
Proof.
  induction 1 as [|x l Hl IH Hx]; constructor; [|done]. rewrite Forall_forall in Hx.
  intros Hin. specialize (Hx x Hin). lia.
Qed.

Lemma certified_indices n h hash bd :
  certified (n_key n) committee net (trace (final n)) h hash bd →
  let a := N.to_nat <$> (fst <$> bd_signatures bd) in
  NoDup a ∧ (∀ i, i ∈ a → (i < length (committee h))%nat) ∧ RedeemScript.bft_threshold (len (committee h)) ≤ len a.
Proof.
  intros [_ _ _ _ _ [Hq1 Hq2] Hd Ha] a. split_and!.
  - apply NoDup_fmap; [apply _|]. by apply sorted_distinct.
  - intros i (j & -> & Hj)%list_elem_of_fmap. apply list_elem_of_fmap in Hj as ([j' sig] & -> & Hj).
    destruct (Ha _ _ Hj) as (v & Hv & _). by eapply lookup_lt_Some.
  - unfold a, len in *. rewrite !length_fmap. lia.
Qed.

(** Two certificates of one height are for the same block. *)
Lemma certificates_agree n n' h hash hash' bd bd' :
  n ∈ honest → n' ∈ honest →
  certified (n_key n) committee net (trace (final n)) h hash bd →
  certified (n_key n') committee net (trace (final n')) h hash' bd' →
  NoDup (v_public_key <$> committee h) →
  len (filter (λ v, v_public_key v ∉ n_key <$> honest) (committee h)) ≤ (len (committee h) - 1) / 3 →
  collision_free sha256 (block_header bd :: block_header bd' :: signed_preimages honest) →
  block_header bd = block_header bd'.
Proof.
  intros Hn Hn' Hc Hc' Hnd Hf Hcf.
  destruct (certified_indices n h hash bd Hc) as (Ha & Hba & Hqa).
  destruct (certified_indices n' h hash' bd' Hc') as (Hb & Hbb & Hqb).
  destruct (quorum_intersection (λ v, v_public_key v ∉ n_key <$> honest) (committee h) _ _
              (cert_members _ _ _ _ _ _ _ Hc) (NoDup_fmap_1 _ _ Hnd) Ha Hb Hba Hbb Hqa Hqb Hf)
    as (i & v & Hia & Hib & Hv & Hk). apply dec_stable in Hk.
  apply list_elem_of_fmap in Hia as (j & -> & ([j1 sig] & -> & Hj)%list_elem_of_fmap).
  apply list_elem_of_fmap in Hib as (k & Ejk & ([k1 sig'] & -> & Hj')%list_elem_of_fmap).
  cbn in *. apply (inj N.to_nat) in Ejk as <-.
  destruct (certificate_signer _ _ _ _ _ _ _ Hn Hc Hj Hv Hk) as (w & x & Hw & Ew & Hs).
  destruct (certificate_signer _ _ _ _ _ _ _ Hn' Hc' Hj' Hv Hk) as (w' & x' & Hw' & Ew' & Hs').
  assert (w' = w) as -> by (apply same_node; congruence).
  destruct (certified_header _ _ _ _ Hc) as (Hh & H32 & ->).
  destruct (certified_header _ _ _ _ Hc') as (Hh' & _ & ->).
  assert (∀ p, p ∈ preimages (trace (final w)) → p ∈ signed_preimages honest) as Hsub.
  { intros p Hp. unfold signed_preimages. apply list_elem_of_bind. by exists w. }
  destruct (signed_header _ _ _ _ _ _ _ _ (honest_trace w Hw) H32 Hh Hs) as [y Hy].
  { eapply collision_free_mono; [|exact Hcf]. intros p. rewrite !elem_of_cons. intros [?|?]; auto. }
  destruct (signed_header _ _ _ _ _ _ _ _ (honest_trace w Hw) H32 Hh' Hs') as [y' Hy'].
  { eapply collision_free_mono; [|exact Hcf]. intros p. rewrite !elem_of_cons. intros [?|?]; auto. }
  eapply signed_heights_unique; [apply (honest_trace w Hw) | exact Hy | exact Hy'].
Qed.
End agreement.

(** (C1) Honest nodes agree: when at most [(N-1)/3] of the validators of a height
    are not honest, honest keys are not forged and SHA-256 does not collide on what
    the honest nodes signed, any two blocks committed by honest nodes at that height
    have the same header, hence the same hash, and the same transactions root,
    across views, recoveries, rounds, crashes and restarts. Honest nodes have distinct
    keys and one network number, the committee of the height has distinct keys, and the
    run of each honest node is [disciplined]: rounds go up and the node is a validator of
    each; a restart finds a durable recovery log and goes on over the same parent at the
    same height or above; and a primary that has sent its commit is not handed
    transactions again in that view, which the code does not enforce by itself. *)
Theorem dbft_agreement net committee honest n n' h hash hash' bd bd' :
  (∀ n, n ∈ honest → disciplined (n_key n) committee (n_inputs n) (n_start n) ∧ network (n_start n) = net) →
  NoDup (n_key <$> honest) → unforged honest → n ∈ honest → n' ∈ honest →
  NoDup (v_public_key <$> committee h) →
  len (filter (λ v, v_public_key v ∉ n_key <$> honest) (committee h)) ≤ (len (committee h) - 1) / 3 →
  Emitted (BlockCommitted h hash bd) ∈ trace (final n) →
  Emitted (BlockCommitted h hash' bd') ∈ trace (final n') →
  collision_free sha256 (block_header bd :: block_header bd' :: signed_preimages honest) →
  block_header bd = block_header bd' ∧ hash = hash'.
Proof.
  intros Hruns Hkeys Hunf Hn Hn' Hnd Hf He He' Hcf.
  pose proof (inv_certs _ _ _ _ _ (honest_trace _ _ _ Hruns n Hn) _ _ _ He) as Hc.
  pose proof (inv_certs _ _ _ _ _ (honest_trace _ _ _ Hruns n' Hn') _ _ _ He') as Hc'.
  assert (block_header bd = block_header bd') as E
    by exact (certificates_agree _ _ _ Hruns Hkeys Hunf n n' _ _ _ _ _ Hn Hn' Hc Hc' Hnd Hf Hcf).
  split; [done|]. destruct (certified_header _ _ _ _ _ _ Hc) as (_ & _ & ->).
  destruct (certified_header _ _ _ _ _ _ Hc') as (_ & _ & ->). by rewrite E.
Qed.
End safety.
