(* ===== verification/DbftSample.v ===== *)
(** * An executable dBFT network for the examples

    Instances of the parameters of the consensus model (iteration order, message
    cache, recovery-log encoding, environment), four validators with sample keys,
    and the run of a round in which three of them commit a block. *)
From S2P Require Import Prelude Primitives Order Hashing Io EcPoint MerkleTree.
From S2P Require Import ScriptBuilder RecordUpdate SampleKeys DbftMessages DbftContext DbftService DbftLog DbftRun.
#[local] Open Scope N_scope.
#[local] Open Scope update_scope.

#[export] Program Instance sample_order : HashOrder := {| iter _ _ _ _ m := map_to_list m |}.
Next Obligation. done. Qed.

(** A bounded list, most recent first. *)
Definition sample_put (h : UInt256.t) (c : N * list UInt256.t) : N * list UInt256.t :=
  (c.1, h :: take (N.to_nat (c.1 - 1)) (filter (λ h', h' ≠ h) c.2)).
#[export] Program Instance sample_cache : MessageCache := {|
  cache := N * list UInt256.t;
  cache_new n := (n, []);
  cache_contains h c := bool_decide (h ∈ c.2);
  cache_put := sample_put;
  cache_clear c := (c.1, []);
|}.
Next Obligation. intros n h. apply bool_decide_eq_false_2, not_elem_of_nil. Qed.
Next Obligation. intros c h. apply bool_decide_eq_false_2, not_elem_of_nil. Qed.
Next Obligation. intros c h. apply bool_decide_eq_true_2. by constructor. Qed.
Next Obligation.
  intros c h h'. rewrite !bool_decide_eq_true. cbn. intros [->|Hin]%elem_of_cons; [by left|right].
  set (l := filter _ _) in Hin. assert (h' ∈ l) as Hl.
  { rewrite <- (take_drop (N.to_nat (c.1 - 1)) l), elem_of_app. by left. }
  apply list_elem_of_filter in Hl. tauto.
Qed.

(** A list of numbers, each as its binary digits and an end mark. *)
Fixpoint positive_bytes (p : positive) (tail : bytes) : bytes :=
  match p with
  | xH => x02 :: tail
  | xO p => x00 :: positive_bytes p tail
  | xI p => x01 :: positive_bytes p tail
  end.
Definition positives_bytes (l : list positive) : bytes := foldr positive_bytes [] l.
Fixpoint bytes_positives (b : bytes) : list positive :=
  match b with
  | [] => []
  | x02 :: b => xH :: bytes_positives b
  | x :: b =>
      match bytes_positives b with
      | [] => []
      | p :: l => (if bool_decide (x = x00) then xO p else xI p) :: l
      end
  end.
Lemma bytes_positives_bytes l : bytes_positives (positives_bytes l) = l.
Proof.
  unfold positives_bytes. induction l as [|p l IH]; [done|]. cbn [foldr]. rewrite <- IH at 2.
  generalize (foldr positive_bytes [] l). intros tail. induction p as [p IHp|p IHp|]; cbn; rewrite ?IHp; done.
Qed.

#[export] Program Instance reason_countable : Countable ChangeViewReason.t :=
  inj_countable ChangeViewReason.to_byte ChangeViewReason.from_byte _.
Next Obligation. by intros []. Qed.

Definition persisted_fields (s : PersistedConsensusState) : list positive :=
  [encode (ps_block s); encode (ps_view s); encode (ps_proposed_block_hash s); encode (ps_prep_hash s);
   encode (ps_proposed_timestamp s); encode (ps_proposed_tx_hashes s); encode (ps_nonce s);
   encode (ps_prepare_request_received s); encode (ps_prepare_responses s);
   encode (ps_prepare_response_hashes s); encode (ps_commits s); encode (ps_commit_view_numbers s);
   encode (ps_change_views s); encode (ps_prepare_request_invocation s); encode (ps_change_view_invocations s);
   encode (ps_change_view_timestamps s); encode (ps_commit_invocations s)].
Definition persisted_of (l : list positive) : option PersistedConsensusState :=
  match l with
  | [a1; a2; a3; a4; a5; a6; a7; a8; a9; a10; a11; a12; a13; a14; a15; a16; a17] =>
      a1 ← decode a1; a2 ← decode a2; a3 ← decode a3; a4 ← decode a4; a5 ← decode a5; a6 ← decode a6;
      a7 ← decode a7; a8 ← decode a8; a9 ← decode a9; a10 ← decode a10; a11 ← decode a11; a12 ← decode a12;
      a13 ← decode a13; a14 ← decode a14; a15 ← decode a15; a16 ← decode a16; a17 ← decode a17;
      Some (mkPersisted a1 a2 a3 a4 a5 a6 a7 a8 a9 a10 a11 a12 a13 a14 a15 a16 a17)
  | _ => None
  end.
Lemma persisted_of_fields s : persisted_of (persisted_fields s) = Some s.
Proof. unfold persisted_of, persisted_fields. rewrite !decode_encode. by destruct s. Qed.
#[export] Program Instance sample_bincode : Bincode := {|
  bincode_serialize s := Some (positives_bytes (persisted_fields s));
  bincode_deserialize b := persisted_of (bytes_positives b);
|}.
Next Obligation.
  intros s b E. apply (inj Some) in E as <-.
  exact (eq_trans (f_equal persisted_of (bytes_positives_bytes _)) (persisted_of_fields s)).
Qed.

(** ** Four validators *)

#[local] Existing Instance checksum_crypto.
#[local] Existing Instance sample_curves.
#[local] Existing Instance sample_ripemd.

Definition sample_validators : list ValidatorInfo :=
  (λ i, mkValidator i (sample_key (i + 1)) (UInt160.mk (i + 1) 0 0)) <$> [0; 1; 2; 3].
Definition sample_committee (h : N) : list ValidatorInfo := sample_validators.

(** A clock that ticks, an accepting channel, a working disk. *)
Definition sample_world : World := {|
  w_now t := 1000000 + t; w_nonce t := 77 + t; w_signer _ _ _ := Err StateError;
  w_channel _ := true; w_file _ := true |}.
Definition sample_service (i : N) : Service :=
  new_with_signer 860833102 sample_validators (Some i) (replicate 32 (as_u8 (i + 1))) false sample_world None
    <| state_path := true |>.
Definition sample_round (i : N) : Round := {|
  rd_validators := sample_validators; rd_me := Some i; rd_block_time := 15000;
  rd_max_block_size := DEFAULT_MAX_BLOCK_SIZE; rd_max_block_system_fee := DEFAULT_MAX_BLOCK_SYSTEM_FEE;
  rd_index := 1; rd_timestamp := 1000000; rd_prev_hash := UInt256.mk 5 6 7 8; rd_prev_timestamp := 999999;
  rd_next_consensus := UInt160.mk 9 9 9 |}.

(** The payloads a node broadcast, oldest first. *)
Definition broadcasts (s : Service) : list ConsensusPayload :=
  reverse (omap (λ a, match a with Emitted (BroadcastMessage p) => Some p | _ => None end) (trace s)).
Definition inbound_from (s : Service) (k : nat) : list Input :=
  match broadcasts s !! k with Some p => [Inbound p] | None => [] end.

(** Validator 1 is the primary of height 1: it proposes an empty block, 0 and 2
    respond, all three commit; validator 2 restarts before it receives the other
    commits; validator 3 is silent. *)
Definition primary_inputs1 : list Input := [Imported (sample_round 1); PrimaryTransactions []].
Definition request : list Input := inbound_from (exec primary_inputs1 (sample_service 1)) 0.
Definition backup_inputs1 (i : N) : list Input := Imported (sample_round i) :: request.
Definition response (i : N) : list Input := inbound_from (exec (backup_inputs1 i) (sample_service i)) 0.
Definition inputs2 (i : N) : list Input :=
  if i =? 1 then primary_inputs1 ++ response 0 ++ response 2
  else backup_inputs1 i ++ response (2 - i).
Definition commit_of (i : N) : list Input := inbound_from (exec (inputs2 i) (sample_service i)) 1.
Definition all_inputs (i : N) : list Input :=
  inputs2 i ++ (if i =? 2 then [Restarted sample_validators (Some 2) (sample_round 2) 1000100] else []) ++
  concat (commit_of <$> filter (λ j, j ≠ i) [0; 1; 2]).
Definition inputs_of_0 : list Input := Eval vm_compute in all_inputs 0.
Definition inputs_of_1 : list Input := Eval vm_compute in all_inputs 1.
Definition inputs_of_2 : list Input := Eval vm_compute in all_inputs 2.
Definition sample_inputs (i : N) : list Input :=
  match i with 0 => inputs_of_0 | 1 => inputs_of_1 | _ => inputs_of_2 end.

(** The first block a node committed. *)
Definition committed_block (s : Service) : option (N * UInt256.t * BlockData) :=
  head (omap (λ a, match a with Emitted (BlockCommitted h hash bd) => Some (h, hash, bd) | _ => None end) (trace s)).
Lemma committed_block_emitted s h hash bd :
  committed_block s = Some (h, hash, bd) → Emitted (BlockCommitted h hash bd) ∈ trace s.
Proof.
  unfold committed_block. intros Hh%head_Some_elem_of. apply list_elem_of_omap in Hh as (a & Ha & E).
  destruct a as [| | | | |[]]; by simplify_eq.
Qed.

(** The discipline of a run, checked. *)
Definition oursb (me : ECPoint) (committee : N → list ValidatorInfo) (r : Round) : bool :=
  (rd_index r <? 2 ^ 32) && bool_decide (rd_validators r = committee (rd_index r)) &&
  match rd_me r with
  | Some idx => bool_decide (v_public_key <$> rd_validators r !! N.to_nat idx = Some me)
  | None => false
  end.
Definition extendsb (r : Round) (pre : bytes) : bool :=
  bool_decide (pre = unsigned_header 0 (rd_prev_hash r) (UInt256.from_array (slice pre 36 32))
    (from_le_bytes (slice pre 68 8)) (from_le_bytes (slice pre 76 8)) (rd_index r)
    (Byte.to_N (default x00 (pre !! 88%nat))) (rd_next_consensus r)).
Definition admissibleb (me : ECPoint) (committee : N → list ValidatorInfo) (i : Input) (s : Service) : bool :=
  match i with
  | Restarted _ _ r _ =>
      (block_index (context s) <=? rd_index r) && oursb me committee r &&
      bool_decide (NoDup (v_public_key <$> committee (rd_index r))) &&
      forallb (λ a, match a with
                    | SignedBlock h _ pre => negb (h =? rd_index r) || extendsb r pre
                    | _ => true end) (trace s)
  | Imported r => (block_index (context s) <? rd_index r) && oursb me committee r
  | PrimaryTransactions _ | ProposalTransactions _ _ _ =>
      negb (is_primary (context s)) || negb (commit_sent (context s))
  | _ => true
  end.
Fixpoint admissible_allb (me : ECPoint) (committee : N → list ValidatorInfo) (inputs : list Input) (s : Service) : bool :=
  match inputs with
  | [] => true
  | i :: rest => admissibleb me committee i s && admissible_allb me committee rest (handle i s).1
  end.
Lemma oursb_spec me committee r : oursb me committee r = true → ours me committee r.
Proof.
  unfold oursb. rewrite !andb_true_iff, N.ltb_lt, bool_decide_eq_true. intros [[H1 H2] H3].
  split; [done|]. split; [done|]. case_match; [by apply bool_decide_eq_true in H3 | done].
Qed.
Lemma admissibleb_spec me committee i s :
  durable s → admissibleb me committee i s = true → admissible me committee i s.
Proof.
  intros Hd. destruct i; cbn; try done.
  - rewrite !andb_true_iff, N.leb_le, bool_decide_eq_true. intros [[[H1 H2] H3] H4].
    split; [done|]. split; [done|]. split; [by apply oursb_spec|]. split; [done|].
    intros v pre Hin. rewrite forallb_forall in H4. specialize (H4 _ (proj1 (list_elem_of_In _ _) Hin)).
    cbn beta iota in H4. rewrite N.eqb_refl in H4. apply bool_decide_eq_true in H4. rewrite H4. by repeat eexists.
  - rewrite !andb_true_iff, N.ltb_lt. intros [H1 H2]. split; [done | by apply oursb_spec].
  - by destruct (is_primary _), (commit_sent _).
  - by destruct (is_primary _), (commit_sent _).
Qed.
Lemma durable_handle i s : durable s → durable (handle i s).1.
Proof.
  intros [Hp Hf Hc He].
  assert (world (handle i s).1 = world s ∧ state_path (handle i s).1 = state_path s) as [Ew Ep]
    by apply handle_environment.
  split; rewrite ?Ew, ?Ep; done.
Qed.
Lemma admissible_allb_spec me committee inputs s :
  durable s → admissible_allb me committee inputs s = true → admissible_all me committee inputs s.
Proof.
  revert s. induction inputs as [|i rest IH]; intros s Hd; [done|]. cbn [admissible_allb admissible_all].
  rewrite andb_true_iff. intros [Hi Hr].
  split; [by apply admissibleb_spec | apply IH; [by apply durable_handle | done]].
Qed.
Lemma sample_durable i : durable (sample_service i).
Proof. split; [done | done | done |]. intros st. by eexists. Qed.
