(* ===== verification/DbftWitness.v ===== *)
(** * The dBFT theorems on the sample network *)
From S2P Require Import Prelude Primitives Order Hashing Io EcPoint MerkleTree ScriptBuilder SampleKeys.
From S2P Require Import RecordUpdate DbftMessages DbftContext DbftService DbftQuiet DbftInv DbftLog DbftRun DbftInput DbftSafety DbftSample.
#[local] Open Scope N_scope.
#[local] Open Scope update_scope.

#[local] Existing Instance checksum_crypto.
#[local] Existing Instance sample_curves.
#[local] Existing Instance sample_ripemd.

Lemma sample_disciplined i :
  i = 0 ∨ i = 1 ∨ i = 2 →
  disciplined (sample_key (i + 1)) sample_committee (sample_inputs i) (sample_service i).
Proof.
  intros Hi. split; [done|]. destruct Hi as [->|[->| ->]];
    (split; [apply admissible_allb_spec; [apply sample_durable | vm_compute; reflexivity] | exact I]).
Qed.
Lemma sample_signs k d sig :
  sample_secp256r1_sign d (replicate 32 (as_u8 k)) = Some sig →
  secp256r1_verify d sig (Point.encoded (sample_key k)) = true.
Proof.
  unfold sample_secp256r1_sign. intros E. apply (inj Some) in E as <-. by apply bool_decide_eq_true_2.
Qed.
Lemma sample_key_pair i : key_pair (sample_key (i + 1)) (sample_service i).
Proof. intros d sig. exact (sample_signs (i + 1) d sig). Qed.

#[local] Abbreviation sample_final i := (exec (sample_inputs i) (sample_service i)).
(** ** What the primary signed and committed *)

(** The blocks a node signed, with the signatures. *)
Definition signed_block (net : N) (s : Service) : option (N * bytes * bytes) :=
  head (trace s ≫= λ a, match a with
    | SignedBlock h _ pre => omap (λ b, match b with
        | Signed d sig => if decide (d = sign_data net (hash_of pre)) then Some (h, pre, sig) else None
        | _ => None end) (trace s)
    | _ => [] end).
Lemma signed_block_signed net s h pre sig :
  signed_block net s = Some (h, pre, sig) →
  (∃ v, SignedBlock h v pre ∈ trace s) ∧ Signed (sign_data net (hash_of pre)) sig ∈ trace s.
Proof.
  unfold signed_block. intros Hh%head_Some_elem_of. apply list_elem_of_bind in Hh as (a & Hin & Ha).
  destruct a; try by apply elem_of_nil in Hin. apply list_elem_of_omap in Hin as (b & Hb & E).
  destruct b; try done. case_decide; [|done]. apply (inj Some) in E. simplify_eq. eauto.
Qed.

(** The block the primary committed is the one it signed. *)
Definition commits_signed (net : N) (s : Service) : bool :=
  match signed_block net s, committed_block s with
  | Some (h, pre, _), Some (h', hash, bd) =>
      (h =? 1) && (h' =? 1) &&
      bool_decide (sign_data net (hash_of (block_header bd)) ∈
        omap (λ a, match a with Signed d _ => Some d | _ => None end) (trace s)) &&
      collision_freeb sha256 (pre :: block_header bd :: preimages (trace s))
  | _, _ => false
  end.
Lemma commits_signed_spec net s :
  commits_signed net s = true →
  ∃ v pre sig hash bd sig',
    SignedBlock 1 v pre ∈ trace s ∧ Signed (sign_data net (hash_of pre)) sig ∈ trace s ∧
    Emitted (BlockCommitted 1 hash bd) ∈ trace s ∧
    Signed (sign_data net (hash_of (block_header bd))) sig' ∈ trace s ∧
    collision_free sha256 (pre :: block_header bd :: preimages (trace s)).
Proof.
  unfold commits_signed. intros E.
  destruct (signed_block net s) as [[[h pre] sig]|] eqn:Es; [|discriminate E].
  destruct (committed_block s) as [[[h' hash] bd]|] eqn:Ec; [|discriminate E].
  rewrite !andb_true_iff, !N.eqb_eq, bool_decide_eq_true in E. destruct E as [[[-> ->] Hd] Hcf].
  destruct (signed_block_signed _ _ _ _ _ Es) as [[v Hv] Hs].
  apply list_elem_of_omap in Hd as (a & Ha & Ea). destruct a; try discriminate Ea. apply (inj Some) in Ea. subst d.
  repeat eexists; [exact Hv | exact Hs | by apply committed_block_emitted | exact Ha | by apply collision_freeb_spec].
Qed.
Lemma sample_commits_signed : commits_signed 860833102 (sample_final 1) = true.
Proof. vm_compute. reflexivity. Qed.
Lemma sample_headers v pre hash bd :
  SignedBlock 1 v pre ∈ trace (sample_final 1) → Emitted (BlockCommitted 1 hash bd) ∈ trace (sample_final 1) →
  header_at 1 pre ∧ header_at 1 (block_header bd).
Proof.
  intros Hin Hc. destruct (disciplined_inv _ _ _ _ (sample_disciplined 1 ltac:(auto))) as [_ HT]. split.
  - exact (proj2 (inv_blocks _ _ _ _ _ HT _ _ _ Hin)).
  - destruct (inv_certs _ _ _ _ _ HT _ _ _ Hc) as [[Hh _] Hv _ _ _ _ _ _].
    unfold header_at, block_header. rewrite Hv, Hh. by repeat eexists.
Qed.

Lemma committed_block_certified_witness :
  ∃ hash bd, Emitted (BlockCommitted 1 hash bd) ∈ trace (sample_final 1) ∧ 3 ≤ len (bd_signatures bd).
Proof.
  destruct (commits_signed_spec _ _ sample_commits_signed) as (v & pre & sig & hash & bd & sig' & _ & _ & Hin & _).
  exists hash, bd. split; [exact Hin|].
  exact (proj1 (proj2 (proj2 (proj2 (committed_block_certified (sample_key 2) sample_committee (sample_inputs 1)
    (sample_service 1) 1 hash bd (sample_disciplined 1 ltac:(auto)) (sample_key_pair 1) Hin))))).
Defined.

Lemma signs_one_block_per_height_witness :
  ∃ v pre hash bd, SignedBlock 1 v pre ∈ trace (sample_final 1) ∧
    Emitted (BlockCommitted 1 hash bd) ∈ trace (sample_final 1) ∧ pre = block_header bd.
Proof.
  destruct (commits_signed_spec _ _ sample_commits_signed) as (v & pre & sig & hash & bd & sig' & Hb & Hs & Hc & Hs' & Hcf).
  exists v, pre, hash, bd. split; [exact Hb|]. split; [exact Hc|].
  destruct (sample_headers v pre hash bd Hb Hc) as [Hh Hh'].
  exact (signs_one_block_per_height (sample_key 2) sample_committee (sample_inputs 1) (sample_service 1) 1 pre
    (block_header bd) sig sig' (sample_disciplined 1 ltac:(auto)) ltac:(lia) Hh Hh' Hs Hs' Hcf).
Defined.

(** ** Agreement *)

Definition sample_nodes : list Node :=
  (λ i, mkNode (sample_key (i + 1)) (sample_service i) (sample_inputs i)) <$> [0; 1; 2].

(** What a node verified under the key of another, that one signed. *)
Definition signed_by (tr : list Action) : list bytes :=
  omap (λ a, match a with Signed d _ => Some d | _ => None end) tr.
Definition unforgedb (nodes : list (ECPoint * list Action)) : bool :=
  forallb (λ n, forallb (λ n', forallb (λ a, match a with
    | Verified k d _ => negb (bool_decide (k = n'.1)) || bool_decide (d ∈ signed_by n'.2)
    | _ => true end) n.2) nodes) nodes.
Lemma unforgedb_spec honest :
  unforgedb ((λ n, (n_key n, trace (final n))) <$> honest) = true → unforged honest.
Proof.
  set (f := λ n, (n_key n, trace (final n))). unfold unforgedb. rewrite forallb_forall.
  intros Hall n n' d sig Hn%(list_elem_of_fmap_2 f) Hn'%(list_elem_of_fmap_2 f) Hv.
  specialize (Hall _ (proj1 (list_elem_of_In _ _) Hn)). rewrite forallb_forall in Hall.
  specialize (Hall _ (proj1 (list_elem_of_In _ _) Hn')). rewrite forallb_forall in Hall.
  specialize (Hall _ (proj1 (list_elem_of_In _ _) Hv)). cbn [f fst snd] in Hall.
  rewrite bool_decide_eq_true_2 in Hall by done. apply bool_decide_eq_true in Hall.
  unfold signed_by in Hall. apply list_elem_of_omap in Hall as (a & Ha & E).
  destruct a; simplify_eq. eauto.
Qed.
Lemma sample_unforged : unforged sample_nodes.
Proof. apply unforgedb_spec. vm_compute. reflexivity. Qed.

(** Two nodes committed, and their headers do not collide with [ps]. *)
Definition both_commit (s s' : Service) (ps : list bytes) : bool :=
  match committed_block s, committed_block s' with
  | Some (h, _, bd), Some (h', _, bd') =>
      (h =? 1) && (h' =? 1) && collision_freeb sha256 (block_header bd :: block_header bd' :: ps)
  | _, _ => false
  end.
Lemma both_commit_spec s s' ps :
  both_commit s s' ps = true →
  ∃ hash hash' bd bd',
    Emitted (BlockCommitted 1 hash bd) ∈ trace s ∧ Emitted (BlockCommitted 1 hash' bd') ∈ trace s' ∧
    collision_free sha256 (block_header bd :: block_header bd' :: ps).
Proof.
  unfold both_commit. intros E.
  destruct (committed_block s) as [[[h hash] bd]|] eqn:Ec; [|discriminate E].
  destruct (committed_block s') as [[[h' hash'] bd']|] eqn:Ec'; [|discriminate E].
  rewrite !andb_true_iff, !N.eqb_eq in E. destruct E as [[-> ->] Hcf]. exists hash, hash', bd, bd'.
  split; [by apply committed_block_emitted|]. split; [by apply committed_block_emitted | by apply collision_freeb_spec].
Qed.
Lemma sample_commits : both_commit (sample_final 0) (sample_final 2) (signed_preimages sample_nodes) = true.
Proof. vm_compute. reflexivity. Qed.
#[local] Abbreviation sample_node i := (mkNode (sample_key (i + 1)) (sample_service i) (sample_inputs i)).
Lemma sample_nodes_run n :
  n ∈ sample_nodes → disciplined (n_key n) sample_committee (n_inputs n) (n_start n) ∧ network (n_start n) = 860833102.
Proof.
  unfold sample_nodes. intros (i & -> & Hi)%list_elem_of_fmap.
  split; [|reflexivity]. apply sample_disciplined. rewrite !elem_of_cons, elem_of_nil in Hi. tauto.
Qed.
Lemma sample_node_in i : i = 0 ∨ i = 1 ∨ i = 2 → sample_node i ∈ sample_nodes.
Proof.
  intros Hi. unfold sample_nodes. apply list_elem_of_fmap. exists i. split; [reflexivity|].
  rewrite !elem_of_cons, elem_of_nil. tauto.
Qed.
Lemma sample_keys_distinct : NoDup (n_key <$> sample_nodes) ∧ NoDup (v_public_key <$> sample_committee 1).
Proof.
  split; (eapply (bool_decide_eq_true_1 (NoDup _)); vm_compute; reflexivity).
Qed.
Lemma sample_faulty :
  len (filter (λ v, v_public_key v ∉ n_key <$> sample_nodes) (sample_committee 1)) ≤ (len (sample_committee 1) - 1) / 3.
Proof. vm_compute. discriminate. Qed.

Lemma dbft_agreement_witness :
  ∃ hash hash' bd bd',
    Emitted (BlockCommitted 1 hash bd) ∈ trace (sample_final 0) ∧
    Emitted (BlockCommitted 1 hash' bd') ∈ trace (sample_final 2) ∧
    block_header bd = block_header bd' ∧ hash = hash'.
Proof.
  destruct (both_commit_spec _ _ _ sample_commits) as (hash & hash' & bd & bd' & H0 & H2 & Hcf). exists hash, hash', bd, bd'.
  split; [exact H0|]. split; [exact H2|].
  exact (dbft_agreement 860833102 sample_committee sample_nodes (sample_node 0) (sample_node 2) 1 hash hash' bd bd'
    sample_nodes_run (proj1 sample_keys_distinct) sample_unforged (sample_node_in 0 ltac:(auto))
    (sample_node_in 2 ltac:(auto)) (proj2 sample_keys_distinct) sample_faulty H0 H2 Hcf).
Defined.

(** ** Single inputs *)

(** Validator 0 at the start of the round, and the primary's request. *)
Definition backup_start : Service := exec [Imported (sample_round 0)] (sample_service 0).
Definition request_payload : ConsensusPayload :=
  Eval vm_compute in match request with [Inbound p] => p | _ => Payload.new 0 0 0 0 MessageType.Commit [] end.
Definition forged_request : ConsensusPayload := Payload.set_witness (replicate 64 x00) request_payload.

Definition forgedb (p : ConsensusPayload) (s : Service) : bool :=
  match validators (context s) !! N.to_nat (cp_validator_index p), dbft_payload_hash (context s) p with
  | Some v, Ok hash => negb (secp256r1_verify (sign_data (network s) hash) (cp_witness p) (Point.encoded (v_public_key v)))
  | _, _ => true
  end.
Lemma forgedb_spec p s : forgedb p s = true → forged p s.
Proof. unfold forgedb, forged. intros E v hash Hv Hh _. rewrite Hv, Hh in E. by apply negb_true_iff. Qed.
Lemma forged_request_forged : forged forged_request backup_start.
Proof. apply forgedb_spec. vm_compute. reflexivity. Qed.
Lemma forged_request_refused : verdict forged_request backup_start = Err SignatureVerificationFailed.
Proof. vm_compute. reflexivity. Qed.

Lemma forged_message_inert_witness :
  process_message forged_request backup_start = (backup_start, Err SignatureVerificationFailed).
Proof.
  rewrite <- forged_request_refused.
  exact (forged_message_inert forged_request backup_start forged_request_forged).
Defined.

Lemma accepted (p : ConsensusPayload) (s : Service) :
  (process_message p s).2 = Ok tt → process_message p s = ((process_message p s).1, Ok tt).
Proof. intros <-. apply surjective_pairing. Qed.
Lemma request_accepted : (process_message request_payload backup_start).2 = Ok tt.
Proof. vm_compute. reflexivity. Qed.
Lemma request_in_view : wrong_view request_payload (context backup_start) = false.
Proof. vm_compute. reflexivity. Qed.

Lemma replayed_message_inert_witness :
  ∃ s', process_message request_payload backup_start = (s', Ok tt) ∧ process_message request_payload s' = (s', Ok tt).
Proof.
  exists (process_message request_payload backup_start).1.
  split; [exact (accepted request_payload backup_start request_accepted)|].
  exact (replayed_message_inert request_payload backup_start _
    (accepted request_payload backup_start request_accepted) request_in_view).
Defined.

Lemma view_never_goes_back_witness :
  view_number (context backup_start) ≤ view_number (context (handle (TimerTick 2000000) backup_start).1).
Proof. exact (proj2 (view_never_goes_back (TimerTick 2000000) backup_start I)). Defined.
