(* ===== verification/BlockAssembly.v ===== *)
(** * A committed block verifies

    The block a node assembles from the outcome of a consensus round carries the
    hash the round agreed on, the Merkle root of its transactions and a witness that
    the multi-signature check accepts: composition of the consensus service, the
    block assembly, the script builder and parser and the signature loops. *)
From S2P Require Import Prelude Primitives Order Hashing Io EcPoint MerkleTree OpCode Instruction ScriptBuilder ScriptFacts RecordUpdate.
From S2P Require Import Multisig Signing Transaction DbftMessages DbftContext DbftService Block BlockFacts.
From S2P Require Import Hoare DbftQuiet DbftInv Quorum DbftSteps DbftFrame DbftLog DbftRun DbftSafety SampleKeys DbftSample DbftWitness.
#[local] Open Scope N_scope.

(** ** Sorting with the indices attached *)

Section merge_fmap.
Context {A B} (f : A → B) (R : relation B) `{!RelDecision R}.
#[local] Abbreviation R' := (λ x y, R (f x) (f y)).
#[local] Instance pullback_dec : RelDecision R' := λ x y, decide (R (f x) (f y)).

Lemma list_merge_fmap l1 l2 : f <$> list_merge R' l1 l2 = list_merge R (f <$> l1) (f <$> l2).
Proof.
  revert l2. induction l1 as [|x l1 IH1]; intros l2; [by destruct l2|]. induction l2 as [|y l2 IH2]; [done|].
  cbn. change (decide (R' x y)) with (decide (R (f x) (f y))).
  destruct (decide (R (f x) (f y))); cbn; f_equal; [apply IH1 | apply IH2].
Qed.
#[local] Abbreviation onto := (map (option_map (fmap (M:=list) f))).
Lemma merge_list_to_stack_fmap st l :
  onto (merge_list_to_stack R' st l) = merge_list_to_stack R (onto st) (f <$> l).
Proof.
  revert l. induction st as [|[l'|] st IH]; intros l; cbn; [done| |done]. by rewrite IH, list_merge_fmap.
Qed.
Lemma merge_stack_fmap st : f <$> merge_stack R' st = merge_stack R (onto st).
Proof. induction st as [|[l|] st IH]; cbn; [done| |done]. by rewrite list_merge_fmap, IH. Qed.
Lemma merge_sort_fmap l : f <$> merge_sort R' l = merge_sort R (f <$> l).
Proof.
  unfold merge_sort. change (@nil (option (list B))) with (onto []). generalize (@nil (option (list A))) as st.
  induction l as [|x l IH]; intros st; [apply merge_stack_fmap|]. cbn [merge_sort_aux fmap list_fmap].
  rewrite IH. f_equal. apply merge_list_to_stack_fmap.
Qed.
End merge_fmap.

(** ** The signatures of the witness *)

Section pick.
Context `{Curves} `{Crypto}.
Implicit Types (sigs : gmap N bytes) (sorted : list (N * ECPoint)).

Lemma enumerate_lookup keys (i : nat) : BlockDataOps.enumerate keys !! i = (λ k, (N.of_nat i, k)) <$> keys !! i.
Proof. exact (list_lookup_imap (λ i k, (N.of_nat i, k)) keys i). Qed.
Lemma elem_of_enumerate keys i k : (i, k) ∈ BlockDataOps.enumerate keys ↔ keys !! N.to_nat i = Some k.
Proof.
  rewrite list_elem_of_lookup. setoid_rewrite enumerate_lookup. setoid_rewrite fmap_Some. split.
  - intros (n & k' & Hk & [= -> ->]). by rewrite Nat2N.id.
  - intros Hk. exists (N.to_nat i), k. by rewrite N2Nat.id.
Qed.
Lemma enumerate_snd keys : (BlockDataOps.enumerate keys).*2 = keys.
Proof. apply list_eq. intros i. rewrite list_lookup_fmap, enumerate_lookup. by destruct (keys !! i). Qed.
Lemma sorted_validators_snd keys : (BlockDataOps.sorted_validators keys).*2 = RedeemScript.sort_keys keys.
Proof. unfold BlockDataOps.sorted_validators. rewrite <- (enumerate_snd keys) at 2. exact (merge_sort_fmap snd _ _). Qed.
Lemma sorted_validators_perm keys : BlockDataOps.sorted_validators keys ≡ₚ BlockDataOps.enumerate keys.
Proof. apply merge_sort_Permutation. Qed.

Lemma signature_by_validator_lookup l i sig :
  NoDup l.*1 → BlockDataOps.signature_by_validator l !! i = Some sig ↔ (i, sig) ∈ l.
Proof.
  intros Hnd. unfold BlockDataOps.signature_by_validator.
  assert (foldl (λ m e, <[e.1 := e.2]> m) ∅ l = list_to_map (M:=gmap N bytes) (reverse l)) as ->.
  { clear Hnd. induction l as [|e l IH] using rev_ind; [done|]. rewrite foldl_app, IH, reverse_snoc. by destruct e. }
  rewrite <- elem_of_list_to_map; [by rewrite elem_of_reverse|].
  rewrite fmap_reverse. by rewrite reverse_Permutation.
Qed.

Abbreviation has sigs := (λ e : N * ECPoint, is_Some (sigs !! (e.1 mod 256))).
Lemma pick_signatures_spec n sigs sorted :
  ∃ own, own `sublist_of` sorted ∧
    Forall2 (λ e sig, sigs !! (e.1 mod 256) = Some sig) own (BlockDataOps.pick_signatures n sigs sorted).
Proof.
  revert n. induction sorted as [|[i k] sorted IH]; intros [|n]; cbn [BlockDataOps.pick_signatures];
    try (exists []; split; [apply sublist_nil_l | constructor]).
  destruct (sigs !! (i mod 256)) as [sig|] eqn:E.
  - destruct (IH n) as (own & Hs & HF). exists ((i, k) :: own). split; [by apply sublist_skip | by constructor].
  - destruct (IH (S n)) as (own & Hs & HF). exists own. split; [by apply sublist_cons | done].
Qed.
Lemma pick_signatures_length n sigs sorted :
  length (BlockDataOps.pick_signatures n sigs sorted) = (n `min` length (filter (has sigs) sorted))%nat.
Proof.
  revert n. induction sorted as [|[i k] sorted IH]; intros [|n]; cbn [BlockDataOps.pick_signatures]; try done.
  rewrite filter_cons. cbn [fst]. destruct (sigs !! (i mod 256)) as [sig|] eqn:E.
  - rewrite decide_True by done. cbn [length]. by rewrite IH.
  - rewrite decide_False by (by intros []). apply IH.
Qed.
End pick.

(** Enough validators signed: as many signatures are picked as required. *)
Lemma pick_enough `{Curves} `{Crypto} keys l required :
  len keys ≤ 256 → NoDup l.*1 → (∀ i sig, (i, sig) ∈ l → i < len keys) → required ≤ len l →
  len (BlockDataOps.pick_signatures (N.to_nat required) (BlockDataOps.signature_by_validator l)
         (BlockDataOps.sorted_validators keys)) = required.
Proof.
  intros Hk Hnd Hb Hr. unfold len. rewrite pick_signatures_length, sorted_validators_perm.
  set (f := filter _ _). assert (length l.*1 ≤ length f.*1)%nat as Hle.
  { apply submseteq_length, NoDup_submseteq; [done|].
    intros i ([i' sig] & -> & Hin)%list_elem_of_fmap. cbn. specialize (Hb _ _ Hin).
    destruct (lookup_lt_is_Some_2 keys (N.to_nat i')) as [k Hki]; [unfold len in *; lia|].
    apply list_elem_of_fmap. exists (i', k). split; [done|]. apply list_elem_of_filter. split; [|by apply elem_of_enumerate].
    cbn. rewrite N.mod_small by lia. exists sig. by apply signature_by_validator_lookup. }
  rewrite !length_fmap in Hle. unfold len in Hr. lia.
Qed.

(** ** The invocation script *)

Definition signature_push (sig : bytes) : bytes := [x0c; x40] ++ sig.
Lemma emit_signatures sigs script :
  Forall (λ sig, len sig = 64) sigs →
  foldl (λ s sig, Builder.emit_push sig s) script sigs = script ++ concat (signature_push <$> sigs).
Proof.
  intros Hs. revert script. induction Hs as [|sig sigs Hlen _ IH]; intros script; cbn [foldl fmap list_fmap concat].
  - by rewrite app_nil_r.
  - rewrite IH, app_assoc. f_equal. unfold Builder.emit_push, signature_push, Builder.emit_opcode. rewrite Hlen.
    by rewrite <- app_assoc.
Qed.
Lemma read_signatures_exact fuel pre sigs :
  Forall (λ sig, len sig = 64) sigs → (length sigs < fuel)%nat →
  RedeemScript.read_signatures fuel (pre ++ concat (signature_push <$> sigs)) (len pre) = Some sigs.
Proof.
  intros Hs. revert fuel pre. induction Hs as [|sig sigs Hlen Hs IH]; intros [|fuel] pre Hf; cbn in Hf; try lia.
  - cbn [fmap list_fmap concat RedeemScript.read_signatures]. rewrite app_nil_r. by rewrite N.ltb_irrefl.
  - set (tail := concat (signature_push <$> sigs)) in *.
    assert (pre ++ concat (signature_push <$> sig :: sigs) = pre ++ x0c :: x40 :: sig ++ tail) as -> by done.
    assert (len (pre ++ x0c :: x40 :: sig ++ tail) = len pre + 66 + len tail) as Hl
      by (rewrite len_app, !len_cons, len_app, Hlen; lia).
    cbn [RedeemScript.read_signatures]. rewrite Hl, at_or_zero_app.
    destruct (N.ltb_spec (len pre) (len pre + 66 + len tail)); [|lia].
    rewrite (bool_decide_true (x0c = _)) by done. cbn [negb].
    destruct (N.leb_spec (len pre + 66 + len tail) (len pre + 1)); [lia|].
    change (pre ++ x0c :: x40 :: sig ++ tail) with (pre ++ [x0c] ++ x40 :: sig ++ tail).
    rewrite app_assoc. replace (len pre + 1) with (len (pre ++ [x0c])) by (by rewrite len_app).
    rewrite at_or_zero_app. change (Byte.to_N x40) with 64. cbn [N.eqb Pos.eqb negb orb].
    destruct (N.ltb_spec (len pre + 66 + len tail) (len pre + 2 + 64)); [lia|].
    replace ((pre ++ [x0c]) ++ x40 :: sig ++ tail) with ((pre ++ [x0c; x40]) ++ sig ++ tail) by (by rewrite <- !app_assoc).
    rewrite slice_mid by (rewrite ?len_app; done).
    replace (len pre + 2 + 64) with (len ((pre ++ [x0c; x40]) ++ sig)) by (rewrite !len_app, Hlen; done).
    rewrite app_assoc, IH by lia. done.
Qed.
Lemma invocation_parses sigs :
  Forall (λ sig, len sig = 64) sigs → sigs ≠ [] →
  RedeemScript.parse_multi_sig_invocation (foldl (λ s sig, Builder.emit_push sig s) [] sigs) (len sigs) = Some sigs.
Proof.
  intros Hs Hne. rewrite emit_signatures by done. cbn [app]. unfold RedeemScript.parse_multi_sig_invocation.
  destruct (N.eqb_spec (len sigs) 0) as [E|_]; [by destruct sigs|].
  assert (length sigs ≤ length (concat (signature_push <$> sigs)))%nat as Hlen.
  { clear. induction sigs as [|sig sigs IH]; [done|]. cbn. rewrite length_app. lia. }
  pose proof (read_signatures_exact (S (length (concat (signature_push <$> sigs)))) [] sigs Hs ltac:(lia)) as E.
  change (len []) with 0 in E. cbn [app] in E. rewrite E. cbn. by rewrite N.eqb_refl.
Qed.

(** ** Committed blocks *)

Section assembly.
Context {crypto : Crypto} {ripemd : Ripemd} {curves : Curves} {order : HashOrder} {mcache : MessageCache} {bincode : Bincode}.

Lemma threshold_bounds n : 1 ≤ n → 1 ≤ RedeemScript.bft_threshold n ≤ n.
Proof.
  intros Hn. unfold RedeemScript.bft_threshold. destruct (N.eqb_spec n 0); [lia|].
  assert (3 * ((n - 1) / 3) ≤ n - 1) by (apply N.Div0.mul_div_le).
  set (q := (n - 1) / 3) in *. clearbody q. lia.
Qed.
Lemma verification_parses keys :
  1 ≤ len keys ≤ 1024 → Forall (λ k, key_ok (Point.encoded k)) keys →
  RedeemScript.parse_multi_sig_contract (multisig_verification_script keys) =
  Some (RedeemScript.bft_threshold (len keys), Point.encoded <$> RedeemScript.sort_keys keys).
Proof.
  intros Hn Hk. destruct (multisig_parses (RedeemScript.bft_threshold (len keys)) keys) as (script & Es & Hp);
    [apply threshold_bounds; lia | lia | done|]. unfold multisig_verification_script. by rewrite Es.
Qed.
Lemma merkle_root_verifies bd txs b :
  BlockOps.try_hashes txs = Ok (bd_transaction_hashes bd) →
  transactions b = txs → h_merkle_root (header b) = compute_merkle_root (bd_transaction_hashes bd) →
  BlockOps.verify_merkle_root b = true.
Proof.
  intros Hh Ht Hr. unfold BlockOps.verify_merkle_root, BlockOps.transaction_hashes. rewrite Ht, Hr, Hh.
  unfold compute_merkle_root. case_bool_decide as Hne.
  - subst txs. rewrite Hne in Hh. by injection Hh as <-.
  - destruct (compute_root_some (bd_transaction_hashes bd)) as [root ->]; [|by apply bool_decide_eq_true].
    intros E. rewrite E in Hh. destruct txs as [|t txs]; [done|]. cbn in Hh.
    apply Result_bind_ok in Hh as (? & _ & (? & _ & [=])%Result_bind_ok).
Qed.

(** The signatures picked for the witness belong, in order, to the sorted keys. *)
Lemma picked_signed keys l (ok : bytes → bytes → bool) required :
  len keys ≤ 256 → NoDup l.*1 →
  (∀ i sig, (i, sig) ∈ l → ∃ k, keys !! N.to_nat i = Some k ∧ ok (Point.encoded k) sig = true ∧ len sig = 64) →
  let picked := BlockDataOps.pick_signatures required (BlockDataOps.signature_by_validator l)
                  (BlockDataOps.sorted_validators keys) in
  Multisig.signed_by ok (Point.encoded <$> RedeemScript.sort_keys keys) picked ∧ Forall (λ sig, len sig = 64) picked.
Proof.
  intros Hk Hnd Hl picked.
  destruct (pick_signatures_spec required (BlockDataOps.signature_by_validator l) (BlockDataOps.sorted_validators keys))
    as (own & Hs & HF). fold picked in HF.
  assert (Forall2 (λ e sig, ok (Point.encoded e.2) sig = true ∧ len sig = 64) own picked) as HF'.
  { apply Forall2_same_length_lookup. split; [by eapply Forall2_length|]. intros n [i k] sig Hn Hsig.
    pose proof (Forall2_lookup_lr _ _ _ _ _ _ HF Hn Hsig) as E. cbn in E.
    assert ((i, k) ∈ BlockDataOps.enumerate keys) as Hin.
    { rewrite <- sorted_validators_perm. eapply elem_of_sublist; [|exact Hs]. by eapply list_elem_of_lookup_2. }
    apply elem_of_enumerate in Hin. pose proof (lookup_lt_Some _ _ _ Hin).
    rewrite N.mod_small in E by (unfold len in Hk; lia). apply signature_by_validator_lookup in E; [|done].
    destruct (Hl i sig E) as (k' & Hk' & Hok). cbn. by simplify_eq. }
  split.
  - exists (Point.encoded <$> own.*2). split.
    + rewrite <- sorted_validators_snd. by apply fmap_sublist, fmap_sublist.
    + rewrite !Forall2_fmap_l. by eapply Forall2_impl; [exact HF'|]; intros ?? [].
  - apply Forall_forall. intros sig [n Hn]%list_elem_of_lookup_1.
    destruct (Forall2_lookup_r _ _ _ _ _ HF' Hn) as (e & _ & _ & Hlen). done.
Qed.

(** (C4) The block a node commits in a disciplined run, with a signer that signs for
    its key and at most 256 validators whose keys are valid points, is valid for
    everyone: assembled with the
    transactions whose hashes were agreed on, it has the hash the round committed
    to and the Merkle root of its transactions; its verification script is the one
    the validators' address is the hash of and parses to their sorted keys with
    threshold [M = N - (N-1)/3]; its invocation script parses to [M] signatures,
    which both multi-signature checks accept over the hash, CheckMultisig on any
    engine that can be charged its fee. *)
Theorem committed_block_verifies me committee inputs s h hash bd txs :
  disciplined me committee inputs s → key_pair me s →
  Emitted (BlockCommitted h hash bd) ∈ trace (exec inputs s) →
  len (committee h) ≤ 256 → Forall (λ v, key_ok (Point.encoded (v_public_key v))) (committee h) →
  BlockOps.try_hashes txs = Ok (bd_transaction_hashes bd) →
  let verify key sig := Ok (secp256r1_verify (sign_data (network s) hash) sig key) : Result IoError bool in
  let m := RedeemScript.bft_threshold (len (committee h)) in
  ∃ b keys sigs,
    BlockDataOps.assemble_block bd txs = Ok b ∧ transactions b = txs ∧
    BlockOps.try_hash b = Ok hash ∧ BlockOps.verify_merkle_root b = true ∧
    from_script (verification_script (h_witness (header b))) = compute_next_consensus_address (committee h) ∧
    RedeemScript.parse_multi_sig_contract (verification_script (h_witness (header b))) = Some (m, keys) ∧
    RedeemScript.parse_multi_sig_invocation (invocation_script (h_witness (header b))) m = Some sigs ∧
    fast_path verify keys sigs = Passed ∧
    ∀ g, affords g (length keys) → (crypto_check_multisig verify (reverse keys) (reverse sigs) g).2 = Ok true.
Proof.
  intros Hd Hk Hin Hn Hkeys Htxs verify m.
  pose proof (inv_certs _ _ _ _ _ (inv_trace _ _ _ _ (disciplined_inv _ _ _ _ Hd)) _ _ _ Hin) as Hc.
  pose proof Hc as [_ _ Hhash Hpub Hne [Hreq Hq] Hdist _]. fold m in Hreq.
  assert (1 ≤ len (committee h)) as H1 by (destruct (committee h); [done | rewrite len_cons; lia]).
  pose proof (threshold_bounds _ H1) as Hm. fold m in Hm.
  assert (len (bd_validator_pubkeys bd) = len (committee h)) as Hlen by (rewrite Hpub; unfold len; by rewrite length_fmap).
  assert (∀ i sig, (i, sig) ∈ bd_signatures bd → ∃ k, bd_validator_pubkeys bd !! N.to_nat i = Some k ∧
    secp256r1_verify (sign_data (network s) hash) sig (Point.encoded k) = true ∧ len sig = 64) as Hsig.
  { intros i sig Hi. destruct (certificate_signature _ _ _ _ _ _ _ _ _ Hd Hk Hc Hi) as (v & Hv & Hs).
    exists (v_public_key v). by rewrite Hpub, list_lookup_fmap, Hv. }
  pose proof (sorted_distinct _ Hdist) as Hnd.
  set (picked := BlockDataOps.pick_signatures (N.to_nat (bd_required_signatures bd))
    (BlockDataOps.signature_by_validator (bd_signatures bd)) (BlockDataOps.sorted_validators (bd_validator_pubkeys bd))).
  assert (len picked = bd_required_signatures bd) as Hp.
  { apply pick_enough; [lia | done | | done]. intros i sig (k & Hi & _)%Hsig.
    apply lookup_lt_Some in Hi. unfold len. lia. }
  destruct (picked_signed (bd_validator_pubkeys bd) (bd_signatures bd)
    (λ key sig, secp256r1_verify (sign_data (network s) hash) sig key)
    (N.to_nat (bd_required_signatures bd)) ltac:(lia) Hnd Hsig) as [Hby H64]. fold picked in Hby, H64.
  assert (Forall (λ k, key_ok (Point.encoded k)) (bd_validator_pubkeys bd)) as Hko by (by rewrite Hpub, Forall_fmap).
  eexists _, _, picked. unfold BlockDataOps.assemble_block. fold picked. rewrite Hp, N.ltb_irrefl.
  split; [done|]. split; [done|]. split; [by rewrite Hhash; apply header_hash|].
  split; [by eapply merkle_root_verifies|]. cbn [h_witness header verification_script invocation_script].
  split; [unfold compute_next_consensus_address; by rewrite bool_decide_false, Hpub|].
  split; [rewrite verification_parses, Hlen by (done || lia); done|].
  split; [rewrite <- Hreq, <- Hp; apply invocation_parses; [done|]; intros E; rewrite E, Hreq in Hp; change (len []) with 0 in Hp; lia|].
  split; [by apply fast_path_exact; [by eapply signed_by_length|]|]. intros g Hg. apply signed_by_accepted; try done.
  - unfold len in Hp. lia.
  - rewrite length_fmap, (Permutation_length (sort_keys_perm _)). unfold len in Hlen, Hn. lia.
Qed.
End assembly.

(** ** The block of the sample network *)

#[local] Existing Instance checksum_crypto.
#[local] Existing Instance sample_curves.
#[local] Existing Instance sample_ripemd.

Definition commits_empty (s : Service) : bool :=
  match committed_block s with
  | Some (h, _, bd) => (h =? 1) && bool_decide (bd_transaction_hashes bd = [])
  | None => false
  end.
Lemma commits_empty_spec s :
  commits_empty s = true →
  ∃ hash bd, Emitted (BlockCommitted 1 hash bd) ∈ trace s ∧ BlockOps.try_hashes [] = Ok (bd_transaction_hashes bd).
Proof.
  unfold commits_empty. destruct (committed_block s) as [[[h hash] bd]|] eqn:E; [|done].
  rewrite andb_true_iff, N.eqb_eq, bool_decide_eq_true. intros [-> Ht].
  exists hash, bd. split; [by apply committed_block_emitted | by rewrite Ht].
Qed.
Lemma sample_commits_empty : commits_empty (exec (sample_inputs 1) (sample_service 1)) = true.
Proof. vm_compute. reflexivity. Qed.
Lemma sample_keys_ok : Forall (λ v, key_ok (Point.encoded (v_public_key v))) (sample_committee 1).
Proof. repeat constructor; eexists; vm_compute; reflexivity. Qed.
Lemma committed_block_verifies_witness :
  ∃ hash bd b, Emitted (BlockCommitted 1 hash bd) ∈ trace (exec (sample_inputs 1) (sample_service 1)) ∧
    BlockDataOps.assemble_block bd [] = Ok b ∧ BlockOps.try_hash b = Ok hash.
Proof.
  destruct (commits_empty_spec _ sample_commits_empty) as (hash & bd & Hin & Htx). exists hash, bd.
  destruct (committed_block_verifies (sample_key 2) sample_committee (sample_inputs 1) (sample_service 1) 1 hash bd []
    (sample_disciplined 1 ltac:(auto)) (sample_key_pair 1) Hin ltac:(vm_compute; discriminate) sample_keys_ok Htx)
    as (b & keys & sigs & Hb & _ & Hh & _).
  exact (ex_intro _ b (conj Hin (conj Hb Hh))).
Defined.
