(* ===== verification/DbftFaults.v ===== *)
(** * Where the protocol code falls short

    Runs and facts behind the findings: a network of one validator never signs a
    block, a second answer with transactions makes a primary sign two blocks of one
    view, and a commit that could not be saved still leaves the node. *)
From S2P Require Import Prelude Primitives Order Hashing Io EcPoint MerkleTree OpCode Instruction.
From S2P Require Import ScriptBuilder RecordUpdate SampleKeys DbftMessages DbftContext DbftService Hoare DbftQuiet DbftInv.
From S2P Require Import DbftSteps DbftFrame DbftLog DbftRun DbftSample.
#[local] Open Scope N_scope.
#[local] Open Scope update_scope.

(** ** A network of one validator *)

Section single.
Context {crypto : Crypto} {ripemd : Ripemd} {curves : Curves} {order : HashOrder} {mcache : MessageCache} {bincode : Bincode}.
Implicit Types (s : Service) (c : ConsensusContext) (p : ConsensusPayload).

(** We are the only validator; nothing is signed and nothing is saved. *)
Record Alone s : Prop := {
  alone_validators : validator_count (context s) = 1;
  alone_me : my_index (context s) = Some 0;
  alone_unsigned h v pre : SignedBlock h v pre ∉ trace s;
  alone_disk : disk s = None;
}.

Lemma alone_primary c : validator_count c = 1 → primary_index c = 0.
Proof.
  intros Hn. unfold primary_index. rewrite Hn. cbn. rewrite !Z.mod_1_r. done.
Qed.
Lemma alone_is_primary s : Alone s → is_primary (context s) = true.
Proof. intros [Hn Hm _ _]. unfold is_primary. rewrite Hm, alone_primary by done. by apply bool_decide_eq_true_2. Qed.

Lemma Alone_log s a : (∀ h v pre, a ≠ SignedBlock h v pre) → Alone s → Alone (s <| trace ::= cons a |>).
Proof.
  intros Ha [Hn Hm Hu Hd]. split; try done. cbn. intros h v pre [E|?]%elem_of_cons; [by eapply Ha | by eapply Hu].
Qed.
Lemma Alone_ctx s c : same_round (context s) c → Alone s → Alone (s <| context := c |>).
Proof.
  intros [_ _ Ev Em] [Hn Hm Hu Hd]. split; cbn; [|congruence|done|done]. unfold validator_count in *. by rewrite Ev.
Qed.
Lemma Alone_tick s : Alone s → Alone (s <| tick ::= N.succ |>).
Proof. intros []. by split. Qed.
Lemma Alone_running s b : Alone s → Alone (s <| running := b |>).
Proof. intros []. by split. Qed.
Lemma Alone_view s v t : view_number (context s) < v → Alone s → Alone (s <| context := reset_for_new_view v t (context s) |>).
Proof. intros _ []. by split. Qed.
Lemma Alone_sign d : keeps Alone (sign d).
Proof. apply keeps_sign; [apply Alone_tick|]. intros s sig. by apply Alone_log. Qed.
Lemma Alone_verify d sig i : keeps Alone (verify_signature d sig i).
Proof. apply keeps_verify. intros s k. by apply Alone_log. Qed.
#[local] Hint Resolve Alone_log Alone_ctx Alone_tick Alone_running Alone_view Alone_sign Alone_verify : core.

(** The primary does not respond to itself, and there is nobody else. *)
Lemma Alone_send_prepare_response : keeps Alone send_prepare_response.
Proof.
  intros s HA. unfold send_prepare_response, ctx, mbind, M_bind, id. by rewrite (alone_is_primary s HA).
Qed.
Lemma alone_witness p s :
  Alone s → cp_validator_index p ≠ 0 → (check_witness p s).1 = s ∧ ∃ e, (check_witness p s).2 = Err e.
Proof.
  intros [Hn _ _ _] Hp. unfold check_witness. case_match; [by eauto|].
  unfold gets, ctx, lift, dbft_sign_data, dbft_payload_hash, dbft_unsigned_extensible_bytes, dbft_sender, mbind, M_bind.
  cbn. rewrite lookup_ge_None_2; [by cbn; eauto|]. unfold validator_count, len in Hn. lia.
Qed.
Lemma Alone_on_prepare_response p : keeps Alone (on_prepare_response p).
Proof.
  intros s HA. unfold on_prepare_response, ctx, mbind, M_bind, id. cbv beta iota.
  destruct (not_accepting_payloads_due_to_view_changing (context s)); [done|].
  rewrite (alone_primary _ (alone_validators _ HA)). destruct (N.eqb_spec (cp_validator_index p) 0) as [|Hp]; [done|].
  destruct (bool_decide (is_Some _)); [done|]. destruct (alone_witness p s HA Hp) as [Es [e Ee]].
  destruct (check_witness p s) as [s' r]. cbn in *. by subst.
Qed.
#[local] Hint Resolve Alone_send_prepare_response Alone_on_prepare_response : core.

(** The rounds of such a network. *)
Definition alone_input (i : Input) : Prop :=
  match i with
  | Imported r | Restarted _ _ r _ => len (rd_validators r) = 1 ∧ rd_me r = Some 0
  | _ => True
  end.

Lemma Alone_start r s :
  (∀ h v pre, SignedBlock h v pre ∉ trace s) → disk s = None → alone_input (Imported r) →
  Alone (start_round r (s <| context := configured_context r (context s) |>)).1.
Proof.
  intros Hu Hd [Hl Hm]. rewrite start_round_run by (cbn; by rewrite Hm). by split.
Qed.
Lemma try_load_none h t prev next ver s :
  disk s = None → try_load_and_resume h t prev next ver s = (s, Ok false).
Proof.
  intros Hd. unfold try_load_and_resume, gets, mbind, M_bind. cbv beta iota. rewrite Hd. by destruct (state_path s).
Qed.
Lemma Alone_handle i s : Alone s → alone_input i → Alone (handle i s).1.
Proof.
  intros HA Hi. destruct i as [vs idx r t|r|p|h x|t|hs|l rej t]; cbn [handle].
  - rewrite restart_run. cbv zeta. destruct HA as [_ _ Hu Hd]. rewrite try_load_none by exact Hd.
    apply Alone_start; [exact Hu | exact Hd | exact Hi].
  - unfold new_round, mbind, M_bind. rewrite configure_round_run. destruct HA as [_ _ Hu Hd].
    apply Alone_start; [exact Hu | exact Hd | exact Hi].
  - apply K_process_message; auto.
  - revert s HA. change (keeps Alone (feed_transaction h x)). unfold feed_transaction.
    apply keeps_bind; [by intros s|intros c]. apply keeps_bind.
    + destruct x; [|apply keeps_ret]. case_match; [|apply keeps_ret]. intros s HA. apply Alone_ctx; [apply round_metrics | done].
    + intros _ s HA. unfold on_transaction. rewrite bind_gets, bind_ctx_id. case_match; [done|].
      assert (is_backup (context s) = false) as ->; [|done].
      unfold is_backup. rewrite (alone_me _ HA), (alone_primary _ (alone_validators _ HA)). done.
  - apply K_on_timer_tick; auto.
  - apply K_on_transactions_received; auto.
  - revert s HA. change (keeps Alone (proposal_transactions l rej t)). unfold proposal_transactions.
    apply keeps_bind; [apply keeps_for_each; intros x _ s HA; apply Alone_ctx; [apply round_metrics | done] | intros _].
    apply keeps_bind; [apply J_attempt, K_on_transactions_received; auto | intros _].
    destruct rej; [apply J_request_change_view; auto | apply keeps_ret].
Qed.

(** (C39) A network of one validator never produces a block: whatever it is fed, that
    validator never signs one. *)
Theorem single_validator_never_signs inputs s :
  fresh s → Forall alone_input inputs → match inputs with Imported _ :: _ => True | _ => False end →
  ∀ h v pre, SignedBlock h v pre ∉ trace (exec inputs s).
Proof.
  intros [Hf Hd] Hall Hi. destruct inputs as [|[|r| | | | |] rest]; try done.
  apply Forall_cons in Hall as [Hr Hall]. cbn [exec].
  assert (Alone (handle (Imported r) s).1) as HA.
  { cbn [handle]. unfold new_round, mbind, M_bind. rewrite configure_round_run.
    apply Alone_start; [|done|done]. rewrite Hf. intros *. apply not_elem_of_nil. }
  clear Hi Hf Hd Hr. revert HA. generalize (handle (Imported r) s).1. clear s r.
  induction Hall as [|i rest Hi Hall IH]; intros s HA; [apply HA|]. by apply IH, Alone_handle.
Qed.
End single.

#[local] Existing Instance checksum_crypto.
#[local] Existing Instance sample_curves.
#[local] Existing Instance sample_ripemd.

(** The sample network without the other validators: its only validator is
    handed transactions and its view times out. *)
Definition alone_round : Round := {|
  rd_validators := take 1 sample_validators; rd_me := Some 0; rd_block_time := 15000;
  rd_max_block_size := DEFAULT_MAX_BLOCK_SIZE; rd_max_block_system_fee := DEFAULT_MAX_BLOCK_SYSTEM_FEE;
  rd_index := 1; rd_timestamp := 1000000; rd_prev_hash := UInt256.mk 5 6 7 8; rd_prev_timestamp := 999999;
  rd_next_consensus := UInt160.mk 9 9 9 |}.
Definition alone_inputs : list Input := [Imported alone_round; PrimaryTransactions []; TimerTick 2000000].
Lemma single_validator_never_signs_witness :
  Forall (λ a, match a with SignedBlock _ _ _ => False | _ => True end) (trace (exec alone_inputs (sample_service 0))).
Proof.
  apply Forall_forall. intros a Ha. destruct a as [| h v pre | | | |]; try exact I.
  refine (single_validator_never_signs alone_inputs (sample_service 0) _ _ I h v pre Ha); [done|].
  by repeat constructor.
Defined.

(** ** A second answer with transactions *)

(** The blocks a node signed, with their height and view. *)
Definition signed_blocks (tr : list Action) : list (N * N * bytes) :=
  omap (λ a, match a with SignedBlock h v pre => Some (h, v, pre) | _ => None end) tr.
Lemma elem_of_signed_blocks tr h v pre : (h, v, pre) ∈ signed_blocks tr → SignedBlock h v pre ∈ tr.
Proof. intros (a & Ha & E)%list_elem_of_omap. by destruct a; simplify_eq. Qed.

(** The primary commits to its proposal, is handed transactions again, proposes
    again, and validator 3 responds to the second proposal. *)
Definition second_request : list Input :=
  Eval vm_compute in inbound_from (exec (inputs2 1 ++ [PrimaryTransactions []]) (sample_service 1)) 2.
Definition second_response : list Input :=
  Eval vm_compute in inbound_from (exec (Imported (sample_round 3) :: second_request) (sample_service 3)) 0.
Definition twice_answered : list Input :=
  Eval vm_compute in inputs2 1 ++ [PrimaryTransactions []] ++ second_response.

Definition two_blocks (tr : list Action) : bool :=
  match signed_blocks tr with
  | [(h, v, pre); (h', v', pre')] =>
      (h =? 1) && (h' =? 1) && (v =? 0) && (v' =? 0) && negb (bool_decide (pre = pre'))
  | _ => false
  end.
Lemma two_blocks_spec tr :
  two_blocks tr = true → ∃ pre pre', SignedBlock 1 0 pre ∈ tr ∧ SignedBlock 1 0 pre' ∈ tr ∧ pre ≠ pre'.
Proof.
  unfold two_blocks. intros E. assert (∀ x, x ∈ signed_blocks tr → SignedBlock x.1.1 x.1.2 x.2 ∈ tr) as Hin.
  { intros [[h v] pre]. apply elem_of_signed_blocks. }
  destruct (signed_blocks tr) as [|[[h v] pre] [|[[h' v'] pre'] []]]; try discriminate E.
  rewrite !andb_true_iff, !N.eqb_eq, negb_true_iff, bool_decide_eq_false in E. destruct E as [[[[-> ->] ->] ->] Hne].
  exists pre, pre'. split; [apply (Hin (1, 0, pre)); by constructor|].
  split; [apply (Hin (1, 0, pre')); by do 2 constructor | done].
Qed.

(** Nothing stops a primary that is handed transactions twice in one view: it
    signs two blocks of the same height and view. *)
Example second_answer_signs_twice :
  ∃ pre pre', let tr := trace (exec twice_answered (sample_service 1)) in
    SignedBlock 1 0 pre ∈ tr ∧ SignedBlock 1 0 pre' ∈ tr ∧ pre ≠ pre'.
Proof. apply two_blocks_spec. vm_compute. reflexivity. Qed.

(** ** A commit that could not be saved *)

(** Validator 0 on a disk that fails. *)
Definition broken_disk : Service :=
  new_with_signer 860833102 sample_validators (Some 0) (replicate 32 x01) false
    (mkWorld (w_now sample_world) (w_nonce sample_world) (w_signer sample_world) (w_channel sample_world) (λ _, false))
    None <| state_path := true |>.
(** It signs its commit, and its view times out. *)
Definition unsaved_inputs : list Input := Eval vm_compute in inputs2 0 ++ [TimerTick 2000000].

Definition broadcast_types (tr : list Action) : list MessageType.t :=
  omap (λ a, match a with Emitted (BroadcastMessage p) => Some (cp_message_type p) | _ => None end) tr.
Definition saved_files (tr : list Action) : list bytes :=
  omap (λ a, match a with Saved file => Some file | _ => None end) tr.
(** The commits in the recovery messages of a trace, with the blocks' signatures. *)
Definition recovered_commits (tr : list Action) : list (N * bytes) :=
  tr ≫= λ a, match a with
    | Emitted (BroadcastMessage p) =>
        match cp_message_type p, Recovery.deserialize (cp_data p) 1 0 0 with
        | MessageType.RecoveryMessage, Ok m => (λ x, (cc_validator_index x, cc_signature x)) <$> rm_commit_messages m
        | _, _ => []
        end
    | _ => []
    end.
Definition own_signatures (tr : list Action) : list bytes :=
  omap (λ a, match a with Signed _ sig => Some sig | _ => None end) tr.

(** When the context cannot be saved the Commit message is held back, but the
    commit leaves the node in the recovery message of the next timeout: it is sent
    without ever being on disk. *)
Example unsaved_commit_is_sent :
  let tr := trace (exec unsaved_inputs broken_disk) in
  saved_files tr = [] ∧ (MessageType.Commit ∉ broadcast_types tr) ∧
  ∃ sig, sig ∈ own_signatures tr ∧ (0, sig) ∈ recovered_commits tr.
Proof.
  split; [vm_compute; reflexivity|]. split.
  - apply (bool_decide_eq_false_1 (MessageType.Commit ∈ _)). vm_compute. reflexivity.
  - assert (existsb (λ x, bool_decide (x.1 = 0) && bool_decide (x.2 ∈ own_signatures (trace (exec unsaved_inputs broken_disk))))
              (recovered_commits (trace (exec unsaved_inputs broken_disk))) = true) as E by (vm_compute; reflexivity).
    apply existsb_exists in E as ([i sig] & Hin & [Hi Hs]%andb_true_iff).
    apply bool_decide_eq_true in Hi, Hs. cbn [fst snd] in Hi, Hs. subst i. exists sig.
    split; [exact Hs | by apply list_elem_of_In].
Qed.
